(* ===== verification/_CoqProject ===== *)
-Q . S2P
Prelude.v
Wire.v
Ethernet.v
Ip.v
Udp.v
Tcp.v
Dns.v
Arp.v
Dhcp.v
Checksum.v
View.v
SourceNat.v
Neighbor.v
Conntrack.v
AddrPool.v
Frame.v
Fdb.v
Leases.v
DhcpFrame.v
DhcpServer.v
DhcpClient.v
Workers.v
DhcpWorkers.v
Locks.v
Guards.v
Ring.v
ObjectPool.v
Alloc.v
NetUtil.v
PortPlan.v
Mbuf.v
Worker.v
App.v
Datapath.v
Firewall.v
Steps.v
Exchange.v
Concurrent.v
Bridge.v
Lifecycle.v
Main.v
Status.v
Boot.v
BuildSize.v
BuildScript.v
TestsNet.v
TestsFlows.v
TestsNat.v
TestsHosts.v
TestsMem.v
