(* ===== verification/Prelude.v ===== *)
(** * userspace-router: a verification development

    The program is a software router: worker threads poll network ports, parse
    each frame in place, and bridge, route, translate or answer it.  This
    library models its protocol code, the tables the workers share, the DHCP
    control plane, the datapath that composes them, the memory and lock
    primitives underneath, the packet buffers, the start-up and the shutdown, and
    proves what makes them correct, for one worker and for many.

    ** Parts and files

    Packet formats ([src/net]).  [Wire]: big-endian fields and zero-copy casts
    between byte ranges and header structs (class [Pod], with the laws that a
    cast and its inverse satisfy).  [Ethernet], [Ip], [Udp], [Tcp], [Dns],
    [Arp], [Dhcp]: one file per header module, a record per struct and a
    definition per getter and setter; [Arp] and [Dhcp] also have the ARP
    handler and cache, and the option reader and writer.  [Checksum]: the
    internet checksum and its incremental update.  [View]: the layered parser;
    a view is the buffer with the positions the source keeps.

    Router tables ([src/router]).  [SourceNat] (nat.rs): the NAT table, its port
    allocator and the translation of frames in both directions.  [Neighbor]
    (neighbor.rs): ARP resolution with its queues, retries and ageing.
    [Conntrack] (conntrack.rs): per-flow TCP state and the inbound filter.
    [AddrPool] (pool.rs): free addresses as intervals.  [Fdb] (fdb.rs) and
    [Leases] (leases.rs): the forwarding and lease tables.

    DHCP control plane ([src/router/frame.rs], [src/router/dhcp.rs]).  [Frame]:
    the UDP/IPv4 frame builder.  [DhcpFrame]: what server and client share.
    [DhcpServer] and [DhcpClient]: the two state machines.  [DhcpWorkers]: the
    servers again, as workers that interleave between any two operations on the
    pool and the leases.

    Primitives ([src/core], [src/mem], [src/net/util.rs]).  [Locks]
    (spinlock.rs): both locks as step relations over threads; [Guards]: their
    guards, over the class [LockWord] that both implement.  [Ring] (ring.rs):
    the single-producer single-consumer ring and its handles.  [ObjectPool]
    (bitmask.rs, pool.rs).  [Alloc] (alloc.rs): the free list inside the memory
    it manages, and the arena.  [NetUtil]: netmasks and hardware addresses.
    [BuildSize] and [BuildScript] (build.rs): the size of the heap, from the build
    environment, and the script as the sequence of its jobs.

    Hardware plan ([src/dpdk/port.rs], lcore.rs, util.rs).  [PortPlan]: port
    initialisation and the assignment of queues to cores; the driver library is
    the record [Eal] of its answers, a parameter.  [Mbuf] (mbuf.rs, mempool.rs,
    and the receive and transmit calls of port.rs): packet buffers and who owns
    them, over the class [Dpdk] of the driver library's calls; [DpdkLaws] states
    what the library documents, and [Bench] is an instance.

    Datapath ([src/router/worker.rs], arp.rs, app.rs).  [Worker]: the helpers
    that rewrite and answer single packets.  [App]: every handler of the poll
    loop, in a state monad over the record [Tables] of shared tables whose
    output is the list of frames handed to ports.  Its properties are in
    [Datapath] (panic freedom), [Firewall], [Exchange] (a TCP connection end to
    end) and [Bridge] (LAN to LAN).

    Concurrency.  [Workers]: programs as trees of atomic operations, any number
    of workers running them under any schedule, and the proof rule used for
    them.  [Steps]: the handlers of [App] as such programs, an operation per
    acquisition of a lock or access to an atomic.  [Concurrent]: the properties
    of the whole datapath under every schedule.

    Start-up ([src/main.rs], [src/router/conf.rs]).  [Main]: the configuration
    and the application context, tables and workers built from it.  [Lifecycle]
    ([app.rs], the end of [main.rs]): signals, the launch of the workers, their
    panics, and the teardown, as steps of the threads.  [Boot] ([main.rs],
    [examples/probe.rs]): the process, from its environment and arguments on, and
    the composition of the start-up with every run of the workers.  [Status]: what
    the [status] methods and the [Display] instances print.

    The repository's own tests, translated and run on the definitions above:
    [TestsNet] (headers, views, ARP), [TestsFlows] (connection tracking),
    [TestsNat] (translation, frames), [TestsHosts] (neighbours, pool, leases,
    DHCP), [TestsMem] (allocator, ring, object pool).

    ** How the source is represented

    Bytes and words are [Z] with range predicates; wrapping, truncation and
    masks are written out.  Slices are [list Z]; an operation that writes
    through [&mut [u8]] returns the new buffer.  A Rust panic (slice index,
    [unwrap], [assert!]) is the value [Panic] of the type [outcome], so "never
    panics" is a theorem.  [Option] is [option].  [HashMap]s are [gmap]s; where
    the iteration order of a map can be seen (the neighbour sweep), the order
    is a parameter and the theorem holds for each.  Time is the [Tick] value
    that the source passes to its operations.

    The [Shared*] handles run each operation of a table under a spin lock; a
    shared table therefore sees some sequence of whole operations, and the
    theorems on a table quantify over every list of its operations.  [Locks]
    proves that the locks make it so.  In [App] and the files on it an event (the
    treatment of one frame, of the WAN lease, or one sweep) is one step; in
    [Steps] it is the sequence of its operations, between any two of which other
    workers may run.  The theorem of [Steps] relates the two.  Sending is not an
    operation on the tables, so the order of two workers' frames is not fixed by
    the locks; the theorems on what is sent are about each frame.

    [App] assumes the wiring that [Main] builds: one WAN port with its own
    neighbour table and client, LAN ports that share one neighbour table, one
    pool and one lease table.  Received frames are arguments of the handlers.

    The DHCP server uses the pool through the class [FreePool]; its theorems are
    proved against that interface and [AddrPool] provides the instance.

    ** What the theorems show

    - [Checksum], [Dhcp], [Frame], [View]: checksums verify after they are
      stored, the incremental update equals recomputation, options and frames
      that are written are read back, and parsing any bytes never panics.
    - [SourceNat]: the table's two maps stay inverse, the allocator finds a free
      port whenever one exists, translation rewrites exactly the endpoint and
      keeps the checksums as valid as they were, and the translation of return
      traffic restores the original endpoint.
    - [Conntrack]: an inbound segment is accepted only on a flow that was opened
      from inside and neither reset, closed nor evicted since; transitions are
      the segment processing of RFC 9293 for segments of the usual kind; the
      sweep removes exactly the idle flows.
    - [Neighbor]: packets are conserved, released in order by the ARP answer,
      and given up after exactly three requests and within bounded time, under
      any sequence of other operations.
    - [AddrPool]: the interval list refines a set of addresses.
    - [DhcpServer], [DhcpClient]: leases stay exclusive under every sequence of
      messages; the exchange DISCOVER, OFFER, REQUEST, ACK, carried by real
      frames, binds the client to the address the servers recorded; a client is
      bound only by its own transaction.
    - [DhcpWorkers]: leases also stay exclusive when messages interleave.
    - [Locks], [Guards], [Ring], [ObjectPool], [Alloc]: critical sections are
      serialised and readers exclude writers; a lock that is only taken through
      guards can always be taken again; every interleaving of producer and consumer
      is a bounded queue; the pool is a map with exclusive slots; blocks handed
      out are aligned, disjoint and preserved, and free room is merged, so a
      request is refused only when no free range has room for it.
    - [PortPlan], [Main], [NetUtil]: requested queues and rings respect the
      device's limits, no queue has two owners, the start-up yields fresh
      tables, and netmasks and prefix lengths correspond one to one.
    - [Datapath], [Firewall], [Exchange], [Bridge]: no frame makes a handler
      panic or breaks a table; whatever reaches the LAN from the WAN belongs to
      a flow that a LAN host opened; a SYN goes out translated and its answer
      reaches the host; frames between LAN hosts follow a learning bridge.
      Where the comments promise otherwise for VLAN-tagged frames and later
      fragments, the theorems on forwarding and translation leave them out.
    - [Concurrent]: the firewall holds under every interleaving, and on a LAN
      whose hosts keep their addresses no worker panics and leases stay exclusive.
    - [Boot]: from a valid configuration file on, the program comes up and is a
      firewall under every schedule of its workers.
    - [Tests*]: each test of the repository passes on the model (the allocator's
      at every alignment of its buffer, the two-thread ring test in every
      interleaving).
    - [Mbuf]: no buffer is leaked, freed twice or used after it was handed over;
      what is sent is the frame; an edit in place changes one header.
    - [Lifecycle]: resources are released once, in order, after the last worker,
      unless the main core panics, which frees the context and the pools at
      most; a requested shutdown ends in any case.  [BuildSize]: a size is read as it is written.
      [BuildScript]: a failed build leaves the source tree alone.

    Behaviour that differs from the documentation or breaks an invariant is
    stated as a lemma beside the component ([fragments_are_translated],
    [double_release_duplicates], [release_of_leased_address], [nak_keeps_lease],
    [selecting_is_silent], [arp_moves_return_twice],
    [arp_request_maps_target_to_zero], [sweep_not_throttled],
    [retransmission_on_first_port], [other_socket_queue_unpolled],
    [assign_ports_panics], [unwound_blocks], [drops_free_twice],
    [concurrent_discovers_lose_an_address], [release_panic_aborts],
    [main_panic_skips_teardown], [main_panic_frees_pools_of_running_ports],
    [queued_packets_outlive_driver], [spoofed_source_cuts_off_host],
    [bare_reset_closes_syn_sent], [fin_in_handshake_ignored],
    [oversized_frame_not_sent], [neighbor_status_prints]).

    ** Bounds and fuel

    Loops whose recursion is not structural carry fuel that is proved to be
    enough: the checksum fold (two turns for every [u32]), the port search (one turn per port of the range),
    the option reader (one turn per byte), the walks of the free list (one turn
    per smallest block of the region).  The scans of [PortPlan] over port and
    core numbers take one turn per number.  The arena is assumed to end below
    address 2^62, far above the user address space, so that aligning the largest
    layout cannot overflow.  Buffer lengths are assumed below
    2^63, the limit Rust gives to an allocation.  A DHCP reply fits its 512-byte
    scratch buffer when at most 60 DNS servers are configured ([cfg_ok]).
    Decimal numerals are written with 20 digits at most, enough for a 64-bit size.

    ** Not modelled

    The file system, the deserialisation of the configuration, the hash function,
    the driver library and the tools of the build are code outside the
    repository; they are parameters with their documented behaviour as
    hypotheses.  Log lines are left out, as are the constants that no code uses
    and the compile-time checks of [Send] and [Sync].  In [Concurrent] a
    panic ends the schedule: what the other workers do while the process shuts
    down is in [Lifecycle], where a turn of a poll loop is one step.  The
    memory model is sequentially consistent: the source orders its accesses with
    locks and with acquire and release operations.  *)

From Stdlib Require Export ZArith Lia.
From stdpp Require Export base gmap sets list strings numbers.
Open Scope Z_scope.

(** ** Machine integers

    A Rust [u8]/[u16]/[u32]/[u64] is a [Z] with a range predicate; wrap-around
    is written out where the source asks for it ([wrapping_add], [as u16],
    [!x]).  Positions inside a byte slice are [nat]. *)

Definition u8 (x : Z) : Prop := 0 ≤ x < 2 ^ 8.
Definition u16 (x : Z) : Prop := 0 ≤ x < 2 ^ 16.
Definition u32 (x : Z) : Prop := 0 ≤ x < 2 ^ 32.
Definition u64 (x : Z) : Prop := 0 ≤ x < 2 ^ 64.

#[global] Instance u8_dec x : Decision (u8 x).
Proof. unfold u8. apply _. Defined.
#[global] Instance u16_dec x : Decision (u16 x).
Proof. unfold u16. apply _. Defined.
#[global] Instance u32_dec x : Decision (u32 x).
Proof. unfold u32. apply _. Defined.
#[global] Instance u64_dec x : Decision (u64 x).
Proof. unfold u64. apply _. Defined.

Abbreviation bytes := (list Z) (only parsing).

(** A Rust slice holds at most [isize::MAX] bytes, each of them a [u8]. *)
Definition slice_ok (b : bytes) : Prop := Forall u8 b ∧ Z.of_nat (length b) < 2 ^ 63.

#[global] Instance slice_ok_dec b : Decision (slice_ok b).
Proof. unfold slice_ok. apply _. Defined.

(** Bitwise complement of a [w]-bit word ([!x] in Rust). *)
Definition not16 (x : Z) : Z := 65535 - x.

Definition to_be16 (x : Z) : bytes := [Z.shiftr x 8 `mod` 256; x `mod` 256].
Definition to_be32 (x : Z) : bytes :=
  [Z.shiftr x 24 `mod` 256; Z.shiftr x 16 `mod` 256; Z.shiftr x 8 `mod` 256; x `mod` 256].

(** [from_be_bytes] over a slice of any length; the source applies it to
    arrays of two and four bytes. *)
Definition from_be (b : bytes) : Z := foldl (λ a x, a * 256 + x) 0 b.

(** [usize::checked_add] on slice offsets. *)
Definition checked_add (a b : nat) : option nat :=
  if Z.of_nat a + Z.of_nat b <? 2 ^ 64 then Some (a + b)%nat else None.

(** ** Panics

    Indexing out of range, a length mismatch in [copy_from_slice], a failed
    [assert!] and (in a build with overflow checks) an arithmetic overflow all
    end in [Panic]. *)

Inductive outcome (A : Type) : Type :=
| Ret (a : A)
| Panic.
Arguments Ret {A} a.
Arguments Panic {A}.

#[global] Instance outcome_ret : MRet outcome := @Ret.
#[global] Instance outcome_bind : MBind outcome := λ A B f m,
  match m with Ret a => f a | Panic => Panic end.

(** A computation that may panic and may return [None]: [m?] in a function
    returning [Option]. *)
Definition obind {A B} (m : outcome (option A)) (k : A → outcome (option B)) : outcome (option B) :=
  match m with
  | Ret (Some a) => k a
  | Ret None => Ret None
  | Panic => Panic
  end.
Notation "x ←? m ; k" := (obind m (λ x, k))
  (at level 20, m at level 100, k at level 200, right associativity,
   format "x  ←?  m ;  '/' k").

(** [Option::expect]. *)
Definition expect {A} (o : option A) : outcome A :=
  match o with Some a => Ret a | None => Panic end.

(** [assert!]. *)
Definition assert_ (b : bool) : outcome unit := if b then Ret () else Panic.

(** Checked [u32] arithmetic: the overflow-checked build panics, and where the
    theorems show no panic the wrapping build computes the same value. *)
Definition add32 (a b : Z) : outcome Z := if a + b <? 2 ^ 32 then Ret (a + b) else Panic.
Definition sub32 (a b : Z) : outcome Z := if b <=? a then Ret (a - b) else Panic.

(** ** Slices *)

(** [&b[off .. off + len]] when in range. *)
Definition slice (off len : nat) (b : bytes) : bytes := firstn len (skipn off b).

(** [b[off .. off + v.len()].copy_from_slice(v)] when in range. *)
Definition splice (off : nat) (v b : bytes) : bytes :=
  firstn off b ++ v ++ skipn (off + length v) b.

(** The range-checked forms the indexing syntax stands for. *)
Definition get_range (b : bytes) (lo hi : nat) : outcome bytes :=
  if bool_decide (lo ≤ hi ∧ hi ≤ length b)%nat then Ret (slice lo (hi - lo) b) else Panic.
Definition copy_range (b : bytes) (lo hi : nat) (v : bytes) : outcome bytes :=
  if bool_decide (lo ≤ hi ∧ hi ≤ length b ∧ hi - lo = length v)%nat
  then Ret (splice lo v b) else Panic.
Definition get_index (b : bytes) (i : nat) : outcome Z :=
  match b !! i with Some x => Ret x | None => Panic end.

(** ** Addresses *)

(** [Ipv4Addr] is its [u32] value: the derived order and equality of
    [std::net::Ipv4Addr] are those of that number. *)
Abbreviation Ipv4Addr := Z (only parsing).
Definition octets (a : Ipv4Addr) : bytes := to_be32 a.
Definition ip_from (b : bytes) : Ipv4Addr := from_be b.
Definition ip4 (a b c d : Z) : Ipv4Addr := from_be [a; b; c; d].
Definition is_unspecified (a : Ipv4Addr) : bool := a =? 0.

(** [MacAddr] is [[u8; 6]]. *)
Abbreviation MacAddr := (list Z) (only parsing).
Definition mac_ok (m : MacAddr) : Prop := length m = 6%nat ∧ Forall u8 m.

(** ** Automation *)

Create HintDb router discriminated.
Create HintDb bytes_db discriminated.
Create Rewrite HintDb bytes_len.

Ltac unfold_ints := unfold u8, u16, u32, u64 in *.
(** Arithmetic on machine words, with the ranges unfolded. *)
Ltac word_lia := unfold_ints; change (2 ^ 8) with 256 in *; change (2 ^ 16) with 65536 in *;
  change (2 ^ 32) with 4294967296 in *; change (2 ^ 63) with 9223372036854775808 in *;
  change (2 ^ 64) with 18446744073709551616 in *; lia.
(** Destruct a list whose length is a closed number into its elements. *)
Ltac explode_list_in H :=
  lazymatch type of H with
  | length ?l = ?n =>
    let n' := eval vm_compute in n in change n with n' in H;
    repeat (lazymatch type of H with
      | length _ = S _ =>
        lazymatch type of H with
        | length ?l' = _ =>
          is_var l'; destruct l' as [|? l']; [discriminate H|]; simpl in H; apply Nat.succ_inj in H
        end
      end);
    lazymatch type of H with
    | length ?l' = 0%nat => apply nil_length_inv in H; subst l'
    | _ => idtac
    end
  end.
Ltac explode_list l :=
  lazymatch goal with H : length l = _ |- _ => explode_list_in H end.
(** Close a decidable goal on concrete values by evaluation. *)
Ltac decide_now := apply (bool_decide_unpack _); vm_compute; exact I.
Ltac inv_option :=
  repeat match goal with
  | H : Some _ = Some _ |- _ => injection H as H; subst
  | H : None = Some _ |- _ => discriminate H
  | H : Some _ = None |- _ => discriminate H
  | H : Ret _ = Ret _ |- _ => injection H as H; subst
  | H : Panic = Ret _ |- _ => discriminate H
  end.

(** ** Big-endian integers *)

Lemma from_be_2 a b : from_be [a; b] = a * 256 + b.
Proof. reflexivity. Qed.

Lemma from_be_4 a b c d : from_be [a; b; c; d] = ((a * 256 + b) * 256 + c) * 256 + d.
Proof. reflexivity. Qed.

Lemma length_to_be16 x : length (to_be16 x) = 2%nat.
Proof. reflexivity. Qed.
Lemma length_to_be32 x : length (to_be32 x) = 4%nat.
Proof. reflexivity. Qed.

Lemma to_be16_u8 x : Forall u8 (to_be16 x).
Proof. repeat constructor; apply Z.mod_pos_bound; lia. Qed.
Lemma to_be32_u8 x : Forall u8 (to_be32 x).
Proof. repeat constructor; apply Z.mod_pos_bound; lia. Qed.

(** Split every [Forall] over an explicit list. *)
Ltac inv_Forall :=
  repeat match goal with
  | H : Forall _ (_ :: _) |- _ => apply Forall_cons_1 in H as [? ?]
  | H : Forall _ [] |- _ => clear H
  end.
(** Arithmetic goals with shifts, divisions and remainders by constants. *)
Ltac div_lia :=
  rewrite ?Z.shiftr_div_pow2 by lia;
  change (2 ^ 8) with 256 in *; change (2 ^ 16) with 65536 in *; change (2 ^ 24) with 16777216 in *;
  Z.div_mod_to_equations; word_lia.

(** Shifts by whole bytes as nested divisions by 256. *)
Lemma shiftr_div x :
  Z.shiftr x 24 = x / 256 / 256 / 256 ∧ Z.shiftr x 16 = x / 256 / 256 ∧ Z.shiftr x 8 = x / 256.
Proof. rewrite !Z.shiftr_div_pow2, !Z.div_div by lia. auto. Qed.

Lemma from_to_be16 x : u16 x → from_be (to_be16 x) = x.
Proof. intros H. unfold to_be16. rewrite from_be_2. div_lia. Qed.

Lemma from_to_be32 x : u32 x → from_be (to_be32 x) = x.
Proof.
  intros H. unfold to_be32. rewrite from_be_4. destruct (shiftr_div x) as (-> & -> & ->). div_lia.
Qed.

Lemma from_be_u16 b : length b = 2%nat → Forall u8 b → u16 (from_be b).
Proof. intros Hl Hb. explode_list b. inv_Forall. rewrite from_be_2. word_lia. Qed.

Lemma from_be_u32 b : length b = 4%nat → Forall u8 b → u32 (from_be b).
Proof. intros Hl Hb. explode_list b. inv_Forall. rewrite from_be_4. word_lia. Qed.

(** [to_be16] undoes [from_be] on two bytes, [to_be32] on four. *)
Lemma to_from_be16 b : length b = 2%nat → Forall u8 b → to_be16 (from_be b) = b.
Proof.
  intros Hl Hb. explode_list b. inv_Forall. rewrite from_be_2. unfold to_be16.
  f_equal; [|f_equal]; div_lia.
Qed.

Lemma to_from_be32 b : length b = 4%nat → Forall u8 b → to_be32 (from_be b) = b.
Proof.
  intros Hl Hb. explode_list b. inv_Forall. rewrite from_be_4. unfold to_be32.
  match goal with |- context [Z.shiftr ?x 24] => destruct (shiftr_div x) as (-> & -> & ->) end.
  repeat (f_equal; [div_lia|]). f_equal. div_lia.
Qed.

#[export] Hint Resolve to_be16_u8 to_be32_u8 from_be_u16 from_be_u32 : bytes_db.

(** ** Slices *)

Lemma length_slice off len b : (off + len ≤ length b)%nat → length (slice off len b) = len.
Proof. intros. unfold slice. rewrite length_take, length_drop. lia. Qed.

Lemma length_splice off v b :
  (off + length v ≤ length b)%nat → length (splice off v b) = length b.
Proof. intros. unfold splice. rewrite !length_app, length_take, length_drop. lia. Qed.

Lemma Forall_slice (P : Z → Prop) off len b : Forall P b → Forall P (slice off len b).
Proof. intros. unfold slice. by apply Forall_take, Forall_drop. Qed.

Lemma Forall_splice (P : Z → Prop) off v b : Forall P v → Forall P b → Forall P (splice off v b).
Proof. intros. unfold splice. rewrite !Forall_app. auto using Forall_take, Forall_drop. Qed.

Lemma slice_ok_splice off v b :
  (off + length v ≤ length b)%nat → Forall u8 v → slice_ok b → slice_ok (splice off v b).
Proof. intros ?? [??]. split; [by apply Forall_splice|by rewrite length_splice]. Qed.

(** Extensional view of slices: every slice lemma below reduces to it. *)
Lemma lookup_slice off len b i :
  slice off len b !! i = if decide (i < len)%nat then b !! (off + i)%nat else None.
Proof.
  unfold slice. case_decide.
  - by rewrite lookup_take_lt, lookup_drop.
  - apply lookup_take_ge. lia.
Qed.

Lemma lookup_splice off v b i :
  (off + length v ≤ length b)%nat →
  splice off v b !! i =
    if decide (off ≤ i ∧ i < off + length v)%nat then v !! (i - off)%nat else b !! i.
Proof.
  intros Hl. unfold splice. case_decide as Hi.
  - rewrite lookup_app_r by (rewrite length_take; lia). rewrite length_take, Nat.min_l by lia.
    apply lookup_app_l. lia.
  - destruct (decide (i < off)%nat).
    + rewrite lookup_app_l by (rewrite length_take; lia). by apply lookup_take_lt.
    + rewrite lookup_app_r by (rewrite length_take; lia). rewrite length_take, Nat.min_l by lia.
      rewrite lookup_app_r by lia. rewrite lookup_drop. f_equal. lia.
Qed.

Lemma slice_splice_eq off v b :
  (off + length v ≤ length b)%nat → slice off (length v) (splice off v b) = v.
Proof.
  intros Hl. apply list_eq. intros i. rewrite lookup_slice, lookup_splice by done.
  repeat case_decide; try lia.
  - f_equal. lia.
  - symmetry. apply lookup_ge_None. lia.
Qed.

Lemma slice_splice_disjoint off v b off' len' :
  (off + length v ≤ length b)%nat → (off' + len' ≤ off ∨ off + length v ≤ off')%nat →
  slice off' len' (splice off v b) = slice off' len' b.
Proof.
  intros Hl Hd. apply list_eq. intros i. rewrite !lookup_slice.
  case_decide; [|done]. rewrite lookup_splice by done. case_decide; [lia|done].
Qed.

(** A write inside a larger window is the write of the window. *)
Lemma slice_splice_inside off v b off' len' :
  (off' + len' ≤ length b)%nat → (off' ≤ off)%nat → (off + length v ≤ off' + len')%nat →
  slice off' len' (splice off v b) = splice (off - off') v (slice off' len' b).
Proof.
  intros Hl ??. apply list_eq. intros i.
  rewrite lookup_slice, !lookup_splice, lookup_slice by (rewrite ?length_slice; lia).
  repeat case_decide; try lia; try done.
  - f_equal. lia.
Qed.

Lemma slice_slice off len off' len' b :
  (off' + len' ≤ len)%nat → slice off' len' (slice off len b) = slice (off + off') len' b.
Proof.
  intros. apply list_eq. intros i. rewrite !lookup_slice.
  repeat case_decide; try lia; [f_equal; lia|done].
Qed.

Lemma nth_slice off len b i : (i < len)%nat → nth i (slice off len b) 0 = nth (off + i) b 0.
Proof. intros. rewrite !nth_lookup, lookup_slice. by case_decide. Qed.

Lemma slice_pair off b :
  (off + 2 ≤ length b)%nat → slice off 2 b = [nth off b 0; nth (off + 1) b 0].
Proof.
  intros. pose proof (nth_slice off 2 b 0 ltac:(lia)) as E0. pose proof (nth_slice off 2 b 1 ltac:(lia)) as E1.
  assert (length (slice off 2 b) = 2%nat) as Hl by (apply length_slice; lia).
  rewrite Nat.add_0_r in E0. rewrite <- E0, <- E1.
  generalize dependent (slice off 2 b). intros l _ _ Hl. by explode_list l.
Qed.

(** Buffers that agree on a window agree on every window inside it. *)
Lemma slice_sub off len b b' off' len' :
  slice off len b' = slice off len b → (off ≤ off')%nat → (off' + len' ≤ off + len)%nat →
  slice off' len' b' = slice off' len' b.
Proof.
  intros E ? ?. apply (f_equal (slice (off' - off) len')) in E. rewrite !slice_slice in E by lia.
  by replace (off + (off' - off))%nat with off' in E by lia.
Qed.
Lemma nth_sub off len b b' i :
  slice off len b' = slice off len b → (off ≤ i < off + len)%nat → nth i b' 0 = nth i b 0.
Proof.
  intros E ?. apply (f_equal (λ l, nth (i - off) l 0)) in E. rewrite !nth_slice in E by lia.
  by replace (off + (i - off))%nat with i in E by lia.
Qed.

Lemma slice_all b : slice 0 (length b) b = b.
Proof. unfold slice. by rewrite drop_0, firstn_all. Qed.

Lemma splice_id off b len :
  (off + len ≤ length b)%nat → splice off (slice off len b) b = b.
Proof.
  intros. apply list_eq. intros i. rewrite lookup_splice by (rewrite length_slice; lia).
  case_decide; [|done]. rewrite length_slice in * by lia. rewrite lookup_slice.
  case_decide; [f_equal; lia|lia].
Qed.

Lemma firstn_splice_le off v b n :
  (off + length v ≤ length b)%nat → (n ≤ off)%nat → firstn n (splice off v b) = firstn n b.
Proof.
  intros. apply list_eq. intros i. destruct (decide (i < n)%nat).
  - rewrite !lookup_take_lt, lookup_splice by lia. case_decide; [lia|done].
  - by rewrite !lookup_take_ge by lia.
Qed.

Lemma firstn_splice_end off v b n :
  n = (off + length v)%nat → (n ≤ length b)%nat → firstn n (splice off v b) = firstn off b ++ v.
Proof.
  intros -> ?. unfold splice. rewrite app_assoc.
  replace (off + length v)%nat with (length (firstn off b ++ v)) at 1
    by (rewrite length_app, length_take; lia).
  apply take_app_length.
Qed.

(** Slices of appended pieces, for headers too long to expose byte by byte. *)
Lemma slice_app_0 a b n : length a = n → slice 0 n (a ++ b) = a.
Proof. intros <-. unfold slice. rewrite drop_0. apply take_app_length. Qed.

Lemma slice_app_ge a b n o m : length a = n → (n ≤ o)%nat → slice o m (a ++ b) = slice (o - n) m b.
Proof. intros <- ?. unfold slice. by rewrite skipn_app, skipn_all2 by lia. Qed.

Lemma slice_skipn o n p b : (o + n)%nat = p → slice o n b ++ skipn p b = skipn o b.
Proof. intros <-. unfold slice. by rewrite <- drop_drop, take_drop. Qed.

Lemma slice_to_end o n b : (o + n)%nat = length b → slice o n b = skipn o b.
Proof. intros. unfold slice. apply firstn_all2. rewrite length_drop. lia. Qed.

(** Find the piece a slice of an append selects. *)
Ltac slice_apps :=
  repeat match goal with
  | |- context [slice ?o ?m (?a ++ ?b)] =>
    match goal with
    | H : length a = ?n |- _ =>
      first [ rewrite (slice_app_ge a b n o m H) by lia;
              let k := eval vm_compute in (o - n)%nat in change (o - n)%nat with k
            | rewrite (slice_app_0 a b n H) ]
    end
  end.

(** Writing twice over the same range keeps the second value. *)
Lemma splice_splice_eq off v w b :
  (off + length v ≤ length b)%nat → length v = length w →
  splice off w (splice off v b) = splice off w b.
Proof.
  intros Hl Hw. apply list_eq. intros i.
  rewrite !lookup_splice by (rewrite ?length_splice; lia).
  repeat case_decide; try lia; done.
Qed.

Lemma get_range_Ret b lo hi :
  (lo ≤ hi)%nat → (hi ≤ length b)%nat → get_range b lo hi = Ret (slice lo (hi - lo) b).
Proof. intros. unfold get_range. by rewrite bool_decide_true by lia. Qed.

Lemma copy_range_Ret b lo hi v :
  hi = (lo + length v)%nat → (hi ≤ length b)%nat → copy_range b lo hi v = Ret (splice lo v b).
Proof. intros -> ?. unfold copy_range. by rewrite bool_decide_true by lia. Qed.

Lemma get_index_Ret b i : (i < length b)%nat → get_index b i = Ret (nth i b 0).
Proof.
  intros H. unfold get_index. destruct (lookup_lt_is_Some_2 b i H) as [x Hx].
  rewrite Hx. f_equal. symmetry. by apply nth_lookup_Some.
Qed.

Lemma checked_add_Some a b :
  Z.of_nat a + Z.of_nat b < 2 ^ 64 → checked_add a b = Some (a + b)%nat.
Proof. intros. unfold checked_add. by rewrite (proj2 (Z.ltb_lt _ _)). Qed.

Lemma checked_add_inv a b c : checked_add a b = Some c → c = (a + b)%nat.
Proof. unfold checked_add. case_match; naive_solver. Qed.

(** ** Addresses *)

Lemma octets_u8 a : Forall u8 (octets a).
Proof. apply to_be32_u8. Qed.
Lemma length_octets a : length (octets a) = 4%nat.
Proof. reflexivity. Qed.
Lemma ip_from_octets a : u32 a → ip_from (octets a) = a.
Proof. apply from_to_be32. Qed.
Lemma octets_ip_from b : length b = 4%nat → Forall u8 b → octets (ip_from b) = b.
Proof. apply to_from_be32. Qed.

#[export] Hint Resolve octets_u8 Forall_slice Forall_splice : bytes_db.
#[export] Hint Rewrite length_to_be16 length_to_be32 length_octets : bytes_len.

(** ** Outcomes *)

Lemma bind_Ret {A B} (m : outcome A) (f : A → outcome B) b :
  m ≫= f = Ret b → ∃ a, m = Ret a ∧ f a = Ret b.
Proof. destruct m; simpl; [eauto|done]. Qed.

Lemma add32_Ret a b : a + b < 2 ^ 32 → add32 a b = Ret (a + b).
Proof. intros. unfold add32. by rewrite (proj2 (Z.ltb_lt _ _)). Qed.
Lemma sub32_Ret a b : b ≤ a → sub32 a b = Ret (a - b).
Proof. intros. unfold sub32. by rewrite (proj2 (Z.leb_le _ _)). Qed.
