(* ===== verification/Wire.v ===== *)
(** * Wire-format primitives ([src/net/wire.rs])

    [U16Be] and [U32Be] are byte arrays in network order; [Pod] is the trait
    of headers that are reinterpreted in place from packet bytes.  A [Pod] is
    given by its size and the two directions of the reinterpretation, with the
    laws the unsafe casts rely on; a mutable borrow is modelled by the update
    it performs on the underlying buffer. *)

From S2P Require Import Prelude.

Definition WORD_BYTES : nat := 4.

(** ** Big-endian integers as byte arrays *)

Record U16Be := mkU16Be { u16be_bytes : bytes }.
Record U32Be := mkU32Be { u32be_bytes : bytes }.

#[global] Instance U16Be_eq_dec : EqDecision U16Be.
Proof. solve_decision. Defined.
#[global] Instance U32Be_eq_dec : EqDecision U32Be.
Proof. solve_decision. Defined.

Definition u16be_new (host : Z) : U16Be := mkU16Be (to_be16 host).
Definition u16be_get (v : U16Be) : Z := from_be (u16be_bytes v).
Definition u16be_set (v : U16Be) (host : Z) : U16Be := mkU16Be (to_be16 host).

Definition u32be_new (host : Z) : U32Be := mkU32Be (to_be32 host).
Definition u32be_get (v : U32Be) : Z := from_be (u32be_bytes v).
Definition u32be_set (v : U32Be) (host : Z) : U32Be := mkU32Be (to_be32 host).

(** ** Plain-old-data headers *)

(** [pod_wf] says that the array fields have their declared lengths, which is
    what [#[repr(C)]] with fixed-size arrays gives for free in Rust. *)
Class Pod (T : Type) := {
  size_of : nat;
  of_bytes : bytes → T;
  to_bytes : T → bytes;
  pod_wf : T → Prop;
  of_bytes_wf : ∀ b, length b = size_of → pod_wf (of_bytes b);
  length_to_bytes : ∀ t, pod_wf t → length (to_bytes t) = size_of;
  of_to_bytes : ∀ t, pod_wf t → of_bytes (to_bytes t) = t;
  to_of_bytes : ∀ b, length b = size_of → to_bytes (of_bytes b) = b;
}.
#[global] Hint Mode Pod ! : typeclass_instances.
Arguments size_of T {_}.

(** [ref_from_prefix]: the header at the start of [buf] and the bytes after it. *)
Definition ref_from_prefix {T} `{Pod T} (buf : bytes) : option (T * bytes) :=
  if bool_decide (length buf < size_of T)%nat then None
  else Some (of_bytes (firstn (size_of T) buf), skipn (size_of T) buf).

Definition ref_from {T} `{Pod T} (buf : bytes) : option T := fst <$> ref_from_prefix buf.

(** [mut_from_prefix]: the writes [f] made through the header land in [buf];
    [k] is the rest of the caller's code, run on the tail, with the tail it
    leaves behind.  A short buffer is left alone and the caller's [?] returns
    [None]. *)
Definition mut_from_prefix {T} `{Pod T} {A} (buf : bytes) (f : T → T)
    (k : bytes → bytes * option A) : bytes * option A :=
  if bool_decide (length buf < size_of T)%nat then (buf, None)
  else let '(tail, r) := k (skipn (size_of T) buf) in
       (to_bytes (f (of_bytes (firstn (size_of T) buf))) ++ tail, r).

Definition mut_from {T} `{Pod T} (buf : bytes) (f : T → T) : bytes * option unit :=
  mut_from_prefix buf f (λ tail, (tail, Some ())).

(** ** Laws *)

(** The length invariant of the array inside a [U16Be]/[U32Be]. *)
Definition u16be_wf (v : U16Be) : Prop := length (u16be_bytes v) = 2%nat.
Definition u32be_wf (v : U32Be) : Prop := length (u32be_bytes v) = 4%nat.

Lemma u16be_get_new x : u16 x → u16be_get (u16be_new x) = x.
Proof. apply from_to_be16. Qed.
Lemma u16be_get_set v x : u16 x → u16be_get (u16be_set v x) = x.
Proof. apply from_to_be16. Qed.
Lemma u32be_get_new x : u32 x → u32be_get (u32be_new x) = x.
Proof. apply from_to_be32. Qed.
Lemma u32be_get_set v x : u32 x → u32be_get (u32be_set v x) = x.
Proof. apply from_to_be32. Qed.

Section pod_laws.
Context {T : Type} `{Pod T}.
Implicit Types (b : bytes) (t : T).

Lemma ref_from_Some b :
  (size_of T ≤ length b)%nat → ref_from (T:=T) b = Some (of_bytes (firstn (size_of T) b)).
Proof. intros. unfold ref_from, ref_from_prefix. by rewrite bool_decide_false by lia. Qed.

Lemma ref_from_None b : (length b < size_of T)%nat → ref_from (T:=T) b = None.
Proof. intros. unfold ref_from, ref_from_prefix. by rewrite bool_decide_true by lia. Qed.

Lemma ref_from_is_Some b : is_Some (ref_from (T:=T) b) ↔ (size_of T ≤ length b)%nat.
Proof.
  split.
  - intros [t Ht]. destruct (decide (length b < size_of T)%nat); [|lia].
    by rewrite ref_from_None in Ht.
  - intros. rewrite ref_from_Some by done. eauto.
Qed.

Lemma mut_from_prefix_Some {A} b (f : T → T) (k : bytes → bytes * option A) :
  (size_of T ≤ length b)%nat →
  mut_from_prefix b f k =
    (to_bytes (f (of_bytes (firstn (size_of T) b))) ++ fst (k (skipn (size_of T) b)),
     snd (k (skipn (size_of T) b))).
Proof.
  intros. unfold mut_from_prefix. rewrite bool_decide_false by lia. by destruct (k _).
Qed.

(** The same on a buffer given by its first [size_of T] bytes and the rest. *)
Lemma mut_from_prefix_app {A} z b (f : T → T) (k : bytes → bytes * option A) :
  length z = size_of T →
  mut_from_prefix (z ++ b) f k = (to_bytes (f (of_bytes z)) ++ fst (k b), snd (k b)).
Proof.
  intros Hz. rewrite mut_from_prefix_Some by (rewrite length_app; lia). rewrite <- Hz.
  by rewrite take_app_length, drop_app_length.
Qed.

(** Writing through a mutable header never changes the length of the buffer. *)
Lemma length_mut_from_prefix {A} b (f : T → T) (k : bytes → bytes * option A) :
  (∀ t, pod_wf t → pod_wf (f t)) → (∀ b', length (fst (k b')) = length b') →
  length (fst (mut_from_prefix b f k)) = length b.
Proof.
  intros Hf Hk. destruct (decide (size_of T ≤ length b)%nat).
  - rewrite mut_from_prefix_Some by done. simpl.
    rewrite length_app, length_to_bytes, Hk, length_drop; [lia|].
    apply Hf, of_bytes_wf. rewrite length_take. lia.
  - unfold mut_from_prefix. by rewrite bool_decide_true by lia.
Qed.

End pod_laws.

(** Solve the [Pod] laws of a header whose fields are single bytes and byte
    arrays: every list of known length is exposed byte by byte. *)
Ltac expose_arrays :=
  repeat match goal with
  | v : U16Be |- _ => destruct v
  | v : U32Be |- _ => destruct v
  | H : u16be_wf _ |- _ => red in H; simpl in H
  | H : u32be_wf _ |- _ => red in H; simpl in H
  | H : _ ∧ _ |- _ => destruct H
  | H : length ?l = _ |- _ => is_var l; explode_list_in H
  end.
Ltac solve_pod_of :=
  let b := fresh "b" in let Hb := fresh "Hb" in
  intros b Hb; simpl in Hb; explode_list_in Hb; repeat split.
Ltac solve_pod_to :=
  let t := fresh "t" in let Ht := fresh "Ht" in
  intros t Ht; destruct t; simpl in *; expose_arrays; reflexivity.
