(* ===== verification/Ethernet.v ===== *)
(** * Ethernet II framing ([src/net/ethernet.rs])

    The 14-byte header, the 802.1Q tag and their accessors. *)

From S2P Require Import Prelude Wire.

Definition BROADCAST : MacAddr := replicate 6 0xff.
Definition MULTICAST_BIT : Z := 0x01.

Definition ethertype_IPV4 : Z := 0x0800.
Definition ethertype_ARP : Z := 0x0806.
Definition ethertype_IPV6 : Z := 0x86dd.
Definition ethertype_VLAN : Z := 0x8100.

Definition TCI_PCP_SHIFT : Z := 13.
Definition TCI_PCP_MASK : Z := 0x07.
Definition TCI_DEI_BIT : Z := 0x1000.
Definition TCI_VID_MASK : Z := 0x0fff.

Record EthernetHeader := {
  dst : MacAddr;
  src : MacAddr;
  ethertype_field : U16Be;
}.

Definition EthernetHeader_LEN : nat := 14.

#[global] Program Instance EthernetHeader_Pod : Pod EthernetHeader := {|
  size_of := EthernetHeader_LEN;
  of_bytes b := {| dst := slice 0 6 b; src := slice 6 6 b; ethertype_field := mkU16Be (slice 12 2 b) |};
  to_bytes h := dst h ++ src h ++ u16be_bytes (ethertype_field h);
  pod_wf h := length (dst h) = 6%nat ∧ length (src h) = 6%nat ∧ u16be_wf (ethertype_field h);
|}.
Next Obligation. solve_pod_of. Qed.
Next Obligation. solve_pod_to. Qed.
Next Obligation. solve_pod_to. Qed.
Next Obligation. solve_pod_of. Qed.

Definition ethertype (h : EthernetHeader) : Z := u16be_get (ethertype_field h).
Definition set_ethertype (h : EthernetHeader) (v : Z) : EthernetHeader :=
  {| dst := dst h; src := src h; ethertype_field := u16be_set (ethertype_field h) v |}.

(** Field assignments [eth.dst = m] and [eth.src = m]. *)
Definition set_dst (h : EthernetHeader) (m : MacAddr) : EthernetHeader :=
  {| dst := m; src := src h; ethertype_field := ethertype_field h |}.
Definition set_src (h : EthernetHeader) (m : MacAddr) : EthernetHeader :=
  {| dst := dst h; src := m; ethertype_field := ethertype_field h |}.

Definition is_broadcast (h : EthernetHeader) : bool := bool_decide (dst h = BROADCAST).
Definition is_multicast (h : EthernetHeader) : bool :=
  negb (Z.land (nth 0 (dst h) 0) MULTICAST_BIT =? 0).

(** ** 802.1Q tag *)

Record VlanTag := { tci : U16Be; inner_ethertype_field : U16Be }.

Definition VlanTag_LEN : nat := 4.

#[global] Program Instance VlanTag_Pod : Pod VlanTag := {|
  size_of := VlanTag_LEN;
  of_bytes b := {| tci := mkU16Be (slice 0 2 b); inner_ethertype_field := mkU16Be (slice 2 2 b) |};
  to_bytes t := u16be_bytes (tci t) ++ u16be_bytes (inner_ethertype_field t);
  pod_wf t := u16be_wf (tci t) ∧ u16be_wf (inner_ethertype_field t);
|}.
Next Obligation. solve_pod_of. Qed.
Next Obligation. solve_pod_to. Qed.
Next Obligation. solve_pod_to. Qed.
Next Obligation. solve_pod_of. Qed.

(** [(tci >> 13) as u8 & 0x07]. *)
Definition pcp (t : VlanTag) : Z :=
  Z.land (Z.shiftr (u16be_get (tci t)) TCI_PCP_SHIFT `mod` 256) TCI_PCP_MASK.
Definition dei (t : VlanTag) : bool := negb (Z.land (u16be_get (tci t)) TCI_DEI_BIT =? 0).
Definition vid (t : VlanTag) : Z := Z.land (u16be_get (tci t)) TCI_VID_MASK.
Definition set_vid (t : VlanTag) (v : Z) : VlanTag :=
  {| tci := u16be_set (tci t)
       (Z.lor (Z.land (u16be_get (tci t)) (not16 TCI_VID_MASK)) (Z.land v TCI_VID_MASK));
     inner_ethertype_field := inner_ethertype_field t |}.
Definition inner_ethertype (t : VlanTag) : Z := u16be_get (inner_ethertype_field t).

(** ** Lemmas *)

Lemma BROADCAST_ok : mac_ok BROADCAST.
Proof. split; [done|]. by repeat constructor. Qed.

(** The broadcast address is a group address. *)
Lemma broadcast_is_multicast h : is_broadcast h = true → is_multicast h = true.
Proof. unfold is_broadcast, is_multicast. intros ->%bool_decide_eq_true. reflexivity. Qed.
