(* ===== verification/Ip.v ===== *)
(** * IPv4 header ([src/net/ip.rs]) *)

From S2P Require Import Prelude Wire.

Definition VERSION_SHIFT : Z := 4.
Definition IHL_MASK : Z := 0x0f.
Definition FLAG_DONT_FRAGMENT : Z := 0x4000.
Definition FLAG_MORE_FRAGMENTS : Z := 0x2000.
Definition FRAGMENT_OFFSET_MASK : Z := 0x1fff.

Definition proto_ICMP : Z := 1.
Definition proto_TCP : Z := 6.
Definition proto_UDP : Z := 17.

Record Ipv4Header := {
  version_ihl : Z;
  dscp_ecn : Z;
  total_len_field : U16Be;
  identification : U16Be;
  flags_fragment : U16Be;
  ttl : Z;
  protocol : Z;
  checksum_field : U16Be;
  src_field : bytes;
  dst_field : bytes;
}.

Definition MIN_LEN : nat := 20.

#[global] Program Instance Ipv4Header_Pod : Pod Ipv4Header := {|
  size_of := MIN_LEN;
  of_bytes b := {|
    version_ihl := nth 0 b 0; dscp_ecn := nth 1 b 0;
    total_len_field := mkU16Be (slice 2 2 b); identification := mkU16Be (slice 4 2 b);
    flags_fragment := mkU16Be (slice 6 2 b); ttl := nth 8 b 0; protocol := nth 9 b 0;
    checksum_field := mkU16Be (slice 10 2 b); src_field := slice 12 4 b; dst_field := slice 16 4 b |};
  to_bytes h := version_ihl h :: dscp_ecn h :: u16be_bytes (total_len_field h) ++
    u16be_bytes (identification h) ++ u16be_bytes (flags_fragment h) ++ ttl h :: protocol h ::
    u16be_bytes (checksum_field h) ++ src_field h ++ dst_field h;
  pod_wf h := u16be_wf (total_len_field h) ∧ u16be_wf (identification h) ∧
    u16be_wf (flags_fragment h) ∧ u16be_wf (checksum_field h) ∧
    length (src_field h) = 4%nat ∧ length (dst_field h) = 4%nat;
|}.
Next Obligation. solve_pod_of. Qed.
Next Obligation. solve_pod_to. Qed.
Next Obligation. solve_pod_to. Qed.
Next Obligation. solve_pod_of. Qed.

Definition version (h : Ipv4Header) : Z := Z.shiftr (version_ihl h) VERSION_SHIFT.
Definition ihl (h : Ipv4Header) : Z := Z.land (version_ihl h) IHL_MASK.
Definition header_len (h : Ipv4Header) : nat := (Z.to_nat (ihl h) * WORD_BYTES)%nat.

(** [(version << 4) | (ihl & 0x0f)] on [u8]: the shift drops the high nibble. *)
Definition set_version_ihl (h : Ipv4Header) (v i : Z) : Ipv4Header :=
  {| version_ihl := Z.lor (Z.shiftl v VERSION_SHIFT `mod` 256) (Z.land i IHL_MASK);
     dscp_ecn := dscp_ecn h; total_len_field := total_len_field h;
     identification := identification h; flags_fragment := flags_fragment h; ttl := ttl h;
     protocol := protocol h; checksum_field := checksum_field h; src_field := src_field h;
     dst_field := dst_field h |}.

Definition total_len (h : Ipv4Header) : Z := u16be_get (total_len_field h).
Definition set_total_len (h : Ipv4Header) (v : Z) : Ipv4Header :=
  {| version_ihl := version_ihl h; dscp_ecn := dscp_ecn h;
     total_len_field := u16be_set (total_len_field h) v;
     identification := identification h; flags_fragment := flags_fragment h; ttl := ttl h;
     protocol := protocol h; checksum_field := checksum_field h; src_field := src_field h;
     dst_field := dst_field h |}.

Definition dont_fragment (h : Ipv4Header) : bool :=
  negb (Z.land (u16be_get (flags_fragment h)) FLAG_DONT_FRAGMENT =? 0).
Definition more_fragments (h : Ipv4Header) : bool :=
  negb (Z.land (u16be_get (flags_fragment h)) FLAG_MORE_FRAGMENTS =? 0).
Definition fragment_offset (h : Ipv4Header) : Z :=
  Z.land (u16be_get (flags_fragment h)) FRAGMENT_OFFSET_MASK.

Definition checksum (h : Ipv4Header) : Z := u16be_get (checksum_field h).
Definition set_checksum (h : Ipv4Header) (v : Z) : Ipv4Header :=
  {| version_ihl := version_ihl h; dscp_ecn := dscp_ecn h; total_len_field := total_len_field h;
     identification := identification h; flags_fragment := flags_fragment h; ttl := ttl h;
     protocol := protocol h; checksum_field := u16be_set (checksum_field h) v;
     src_field := src_field h; dst_field := dst_field h |}.

(** Field assignments [ip.ttl = v] and [ip.protocol = v]. *)
Definition set_ttl (h : Ipv4Header) (v : Z) : Ipv4Header :=
  {| version_ihl := version_ihl h; dscp_ecn := dscp_ecn h; total_len_field := total_len_field h;
     identification := identification h; flags_fragment := flags_fragment h; ttl := v;
     protocol := protocol h; checksum_field := checksum_field h; src_field := src_field h;
     dst_field := dst_field h |}.
Definition set_protocol (h : Ipv4Header) (v : Z) : Ipv4Header :=
  {| version_ihl := version_ihl h; dscp_ecn := dscp_ecn h; total_len_field := total_len_field h;
     identification := identification h; flags_fragment := flags_fragment h; ttl := ttl h;
     protocol := v; checksum_field := checksum_field h; src_field := src_field h;
     dst_field := dst_field h |}.

Definition src (h : Ipv4Header) : Ipv4Addr := ip_from (src_field h).
Definition dst (h : Ipv4Header) : Ipv4Addr := ip_from (dst_field h).
Definition set_src (h : Ipv4Header) (a : Ipv4Addr) : Ipv4Header :=
  {| version_ihl := version_ihl h; dscp_ecn := dscp_ecn h; total_len_field := total_len_field h;
     identification := identification h; flags_fragment := flags_fragment h; ttl := ttl h;
     protocol := protocol h; checksum_field := checksum_field h; src_field := octets a;
     dst_field := dst_field h |}.
Definition set_dst (h : Ipv4Header) (a : Ipv4Addr) : Ipv4Header :=
  {| version_ihl := version_ihl h; dscp_ecn := dscp_ecn h; total_len_field := total_len_field h;
     identification := identification h; flags_fragment := flags_fragment h; ttl := ttl h;
     protocol := protocol h; checksum_field := checksum_field h; src_field := src_field h;
     dst_field := octets a |}.

Definition src_words (h : Ipv4Header) : U32Be := u32be_new (from_be (src_field h)).
Definition dst_words (h : Ipv4Header) : U32Be := u32be_new (from_be (dst_field h)).

(** ** Lemmas *)

Lemma ihl_range h : 0 ≤ ihl h < 16.
Proof.
  unfold ihl, IHL_MASK. change 0x0f with (Z.ones 4). rewrite Z.land_ones by lia.
  apply Z.mod_pos_bound. lia.
Qed.

Lemma header_len_le h : (header_len h ≤ 60)%nat.
Proof. unfold header_len, WORD_BYTES. pose proof (ihl_range h). lia. Qed.
