(* ===== verification/Udp.v ===== *)
(** * UDP header ([src/net/udp.rs]) *)

From S2P Require Import Prelude Wire.

Record UdpHeader := {
  src_port_field : U16Be;
  dst_port_field : U16Be;
  length_field : U16Be;
  checksum_field : U16Be;
}.

Definition LEN : nat := 8.

#[global] Program Instance UdpHeader_Pod : Pod UdpHeader := {|
  size_of := LEN;
  of_bytes b := {|
    src_port_field := mkU16Be (slice 0 2 b); dst_port_field := mkU16Be (slice 2 2 b);
    length_field := mkU16Be (slice 4 2 b); checksum_field := mkU16Be (slice 6 2 b) |};
  to_bytes h := u16be_bytes (src_port_field h) ++ u16be_bytes (dst_port_field h) ++
    u16be_bytes (length_field h) ++ u16be_bytes (checksum_field h);
  pod_wf h := u16be_wf (src_port_field h) ∧ u16be_wf (dst_port_field h) ∧
    u16be_wf (length_field h) ∧ u16be_wf (checksum_field h);
|}.
Next Obligation. solve_pod_of. Qed.
Next Obligation. solve_pod_to. Qed.
Next Obligation. solve_pod_to. Qed.
Next Obligation. solve_pod_of. Qed.

Definition src_port (h : UdpHeader) : Z := u16be_get (src_port_field h).
Definition dst_port (h : UdpHeader) : Z := u16be_get (dst_port_field h).
Definition length_ (h : UdpHeader) : Z := u16be_get (length_field h).
Definition checksum (h : UdpHeader) : Z := u16be_get (checksum_field h).

Definition set_src_port (h : UdpHeader) (v : Z) : UdpHeader :=
  {| src_port_field := u16be_set (src_port_field h) v; dst_port_field := dst_port_field h;
     length_field := length_field h; checksum_field := checksum_field h |}.
Definition set_dst_port (h : UdpHeader) (v : Z) : UdpHeader :=
  {| src_port_field := src_port_field h; dst_port_field := u16be_set (dst_port_field h) v;
     length_field := length_field h; checksum_field := checksum_field h |}.
Definition set_length (h : UdpHeader) (v : Z) : UdpHeader :=
  {| src_port_field := src_port_field h; dst_port_field := dst_port_field h;
     length_field := u16be_set (length_field h) v; checksum_field := checksum_field h |}.
Definition set_checksum (h : UdpHeader) (v : Z) : UdpHeader :=
  {| src_port_field := src_port_field h; dst_port_field := dst_port_field h;
     length_field := length_field h; checksum_field := u16be_set (checksum_field h) v |}.
