(* ===== verification/Tcp.v ===== *)
(** * TCP header ([src/net/tcp.rs]) *)

From S2P Require Import Prelude Wire.

Definition DATA_OFFSET_SHIFT : Z := 4.
Definition DATA_OFFSET_LOW_NIBBLE_MASK : Z := 0x0f.

Definition flag_FIN : Z := 0x01.
Definition flag_SYN : Z := 0x02.
Definition flag_RST : Z := 0x04.
Definition flag_PSH : Z := 0x08.
Definition flag_ACK : Z := 0x10.
Definition flag_URG : Z := 0x20.
Definition flag_ECE : Z := 0x40.
Definition flag_CWR : Z := 0x80.

Record TcpHeader := {
  src_port_field : U16Be;
  dst_port_field : U16Be;
  seq_field : U32Be;
  ack_field : U32Be;
  data_offset_reserved : Z;
  flags : Z;
  window_field : U16Be;
  checksum_field : U16Be;
  urgent_ptr_field : U16Be;
}.

Definition MIN_LEN : nat := 20.

#[global] Program Instance TcpHeader_Pod : Pod TcpHeader := {|
  size_of := MIN_LEN;
  of_bytes b := {|
    src_port_field := mkU16Be (slice 0 2 b); dst_port_field := mkU16Be (slice 2 2 b);
    seq_field := mkU32Be (slice 4 4 b); ack_field := mkU32Be (slice 8 4 b);
    data_offset_reserved := nth 12 b 0; flags := nth 13 b 0;
    window_field := mkU16Be (slice 14 2 b); checksum_field := mkU16Be (slice 16 2 b);
    urgent_ptr_field := mkU16Be (slice 18 2 b) |};
  to_bytes h := u16be_bytes (src_port_field h) ++ u16be_bytes (dst_port_field h) ++
    u32be_bytes (seq_field h) ++ u32be_bytes (ack_field h) ++
    data_offset_reserved h :: flags h :: u16be_bytes (window_field h) ++
    u16be_bytes (checksum_field h) ++ u16be_bytes (urgent_ptr_field h);
  pod_wf h := u16be_wf (src_port_field h) ∧ u16be_wf (dst_port_field h) ∧
    u32be_wf (seq_field h) ∧ u32be_wf (ack_field h) ∧ u16be_wf (window_field h) ∧
    u16be_wf (checksum_field h) ∧ u16be_wf (urgent_ptr_field h);
|}.
Next Obligation. solve_pod_of. Qed.
Next Obligation. solve_pod_to. Qed.
Next Obligation. solve_pod_to. Qed.
Next Obligation. solve_pod_of. Qed.

Definition src_port (h : TcpHeader) : Z := u16be_get (src_port_field h).
Definition dst_port (h : TcpHeader) : Z := u16be_get (dst_port_field h).
Definition seq (h : TcpHeader) : Z := u32be_get (seq_field h).
Definition ack (h : TcpHeader) : Z := u32be_get (ack_field h).
Definition window (h : TcpHeader) : Z := u16be_get (window_field h).
Definition checksum (h : TcpHeader) : Z := u16be_get (checksum_field h).
Definition urgent_ptr (h : TcpHeader) : Z := u16be_get (urgent_ptr_field h).

Definition data_offset (h : TcpHeader) : Z := Z.shiftr (data_offset_reserved h) DATA_OFFSET_SHIFT.
Definition header_len (h : TcpHeader) : nat := (Z.to_nat (data_offset h) * WORD_BYTES)%nat.
Definition has_flag (h : TcpHeader) (f : Z) : bool := negb (Z.land (flags h) f =? 0).

(** The setters: each replaces one field of the header. *)
Definition set_src_port (h : TcpHeader) (v : Z) : TcpHeader :=
  {| src_port_field := u16be_set (src_port_field h) v; dst_port_field := dst_port_field h;
     seq_field := seq_field h; ack_field := ack_field h;
     data_offset_reserved := data_offset_reserved h; flags := flags h;
     window_field := window_field h; checksum_field := checksum_field h;
     urgent_ptr_field := urgent_ptr_field h |}.
Definition set_dst_port (h : TcpHeader) (v : Z) : TcpHeader :=
  {| src_port_field := src_port_field h; dst_port_field := u16be_set (dst_port_field h) v;
     seq_field := seq_field h; ack_field := ack_field h;
     data_offset_reserved := data_offset_reserved h; flags := flags h;
     window_field := window_field h; checksum_field := checksum_field h;
     urgent_ptr_field := urgent_ptr_field h |}.
Definition set_seq (h : TcpHeader) (v : Z) : TcpHeader :=
  {| src_port_field := src_port_field h; dst_port_field := dst_port_field h;
     seq_field := u32be_set (seq_field h) v; ack_field := ack_field h;
     data_offset_reserved := data_offset_reserved h; flags := flags h;
     window_field := window_field h; checksum_field := checksum_field h;
     urgent_ptr_field := urgent_ptr_field h |}.
Definition set_ack (h : TcpHeader) (v : Z) : TcpHeader :=
  {| src_port_field := src_port_field h; dst_port_field := dst_port_field h;
     seq_field := seq_field h; ack_field := u32be_set (ack_field h) v;
     data_offset_reserved := data_offset_reserved h; flags := flags h;
     window_field := window_field h; checksum_field := checksum_field h;
     urgent_ptr_field := urgent_ptr_field h |}.
Definition set_data_offset (h : TcpHeader) (words : Z) : TcpHeader :=
  {| src_port_field := src_port_field h; dst_port_field := dst_port_field h;
     seq_field := seq_field h; ack_field := ack_field h;
     data_offset_reserved := Z.lor (Z.shiftl words DATA_OFFSET_SHIFT `mod` 256)
       (Z.land (data_offset_reserved h) DATA_OFFSET_LOW_NIBBLE_MASK);
     flags := flags h; window_field := window_field h; checksum_field := checksum_field h;
     urgent_ptr_field := urgent_ptr_field h |}.
(** [self.flags |= flag] or [self.flags &= !flag]. *)
Definition set_flag (h : TcpHeader) (f : Z) (on : bool) : TcpHeader :=
  {| src_port_field := src_port_field h; dst_port_field := dst_port_field h;
     seq_field := seq_field h; ack_field := ack_field h;
     data_offset_reserved := data_offset_reserved h;
     flags := if on then Z.lor (flags h) f else Z.land (flags h) (255 - f);
     window_field := window_field h; checksum_field := checksum_field h;
     urgent_ptr_field := urgent_ptr_field h |}.
Definition set_window (h : TcpHeader) (v : Z) : TcpHeader :=
  {| src_port_field := src_port_field h; dst_port_field := dst_port_field h;
     seq_field := seq_field h; ack_field := ack_field h;
     data_offset_reserved := data_offset_reserved h; flags := flags h;
     window_field := u16be_set (window_field h) v; checksum_field := checksum_field h;
     urgent_ptr_field := urgent_ptr_field h |}.
Definition set_checksum (h : TcpHeader) (v : Z) : TcpHeader :=
  {| src_port_field := src_port_field h; dst_port_field := dst_port_field h;
     seq_field := seq_field h; ack_field := ack_field h;
     data_offset_reserved := data_offset_reserved h; flags := flags h;
     window_field := window_field h; checksum_field := u16be_set (checksum_field h) v;
     urgent_ptr_field := urgent_ptr_field h |}.
