(* ===== verification/Dns.v ===== *)
(** * DNS message header ([src/net/dns.rs])

    Only the fixed 12-byte header is interpreted by the source. *)

From S2P Require Import Prelude Wire.

Definition FLAG_QR_RESPONSE : Z := 0x8000.
Definition OPCODE_SHIFT : Z := 11.
Definition OPCODE_MASK : Z := 0x0f.
Definition FLAG_AUTHORITATIVE : Z := 0x0400.
Definition FLAG_TRUNCATED : Z := 0x0200.
Definition FLAG_RECURSION_DESIRED : Z := 0x0100.
Definition FLAG_RECURSION_AVAILABLE : Z := 0x0080.
Definition RCODE_MASK : Z := 0x000f.

Record DnsHeader := {
  id_field : U16Be;
  flags_field : U16Be;
  qdcount : U16Be;
  ancount : U16Be;
  nscount : U16Be;
  arcount : U16Be;
}.

Definition LEN : nat := 12.

#[global] Program Instance DnsHeader_Pod : Pod DnsHeader := {|
  size_of := LEN;
  of_bytes b := {|
    id_field := mkU16Be (slice 0 2 b); flags_field := mkU16Be (slice 2 2 b);
    qdcount := mkU16Be (slice 4 2 b); ancount := mkU16Be (slice 6 2 b);
    nscount := mkU16Be (slice 8 2 b); arcount := mkU16Be (slice 10 2 b) |};
  to_bytes h := u16be_bytes (id_field h) ++ u16be_bytes (flags_field h) ++
    u16be_bytes (qdcount h) ++ u16be_bytes (ancount h) ++ u16be_bytes (nscount h) ++
    u16be_bytes (arcount h);
  pod_wf h := u16be_wf (id_field h) ∧ u16be_wf (flags_field h) ∧ u16be_wf (qdcount h) ∧
    u16be_wf (ancount h) ∧ u16be_wf (nscount h) ∧ u16be_wf (arcount h);
|}.
Next Obligation. solve_pod_of. Qed.
Next Obligation. solve_pod_to. Qed.
Next Obligation. solve_pod_to. Qed.
Next Obligation. solve_pod_of. Qed.

Definition id (h : DnsHeader) : Z := u16be_get (id_field h).
Definition flags (h : DnsHeader) : Z := u16be_get (flags_field h).
Definition is_response (h : DnsHeader) : bool := negb (Z.land (flags h) FLAG_QR_RESPONSE =? 0).
Definition opcode (h : DnsHeader) : Z := Z.land (Z.shiftr (flags h) OPCODE_SHIFT) OPCODE_MASK.
Definition authoritative (h : DnsHeader) : bool := negb (Z.land (flags h) FLAG_AUTHORITATIVE =? 0).
Definition truncated (h : DnsHeader) : bool := negb (Z.land (flags h) FLAG_TRUNCATED =? 0).
Definition recursion_desired (h : DnsHeader) : bool :=
  negb (Z.land (flags h) FLAG_RECURSION_DESIRED =? 0).
Definition recursion_available (h : DnsHeader) : bool :=
  negb (Z.land (flags h) FLAG_RECURSION_AVAILABLE =? 0).
Definition rcode (h : DnsHeader) : Z := Z.land (flags h) RCODE_MASK.
Definition question_count (h : DnsHeader) : Z := u16be_get (qdcount h).
Definition answer_count (h : DnsHeader) : Z := u16be_get (ancount h).
Definition authority_count (h : DnsHeader) : Z := u16be_get (nscount h).
Definition additional_count (h : DnsHeader) : Z := u16be_get (arcount h).

Definition set_id (h : DnsHeader) (v : Z) : DnsHeader :=
  {| id_field := u16be_set (id_field h) v; flags_field := flags_field h; qdcount := qdcount h;
     ancount := ancount h; nscount := nscount h; arcount := arcount h |}.
Definition set_flags (h : DnsHeader) (v : Z) : DnsHeader :=
  {| id_field := id_field h; flags_field := u16be_set (flags_field h) v; qdcount := qdcount h;
     ancount := ancount h; nscount := nscount h; arcount := arcount h |}.
Definition set_question_count (h : DnsHeader) (v : Z) : DnsHeader :=
  {| id_field := id_field h; flags_field := flags_field h; qdcount := u16be_set (qdcount h) v;
     ancount := ancount h; nscount := nscount h; arcount := arcount h |}.
Definition set_answer_count (h : DnsHeader) (v : Z) : DnsHeader :=
  {| id_field := id_field h; flags_field := flags_field h; qdcount := qdcount h;
     ancount := u16be_set (ancount h) v; nscount := nscount h; arcount := arcount h |}.
