(* ===== verification/Arp.v ===== *)
(** * ARP for IPv4 over Ethernet ([src/net/arp.rs])

    The 28-byte packet, the request and reply builders, the plain neighbour
    cache and the inbound handler. *)

From S2P Require Import Prelude Wire Ethernet.

Definition htype_ETHERNET : Z := 1.
Definition ptype_IPV4 : Z := 0x0800.
Definition oper_REQUEST : Z := 1.
Definition oper_REPLY : Z := 2.

Definition ETHERNET_HLEN : Z := 6.
Definition IPV4_PLEN : Z := 4.
Definition UNKNOWN_HARDWARE_ADDR : MacAddr := replicate 6 0.

Record ArpPacket := {
  htype_field : U16Be;
  ptype_field : U16Be;
  hlen : Z;
  plen : Z;
  oper_field : U16Be;
  sha : MacAddr;
  spa : bytes;
  tha : MacAddr;
  tpa : bytes;
}.

Definition LEN : nat := 28.
Definition FRAME_LEN : nat := EthernetHeader_LEN + LEN.

#[global] Program Instance ArpPacket_Pod : Pod ArpPacket := {|
  size_of := LEN;
  of_bytes b := {|
    htype_field := mkU16Be (slice 0 2 b); ptype_field := mkU16Be (slice 2 2 b);
    hlen := nth 4 b 0; plen := nth 5 b 0; oper_field := mkU16Be (slice 6 2 b);
    sha := slice 8 6 b; spa := slice 14 4 b; tha := slice 18 6 b; tpa := slice 24 4 b |};
  to_bytes a := u16be_bytes (htype_field a) ++ u16be_bytes (ptype_field a) ++ hlen a :: plen a ::
    u16be_bytes (oper_field a) ++ sha a ++ spa a ++ tha a ++ tpa a;
  pod_wf a := u16be_wf (htype_field a) ∧ u16be_wf (ptype_field a) ∧ u16be_wf (oper_field a) ∧
    length (sha a) = 6%nat ∧ length (spa a) = 4%nat ∧ length (tha a) = 6%nat ∧
    length (tpa a) = 4%nat;
|}.
Next Obligation. solve_pod_of. Qed.
Next Obligation. solve_pod_to. Qed.
Next Obligation. solve_pod_to. Qed.
Next Obligation. solve_pod_of. Qed.

Definition htype (a : ArpPacket) : Z := u16be_get (htype_field a).
Definition ptype (a : ArpPacket) : Z := u16be_get (ptype_field a).
Definition oper (a : ArpPacket) : Z := u16be_get (oper_field a).
Definition is_request (a : ArpPacket) : bool := oper a =? oper_REQUEST.
Definition is_reply (a : ArpPacket) : bool := oper a =? oper_REPLY.
Definition sender_ip (a : ArpPacket) : Ipv4Addr := ip_from (spa a).
Definition target_ip (a : ArpPacket) : Ipv4Addr := ip_from (tpa a).

Definition set_oper (a : ArpPacket) (v : Z) : ArpPacket :=
  {| htype_field := htype_field a; ptype_field := ptype_field a; hlen := hlen a; plen := plen a;
     oper_field := u16be_set (oper_field a) v; sha := sha a; spa := spa a; tha := tha a;
     tpa := tpa a |}.
Definition set_sender_ip (a : ArpPacket) (ip : Ipv4Addr) : ArpPacket :=
  {| htype_field := htype_field a; ptype_field := ptype_field a; hlen := hlen a; plen := plen a;
     oper_field := oper_field a; sha := sha a; spa := octets ip; tha := tha a; tpa := tpa a |}.
Definition set_target_ip (a : ArpPacket) (ip : Ipv4Addr) : ArpPacket :=
  {| htype_field := htype_field a; ptype_field := ptype_field a; hlen := hlen a; plen := plen a;
     oper_field := oper_field a; sha := sha a; spa := spa a; tha := tha a; tpa := octets ip |}.
(** Field assignments [arp.sha = m] and [arp.tha = m]. *)
Definition set_sha (a : ArpPacket) (m : MacAddr) : ArpPacket :=
  {| htype_field := htype_field a; ptype_field := ptype_field a; hlen := hlen a; plen := plen a;
     oper_field := oper_field a; sha := m; spa := spa a; tha := tha a; tpa := tpa a |}.
Definition set_tha (a : ArpPacket) (m : MacAddr) : ArpPacket :=
  {| htype_field := htype_field a; ptype_field := ptype_field a; hlen := hlen a; plen := plen a;
     oper_field := oper_field a; sha := sha a; spa := spa a; tha := m; tpa := tpa a |}.

Definition init_ethernet_ipv4 (a : ArpPacket) (op : Z) : ArpPacket :=
  {| htype_field := u16be_set (htype_field a) htype_ETHERNET;
     ptype_field := u16be_set (ptype_field a) ptype_IPV4;
     hlen := ETHERNET_HLEN; plen := IPV4_PLEN; oper_field := u16be_set (oper_field a) op;
     sha := sha a; spa := spa a; tha := tha a; tpa := tpa a |}.

Definition is_ethernet_ipv4 (a : ArpPacket) : bool :=
  (htype a =? htype_ETHERNET) && (ptype a =? ptype_IPV4) &&
  (hlen a =? ETHERNET_HLEN) && (plen a =? IPV4_PLEN).

(** ** Builders: the buffer after the writes and the returned length *)

Definition build_request (buf : bytes) (sender_mac : MacAddr) (sender_ip target_ip : Ipv4Addr)
    : bytes * option nat :=
  mut_from_prefix (T := EthernetHeader) buf
    (λ eth, set_ethertype (set_src (set_dst eth BROADCAST) sender_mac) ethertype_ARP)
    (λ rest,
      mut_from_prefix (T := ArpPacket) rest
        (λ arp,
          let arp := init_ethernet_ipv4 arp oper_REQUEST in
          let arp := set_sha arp sender_mac in
          let arp := set_sender_ip arp sender_ip in
          let arp := set_tha arp UNKNOWN_HARDWARE_ADDR in
          set_target_ip arp target_ip)
        (λ tail, (tail, Some FRAME_LEN))).

Definition build_reply (buf : bytes) (sender_mac : MacAddr) (sender_ip : Ipv4Addr)
    (target_mac : MacAddr) (target_ip : Ipv4Addr) : bytes * option nat :=
  mut_from_prefix (T := EthernetHeader) buf
    (λ eth, set_ethertype (set_src (set_dst eth target_mac) sender_mac) ethertype_ARP)
    (λ rest,
      mut_from_prefix (T := ArpPacket) rest
        (λ arp,
          let arp := init_ethernet_ipv4 arp oper_REPLY in
          let arp := set_sha arp sender_mac in
          let arp := set_sender_ip arp sender_ip in
          let arp := set_tha arp target_mac in
          set_target_ip arp target_ip)
        (λ tail, (tail, Some FRAME_LEN))).

(** ** The plain cache *)

Record NeighborCache := { entries : gmap Ipv4Addr MacAddr }.

Definition cache_new : NeighborCache := {| entries := ∅ |}.
Definition cache_insert (c : NeighborCache) (ip : Ipv4Addr) (mac : MacAddr) : NeighborCache :=
  {| entries := <[ip := mac]> (entries c) |}.
Definition cache_lookup (c : NeighborCache) (ip : Ipv4Addr) : option MacAddr := entries c !! ip.
Definition cache_remove (c : NeighborCache) (ip : Ipv4Addr) : NeighborCache * option MacAddr :=
  ({| entries := delete ip (entries c) |}, entries c !! ip).
Definition learn_from (c : NeighborCache) (a : ArpPacket) : NeighborCache :=
  cache_insert c (sender_ip a) (sha a).
Definition cache_len (c : NeighborCache) : nat := size (entries c).
Definition cache_is_empty (c : NeighborCache) : bool := bool_decide (size (entries c) = 0%nat).

(** ** The inbound handler *)

Inductive Action :=
| SendReply (len : nat)
| Nothing.

#[global] Instance Action_eq_dec : EqDecision Action.
Proof. solve_decision. Defined.

(** The cache and the output buffer are updated in place. *)
Definition handle (our_mac : MacAddr) (our_ip : Ipv4Addr) (cache : NeighborCache)
    (in_arp : ArpPacket) (out_buf : bytes) : NeighborCache * bytes * Action :=
  if negb (is_ethernet_ipv4 in_arp) then (cache, out_buf, Nothing)
  else
    let cache := learn_from cache in_arp in
    if is_request in_arp && (target_ip in_arp =? our_ip) then
      let '(out_buf, r) := build_reply out_buf our_mac our_ip (sha in_arp) (sender_ip in_arp) in
      match r with
      | Some len => (cache, out_buf, SendReply len)
      | None => (cache, out_buf, Nothing)
      end
    else (cache, out_buf, Nothing).

(** ** The bytes the builders write *)

(** An Ethernet/IPv4 ARP message on the wire. *)
Definition arp_frame (dst_mac src_mac : MacAddr) (op : Z) (sha : MacAddr) (spa : Ipv4Addr)
    (tha : MacAddr) (tpa : Ipv4Addr) : bytes :=
  dst_mac ++ src_mac ++ to_be16 ethertype_ARP ++
  to_be16 htype_ETHERNET ++ to_be16 ptype_IPV4 ++ [ETHERNET_HLEN; IPV4_PLEN] ++ to_be16 op ++
  sha ++ octets spa ++ tha ++ octets tpa.

(** Both sides as right-nested appends of the same pieces. *)
#[local] Ltac write_frame :=
  cbv -[app skipn firstn to_be16 octets slice nth];
  repeat (rewrite <- ?app_assoc; cbn [app]); reflexivity.

Lemma build_request_eq buf mac sip tip :
  (FRAME_LEN ≤ length buf)%nat →
  build_request buf mac sip tip =
    (arp_frame BROADCAST mac oper_REQUEST mac sip UNKNOWN_HARDWARE_ADDR tip ++ skipn FRAME_LEN buf,
     Some FRAME_LEN).
Proof.
  intros Hl. change FRAME_LEN with 42%nat in *. unfold build_request.
  rewrite mut_from_prefix_Some by (simpl; change EthernetHeader_LEN with 14%nat; lia).
  rewrite mut_from_prefix_Some by (simpl; rewrite length_drop; change EthernetHeader_LEN with 14%nat;
    change LEN with 28%nat; lia).
  simpl fst. simpl snd. rewrite drop_drop. write_frame.
Qed.

Lemma build_reply_eq buf mac sip tmac tip :
  (FRAME_LEN ≤ length buf)%nat →
  build_reply buf mac sip tmac tip =
    (arp_frame tmac mac oper_REPLY mac sip tmac tip ++ skipn FRAME_LEN buf, Some FRAME_LEN).
Proof.
  intros Hl. change FRAME_LEN with 42%nat in *. unfold build_reply.
  rewrite mut_from_prefix_Some by (simpl; change EthernetHeader_LEN with 14%nat; lia).
  rewrite mut_from_prefix_Some by (simpl; rewrite length_drop; change EthernetHeader_LEN with 14%nat;
    change LEN with 28%nat; lia).
  simpl fst. simpl snd. rewrite drop_drop. write_frame.
Qed.
