(* ===== verification/Dhcp.v ===== *)
(** * DHCPv4 messages ([src/net/dhcp.rs])

    The fixed 240-byte header, the TLV option reader ([OptionsIter], [Options]),
    the typed message views and the option writer. *)

From S2P Require Import Prelude Wire.

Definition BROADCAST_FLAG : Z := 0x8000.
Definition HTYPE_ETHERNET : Z := 1.
Definition HLEN_ETHERNET : Z := 6.
Definition op_BOOTREQUEST : Z := 1.
Definition op_BOOTREPLY : Z := 2.

Definition option_PAD : Z := 0.
Definition option_SUBNET_MASK : Z := 1.
Definition option_ROUTER : Z := 3.
Definition option_DNS_SERVER : Z := 6.
Definition option_REQUESTED_IP : Z := 50.
Definition option_LEASE_TIME : Z := 51.
Definition option_MESSAGE_TYPE : Z := 53.
Definition option_SERVER_ID : Z := 54.
Definition option_PARAMETER_REQUEST_LIST : Z := 55.
Definition option_RENEWAL_TIME : Z := 58.
Definition option_REBINDING_TIME : Z := 59.
Definition option_END : Z := 255.

(** ** The fixed header *)

Record DhcpHeader := {
  op : Z;
  htype : Z;
  hlen : Z;
  hops : Z;
  xid_field : U32Be;
  secs_field : U16Be;
  flags_field : U16Be;
  ciaddr : bytes;
  yiaddr : bytes;
  siaddr : bytes;
  giaddr : bytes;
  chaddr : bytes;
  sname : bytes;
  file : bytes;
  magic_cookie : U32Be;
}.

Definition LEN : nat := 240.
Definition MAGIC_COOKIE : Z := 0x63825363.

#[global] Program Instance DhcpHeader_Pod : Pod DhcpHeader := {|
  size_of := LEN;
  of_bytes b := {|
    op := nth 0 b 0; htype := nth 1 b 0; hlen := nth 2 b 0; hops := nth 3 b 0;
    xid_field := mkU32Be (slice 4 4 b); secs_field := mkU16Be (slice 8 2 b);
    flags_field := mkU16Be (slice 10 2 b); ciaddr := slice 12 4 b; yiaddr := slice 16 4 b;
    siaddr := slice 20 4 b; giaddr := slice 24 4 b; chaddr := slice 28 16 b;
    sname := slice 44 64 b; file := slice 108 128 b; magic_cookie := mkU32Be (slice 236 4 b) |};
  to_bytes h := op h :: htype h :: hlen h :: hops h :: u32be_bytes (xid_field h) ++
    u16be_bytes (secs_field h) ++ u16be_bytes (flags_field h) ++ ciaddr h ++ yiaddr h ++
    siaddr h ++ giaddr h ++ chaddr h ++ sname h ++ file h ++ u32be_bytes (magic_cookie h);
  pod_wf h := u32be_wf (xid_field h) ∧ u16be_wf (secs_field h) ∧ u16be_wf (flags_field h) ∧
    length (ciaddr h) = 4%nat ∧ length (yiaddr h) = 4%nat ∧ length (siaddr h) = 4%nat ∧
    length (giaddr h) = 4%nat ∧ length (chaddr h) = 16%nat ∧ length (sname h) = 64%nat ∧
    length (file h) = 128%nat ∧ u32be_wf (magic_cookie h);
|}.
Next Obligation.
  intros b Hb. change LEN with 240%nat in Hb. unfold u16be_wf, u32be_wf. simpl u16be_bytes.
  simpl u32be_bytes. repeat split; cbn [ciaddr yiaddr siaddr giaddr chaddr sname file];
  apply length_slice; lia.
Qed.
Next Obligation.
  intros t Ht. unfold u16be_wf, u32be_wf in Ht. destruct_and! Ht.
  change LEN with 240%nat. cbn [length]. rewrite !length_app. lia.
Qed.
Next Obligation.
  intros t Ht. unfold u16be_wf, u32be_wf in Ht.
  destruct t as [a b c d [xi] [se] [fl] ci yi si gi ch sn fi [mc]]. simpl in Ht. destruct_and! Ht.
  cbn [op htype hlen hops xid_field secs_field flags_field ciaddr yiaddr siaddr giaddr chaddr sname
    file magic_cookie u16be_bytes u32be_bytes nth].
  change (a :: b :: c :: d :: ?l) with ([a; b; c; d] ++ l).
  assert (length [a; b; c; d] = 4%nat) by done. slice_apps.
  by rewrite slice_to_end by (simpl; lia).
Qed.
Next Obligation.
  intros b Hb. change LEN with 240%nat in Hb.
  do 4 (destruct b as [|? b]; [discriminate Hb|]). cbn [length] in Hb. do 4 apply Nat.succ_inj in Hb.
  cbn [op htype hlen hops xid_field secs_field flags_field ciaddr yiaddr siaddr giaddr chaddr sname
    file magic_cookie u16be_bytes u32be_bytes nth].
  do 4 f_equal. unfold slice at 1 2 3 4 5 6 7 8 9 10 11. simpl skipn.
  rewrite (firstn_all2 (n := 4) (skipn 232 b)) by (rewrite length_drop; lia).
  pose proof slice_skipn as S. unfold slice in S.
  do 10 (rewrite S by reflexivity). apply drop_0.
Qed.

Definition xid (h : DhcpHeader) : Z := u32be_get (xid_field h).
Definition secs (h : DhcpHeader) : Z := u16be_get (secs_field h).
Definition broadcast (h : DhcpHeader) : bool :=
  negb (Z.land (u16be_get (flags_field h)) BROADCAST_FLAG =? 0).
Definition client_ip (h : DhcpHeader) : Ipv4Addr := ip_from (ciaddr h).
Definition your_ip (h : DhcpHeader) : Ipv4Addr := ip_from (yiaddr h).
Definition server_ip (h : DhcpHeader) : Ipv4Addr := ip_from (siaddr h).
Definition gateway_ip (h : DhcpHeader) : Ipv4Addr := ip_from (giaddr h).
Definition has_magic_cookie (h : DhcpHeader) : bool := u32be_get (magic_cookie h) =? MAGIC_COOKIE.

(** The setters: each replaces one field of the header. *)
Definition set_xid (h : DhcpHeader) (v : Z) : DhcpHeader :=
  let '(Build_DhcpHeader o ht hl hp x s f ci yi si gi ch sn fi m) := h in
  Build_DhcpHeader o ht hl hp (u32be_set x v) s f ci yi si gi ch sn fi m.
Definition set_secs (h : DhcpHeader) (v : Z) : DhcpHeader :=
  let '(Build_DhcpHeader o ht hl hp x s f ci yi si gi ch sn fi m) := h in
  Build_DhcpHeader o ht hl hp x (u16be_set s v) f ci yi si gi ch sn fi m.
Definition set_broadcast (h : DhcpHeader) (on : bool) : DhcpHeader :=
  let '(Build_DhcpHeader o ht hl hp x s f ci yi si gi ch sn fi m) := h in
  let fl := if on then Z.lor (u16be_get f) BROADCAST_FLAG
            else Z.land (u16be_get f) (not16 BROADCAST_FLAG) in
  Build_DhcpHeader o ht hl hp x s (u16be_set f fl) ci yi si gi ch sn fi m.
Definition set_client_ip (h : DhcpHeader) (a : Ipv4Addr) : DhcpHeader :=
  let '(Build_DhcpHeader o ht hl hp x s f ci yi si gi ch sn fi m) := h in
  Build_DhcpHeader o ht hl hp x s f (octets a) yi si gi ch sn fi m.
Definition set_your_ip (h : DhcpHeader) (a : Ipv4Addr) : DhcpHeader :=
  let '(Build_DhcpHeader o ht hl hp x s f ci yi si gi ch sn fi m) := h in
  Build_DhcpHeader o ht hl hp x s f ci (octets a) si gi ch sn fi m.
Definition set_server_ip (h : DhcpHeader) (a : Ipv4Addr) : DhcpHeader :=
  let '(Build_DhcpHeader o ht hl hp x s f ci yi si gi ch sn fi m) := h in
  Build_DhcpHeader o ht hl hp x s f ci yi (octets a) gi ch sn fi m.
Definition set_gateway_ip (h : DhcpHeader) (a : Ipv4Addr) : DhcpHeader :=
  let '(Build_DhcpHeader o ht hl hp x s f ci yi si gi ch sn fi m) := h in
  Build_DhcpHeader o ht hl hp x s f ci yi si (octets a) ch sn fi m.
(** Zero-pads [chaddr] and records the (truncated) length as [hlen]. *)
Definition set_client_hardware_addr (h : DhcpHeader) (mac : bytes) : DhcpHeader :=
  let '(Build_DhcpHeader o ht hl hp x s f ci yi si gi ch sn fi m) := h in
  let len := Nat.min (length mac) (length ch) in
  let ch := replicate (length ch) 0 in
  let ch := splice 0 (firstn len mac) ch in
  Build_DhcpHeader o ht (Z.of_nat len `mod` 256) hp x s f ci yi si gi ch sn fi m.
Definition set_magic_cookie (h : DhcpHeader) : DhcpHeader :=
  let '(Build_DhcpHeader o ht hl hp x s f ci yi si gi ch sn fi m) := h in
  Build_DhcpHeader o ht hl hp x s f ci yi si gi ch sn fi (u32be_set m MAGIC_COOKIE).
Definition init_ethernet (h : DhcpHeader) (opcode : Z) : DhcpHeader :=
  let '(Build_DhcpHeader o ht hl hp x s f ci yi si gi ch sn fi m) := h in
  set_magic_cookie (Build_DhcpHeader opcode HTYPE_ETHERNET HLEN_ETHERNET hp x s f ci yi si gi ch sn fi m).

(** ** Reading options *)

(** [OptionsIter::next]: the item and the bytes the iterator is left with.  A
    code byte with no length byte ends the iteration without consuming it. *)
Fixpoint options_next (buf : bytes) : option (Z * bytes) * bytes :=
  match buf with
  | [] => (None, [])
  | code :: rest =>
    if code =? option_PAD then options_next rest
    else if code =? option_END then (None, [])
    else match rest with
         | [] => (None, buf)
         | len :: rest' =>
           if (length rest' <? Z.to_nat len)%nat then (None, [])
           else (Some (code, firstn (Z.to_nat len) rest'), skipn (Z.to_nat len) rest')
         end
  end.

(** [iter.find(|(c, _)| c == code)]: call [next] until a match or [None].  Each
    item consumes at least two bytes, so the length of the buffer bounds the
    number of calls ([options_find_fuel]). *)
Fixpoint options_find (fuel : nat) (code : Z) (buf : bytes) : option bytes :=
  match fuel with
  | O => None
  | S n =>
    match options_next buf with
    | (None, _) => None
    | (Some (c, v), rest) => if c =? code then Some v else options_find n code rest
    end
  end.

(** All items the iterator yields ([collect]). *)
Fixpoint options_collect (fuel : nat) (buf : bytes) : list (Z * bytes) :=
  match fuel with
  | O => []
  | S n =>
    match options_next buf with
    | (None, _) => []
    | (Some item, rest) => item :: options_collect n rest
    end
  end.

Definition options_get (opts : bytes) (code : Z) : option bytes :=
  options_find (S (length opts)) code opts.

Definition opt_ipv4 (value : bytes) : option Ipv4Addr :=
  if bool_decide (length value = 4%nat) then Some (ip_from value) else None.
Definition opt_seconds (value : bytes) : option Z :=
  if bool_decide (length value = 4%nat) then Some (from_be value) else None.

Inductive MessageType :=
| Discover | Offer | Request | Decline | Ack | Nak | Release | Inform.

#[global] Instance MessageType_eq_dec : EqDecision MessageType.
Proof. solve_decision. Defined.

Definition message_type_from_u8 (v : Z) : option MessageType :=
  match v with
  | 1 => Some Discover
  | 2 => Some Offer
  | 3 => Some Request
  | 4 => Some Decline
  | 5 => Some Ack
  | 6 => Some Nak
  | 7 => Some Release
  | 8 => Some Inform
  | _ => None
  end.

Definition message_type_to_u8 (t : MessageType) : Z :=
  match t with
  | Discover => 1
  | Offer => 2
  | Request => 3
  | Decline => 4
  | Ack => 5
  | Nak => 6
  | Release => 7
  | Inform => 8
  end.

(** [Ipv4ListIter::next] and the whole list it yields. *)
Definition ipv4_list_next (b : bytes) : option Ipv4Addr * bytes :=
  if (length b <? 4)%nat then (None, b) else (opt_ipv4 (firstn 4 b), skipn 4 b).
Fixpoint ipv4_list_collect (fuel : nat) (b : bytes) : list Ipv4Addr :=
  match fuel with
  | O => []
  | S n =>
    match ipv4_list_next b with
    | (None, _) => []
    | (Some a, rest) => a :: ipv4_list_collect n rest
    end
  end.

(** Typed getters ([Options]). *)
Definition get_message_type (o : bytes) : option MessageType :=
  v ← options_get o option_MESSAGE_TYPE; b ← head v; message_type_from_u8 b.
Definition get_server_id (o : bytes) : option Ipv4Addr :=
  v ← options_get o option_SERVER_ID; opt_ipv4 v.
Definition get_requested_ip (o : bytes) : option Ipv4Addr :=
  v ← options_get o option_REQUESTED_IP; opt_ipv4 v.
Definition get_subnet_mask (o : bytes) : option Ipv4Addr :=
  v ← options_get o option_SUBNET_MASK; opt_ipv4 v.
Definition get_lease_time (o : bytes) : option Z :=
  v ← options_get o option_LEASE_TIME; opt_seconds v.
Definition get_renewal_time (o : bytes) : option Z :=
  v ← options_get o option_RENEWAL_TIME; opt_seconds v.
Definition get_rebinding_time (o : bytes) : option Z :=
  v ← options_get o option_REBINDING_TIME; opt_seconds v.
Definition get_routers (o : bytes) : bytes := default [] (options_get o option_ROUTER).
Definition get_dns_servers (o : bytes) : bytes := default [] (options_get o option_DNS_SERVER).

(** What a [for] loop over the addresses sees. *)
Definition ipv4_list (b : bytes) : list Ipv4Addr := ipv4_list_collect (length b) b.

(** ** Typed messages: an offer, a request and a lease share their shape *)

Record Message := { msg_header : DhcpHeader; msg_options : bytes }.

Definition parse_message (kind : MessageType) (h : DhcpHeader) (o : bytes) : option Message :=
  t ← get_message_type o;
  if decide (t = kind) then Some {| msg_header := h; msg_options := o |} else None.
Definition offer_parse : DhcpHeader → bytes → option Message := parse_message Offer.
Definition request_parse : DhcpHeader → bytes → option Message := parse_message Request.
Definition lease_parse : DhcpHeader → bytes → option Message := parse_message Ack.

Definition transaction_id (m : Message) : Z := xid (msg_header m).
Definition client_hardware_addr (m : Message) : bytes :=
  firstn (Nat.min (Z.to_nat (hlen (msg_header m))) (length (chaddr (msg_header m))))
    (chaddr (msg_header m)).

(** [Offer] *)
Definition offered_ip (m : Message) : Ipv4Addr := your_ip (msg_header m).
Definition offer_server_id (m : Message) : option Ipv4Addr := get_server_id (msg_options m).
Definition offer_lease_time (m : Message) : option Z := get_lease_time (msg_options m).
Definition offer_subnet_mask (m : Message) : option Ipv4Addr := get_subnet_mask (msg_options m).
Definition offer_routers (m : Message) : bytes := get_routers (msg_options m).
Definition offer_dns_servers (m : Message) : bytes := get_dns_servers (msg_options m).
(** [Request] *)
Definition request_requested_ip (m : Message) : option Ipv4Addr := get_requested_ip (msg_options m).
Definition request_client_ip (m : Message) : Ipv4Addr := client_ip (msg_header m).
Definition request_server_id (m : Message) : option Ipv4Addr := get_server_id (msg_options m).
(** [Lease] *)
Definition assigned_ip (m : Message) : Ipv4Addr := your_ip (msg_header m).
Definition lease_server_id (m : Message) : option Ipv4Addr := get_server_id (msg_options m).
Definition lease_lease_time (m : Message) : option Z := get_lease_time (msg_options m).
Definition lease_renewal_time (m : Message) : option Z := get_renewal_time (msg_options m).
Definition lease_rebinding_time (m : Message) : option Z := get_rebinding_time (msg_options m).
Definition lease_subnet_mask (m : Message) : option Ipv4Addr := get_subnet_mask (msg_options m).
Definition lease_routers (m : Message) : bytes := get_routers (msg_options m).
Definition lease_dns_servers (m : Message) : bytes := get_dns_servers (msg_options m).

(** ** Writing options *)

Record OptionsWriter := { wbuf : bytes; wlen : nat }.

Definition writer_new (buf : bytes) : OptionsWriter := {| wbuf := buf; wlen := 0 |}.

(** The writer after the call and the returned flag.  The guard makes every
    index in range. *)
Definition write_option (w : OptionsWriter) (code : Z) (value : bytes) : OptionsWriter * bool :=
  let need := (2 + length value)%nat in
  if bool_decide (255 < length value ∨ length (wbuf w) < wlen w + need)%nat then (w, false)
  else
    let buf := splice (wlen w) [code] (wbuf w) in
    let buf := splice (wlen w + 1) [Z.of_nat (length value) `mod` 256] buf in
    let buf := splice (wlen w + 2) value buf in
    ({| wbuf := buf; wlen := wlen w + need |}, true).

Definition write_message_type (w : OptionsWriter) (t : MessageType) : OptionsWriter * bool :=
  write_option w option_MESSAGE_TYPE [message_type_to_u8 t].
Definition write_ipv4 (w : OptionsWriter) (code : Z) (a : Ipv4Addr) : OptionsWriter * bool :=
  write_option w code (octets a).
Definition write_seconds (w : OptionsWriter) (code : Z) (secs : Z) : OptionsWriter * bool :=
  write_option w code (to_be32 secs).

(** The loop that copies the addresses from offset [o] on. *)
Fixpoint write_addrs (buf : bytes) (o : nat) (addrs : list Ipv4Addr) : bytes :=
  match addrs with
  | [] => buf
  | a :: rest => write_addrs (splice o (octets a) buf) (o + 4) rest
  end.

Definition write_ipv4_list (w : OptionsWriter) (code : Z) (addrs : list Ipv4Addr)
    : OptionsWriter * bool :=
  let vlen := (length addrs * 4)%nat in
  if bool_decide (255 < vlen ∨ length (wbuf w) < wlen w + 2 + vlen)%nat then (w, false)
  else
    let buf := splice (wlen w) [code] (wbuf w) in
    let buf := splice (wlen w + 1) [Z.of_nat vlen `mod` 256] buf in
    let buf := write_addrs buf (wlen w + 2) addrs in
    ({| wbuf := buf; wlen := wlen w + (2 + vlen) |}, true).

Definition write_end (w : OptionsWriter) : OptionsWriter * bool :=
  if bool_decide (length (wbuf w) < wlen w + 1)%nat then (w, false)
  else ({| wbuf := splice (wlen w) [option_END] (wbuf w); wlen := wlen w + 1 |}, true).

(** ** Options as a list: encoding, and what the reader sees *)

Definition encode_option (o : Z * bytes) : bytes := o.1 :: Z.of_nat (length o.2) :: o.2.
Definition encode (opts : list (Z * bytes)) : bytes := concat (encode_option <$> opts).

(** A code that is neither PAD nor END, with a value whose length fits a byte. *)
Definition option_wf (o : Z * bytes) : Prop :=
  o.1 ≠ option_PAD ∧ o.1 ≠ option_END ∧ (length o.2 ≤ 255)%nat.
#[global] Instance option_wf_dec o : Decision (option_wf o).
Proof. unfold option_wf. apply _. Defined.

(** The bytes a writer has produced so far. *)
Definition written (w : OptionsWriter) : bytes := firstn (wlen w) (wbuf w).

(** A sequence of [option] calls chained with [&&]. *)
Fixpoint write_options (w : OptionsWriter) (opts : list (Z * bytes)) : OptionsWriter * bool :=
  match opts with
  | [] => (w, true)
  | (c, v) :: rest =>
    let '(w', ok) := write_option w c v in
    if ok then write_options w' rest else (w', false)
  end.

Lemma options_next_encoded o rest :
  option_wf o → options_next (encode_option o ++ rest) = (Some o, rest).
Proof.
  destruct o as [c v]. intros (Hp & He & Hl). simpl in *.
  rewrite (proj2 (Z.eqb_neq _ _) Hp), (proj2 (Z.eqb_neq _ _) He), Nat2Z.id, length_app.
  rewrite (proj2 (Nat.ltb_ge _ _)) by lia. by rewrite take_app_length, drop_app_length.
Qed.

(** [next] only ever shortens the buffer, by at least two bytes per item. *)
Lemma options_next_length buf item rest :
  options_next buf = (Some item, rest) → (length rest + 2 ≤ length buf)%nat.
Proof.
  induction buf as [|c buf IH]; simpl; [done|]. intros H.
  repeat case_match; simplify_eq; simpl; try (specialize (IH H); lia).
  rewrite length_drop. lia.
Qed.

(** Fuel beyond the length of the buffer makes no difference. *)
Lemma options_find_fuel n m code buf :
  (length buf < n)%nat → (length buf < m)%nat → options_find n code buf = options_find m code buf.
Proof.
  revert m buf. induction n as [|n IH]; intros [|m] buf Hn Hm; try lia. simpl.
  destruct (options_next buf) as [[[c v]|] rest] eqn:E; [|done].
  case_match; [done|]. apply options_next_length in E. apply IH; lia.
Qed.

Lemma options_collect_encoded n opts rest :
  Forall option_wf opts → (length opts < n)%nat →
  options_collect n (encode opts ++ option_END :: rest) = opts.
Proof.
  revert n. induction opts as [|o opts IH]; intros [|n] Hwf Hn; simpl in Hn; try lia; [done|].
  apply Forall_cons_1 in Hwf as [Ho Hwf]. unfold encode. cbn [fmap list_fmap concat options_collect].
  rewrite <- app_assoc, options_next_encoded by done. f_equal. apply IH; [done|lia].
Qed.

Lemma write_option_true w c v w' :
  write_option w c v = (w', true) →
  written w' = written w ++ encode_option (c, v) ∧ length (wbuf w') = length (wbuf w) ∧
  wlen w' = (wlen w + length (encode_option (c, v)))%nat ∧ (length v ≤ 255)%nat ∧
  (wlen w' ≤ length (wbuf w))%nat.
Proof.
  unfold write_option, written. case_bool_decide as Hg; [done|]. intros [= <-]. simpl.
  assert (length (splice (wlen w) [c] (wbuf w)) = length (wbuf w)) as L1
    by (apply length_splice; simpl; lia).
  set (b1 := splice (wlen w) [c] (wbuf w)) in *.
  assert (length (splice (wlen w + 1) [Z.of_nat (length v) `mod` 256] b1) = length (wbuf w)) as L2
    by (rewrite length_splice; simpl; lia).
  set (b2 := splice (wlen w + 1) _ b1) in *.
  rewrite length_splice by lia. split; [|repeat split; lia].
  rewrite (firstn_splice_end (wlen w + 2)) by lia. subst b2.
  rewrite (firstn_splice_end (wlen w + 1)) by (simpl; lia). subst b1.
  rewrite (firstn_splice_end (wlen w)) by (simpl; lia).
  rewrite Z.mod_small by lia. by rewrite <- !app_assoc.
Qed.

Lemma write_options_true opts w w' :
  write_options w opts = (w', true) →
  written w' = written w ++ encode opts ∧ length (wbuf w') = length (wbuf w) ∧
  (wlen w ≤ length (wbuf w) → wlen w' ≤ length (wbuf w'))%nat ∧
  Forall (λ o, length o.2 ≤ 255)%nat opts.
Proof.
  revert w. induction opts as [|[c v] opts IH]; intros w; simpl.
  - intros [= <-]. by rewrite app_nil_r.
  - destruct (write_option w c v) as [w1 []] eqn:E; [|done]. intros H.
    apply write_option_true in E as (E1 & L1 & K1 & V1 & B1).
    apply IH in H as (E2 & L2 & B2 & V2). rewrite E2, E1, <- app_assoc.
    split; [done|]. split; [lia|]. split; [lia|by constructor].
Qed.

Lemma write_end_true w w' :
  write_end w = (w', true) → written w' = written w ++ [option_END].
Proof.
  unfold write_end, written. case_bool_decide as Hg; [done|]. intros [= <-]. simpl.
  by rewrite (firstn_splice_end (wlen w)) by (simpl; lia).
Qed.

(** What [get] finds in an encoded option list: the first value of the code. *)
Fixpoint first_option (code : Z) (opts : list (Z * bytes)) : option bytes :=
  match opts with
  | [] => None
  | (c, v) :: rest => if c =? code then Some v else first_option code rest
  end.

Lemma options_find_encoded n code opts rest :
  Forall option_wf opts → (length opts < n)%nat →
  options_find n code (encode opts ++ option_END :: rest) = first_option code opts.
Proof.
  revert n. induction opts as [|[c v] opts IH]; intros [|n] Hwf Hn; simpl in Hn; try lia; [done|].
  apply Forall_cons_1 in Hwf as [Ho Hwf]. unfold encode. cbn [fmap list_fmap concat options_find first_option].
  rewrite <- app_assoc, options_next_encoded by done. case_match; [done|]. apply IH; [done|lia].
Qed.

Lemma length_encode opts : (length opts ≤ length (encode opts))%nat.
Proof.
  induction opts as [|o opts IH]; [simpl; lia|].
  change (encode (o :: opts)) with (encode_option o ++ encode opts). rewrite length_app. simpl. lia.
Qed.

Lemma options_get_encoded code opts rest :
  Forall option_wf opts → options_get (encode opts ++ option_END :: rest) code = first_option code opts.
Proof.
  intros Hwf. unfold options_get. apply options_find_encoded; [done|].
  rewrite length_app. pose proof (length_encode opts). simpl. lia.
Qed.

(** Writes that fit succeed. *)
Lemma write_option_fits w c v :
  (length v ≤ 255)%nat → (wlen w + length (encode_option (c, v)) ≤ length (wbuf w))%nat →
  ∃ w', write_option w c v = (w', true).
Proof.
  intros Hv Hl. unfold write_option. rewrite bool_decide_false by (simpl in Hl; lia). eauto.
Qed.

Lemma write_options_fits opts w :
  Forall (λ o, length o.2 ≤ 255)%nat opts → (wlen w + length (encode opts) ≤ length (wbuf w))%nat →
  ∃ w', write_options w opts = (w', true) ∧ wlen w' = (wlen w + length (encode opts))%nat.
Proof.
  revert w. induction opts as [|[c v] opts IH]; intros w Hv Hl; cbn [write_options].
  { exists w. split; [done|]. simpl. lia. }
  change (encode ((c, v) :: opts)) with (encode_option (c, v) ++ encode opts) in *. rewrite length_app in *.
  apply Forall_cons_1 in Hv as [Hv Hvs]. destruct (write_option_fits w c v) as [w1 E]; [done|lia|]. rewrite E.
  apply write_option_true in E as (_ & L1 & K1 & _). destruct (IH w1) as (w' & -> & Hw'); [done|lia|].
  exists w'. split; [done|]. lia.
Qed.

(** [ipv4_list] writes the same bytes as [option] on the concatenated octets. *)
Lemma write_addrs_splice buf o addrs :
  (o + 4 * length addrs ≤ length buf)%nat → write_addrs buf o addrs = splice o (concat (octets <$> addrs)) buf.
Proof.
  revert buf o. induction addrs as [|a addrs IH]; intros buf o Hl; cbn [write_addrs fmap list_fmap concat length] in *.
  { unfold splice. cbn [app length]. by rewrite Nat.add_0_r, take_drop. }
  assert (length (concat (octets <$> addrs)) = 4 * length addrs)%nat as Hc.
  { clear. induction addrs as [|x l IH]; [done|]. cbn [fmap list_fmap concat length]. rewrite length_app, IH, length_octets. lia. }
  assert (length (splice o (octets a) buf) = length buf) as Hs by (apply length_splice; rewrite length_octets; lia).
  rewrite IH by lia. apply list_eq. intros i.
  rewrite !lookup_splice by (rewrite ?Hs, ?length_app, ?Hc, ?length_octets; lia).
  rewrite length_app, Hc, length_octets. repeat case_decide; try lia; try done.
  - rewrite lookup_app_r by (rewrite length_octets; lia). rewrite length_octets. f_equal. lia.
  - by rewrite lookup_app_l by (rewrite length_octets; lia).
Qed.

Lemma write_ipv4_list_eq w code addrs :
  write_ipv4_list w code addrs = write_option w code (concat (octets <$> addrs)).
Proof.
  assert (length (concat (octets <$> addrs)) = length addrs * 4)%nat as Hc.
  { induction addrs as [|x l IH]; [done|]. cbn [fmap list_fmap concat length]. rewrite length_app, IH, length_octets. lia. }
  unfold write_ipv4_list, write_option. rewrite Hc.
  destruct (decide (255 < length addrs * 4 ∨ length (wbuf w) < wlen w + (2 + length addrs * 4))%nat).
  - by rewrite !bool_decide_true by lia.
  - rewrite !bool_decide_false by lia. rewrite write_addrs_splice; [done|].
    rewrite !length_splice by (rewrite ?length_splice; simpl; lia). lia.
Qed.

(** C39: whatever sequence of options a writer accepts (each [option] call and
    the final [end] returning [true]), the option iterator reads back from the
    written bytes exactly the same codes and values in the same order, for
    codes other than PAD and END. *)
Theorem options_write_read_roundtrip (buf : bytes) (opts : list (Z * bytes)) (w w' : OptionsWriter)
    (Hcodes : Forall (λ o, o.1 ≠ option_PAD ∧ o.1 ≠ option_END) opts)
    (Hopts : write_options (writer_new buf) opts = (w, true))
    (Hend : write_end w = (w', true)) :
  options_collect (S (wlen w')) (written w') = opts.
Proof.
  apply write_options_true in Hopts as (Ew & Lw & Bw & Vw). simpl in Ew, Lw, Bw.
  assert (Forall option_wf opts) as Hwf.
  { rewrite Forall_forall in *. intros o Ho. destruct (Hcodes o Ho). by split; [|split; [|apply Vw]]. }
  rewrite (write_end_true _ _ Hend), Ew. apply (options_collect_encoded _ opts []); [done|].
  assert (length (encode opts) ≤ wlen w)%nat.
  { replace (length (encode opts)) with (length (written w)) by (by rewrite Ew).
    unfold written. rewrite length_take. lia. }
  pose proof (length_encode opts).
  revert Hend. unfold write_end. case_bool_decide; [done|]. intros [= <-]. simpl. lia.
Qed.

Lemma options_write_read_roundtrip_witness :
  options_collect 11 [53; 1; 5; 54; 4; 192; 168; 1; 1; 255] = [(53, [5]); (54, [192; 168; 1; 1])].
Proof.
  set (opts := [(53, [5]); (54, [192; 168; 1; 1])]).
  apply (options_write_read_roundtrip (replicate 11 0) opts
    {| wbuf := [53; 1; 5; 54; 4; 192; 168; 1; 1; 0; 0]; wlen := 9 |}
    {| wbuf := [53; 1; 5; 54; 4; 192; 168; 1; 1; 255; 0]; wlen := 10 |}).
  - decide_now.
  - reflexivity.
  - reflexivity.
Defined.
