(* ===== verification/Checksum.v ===== *)
(** * Internet checksum ([src/net/checksum.rs])

    The RFC 1071 sum, the IPv4 and UDP checksums and the RFC 1624 incremental
    update.  The specification is the exact integer sum of the big-endian
    16-bit words, [wsum]: a checksum is correct when that sum is a positive
    multiple of 65535. *)

From S2P Require Import Prelude Ip.

(** ** Definitions *)

Definition UDP_PROTO_WORD : Z := proto_UDP.

(** One turn of the loop of [fold]. *)
Definition fold_step (acc : Z) : Z := Z.land acc 0xffff + Z.shiftr acc 16.

Fixpoint fold_loop (fuel : nat) (acc : Z) : Z :=
  match fuel with
  | O => acc
  | S n => if negb (Z.shiftr acc 16 =? 0) then fold_loop n (fold_step acc) else acc
  end.

(** Two turns are enough for a [u32] ([fold_loop_done]). *)
Definition fold (acc : Z) : Z := fold_loop 2 acc `mod` 2 ^ 16.

Fixpoint accumulate (acc : Z) (data : bytes) : Z :=
  match data with
  | a :: b :: rest => accumulate ((acc + from_be [a; b]) `mod` 2 ^ 32) rest
  | [last] => (acc + from_be [last; 0]) `mod` 2 ^ 32
  | [] => acc
  end.

Definition finish (acc : Z) : Z := not16 (fold acc).
Definition checksum (data : bytes) : Z := finish (accumulate 0 data).
Definition ipv4_header (header : bytes) : Z := checksum header.

Definition udp_ipv4 (src dst udp : bytes) : Z :=
  let acc := accumulate 0 src in
  let acc := accumulate acc dst in
  let acc := (acc + UDP_PROTO_WORD) `mod` 2 ^ 32 in
  let acc := (acc + Z.of_nat (length udp) `mod` 2 ^ 32) `mod` 2 ^ 32 in
  let acc := accumulate acc udp in
  match finish acc with
  | 0 => 0xffff
  | v => v
  end.

(** The loop over the complemented words of the old field. *)
Fixpoint accumulate_not (acc : Z) (data : bytes) : Z :=
  match data with
  | a :: b :: rest => accumulate_not ((acc + not16 (from_be [a; b])) `mod` 2 ^ 32) rest
  | [b] => (acc + not16 (from_be [b; 0])) `mod` 2 ^ 32
  | [] => acc
  end.

Definition update (checksum : Z) (old new : bytes) : Z :=
  let acc := not16 checksum in
  let acc := accumulate_not acc old in
  let acc := accumulate acc new in
  not16 (fold acc).

(** ** Specification: exact word sums *)

Fixpoint wsum (data : bytes) : Z :=
  match data with
  | a :: b :: rest => (a * 256 + b) + wsum rest
  | [last] => last * 256
  | [] => 0
  end.

(** Number of 16-bit words, the last one padded. *)
Fixpoint nwords (data : bytes) : Z :=
  match data with
  | _ :: _ :: rest => 1 + nwords rest
  | [_] => 1
  | [] => 0
  end.

(** The value a one's-complement sum folds to. *)
Definition ones_norm (s : Z) : Z := if s =? 0 then 0 else (s - 1) `mod` 65535 + 1.

(** A running sum is a valid one's-complement checksum when it is positive and
    divisible by 65535. *)
Definition sum_valid (s : Z) : Prop := 0 < s ∧ s `mod` 65535 = 0.

(** The check a receiver makes of a TCP or UDP segment: pseudo-header (addresses,
    protocol, length) plus the segment, 0 when it verifies. *)
Definition l4_check (src dst : bytes) (proto : Z) (seg : bytes) : Z :=
  finish (accumulate ((accumulate (accumulate 0 src) dst + proto + Z.of_nat (length seg)) `mod` 2 ^ 32) seg).

(** Its exact sum. *)
Definition pseudo_sum (src dst : bytes) (proto : Z) (seg : bytes) : Z :=
  wsum src + wsum dst + proto + Z.of_nat (length seg) + wsum seg.

(** Induction that consumes two bytes at a time. *)
Lemma pair_ind (P : bytes → Prop) :
  P [] → (∀ a, P [a]) → (∀ a b l, P l → P (a :: b :: l)) → ∀ l, P l.
Proof.
  intros H0 H1 H2.
  enough (∀ l, P l ∧ ∀ a, P (a :: l)) as H by apply H.
  induction l as [|a l [IH1 IH2]]; eauto.
Qed.

Lemma fold_step_alt acc : fold_step acc = acc `mod` 65536 + acc / 65536.
Proof.
  unfold fold_step. change 0xffff with (Z.ones 16). rewrite Z.land_ones, Z.shiftr_div_pow2 by lia. done.
Qed.

Lemma shiftr16_0 acc : 0 ≤ acc → (Z.shiftr acc 16 =? 0) = true ↔ acc < 65536.
Proof. intros. rewrite Z.eqb_eq, Z.shiftr_div_pow2 by lia. div_lia. Qed.

(** The loop of [fold] has left its guard after two turns. *)
Lemma fold_loop_done acc : u32 acc → 0 ≤ fold_loop 2 acc < 65536.
Proof.
  intros Hacc. assert (0 ≤ acc) by word_lia. cbn [fold_loop Nat.add].
  destruct (Z.shiftr acc 16 =? 0) eqn:E1; cbn [negb fold_loop].
  { apply shiftr16_0 in E1; lia. }
  assert (0 ≤ fold_step acc) by (rewrite fold_step_alt; div_lia).
  destruct (Z.shiftr (fold_step acc) 16 =? 0) eqn:E2; cbn [negb fold_loop].
  { apply shiftr16_0 in E2; lia. }
  apply not_true_iff_false in E2. rewrite shiftr16_0 in E2 by done.
  rewrite !fold_step_alt in *. div_lia.
Qed.

(** Every further turn would leave the value alone. *)
Lemma fold_loop_more acc n : u32 acc → fold_loop (2 + n) acc = fold_loop 2 acc.
Proof.
  intros Hacc. pose proof (fold_loop_done acc Hacc) as Hd. revert Hd. cbn [fold_loop Nat.add].
  destruct (Z.shiftr acc 16 =? 0) eqn:E1; cbn [negb fold_loop]; [done|].
  destruct (Z.shiftr (fold_step acc) 16 =? 0) eqn:E2; cbn [negb fold_loop]; [done|].
  intros [? ?]. destruct n; cbn [negb fold_loop]; [done|].
  by rewrite (proj2 (shiftr16_0 _ H)).
Qed.

Lemma ones_norm_step acc : 0 ≤ acc → ones_norm (fold_step acc) = ones_norm acc.
Proof.
  intros. rewrite fold_step_alt. unfold ones_norm.
  destruct (Z.eqb_spec acc 0) as [->|]; [reflexivity|].
  destruct (Z.eqb_spec (acc `mod` 65536 + acc / 65536) 0); [div_lia|].
  replace (acc - 1) with ((acc `mod` 65536 + acc / 65536 - 1) + (acc / 65536) * 65535) by div_lia.
  by rewrite Z_mod_plus_full.
Qed.

Lemma ones_norm_small x : 0 ≤ x < 65536 → ones_norm x = x.
Proof.
  intros. unfold ones_norm. destruct (Z.eqb_spec x 0); [lia|].
  rewrite Z.mod_small by lia. lia.
Qed.

(** [fold] computes the canonical representative of the sum. *)
Lemma fold_norm acc : u32 acc → fold acc = ones_norm acc.
Proof.
  intros Hacc. unfold fold. pose proof (fold_loop_done acc Hacc) as Hd.
  rewrite Z.mod_small by word_lia. rewrite <- (ones_norm_small _ Hd). clear Hd.
  assert (0 ≤ acc) by word_lia. clear Hacc. cbn [fold_loop Nat.add].
  destruct (Z.shiftr acc 16 =? 0); cbn [negb fold_loop]; [done|].
  assert (0 ≤ fold_step acc) by (rewrite fold_step_alt; div_lia).
  destruct (Z.shiftr (fold_step acc) 16 =? 0); cbn [negb fold_loop]; by rewrite !ones_norm_step.
Qed.

Lemma ones_norm_range s : 0 ≤ s → 0 ≤ ones_norm s < 65536.
Proof. intros. unfold ones_norm. case_match; [lia|]. pose proof (Z.mod_pos_bound (s - 1) 65535). lia. Qed.

Lemma ones_norm_congr s : ones_norm s `mod` 65535 = s `mod` 65535.
Proof.
  unfold ones_norm. destruct (Z.eqb_spec s 0) as [->|]; [done|].
  rewrite Z.add_mod_idemp_l by lia. f_equal. lia.
Qed.

Lemma ones_norm_0 s : 0 ≤ s → ones_norm s = 0 ↔ s = 0.
Proof.
  intros. unfold ones_norm. destruct (Z.eqb_spec s 0); [done|].
  pose proof (Z.mod_pos_bound (s - 1) 65535). lia.
Qed.

(** Two positive sums with the same remainder fold to the same word. *)
Lemma ones_norm_eq s t : 0 < s → 0 < t → s `mod` 65535 = t `mod` 65535 → ones_norm s = ones_norm t.
Proof.
  intros Hs Ht E. unfold ones_norm. destruct (Z.eqb_spec s 0); [lia|]. destruct (Z.eqb_spec t 0); [lia|].
  f_equal. rewrite (Zminus_mod s), (Zminus_mod t), E. done.
Qed.

Lemma ones_norm_valid s : 0 ≤ s → ones_norm s = 65535 ↔ sum_valid s.
Proof.
  intros Hs. unfold sum_valid, ones_norm. destruct (Z.eqb_spec s 0); [lia|]. div_lia.
Qed.

(** ** Word sums of slices *)

Lemma wsum_nonneg b : Forall u8 b → 0 ≤ wsum b.
Proof.
  induction b as [|x|x y b IHb] using pair_ind; intros Hb; inv_Forall; cbn [wsum]; [lia|word_lia|].
  assert (0 ≤ wsum b) by auto. word_lia.
Qed.

Lemma nwords_nonneg b : 0 ≤ nwords b.
Proof. induction b as [|x|x y b IHb] using pair_ind; simpl; lia. Qed.

Lemma nwords_le b : 2 * nwords b ≤ Z.of_nat (length b) + 1.
Proof. induction b as [|x|x y b IHb] using pair_ind; simpl length; simpl nwords; lia. Qed.

Lemma nwords_pos b : (0 < length b)%nat → 0 < nwords b.
Proof. destruct b as [|a [|c b]]; simpl; [lia|lia|]. pose proof (nwords_nonneg b). lia. Qed.

Lemma wsum_le b : Forall u8 b → wsum b ≤ 65535 * nwords b.
Proof.
  induction b as [|x|x y b IHb] using pair_ind; intros Hb; inv_Forall; cbn [wsum nwords]; [lia|word_lia|].
  assert (wsum b ≤ 65535 * nwords b) by auto. word_lia.
Qed.

Lemma wsum_bound b n :
  Forall u8 b → Z.of_nat (length b) ≤ 2 * n → wsum b ≤ 65535 * n.
Proof. intros Hb Hn. pose proof (wsum_le b Hb). pose proof (nwords_le b). nia. Qed.

Lemma wsum_app_even a b : Nat.Even (length a) → wsum (a ++ b) = wsum a + wsum b.
Proof.
  induction a as [|x|x y a IHa] using pair_ind; simpl; intros He; [done| |].
  - destruct He. lia.
  - rewrite IHa; [lia|]. destruct He as [k Hk]. exists (k - 1)%nat. lia.
Qed.

Lemma splice_decompose off n b :
  (off + n ≤ length b)%nat → b = firstn off b ++ slice off n b ++ skipn (off + n) b.
Proof.
  intros. unfold slice. rewrite <- drop_drop, take_drop, take_drop. done.
Qed.

(** Overwriting an aligned field changes the sum by the difference. *)
Lemma wsum_splice off v b :
  (off + length v ≤ length b)%nat → Nat.Even off → Nat.Even (length v) →
  wsum (splice off v b) = wsum b - wsum (slice off (length v) b) + wsum v.
Proof.
  intros Hl Ho Hv. rewrite (splice_decompose off (length v) b Hl) at 2. unfold splice.
  assert (length (firstn off b) = off) as Ho' by (rewrite length_take; lia).
  rewrite !wsum_app_even; rewrite ?Ho', ?length_slice by done; lia || done.
Qed.

Lemma wsum_pos b : Forall u8 b → nth 0 b 0 ≠ 0 → 0 < wsum b.
Proof.
  destruct b as [|x [|y b]]; intros Hb Hx; inv_Forall; cbn [nth wsum] in *; [done|word_lia|].
  pose proof (wsum_nonneg b ltac:(done)). word_lia.
Qed.

Lemma sum_valid_congr s t :
  0 < s → 0 < t → s `mod` 65535 = t `mod` 65535 → sum_valid s ↔ sum_valid t.
Proof. unfold sum_valid. intros ?? ->. tauto. Qed.

Lemma wsum_to_be16 x : u16 x → wsum (to_be16 x) = x.
Proof. intros. change (wsum (to_be16 x)) with (from_be (to_be16 x) + 0). rewrite from_to_be16; [lia|done]. Qed.

Lemma wsum_2 b : length b = 2%nat → wsum b = from_be b.
Proof. intros. explode_list b. rewrite from_be_2. simpl. lia. Qed.

(** ** The accumulators compute word sums *)

Lemma accumulate_wsum b acc :
  accumulate acc b `mod` 2 ^ 32 = (acc + wsum b) `mod` 2 ^ 32.
Proof.
  revert acc. induction b as [|x|x y b IHb] using pair_ind; intros acc; cbn [accumulate wsum].
  - f_equal. lia.
  - rewrite Z.mod_mod, from_be_2 by lia. f_equal. lia.
  - rewrite IHb, Z.add_mod_idemp_l, from_be_2 by lia. f_equal. lia.
Qed.

Lemma accumulate_u32 b acc : u32 acc → u32 (accumulate acc b).
Proof.
  revert acc. induction b as [|x|x y b IHb] using pair_ind; intros acc ?; cbn [accumulate]; [done| |].
  - apply Z.mod_pos_bound. lia.
  - apply IHb, Z.mod_pos_bound. lia.
Qed.

Lemma accumulate_exact b acc :
  Forall u8 b → 0 ≤ acc → acc + wsum b < 2 ^ 32 → accumulate acc b = acc + wsum b.
Proof.
  intros Hb Ha Hs. pose proof (wsum_nonneg b Hb).
  rewrite <- (Z.mod_small (acc + wsum b) (2 ^ 32)) by lia. rewrite <- accumulate_wsum.
  symmetry. apply Z.mod_small, accumulate_u32. word_lia.
Qed.

Lemma accumulate_not_exact b acc :
  Forall u8 b → 0 ≤ acc → acc + 65535 * nwords b < 2 ^ 32 →
  accumulate_not acc b = acc + 65535 * nwords b - wsum b.
Proof.
  revert acc. induction b as [|x|x y b IHb] using pair_ind; intros acc Hb Ha Hs; inv_Forall;
    cbn [accumulate_not wsum nwords] in *; unfold not16; rewrite ?from_be_2.
  - lia.
  - rewrite Z.mod_small by word_lia. lia.
  - pose proof (nwords_nonneg b). rewrite Z.mod_small by word_lia.
    rewrite IHb; [lia|done|word_lia|word_lia].
Qed.

(** [finish] of an exact sum: zero exactly when the sum is valid. *)
Lemma finish_0 s : u32 s → finish s = 0 ↔ sum_valid s.
Proof.
  intros Hs. unfold finish, not16. rewrite fold_norm by done.
  rewrite <- ones_norm_valid by word_lia. lia.
Qed.

Lemma finish_u16 s : u32 s → u16 (finish s).
Proof.
  intros Hs. unfold finish, not16. rewrite fold_norm by done.
  pose proof (ones_norm_range s). word_lia.
Qed.

(** Adding the finished checksum to the sum it was computed from gives a valid
    sum, whichever of the two zeros was stored. *)
Lemma finish_completes s c :
  u32 s → c = finish s ∨ c = 65535 ∧ finish s = 0 → sum_valid (s + c).
Proof.
  intros Hs Hc. assert (0 ≤ s) by word_lia. unfold finish, not16, sum_valid in *.
  rewrite fold_norm in Hc by done. pose proof (ones_norm_range s ltac:(lia)).
  pose proof (ones_norm_congr s) as E. pose proof (ones_norm_0 s ltac:(lia)).
  split; [lia|]. rewrite <- Z.add_mod_idemp_l, <- E, Z.add_mod_idemp_l by lia.
  destruct Hc as [->|[-> Hc]].
  - replace (ones_norm s + (65535 - ones_norm s)) with 65535 by lia. done.
  - replace (ones_norm s) with 65535 by lia. done.
Qed.

Lemma checksum_exact b :
  Forall u8 b → Z.of_nat (length b) ≤ 131072 → checksum b = finish (wsum b) ∧ u32 (wsum b).
Proof.
  intros Hb Hl. pose proof (wsum_bound b 65536 Hb ltac:(lia)). pose proof (wsum_nonneg b Hb).
  unfold checksum. rewrite accumulate_exact by (done || word_lia). split; [done|word_lia].
Qed.

(** RFC 1624: the updated checksum differs from the old one by the change of
    the field, modulo 65535. *)
Lemma update_congr hc old new :
  u16 hc → Forall u8 old → Forall u8 new →
  Z.of_nat (length old) ≤ 65536 → Z.of_nat (length new) ≤ 65534 →
  u16 (update hc old new) ∧
  update hc old new `mod` 65535 = (hc + wsum old - wsum new) `mod` 65535.
Proof.
  intros Hc Ho Hn Lo Ln. unfold update, not16.
  pose proof (wsum_nonneg _ Ho). pose proof (wsum_nonneg _ Hn).
  pose proof (wsum_le _ Ho). pose proof (nwords_le old). pose proof (nwords_nonneg old).
  pose proof (wsum_bound new 32767 Hn ltac:(lia)).
  rewrite accumulate_not_exact by (done || word_lia).
  rewrite accumulate_exact by (done || word_lia).
  set (s := 65535 - hc + 65535 * nwords old - wsum old + wsum new).
  assert (u32 s) as Hs by (subst s; word_lia). rewrite fold_norm by done.
  pose proof (ones_norm_range s ltac:(word_lia)). split; [word_lia|].
  rewrite Zminus_mod, ones_norm_congr, <- Zminus_mod.
  replace (65535 - s) with ((hc + wsum old - wsum new) + (- nwords old) * 65535) by (subst s; lia).
  apply Z_mod_plus_full.
Qed.

(** ** Properties *)

(** [fold] terminates: after two turns its loop guard is false for every
    [u32] accumulator, further turns change nothing, and the result is the
    canonical one's-complement representative of the sum (same remainder modulo
    65535, zero only for zero). *)
Theorem fold_terminates_canonical (acc : Z) (n : nat) (Hacc : u32 acc) :
  Z.shiftr (fold_loop 2 acc) 16 = 0 ∧ fold_loop (2 + n) acc = fold_loop 2 acc ∧
  fold acc = ones_norm acc ∧ fold acc `mod` 65535 = acc `mod` 65535 ∧ (fold acc = 0 ↔ acc = 0).
Proof.
  pose proof (fold_loop_done acc Hacc). rewrite fold_norm by done.
  split; [|split; [|split; [|split]]].
  - apply Z.eqb_eq, shiftr16_0; lia.
  - by apply fold_loop_more.
  - done.
  - apply ones_norm_congr.
  - apply ones_norm_0. word_lia.
Qed.

Lemma fold_terminates_canonical_witness :
  fold 0xfffe8001 = 0x8000 ∧ fold_loop 5 0xfffe8001 = fold_loop 2 0xfffe8001.
Proof.
  split; [reflexivity|]. apply (fold_terminates_canonical 0xfffe8001 3). decide_now.
Defined.

(** Storing a checksum in its (zero) field. *)
Lemma store_checksum (hdr : bytes) (off : nat)
    (Hb : Forall u8 hdr) (Hlen : Z.of_nat (length hdr) ≤ 131070)
    (Hoff : (off + 2 ≤ length hdr)%nat) (Heven : Nat.Even off)
    (Hzero : slice off 2 hdr = [0; 0]) :
  checksum (splice off (to_be16 (ipv4_header hdr)) hdr) = 0.
Proof.
  unfold ipv4_header. set (c := checksum hdr).
  destruct (checksum_exact hdr) as [Ec Hs]; [done|lia|].
  assert (u16 c) as Hc by (subst c; rewrite Ec; by apply finish_u16).
  set (hdr' := splice off (to_be16 c) hdr).
  assert (length hdr' = length hdr) as Hl' by (apply length_splice; simpl; lia).
  destruct (checksum_exact hdr') as [-> Hs'].
  { apply Forall_splice; auto with bytes_db. }
  { lia. }
  apply finish_0; [done|]. unfold hdr'.
  rewrite wsum_splice; [|simpl; lia|done|by exists 1%nat].
  rewrite length_to_be16, Hzero, wsum_to_be16 by done.
  replace (wsum hdr - wsum [0; 0] + c) with (wsum hdr + c) by (simpl; lia).
  apply finish_completes; [done|]. left. by subst c.
Qed.

(** Storing the checksum of a buffer whose (aligned) checksum field is zero
    into that field makes the buffer verify: [checksum] over the result is 0,
    the test a receiver makes on an IPv4 header. *)
Theorem checksum_roundtrip (hdr : bytes) (off : nat)
    (Hb : Forall u8 hdr) (Hlen : Z.of_nat (length hdr) ≤ 131070)
    (Hoff : (off + 2 ≤ length hdr)%nat) (Heven : Nat.Even off)
    (Hzero : slice off 2 hdr = [0; 0]) :
  checksum (splice off (to_be16 (ipv4_header hdr)) hdr) = 0.
Proof. by apply store_checksum. Qed.

(** A 20-byte IPv4 header with a zero checksum field. *)
Definition sample_header : bytes :=
  [0x45; 0x00; 0x00; 0x3c; 0x1c; 0x46; 0x40; 0x00; 0x40; 0x06; 0x00; 0x00; 0xac; 0x10; 0x0a; 0x63;
   0xac; 0x10; 0x0a; 0x0c].

Lemma checksum_roundtrip_witness :
  ipv4_header sample_header = 0xb1e6 ∧ checksum (splice 10 [0xb1; 0xe6] sample_header) = 0.
Proof.
  split; [reflexivity|]. apply (checksum_roundtrip sample_header 10).
  - decide_now.
  - vm_compute. discriminate.
  - vm_compute. lia.
  - by exists 5%nat.
  - reflexivity.
Defined.

(** C34: the RFC 1624 incremental update of a checksum after an aligned field
    is overwritten equals the checksum recomputed over the whole modified
    buffer, provided the modified buffer is not entirely zero (the one case in
    which the two representations of zero differ). *)
Theorem update_matches_recompute (hdr : bytes) (off : nat) (new : bytes)
    (Hb : Forall u8 hdr) (Hn : Forall u8 new) (Hlen : Z.of_nat (length hdr) ≤ 65534)
    (Hoff : (off + length new ≤ length hdr)%nat) (Hnew : (0 < length new)%nat)
    (Heven : Nat.Even off) (Hevn : Nat.Even (length new))
    (Hnz : 0 < wsum (splice off new hdr)) :
  update (checksum hdr) (slice off (length new) hdr) new = checksum (splice off new hdr).
Proof.
  destruct (checksum_exact hdr) as [Ec Hs]; [done|lia|].
  set (old := slice off (length new) hdr). set (hdr' := splice off new hdr) in *.
  assert (Forall u8 old) as Ho by (by apply Forall_slice).
  assert (length old = length new) as Hol by (by apply length_slice).
  assert (length hdr' = length hdr) as Hl' by (by apply length_splice).
  destruct (checksum_exact hdr') as [Ec' Hs']; [by apply Forall_splice|lia|].
  assert (wsum hdr' = wsum hdr - wsum old + wsum new) as Ew by (by apply wsum_splice).
  destruct (update_congr (checksum hdr) old new) as [Hu Hcong]; try done; try lia.
  { rewrite Ec. by apply finish_u16. }
  unfold update in *. rewrite Ec' in *. unfold finish in *. f_equal.
  pose proof (wsum_le _ Ho). pose proof (nwords_pos old ltac:(lia)). pose proof (nwords_le old).
  pose proof (wsum_nonneg _ Ho). pose proof (wsum_nonneg _ Hn).
  pose proof (wsum_bound new 32767 Hn ltac:(lia)).
  rewrite Ec. unfold not16. replace (65535 - (65535 - fold (wsum hdr))) with (fold (wsum hdr)) by lia.
  rewrite (fold_norm (wsum hdr)) by done.
  pose proof (ones_norm_range (wsum hdr) ltac:(word_lia)).
  pose proof (ones_norm_congr (wsum hdr)) as Eh.
  rewrite accumulate_not_exact by (done || word_lia). rewrite accumulate_exact by (done || word_lia).
  rewrite !fold_norm by word_lia. apply ones_norm_eq.
  - pose proof (ones_norm_0 (wsum hdr) ltac:(word_lia)). word_lia.
  - done.
  - rewrite Ew.
    replace (ones_norm (wsum hdr) + 65535 * nwords old - wsum old + wsum new)
      with (ones_norm (wsum hdr) + (wsum new - wsum old) + nwords old * 65535) by lia.
    rewrite Z_mod_plus_full, <- Z.add_mod_idemp_l, Eh, Z.add_mod_idemp_l by lia. f_equal. lia.
Qed.

Lemma update_matches_recompute_witness :
  update 0xb1e6 [172; 16; 10; 99] [203; 0; 113; 7] = 0x2c52 ∧
  update (checksum sample_header) (slice 12 4 sample_header) [203; 0; 113; 7] =
  checksum (splice 12 [203; 0; 113; 7] sample_header).
Proof.
  split; [reflexivity|]. apply (update_matches_recompute sample_header 12 [203; 0; 113; 7]).
  - decide_now.
  - decide_now.
  - vm_compute. discriminate.
  - vm_compute. lia.
  - vm_compute. lia.
  - by exists 6%nat.
  - by exists 2%nat.
  - reflexivity.
Defined.

(** The receiver's check accepts exactly the segments whose exact sum is valid. *)
Lemma l4_check_exact src dst proto seg :
  Forall u8 src → Forall u8 dst → Forall u8 seg → length src = 4%nat → length dst = 4%nat →
  u8 proto → Z.of_nat (length seg) ≤ 65536 →
  u32 (pseudo_sum src dst proto seg) ∧ l4_check src dst proto seg = finish (pseudo_sum src dst proto seg).
Proof.
  intros Hs Hd Hg Ls Ld Hp Lg. unfold l4_check, pseudo_sum.
  pose proof (wsum_nonneg _ Hs). pose proof (wsum_nonneg _ Hd). pose proof (wsum_nonneg _ Hg).
  pose proof (wsum_bound src 2 Hs ltac:(lia)). pose proof (wsum_bound dst 2 Hd ltac:(lia)).
  pose proof (wsum_bound seg 32768 Hg ltac:(lia)).
  rewrite (accumulate_exact src), (accumulate_exact dst), Z.mod_small, accumulate_exact;
    try done; try word_lia.
  split; [word_lia|]. f_equal; lia.
Qed.

Lemma udp_ipv4_exact src dst udp :
  Forall u8 src → Forall u8 dst → Forall u8 udp → length src = 4%nat → length dst = 4%nat →
  Z.of_nat (length udp) ≤ 65536 →
  udp_ipv4 src dst udp =
    if finish (pseudo_sum src dst proto_UDP udp) =? 0 then 65535
    else finish (pseudo_sum src dst proto_UDP udp).
Proof.
  intros Hs Hd Hg Ls Ld Lg.
  destruct (l4_check_exact src dst proto_UDP udp) as [Hu <-]; try done.
  unfold udp_ipv4, l4_check, UDP_PROTO_WORD.
  rewrite (Z.mod_small (Z.of_nat (length udp))) by word_lia.
  rewrite Z.add_mod_idemp_l by lia.
  destruct (finish _) as [|p|p] eqn:E; [done..|].
  exfalso. pose proof (finish_u16 (accumulate ((accumulate (accumulate 0 src) dst + proto_UDP +
    Z.of_nat (length udp)) `mod` 2 ^ 32) udp)) as Hf. rewrite E in Hf.
  destruct Hf; [|lia]. apply accumulate_u32. apply Z.mod_pos_bound. lia.
Qed.

(** Storing a UDP checksum in its (zero) field. *)
Lemma store_udp_checksum (src dst udp : bytes)
    (Hs : Forall u8 src) (Hd : Forall u8 dst) (Hu : Forall u8 udp)
    (Ls : length src = 4%nat) (Ld : length dst = 4%nat)
    (Lmin : (8 ≤ length udp)%nat) (Lmax : Z.of_nat (length udp) ≤ 65535)
    (Hzero : slice 6 2 udp = [0; 0]) :
  let c := udp_ipv4 src dst udp in
  0 < c < 2 ^ 16 ∧ l4_check src dst proto_UDP (splice 6 (to_be16 c) udp) = 0.
Proof.
  intros c. destruct (l4_check_exact src dst proto_UDP udp) as [Hp _]; try done; [lia|].
  assert (c = finish (pseudo_sum src dst proto_UDP udp) ∨
    c = 65535 ∧ finish (pseudo_sum src dst proto_UDP udp) = 0) as Hc.
  { subst c. rewrite udp_ipv4_exact by (done || lia). case_match eqn:E; [right|by left].
    by apply Z.eqb_eq in E. }
  pose proof (finish_u16 _ Hp) as Hf.
  assert (0 < c < 2 ^ 16) as Hcr.
  { revert Hc. subst c. rewrite udp_ipv4_exact by (done || lia).
    case_match eqn:E; [word_lia|]. apply Z.eqb_neq in E. word_lia. }
  split; [done|]. set (udp' := splice 6 (to_be16 c) udp).
  assert (length udp' = length udp) as Hl by (apply length_splice; simpl; lia).
  destruct (l4_check_exact src dst proto_UDP udp') as [Hp' ->]; try done; [|lia|].
  { apply Forall_splice; auto with bytes_db. }
  apply finish_0; [done|]. revert Hp'. unfold pseudo_sum. rewrite Hl. unfold udp'.
  rewrite wsum_splice; [|simpl; lia|by exists 3%nat|by exists 1%nat].
  rewrite length_to_be16, Hzero, wsum_to_be16 by word_lia. intros _.
  match goal with |- sum_valid ?s => replace s with (pseudo_sum src dst proto_UDP udp + c) end.
  - by apply finish_completes.
  - unfold pseudo_sum. simpl wsum. lia.
Qed.

(** The UDP checksum written into a segment whose checksum field is zero is
    a non-zero word (0 would mean "no checksum") and makes the segment verify
    against its pseudo-header, including when the computed value is zero and
    0xFFFF is stored instead. *)
Theorem udp_checksum_verifies (src dst udp : bytes)
    (Hs : Forall u8 src) (Hd : Forall u8 dst) (Hu : Forall u8 udp)
    (Ls : length src = 4%nat) (Ld : length dst = 4%nat)
    (Lmin : (8 ≤ length udp)%nat) (Lmax : Z.of_nat (length udp) ≤ 65535)
    (Hzero : slice 6 2 udp = [0; 0]) :
  let c := udp_ipv4 src dst udp in
  0 < c < 2 ^ 16 ∧ l4_check src dst proto_UDP (splice 6 (to_be16 c) udp) = 0.
Proof. by apply store_udp_checksum. Qed.

Lemma udp_checksum_verifies_witness :
  let udp := [0; 68; 0; 67; 0; 12; 0; 0; 0xde; 0xad; 0xbe; 0xef] in
  l4_check [10; 0; 0; 1] [10; 0; 0; 2] proto_UDP
    (splice 6 (to_be16 (udp_ipv4 [10; 0; 0; 1] [10; 0; 0; 2] udp)) udp) = 0.
Proof.
  intros udp. apply (udp_checksum_verifies [10; 0; 0; 1] [10; 0; 0; 2] udp);
    try decide_now; try reflexivity; vm_compute; (lia || discriminate).
Defined.
