(* ===== verification/View.v ===== *)
(** * Layered packet views ([src/net/view.rs])

    A view is the buffer with the offsets that a layer's parse established.
    Accessors that index or [expect] return an [outcome]; the theorems show
    that on views obtained by parsing they never panic, and that every offset
    stays inside the buffer. *)

From S2P Require Import Prelude Wire Ethernet Ip Tcp Udp Arp Dhcp Dns.

Definition port_DNS : Z := 53.
Definition port_DHCP_SERVER : Z := 67.
Definition port_DHCP_CLIENT : Z := 68.

(** [buf.get(off..).and_then(ref_from)]. *)
Definition header_at {T} `{Pod T} (buf : bytes) (off : nat) : option T :=
  if bool_decide (off ≤ length buf)%nat then ref_from (skipn off buf) else None.

(** ** Views *)

Record EthernetView := { eth_buf : bytes; eth_start : nat; eth_type : Z; l3_start : nat }.
Record Ipv4View := { ip_buf : bytes; ip_start : nat; l4_start : nat; ip_end : nat }.
Record TcpView := { tcp_buf : bytes; tcp_start : nat; tcp_payload_start : nat; tcp_end : nat }.
Record UdpView := { udp_buf : bytes; udp_start : nat; udp_payload_start : nat; udp_end : nat }.
Record DhcpView := { dhcp_buf : bytes; dhcp_start : nat; options_start : nat; dhcp_end : nat }.
Record DnsView := { dns_buf : bytes; dns_start : nat; body_start : nat; dns_end : nat }.

Definition DnsView_parse_at (buf : bytes) (start end_ : nat) : option DnsView :=
  _ ← header_at (T := DnsHeader) buf start;
  body ← checked_add start Dns.LEN;
  Some {| dns_buf := buf; dns_start := start; body_start := Nat.min body end_; dns_end := end_ |}.

Definition DhcpView_parse_at (buf : bytes) (start end_ : nat) : option DhcpView :=
  _ ← header_at (T := DhcpHeader) buf start;
  opts ← checked_add start Dhcp.LEN;
  Some {| dhcp_buf := buf; dhcp_start := start; options_start := Nat.min opts end_;
          dhcp_end := end_ |}.

Definition UdpView_parse_at (buf : bytes) (start end_ : nat) : option UdpView :=
  udp ← header_at (T := UdpHeader) buf start;
  payload_start ← checked_add start Udp.LEN;
  if bool_decide (end_ < payload_start ∨ length buf < payload_start)%nat then None
  else
    let declared := Z.to_nat (Udp.length_ udp) in
    let end' :=
      match checked_add start declared with
      | Some e => if bool_decide (Udp.LEN ≤ declared ∧ e ≤ end_)%nat then e else end_
      | None => end_
      end in
    Some {| udp_buf := buf; udp_start := start; udp_payload_start := payload_start;
            udp_end := Nat.max end' payload_start |}.

Definition TcpView_parse_at (buf : bytes) (start end_ : nat) : option TcpView :=
  tcp ← header_at (T := TcpHeader) buf start;
  let hlen := Tcp.header_len tcp in
  if bool_decide (hlen < Tcp.MIN_LEN)%nat then None
  else
    payload_start ← checked_add start hlen;
    if bool_decide (end_ < payload_start ∨ length buf < payload_start)%nat then None
    else Some {| tcp_buf := buf; tcp_start := start; tcp_payload_start := payload_start;
                 tcp_end := end_ |}.

Definition Ipv4View_parse_at (buf : bytes) (start : nat) : option Ipv4View :=
  ip ← header_at (T := Ipv4Header) buf start;
  let hlen := Ip.header_len ip in
  if bool_decide (hlen < Ip.MIN_LEN)%nat then None
  else
    l4 ← checked_add start hlen;
    if bool_decide (length buf < l4)%nat then None
    else
      let total := Z.to_nat (Ip.total_len ip) in
      let end_ :=
        match checked_add start total with
        | Some e => if bool_decide (hlen ≤ total ∧ e ≤ length buf)%nat then e else length buf
        | None => length buf
        end in
      Some {| ip_buf := buf; ip_start := start; l4_start := l4; ip_end := Nat.max end_ l4 |}.

Definition EthernetView_parse_at (buf : bytes) (start : nat) : option EthernetView :=
  eth ← header_at (T := EthernetHeader) buf start;
  let l3 := (start + EthernetHeader_LEN)%nat in
  '(et, l3) ←
    (if Ethernet.ethertype eth =? ethertype_VLAN then
       tag ← header_at (T := VlanTag) buf l3;
       Some (inner_ethertype tag, (l3 + VlanTag_LEN)%nat)
     else Some (Ethernet.ethertype eth, l3));
  if bool_decide (length buf < l3)%nat then None
  else Some {| eth_buf := buf; eth_start := start; eth_type := et; l3_start := l3 |}.

(** [EthernetView::parse] and the free function [parse]. *)
Definition EthernetView_parse (buf : bytes) : option EthernetView := EthernetView_parse_at buf 0.
Definition parse (buf : bytes) : option EthernetView := EthernetView_parse buf.

(** ** Accessors *)

Definition eth_header (v : EthernetView) : outcome EthernetHeader :=
  expect (header_at (eth_buf v) (eth_start v)).
Definition eth_payload (v : EthernetView) : outcome bytes :=
  get_range (eth_buf v) (l3_start v) (length (eth_buf v)).
Definition is_ipv4 (v : EthernetView) : bool := eth_type v =? ethertype_IPV4.
Definition is_arp (v : EthernetView) : bool := eth_type v =? ethertype_ARP.
Definition ipv4 (v : EthernetView) : option Ipv4View :=
  if is_ipv4 v then Ipv4View_parse_at (eth_buf v) (l3_start v) else None.
Definition arp (v : EthernetView) : option ArpPacket :=
  if is_arp v then header_at (eth_buf v) (l3_start v) else None.

Definition ip_header (v : Ipv4View) : outcome Ipv4Header :=
  expect (header_at (ip_buf v) (ip_start v)).
Definition ip_protocol (v : Ipv4View) : outcome Z := h ← ip_header v; mret (protocol h).
(** Frames without a VLAN tag, and frames that are not a later fragment of an
    IPv4 packet. *)
Definition untagged (frame : bytes) : bool :=
  negb (Ethernet.ethertype (of_bytes (slice 0 EthernetHeader_LEN frame)) =? ethertype_VLAN).
Definition first_fragment (frame : bytes) : bool :=
  match parse frame with
  | Some e => match ipv4 e with
              | Some v => match ip_header v with Ret h => fragment_offset h =? 0 | Panic => true end
              | None => true
              end
  | None => true
  end.
Definition ip_payload (v : Ipv4View) : outcome bytes := get_range (ip_buf v) (l4_start v) (ip_end v).
Definition is_tcp (v : Ipv4View) : outcome bool := p ← ip_protocol v; mret (p =? proto_TCP).
Definition is_udp (v : Ipv4View) : outcome bool := p ← ip_protocol v; mret (p =? proto_UDP).
Definition tcp (v : Ipv4View) : outcome (option TcpView) :=
  b ← is_tcp v; mret (if (b : bool) then TcpView_parse_at (ip_buf v) (l4_start v) (ip_end v) else None).
Definition udp (v : Ipv4View) : outcome (option UdpView) :=
  b ← is_udp v; mret (if (b : bool) then UdpView_parse_at (ip_buf v) (l4_start v) (ip_end v) else None).

Definition tcp_header (v : TcpView) : outcome TcpHeader :=
  expect (header_at (tcp_buf v) (tcp_start v)).
Definition tcp_src_port (v : TcpView) : outcome Z := h ← tcp_header v; mret (Tcp.src_port h).
Definition tcp_dst_port (v : TcpView) : outcome Z := h ← tcp_header v; mret (Tcp.dst_port h).
Definition tcp_payload (v : TcpView) : outcome bytes :=
  get_range (tcp_buf v) (tcp_payload_start v) (tcp_end v).
Definition tcp_is_dns (v : TcpView) : outcome bool :=
  s ← tcp_src_port v; d ← tcp_dst_port v; mret ((s =? port_DNS) || (d =? port_DNS)).
Definition tcp_dns (v : TcpView) : outcome (option DnsView) :=
  b ← tcp_is_dns v;
  mret (if (b : bool) then DnsView_parse_at (tcp_buf v) (tcp_payload_start v) (tcp_end v) else None).

Definition udp_header (v : UdpView) : outcome UdpHeader :=
  expect (header_at (udp_buf v) (udp_start v)).
Definition udp_src_port (v : UdpView) : outcome Z := h ← udp_header v; mret (Udp.src_port h).
Definition udp_dst_port (v : UdpView) : outcome Z := h ← udp_header v; mret (Udp.dst_port h).
Definition udp_payload (v : UdpView) : outcome bytes :=
  get_range (udp_buf v) (udp_payload_start v) (udp_end v).
Definition is_bootp (p : Z) : bool := (p =? port_DHCP_SERVER) || (p =? port_DHCP_CLIENT).
Definition udp_is_dhcp (v : UdpView) : outcome bool :=
  s ← udp_src_port v; d ← udp_dst_port v; mret (is_bootp s || is_bootp d).
Definition udp_is_dns (v : UdpView) : outcome bool :=
  s ← udp_src_port v; d ← udp_dst_port v; mret ((s =? port_DNS) || (d =? port_DNS)).
Definition udp_dhcp (v : UdpView) : outcome (option DhcpView) :=
  b ← udp_is_dhcp v;
  mret (if (b : bool) then DhcpView_parse_at (udp_buf v) (udp_payload_start v) (udp_end v) else None).
Definition udp_dns (v : UdpView) : outcome (option DnsView) :=
  b ← udp_is_dns v;
  mret (if (b : bool) then DnsView_parse_at (udp_buf v) (udp_payload_start v) (udp_end v) else None).

Definition dhcp_header (v : DhcpView) : outcome DhcpHeader :=
  expect (header_at (dhcp_buf v) (dhcp_start v)).
Definition dhcp_options (v : DhcpView) : outcome bytes :=
  get_range (dhcp_buf v) (options_start v) (dhcp_end v).
Definition dhcp_message_type (v : DhcpView) : outcome (option MessageType) :=
  o ← dhcp_options v; mret (get_message_type o).
Definition dhcp_offer (v : DhcpView) : outcome (option Message) :=
  h ← dhcp_header v; o ← dhcp_options v; mret (offer_parse h o).
Definition dhcp_request (v : DhcpView) : outcome (option Message) :=
  h ← dhcp_header v; o ← dhcp_options v; mret (request_parse h o).
Definition dhcp_lease (v : DhcpView) : outcome (option Message) :=
  h ← dhcp_header v; o ← dhcp_options v; mret (lease_parse h o).

Definition dns_header (v : DnsView) : outcome DnsHeader :=
  expect (header_at (dns_buf v) (dns_start v)).
Definition dns_body (v : DnsView) : outcome bytes := get_range (dns_buf v) (body_start v) (dns_end v).

(** [header_offset] and [payload_offset] of each view. *)
Definition eth_header_offset (v : EthernetView) : nat := eth_start v.
Definition eth_payload_offset (v : EthernetView) : nat := l3_start v.
Definition ip_header_offset (v : Ipv4View) : nat := ip_start v.
Definition ip_payload_offset (v : Ipv4View) : nat := l4_start v.
Definition tcp_header_offset (v : TcpView) : nat := tcp_start v.
Definition tcp_payload_offset (v : TcpView) : nat := tcp_payload_start v.
Definition udp_header_offset (v : UdpView) : nat := udp_start v.
Definition udp_payload_offset (v : UdpView) : nat := udp_payload_start v.
Definition dhcp_header_offset (v : DhcpView) : nat := dhcp_start v.
Definition dns_header_offset (v : DnsView) : nat := dns_start v.

(** ** Well-formed views *)

Definition eth_view_wf (v : EthernetView) : Prop :=
  (eth_start v + 14 ≤ l3_start v ∧ l3_start v ≤ length (eth_buf v))%nat.
Definition ip_view_wf (v : Ipv4View) : Prop :=
  (ip_start v + 20 ≤ l4_start v ∧ l4_start v ≤ ip_end v ∧ ip_end v ≤ length (ip_buf v))%nat.
Definition tcp_view_wf (v : TcpView) : Prop :=
  (tcp_start v + 20 ≤ tcp_payload_start v ∧ tcp_payload_start v ≤ tcp_end v ∧
   tcp_end v ≤ length (tcp_buf v))%nat.
Definition udp_view_wf (v : UdpView) : Prop :=
  (udp_start v + 8 ≤ udp_payload_start v ∧ udp_payload_start v ≤ udp_end v ∧
   udp_end v ≤ length (udp_buf v))%nat.
Definition dhcp_view_wf (v : DhcpView) : Prop :=
  (dhcp_start v + 240 ≤ length (dhcp_buf v) ∧ options_start v ≤ dhcp_end v ∧
   dhcp_end v ≤ length (dhcp_buf v))%nat.
Definition dns_view_wf (v : DnsView) : Prop :=
  (dns_start v + 12 ≤ length (dns_buf v) ∧ body_start v ≤ dns_end v ∧
   dns_end v ≤ length (dns_buf v))%nat.

Section header_at_lemmas.
Context {T : Type} `{Pod T}.

Lemma header_at_Some (buf : bytes) off :
  (off + size_of T ≤ length buf)%nat →
  header_at (T := T) buf off = Some (of_bytes (slice off (size_of T) buf)).
Proof.
  intros. unfold header_at. rewrite bool_decide_true by lia.
  rewrite ref_from_Some by (rewrite length_drop; lia). done.
Qed.

Lemma header_at_inv (buf : bytes) off (t : T) :
  header_at buf off = Some t →
  (off + size_of T ≤ length buf)%nat ∧ t = of_bytes (slice off (size_of T) buf).
Proof.
  unfold header_at. case_bool_decide; [|done]. intros E.
  assert (is_Some (ref_from (T := T) (skipn off buf))) as Hl by eauto.
  apply ref_from_is_Some in Hl. rewrite length_drop in Hl.
  rewrite ref_from_Some in E by (rewrite length_drop; lia). simplify_eq. split; [lia|done].
Qed.

Lemma expect_header_at (buf : bytes) off :
  (off + size_of T ≤ length buf)%nat →
  expect (header_at (T := T) buf off) = Ret (of_bytes (slice off (size_of T) buf)).
Proof. intros. by rewrite header_at_Some. Qed.

End header_at_lemmas.

(** Peel one [Option] step off a parse that succeeded. *)
Ltac parse_step H :=
  match type of H with
  | _ ≫= _ = Some _ => apply bind_Some in H as (? & ? & H)
  | (if bool_decide ?P then None else _) = Some _ =>
    let E := fresh "Hguard" in case_bool_decide as E; [discriminate H|]
  end.
Ltac use_header_at :=
  repeat match goal with
  | E : header_at _ _ = Some _ |- _ => apply header_at_inv in E as [? ->]
  | E : checked_add _ _ = Some _ |- _ => apply checked_add_inv in E as ->
  end.

Lemma eth_parse_wf buf start v :
  EthernetView_parse_at buf start = Some v → eth_view_wf v ∧ eth_buf v = buf ∧ eth_start v = start.
Proof.
  unfold EthernetView_parse_at. intros H. parse_step H. simpl in H.
  apply bind_Some in H as ([et l3] & Hl3 & H). case_bool_decide; [done|]. simplify_eq.
  unfold eth_view_wf. simpl. split_and!; [|lia|done..].
  case_match; [apply bind_Some in Hl3 as (? & ? & Hl3)|]; simplify_eq;
    unfold EthernetHeader_LEN, VlanTag_LEN; lia.
Qed.

Lemma ip_parse_wf buf start v :
  Ipv4View_parse_at buf start = Some v → ip_view_wf v ∧ ip_buf v = buf ∧ ip_start v = start.
Proof.
  unfold Ipv4View_parse_at. intros H. parse_step H. parse_step H. parse_step H.
  parse_step H. simplify_eq. use_header_at. unfold ip_view_wf.
  cbn [ip_start l4_start ip_end ip_buf].
  unfold Ip.MIN_LEN in *. split_and!; try done; [lia|lia|].
  repeat case_match; try case_bool_decide; lia.
Qed.

Lemma tcp_parse_wf buf start end_ v :
  (end_ ≤ length buf)%nat → TcpView_parse_at buf start end_ = Some v →
  tcp_view_wf v ∧ tcp_buf v = buf ∧ tcp_start v = start.
Proof.
  unfold TcpView_parse_at. intros He H. parse_step H. parse_step H. parse_step H.
  parse_step H. simplify_eq. use_header_at. unfold tcp_view_wf.
  cbn [tcp_start tcp_payload_start tcp_end tcp_buf].
  unfold Tcp.MIN_LEN in *. split_and!; try done; lia.
Qed.

Lemma udp_parse_wf buf start end_ v :
  (end_ ≤ length buf)%nat → UdpView_parse_at buf start end_ = Some v →
  udp_view_wf v ∧ udp_buf v = buf ∧ udp_start v = start.
Proof.
  unfold UdpView_parse_at. intros He H. parse_step H. parse_step H. parse_step H. simplify_eq.
  use_header_at. unfold udp_view_wf.
  cbn [udp_start udp_payload_start udp_end udp_buf]. unfold Udp.LEN in *. split_and!; try done; try lia.
  repeat case_match; try case_bool_decide; lia.
Qed.

Lemma dhcp_parse_wf buf start end_ v :
  (end_ ≤ length buf)%nat → DhcpView_parse_at buf start end_ = Some v →
  dhcp_view_wf v ∧ dhcp_buf v = buf ∧ dhcp_start v = start.
Proof.
  unfold DhcpView_parse_at. intros He H. parse_step H. parse_step H. simplify_eq. use_header_at.
  unfold dhcp_view_wf. cbn [dhcp_start dhcp_buf options_start dhcp_end].
  change (size_of DhcpHeader) with 240%nat in *. split_and!; try done; lia.
Qed.

Lemma dns_parse_wf buf start end_ v :
  (end_ ≤ length buf)%nat → DnsView_parse_at buf start end_ = Some v →
  dns_view_wf v ∧ dns_buf v = buf ∧ dns_start v = start.
Proof.
  unfold DnsView_parse_at. intros He H. parse_step H. parse_step H. simplify_eq. use_header_at.
  unfold dns_view_wf. cbn [dns_start dns_buf body_start dns_end].
  change (size_of DnsHeader) with 12%nat in *. split_and!; try done; lia.
Qed.

(** ** Accessors of well-formed views are total *)

Lemma eth_header_Ret v :
  eth_view_wf v → eth_header v = Ret (of_bytes (slice (eth_start v) 14 (eth_buf v))).
Proof.
  intros []. unfold eth_header.
  rewrite (expect_header_at (T := EthernetHeader)); change (size_of EthernetHeader) with 14%nat; [done|lia].
Qed.
Lemma ip_header_Ret v :
  ip_view_wf v → ip_header v = Ret (of_bytes (slice (ip_start v) 20 (ip_buf v))).
Proof.
  intros (?&?&?). unfold ip_header.
  rewrite (expect_header_at (T := Ipv4Header)); change (size_of Ipv4Header) with 20%nat; [done|lia].
Qed.
Lemma tcp_header_Ret v :
  tcp_view_wf v → tcp_header v = Ret (of_bytes (slice (tcp_start v) 20 (tcp_buf v))).
Proof.
  intros (?&?&?). unfold tcp_header.
  rewrite (expect_header_at (T := TcpHeader)); change (size_of TcpHeader) with 20%nat; [done|lia].
Qed.
Lemma udp_header_Ret v :
  udp_view_wf v → udp_header v = Ret (of_bytes (slice (udp_start v) 8 (udp_buf v))).
Proof.
  intros (?&?&?). unfold udp_header.
  rewrite (expect_header_at (T := UdpHeader)); change (size_of UdpHeader) with 8%nat; [done|lia].
Qed.
Lemma dhcp_header_Ret v :
  dhcp_view_wf v → dhcp_header v = Ret (of_bytes (slice (dhcp_start v) 240 (dhcp_buf v))).
Proof.
  intros (?&?&?). unfold dhcp_header.
  rewrite (expect_header_at (T := DhcpHeader)); change (size_of DhcpHeader) with 240%nat; [done|lia].
Qed.
Lemma dns_header_Ret v :
  dns_view_wf v → dns_header v = Ret (of_bytes (slice (dns_start v) 12 (dns_buf v))).
Proof.
  intros (?&?&?). unfold dns_header.
  rewrite (expect_header_at (T := DnsHeader)); change (size_of DnsHeader) with 12%nat; [done|lia].
Qed.

(** The slicing accessors, too. *)
Lemma eth_payload_Ret v : eth_view_wf v → ∃ p, eth_payload v = Ret p.
Proof. intros [? ?]. eexists. apply get_range_Ret; lia. Qed.
Lemma ip_payload_Ret v :
  ip_view_wf v → ip_payload v = Ret (slice (l4_start v) (ip_end v - l4_start v) (ip_buf v)).
Proof. intros (? & ? & ?). apply get_range_Ret; lia. Qed.
Lemma tcp_payload_Ret v :
  tcp_view_wf v →
  tcp_payload v = Ret (slice (tcp_payload_start v) (tcp_end v - tcp_payload_start v) (tcp_buf v)).
Proof. intros (? & ? & ?). apply get_range_Ret; lia. Qed.
Lemma udp_payload_Ret v :
  udp_view_wf v →
  udp_payload v = Ret (slice (udp_payload_start v) (udp_end v - udp_payload_start v) (udp_buf v)).
Proof. intros (? & ? & ?). apply get_range_Ret; lia. Qed.
Lemma dhcp_options_Ret v :
  dhcp_view_wf v →
  dhcp_options v = Ret (slice (options_start v) (dhcp_end v - options_start v) (dhcp_buf v)).
Proof. intros (? & ? & ?). apply get_range_Ret; lia. Qed.
Lemma dns_body_Ret v :
  dns_view_wf v → dns_body v = Ret (slice (body_start v) (dns_end v - body_start v) (dns_buf v)).
Proof. intros (? & ? & ?). apply get_range_Ret; lia. Qed.

(** Descending a layer: the tests never panic, and the sub-view is the parse
    at the layer's payload. *)
Lemma ipv4_wf v ip : ipv4 v = Some ip → ip_view_wf ip ∧ ip_buf ip = eth_buf v ∧ ip_start ip = l3_start v.
Proof. unfold ipv4. case_match; [apply ip_parse_wf|done]. Qed.

Lemma tcp_Ret v :
  ip_view_wf v → tcp v = Ret (if protocol (of_bytes (slice (ip_start v) 20 (ip_buf v))) =? proto_TCP
    then TcpView_parse_at (ip_buf v) (l4_start v) (ip_end v) else None).
Proof. intros. unfold tcp, is_tcp, ip_protocol. by rewrite ip_header_Ret. Qed.

Lemma udp_Ret v :
  ip_view_wf v → udp v = Ret (if protocol (of_bytes (slice (ip_start v) 20 (ip_buf v))) =? proto_UDP
    then UdpView_parse_at (ip_buf v) (l4_start v) (ip_end v) else None).
Proof. intros. unfold udp, is_udp, ip_protocol. by rewrite ip_header_Ret. Qed.

Lemma tcp_wf v t :
  ip_view_wf v → tcp v = Ret (Some t) →
  tcp_view_wf t ∧ tcp_buf t = ip_buf v ∧ tcp_start t = l4_start v.
Proof.
  intros Hv. rewrite tcp_Ret by done. case_match; [|done]. intros [= E].
  destruct Hv as (? & ? & ?). by apply tcp_parse_wf in E.
Qed.

Lemma udp_wf v u :
  ip_view_wf v → udp v = Ret (Some u) →
  udp_view_wf u ∧ udp_buf u = ip_buf v ∧ udp_start u = l4_start v.
Proof.
  intros Hv. rewrite udp_Ret by done. case_match; [|done]. intros [= E].
  destruct Hv as (? & ? & ?). by apply udp_parse_wf in E.
Qed.

Lemma udp_dhcp_Ret v : udp_view_wf v → ∃ o, udp_dhcp v = Ret o ∧ ∀ d, o = Some d → dhcp_view_wf d.
Proof.
  intros Hv. unfold udp_dhcp, udp_is_dhcp, udp_src_port, udp_dst_port. rewrite udp_header_Ret by done.
  simpl. eexists. split; [done|]. intros d. case_match; [|done]. intros E.
  destruct Hv as (? & ? & ?). by apply dhcp_parse_wf in E as [? _].
Qed.

Lemma udp_dns_Ret v : udp_view_wf v → ∃ o, udp_dns v = Ret o ∧ ∀ d, o = Some d → dns_view_wf d.
Proof.
  intros Hv. unfold udp_dns, udp_is_dns, udp_src_port, udp_dst_port. rewrite udp_header_Ret by done.
  simpl. eexists. split; [done|]. intros d. case_match; [|done]. intros E.
  destruct Hv as (? & ? & ?). by apply dns_parse_wf in E as [? _].
Qed.

Lemma tcp_dns_Ret v : tcp_view_wf v → ∃ o, tcp_dns v = Ret o ∧ ∀ d, o = Some d → dns_view_wf d.
Proof.
  intros Hv. unfold tcp_dns, tcp_is_dns, tcp_src_port, tcp_dst_port. rewrite tcp_header_Ret by done.
  simpl. eexists. split; [done|]. intros d. case_match; [|done]. intros E.
  destruct Hv as (? & ? & ?). by apply dns_parse_wf in E as [? _].
Qed.

(** ** Parsing a rewritten frame

    A parse reads a few bytes of each header; a frame of the same length that
    agrees on those bytes has the same views. *)

Lemma eth_parse_congr f f' e :
  EthernetView_parse_at f 0 = Some e → length f' = length f →
  slice 12 (l3_start e - 12) f' = slice 12 (l3_start e - 12) f →
  EthernetView_parse_at f' 0 = Some {| eth_buf := f'; eth_start := 0; eth_type := eth_type e; l3_start := l3_start e |}.
Proof.
  unfold EthernetView_parse_at. intros H Hl Hs. parse_step H. simpl in H.
  apply bind_Some in H as ([et l3] & Hl3 & H). case_bool_decide; [done|]. simplify_eq.
  cbn [l3_start eth_type] in *. apply header_at_inv in H0 as [Hlen ->].
  change (size_of EthernetHeader) with 14%nat in *.
  assert (14 ≤ l3)%nat.
  { case_match; [apply bind_Some in Hl3 as (? & ? & Hl3)|]; simplify_eq; unfold EthernetHeader_LEN; lia. }
  rewrite (header_at_Some (T := EthernetHeader)) by (change (size_of EthernetHeader) with 14%nat; lia).
  change (size_of EthernetHeader) with 14%nat.
  assert (Ethernet.ethertype (of_bytes (slice 0 14 f')) = Ethernet.ethertype (of_bytes (slice 0 14 f))) as Et.
  { unfold Ethernet.ethertype. cbn [of_bytes EthernetHeader_Pod ethertype_field]. rewrite !slice_slice by lia.
    by rewrite (slice_sub _ _ _ _ (0 + 12) 2 Hs) by lia. }
  cbn [mbind option_bind]. rewrite Et. case_match.
  - apply bind_Some in Hl3 as (tag & Htag & Hl3). simplify_eq. apply header_at_inv in Htag as [? ->].
    change (size_of VlanTag) with 4%nat in *. unfold EthernetHeader_LEN, VlanTag_LEN in *.
    rewrite (header_at_Some (T := VlanTag)) by (change (size_of VlanTag) with 4%nat; lia).
    change (size_of VlanTag) with 4%nat. rewrite (slice_sub _ _ _ _ (0 + 14) 4 Hs) by lia.
    cbn [mbind option_bind]. by rewrite bool_decide_false by lia.
  - simplify_eq. cbn [mbind option_bind]. by rewrite bool_decide_false by lia.
Qed.

Lemma ip_parse_congr f f' s v :
  Ipv4View_parse_at f s = Some v → length f' = length f → slice s 10 f' = slice s 10 f →
  Ipv4View_parse_at f' s = Some {| ip_buf := f'; ip_start := s; l4_start := l4_start v; ip_end := ip_end v |}.
Proof.
  unfold Ipv4View_parse_at. intros H Hl Hs. parse_step H. apply header_at_inv in H0 as [Hlen ->].
  change (size_of Ipv4Header) with 20%nat in *.
  rewrite (header_at_Some (T := Ipv4Header)) by (change (size_of Ipv4Header) with 20%nat; lia).
  change (size_of Ipv4Header) with 20%nat. cbn [mbind option_bind] in *.
  assert (Ip.header_len (of_bytes (slice s 20 f')) = Ip.header_len (of_bytes (slice s 20 f))) as Eh.
  { unfold Ip.header_len, ihl. cbn [version_ihl of_bytes Ipv4Header_Pod]. rewrite !nth_slice by lia.
    by rewrite (nth_sub s 10 f f') by (done || lia). }
  assert (Ip.total_len (of_bytes (slice s 20 f')) = Ip.total_len (of_bytes (slice s 20 f))) as Et.
  { unfold Ip.total_len, u16be_get. cbn [total_len_field of_bytes Ipv4Header_Pod u16be_bytes].
    rewrite !slice_slice by lia. by rewrite (slice_sub s 10 f f') by (done || lia). }
  rewrite Eh, Et, Hl. case_bool_decide; [done|].
  apply bind_Some in H as (l4 & -> & H). cbn [mbind option_bind]. case_bool_decide; [done|]. by simplify_eq.
Qed.

Lemma tcp_parse_congr f f' s e v :
  TcpView_parse_at f s e = Some v → length f' = length f → slice (s + 12) 1 f' = slice (s + 12) 1 f →
  TcpView_parse_at f' s e =
    Some {| tcp_buf := f'; tcp_start := s; tcp_payload_start := tcp_payload_start v; tcp_end := tcp_end v |}.
Proof.
  unfold TcpView_parse_at. intros H Hl Hs. parse_step H. apply header_at_inv in H0 as [Hlen ->].
  change (size_of TcpHeader) with 20%nat in *.
  rewrite (header_at_Some (T := TcpHeader)) by (change (size_of TcpHeader) with 20%nat; lia).
  change (size_of TcpHeader) with 20%nat. cbn [mbind option_bind] in *.
  assert (Tcp.header_len (of_bytes (slice s 20 f')) = Tcp.header_len (of_bytes (slice s 20 f))) as Eh.
  { unfold Tcp.header_len, Tcp.data_offset. cbn [of_bytes TcpHeader_Pod data_offset_reserved]. rewrite !nth_slice by lia.
    by rewrite (nth_sub (s + 12) 1 f f') by (done || lia). }
  rewrite Eh, Hl. case_bool_decide; [done|].
  apply bind_Some in H as (l4 & -> & H). cbn [mbind option_bind]. case_bool_decide; [done|]. by simplify_eq.
Qed.

Lemma udp_parse_congr f f' s e v :
  UdpView_parse_at f s e = Some v → length f' = length f → slice (s + 4) 2 f' = slice (s + 4) 2 f →
  UdpView_parse_at f' s e =
    Some {| udp_buf := f'; udp_start := s; udp_payload_start := udp_payload_start v; udp_end := udp_end v |}.
Proof.
  unfold UdpView_parse_at. intros H Hl Hs. parse_step H. apply header_at_inv in H0 as [Hlen ->].
  change (size_of UdpHeader) with 8%nat in *.
  rewrite (header_at_Some (T := UdpHeader)) by (change (size_of UdpHeader) with 8%nat; lia).
  change (size_of UdpHeader) with 8%nat. cbn [mbind option_bind] in *.
  assert (Udp.length_ (of_bytes (slice s 8 f')) = Udp.length_ (of_bytes (slice s 8 f))) as Eh.
  { unfold Udp.length_, u16be_get. cbn [of_bytes UdpHeader_Pod length_field u16be_bytes].
    rewrite !slice_slice by lia. by rewrite Hs. }
  rewrite Eh, Hl. apply bind_Some in H as (l4 & -> & H). cbn [mbind option_bind].
  case_bool_decide; [done|]. by simplify_eq.
Qed.

(** ** Walking down a whole frame *)

(** Everything the layered API can compute from a received frame, in one run:
    each header, payload and sub-view that exists is read. *)
Definition walk_dhcp (v : DhcpView) : outcome unit :=
  _ ← dhcp_header v; _ ← dhcp_options v; _ ← dhcp_message_type v; _ ← dhcp_offer v;
  _ ← dhcp_request v; _ ← dhcp_lease v; mret ().
Definition walk_dns (v : DnsView) : outcome unit := _ ← dns_header v; _ ← dns_body v; mret ().
Definition walk_tcp (v : TcpView) : outcome unit :=
  _ ← tcp_header v; _ ← tcp_payload v; d ← tcp_dns v;
  match d with Some d => walk_dns d | None => mret () end.
Definition walk_udp (v : UdpView) : outcome unit :=
  _ ← udp_header v; _ ← udp_payload v; c ← udp_dhcp v; d ← udp_dns v;
  _ ← match c with Some c => walk_dhcp c | None => mret () end;
  match d with Some d => walk_dns d | None => mret () end.
Definition walk_ip (v : Ipv4View) : outcome unit :=
  _ ← ip_header v; _ ← ip_payload v; t ← tcp v; u ← udp v;
  _ ← match t with Some t => walk_tcp t | None => mret () end;
  match u with Some u => walk_udp u | None => mret () end.
Definition walk (frame : bytes) : outcome unit :=
  match parse frame with
  | None => mret ()
  | Some e =>
    _ ← eth_header e; _ ← eth_payload e;
    match ipv4 e with Some ip => walk_ip ip | None => mret () end
  end.

Lemma walk_dns_Ret v : dns_view_wf v → walk_dns v = Ret ().
Proof. intros. unfold walk_dns. by rewrite dns_header_Ret, dns_body_Ret. Qed.

Lemma walk_dhcp_Ret v : dhcp_view_wf v → walk_dhcp v = Ret ().
Proof.
  intros. unfold walk_dhcp, dhcp_message_type, dhcp_offer, dhcp_request, dhcp_lease.
  by rewrite dhcp_header_Ret, dhcp_options_Ret.
Qed.

Lemma walk_tcp_Ret v : tcp_view_wf v → walk_tcp v = Ret ().
Proof.
  intros Hv. unfold walk_tcp. rewrite tcp_header_Ret, tcp_payload_Ret by done. cbn [mbind outcome_bind].
  destruct (tcp_dns_Ret v Hv) as (o & -> & Ho). cbn [mbind outcome_bind].
  destruct o; [by apply walk_dns_Ret, Ho|done].
Qed.

Lemma walk_udp_Ret v : udp_view_wf v → walk_udp v = Ret ().
Proof.
  intros Hv. unfold walk_udp. rewrite udp_header_Ret, udp_payload_Ret by done.
  destruct (udp_dhcp_Ret v Hv) as (o & -> & Ho). destruct (udp_dns_Ret v Hv) as (o' & -> & Ho').
  cbn [mbind outcome_bind]. destruct o; [rewrite walk_dhcp_Ret by auto|];
    cbn [mbind outcome_bind mret outcome_ret]; (destruct o'; [by apply walk_dns_Ret, Ho'|done]).
Qed.

Lemma walk_ip_Ret v : ip_view_wf v → walk_ip v = Ret ().
Proof.
  intros Hv. unfold walk_ip. rewrite ip_header_Ret, ip_payload_Ret by done. cbn [mbind outcome_bind].
  destruct (tcp v) as [t|] eqn:Et; [|by rewrite tcp_Ret in Et].
  destruct (udp v) as [u|] eqn:Eu; [|by rewrite udp_Ret in Eu]. cbn [mbind outcome_bind].
  destruct t as [t|]; [apply tcp_wf in Et as [? _]; [|done]; rewrite walk_tcp_Ret by done|];
    cbn [mbind outcome_bind mret outcome_ret];
    (destruct u as [u|]; [apply udp_wf in Eu as [? _]; [by apply walk_udp_Ret|done]|done]).
Qed.

(** C16: for every byte string, parsing it and reading every header, payload,
    option region and sub-view the layered API offers (Ethernet, IPv4, TCP,
    UDP, DHCP, DNS) never panics: no slice is out of range and no [expect]
    fails, whatever the length fields in the packet claim. *)
Theorem walk_never_panics (frame : bytes) : walk frame = Ret ().
Proof.
  unfold walk. destruct (parse frame) as [e|] eqn:E; [|done].
  apply eth_parse_wf in E as [He _]. rewrite eth_header_Ret by done.
  destruct (eth_payload_Ret e He) as [p ->]. cbn [mbind outcome_bind].
  destruct (ipv4 e) as [ip|] eqn:Ei; [|done]. apply ipv4_wf in Ei as [? _]. by apply walk_ip_Ret.
Qed.
