(* ===== verification/SourceNat.v ===== *)
(** * Source NAT ([src/router/nat.rs])

    The per-shard table ([Nat]) with its external-port allocator, the two
    translations that rewrite a frame in place, and their checksum fix-up.
    [SharedNat] runs each of these operations under a spin lock, so a shared
    table sees them as an interleaving of whole operations: [nat_step]. *)

From S2P Require Import Prelude Wire Ethernet Ip Tcp Udp Checksum View.

Definition IP_SRC_OFFSET : nat := 12.
Definition IP_DST_OFFSET : nat := 16.
Definition IP_CKSUM_OFFSET : nat := 10.
Definition L4_SRC_PORT_OFFSET : nat := 0.
Definition L4_DST_PORT_OFFSET : nat := 2.
Definition TCP_CKSUM_OFFSET : nat := 16.
Definition UDP_CKSUM_OFFSET : nat := 6.
Definition UDP_CKSUM_DISABLED : Z := 0.

Inductive L4 := L4_Tcp | L4_Udp.

#[global] Instance L4_eq_dec : EqDecision L4.
Proof. solve_decision. Defined.

Definition L4_proto (l : L4) : Z := match l with L4_Tcp => proto_TCP | L4_Udp => proto_UDP end.
Definition L4_from_proto (p : Z) : option L4 :=
  if p =? proto_TCP then Some L4_Tcp else if p =? proto_UDP then Some L4_Udp else None.

Record Endpoint := { ep_ip : Ipv4Addr; ep_port : Z }.
Record Egress := { new_src_ip : Ipv4Addr; new_src_port : Z }.
Record Ingress := { dst_ip : Ipv4Addr; dst_port : Z }.

#[global] Instance Endpoint_eq_dec : EqDecision Endpoint.
Proof. solve_decision. Defined.

(** ** The table *)

Record Nat := {
  wan_ip : Ipv4Addr;
  port_lo : Z;
  port_hi : Z;
  next_port : Z;
  fwd : gmap (Z * Ipv4Addr * Z) Z;
  rev : gmap (Z * Z) Endpoint;
}.

Definition new (wan : Ipv4Addr) (lo hi : Z) : outcome Nat :=
  _ ← assert_ ((0 <? lo) && (lo <=? hi));
  mret {| wan_ip := wan; port_lo := lo; port_hi := hi; next_port := lo; fwd := ∅; rev := ∅ |}.

Definition set_wan_ip (n : Nat) (ip : Ipv4Addr) : Nat :=
  {| wan_ip := ip; port_lo := port_lo n; port_hi := port_hi n; next_port := next_port n;
     fwd := fwd n; rev := rev n |}.

Definition active (n : Nat) : nat := size (fwd n).

(** The successor of a candidate port in the circular scan. *)
Definition next_cand (n : Nat) (port : Z) : Z :=
  if port_hi n <=? port then port_lo n else port + 1.

(** The [for] loop of [alloc_port]: the port found and the candidate after it. *)
Fixpoint alloc_loop (turns : nat) (n : Nat) (proto cand : Z) : option (Z * Z) :=
  match turns with
  | O => None
  | S k =>
    let port := cand in
    let cand := next_cand n port in
    match rev n !! (proto, port) with
    | None => Some (port, cand)
    | Some _ => alloc_loop k n proto cand
    end
  end.

(** The number of turns, [span]; [new] asserts [port_lo <= port_hi], so the
    [u16] subtraction does not underflow. *)
Definition span (n : Nat) : nat := Z.to_nat (port_hi n - port_lo n + 1).

Definition set_next_port (n : Nat) (p : Z) : Nat :=
  {| wan_ip := wan_ip n; port_lo := port_lo n; port_hi := port_hi n; next_port := p;
     fwd := fwd n; rev := rev n |}.

Definition alloc_port (n : Nat) (proto : Z) : Nat * option Z :=
  match alloc_loop (span n) n proto (next_port n) with
  | Some (port, cand) => (set_next_port n cand, Some port)
  | None => (n, None)
  end.

(** The two [insert] calls of [egress]. *)
Definition bind_port (n : Nat) (proto ip port ext : Z) : Nat :=
  {| wan_ip := wan_ip n; port_lo := port_lo n; port_hi := port_hi n; next_port := next_port n;
     fwd := <[(proto, ip, port) := ext]> (fwd n);
     rev := <[(proto, ext) := {| ep_ip := ip; ep_port := port |}]> (rev n) |}.

Definition egress (n : Nat) (l4 : L4) (src_ip src_port : Z) : Nat * option Egress :=
  let proto := L4_proto l4 in
  match fwd n !! (proto, src_ip, src_port) with
  | Some e => (n, Some {| new_src_ip := wan_ip n; new_src_port := e |})
  | None =>
    match alloc_port n proto with
    | (n, None) => (n, None)
    | (n, Some e) =>
      let n := bind_port n proto src_ip src_port e in
      (n, Some {| new_src_ip := wan_ip n; new_src_port := e |})
    end
  end.

Definition ingress (n : Nat) (l4 : L4) (ext_port : Z) : option (Ipv4Addr * Z) :=
  e ← rev n !! (L4_proto l4, ext_port); Some (ep_ip e, ep_port e).

(** ** Rewriting a frame *)

Definition l4_checksum_field (l4 : L4) (l4_off : nat) : nat * bool :=
  match l4 with
  | L4_Tcp => ((l4_off + TCP_CKSUM_OFFSET)%nat, false)
  | L4_Udp => ((l4_off + UDP_CKSUM_OFFSET)%nat, true)
  end.

Definition apply_rewrite (frame : bytes) (ip_field ipc_off l4_port l4c_off : nat) (is_udp : bool)
    (old_ip new_ip old_port new_port : bytes) : outcome bytes :=
  frame ← copy_range frame ip_field (ip_field + 4) new_ip;
  a ← get_index frame ipc_off;
  b ← get_index frame (ipc_off + 1);
  let ipc := from_be [a; b] in
  let ipc := update ipc old_ip new_ip in
  frame ← copy_range frame ipc_off (ipc_off + 2) (to_be16 ipc);
  frame ← copy_range frame l4_port (l4_port + 2) new_port;
  a ← get_index frame l4c_off;
  b ← get_index frame (l4c_off + 1);
  let l4c := from_be [a; b] in
  if negb (is_udp && (l4c =? UDP_CKSUM_DISABLED)) then
    let updated := update l4c old_ip new_ip in
    let updated := update updated old_port new_port in
    let updated := if is_udp && (updated =? UDP_CKSUM_DISABLED) then 0xffff else updated in
    copy_range frame l4c_off (l4c_off + 2) (to_be16 updated)
  else mret frame.

(** What phase 1 of a translation captures. *)
Record Flow := { f_ip_off : nat; f_l4_off : nat; f_l4 : L4; f_ip : Ipv4Addr; f_port : Z }.

(** Phase 1 of both translations; they differ in which address and port they
    read ([src]/[src_port] or [dst]/[dst_port]). *)
Definition classify (addr : Ipv4Header → Ipv4Addr) (tport : TcpView → outcome Z)
    (uport : UdpView → outcome Z) (frame : bytes) : outcome (option Flow) :=
  eth ←? Ret (parse frame);
  ip ←? Ret (ipv4 eth);
  p ← ip_protocol ip;
  l4 ←? Ret (L4_from_proto p);
  lp ←? (match l4 with
    | L4_Tcp => t ←? tcp ip; p ← tport t; mret (Some (tcp_start t, p))
    | L4_Udp => u ←? udp ip; p ← uport u; mret (Some (udp_start u, p))
    end);
  h ← ip_header ip;
  mret (Some {| f_ip_off := ip_start ip; f_l4_off := fst lp; f_l4 := l4; f_ip := addr h;
                f_port := snd lp |}).
Definition classify_egress : bytes → outcome (option Flow) := classify Ip.src tcp_src_port udp_src_port.
Definition classify_ingress : bytes → outcome (option Flow) := classify Ip.dst tcp_dst_port udp_dst_port.

(** The frame, the table and the result after the call. *)
Definition translate_egress (frame : bytes) (n : Nat) : outcome (bytes * Nat * option Egress) :=
  c ← classify_egress frame;
  match c with
  | None => mret (frame, n, None)
  | Some f =>
    match egress n (f_l4 f) (f_ip f) (f_port f) with
    | (n, None) => mret (frame, n, None)
    | (n, Some x) =>
      let '(l4c_off, is_udp) := l4_checksum_field (f_l4 f) (f_l4_off f) in
      frame ← apply_rewrite frame (f_ip_off f + IP_SRC_OFFSET) (f_ip_off f + IP_CKSUM_OFFSET)
        (f_l4_off f + L4_SRC_PORT_OFFSET) l4c_off is_udp
        (octets (f_ip f)) (octets (new_src_ip x)) (to_be16 (f_port f)) (to_be16 (new_src_port x));
      mret (frame, n, Some x)
    end
  end.

Definition translate_ingress (frame : bytes) (n : Nat) : outcome (bytes * option Ingress) :=
  c ← classify_ingress frame;
  match c with
  | None => mret (frame, None)
  | Some f =>
    match ingress n (f_l4 f) (f_port f) with
    | None => mret (frame, None)
    | Some (new_ip, new_port) =>
      let '(l4c_off, is_udp) := l4_checksum_field (f_l4 f) (f_l4_off f) in
      frame ← apply_rewrite frame (f_ip_off f + IP_DST_OFFSET) (f_ip_off f + IP_CKSUM_OFFSET)
        (f_l4_off f + L4_DST_PORT_OFFSET) l4c_off is_udp
        (octets (f_ip f)) (octets new_ip) (to_be16 (f_port f)) (to_be16 new_port);
      mret (frame, Some {| dst_ip := new_ip; dst_port := new_port |})
    end
  end.

(** ** Invariant of the table *)

(** The forward and the reverse map are inverse to each other, and every
    external port lies in the configured range. *)
Record nat_wf (n : Nat) : Prop := {
  wf_wan : u32 (wan_ip n);
  wf_range : 0 < port_lo n ∧ port_lo n ≤ port_hi n ∧ u16 (port_hi n);
  wf_next : port_lo n ≤ next_port n ≤ port_hi n;
  wf_inverse : ∀ p ip port e,
    fwd n !! (p, ip, port) = Some e ↔ rev n !! (p, e) = Some {| ep_ip := ip; ep_port := port |};
  wf_ports : ∀ p e ep, rev n !! (p, e) = Some ep → port_lo n ≤ e ≤ port_hi n;
  wf_endpoint : ∀ p e ep, rev n !! (p, e) = Some ep → u32 (ep_ip ep) ∧ u16 (ep_port ep);
}.

(** The operations a table goes through after [new]. *)
Inductive nat_step : Nat → Nat → Prop :=
| step_set_wan n ip : u32 ip → nat_step n (set_wan_ip n ip)
| step_egress n frame frame' n' r :
    slice_ok frame → translate_egress frame n = Ret (frame', n', r) → nat_step n n'
| step_ingress n frame frame' r :
    slice_ok frame → translate_ingress frame n = Ret (frame', r) → nat_step n n.

(** ** The allocator *)

Lemma next_cand_range n c :
  port_lo n ≤ port_hi n → port_lo n ≤ c ≤ port_hi n → port_lo n ≤ next_cand n c ≤ port_hi n.
Proof. intros. unfold next_cand. destruct (Z.leb_spec (port_hi n) c); lia. Qed.

Lemma alloc_loop_Some k n proto c p c' :
  port_lo n ≤ port_hi n → port_lo n ≤ c ≤ port_hi n →
  alloc_loop k n proto c = Some (p, c') →
  rev n !! (proto, p) = None ∧ port_lo n ≤ p ≤ port_hi n ∧ port_lo n ≤ c' ≤ port_hi n.
Proof.
  intros Hr. revert c. induction k as [|k IH]; intros c Hc; cbn [alloc_loop]; [done|].
  pose proof (next_cand_range n c Hr Hc). case_match; [by apply IH|]. intros [= <- <-]. done.
Qed.

(** The scan visits the ports in circular order: [j] turns on from [c]. *)
Definition circular (n : Nat) (c : Z) (j : nat) : Z :=
  port_lo n + (c - port_lo n + Z.of_nat j) `mod` (port_hi n - port_lo n + 1).

Lemma circular_0 n c : port_lo n ≤ c ≤ port_hi n → circular n c 0 = c.
Proof. intros. unfold circular. rewrite Z.mod_small; lia. Qed.

Lemma circular_S n c j :
  port_lo n ≤ port_hi n → port_lo n ≤ c ≤ port_hi n →
  circular n (next_cand n c) j = circular n c (S j).
Proof.
  intros. unfold circular, next_cand. f_equal. destruct (Z.leb_spec (port_hi n) c).
  - rewrite <- (Z.mod_add _ 1) by lia. f_equal. lia.
  - f_equal. lia.
Qed.

Lemma alloc_loop_None k n proto c :
  port_lo n ≤ port_hi n → port_lo n ≤ c ≤ port_hi n → alloc_loop k n proto c = None →
  ∀ j, (j < k)%nat → is_Some (rev n !! (proto, circular n c j)).
Proof.
  intros Hr. revert c. induction k as [|k IH]; intros c Hc; cbn [alloc_loop]; [intros; lia|].
  destruct (rev n !! (proto, c)) eqn:E; [|done]. intros H [|j] Hj.
  - rewrite circular_0, E by done. eauto.
  - rewrite <- circular_S by done. apply IH; [by apply next_cand_range|done|lia].
Qed.

Lemma circular_covers n c p :
  port_lo n ≤ c ≤ port_hi n → port_lo n ≤ p ≤ port_hi n →
  ∃ j, (j < span n)%nat ∧ circular n c j = p.
Proof.
  intros Hc Hp. unfold span, circular. set (m := port_hi n - port_lo n + 1).
  destruct (decide (c ≤ p)).
  - exists (Z.to_nat (p - c)). split; [lia|]. rewrite Z.mod_small; lia.
  - exists (Z.to_nat (p - c + m)). split; [lia|].
    replace (c - port_lo n + Z.of_nat (Z.to_nat (p - c + m))) with ((p - port_lo n) + 1 * m) by lia.
    rewrite Z.mod_add, Z.mod_small; lia.
Qed.

Lemma alloc_port_spec n proto n' o :
  nat_wf n → alloc_port n proto = (n', o) →
  match o with
  | Some p => rev n !! (proto, p) = None ∧ port_lo n ≤ p ≤ port_hi n ∧
      ∃ c, n' = set_next_port n c ∧ port_lo n ≤ c ≤ port_hi n
  | None => n' = n ∧ ∀ p, port_lo n ≤ p ≤ port_hi n → is_Some (rev n !! (proto, p))
  end.
Proof.
  intros [_ (? & Hr & _) Hn _ _ _]. unfold alloc_port.
  destruct (alloc_loop _ _ _ _) as [[p c]|] eqn:E; intros [= <- <-].
  - apply alloc_loop_Some in E as (? & ? & ?); eauto 10.
  - split; [done|]. intros p Hp. destruct (circular_covers n (next_port n) p Hn Hp) as (j & Hj & <-).
    by apply (alloc_loop_None _ _ _ _ Hr Hn E).
Qed.

(** ** [egress] and [ingress] *)

Lemma bind_port_wf n p ip port e c :
  nat_wf n → u32 ip → u16 port → fwd n !! (p, ip, port) = None → rev n !! (p, e) = None →
  port_lo n ≤ e ≤ port_hi n → port_lo n ≤ c ≤ port_hi n →
  nat_wf (bind_port (set_next_port n c) p ip port e).
Proof.
  intros [Hw Hr Hn Hi Hp He] ?? Hf Hv ??. split; cbn [bind_port set_next_port wan_ip port_lo port_hi next_port fwd rev]; try done.
  - intros p' ip' port' e'. rewrite !lookup_insert_Some.
    split; intros [[? ?]|[? Hl]]; simplify_eq; [by left| |by left|]; right.
    + apply Hi in Hl as Hl'. split; [|done]. intros [= -> ->]. congruence.
    + apply Hi in Hl as Hl'. split; [|done]. intros [= -> -> ->]. congruence.
  - intros p' e' ep. rewrite lookup_insert_Some. intros [[? ?]|[? ?]]; simplify_eq; [done|by eapply Hp].
  - intros p' e' ep. rewrite lookup_insert_Some. intros [[? ?]|[? ?]]; simplify_eq; [done|by eapply He].
Qed.

(** Everything later proofs need about one call of [egress]. *)
Lemma egress_spec n l4 ip port n' o :
  nat_wf n → u32 ip → u16 port → egress n l4 ip port = (n', o) →
  nat_wf n' ∧ wan_ip n' = wan_ip n ∧ port_lo n' = port_lo n ∧ port_hi n' = port_hi n ∧
  fwd n ⊆ fwd n' ∧ rev n ⊆ rev n' ∧
  match o with
  | Some x => new_src_ip x = wan_ip n ∧ port_lo n ≤ new_src_port x ≤ port_hi n ∧
      fwd n' !! (L4_proto l4, ip, port) = Some (new_src_port x)
  | None => n' = n ∧ fwd n !! (L4_proto l4, ip, port) = None ∧
      ∀ p, port_lo n ≤ p ≤ port_hi n → is_Some (rev n !! (L4_proto l4, p))
  end.
Proof.
  intros Hw Hip Hport. unfold egress. destruct (fwd n !! _) as [e|] eqn:Ef.
  { intros [= <- <-]. pose proof (proj1 (wf_inverse n Hw _ _ _ _) Ef) as Hv.
    apply (wf_ports n Hw) in Hv. split_and!; cbn; done || lia. }
  destruct (alloc_port n _) as [n1 [e|]] eqn:Ea; intros [= <- <-]; apply alloc_port_spec in Ea; try done.
  - destruct Ea as (Hv & He & c & -> & Hc). split_and!; cbn; try done.
    + by apply bind_port_wf.
    + by apply insert_subseteq.
    + by apply insert_subseteq.
    + lia.
    + lia.
    + apply lookup_insert_eq.
  - destruct Ea as [-> Ha]. done.
Qed.

Lemma ingress_inverse n l4 ip port e :
  nat_wf n → fwd n !! (L4_proto l4, ip, port) = Some e → ingress n l4 e = Some (ip, port).
Proof. intros Hw Hf. apply (wf_inverse n Hw) in Hf. unfold ingress. by rewrite Hf. Qed.

Lemma ingress_bound n l4 e ip port :
  nat_wf n → ingress n l4 e = Some (ip, port) →
  u32 ip ∧ u16 port ∧ fwd n !! (L4_proto l4, ip, port) = Some e.
Proof.
  intros Hw. unfold ingress. destruct (rev n !! _) as [[ip' port']|] eqn:E; [|done].
  intros [= <- <-]. destruct (wf_endpoint n Hw _ _ _ E). split_and!; try done.
  by apply (wf_inverse n Hw).
Qed.

(** ** Classification *)

(** Length of the fixed part of the transport header and the position of its
    checksum. *)
Definition l4_min (l4 : L4) : nat := match l4 with L4_Tcp => 20 | L4_Udp => 8 end.
Definition l4_cksum (l4 : L4) : nat := match l4 with L4_Tcp => 16 | L4_Udp => 6 end.

(** What a successful classification says about the frame. [a] and [po] are
    the offsets of the address and port it reads. *)
Record flow_ok (a po : nat) (frame : bytes) (f : Flow) : Prop := {
  fo_eth : (14 ≤ f_ip_off f)%nat;
  fo_ip : (f_ip_off f + 20 ≤ f_l4_off f)%nat;
  fo_l4 : (f_l4_off f + l4_min (f_l4 f) ≤ length frame)%nat;
  fo_first : nth (f_ip_off f) frame 0 ≠ 0;
  fo_hlen : f_l4_off f = (f_ip_off f + Ip.header_len (of_bytes (slice (f_ip_off f) 20 frame)))%nat;
  fo_proto : nth (f_ip_off f + 9) frame 0 = L4_proto (f_l4 f);
  fo_addr : f_ip f = ip_from (slice (f_ip_off f + a) 4 frame);
  fo_port : f_port f = from_be (slice (f_l4_off f + po) 2 frame);
}.

(** The bytes on which two frames must agree to be classified alike. *)
Record same_layout (f f' : bytes) (ip_off l4_off : nat) : Prop := {
  sl_len : length f' = length f;
  sl_eth : slice 12 (ip_off - 12) f' = slice 12 (ip_off - 12) f;
  sl_ip : slice ip_off 10 f' = slice ip_off 10 f;
  sl_udp : slice (l4_off + 4) 2 f' = slice (l4_off + 4) 2 f;
  sl_tcp : slice (l4_off + 12) 1 f' = slice (l4_off + 12) 1 f;
}.

Lemma L4_from_proto_inv p l4 : L4_from_proto p = Some l4 → p = L4_proto l4.
Proof.
  unfold L4_from_proto. destruct (Z.eqb_spec p proto_TCP); [naive_solver|].
  destruct (Z.eqb_spec p proto_UDP); naive_solver.
Qed.

Lemma protocol_at s b : protocol (of_bytes (slice s 20 b)) = nth (s + 9) b 0.
Proof. cbn [protocol of_bytes Ipv4Header_Pod]. apply nth_slice. lia. Qed.

Lemma ihl_nonzero h : (Ip.MIN_LEN ≤ Ip.header_len h)%nat → version_ihl h ≠ 0.
Proof.
  unfold Ip.MIN_LEN, Ip.header_len, WORD_BYTES, ihl. intros H E. rewrite E in H.
  change (Z.to_nat (Z.land 0 IHL_MASK) * 4)%nat with 0%nat in H. lia.
Qed.

Lemma ip_parse_first buf s v :
  Ipv4View_parse_at buf s = Some v →
  nth s buf 0 ≠ 0 ∧ l4_start v = (s + Ip.header_len (of_bytes (slice s 20 buf)))%nat.
Proof.
  unfold Ipv4View_parse_at. intros H. parse_step H. parse_step H. apply header_at_inv in H0 as [? ->].
  change (size_of Ipv4Header) with 20%nat in *.
  pose proof (ihl_nonzero (of_bytes (slice s 20 buf)) ltac:(unfold Ip.MIN_LEN in *; lia)) as Hz.
  cbn [version_ihl of_bytes Ipv4Header_Pod] in Hz. rewrite nth_slice, Nat.add_0_r in Hz by lia.
  split; [done|]. parse_step H. parse_step H. apply checked_add_inv in H1 as ->. by simplify_eq.
Qed.

Section classify.
Context (addr : Ipv4Header → Ipv4Addr) (tport : TcpView → outcome Z) (uport : UdpView → outcome Z).
Context (a po : nat).
Hypothesis addr_spec : ∀ b, addr (of_bytes (slice 0 20 b)) = ip_from (slice a 4 b).
Hypothesis tport_spec : ∀ v, tcp_view_wf v → tport v = Ret (from_be (slice (tcp_start v + po) 2 (tcp_buf v))).
Hypothesis uport_spec : ∀ v, udp_view_wf v → uport v = Ret (from_be (slice (udp_start v + po) 2 (udp_buf v))).

Lemma addr_at s b : addr (of_bytes (slice s 20 b)) = ip_from (slice (s + a) 4 b).
Proof.
  pose proof (addr_spec (skipn s b)) as E. unfold slice in E at 1. rewrite drop_0 in E.
  fold (slice s 20 b) in E. rewrite E. unfold slice. by rewrite drop_drop.
Qed.

(** The transport step on a well-formed IPv4 view, as one equation. *)
Definition l4_at (ip : Ipv4View) (l4 : L4) : option nat :=
  match l4 with
  | L4_Tcp => tcp_start <$> TcpView_parse_at (ip_buf ip) (l4_start ip) (ip_end ip)
  | L4_Udp => udp_start <$> UdpView_parse_at (ip_buf ip) (l4_start ip) (ip_end ip)
  end.

Lemma classify_eq frame :
  classify addr tport uport frame = Ret (
    eth ← parse frame; ip ← ipv4 eth;
    l4 ← L4_from_proto (nth (ip_start ip + 9) frame 0);
    off ← l4_at ip l4;
    Some {| f_ip_off := ip_start ip; f_l4_off := off; f_l4 := l4;
            f_ip := ip_from (slice (ip_start ip + a) 4 frame);
            f_port := from_be (slice (off + po) 2 frame) |}).
Proof.
  unfold classify. destruct (parse frame) as [e|] eqn:Ee; [|done]. apply eth_parse_wf in Ee as (_ & Eb & _).
  cbn [obind mbind option_bind]. destruct (ipv4 e) as [ip|] eqn:Ei; [|done].
  apply ipv4_wf in Ei as (Hip & Eb' & _). rewrite Eb in Eb'.
  unfold ip_protocol. rewrite ip_header_Ret by done. cbn [obind mbind option_bind outcome_bind mret outcome_ret].
  rewrite protocol_at, Eb'.
  destruct (L4_from_proto _) as [l4|] eqn:E4; [|done]. cbn [obind mbind option_bind].
  assert (nth (ip_start ip + 9) frame 0 = L4_proto l4) as Ep.
  { by apply L4_from_proto_inv. }
  destruct l4; cbn [l4_at L4_proto] in *.
  - rewrite tcp_Ret by done. rewrite protocol_at, Eb', Ep, Z.eqb_refl.
    destruct (TcpView_parse_at _ _ _) as [t|] eqn:Et; [|done].
    destruct Hip as (? & ? & Hle). rewrite Eb' in Hle. apply tcp_parse_wf in Et as (Ht & Eb2 & Es); [|done].
    cbn [obind]. rewrite tport_spec, Eb2 by done. cbn. do 3 f_equal. apply addr_at.
  - rewrite udp_Ret by done. rewrite protocol_at, Eb', Ep, Z.eqb_refl.
    destruct (UdpView_parse_at _ _ _) as [t|] eqn:Et; [|done].
    destruct Hip as (? & ? & Hle). rewrite Eb' in Hle. apply udp_parse_wf in Et as (Ht & Eb2 & Es); [|done].
    cbn [obind]. rewrite uport_spec, Eb2 by done. cbn. do 3 f_equal. apply addr_at.
Qed.

Lemma classify_flow frame f :
  classify addr tport uport frame = Ret (Some f) → flow_ok a po frame f.
Proof.
  rewrite classify_eq. intros [= H]. apply bind_Some in H as (e & Ee & H). apply bind_Some in H as (ip & Ei & H).
  apply bind_Some in H as (l4 & E4 & H). apply bind_Some in H as (off & Eo & H). simplify_eq.
  apply eth_parse_wf in Ee as ((? & ?) & Eb & Es0).
  pose proof Ei as Hf. unfold ipv4 in Hf. case_match; [|done]. apply ip_parse_first in Hf as [Hf Hhl].
  apply ipv4_wf in Ei as ((? & ? & Hle) & Eb' & Es). rewrite Eb in *. rewrite Eb' in *.
  rewrite <- Es in Hf, Hhl.
  assert (off = l4_start ip) as Hoff.
  { destruct l4; cbn [l4_at] in *; [destruct (TcpView_parse_at _ _ _) as [t|] eqn:Et
      |destruct (UdpView_parse_at _ _ _) as [t|] eqn:Et]; try done; cbn in Eo; simplify_eq;
    rewrite Eb' in Et; [by apply tcp_parse_wf in Et as (_ & _ & Hs)|by apply udp_parse_wf in Et as (_ & _ & Hs)]. }
  split; cbn [f_ip_off f_l4_off f_l4 f_ip f_port]; try done; try lia.
  - destruct l4; cbn [l4_at l4_min] in *; [destruct (TcpView_parse_at _ _ _) as [t|] eqn:Et
      |destruct (UdpView_parse_at _ _ _) as [t|] eqn:Et]; try done; cbn in Eo; simplify_eq;
    rewrite Eb' in Et; [apply tcp_parse_wf in Et as ((? & ? & ?) & Hb & Hs)
      |apply udp_parse_wf in Et as ((? & ? & ?) & Hb & Hs)]; rewrite ?Hb in *; lia.
  - by apply L4_from_proto_inv.
Qed.

Lemma classify_congr frame frame' f :
  classify addr tport uport frame = Ret (Some f) → same_layout frame frame' (f_ip_off f) (f_l4_off f) →
  classify addr tport uport frame' = Ret (Some
    {| f_ip_off := f_ip_off f; f_l4_off := f_l4_off f; f_l4 := f_l4 f;
       f_ip := ip_from (slice (f_ip_off f + a) 4 frame');
       f_port := from_be (slice (f_l4_off f + po) 2 frame') |}).
Proof.
  intros Hc [Hl He Hi Hu Ht]. pose proof (classify_flow _ _ Hc) as Hok. revert Hc. rewrite !classify_eq.
  intros [= H]. f_equal. apply bind_Some in H as (e & Ee & H). apply bind_Some in H as (ip & Ei & H).
  apply bind_Some in H as (l4 & E4 & H). apply bind_Some in H as (off & Eo & H). simplify_eq.
  cbn [f_ip_off f_l4_off f_l4] in *.
  pose proof (eth_parse_wf _ _ _ Ee) as ((? & ?) & Eb & Es0).
  pose proof (ipv4_wf _ _ Ei) as ((? & ? & Hle) & Eb' & Es). rewrite Eb' in *. rewrite Eb in *.
  unfold parse, EthernetView_parse in *. rewrite Es in *.
  rewrite (eth_parse_congr _ _ _ Ee Hl He). cbn [mbind option_bind].
  revert Ei. unfold ipv4. unfold is_ipv4. cbn [eth_type eth_buf l3_start]. case_match; [|done]. intros Ei. rewrite Eb in Ei.
  rewrite (ip_parse_congr _ _ _ _ Ei Hl Hi). cbn [mbind option_bind ip_start].
  rewrite (nth_sub _ _ _ _ _ Hi) by lia. rewrite E4. cbn [mbind option_bind].
  destruct l4; cbn [l4_at ip_buf l4_start ip_end] in *; rewrite Eb' in Eo.
  - destruct (TcpView_parse_at frame _ _) as [t|] eqn:Et; [|done]. cbn in Eo. simplify_eq.
    assert (tcp_start t = l4_start ip) as Ets by (by apply tcp_parse_wf in Et as (_ & _ & ->)).
    rewrite Ets in *. by rewrite (tcp_parse_congr _ _ _ _ _ Et Hl Ht).
  - destruct (UdpView_parse_at frame _ _) as [t|] eqn:Et; [|done]. cbn in Eo. simplify_eq.
    assert (udp_start t = l4_start ip) as Ets by (by apply udp_parse_wf in Et as (_ & _ & ->)).
    rewrite Ets in *. by rewrite (udp_parse_congr _ _ _ _ _ Et Hl Hu).
Qed.

End classify.

(** ** The rewrite *)

(** The bytes [apply_rewrite] leaves in the L4 checksum field. *)
Definition l4_fix (is_udp : bool) (l4c : bytes) (old_ip new_ip old_port new_port : bytes) : bytes :=
  if is_udp && (from_be l4c =? UDP_CKSUM_DISABLED) then l4c
  else
    let c := update (update (from_be l4c) old_ip new_ip) old_port new_port in
    to_be16 (if is_udp && (c =? UDP_CKSUM_DISABLED) then 0xffff else c).

(** The frame after the rewrite, as four writes. *)
Definition rewritten (frame : bytes) (a po : nat) (f : Flow) (new_ip new_port : bytes) : bytes :=
  let '(l4c_off, is_udp) := l4_checksum_field (f_l4 f) (f_l4_off f) in
  splice l4c_off (l4_fix is_udp (slice l4c_off 2 frame) (octets (f_ip f)) new_ip (to_be16 (f_port f)) new_port)
    (splice (f_l4_off f + po) new_port
       (splice (f_ip_off f + 10)
          (to_be16 (update (from_be (slice (f_ip_off f + 10) 2 frame)) (octets (f_ip f)) new_ip))
          (splice (f_ip_off f + a) new_ip frame))).

(** The two directions: which fields are rewritten. *)
Definition direction (a po : nat) : Prop := (a = 12 ∧ po = 0)%nat ∨ (a = 16 ∧ po = 2)%nat.

(** The transport checksum is absent: UDP with a zero field. *)
Definition cksum_disabled (f : Flow) (g : bytes) : Prop :=
  f_l4 f = L4_Udp ∧ from_be (slice (f_l4_off f + l4_cksum (f_l4 f)) 2 g) = UDP_CKSUM_DISABLED.

Section rewrite.
Context (a po : nat) (frame : bytes) (f : Flow) (new_ip new_port : bytes).
Hypothesis Hdir : direction a po.
Hypothesis Hframe : slice_ok frame.
Hypothesis Hflow : flow_ok a po frame f.
Hypothesis Hnip : length new_ip = 4%nat ∧ Forall u8 new_ip.
Hypothesis Hnport : length new_port = 2%nat ∧ Forall u8 new_port.

Let ip_off := f_ip_off f.
Let l4_off := f_l4_off f.
Let l4c_off := (l4_off + l4_cksum (f_l4 f))%nat.
Let is_udp := bool_decide (f_l4 f = L4_Udp).
Let frame' := rewritten frame a po f new_ip new_port.

Lemma l4_checksum_field_eq : l4_checksum_field (f_l4 f) l4_off = (l4c_off, is_udp).
Proof. subst l4c_off is_udp. by destruct (f_l4 f). Qed.

(** All offsets, for [lia]. *)
Lemma offsets :
  (14 ≤ ip_off ∧ ip_off + 20 ≤ l4_off ∧ (a = 12 ∧ po = 0 ∨ a = 16 ∧ po = 2) ∧
   (l4_cksum (f_l4 f) = 16 ∧ l4_min (f_l4 f) = 20 ∨ l4_cksum (f_l4 f) = 6 ∧ l4_min (f_l4 f) = 8) ∧
   l4_off + l4_min (f_l4 f) ≤ length frame)%nat.
Proof.
  destruct Hflow as [? ? ? _ _ _ _ _]. unfold direction in Hdir.
  split_and!; try done. destruct (f_l4 f); [left|right]; done.
Qed.

Lemma length_l4_fix u c o n op np : length c = 2%nat → length (l4_fix u c o n op np) = 2%nat.
Proof. intros. unfold l4_fix. by case_match. Qed.
Lemma l4_fix_u8 u c o n op np : Forall u8 c → Forall u8 (l4_fix u c o n op np).
Proof. intros. unfold l4_fix. case_match; [done|apply to_be16_u8]. Qed.

(** Push lengths through the nested writes. *)
Ltac lens_rec :=
  repeat first
    [ rewrite length_splice by lens_rec | rewrite length_l4_fix by lens_rec
    | rewrite length_slice by lens_rec | rewrite length_to_be16 ]; lia.
Ltac lens := pose proof offsets; subst l4c_off; destruct Hnip, Hnport; lens_rec.

Lemma rewritten_eq :
  frame' = splice l4c_off (l4_fix is_udp (slice l4c_off 2 frame) (octets (f_ip f)) new_ip (to_be16 (f_port f)) new_port)
    (splice (l4_off + po) new_port
       (splice (ip_off + 10) (to_be16 (update (from_be (slice (ip_off + 10) 2 frame)) (octets (f_ip f)) new_ip))
          (splice (ip_off + a) new_ip frame))).
Proof. subst frame'. unfold rewritten. fold l4_off ip_off. by rewrite l4_checksum_field_eq. Qed.

Lemma apply_rewrite_Ret :
  apply_rewrite frame (ip_off + a) (ip_off + 10) (l4_off + po) l4c_off is_udp
    (octets (f_ip f)) new_ip (to_be16 (f_port f)) new_port = Ret frame'.
Proof.
  pose proof offsets. destruct Hnip, Hnport. rewrite rewritten_eq. unfold apply_rewrite.
  rewrite copy_range_Ret by lia. cbn [mbind outcome_bind].
  rewrite !get_index_Ret by lens. cbn [mbind outcome_bind].
  rewrite <- (slice_pair (ip_off + 10)) by lens. rewrite slice_splice_disjoint by lens.
  rewrite copy_range_Ret by lens. cbn [mbind outcome_bind].
  rewrite copy_range_Ret by lens. cbn [mbind outcome_bind].
  rewrite !get_index_Ret by lens. cbn [mbind outcome_bind].
  rewrite <- (slice_pair l4c_off) by lens. do 3 rewrite slice_splice_disjoint by lens.
  unfold l4_fix. destruct (is_udp && (from_be (slice l4c_off 2 frame) =? _)); cbn [negb].
  - cbn [mret outcome_ret]. f_equal. set (b := splice (l4_off + po) _ _).
    replace (slice l4c_off 2 frame) with (slice l4c_off 2 b); [rewrite splice_id; [done|subst b; lens]|].
    subst b. by do 3 rewrite slice_splice_disjoint by lens.
  - by rewrite copy_range_Ret by lens.
Qed.

Lemma length_rewritten : length frame' = length frame.
Proof. rewrite rewritten_eq. lens. Qed.

Lemma rewritten_ok : slice_ok frame'.
Proof.
  destruct Hframe, Hnip, Hnport. split; [|by rewrite length_rewritten]. rewrite rewritten_eq.
  repeat apply Forall_splice; auto with bytes_db. by apply l4_fix_u8, Forall_slice.
Qed.

(** Windows the rewrite does not touch. *)
Lemma rewritten_outside off len :
  (off + len ≤ ip_off + a ∨ ip_off + a + 4 ≤ off)%nat → (off + len ≤ ip_off + 10 ∨ ip_off + 12 ≤ off)%nat →
  (off + len ≤ l4_off + po ∨ l4_off + po + 2 ≤ off)%nat → (off + len ≤ l4c_off ∨ l4c_off + 2 ≤ off)%nat →
  slice off len frame' = slice off len frame.
Proof. intros. rewrite rewritten_eq. by do 4 rewrite slice_splice_disjoint by lens. Qed.

Lemma rewritten_addr : slice (ip_off + a) 4 frame' = new_ip.
Proof.
  rewrite rewritten_eq. do 3 rewrite slice_splice_disjoint by lens.
  replace 4%nat with (length new_ip) by apply Hnip. apply slice_splice_eq. lens.
Qed.

Lemma rewritten_port : slice (l4_off + po) 2 frame' = new_port.
Proof.
  rewrite rewritten_eq. rewrite slice_splice_disjoint by lens.
  replace 2%nat with (length new_port) by apply Hnport. apply slice_splice_eq. lens.
Qed.

Lemma rewritten_layout : same_layout frame frame' ip_off l4_off.
Proof.
  split; [apply length_rewritten|..]; apply rewritten_outside; pose proof offsets; subst l4c_off; lia.
Qed.

(** The address and the port the direction leaves alone. *)
Lemma rewritten_other a' po' :
  direction a' po' → a' ≠ a →
  slice (ip_off + a') 4 frame' = slice (ip_off + a') 4 frame ∧
  slice (l4_off + po') 2 frame' = slice (l4_off + po') 2 frame.
Proof.
  unfold direction. intros. split; apply rewritten_outside; pose proof offsets; subst l4c_off; lia.
Qed.

(** ** Checksums across the rewrite *)

Lemma old_addr : slice (ip_off + a) 4 frame = octets (f_ip f).
Proof.
  rewrite (fo_addr _ _ _ _ Hflow). symmetry. pose proof offsets. destruct Hframe.
  apply octets_ip_from; [apply length_slice; lia|by apply Forall_slice].
Qed.
Lemma old_port : slice (l4_off + po) 2 frame = to_be16 (f_port f).
Proof.
  rewrite (fo_port _ _ _ _ Hflow). symmetry. pose proof offsets. destruct Hframe.
  apply to_from_be16; [apply length_slice; lia|by apply Forall_slice].
Qed.

(** Overwriting a two-byte checksum field with an updated value moves the word
    sum by the update's correction. *)
Lemma field_u16 off : (off + 2 ≤ length frame)%nat → u16 (from_be (slice off 2 frame)).
Proof. intros. destruct Hframe. apply from_be_u16; [by apply length_slice|by apply Forall_slice]. Qed.

Lemma update_ip_congr c :
  u16 c → u16 (update c (octets (f_ip f)) new_ip) ∧
  update c (octets (f_ip f)) new_ip `mod` 65535 = (c + wsum (octets (f_ip f)) - wsum new_ip) `mod` 65535.
Proof. intros. destruct Hnip. apply update_congr; auto with bytes_db; rewrite ?length_octets; lia. Qed.

Lemma update_port_congr c :
  u16 c → u16 (update c (to_be16 (f_port f)) new_port) ∧
  update c (to_be16 (f_port f)) new_port `mod` 65535 = (c + wsum (to_be16 (f_port f)) - wsum new_port) `mod` 65535.
Proof. intros. destruct Hnport. apply update_congr; auto with bytes_db; rewrite ?length_to_be16; lia. Qed.

(** The IPv4 header: [h] bytes from [ip_off], at least the fixed part. *)
Lemma rewritten_ip_wsum h :
  (20 ≤ h)%nat → (ip_off + h ≤ l4_off)%nat →
  0 < wsum (slice ip_off h frame) ∧ 0 < wsum (slice ip_off h frame') ∧
  wsum (slice ip_off h frame') `mod` 65535 = wsum (slice ip_off h frame) `mod` 65535.
Proof.
  intros Hh Hl. pose proof offsets as Ho. destruct Hframe as [Hu _]. destruct Hnip as [Ln Un].
  split; [|split].
  - apply wsum_pos; [by apply Forall_slice|]. rewrite nth_slice, Nat.add_0_r by lia. apply Hflow.
  - apply wsum_pos; [apply Forall_slice, rewritten_ok|]. rewrite nth_slice, Nat.add_0_r by lia.
    rewrite (nth_sub ip_off 10 frame frame') by (apply rewritten_layout || lia). apply Hflow.
  - rewrite rewritten_eq. do 2 rewrite slice_splice_disjoint by lens.
    do 2 rewrite slice_splice_inside by lens.
    replace (ip_off + 10 - ip_off)%nat with 10%nat by lia. replace (ip_off + a - ip_off)%nat with a by lia.
    set (c := from_be (slice (ip_off + 10) 2 frame)).
    assert (u16 c) as Hc by (apply field_u16; lia).
    destruct (update_ip_congr c Hc) as [Hc' E].
    rewrite wsum_splice by (lens || (by exists 5%nat) || by exists 1%nat).
    rewrite wsum_splice; [|lens| |]; [|destruct Hdir as [[-> _]|[-> _]]; [by exists 6%nat|by exists 8%nat]|by exists 2%nat; lia].
    rewrite length_to_be16, Ln, wsum_to_be16 by done.
    rewrite slice_splice_disjoint by lens. rewrite !slice_slice, old_addr by lia.
    rewrite (wsum_2 (slice (ip_off + 10) 2 frame)) by lens. fold c.
    set (S := wsum (slice ip_off h frame)). set (o := wsum (octets (f_ip f))) in *. set (w := wsum new_ip) in *.
    rewrite <- Z.add_mod_idemp_r, E, Z.add_mod_idemp_r by lia. f_equal. lia.
Qed.


Lemma l4_fix_congr :
  ¬ cksum_disabled f frame →
  let c' := l4_fix is_udp (slice l4c_off 2 frame) (octets (f_ip f)) new_ip (to_be16 (f_port f)) new_port in
  wsum c' `mod` 65535 = (wsum (slice l4c_off 2 frame) + wsum (octets (f_ip f)) - wsum new_ip
    + wsum (to_be16 (f_port f)) - wsum new_port) `mod` 65535.
Proof.
  intros Hd. pose proof offsets as Ho. assert (l4c_off + 2 ≤ length frame)%nat as Hl by (subst l4c_off; lia).
  rewrite (wsum_2 (slice l4c_off 2 frame)) by (by apply length_slice). unfold l4_fix.
  set (c := from_be (slice l4c_off 2 frame)). assert (u16 c) as Hc by (by apply field_u16).
  destruct (update_ip_congr c Hc) as [Hc1 E1]. destruct (update_port_congr _ Hc1) as [Hc2 E2].
  destruct (is_udp && (c =? UDP_CKSUM_DISABLED)) eqn:Eu.
  { apply andb_true_iff in Eu as [Eu Ez]. apply bool_decide_eq_true in Eu. apply Z.eqb_eq in Ez.
    by destruct Hd. }
  set (u := update (update c _ _) _ _) in *.
  assert (wsum (to_be16 (if is_udp && (u =? UDP_CKSUM_DISABLED) then 0xffff else u)) `mod` 65535 = u `mod` 65535) as ->.
  { rewrite wsum_to_be16; [|case_match; [word_lia|done]]. case_match eqn:E; [|done].
    apply andb_true_iff in E as [_ E]. apply Z.eqb_eq in E. by rewrite E. }
  rewrite E2, <- Zminus_mod_idemp_l, <- Z.add_mod_idemp_l, E1, Z.add_mod_idemp_l, Zminus_mod_idemp_l by lia.
  done.
Qed.

(** A disabled checksum stays disabled. *)
Lemma rewritten_disabled : cksum_disabled f frame → cksum_disabled f frame'.
Proof.
  intros [Hl Hz]. split; [done|]. pose proof offsets as Ho. rewrite rewritten_eq.
  fold l4_off l4c_off in Hz |- *. unfold l4_fix, is_udp. rewrite (bool_decide_true _ Hl), Hz. cbn [andb Z.eqb UDP_CKSUM_DISABLED].
  rewrite <- Hz. f_equal. set (c := slice l4c_off 2 frame).
  assert (length c = 2%nat) as Lc by (apply length_slice; subst l4c_off; lia).
  rewrite <- Lc at 1. apply slice_splice_eq. rewrite Lc. lens.
Qed.

(** The segment window: [m] bytes from [l4_off], at least the fixed header. *)
Lemma rewritten_seg_wsum m :
  ¬ cksum_disabled f frame → (l4_min (f_l4 f) ≤ m)%nat → (l4_off + m ≤ length frame)%nat →
  wsum (slice l4_off m frame') `mod` 65535 =
  (wsum (slice l4_off m frame) + wsum (octets (f_ip f)) - wsum new_ip) `mod` 65535.
Proof.
  intros Hd Hm Hl. pose proof (l4_fix_congr Hd) as E. pose proof offsets as Ho.
  destruct Hnport as [Lp Up]. rewrite rewritten_eq.
  set (c' := l4_fix _ _ _ _ _ _) in *.
  assert (length c' = 2%nat) as Lc by (apply length_l4_fix, length_slice; subst l4c_off; lia).
  do 2 rewrite slice_splice_inside by (rewrite ?Lc; lens).
  do 2 rewrite slice_splice_disjoint by lens.
  replace (l4c_off - l4_off)%nat with (l4_cksum (f_l4 f)) by (subst l4c_off; lia).
  replace (l4_off + po - l4_off)%nat with po by lia.
  assert (Nat.Even (l4_cksum (f_l4 f))) as Ev by (destruct (f_l4 f); [by exists 8%nat|by exists 3%nat]).
  assert (Nat.Even po) as Ep by (destruct Hdir as [[_ ->]|[_ ->]]; [by exists 0%nat|by exists 1%nat]).
  assert (Nat.Even 2) as E2 by (by exists 1%nat).
  rewrite wsum_splice by (rewrite ?Lc; done || lens). rewrite wsum_splice by (rewrite ?Lp; done || lens).
  rewrite Lc, Lp, slice_splice_disjoint by lens. rewrite !slice_slice by lia. fold l4c_off. rewrite old_port.
  rewrite <- Z.add_mod_idemp_r, E, Z.add_mod_idemp_r by lia. f_equal. lia.
Qed.

End rewrite.

(** ** The two translations *)

(** The receiver's checks on a classified frame: the IPv4 header, and the
    transport segment of [m] bytes under its pseudo-header. *)
Definition header_check (f : Flow) (g : bytes) : Z :=
  checksum (slice (f_ip_off f) (f_l4_off f - f_ip_off f) g).
Definition segment_check (f : Flow) (m : nat) (g : bytes) : Z :=
  l4_check (slice (f_ip_off f + 12) 4 g) (slice (f_ip_off f + 16) 4 g) (L4_proto (f_l4 f))
    (slice (f_l4_off f) m g).

(** The flow with the rewritten endpoint. *)
Definition with_endpoint (f : Flow) (ip port : Z) : Flow :=
  {| f_ip_off := f_ip_off f; f_l4_off := f_l4_off f; f_l4 := f_l4 f; f_ip := ip; f_port := port |}.

Lemma src_at b : Ip.src (of_bytes (slice 0 20 b)) = ip_from (slice 12 4 b).
Proof. unfold Ip.src. cbn [src_field of_bytes Ipv4Header_Pod]. by rewrite slice_slice by lia. Qed.
Lemma dst_at b : Ip.dst (of_bytes (slice 0 20 b)) = ip_from (slice 16 4 b).
Proof. unfold Ip.dst. cbn [dst_field of_bytes Ipv4Header_Pod]. by rewrite slice_slice by lia. Qed.

Lemma tcp_src_port_at v :
  tcp_view_wf v → tcp_src_port v = Ret (from_be (slice (tcp_start v + 0) 2 (tcp_buf v))).
Proof.
  intros. unfold tcp_src_port. rewrite tcp_header_Ret by done. cbn [mbind outcome_bind mret outcome_ret].
  unfold Tcp.src_port, u16be_get. cbn [of_bytes TcpHeader_Pod Tcp.src_port_field u16be_bytes].
  by rewrite slice_slice by lia.
Qed.
Lemma tcp_dst_port_at v :
  tcp_view_wf v → tcp_dst_port v = Ret (from_be (slice (tcp_start v + 2) 2 (tcp_buf v))).
Proof.
  intros. unfold tcp_dst_port. rewrite tcp_header_Ret by done. cbn [mbind outcome_bind mret outcome_ret].
  unfold Tcp.dst_port, u16be_get. cbn [of_bytes TcpHeader_Pod Tcp.dst_port_field u16be_bytes].
  by rewrite slice_slice by lia.
Qed.
Lemma udp_src_port_at v :
  udp_view_wf v → udp_src_port v = Ret (from_be (slice (udp_start v + 0) 2 (udp_buf v))).
Proof.
  intros. unfold udp_src_port. rewrite udp_header_Ret by done. cbn [mbind outcome_bind mret outcome_ret].
  unfold Udp.src_port, u16be_get. cbn [of_bytes UdpHeader_Pod Udp.src_port_field u16be_bytes].
  by rewrite slice_slice by lia.
Qed.
Lemma udp_dst_port_at v :
  udp_view_wf v → udp_dst_port v = Ret (from_be (slice (udp_start v + 2) 2 (udp_buf v))).
Proof.
  intros. unfold udp_dst_port. rewrite udp_header_Ret by done. cbn [mbind outcome_bind mret outcome_ret].
  unfold Udp.dst_port, u16be_get. cbn [of_bytes UdpHeader_Pod Udp.dst_port_field u16be_bytes].
  by rewrite slice_slice by lia.
Qed.

#[local] Hint Resolve src_at dst_at tcp_src_port_at tcp_dst_port_at udp_src_port_at udp_dst_port_at : core.

Lemma classify_egress_flow frame f : classify_egress frame = Ret (Some f) → flow_ok 12 0 frame f.
Proof. apply classify_flow; auto. Qed.
Lemma classify_ingress_flow frame f : classify_ingress frame = Ret (Some f) → flow_ok 16 2 frame f.
Proof. apply classify_flow; auto. Qed.
Lemma classify_egress_total frame : ∃ o, classify_egress frame = Ret o.
Proof. eexists. apply (classify_eq _ _ _ 12 0); auto. Qed.
Lemma classify_ingress_total frame : ∃ o, classify_ingress frame = Ret o.
Proof. eexists. apply (classify_eq _ _ _ 16 2); auto. Qed.

Lemma classify_egress_congr frame frame' f :
  classify_egress frame = Ret (Some f) → same_layout frame frame' (f_ip_off f) (f_l4_off f) →
  classify_egress frame' = Ret (Some (with_endpoint f
    (ip_from (slice (f_ip_off f + 12) 4 frame')) (from_be (slice (f_l4_off f + 0) 2 frame')))).
Proof. apply classify_congr; auto. Qed.
Lemma classify_ingress_congr frame frame' f :
  classify_ingress frame = Ret (Some f) → same_layout frame frame' (f_ip_off f) (f_l4_off f) →
  classify_ingress frame' = Ret (Some (with_endpoint f
    (ip_from (slice (f_ip_off f + 16) 4 frame')) (from_be (slice (f_l4_off f + 2) 2 frame')))).
Proof. apply classify_congr; auto. Qed.

(** Both classifications see the same packet: they succeed together and agree
    on the offsets. *)
Ltac classify_same :=
  unfold classify_egress, classify_ingress;
  rewrite (classify_eq Ip.src tcp_src_port udp_src_port 12 0) by auto;
  rewrite (classify_eq Ip.dst tcp_dst_port udp_dst_port 16 2) by auto;
  let H := fresh in intros [= H]; f_equal;
  do 4 (apply bind_Some in H as (? & -> & H); cbn [mbind option_bind]); by simplify_eq.

Lemma classify_ingress_of_egress frame f :
  classify_egress frame = Ret (Some f) →
  classify_ingress frame = Ret (Some (with_endpoint f
    (ip_from (slice (f_ip_off f + 16) 4 frame)) (from_be (slice (f_l4_off f + 2) 2 frame)))).
Proof. classify_same. Qed.
Lemma classify_egress_of_ingress frame f :
  classify_ingress frame = Ret (Some f) →
  classify_egress frame = Ret (Some (with_endpoint f
    (ip_from (slice (f_ip_off f + 12) 4 frame)) (from_be (slice (f_l4_off f + 0) 2 frame)))).
Proof. classify_same. Qed.

Lemma flow_bounds a po frame f :
  direction a po → slice_ok frame → flow_ok a po frame f → u32 (f_ip f) ∧ u16 (f_port f).
Proof.
  intros Hd [Hu _] [? ? Hl _ _ _ -> ->]. split; [apply from_be_u32|apply from_be_u16];
    try (by apply Forall_slice); apply length_slice; destruct Hd, (f_l4 f); cbn [l4_min] in Hl; lia.
Qed.

Lemma dir_egress : direction 12 0.
Proof. by left. Qed.
Lemma dir_ingress : direction 16 2.
Proof. by right. Qed.
#[local] Hint Resolve dir_egress dir_ingress : core.

Definition segment_sum (f : Flow) (m : nat) (g : bytes) : Z :=
  pseudo_sum (slice (f_ip_off f + 12) 4 g) (slice (f_ip_off f + 16) 4 g) (L4_proto (f_l4 f))
    (slice (f_l4_off f) m g).

Lemma segment_check_valid f m g :
  slice_ok g → (f_ip_off f + 20 ≤ f_l4_off f)%nat → (f_l4_off f + m ≤ length g)%nat → Z.of_nat m ≤ 65535 →
  (segment_check f m g = 0 ↔ sum_valid (segment_sum f m g)) ∧ 0 < segment_sum f m g.
Proof.
  intros [Hg _] Ho Hl Hm. unfold segment_check, segment_sum. split.
  - destruct (l4_check_exact (slice (f_ip_off f + 12) 4 g) (slice (f_ip_off f + 16) 4 g)
      (L4_proto (f_l4 f)) (slice (f_l4_off f) m g)) as [B ->];
      try (by apply Forall_slice); try (apply length_slice; lia).
    + destruct (f_l4 f); decide_now.
    + rewrite length_slice; lia.
    + by apply finish_0.
  - assert (∀ o k, 0 ≤ wsum (slice o k g)) as Hn by (intros; by apply wsum_nonneg, Forall_slice).
    assert (0 < L4_proto (f_l4 f)) by (by destruct (f_l4 f)). unfold pseudo_sum.
    pose proof (Hn (f_ip_off f + 12) 4)%nat. pose proof (Hn (f_ip_off f + 16) 4)%nat.
    pose proof (Hn (f_l4_off f) m). lia.
Qed.

Section rewritten_checks.
Context (a po : nat) (frame : bytes) (f : Flow) (ip port : Z).
Hypothesis Hdir : direction a po.
Hypothesis Hframe : slice_ok frame.
Hypothesis Hflow : flow_ok a po frame f.

Let frame' := rewritten frame a po f (octets ip) (to_be16 port).

Lemma new_ip_ok : length (octets ip) = 4%nat ∧ Forall u8 (octets ip).
Proof. split; auto with bytes_db. Qed.
Lemma new_port_ok : length (to_be16 port) = 2%nat ∧ Forall u8 (to_be16 port).
Proof. split; auto with bytes_db. Qed.
#[local] Hint Resolve new_ip_ok new_port_ok : core.

Lemma rewritten_header_check : header_check f frame' = 0 ↔ header_check f frame = 0.
Proof.
  pose proof (offsets a po frame f Hdir Hflow) as Hof. unfold header_check.
  assert (slice_ok frame') as [Hf' _] by (by apply rewritten_ok).
  assert (length frame' = length frame) as El by (by apply length_rewritten).
  pose proof (fo_hlen _ _ _ _ Hflow) as Hh.
  pose proof (header_len_le (of_bytes (slice (f_ip_off f) 20 frame))) as Hle.
  destruct (rewritten_ip_wsum a po frame f (octets ip) (to_be16 port) Hdir Hframe Hflow new_ip_ok new_port_ok
    (f_l4_off f - f_ip_off f)) as (P & P' & E); [lia..|].
  destruct (checksum_exact (slice (f_ip_off f) (f_l4_off f - f_ip_off f) frame)) as [-> B];
    [apply Forall_slice, Hframe|rewrite length_slice; lia|].
  destruct (checksum_exact (slice (f_ip_off f) (f_l4_off f - f_ip_off f) frame')) as [-> B'];
    [by apply Forall_slice|rewrite length_slice; lia|].
  rewrite !finish_0 by done. by apply sum_valid_congr.
Qed.

Lemma rewritten_segment_sum m :
  ¬ cksum_disabled f frame → (l4_min (f_l4 f) ≤ m)%nat → (f_l4_off f + m ≤ length frame)%nat →
  segment_sum f m frame' `mod` 65535 = segment_sum f m frame `mod` 65535.
Proof.
  intros Hdis Hm Hl. pose proof (offsets a po frame f Hdir Hflow) as Hof.
  assert (length frame' = length frame) as El by (by apply length_rewritten).
  pose proof (rewritten_seg_wsum a po frame f (octets ip) (to_be16 port) Hdir Hframe Hflow
    new_ip_ok new_port_ok m Hdis Hm Hl) as E.
  pose proof (rewritten_addr a po frame f (octets ip) (to_be16 port) Hdir Hflow new_ip_ok new_port_ok) as Ea.
  assert (slice (f_ip_off f + a) 4 frame = octets (f_ip f)) as Eo by (eapply old_addr; eauto).
  assert (∀ a' po', direction a' po' → a' ≠ a →
    slice (f_ip_off f + a') 4 frame' = slice (f_ip_off f + a') 4 frame) as Eoth.
  { intros a' po' Hd Hne. by apply (rewritten_other a po frame f (octets ip) (to_be16 port)
      Hdir Hflow new_ip_ok new_port_ok a' po'). }
  unfold segment_sum, pseudo_sum. rewrite !length_slice by lia. fold frame' in E, Ea.
  rewrite <- Z.add_mod_idemp_r, E, Z.add_mod_idemp_r by lia.
  destruct Hdir as [[-> ->]|[-> ->]]; f_equal; rewrite Ea, Eo.
  - rewrite (Eoth 16%nat 2%nat) by (done || by right). lia.
  - rewrite (Eoth 12%nat 0%nat) by (done || by left). lia.
Qed.

Lemma rewritten_segment_check m :
  ¬ cksum_disabled f frame → (l4_min (f_l4 f) ≤ m)%nat → (f_l4_off f + m ≤ length frame)%nat →
  Z.of_nat m ≤ 65535 → segment_check f m frame' = 0 ↔ segment_check f m frame = 0.
Proof.
  intros Hdis Hm Hl Hm'. pose proof (offsets a po frame f Hdir Hflow) as Hof.
  assert (length frame' = length frame) as El by (by apply length_rewritten).
  destruct (segment_check_valid f m frame) as [-> P]; [done|lia..|].
  destruct (segment_check_valid f m frame') as [-> P']; [by apply rewritten_ok|lia..|].
  apply sum_valid_congr; [done..|]. by apply rewritten_segment_sum.
Qed.

End rewritten_checks.

#[local] Hint Resolve new_ip_ok new_port_ok : core.

(** Each translation as one equation per branch. *)
Lemma translate_egress_Some frame n f n' x :
  classify_egress frame = Ret (Some f) → egress n (f_l4 f) (f_ip f) (f_port f) = (n', Some x) →
  translate_egress frame n =
    Ret (rewritten frame 12 0 f (octets (new_src_ip x)) (to_be16 (new_src_port x)), n', Some x).
Proof.
  intros Hc He. unfold translate_egress. rewrite Hc. cbn [mbind outcome_bind]. rewrite He.
  rewrite l4_checksum_field_eq. unfold IP_SRC_OFFSET, IP_CKSUM_OFFSET, L4_SRC_PORT_OFFSET.
  rewrite apply_rewrite_Ret; auto using classify_egress_flow.
Qed.

Lemma translate_egress_None frame n f n' :
  classify_egress frame = Ret (Some f) → egress n (f_l4 f) (f_ip f) (f_port f) = (n', None) →
  translate_egress frame n = Ret (frame, n', None).
Proof. intros Hc He. unfold translate_egress. rewrite Hc. cbn [mbind outcome_bind]. by rewrite He. Qed.

Lemma translate_ingress_Some frame n f ip port :
  classify_ingress frame = Ret (Some f) → ingress n (f_l4 f) (f_port f) = Some (ip, port) →
  translate_ingress frame n =
    Ret (rewritten frame 16 2 f (octets ip) (to_be16 port), Some {| dst_ip := ip; dst_port := port |}).
Proof.
  intros Hc He. unfold translate_ingress. rewrite Hc. cbn [mbind outcome_bind]. rewrite He.
  rewrite l4_checksum_field_eq. unfold IP_DST_OFFSET, IP_CKSUM_OFFSET, L4_DST_PORT_OFFSET.
  rewrite apply_rewrite_Ret; auto using classify_ingress_flow.
Qed.

(** The table after an egress translation is the table after [egress] or the
    table before. *)
Lemma translate_egress_table frame n frame' n' r :
  slice_ok frame → nat_wf n → translate_egress frame n = Ret (frame', n', r) →
  nat_wf n' ∧ wan_ip n' = wan_ip n ∧ port_lo n' = port_lo n ∧ port_hi n' = port_hi n ∧
  fwd n ⊆ fwd n' ∧ rev n ⊆ rev n'.
Proof.
  intros Hf Hn. destruct (classify_egress_total frame) as [[f|] Hc].
  2:{ unfold translate_egress. rewrite Hc. cbn. intros [= <- <- <-]. by split_and!. }
  pose proof (flow_bounds 12 0 frame f dir_egress Hf (classify_egress_flow _ _ Hc)) as [Hip Hport].
  destruct (egress n (f_l4 f) (f_ip f) (f_port f)) as [n1 o] eqn:Ee.
  pose proof (egress_spec _ _ _ _ _ _ Hn Hip Hport Ee) as (?&?&?&?&?&?&_).
  destruct o; [rewrite (translate_egress_Some _ _ _ _ _ Hc Ee)|rewrite (translate_egress_None _ _ _ _ Hc Ee)];
    intros [= <- <- <-]; by split_and!.
Qed.

Lemma nat_step_spec n n' :
  nat_wf n → nat_step n n' →
  nat_wf n' ∧ port_lo n' = port_lo n ∧ port_hi n' = port_hi n ∧ fwd n ⊆ fwd n' ∧ rev n ⊆ rev n'.
Proof.
  intros Hn Hs. inversion Hs as [n0 ip Hip|n0 frame frame' n1 r Hf Ht|]; subst; [| |by split_and!].
  - destruct Hn as [Hw Hr Hnx Hi Hp He]. split_and!; [by constructor|done..].
  - apply translate_egress_table in Ht as (?&?&?&?&?&?); [by split_and!|done..].
Qed.

Lemma nat_steps_spec n n' :
  nat_wf n → rtc nat_step n n' →
  nat_wf n' ∧ port_lo n' = port_lo n ∧ port_hi n' = port_hi n ∧ fwd n ⊆ fwd n' ∧ rev n ⊆ rev n'.
Proof.
  intros Hn H. induction H as [|n1 n2 n3 Hs _ IH]; [by split_and!|].
  apply nat_step_spec in Hs as (H2 & El & Eh & ? & ?); [|done].
  destruct (IH H2) as (? & -> & -> & ? & ?). split_and!; try done; by etrans.
Qed.

Lemma new_wf wan lo hi n : u32 wan → u16 hi → new wan lo hi = Ret n → nat_wf n.
Proof.
  intros Hw Hhi. unfold new, assert_. destruct ((0 <? lo) && (lo <=? hi)) eqn:E; [|done].
  cbn. intros [= <-]. apply andb_true_iff in E as [E1 E2]. apply Z.ltb_lt in E1. apply Z.leb_le in E2.
  split; cbn; try done; lia.
Qed.

Lemma rewritten_classify_egress frame f x y :
  classify_egress frame = Ret (Some f) → u32 x → u16 y →
  let frame' := rewritten frame 12 0 f (octets x) (to_be16 y) in
  classify_egress frame' = Ret (Some (with_endpoint f x y)) ∧
  classify_ingress frame' = classify_ingress frame.
Proof.
  intros Hc Hx Hy. pose proof (classify_egress_flow _ _ Hc) as Ho. cbn zeta.
  set (frame' := rewritten _ _ _ _ _ _).
  assert (classify_egress frame' = Ret (Some (with_endpoint f x y))) as Hc'.
  { rewrite (classify_egress_congr frame frame' f Hc) by (by apply rewritten_layout).
    unfold frame'. rewrite rewritten_addr, rewritten_port by auto.
    by rewrite ip_from_octets, from_to_be16 by done. }
  split; [done|]. rewrite (classify_ingress_of_egress _ _ Hc), (classify_ingress_of_egress _ _ Hc').
  destruct (rewritten_other 12 0 frame f (octets x) (to_be16 y) dir_egress Ho (new_ip_ok x) (new_port_ok y) 16 2)
    as [Ea Ep]; [done..|]. cbn [with_endpoint f_ip_off f_l4_off]. subst frame'. by rewrite Ea, Ep.
Qed.

Lemma rewritten_classify_ingress frame f x y :
  classify_ingress frame = Ret (Some f) → u32 x → u16 y →
  let frame' := rewritten frame 16 2 f (octets x) (to_be16 y) in
  classify_ingress frame' = Ret (Some (with_endpoint f x y)) ∧
  classify_egress frame' = classify_egress frame.
Proof.
  intros Hc Hx Hy. pose proof (classify_ingress_flow _ _ Hc) as Ho. cbn zeta.
  set (frame' := rewritten _ _ _ _ _ _).
  assert (classify_ingress frame' = Ret (Some (with_endpoint f x y))) as Hc'.
  { rewrite (classify_ingress_congr frame frame' f Hc) by (by apply rewritten_layout).
    unfold frame'. rewrite rewritten_addr, rewritten_port by auto.
    by rewrite ip_from_octets, from_to_be16 by done. }
  split; [done|]. rewrite (classify_egress_of_ingress _ _ Hc), (classify_egress_of_ingress _ _ Hc').
  destruct (rewritten_other 16 2 frame f (octets x) (to_be16 y) dir_ingress Ho (new_ip_ok x) (new_port_ok y) 12 0)
    as [Ea Ep]; [done..|]. cbn [with_endpoint f_ip_off f_l4_off]. subst frame'. by rewrite Ea, Ep.
Qed.

(** ** Properties *)

(** A table and frames to run the properties on: a UDP packet from
    10.0.0.5:5000 to 8.8.8.8:53, and the answer to 203.0.113.7:40000. *)
Definition sample_nat : Nat :=
  {| wan_ip := ip4 203 0 113 7; port_lo := 40000; port_hi := 40001; next_port := 40000;
     fwd := ∅; rev := ∅ |}.
Definition sample_eth : bytes := [2;0;0;0;0;1; 2;0;0;0;0;2; 8;0].
Definition sample_frame : bytes :=
  sample_eth ++ [69;0;0;32;0;0;0;0;64;17; 0x60; 0xb9; 10;0;0;5; 8;8;8;8]
    ++ [0x13;0x88;0;53;0;12; 0x34; 0x67; 0xde;0xad;0xbe;0xef].
Definition sample_reply : bytes :=
  sample_eth ++ [69;0;0;32;0;0;0;0;64;17; 0x2e; 0xb6; 8;8;8;8; 203;0;113;7]
    ++ [0;53;0x9c;0x40;0;12; 0x79; 0xab; 0xde;0xad;0xbe;0xef].

Lemma sample_nat_wf : nat_wf sample_nat.
Proof. apply (new_wf (ip4 203 0 113 7) 40000 40001); [decide_now|decide_now|reflexivity]. Qed.

(** C13: in every table reachable from [Nat::new] by address changes and
    translations, the forward and the reverse map are inverse to each other:
    no two internal endpoints of a protocol ever share an external port, and
    every external port lies in the range given to [new]. *)
Theorem nat_table_invariant (wan lo hi : Z) (n0 n : Nat)
    (Hwan : u32 wan) (Hhi : u16 hi) (Hnew : new wan lo hi = Ret n0) (Hsteps : rtc nat_step n0 n) :
  port_lo n = lo ∧ port_hi n = hi ∧
  (∀ p ip port e, fwd n !! (p, ip, port) = Some e ↔
     rev n !! (p, e) = Some {| ep_ip := ip; ep_port := port |}) ∧
  (∀ p ip port e, fwd n !! (p, ip, port) = Some e → lo ≤ e ≤ hi) ∧
  (∀ p ip port ip' port' e, fwd n !! (p, ip, port) = Some e → fwd n !! (p, ip', port') = Some e →
     ip = ip' ∧ port = port').
Proof.
  destruct (nat_steps_spec n0 n (new_wf _ _ _ _ Hwan Hhi Hnew) Hsteps) as ([_ _ _ Hi Hp _] & El & Eh & _).
  unfold new, assert_ in Hnew. case_match; [|done]. injection Hnew as <-. cbn in El, Eh.
  rewrite El, Eh in Hp. split_and!; try done.
  - intros p ip port e Hf. apply Hi in Hf. by eapply Hp.
  - intros p ip port ip' port' e Hf Hf'. apply Hi in Hf, Hf'. rewrite Hf in Hf'. by simplify_eq.
Qed.

Lemma nat_table_invariant_witness :
  ∃ n, rtc nat_step sample_nat n ∧ fwd n !! (17, ip4 10 0 0 5, 5000) = Some 40000 ∧ port_hi n = 40001.
Proof.
  destruct (translate_egress sample_frame sample_nat) as [[[f n] r]|] eqn:E; [|vm_compute in E; discriminate E].
  exists n. assert (rtc nat_step sample_nat n) as Hs.
  { eapply rtc_once, step_egress; [|exact E]. decide_now. }
  split; [exact Hs|]. split; [vm_compute in E; injection E as _ <- _; reflexivity|].
  refine (proj1 (proj2 (nat_table_invariant (ip4 203 0 113 7) 40000 40001 sample_nat n _ _ _ Hs)));
    [decide_now|decide_now|reflexivity].
Defined.

(** C40: the port allocator is sound and complete: it returns a port of the
    range that is free for the protocol and moves its scan position inside the
    range, and it gives up only when every port of the range is taken for that
    protocol, leaving the table as it was. *)
Theorem alloc_port_complete (n : Nat) (proto : Z) (Hwf : nat_wf n) :
  match alloc_port n proto with
  | (n', Some p) => port_lo n ≤ p ≤ port_hi n ∧ rev n !! (proto, p) = None ∧
      port_lo n ≤ next_port n' ≤ port_hi n ∧ n' = set_next_port n (next_port n')
  | (n', None) => n' = n ∧ ∀ p, port_lo n ≤ p ≤ port_hi n → is_Some (rev n !! (proto, p))
  end.
Proof.
  destruct (alloc_port n proto) as [n' o] eqn:E. apply alloc_port_spec in E; [|done].
  destruct o; [|done]. destruct E as (? & ? & c & -> & ?). cbn. split_and!; done || lia.
Qed.

Lemma alloc_port_complete_witness :
  alloc_port sample_nat 17 = (set_next_port sample_nat 40001, Some 40000) ∧
  port_lo sample_nat ≤ 40000 ≤ port_hi sample_nat.
Proof. split; [reflexivity|]. exact (proj1 (alloc_port_complete sample_nat 17 sample_nat_wf)). Defined.

(** A binding lasts: once [egress] has mapped an internal endpoint, then
    after any further translations and address changes [ingress] maps the
    external port back to that endpoint, and [egress] of that endpoint yields
    the same port again with the current WAN address. *)
Theorem egress_ingress_roundtrip (n n1 n2 : Nat) (l4 : L4) (ip port : Z) (x : Egress)
    (Hwf : nat_wf n) (Hip : u32 ip) (Hport : u16 port)
    (He : egress n l4 ip port = (n1, Some x)) (Hsteps : rtc nat_step n1 n2) :
  ingress n2 l4 (new_src_port x) = Some (ip, port) ∧
  egress n2 l4 ip port = (n2, Some {| new_src_ip := wan_ip n2; new_src_port := new_src_port x |}).
Proof.
  destruct (egress_spec _ _ _ _ _ _ Hwf Hip Hport He) as (H1 & _ & _ & _ & _ & _ & _ & _ & Hf).
  destruct (nat_steps_spec n1 n2 H1 Hsteps) as (H2 & _ & _ & Hsub & _).
  eapply lookup_weaken in Hf; [|exact Hsub]. split; [by apply ingress_inverse|].
  unfold egress. by rewrite Hf.
Qed.

Lemma egress_ingress_roundtrip_witness :
  ∃ n1, egress sample_nat L4_Udp (ip4 10 0 0 5) 5000 =
    (n1, Some {| new_src_ip := ip4 203 0 113 7; new_src_port := 40000 |}) ∧
    ingress (set_wan_ip n1 (ip4 198 51 100 1)) L4_Udp 40000 = Some (ip4 10 0 0 5, 5000).
Proof.
  eexists. split; [reflexivity|].
  refine (proj1 (egress_ingress_roundtrip sample_nat _ (set_wan_ip _ (ip4 198 51 100 1)) L4_Udp (ip4 10 0 0 5) 5000
    {| new_src_ip := ip4 203 0 113 7; new_src_port := 40000 |} sample_nat_wf _ _ eq_refl _));
    [decide_now|decide_now|]. apply rtc_once, step_set_wan. decide_now.
Defined.

(** C17: egress translation of any frame terminates without a panic and keeps
    the frame's length.  For a frame that is not a later fragment, either it
    returns a rewrite, and then the frame
    re-classifies as the same flow with source (WAN address, allocated port),
    the destination is untouched and the port is the one bound to the original
    source; or it returns [None] with frame and table untouched, and then the
    frame is not TCP/UDP over IPv4 or every port of the range is taken. *)
Theorem translate_egress_rewrites (frame : bytes) (n : Nat) (Hf : slice_ok frame) (Hwf : nat_wf n) :
  ∃ frame' n' r, translate_egress frame n = Ret (frame', n', r) ∧ length frame' = length frame ∧
  (first_fragment frame = true →
  match r with
  | Some x => ∃ f, classify_egress frame = Ret (Some f) ∧
      classify_egress frame' = Ret (Some (with_endpoint f (wan_ip n) (new_src_port x))) ∧
      classify_ingress frame' = classify_ingress frame ∧
      new_src_ip x = wan_ip n ∧ fwd n' !! (L4_proto (f_l4 f), f_ip f, f_port f) = Some (new_src_port x)
  | None => frame' = frame ∧ n' = n ∧
      (classify_egress frame = Ret None ∨
       ∃ f, classify_egress frame = Ret (Some f) ∧
         ∀ p, port_lo n ≤ p ≤ port_hi n → is_Some (rev n !! (L4_proto (f_l4 f), p)))
  end).
Proof.
  destruct (classify_egress_total frame) as [[f|] Hc].
  2:{ exists frame, n, None. unfold translate_egress. rewrite Hc. cbn. split_and!; auto. }
  pose proof (classify_egress_flow _ _ Hc) as Ho.
  destruct (flow_bounds 12 0 frame f dir_egress Hf Ho) as [Hip Hport].
  destruct (egress n (f_l4 f) (f_ip f) (f_port f)) as [n1 o] eqn:Ee.
  pose proof (egress_spec _ _ _ _ _ _ Hwf Hip Hport Ee) as (_ & Ew & _ & _ & _ & _ & Hr). destruct o as [x|].
  - destruct Hr as (Ex & Hx & Hb). rewrite (translate_egress_Some _ _ _ _ _ Hc Ee).
    eexists _, _, _. split; [reflexivity|]. split; [by apply length_rewritten|]. intros _. exists f.
    destruct (rewritten_classify_egress frame f (wan_ip n) (new_src_port x) Hc) as [E1 E2];
      [apply Hwf|pose proof (wf_range n Hwf); word_lia|]. rewrite Ex. by split_and!.
  - destruct Hr as (-> & _ & Hall). rewrite (translate_egress_None _ _ _ _ Hc Ee).
    exists frame, n, None. split_and!; try done. intros _. split_and!; [done|done|]. right. by exists f.
Qed.

Lemma translate_egress_rewrites_witness :
  slice_ok sample_frame ∧ first_fragment sample_frame = true ∧
  ∃ frame' n' x, translate_egress sample_frame sample_nat = Ret (frame', n', Some x) ∧ length frame' = 46%nat ∧
    ∃ f, classify_egress sample_frame = Ret (Some f) ∧
      classify_egress frame' = Ret (Some (with_endpoint f (ip4 203 0 113 7) (new_src_port x))).
Proof.
  assert (slice_ok sample_frame) as Hs by decide_now. assert (first_fragment sample_frame = true) as Hf by (vm_compute; reflexivity).
  split; [exact Hs|]. split; [exact Hf|].
  destruct (translate_egress_rewrites sample_frame sample_nat Hs sample_nat_wf) as (f & n & [x|] & E & L & H).
  - specialize (H Hf). cbn beta iota in H. destruct H as (fl & H1 & H2 & _).
    exists f, n, x. split; [exact E|]. split; [exact L|]. exists fl. split; [exact H1|exact H2].
  - exfalso. vm_compute in E. discriminate E.
Defined.

(** C15: egress translation preserves checksum validity in both directions: the
    IPv4 header checksum of the rewritten frame verifies exactly when that of
    the original did, and so does the TCP or UDP checksum over its
    pseudo-header for every segment length, unless the packet is UDP with its
    checksum disabled. *)
Theorem translate_egress_checksums (frame frame' : bytes) (n n' : Nat) (x : Egress) (f : Flow)
    (Hf : slice_ok frame) (Hwf : nat_wf n)
    (Ht : translate_egress frame n = Ret (frame', n', Some x)) (Hc : classify_egress frame = Ret (Some f)) :
  (header_check f frame' = 0 ↔ header_check f frame = 0) ∧
  (¬ cksum_disabled f frame → ∀ m, (l4_min (f_l4 f) ≤ m)%nat → (f_l4_off f + m ≤ length frame)%nat →
     Z.of_nat m ≤ 65535 → segment_check f m frame' = 0 ↔ segment_check f m frame = 0) ∧
  (cksum_disabled f frame → cksum_disabled f frame').
Proof.
  pose proof (classify_egress_flow _ _ Hc) as Ho.
  destruct (egress n (f_l4 f) (f_ip f) (f_port f)) as [n1 [y|]] eqn:Ee;
    [rewrite (translate_egress_Some _ _ _ _ _ Hc Ee) in Ht|by rewrite (translate_egress_None _ _ _ _ Hc Ee) in Ht].
  injection Ht as <- <- <-. split; [by apply rewritten_header_check|]. split.
  - intros Hd m ???. by apply rewritten_segment_check.
  - by apply rewritten_disabled.
Qed.

Lemma translate_egress_checksums_witness :
  ∃ frame' n' x f, translate_egress sample_frame sample_nat = Ret (frame', n', Some x) ∧
    classify_egress sample_frame = Ret (Some f) ∧ header_check f sample_frame = 0 ∧
    segment_check f 12 sample_frame = 0 ∧ header_check f frame' = 0 ∧ segment_check f 12 frame' = 0.
Proof.
  destruct (translate_egress sample_frame sample_nat) as [[[frame' n'] [x|]]|] eqn:E; [|vm_compute in E; discriminate E..].
  destruct (classify_egress sample_frame) as [[f|]|] eqn:C; [|vm_compute in C; discriminate C..].
  exists frame', n', x, f. split; [reflexivity|]. split; [reflexivity|].
  assert (slice_ok sample_frame) as Hs by decide_now.
  destruct (translate_egress_checksums sample_frame frame' sample_nat n' x f Hs sample_nat_wf E C) as (Hh & Hg & _).
  vm_compute in C. injection C as <-.
  split; [reflexivity|]. split; [reflexivity|]. split; [by apply Hh|].
  apply Hg; [intros [_ H]; discriminate H|..]; vm_compute; (lia || discriminate || reflexivity).
Defined.

(** C6: return traffic reaches its owner: after an outbound packet of a flow was
    translated, and after any further operations on the table, an inbound
    packet to the allocated external port is rewritten to the original internal
    address and port; its source is untouched, its length kept, and its header
    and transport checksums verify exactly when they did on arrival. *)
Theorem return_traffic_restored (frame frame' g : bytes) (n n1 n2 : Nat) (x : Egress) (f h : Flow)
    (Hf : slice_ok frame) (Hg : slice_ok g) (Hwf : nat_wf n)
    (Hc : classify_egress frame = Ret (Some f))
    (Ht : translate_egress frame n = Ret (frame', n1, Some x))
    (Hsteps : rtc nat_step n1 n2)
    (Hr : classify_ingress g = Ret (Some h)) (Hl4 : f_l4 h = f_l4 f) (Hp : f_port h = new_src_port x) :
  ∃ g', translate_ingress g n2 = Ret (g', Some {| dst_ip := f_ip f; dst_port := f_port f |}) ∧
    length g' = length g ∧
    classify_ingress g' = Ret (Some (with_endpoint h (f_ip f) (f_port f))) ∧
    classify_egress g' = classify_egress g ∧
    (header_check h g' = 0 ↔ header_check h g = 0) ∧
    (¬ cksum_disabled h g → ∀ m, (l4_min (f_l4 h) ≤ m)%nat → (f_l4_off h + m ≤ length g)%nat →
       Z.of_nat m ≤ 65535 → segment_check h m g' = 0 ↔ segment_check h m g = 0).
Proof.
  pose proof (classify_egress_flow _ _ Hc) as Ho. pose proof (classify_ingress_flow _ _ Hr) as Hoh.
  destruct (flow_bounds 12 0 frame f dir_egress Hf Ho) as [Hip Hport].
  destruct (egress n (f_l4 f) (f_ip f) (f_port f)) as [n0 [y|]] eqn:Ee;
    [rewrite (translate_egress_Some _ _ _ _ _ Hc Ee) in Ht|by rewrite (translate_egress_None _ _ _ _ Hc Ee) in Ht].
  injection Ht as _ -> ->.
  destruct (egress_spec _ _ _ _ _ _ Hwf Hip Hport Ee) as (H1 & _ & _ & _ & _ & _ & _ & _ & Hb).
  destruct (nat_steps_spec n1 n2 H1 Hsteps) as (H2 & _ & _ & Hsub & _).
  eapply lookup_weaken in Hb; [|exact Hsub]. rewrite <- Hl4, <- Hp in Hb.
  apply ingress_inverse in Hb; [|done]. rewrite (translate_ingress_Some _ _ _ _ _ Hr Hb).
  destruct (rewritten_classify_ingress g h (f_ip f) (f_port f) Hr Hip Hport) as [E1 E2].
  eexists. split_and!; [reflexivity|by apply length_rewritten|exact E1|exact E2|by apply rewritten_header_check|].
  intros Hd m ???. by apply rewritten_segment_check.
Qed.

Lemma return_traffic_restored_witness :
  ∃ frame' n1 x g', translate_egress sample_frame sample_nat = Ret (frame', n1, Some x) ∧
    translate_ingress sample_reply (set_wan_ip n1 (ip4 1 2 3 4)) =
      Ret (g', Some {| dst_ip := ip4 10 0 0 5; dst_port := 5000 |}).
Proof.
  destruct (translate_egress sample_frame sample_nat) as [[[frame' n1] [x|]]|] eqn:E; [|vm_compute in E; discriminate E..].
  destruct (classify_egress sample_frame) as [[f|]|] eqn:C; [|vm_compute in C; discriminate C..].
  destruct (classify_ingress sample_reply) as [[h|]|] eqn:D; [|vm_compute in D; discriminate D..].
  exists frame', n1, x.
  assert (f_l4 h = f_l4 f) as E4 by (vm_compute in C, D; injection C as <-; injection D as <-; reflexivity).
  assert (f_port h = new_src_port x) as Ep
    by (vm_compute in E, D; injection E as _ _ <-; injection D as <-; reflexivity).
  destruct (return_traffic_restored sample_frame frame' sample_reply sample_nat n1 (set_wan_ip n1 (ip4 1 2 3 4)) x f h
    ltac:(decide_now) ltac:(decide_now) sample_nat_wf C E ltac:(apply rtc_once, step_set_wan; decide_now) D E4 Ep)
    as (g' & Hg' & _).
  exists g'. split; [reflexivity|]. vm_compute in C. injection C as <-. exact Hg'.
Defined.

(** C38: unsolicited inbound traffic is refused: a packet whose external port no
    internal endpoint is bound to (or that is not TCP/UDP over IPv4) yields
    [None] and is left untouched, and every address and port a translation
    does yield belongs to a bound endpoint. *)
Theorem translate_ingress_only_bound (g : bytes) (n : Nat) (Hg : slice_ok g) (Hwf : nat_wf n) :
  ∃ g' r, translate_ingress g n = Ret (g', r) ∧
  match r with
  | Some y => ∃ h, classify_ingress g = Ret (Some h) ∧
      fwd n !! (L4_proto (f_l4 h), dst_ip y, dst_port y) = Some (f_port h)
  | None => g' = g ∧ (classify_ingress g = Ret None ∨
      ∃ h, classify_ingress g = Ret (Some h) ∧ ∀ ip port, fwd n !! (L4_proto (f_l4 h), ip, port) ≠ Some (f_port h))
  end.
Proof.
  destruct (classify_ingress_total g) as [[h|] Hc].
  2:{ exists g, None. unfold translate_ingress. rewrite Hc. cbn. auto. }
  destruct (ingress n (f_l4 h) (f_port h)) as [[ip port]|] eqn:Ei.
  - rewrite (translate_ingress_Some _ _ _ _ _ Hc Ei). eexists _, _. split; [reflexivity|].
    exists h. split; [done|]. by apply ingress_bound in Ei as (_ & _ & ?).
  - exists g, None. unfold translate_ingress. rewrite Hc. cbn. rewrite Ei. split; [done|]. split; [done|].
    right. exists h. split; [done|]. intros ip port Hb. apply ingress_inverse in Hb; congruence.
Qed.

Lemma translate_ingress_only_bound_witness :
  slice_ok sample_reply ∧ ∃ g' r, translate_ingress sample_reply sample_nat = Ret (g', r).
Proof.
  assert (slice_ok sample_reply) as Hs by decide_now. split; [exact Hs|].
  destruct (translate_ingress_only_bound sample_reply sample_nat Hs sample_nat_wf) as (g' & r & E & _).
  exists g', r. exact E.
Defined.

(** A non-initial fragment (fragment offset 185) is classified by the bytes
    where a UDP header would be and rewritten like any other packet. *)
Definition sample_fragment : bytes :=
  sample_eth ++ [69;0;0;32;0;0;0;185;64;17; 0x60; 0; 10;0;0;5; 8;8;8;8]
    ++ [0x13;0x88;0;53;0;12; 0x34; 0x67; 0xde;0xad;0xbe;0xef].

Lemma fragments_are_translated :
  fragment_offset (of_bytes (slice 14 20 sample_fragment)) = 185 ∧
  ∃ frame' n' x, translate_egress sample_fragment sample_nat = Ret (frame', n', Some x).
Proof.
  split; [reflexivity|].
  destruct (translate_egress sample_fragment sample_nat) as [[[f n] [x|]]|] eqn:E; [|vm_compute in E; discriminate E..].
  by exists f, n, x.
Qed.
