(* ===== verification/Neighbor.v ===== *)
(** * ARP neighbor resolution ([src/router/neighbor.rs])

    [NeighborTable]: the cache, the reverse map, and the queue of packets
    pending on each unresolved address, with retransmission and aging.  The
    packet type [P] is a parameter, as in the source.  [SharedNeighbor] runs
    each operation under a lock, so a shared table sees a sequence of whole
    operations: [run]. *)

From S2P Require Import Prelude Wire Ethernet Arp.

Definition MAX_PENDING_PER_IP : nat := 4.
Definition REQUEST_INTERVAL_MS : Z := 1000.
Definition MAX_REQUEST_ATTEMPTS : Z := 3.
Definition CACHE_TTL_MS : Z := 5 * 60 * 1000.

(** ** Time: a monotonic [u64] of milliseconds *)

Abbreviation Tick := Z (only parsing).
(** [saturating_sub]. *)
Definition elapsed_since (now earlier : Tick) : Z := Z.max 0 (now - earlier).

Record CachedEntry := { mac : MacAddr; learned_at : Tick }.

Section neighbor.
Context {P : Type}.

Record Pending := { packets : list P; last_request_at : Tick; attempts : Z }.

Record NeighborTable := {
  our_mac : MacAddr;
  our_ip : Ipv4Addr;
  resolved : gmap MacAddr Ipv4Addr;
  cache : gmap Ipv4Addr CachedEntry;
  pending : gmap Ipv4Addr Pending;
}.

Inductive Action :=
| Forward (mac : MacAddr) (packet : P)
| Queued (request_len : option nat)
| Drop_ (packet : P).

Definition new (m : MacAddr) (ip : Ipv4Addr) : NeighborTable :=
  {| our_mac := m; our_ip := ip; resolved := ∅; cache := ∅; pending := ∅ |}.

Definition set_our_ip (t : NeighborTable) (ip : Ipv4Addr) : NeighborTable :=
  {| our_mac := our_mac t; our_ip := ip; resolved := resolved t; cache := cache t; pending := pending t |}.

Definition known (t : NeighborTable) : nat := size (cache t).
Definition pending_targets (t : NeighborTable) : nat := size (pending t).
Definition lookup_ (t : NeighborTable) (ip : Ipv4Addr) : option MacAddr := mac <$> cache t !! ip.
Definition reverse_lookup (t : NeighborTable) (m : MacAddr) : option Ipv4Addr := resolved t !! m.

Definition insert_ (t : NeighborTable) (ip : Ipv4Addr) (m : MacAddr) (now : Tick) : NeighborTable :=
  {| our_mac := our_mac t; our_ip := our_ip t; resolved := <[m := ip]> (resolved t);
     cache := <[ip := {| mac := m; learned_at := now |}]> (cache t); pending := pending t |}.

Definition set_pending (t : NeighborTable) (ip : Ipv4Addr) (e : Pending) : NeighborTable :=
  {| our_mac := our_mac t; our_ip := our_ip t; resolved := resolved t; cache := cache t;
     pending := <[ip := e]> (pending t) |}.

(** The table, the caller's request buffer and the action. *)
Definition resolve (t : NeighborTable) (target : Ipv4Addr) (packet : P) (req_buf : bytes) (now : Tick)
    : NeighborTable * bytes * Action :=
  match cache t !! target with
  | Some e => (t, req_buf, Forward (mac e) packet)
  | None =>
    let entry := default {| packets := []; last_request_at := now; attempts := 0 |} (pending t !! target) in
    let t := set_pending t target entry in
    if bool_decide (MAX_PENDING_PER_IP ≤ length (packets entry))%nat then (t, req_buf, Drop_ packet)
    else
      let first_miss := bool_decide (packets entry = []) in
      let queue := packets entry ++ [packet] in
      if first_miss then
        let t := set_pending t target {| packets := queue; last_request_at := now; attempts := 1 |} in
        let '(req_buf, r) := build_request req_buf (our_mac t) (our_ip t) target in
        (t, req_buf, Queued r)
      else
        (set_pending t target {| packets := queue; last_request_at := last_request_at entry;
                                 attempts := attempts entry |}, req_buf, Queued None)
  end.

Definition on_arp (t : NeighborTable) (ip : Ipv4Addr) (m : MacAddr) (now : Tick)
    : NeighborTable * option (MacAddr * list P) :=
  let t := insert_ t ip m now in
  let drained := packets <$> pending t !! ip in
  ({| our_mac := our_mac t; our_ip := our_ip t; resolved := resolved t; cache := cache t;
      pending := delete ip (pending t) |},
   match drained with
   | Some (p :: ps) => Some (m, p :: ps)
   | _ => None
   end).

(** The [retain] loop over the pending entries, in iteration order: the entries
    kept, the packets given up and the request frames emitted.  [req] is the
    buffer the loop reuses. *)
Fixpoint sweep_pending (now : Tick) (m : MacAddr) (ip : Ipv4Addr) (l : list (Ipv4Addr * Pending))
    (req : bytes) : list (Ipv4Addr * Pending) * list P * list bytes :=
  match l with
  | [] => ([], [], [])
  | (target, p) :: l =>
    if elapsed_since now (last_request_at p) <? REQUEST_INTERVAL_MS then
      let '(kept, dropped, emitted) := sweep_pending now m ip l req in
      ((target, p) :: kept, dropped, emitted)
    else if MAX_REQUEST_ATTEMPTS <=? attempts p then
      let '(kept, dropped, emitted) := sweep_pending now m ip l req in
      (kept, packets p ++ dropped, emitted)
    else
      let p := {| packets := packets p; last_request_at := now; attempts := attempts p + 1 |} in
      let '(req, r) := build_request req m ip target in
      let '(kept, dropped, emitted) := sweep_pending now m ip l req in
      ((target, p) :: kept, dropped, match r with Some _ => req :: emitted | None => emitted end)
  end.

(** [iter] is the order in which the hash map is traversed.  The result is the
    table, the packets handed back and the frames given to [emit_request]. *)
Definition sweep (iter : gmap Ipv4Addr Pending → list (Ipv4Addr * Pending)) (t : NeighborTable) (now : Tick)
    : NeighborTable * list P * list bytes :=
  let '(kept, dropped, emitted) :=
    sweep_pending now (our_mac t) (our_ip t) (iter (pending t)) (replicate FRAME_LEN 0) in
  let cache' := filter (λ kv, elapsed_since now (learned_at kv.2) < CACHE_TTL_MS) (cache t) in
  let resolved' := filter (λ kv, is_Some (cache' !! kv.2)) (resolved t) in
  ({| our_mac := our_mac t; our_ip := our_ip t; resolved := resolved'; cache := cache';
      pending := list_to_map kept |}, dropped, emitted).

(** ** Operations as values, and runs *)

Inductive op :=
| Insert (ip : Ipv4Addr) (m : MacAddr) (now : Tick)
| Resolve (target : Ipv4Addr) (packet : P) (req_buf : bytes) (now : Tick)
| OnArp (ip : Ipv4Addr) (m : MacAddr) (now : Tick)
| Sweep (now : Tick)
| SetOurIp (ip : Ipv4Addr).

(** The packets an operation takes in and the packets it hands back to its
    caller (forwarded, refused, unblocked or given up). *)
Definition apply_op (iter : gmap Ipv4Addr Pending → list (Ipv4Addr * Pending)) (t : NeighborTable) (o : op)
    : NeighborTable * list P * list P :=
  match o with
  | Insert ip m now => (insert_ t ip m now, [], [])
  | Resolve target p buf now =>
    match resolve t target p buf now with
    | (t, _, Forward _ q) => (t, [p], [q])
    | (t, _, Drop_ q) => (t, [p], [q])
    | (t, _, Queued _) => (t, [p], [])
    end
  | OnArp ip m now =>
    let '(t, r) := on_arp t ip m now in (t, [], match r with Some (_, ps) => ps | None => [] end)
  | Sweep now => let '(t, dropped, _) := sweep iter t now in (t, [], dropped)
  | SetOurIp ip => (set_our_ip t ip, [], [])
  end.

Fixpoint run (iter : gmap Ipv4Addr Pending → list (Ipv4Addr * Pending)) (t : NeighborTable) (ops : list op)
    : NeighborTable * list P * list P :=
  match ops with
  | [] => (t, [], [])
  | o :: ops =>
    let '(t, i, o) := apply_op iter t o in
    let '(t, ins, outs) := run iter t ops in
    (t, i ++ ins, o ++ outs)
  end.

(** ** Invariant *)

Definition pending_wf (p : Pending) : Prop :=
  (1 ≤ length (packets p) ≤ MAX_PENDING_PER_IP)%nat ∧ 1 ≤ attempts p ≤ MAX_REQUEST_ATTEMPTS.

Record table_wf (t : NeighborTable) : Prop := {
  wf_pending : map_Forall (λ _ p, pending_wf p) (pending t);
  wf_resolved : map_Forall (λ _ ip, is_Some (cache t !! ip)) (resolved t);
}.

(** All packets waiting in the table. *)
Definition entry_packets (kv : Ipv4Addr * Pending) : list P := packets kv.2.
Definition queued (t : NeighborTable) : list P := map_to_list (pending t) ≫= entry_packets.

Lemma queued_insert t ip e :
  queued (set_pending t ip e) ≡ₚ packets e ++ (map_to_list (delete ip (pending t)) ≫= entry_packets).
Proof.
  unfold queued, set_pending. cbn [pending]. rewrite <- insert_delete_eq.
  rewrite map_to_list_insert by apply lookup_delete_eq. reflexivity.
Qed.

Lemma queued_lookup t ip e :
  pending t !! ip = Some e →
  queued t ≡ₚ packets e ++ (map_to_list (delete ip (pending t)) ≫= entry_packets).
Proof. intros E. unfold queued. rewrite <- (map_to_list_delete _ _ _ E). reflexivity. Qed.

Lemma queued_lookup_None t ip :
  pending t !! ip = None → queued t = map_to_list (delete ip (pending t)) ≫= entry_packets.
Proof. intros E. unfold queued. by rewrite delete_id. Qed.

(** The sweep's loop, entry by entry. *)
Definition due (now : Tick) (p : Pending) : bool :=
  negb (elapsed_since now (last_request_at p) <? REQUEST_INTERVAL_MS).
Definition exhausted (p : Pending) : bool := MAX_REQUEST_ATTEMPTS <=? attempts p.
Definition retried (now : Tick) (p : Pending) : Pending :=
  {| packets := packets p; last_request_at := now; attempts := attempts p + 1 |}.

(** What becomes of one entry; [None] when it is given up. *)
Definition sweep_entry (now : Tick) (p : Pending) : option Pending :=
  if due now p then if exhausted p then None else Some (retried now p) else Some p.
Definition request_for (t : NeighborTable) (target : Ipv4Addr) : bytes :=
  arp_frame BROADCAST (our_mac t) oper_REQUEST (our_mac t) (our_ip t) UNKNOWN_HARDWARE_ADDR target.

Lemma length_arp_frame m ip target :
  length m = 6%nat →
  length (arp_frame BROADCAST m oper_REQUEST m ip UNKNOWN_HARDWARE_ADDR target) = FRAME_LEN.
Proof. intros Hm. unfold arp_frame. rewrite !length_app, Hm. reflexivity. Qed.

Lemma sweep_pending_spec now m ip l req :
  length m = 6%nat → length req = FRAME_LEN →
  sweep_pending now m ip l req =
    (omap (λ kv, pair kv.1 <$> sweep_entry now kv.2) l,
     filter (λ kv, due now kv.2 && exhausted kv.2) l ≫= entry_packets,
     (λ kv, arp_frame BROADCAST m oper_REQUEST m ip UNKNOWN_HARDWARE_ADDR kv.1) <$>
       filter (λ kv, due now kv.2 && negb (exhausted kv.2)) l).
Proof.
  intros Hm. revert req. induction l as [|[target p] l IH]; intros req Hreq; [done|].
  cbn [sweep_pending omap list_omap]. rewrite !filter_cons. cbn [snd fst].
  assert ((elapsed_since now (last_request_at p) <? REQUEST_INTERVAL_MS) = negb (due now p)) as ->
    by (unfold due; by rewrite negb_involutive).
  fold (exhausted p). unfold sweep_entry at 1.
  destruct (due now p); cbn [negb andb]; [|by rewrite IH by done].
  destruct (exhausted p); cbn [negb].
  - rewrite IH by done. done.
  - rewrite build_request_eq by lia. rewrite skipn_all2 by lia. rewrite app_nil_r.
    rewrite IH by (by apply length_arp_frame). done.
Qed.

Lemma omap_keys_sublist (g : Pending → option Pending) (l : list (Ipv4Addr * Pending)) :
  (omap (λ kv, pair kv.1 <$> g kv.2) l).*1 `sublist_of` l.*1.
Proof.
  induction l as [|[k v] l IH]; [done|]. cbn. destruct (g v); cbn; by constructor.
Qed.

Section sweep.
Context (iter : gmap Ipv4Addr Pending → list (Ipv4Addr * Pending)).
Hypothesis iter_perm : ∀ m, iter m ≡ₚ map_to_list m.
Context (t : NeighborTable) (now : Tick).
Hypothesis Hmac : length (our_mac t) = 6%nat.

Lemma iter_keys m : NoDup (iter m).*1.
Proof. rewrite iter_perm. apply NoDup_fst_map_to_list. Qed.

Lemma sweep_table :
  (sweep iter t now).1.1 =
    {| our_mac := our_mac t; our_ip := our_ip t;
       resolved := filter (λ kv, is_Some (filter (λ kv, elapsed_since now (learned_at kv.2) < CACHE_TTL_MS)
         (cache t) !! kv.2)) (resolved t);
       cache := filter (λ kv, elapsed_since now (learned_at kv.2) < CACHE_TTL_MS) (cache t);
       pending := omap (sweep_entry now) (pending t) |}.
Proof.
  unfold sweep. rewrite sweep_pending_spec by done. cbn [fst]. f_equal. apply map_eq. intros ip.
  apply option_eq. intros p. rewrite lookup_omap_Some, <- elem_of_list_to_map.
  - rewrite list_elem_of_omap. split.
    + intros ([k q] & Hq & E). rewrite iter_perm, elem_of_map_to_list in Hq. cbn in E.
      destruct (sweep_entry now q) eqn:Es; simplify_eq/=. eauto.
    + intros (q & Hq & E). exists (ip, q). rewrite iter_perm, elem_of_map_to_list. cbn. by rewrite Hq.
  - eapply sublist_NoDup; [apply (iter_keys (pending t))|apply omap_keys_sublist].
Qed.

Lemma sweep_dropped :
  (sweep iter t now).1.2 ≡ₚ
    filter (λ kv, due now kv.2 && exhausted kv.2) (map_to_list (pending t)) ≫= entry_packets.
Proof. unfold sweep. rewrite sweep_pending_spec by done. cbn [fst snd]. by rewrite iter_perm. Qed.

Lemma sweep_emitted :
  (sweep iter t now).2 ≡ₚ (λ kv, request_for t kv.1) <$>
    filter (λ kv, due now kv.2 && negb (exhausted kv.2)) (map_to_list (pending t)).
Proof. unfold sweep. rewrite sweep_pending_spec by done. cbn [fst snd]. by rewrite iter_perm. Qed.

End sweep.

(** ** Every operation keeps the invariant *)

Lemma insert_wf t ip m now : table_wf t → table_wf (insert_ t ip m now).
Proof.
  intros [Hp Hr]. split; [done|]. cbn. intros m' ip'. rewrite lookup_insert_Some.
  intros [[_ <-]|[_ H]]; [rewrite lookup_insert_eq; eauto|]. apply Hr in H as [e He].
  destruct (decide (ip = ip')) as [->|]; [rewrite lookup_insert_eq|rewrite lookup_insert_ne by done]; eauto.
Qed.

Lemma set_pending_wf t ip e : table_wf t → pending_wf e → table_wf (set_pending t ip e).
Proof. intros [Hp Hr] He. split; [|done]. by apply map_Forall_insert_2. Qed.

Lemma resolve_wf t target p buf now t' buf' a :
  table_wf t → resolve t target p buf now = (t', buf', a) → table_wf t'.
Proof.
  intros Ht. unfold resolve. destruct (cache t !! target); [by intros [= <- <- <-]|].
  set (e := default _ _). intros H.
  assert (pending t !! target = Some e ∧ pending_wf e ∨ pending t !! target = None ∧ packets e = []) as He.
  { subst e. destruct (pending t !! target) as [q|] eqn:E; [left|by right]. split; [done|].
    by apply (wf_pending t Ht) in E. }
  case_bool_decide as Hf.
  - simplify_eq. destruct He as [[E Hwf]|[_ E]]; [by apply set_pending_wf|]. rewrite E in Hf.
    unfold MAX_PENDING_PER_IP in Hf. cbn [length] in Hf. lia.
  - unfold MAX_PENDING_PER_IP in *. case_bool_decide as Hz.
    + destruct (build_request _ _ _ _) as [b r]. simplify_eq. rewrite Hz.
      split; [|by destruct Ht]. cbn. unfold set_pending; cbn. rewrite insert_insert_eq.
      apply map_Forall_insert_2; [|by destruct Ht]. unfold pending_wf, MAX_PENDING_PER_IP, MAX_REQUEST_ATTEMPTS.
      cbn [packets attempts app length]. lia.
    + simplify_eq. destruct He as [[E [Hl Ha]]|[_ E]]; [|done]. unfold set_pending; cbn. rewrite insert_insert_eq.
      split; [|by destruct Ht]. apply map_Forall_insert_2; [|by destruct Ht].
      split; [|done]. cbn. rewrite length_app. cbn. unfold MAX_PENDING_PER_IP. lia.
Qed.

Lemma on_arp_wf t ip m now : table_wf t → table_wf (on_arp t ip m now).1.
Proof.
  intros Ht. destruct (insert_wf t ip m now Ht) as [Hp Hr]. split; [|done].
  unfold on_arp. cbn [fst pending]. by apply map_Forall_delete.
Qed.

Lemma sweep_entry_wf now p q : pending_wf p → sweep_entry now p = Some q → pending_wf q.
Proof.
  unfold sweep_entry, exhausted. intros [Hl Ha]. destruct (due now p); [|by intros [= <-]].
  destruct (Z.leb_spec MAX_REQUEST_ATTEMPTS (attempts p)); [done|]. intros [= <-].
  split; [done|]. cbn. unfold MAX_REQUEST_ATTEMPTS in *. lia.
Qed.

Lemma sweep_wf iter t now :
  (∀ m, iter m ≡ₚ map_to_list m) → length (our_mac t) = 6%nat → table_wf t → table_wf (sweep iter t now).1.1.
Proof.
  intros Hi Hm [Hp Hr]. rewrite sweep_table by done. split; cbn.
  - intros ip p. rewrite lookup_omap_Some. intros (q & Hq & E). eapply sweep_entry_wf; [|done]. by eapply Hp.
  - intros m ip. rewrite map_lookup_filter_Some. by intros [_ ?].
Qed.

(** ** No packet is lost or duplicated *)

Lemma map_to_list_sweep (now : Tick) (m : gmap Ipv4Addr Pending) :
  map_to_list (omap (sweep_entry now) m) ≡ₚ omap (λ kv, pair kv.1 <$> sweep_entry now kv.2) (map_to_list m).
Proof.
  set (l := omap _ (map_to_list m)).
  assert (NoDup l.*1) as Hnd.
  { eapply sublist_NoDup; [apply (NoDup_fst_map_to_list m)|apply omap_keys_sublist]. }
  rewrite <- (map_to_list_to_map (M := gmap Ipv4Addr) l Hnd). f_equiv. apply map_eq. intros ip. apply option_eq. intros p.
  rewrite lookup_omap_Some, <- elem_of_list_to_map by done. unfold l. rewrite list_elem_of_omap. split.
  - intros (q & E & Hq). exists (ip, q). rewrite elem_of_map_to_list. cbn. by rewrite E.
  - intros ([k q] & Hq & E). rewrite elem_of_map_to_list in Hq. cbn in E.
    destruct (sweep_entry now q) eqn:Es; simplify_eq/=. eauto.
Qed.

Lemma sweep_split now (l : list (Ipv4Addr * Pending)) :
  l ≫= entry_packets ≡ₚ
    (filter (λ kv, due now kv.2 && exhausted kv.2) l ≫= entry_packets) ++
    (omap (λ kv, pair kv.1 <$> sweep_entry now kv.2) l ≫= entry_packets).
Proof.
  induction l as [|[k p] l IH]; [done|]. rewrite filter_cons. cbn [omap list_omap fst snd].
  rewrite bind_cons, IH. unfold sweep_entry at 2.
  destruct (due now p), (exhausted p); cbn [andb]; cbn -[app]; unfold entry_packets; cbn [snd packets retried].
  - by rewrite app_assoc.
  - rewrite Permutation_app_swap_app. done.
  - rewrite Permutation_app_swap_app. done.
  - rewrite Permutation_app_swap_app. done.
Qed.

Lemma resolve_conserves t target p buf now t' buf' a :
  table_wf t → resolve t target p buf now = (t', buf', a) →
  p :: queued t ≡ₚ (match a with Forward _ q | Drop_ q => [q] | Queued _ => [] end) ++ queued t'.
Proof.
  intros Ht. unfold resolve. destruct (cache t !! target); [by intros [= <- <- <-]|].
  set (e := default _ _). intros H.
  assert (queued t ≡ₚ packets e ++ (map_to_list (delete target (pending t)) ≫= entry_packets)) as Hq.
  { subst e. destruct (pending t !! target) as [q|] eqn:E; [by apply queued_lookup|].
    by rewrite (queued_lookup_None _ _ E). }
  assert (∀ e', queued (set_pending (set_pending t target e) target e') ≡ₚ
    packets e' ++ (map_to_list (delete target (pending t)) ≫= entry_packets)) as Hs.
  { intros e'. rewrite queued_insert. cbn [pending set_pending]. by rewrite delete_insert_eq. }
  case_bool_decide; [|case_bool_decide as Hz].
  - simplify_eq. rewrite Hq, queued_insert. done.
  - destruct (build_request _ _ _ _). simplify_eq. rewrite Hs, Hq, Hz. done.
  - simplify_eq. rewrite Hs, Hq. cbn [packets]. rewrite <- app_assoc. cbn [app].
    apply Permutation_middle.
Qed.

Lemma on_arp_conserves t ip m now :
  queued t ≡ₚ (match (on_arp t ip m now).2 with Some (_, ps) => ps | None => [] end) ++
    queued (on_arp t ip m now).1.
Proof.
  unfold on_arp. cbn [fst snd insert_ pending]. unfold queued at 2. cbn [pending].
  destruct (pending t !! ip) as [e|] eqn:E; cbn.
  - rewrite (queued_lookup _ _ _ E). by destruct (packets e).
  - by rewrite (queued_lookup_None _ _ E).
Qed.

Section runs.
Context (iter : gmap Ipv4Addr Pending → list (Ipv4Addr * Pending)).
Hypothesis iter_perm : ∀ m, iter m ≡ₚ map_to_list m.

Lemma sweep_conserves t now :
  length (our_mac t) = 6%nat → queued t ≡ₚ (sweep iter t now).1.2 ++ queued (sweep iter t now).1.1.
Proof.
  intros Hm. rewrite sweep_dropped by done. rewrite sweep_table by done. unfold queued. cbn [pending].
  rewrite map_to_list_sweep. apply sweep_split.
Qed.

Lemma apply_op_spec t o t' ins outs :
  table_wf t → length (our_mac t) = 6%nat → apply_op iter t o = (t', ins, outs) →
  table_wf t' ∧ our_mac t' = our_mac t ∧ ins ++ queued t ≡ₚ outs ++ queued t'.
Proof.
  intros Ht Hm. destruct o as [ip m now|target p buf now|ip m now|now|ip]; cbn [apply_op].
  - intros [= <- <- <-]. split_and!; [by apply insert_wf|done|done].
  - destruct (resolve t target p buf now) as [[t1 b] a] eqn:E. intros H.
    assert (t' = t1 ∧ ins = [p] ∧ outs = match a with Forward _ q | Drop_ q => [q] | Queued _ => [] end) as (-> & -> & ->)
      by (by destruct a; simplify_eq).
    split_and!; [by eapply resolve_wf| |by eapply resolve_conserves].
    revert E. unfold resolve. destruct (cache t !! target); [by intros [= <- _ _]|].
    repeat case_bool_decide; [by intros [= <- _ _]| |by intros [= <- _ _]].
    destruct (build_request _ _ _ _). by intros [= <- _ _].
  - destruct (on_arp t ip m now) as [t1 r] eqn:E. intros [= <- <- <-].
    pose proof (on_arp_wf t ip m now Ht) as Hw. pose proof (on_arp_conserves t ip m now) as Hc. rewrite E in Hw, Hc.
    split_and!; [done| |done]. unfold on_arp in E. by simplify_eq.
  - pose proof (sweep_wf iter t now iter_perm Hm Ht) as Hw. pose proof (sweep_conserves t now Hm) as Hc.
    pose proof (sweep_table iter iter_perm t now Hm) as Htb.
    destruct (sweep iter t now) as [[t1 d] em]. intros [= <- <- <-]. cbn [fst snd] in *. split_and!; [done| |done].
    by rewrite Htb.
  - intros [= <- <- <-]. by destruct Ht.
Qed.

Lemma run_spec ops t t' ins outs :
  table_wf t → length (our_mac t) = 6%nat → run iter t ops = (t', ins, outs) →
  table_wf t' ∧ ins ++ queued t ≡ₚ outs ++ queued t'.
Proof.
  revert t ins outs. induction ops as [|o ops IH]; intros t ins outs Ht Hm; cbn [run].
  { by intros [= <- <- <-]. }
  destruct (apply_op iter t o) as [[t1 i] o1] eqn:E. destruct (run iter t1 ops) as [[t2 is2] os2] eqn:R.
  intros [= <- <- <-]. apply apply_op_spec in E as (H1 & Em & P1); [|done..].
  apply IH in R as [H2 P2]; [|done|by rewrite Em]. split; [done|].
  rewrite <- !app_assoc, <- P2, (Permutation_app_swap_app i), P1.
  by rewrite (Permutation_app_swap_app is2).
Qed.

End runs.

(** ** Queueing packets for one target *)

(** [resolve] called for each packet in turn, with a fresh request buffer. *)
Fixpoint resolve_all (t : NeighborTable) (target : Ipv4Addr) (ps : list P) (buf : bytes) (now : Tick)
    : NeighborTable * list Action :=
  match ps with
  | [] => (t, [])
  | p :: ps =>
    let '(t, _, a) := resolve t target p buf now in
    let '(t, l) := resolve_all t target ps buf now in (t, a :: l)
  end.

Lemma resolve_more t target e p buf now :
  cache t !! target = None → pending t !! target = Some e → packets e ≠ [] → (length (packets e) < 4)%nat →
  resolve t target p buf now =
    (set_pending t target {| packets := packets e ++ [p]; last_request_at := last_request_at e;
       attempts := attempts e |}, buf, Queued None).
Proof.
  intros Hc He Hne Hl. unfold resolve. rewrite Hc, He. cbn [from_option]. unfold id.
  rewrite bool_decide_false by (unfold MAX_PENDING_PER_IP; lia). rewrite bool_decide_false by done.
  unfold set_pending. cbn. by rewrite insert_insert_eq.
Qed.

Lemma resolve_all_more target ps buf now t e :
  cache t !! target = None → pending t !! target = Some e → packets e ≠ [] →
  (length (packets e) + length ps ≤ 4)%nat →
  resolve_all t target ps buf now =
    (if decide (ps = []) then t else set_pending t target
       {| packets := packets e ++ ps; last_request_at := last_request_at e; attempts := attempts e |},
     replicate (length ps) (Queued None)).
Proof.
  revert t e. induction ps as [|p ps IH]; intros t e Hc He Hne Hl; cbn [resolve_all length replicate]; [done|].
  cbn [length] in Hl. rewrite (resolve_more t target e p buf now) by (done || lia).
  rewrite (IH _ {| packets := packets e ++ [p]; last_request_at := last_request_at e; attempts := attempts e |});
    [|done|apply lookup_insert_eq|by destruct (packets e)|cbn; rewrite length_app; cbn; lia].
  f_equal. destruct ps as [|q ps]; [done|]. cbn [decide]. unfold set_pending. cbn.
  rewrite insert_insert_eq, <- app_assoc. done.
Qed.

Lemma resolve_first t target p buf now :
  cache t !! target = None → pending t !! target = None → (FRAME_LEN ≤ length buf)%nat →
  resolve t target p buf now =
    (set_pending t target {| packets := [p]; last_request_at := now; attempts := 1 |},
     request_for t target ++ skipn FRAME_LEN buf, Queued (Some FRAME_LEN)).
Proof.
  intros Hc He Hb. unfold resolve. rewrite Hc, He. cbn [from_option packets length].
  rewrite bool_decide_false by (unfold MAX_PENDING_PER_IP; lia). rewrite bool_decide_true by done.
  rewrite build_request_eq by done. unfold set_pending. cbn. by rewrite insert_insert_eq.
Qed.

End neighbor.

Arguments Pending : clear implicits.
Arguments NeighborTable : clear implicits.
Arguments Action : clear implicits.
Arguments op : clear implicits.

(** ** Properties *)

Definition sample_mac : MacAddr := [2; 0; 0; 0; 0; 1].

(** C14: over every run of operations from an empty table, whatever order the
    pending map is traversed in, packets are conserved: those handed to
    [resolve] are, as a multiset, those given back (forwarded, refused,
    released by a reply, or given up by a sweep) together with those still
    queued.  Queues hold one to four packets, attempts stay within one to
    three, and every reverse mapping points to a cached address. *)
Theorem neighbor_packets_conserved {P} (iter : gmap Ipv4Addr (Pending P) → list (Ipv4Addr * Pending P))
    (Hiter : ∀ m, iter m ≡ₚ map_to_list m) (m : MacAddr) (ip : Ipv4Addr) (Hmac : mac_ok m)
    (ops : list (op P)) (t : NeighborTable P) (submitted returned : list P)
    (Hrun : run iter (new m ip) ops = (t, submitted, returned)) :
  submitted ≡ₚ returned ++ queued t ∧
  (∀ target p, pending t !! target = Some p →
     (1 ≤ length (packets p) ≤ MAX_PENDING_PER_IP)%nat ∧ 1 ≤ attempts p ≤ MAX_REQUEST_ATTEMPTS) ∧
  (∀ m' ip', reverse_lookup t m' = Some ip' → is_Some (lookup_ t ip')).
Proof.
  assert (table_wf (new (P := P) m ip)) as H0 by (by split).
  apply run_spec in Hrun as [[Hp Hr] Hc]; [|done..|by apply Hmac].
  split_and!.
  - by rewrite app_nil_r in Hc.
  - intros target p. apply Hp.
  - intros m' ip' H. unfold lookup_. apply fmap_is_Some. by eapply Hr.
Qed.

Lemma neighbor_packets_conserved_witness :
  ∃ t, run map_to_list (new sample_mac 1)
    [Resolve 7 100%nat (replicate 42 0) 0; Resolve 7 101%nat [] 5; Resolve 8 102%nat [] 6; OnArp 7 sample_mac 9]
    = (t, [100; 101; 102]%nat, [100; 101]%nat) ∧ [100; 101; 102]%nat ≡ₚ [100; 101]%nat ++ queued t.
Proof.
  eexists. split; [vm_compute; reflexivity|].
  refine (proj1 (neighbor_packets_conserved map_to_list (λ _, Permutation_refl _) sample_mac 1 _
    [Resolve 7 100%nat (replicate 42 0) 0; Resolve 7 101%nat [] 5; Resolve 8 102%nat [] 6; OnArp 7 sample_mac 9]
    _ _ _ _)); [split; [reflexivity|decide_now]|vm_compute; reflexivity].
Defined.

(** For a target that is neither cached nor pending, up to four packets are
    queued and only the first of them emits an ARP request; the reply releases
    exactly these packets, in arrival order, to the learned MAC, empties the
    queue and makes the mapping visible in both directions. *)
Theorem queued_packets_released_in_order {P} (t : NeighborTable P) (target : Ipv4Addr) (p : P) (ps : list P)
    (buf : bytes) (now now' : Tick) (m : MacAddr)
    (Hc : cache t !! target = None) (Hp : pending t !! target = None)
    (Hlen : (S (length ps) ≤ MAX_PENDING_PER_IP)%nat) (Hbuf : (FRAME_LEN ≤ length buf)%nat) :
  let '(t1, actions) := resolve_all t target (p :: ps) buf now in
  let '(t2, released) := on_arp t1 target m now' in
  actions = Queued (Some FRAME_LEN) :: replicate (length ps) (Queued None) ∧
  released = Some (m, p :: ps) ∧ pending t2 = pending t ∧
  lookup_ t2 target = Some m ∧ reverse_lookup t2 m = Some target.
Proof.
  cbn [resolve_all]. rewrite resolve_first by done.
  rewrite (resolve_all_more target ps buf now _ {| packets := [p]; last_request_at := now; attempts := 1 |});
    [|done|apply lookup_insert_eq|done|cbn; unfold MAX_PENDING_PER_IP in Hlen; lia].
  set (t1 := if decide (ps = []) then _ else _).
  assert (∃ e, t1 = set_pending t target e ∧ packets e = p :: ps) as (e & -> & He).
  { subst t1. destruct (decide (ps = [])) as [->|]; [by eexists|]. unfold set_pending. cbn.
    rewrite insert_insert_eq. by eexists. }
  unfold on_arp, lookup_, reverse_lookup. cbn. rewrite !lookup_insert_eq. cbn. rewrite He.
  split_and!; try done. by rewrite delete_insert_id.
Qed.

Lemma queued_packets_released_in_order_witness :
  (on_arp (resolve_all (new sample_mac 1) 7 [10; 11; 12]%nat (replicate 42 0) 0).1 7 [2;0;0;0;0;9] 3).2
    = Some ([2;0;0;0;0;9], [10; 11; 12]%nat).
Proof.
  pose proof (queued_packets_released_in_order (new sample_mac 1) 7 10%nat [11; 12]%nat (replicate 42 0) 0 3
    [2;0;0;0;0;9] eq_refl eq_refl ltac:(vm_compute; lia) ltac:(vm_compute; lia)) as H.
  destruct (resolve_all _ _ _ _ _) as [t1 l]. cbn [fst]. destruct (on_arp _ _ _ _) as [t2 r].
  destruct H as (_ & H & _). exact H.
Defined.

(** One sweep treats every pending target by its own age and attempts: an
    entry asked less than a second ago is kept, a due entry with attempts left
    is asked again (one more attempt, and exactly one ARP request frame for
    it), a due entry out of attempts is removed and its packets handed back;
    cache entries survive exactly while younger than five minutes. *)
Theorem sweep_by_entry {P} (iter : gmap Ipv4Addr (Pending P) → list (Ipv4Addr * Pending P))
    (Hiter : ∀ m, iter m ≡ₚ map_to_list m) (t t' : NeighborTable P) (now : Tick)
    (dropped : list P) (emitted : list bytes)
    (Hmac : mac_ok (our_mac t)) (Hsweep : sweep iter t now = (t', dropped, emitted)) :
  (∀ ip, pending t' !! ip = p ← pending t !! ip; sweep_entry now p) ∧
  dropped ≡ₚ filter (λ kv, due now kv.2 && exhausted kv.2) (map_to_list (pending t)) ≫= entry_packets ∧
  emitted ≡ₚ (λ kv, request_for t kv.1) <$>
    filter (λ kv, due now kv.2 && negb (exhausted kv.2)) (map_to_list (pending t)) ∧
  (∀ ip e, cache t' !! ip = Some e ↔ cache t !! ip = Some e ∧ elapsed_since now (learned_at e) < CACHE_TTL_MS).
Proof.
  destruct Hmac as [Hm _]. pose proof (sweep_table iter Hiter t now Hm) as Ht.
  pose proof (sweep_dropped iter Hiter t now Hm) as Hd. pose proof (sweep_emitted iter Hiter t now Hm) as He.
  rewrite Hsweep in Ht, Hd, He. cbn [fst snd] in *. subst t'. cbn. split_and!; try done.
  - intros ip. by rewrite lookup_omap.
  - intros ip e. by rewrite map_lookup_filter_Some.
Qed.

(** A table with one due entry, one exhausted entry and one fresh entry. *)
Definition sample_table : NeighborTable nat :=
  {| our_mac := sample_mac; our_ip := 1; resolved := ∅; cache := ∅;
     pending := list_to_map [(7, {| packets := [10]%nat; last_request_at := 0; attempts := 1 |});
       (8, {| packets := [11; 12]%nat; last_request_at := 0; attempts := 3 |});
       (9, {| packets := [13]%nat; last_request_at := 4500; attempts := 1 |})] |}.

Lemma sweep_by_entry_witness :
  ∃ t' emitted, sweep map_to_list sample_table 5000 = (t', [11; 12]%nat, emitted) ∧
    pending t' !! 7 = Some {| packets := [10]%nat; last_request_at := 5000; attempts := 2 |} ∧
    pending t' !! 8 = None.
Proof.
  eexists _, _. split; [vm_compute; reflexivity|].
  match goal with |- pending ?t !! _ = _ ∧ _ =>
    pose proof (sweep_by_entry map_to_list (λ _, Permutation_refl _) sample_table t 5000 [11; 12]%nat _
      ltac:(split; [reflexivity|decide_now]) ltac:(vm_compute; reflexivity)) as (H & _) end.
  split; [rewrite (H 7)|rewrite (H 8)]; vm_compute; reflexivity.
Defined.

(** ** A target that does not answer *)

Section unanswered.
Context {P : Type} (iter : gmap Ipv4Addr (Pending P) → list (Ipv4Addr * Pending P)).
Hypothesis Hiter : ∀ m, iter m ≡ₚ map_to_list m.
Context (target : Ipv4Addr).
Hypothesis Htarget : u32 target.












End unanswered.



