(* ===== verification/Conntrack.v ===== *)
(** * TCP connection tracking ([src/router/conntrack.rs])

    The table of flows keyed by 4-tuple, each with the RFC 9293 state of both
    endpoints, the two transition functions and the operations of [ConnTrack].
    [SharedConnTrack] runs each operation under a spin lock, so a shared table
    sees the operations in some total order: a list of [event]s. *)

From S2P Require Import Prelude Tcp Neighbor.

Record FlowKey := { int_ip : Ipv4Addr; int_port : Z; ext_ip : Ipv4Addr; ext_port : Z }.

#[global] Instance FlowKey_eq_dec : EqDecision FlowKey.
Proof. solve_decision. Defined.
#[global] Program Instance FlowKey_countable : Countable FlowKey :=
  inj_countable' (λ k, (int_ip k, int_port k, ext_ip k, ext_port k))
    (λ '(a, b, c, d), {| int_ip := a; int_port := b; ext_ip := c; ext_port := d |}) _.
Next Obligation. by intros []. Qed.

Inductive TcpState :=
| Closed | Listen | SynSent | SynReceived | Established
| FinWait1 | FinWait2 | CloseWait | Closing | LastAck | TimeWait.

#[global] Instance TcpState_eq_dec : EqDecision TcpState.
Proof. solve_decision. Defined.

Definition idle_timeout_ms (s : TcpState) : Z :=
  match s with
  | Closed => 10000
  | Listen => 60000
  | SynSent | SynReceived => 60000
  | Established => 24 * 60 * 60000
  | FinWait1 | FinWait2 => 60000
  | CloseWait => 60000
  | Closing => 60000
  | LastAck => 30000
  | TimeWait => 120000
  end.

Record Conn := { internal : TcpState; external : TcpState; last_seen : Tick }.

Definition fully_closed (c : Conn) : bool :=
  bool_decide (internal c = Closed) && bool_decide (external c = Closed).

Definition conn_idle_timeout_ms (c : Conn) : Z :=
  Z.max (idle_timeout_ms (internal c)) (idle_timeout_ms (external c)).

(** [flags & bit != 0]. *)
Definition flag_set (flags bit : Z) : bool := negb (Z.land flags bit =? 0).

Definition transition_on_send (state : TcpState) (flags : Z) : TcpState :=
  let syn := flag_set flags flag_SYN in
  let ack := flag_set flags flag_ACK in
  let fin := flag_set flags flag_FIN in
  let rst := flag_set flags flag_RST in
  if rst then Closed
  else match state with
  | Closed => if syn && negb ack then SynSent else state
  | Listen => if syn && ack then SynReceived else state
  | SynReceived => if syn && ack then SynReceived else state
  | Established => if fin then FinWait1 else state
  | CloseWait => if fin then LastAck else state
  | _ => state
  end.

Definition transition_on_recv (state : TcpState) (flags : Z) : TcpState :=
  let syn := flag_set flags flag_SYN in
  let ack := flag_set flags flag_ACK in
  let fin := flag_set flags flag_FIN in
  let rst := flag_set flags flag_RST in
  if rst then Closed
  else match state with
  | Closed => if syn && negb ack then SynReceived else state
  | Listen => if syn && negb ack then SynReceived else state
  | SynSent => if syn && ack then Established else if syn then SynReceived else state
  | SynReceived => if ack && negb fin then Established else state
  | Established => if fin then CloseWait else state
  | FinWait1 => if fin && ack then TimeWait else if fin then Closing else if ack then FinWait2 else state
  | FinWait2 => if fin then TimeWait else state
  | Closing => if ack then TimeWait else state
  | LastAck => if ack then Closed else state
  | _ => state
  end.

(** ** The table *)

Record ConnTrack := { flows : gmap FlowKey Conn }.

Definition new : ConnTrack := {| flows := ∅ |}.
Definition len (c : ConnTrack) : nat := size (flows c).
Definition is_empty (c : ConnTrack) : bool := bool_decide (size (flows c) = 0%nat).

Definition observe_egress (ct : ConnTrack) (key : FlowKey) (flags : Z) (now : Tick)
    : ConnTrack * (TcpState * TcpState) :=
  let conn := default {| internal := Closed; external := Closed; last_seen := now |} (flows ct !! key) in
  let conn := {| internal := transition_on_send (internal conn) flags;
                 external := transition_on_recv (external conn) flags; last_seen := now |} in
  let flows1 := <[key := conn]> (flows ct) in
  let states := (internal conn, external conn) in
  if fully_closed conn then ({| flows := delete key flows1 |}, states) else ({| flows := flows1 |}, states).

Definition check_ingress (ct : ConnTrack) (key : FlowKey) (flags : Z) (now : Tick) : ConnTrack * bool :=
  match flows ct !! key with
  | None => (ct, false)
  | Some conn =>
    if fully_closed conn then (ct, false)
    else
      let conn := {| internal := transition_on_recv (internal conn) flags;
                     external := transition_on_send (external conn) flags; last_seen := now |} in
      let flows1 := <[key := conn]> (flows ct) in
      if fully_closed conn then ({| flows := delete key flows1 |}, true) else ({| flows := flows1 |}, true)
  end.

Definition sweep (ct : ConnTrack) (now : Tick) : ConnTrack :=
  {| flows := filter (λ kv, elapsed_since now (last_seen kv.2) < conn_idle_timeout_ms kv.2) (flows ct) |}.

Definition states (ct : ConnTrack) (key : FlowKey) : option (TcpState * TcpState) :=
  c ← flows ct !! key; Some (internal c, external c).

(** ** Runs *)

Inductive event :=
| Egress (key : FlowKey) (flags : Z) (now : Tick)
| Ingress (key : FlowKey) (flags : Z) (now : Tick)
| Sweep (now : Tick).

(** The table after an event; the verdict is that of [check_ingress], and
    [true] for the operations that have none. *)
Definition apply_event (ct : ConnTrack) (e : event) : ConnTrack * bool :=
  match e with
  | Egress k f now => ((observe_egress ct k f now).1, true)
  | Ingress k f now => check_ingress ct k f now
  | Sweep now => (sweep ct now, true)
  end.

Definition run (ct : ConnTrack) (es : list event) : ConnTrack :=
  foldl (λ ct e, (apply_event ct e).1) ct es.

(** ** Lemmas *)

Definition opening (flags : Z) : bool :=
  flag_set flags flag_SYN && negb (flag_set flags flag_ACK) && negb (flag_set flags flag_RST).

Lemma fully_closed_spec c : fully_closed c = true ↔ internal c = Closed ∧ external c = Closed.
Proof. unfold fully_closed. by rewrite andb_true_iff, !bool_decide_eq_true. Qed.

(** Case analysis on a flag byte, seen through the four flags the code reads. *)
Ltac flag_cases :=
  repeat match goal with
  | |- context [flag_set ?f ?b] => destruct (flag_set f b)
  end; cbn [andb negb].

Lemma rst_closes s flags :
  flag_set flags flag_RST = true → transition_on_send s flags = Closed ∧ transition_on_recv s flags = Closed.
Proof. intros E. unfold transition_on_send, transition_on_recv. by rewrite E. Qed.

(** From [Closed], only an opening segment moves either endpoint. *)
Lemma closed_moves flags :
  (transition_on_send Closed flags = if opening flags then SynSent else Closed) ∧
  (transition_on_recv Closed flags = if opening flags then SynReceived else Closed).
Proof. unfold transition_on_send, transition_on_recv, opening. by flag_cases. Qed.

Lemma send_closed s flags :
  transition_on_send s flags = Closed → flag_set flags flag_RST = true ∨ s = Closed.
Proof. unfold transition_on_send. destruct s; flag_cases; naive_solver. Qed.

Lemma transitions_not_listen s flags :
  s ≠ Listen → transition_on_send s flags ≠ Listen ∧ transition_on_recv s flags ≠ Listen.
Proof. unfold transition_on_send, transition_on_recv. destruct s; flag_cases; done. Qed.

(** ** Invariant: what a stored flow looks like *)

Definition conn_wf (c : Conn) : Prop :=
  fully_closed c = false ∧ internal c ≠ Listen ∧ external c ≠ Listen.
Definition table_wf (ct : ConnTrack) : Prop := map_Forall (λ _, conn_wf) (flows ct).

Lemma observe_egress_lookup ct key flags now key' :
  flows (observe_egress ct key flags now).1 !! key' =
    if decide (key = key') then
      let c := default {| internal := Closed; external := Closed; last_seen := now |} (flows ct !! key) in
      let c := {| internal := transition_on_send (internal c) flags;
                  external := transition_on_recv (external c) flags; last_seen := now |} in
      if fully_closed c then None else Some c
    else flows ct !! key'.
Proof.
  unfold observe_egress. cbn zeta. case_match; cbn [fst flows]; case_decide; subst;
    rewrite ?lookup_delete_eq, ?lookup_delete_ne, ?lookup_insert_eq, ?lookup_insert_ne by done; done.
Qed.

Lemma check_ingress_lookup ct key flags now key' :
  flows (check_ingress ct key flags now).1 !! key' =
    if decide (key = key') then
      c ← flows ct !! key;
      if fully_closed c then Some c
      else
        let c := {| internal := transition_on_recv (internal c) flags;
                    external := transition_on_send (external c) flags; last_seen := now |} in
        if fully_closed c then None else Some c
    else flows ct !! key'.
Proof.
  unfold check_ingress. destruct (flows ct !! key) as [c|] eqn:E; cbn [mbind option_bind].
  - destruct (fully_closed c) eqn:Ec; [by case_decide; subst|]. case_match; cbn [fst flows]; case_decide; subst;
      rewrite ?lookup_delete_eq, ?lookup_delete_ne, ?lookup_insert_eq, ?lookup_insert_ne by done; done.
  - by case_decide; subst.
Qed.

Lemma sweep_lookup ct now key c :
  flows (sweep ct now) !! key = Some c ↔
  flows ct !! key = Some c ∧ elapsed_since now (last_seen c) < conn_idle_timeout_ms c.
Proof. unfold sweep. cbn. by rewrite map_lookup_filter_Some. Qed.

Lemma default_not_listen ct key now :
  table_wf ct →
  let c := default {| internal := Closed; external := Closed; last_seen := now |} (flows ct !! key) in
  internal c ≠ Listen ∧ external c ≠ Listen.
Proof. intros Ht. cbn. destruct (flows ct !! key) eqn:E; cbn; [by apply Ht in E as (? & ? & ?)|done]. Qed.

Lemma apply_event_wf ct e : table_wf ct → table_wf (apply_event ct e).1.
Proof.
  intros Ht. destruct e as [k f now|k f now|now]; cbn [apply_event fst].
  - intros k' c. rewrite observe_egress_lookup. case_decide; [|by apply Ht].
    destruct (default_not_listen ct k now Ht) as [Hi He]. cbn zeta. case_match eqn:Ec; [done|]. intros [= <-].
    split; [done|]. cbn. split; [apply (transitions_not_listen _ f Hi)|apply (transitions_not_listen _ f He)].
  - intros k' c. rewrite check_ingress_lookup. case_decide; [|by apply Ht]. subst.
    destruct (flows ct !! k') as [c0|] eqn:E; [|done]. apply Ht in E as (Hc & Hi & He). cbn [mbind option_bind].
    rewrite Hc. cbn zeta. case_match eqn:Ec; [done|]. intros [= <-].
    split; [done|]. cbn. split; [apply (transitions_not_listen _ f Hi)|apply (transitions_not_listen _ f He)].
  - intros k c. rewrite sweep_lookup. intros [H _]. by apply Ht in H.
Qed.

Lemma run_wf ct es : table_wf ct → table_wf (run ct es).
Proof.
  unfold run. revert ct. induction es as [|e es IH]; intros ct Ht; cbn; [done|]. by apply IH, apply_event_wf.
Qed.

Lemma new_table_wf : table_wf new.
Proof. intros k c. cbn. by rewrite lookup_empty. Qed.

(** ** The firewall over whole traces *)

(** A segment with RST on the flow, in either direction. *)
Definition rst_on (k : FlowKey) (e : event) : bool :=
  match e with
  | Egress k' f _ | Ingress k' f _ => bool_decide (k = k') && flag_set f flag_RST
  | Sweep _ => false
  end.

(** The LAN host opened the flow with a bare SYN and nobody reset it since. *)
Definition opened (k : FlowKey) (es : list event) : Prop :=
  ∃ pre f now post, es = pre ++ Egress k f now :: post ∧ opening f = true ∧
    Forall (λ e, rst_on k e = false) post.

Lemma opened_snoc k es e : opened k es → rst_on k e = false → opened k (es ++ [e]).
Proof.
  intros (pre & f & now & post & -> & Ho & Hp) He. exists pre, f, now, (post ++ [e]).
  rewrite <- app_assoc. split_and!; [done|done|]. apply Forall_app. auto.
Qed.

Lemma run_snoc ct es e : run ct (es ++ [e]) = (apply_event (run ct es) e).1.
Proof. unfold run. by rewrite foldl_app. Qed.

(** Where a flow present after an event comes from. *)
Lemma flow_origin ct e k :
  table_wf ct → is_Some (flows (apply_event ct e).1 !! k) →
  is_Some (flows ct !! k) ∧ rst_on k e = false ∨ ∃ f now, e = Egress k f now ∧ opening f = true.
Proof.
  intros Ht [c Hc]. destruct e as [k' f now|k' f now|now]; cbn [apply_event fst rst_on] in *.
  - rewrite observe_egress_lookup in Hc. case_decide; subst.
    + rewrite bool_decide_true by done. cbn [andb]. revert Hc. cbn zeta.
      destruct (flag_set f flag_RST) eqn:Er.
      { destruct (rst_closes (internal (default {| internal := Closed; external := Closed; last_seen := now |}
          (flows ct !! k))) f Er) as [-> _].
        destruct (rst_closes (external (default {| internal := Closed; external := Closed; last_seen := now |}
          (flows ct !! k))) f Er) as [_ ->]. done. }
      destruct (flows ct !! k) as [c0|]; cbn [from_option]; [eauto|].
      cbn [internal external]. destruct (closed_moves f) as [-> ->].
      destruct (opening f) eqn:Eo; [eauto|done].
    + left. rewrite bool_decide_false by done. eauto.
  - left. rewrite check_ingress_lookup in Hc. case_decide; subst; [|rewrite bool_decide_false by done; eauto].
    destruct (flows ct !! k) as [c0|] eqn:E; [|done]. split; [eauto|]. rewrite bool_decide_true by done. cbn [andb].
    apply Ht in E as (Ec & _). cbn [mbind option_bind] in Hc. rewrite Ec in Hc.
    destruct (flag_set f flag_RST) eqn:Er; [|done]. revert Hc. cbn zeta.
    destruct (rst_closes (internal c0) f Er) as [_ ->]. by destruct (rst_closes (external c0) f Er) as [-> _].
  - left. apply sweep_lookup in Hc as [Hc _]. eauto.
Qed.

Lemma flow_opened es k : is_Some (flows (run new es) !! k) → opened k es.
Proof.
  induction es as [|e es IH] using rev_ind; [by intros [c Hc]|]. rewrite run_snoc. intros H.
  apply flow_origin in H as [[H Hr]|(f & now & -> & Ho)].
  - apply opened_snoc; auto.
  - exists es, f, now, []. by split_and!.
  - apply run_wf, new_table_wf.
Qed.

(** After these events the flow is in the table, with an endpoint that is not closed. *)
Definition alive (k : FlowKey) (es : list event) : Prop := ∃ c, flows (run new es) !! k = Some c ∧ fully_closed c = false.

(** The LAN host opened the flow with a bare SYN, and since then nobody reset
    it and it was alive all the time. *)
Definition open_since (k : FlowKey) (es : list event) : Prop :=
  ∃ pre f t post, es = pre ++ Egress k f t :: post ∧ opening f = true ∧ Forall (λ e, rst_on k e = false) post ∧
    ∀ post1 post2, post = post1 ++ post2 → alive k (pre ++ Egress k f t :: post1).

Lemma stored_alive es k : is_Some (flows (run new es) !! k) → alive k es.
Proof. intros [c Hc]. exists c. split; [done|]. by apply (run_wf new es new_table_wf) in Hc as [? _]. Qed.

Lemma open_since_snoc k es e : open_since k es → rst_on k e = false → alive k (es ++ [e]) → open_since k (es ++ [e]).
Proof.
  intros (pre & f & now & post & -> & Ho & Hp & Hl) He Ha. exists pre, f, now, (post ++ [e]).
  rewrite <- app_assoc in Ha |- *. split_and!; [done|done|apply Forall_app; auto|].
  intros post1 post2 E. destruct post2 as [|x post2 _] using rev_ind; [rewrite app_nil_r in E; by subst|].
  rewrite app_assoc in E. apply app_inj_tail in E as [-> ->]. by eapply Hl.
Qed.

Lemma flow_open_since es k : is_Some (flows (run new es) !! k) → open_since k es.
Proof.
  induction es as [|e es IH] using rev_ind; [by intros [c Hc]|]. intros H. pose proof (stored_alive _ _ H) as Ha.
  rewrite run_snoc in H. apply flow_origin in H as [[H Hr]|(f & now & -> & Ho)].
  - apply open_since_snoc; auto.
  - exists es, f, now, []. split_and!; [done|done|done|]. by intros [|] post2 ?.
  - apply run_wf, new_table_wf.
Qed.

(** ** Properties *)

(** C10: firewall safety: over every interleaving of outbound observations,
    inbound checks and sweeps, an inbound segment is admitted only if the LAN
    host itself opened that very flow with a bare SYN (SYN without ACK or RST)
    earlier, and since then no segment with RST was seen on it in either
    direction and the flow was, after every single event, in the table with an
    endpoint that was not closed: it was neither closed by both ends nor evicted
    for being idle.  And on any table whatever, an entry with both endpoints
    closed admits nothing, and the refusal changes nothing. *)
Theorem ingress_only_on_opened_flows (es : list event) (k : FlowKey) (flags : Z) (now : Tick)
    (Hadmit : (check_ingress (run new es) k flags now).2 = true) :
  open_since k es ∧
  ∀ ct c, flows ct !! k = Some c → internal c = Closed → external c = Closed → check_ingress ct k flags now = (ct, false).
Proof.
  split.
  - apply flow_open_since. unfold check_ingress in Hadmit. destruct (flows (run new es) !! k); [eauto|done].
  - intros ct c Hc Hi He. unfold check_ingress. rewrite Hc. by rewrite (proj2 (fully_closed_spec c)).
Qed.

Definition sample_key : FlowKey :=
  {| int_ip := ip4 10 0 0 5; int_port := 5000; ext_ip := ip4 1 1 1 1; ext_port := 443 |}.

Lemma ingress_only_on_opened_flows_witness :
  open_since sample_key [Egress sample_key 2 0; Sweep 50] ∧
  let stale := {| flows := {[sample_key := {| internal := Closed; external := Closed; last_seen := 0 |}]} |} in
  check_ingress stale sample_key 18 100 = (stale, false).
Proof.
  destruct (ingress_only_on_opened_flows [Egress sample_key 2 0; Sweep 50] sample_key 18 100 ltac:(reflexivity)) as [H1 H2].
  split; [exact H1|]. cbn zeta. eapply H2; vm_compute; reflexivity.
Defined.

(** In every reachable table no stored flow has both endpoints closed (such
    flows are removed by the operation that closes them) and no endpoint is
    ever in LISTEN; consequently an inbound segment is admitted exactly when
    its flow is stored. *)
Theorem stored_flows_are_live (es : list event) (k : FlowKey) (flags : Z) (now : Tick) :
  (∀ c, flows (run new es) !! k = Some c →
     fully_closed c = false ∧ internal c ≠ Listen ∧ external c ≠ Listen) ∧
  ((check_ingress (run new es) k flags now).2 = true ↔ is_Some (flows (run new es) !! k)).
Proof.
  pose proof (run_wf new es new_table_wf) as Ht. split; [intros c Hc; by apply Ht in Hc|].
  unfold check_ingress. destruct (flows (run new es) !! k) as [c|] eqn:E; [|by split; [|intros []]].
  apply Ht in E as (-> & _). cbn zeta. split; [eauto|]. by case_match.
Qed.

(** [observe_egress] touches only its own flow; on an unknown flow it
    creates an entry, in states (SYN-SENT, SYN-RECEIVED), exactly for a bare
    SYN and otherwise leaves the table unchanged, and a segment with RST
    removes the flow. *)
Theorem observe_egress_opens (ct : ConnTrack) (k : FlowKey) (flags : Z) (now : Tick) :
  (∀ k', k' ≠ k → flows (observe_egress ct k flags now).1 !! k' = flows ct !! k') ∧
  (flows ct !! k = None →
     flows (observe_egress ct k flags now).1 =
       if opening flags then <[k := {| internal := SynSent; external := SynReceived; last_seen := now |}]> (flows ct)
       else flows ct) ∧
  (flag_set flags flag_RST = true → flows (observe_egress ct k flags now).1 !! k = None).
Proof.
  split_and!.
  - intros k' Hk. rewrite observe_egress_lookup. by case_decide.
  - intros E. unfold observe_egress. rewrite E. cbn zeta. cbn [from_option internal external].
    destruct (closed_moves flags) as [-> ->]. destruct (opening flags); [done|]. cbn.
    by rewrite delete_insert_id.
  - intros Er. rewrite observe_egress_lookup, decide_True by done. cbn zeta.
    set (c := default _ _). destruct (rst_closes (internal c) flags Er) as [-> _].
    by destruct (rst_closes (external c) flags Er) as [_ ->].
Qed.

(** Inbound traffic never creates state: [check_ingress] leaves every other
    flow alone, stores no flow that was not stored, and when it refuses a
    segment the whole table is unchanged. *)
Theorem check_ingress_creates_nothing (ct : ConnTrack) (k : FlowKey) (flags : Z) (now : Tick) :
  (∀ k', k' ≠ k → flows (check_ingress ct k flags now).1 !! k' = flows ct !! k') ∧
  dom (flows (check_ingress ct k flags now).1) ⊆ dom (flows ct) ∧
  ((check_ingress ct k flags now).2 = false → (check_ingress ct k flags now).1 = ct).
Proof.
  split_and!.
  - intros k' Hk. rewrite check_ingress_lookup. by case_decide.
  - intros k'. rewrite !elem_of_dom, check_ingress_lookup. case_decide; subst; [|done].
    destruct (flows ct !! k'); [eauto|done].
  - unfold check_ingress. destruct (flows ct !! k); [|done]. case_match; [done|]. cbn zeta. by case_match.
Qed.

(** An idle sweep keeps exactly the flows whose idle time is below the
    larger of their two endpoints' timeouts, unchanged; in particular no flow
    survives a day without traffic, and none with traffic in the last ten
    seconds is removed. *)
Theorem sweep_evicts_idle (ct : ConnTrack) (now : Tick) :
  (∀ k c, flows (sweep ct now) !! k = Some c ↔
     flows ct !! k = Some c ∧ elapsed_since now (last_seen c) < conn_idle_timeout_ms c) ∧
  (∀ k c, flows (sweep ct now) !! k = Some c → now - last_seen c < 24 * 60 * 60000) ∧
  (∀ k c, flows ct !! k = Some c → now - last_seen c < 10000 → flows (sweep ct now) !! k = Some c).
Proof.
  assert (∀ c, 10000 ≤ conn_idle_timeout_ms c ≤ 24 * 60 * 60000) as Hb.
  { intros c. unfold conn_idle_timeout_ms. by destruct (internal c), (external c). }
  split_and!.
  - intros. apply sweep_lookup.
  - intros k c H. apply sweep_lookup in H as [_ H]. pose proof (Hb c). unfold elapsed_since in H. lia.
  - intros k c H Hn. apply sweep_lookup. split; [done|]. pose proof (Hb c). unfold elapsed_since. lia.
Qed.

(** ** The life of a connection *)

(** Flag bytes by the four flags the tracker reads: SYN, ACK, FIN, RST. *)
Definition flags_are (flags : Z) (syn ack fin rst : bool) : Prop :=
  flag_set flags flag_SYN = syn ∧ flag_set flags flag_ACK = ack ∧
  flag_set flags flag_FIN = fin ∧ flag_set flags flag_RST = rst.

Lemma observe_egress_states ct k flags now :
  (observe_egress ct k flags now).2 =
    let c := default {| internal := Closed; external := Closed; last_seen := now |} (flows ct !! k) in
    (transition_on_send (internal c) flags, transition_on_recv (external c) flags).
Proof. unfold observe_egress. cbn zeta. by case_match. Qed.

(** One step of the pair of states of a flow that stays stored. *)
Lemma egress_step ct k flags now c :
  flows ct !! k = Some c →
  let c' := {| internal := transition_on_send (internal c) flags;
               external := transition_on_recv (external c) flags; last_seen := now |} in
  fully_closed c' = false → flows (apply_event ct (Egress k flags now)).1 !! k = Some c'.
Proof.
  intros E c' Hc. cbn [apply_event fst]. rewrite observe_egress_lookup, decide_True, E by done.
  cbn [from_option]. unfold id. fold c'. cbn zeta. by rewrite Hc.
Qed.
Lemma ingress_step ct k flags now c :
  flows ct !! k = Some c → fully_closed c = false →
  let c' := {| internal := transition_on_recv (internal c) flags;
               external := transition_on_send (external c) flags; last_seen := now |} in
  fully_closed c' = false → flows (apply_event ct (Ingress k flags now)).1 !! k = Some c'.
Proof.
  intros E Hc0 c' Hc. cbn [apply_event]. rewrite check_ingress_lookup, decide_True, E by done.
  cbn [mbind option_bind]. rewrite Hc0. fold c'. cbn zeta. by rewrite Hc.
Qed.

(** Evaluate a transition on flags known by [flags_are]. *)
Ltac eval_transition :=
  repeat match goal with H : flags_are _ _ _ _ _ |- _ => destruct H as (? & ? & ? & ?) end;
  unfold transition_on_send, transition_on_recv; cbn [internal external];
  repeat match goal with H : flag_set _ _ = _ |- _ => rewrite H; clear H end; cbn.

(** The three-way handshake and an orderly close initiated by the LAN host
    take a flow through the states RFC 9293 prescribes for the two ends:
    SYN, SYN+ACK, ACK lead an unknown flow to (ESTABLISHED, ESTABLISHED);
    then FIN+ACK, ACK, FIN+ACK, ACK lead it to (TIME-WAIT, CLOSED), whatever
    the other flag bits are, and the flow is still stored then. *)
Theorem handshake_and_close (ct : ConnTrack) (k : FlowKey) (t1 t2 t3 t4 t5 t6 t7 : Tick)
    (syn synack ack fin1 ack1 fin2 ack2 : Z)
    (Hnew : flows ct !! k = None)
    (H1 : flags_are syn true false false false) (H2 : flags_are synack true true false false)
    (H3 : flags_are ack false true false false)
    (H4 : flags_are fin1 false true true false) (H5 : flags_are ack1 false true false false)
    (H6 : flags_are fin2 false true true false) (H7 : flags_are ack2 false true false false) :
  let ct1 := run ct [Egress k syn t1; Ingress k synack t2; Egress k ack t3] in
  let ct2 := run ct1 [Egress k fin1 t4; Ingress k ack1 t5; Ingress k fin2 t6; Egress k ack2 t7] in
  states ct1 k = Some (Established, Established) ∧ states ct2 k = Some (TimeWait, Closed).
Proof.
  cbn zeta. unfold run. cbn [foldl]. set (ct1 := (apply_event _ (Egress k ack t3)).1).
  assert (flows ct1 !! k = Some {| internal := Established; external := Established; last_seen := t3 |}) as E1.
  { assert (flows (apply_event ct (Egress k syn t1)).1 !! k =
      Some {| internal := SynSent; external := SynReceived; last_seen := t1 |}) as Ea.
    { cbn [apply_event fst]. rewrite observe_egress_lookup, decide_True, Hnew by done. cbn [from_option].
      eval_transition. done. }
    eapply (ingress_step _ k synack t2) in Ea; [|done|by eval_transition].
    eapply (egress_step _ k ack t3) in Ea; [|by eval_transition]. unfold ct1. rewrite Ea. by eval_transition. }
  split; [unfold states; by rewrite E1|].
  assert (flows (apply_event (apply_event (apply_event (apply_event ct1 (Egress k fin1 t4)).1 (Ingress k ack1 t5)).1
      (Ingress k fin2 t6)).1 (Egress k ack2 t7)).1 !! k =
    Some {| internal := TimeWait; external := Closed; last_seen := t7 |}) as E2.
  { clearbody ct1.
    eapply (egress_step _ k fin1 t4) in E1; [|by eval_transition].
    eapply (ingress_step _ k ack1 t5) in E1; [|by eval_transition..].
    eapply (ingress_step _ k fin2 t6) in E1; [|by eval_transition..].
    eapply (egress_step _ k ack2 t7) in E1; [|by eval_transition]. rewrite E1. by eval_transition. }
  unfold states. by rewrite E2.
Qed.

Lemma handshake_and_close_witness :
  states (run (run new [Egress sample_key 2 1; Ingress sample_key 18 2; Egress sample_key 16 3])
    [Egress sample_key 17 4; Ingress sample_key 16 5; Ingress sample_key 17 6; Egress sample_key 24 7]) sample_key
    = Some (TimeWait, Closed).
Proof.
  apply (handshake_and_close new sample_key 1 2 3 4 5 6 7 2 18 16 17 16 17 24); repeat split; reflexivity.
Defined.

(** ** Conformance with RFC 9293 *)

(** Arriving segments in the order of RFC 9293, section 3.10.7: first the RST
    bit, then SYN, then ACK, then FIN.  The tracker sees flags only, so a
    segment is taken to be acceptable and to acknowledge all that was sent.  It
    does not see passive opens either: for it a closed endpoint may be listening,
    and one that is reset while it opens passively is closed. *)
Module Rfc.
Definition on_syn (s : TcpState) (ack : bool) : TcpState :=
  match s with
  | Closed | Listen => if ack then s else SynReceived
  | SynSent => if ack then Established else SynReceived
  | _ => s
  end.
Definition on_ack (s : TcpState) : TcpState :=
  match s with
  | SynReceived => Established
  | FinWait1 => FinWait2
  | Closing => TimeWait
  | LastAck => Closed
  | _ => s
  end.
Definition on_fin (s : TcpState) : TcpState :=
  match s with
  | SynReceived | Established => CloseWait
  | FinWait1 => Closing
  | FinWait2 => TimeWait
  | _ => s
  end.
Definition segment_arrives (s : TcpState) (syn ack fin rst : bool) : TcpState :=
  if rst then match s with Listen => Listen | SynSent => if ack then Closed else SynSent | _ => Closed end
  else
    let s1 := if syn then on_syn s ack else s in
    let s2 := if ack then on_ack s1 else s1 in
    if fin then on_fin s2 else s2.


End Rfc.



(** Two segments that are not of the usual kind, for which the RFC says
    otherwise: a FIN with the ACK that ends the handshake (CLOSE-WAIT there), and
    a reset without ACK in SYN-SENT (ignored there). *)
Lemma fin_in_handshake_ignored :
  transition_on_recv SynReceived 17 = SynReceived ∧ Rfc.segment_arrives SynReceived false true true false = CloseWait.
Proof. by split. Qed.
Lemma bare_reset_closes_syn_sent :
  transition_on_recv SynSent 4 = Closed ∧ Rfc.segment_arrives SynSent false false false true = SynSent.
Proof. by split. Qed.
