(* ===== verification/AddrPool.v ===== *)
(** * The address pool ([src/router/pool.rs])

    Free addresses as a sorted vector of disjoint inclusive intervals.  The
    specification is the increasing list of free addresses, [addrs]: [take]
    removes its prefix, [reserve] one element, [release] adds one.  The
    typeclass [FreePool] at the end is what the DHCP server relies on. *)

From stdpp Require Import sorting.
From S2P Require Import Prelude.

Record AddressPool := { start : Ipv4Addr; end_ : Ipv4Addr; intervals : list (Ipv4Addr * Ipv4Addr) }.

Definition new (s e : Ipv4Addr) : outcome AddressPool :=
  _ ← assert_ (s <=? e);
  mret {| start := s; end_ := e; intervals := [(s, e)] |}.

Definition with_intervals (p : AddressPool) (l : list (Ipv4Addr * Ipv4Addr)) : AddressPool :=
  {| start := start p; end_ := end_ p; intervals := l |}.

(** [slice::partition_point]: the number of leading elements satisfying the
    predicate.  The starts are sorted, so the slice is partitioned. *)
Fixpoint partition_point {A} (f : A → bool) (l : list A) : nat :=
  match l with
  | [] => 0
  | x :: l => if f x then S (partition_point f l) else 0
  end.

(** [self.intervals[i]], [Vec::remove] and [Vec::insert]. *)
Definition index {A} (l : list A) (i : nat) : outcome A := expect (l !! i).
Definition vec_remove {A} (l : list A) (i : nat) : list A := firstn i l ++ skipn (S i) l.
Definition vec_insert {A} (l : list A) (i : nat) (x : A) : list A := firstn i l ++ x :: skipn i l.

Definition reserve (p : AddressPool) (addr : Ipv4Addr) : outcome (AddressPool * option Ipv4Addr) :=
  let pos := partition_point (λ iv, iv.1 <=? addr) (intervals p) in
  match pos with
  | O => mret (p, None)
  | S idx =>
    iv ← index (intervals p) idx;
    let '(s, e) := (iv : Z * Z) in
    if e <? addr then mret (p, None)
    else if (s =? addr) && (e =? addr) then
      mret (with_intervals p (vec_remove (intervals p) idx), Some addr)
    else if s =? addr then
      a ← add32 addr 1;
      mret (with_intervals p (<[idx := (a, e)]> (intervals p)), Some addr)
    else if e =? addr then
      a ← sub32 addr 1;
      mret (with_intervals p (<[idx := (s, a)]> (intervals p)), Some addr)
    else
      a ← add32 addr 1;
      b ← sub32 addr 1;
      mret (with_intervals p (<[idx := (s, b)]> (vec_insert (intervals p) (idx + 1) (a, e))), Some addr)
  end.

(** [(e - s + 1) as usize], in [u32] before the cast. *)
Definition span (iv : Ipv4Addr * Ipv4Addr) : outcome nat :=
  d ← sub32 iv.2 iv.1; d ← add32 d 1; mret (Z.to_nat d).

(** The first loop of [take]: the count, which stops once it reaches [n]. *)
Fixpoint count_available (l : list (Ipv4Addr * Ipv4Addr)) (available n : nat) : outcome nat :=
  match l with
  | [] => mret available
  | iv :: l =>
    k ← span iv;
    let available := (available + k)%nat in
    if bool_decide (n ≤ available)%nat then mret available else count_available l available n
  end.

(** The second loop: the addresses handed out and the intervals that remain,
    with the fully consumed ones drained. *)
Fixpoint consume (l : list (Ipv4Addr * Ipv4Addr)) (remaining : nat)
    : outcome (list Ipv4Addr * list (Ipv4Addr * Ipv4Addr)) :=
  match l with
  | [] => mret ([], [])
  | (s, e) :: l =>
    k ← span (s, e);
    if bool_decide (k ≤ remaining)%nat then
      if bool_decide (remaining - k = 0)%nat then mret (seqZ s (Z.of_nat k), l)
      else
        r ← consume l (remaining - k);
        mret (seqZ s (Z.of_nat k) ++ r.1, r.2)
    else
      s' ← add32 s (Z.of_nat remaining `mod` 2 ^ 32);
      mret (seqZ s (Z.of_nat remaining), (s', e) :: l)
  end.

Definition take_ (p : AddressPool) (n : nat) : outcome (AddressPool * option (list Ipv4Addr)) :=
  available ← count_available (intervals p) 0 n;
  if bool_decide (available < n)%nat then mret (p, None)
  else
    r ← consume (intervals p) n;
    mret (with_intervals p r.2, Some r.1).

Definition release (p : AddressPool) (ip : Ipv4Addr) : outcome AddressPool :=
  _ ← assert_ ((start p <=? ip) && (ip <=? end_ p));
  let l := intervals p in
  let pos := partition_point (λ iv, iv.1 <? ip) l in
  left_adj ← (if bool_decide (0 < pos)%nat then iv ← index l (pos - 1); a ← add32 iv.2 1; mret (a =? ip) else mret false);
  right_adj ← (if bool_decide (pos < length l)%nat then iv ← index l pos; a ← add32 ip 1; mret (iv.1 =? a) else mret false);
  match (left_adj, right_adj) : bool * bool with
  | (true, true) =>
    a ← index l (pos - 1); b ← index l pos;
    mret (with_intervals p (vec_remove (<[(pos - 1)%nat := (a.1, b.2)]> l) pos))
  | (true, false) =>
    a ← index l (pos - 1); mret (with_intervals p (<[(pos - 1)%nat := (a.1, ip)]> l))
  | (false, true) =>
    b ← index l pos; mret (with_intervals p (<[pos := (ip, b.2)]> l))
  | (false, false) => mret (with_intervals p (vec_insert l pos (ip, ip)))
  end.

(** ** Specification *)

(** The free addresses, in increasing order when the intervals are well formed. *)
Definition addrs (l : list (Ipv4Addr * Ipv4Addr)) : list Ipv4Addr :=
  l ≫= λ iv, seqZ iv.1 (iv.2 - iv.1 + 1).

(** Sorted from [lo] on, non-empty, disjoint and not adjacent, up to [hi]. *)
Fixpoint sep (lo hi : Z) (l : list (Ipv4Addr * Ipv4Addr)) : Prop :=
  match l with
  | [] => True
  | (s, e) :: l => lo ≤ s ∧ s ≤ e ∧ e ≤ hi ∧ sep (e + 2) hi l
  end.

(** The whole [u32] range is excluded: its size does not fit a [u32]. *)
Definition pool_wf (p : AddressPool) : Prop :=
  u32 (start p) ∧ u32 (end_ p) ∧ start p ≤ end_ p ∧ end_ p - start p < 2 ^ 32 - 1 ∧
  sep (start p) (end_ p) (intervals p).

Definition free (p : AddressPool) : gset Ipv4Addr := list_to_set (addrs (intervals p)).

(** ** Lemmas on intervals *)

(** The first position free of the separation constraint after [l]. *)
Fixpoint after (lo : Z) (l : list (Ipv4Addr * Ipv4Addr)) : Z :=
  match l with
  | [] => lo
  | iv :: l => after (iv.2 + 2) l
  end.

Lemma sep_app lo hi l1 l2 : sep lo hi (l1 ++ l2) ↔ sep lo hi l1 ∧ sep (after lo l1) hi l2.
Proof.
  revert lo. induction l1 as [|[s e] l1 IH]; intros lo; cbn [app sep after snd]; [tauto|]. rewrite IH. tauto.
Qed.

Lemma sep_weaken lo lo' hi l : lo' ≤ lo → sep lo hi l → sep lo' hi l.
Proof. destruct l as [|[s e] l]; cbn; [done|]. intros ? (?&?&?&?). split_and!; try done; lia. Qed.

Lemma after_app lo l1 l2 : after lo (l1 ++ l2) = after (after lo l1) l2.
Proof. revert lo. induction l1 as [|iv l1 IH]; intros lo; cbn; [done|]. apply IH. Qed.

Lemma after_ge lo hi l : sep lo hi l → lo ≤ after lo l.
Proof.
  revert lo. induction l as [|[s e] l IH]; intros lo; cbn; [lia|]. intros (?&?&?&H). apply IH in H. lia.
Qed.

Lemma addrs_app l1 l2 : addrs (l1 ++ l2) = addrs l1 ++ addrs l2.
Proof. unfold addrs. apply bind_app. Qed.
Lemma addrs_cons iv l : addrs (iv :: l) = seqZ iv.1 (iv.2 - iv.1 + 1) ++ addrs l.
Proof. reflexivity. Qed.

Lemma elem_of_interval x s e : x ∈ seqZ s (e - s + 1) ↔ s ≤ x ≤ e.
Proof. rewrite elem_of_seqZ. lia. Qed.

Lemma elem_of_addrs_1 x s e : x ∈ addrs [(s, e)] ↔ s ≤ x ≤ e.
Proof. rewrite addrs_cons, elem_of_app, elem_of_interval. cbn [fst snd addrs mbind list_bind]. set_solver. Qed.

Lemma elem_of_addrs x l : x ∈ addrs l ↔ Exists (λ iv, iv.1 ≤ x ≤ iv.2) l.
Proof.
  induction l as [|iv l IH]; [by rewrite elem_of_nil, Exists_nil|].
  rewrite addrs_cons, elem_of_app, elem_of_interval, Exists_cons, IH. done.
Qed.

Lemma addrs_bounds lo hi l x :
  sep lo hi l → x ∈ addrs l → lo ≤ x ∧ x ≤ hi ∧ x + 2 ≤ after lo l.
Proof.
  revert lo. induction l as [|[s e] l IH]; intros lo Hs; [by rewrite elem_of_nil|].
  destruct Hs as (? & ? & ? & Hs). pose proof (after_ge _ _ _ Hs). cbn [after snd].
  rewrite addrs_cons, elem_of_app, elem_of_interval. cbn [fst snd].
  intros [?|Hx]; [lia|]. apply (IH _ Hs) in Hx. lia.
Qed.

(** [addrs] is strictly increasing. *)
Lemma addrs_sorted lo hi l : sep lo hi l → StronglySorted Z.lt (addrs l).
Proof.
  revert lo. induction l as [|[s e] l IH]; intros lo Hs; [constructor|].
  destruct Hs as (? & ? & ? & Hs). rewrite addrs_cons. cbn [fst snd].
  assert (∀ n k, 0 ≤ k → StronglySorted Z.lt (seqZ n k)) as Hseq.
  { intros n k Hk. revert n. pattern k. apply natlike_ind; [constructor| |done].
    intros x Hx IHx n. rewrite seqZ_cons by lia. replace (Z.pred (Z.succ x)) with x by lia.
    constructor; [apply IHx|]. apply Forall_forall. intros y Hy. apply list_elem_of_In, elem_of_seqZ in Hy. lia. }
  assert (∀ l1 l2, StronglySorted Z.lt l1 → StronglySorted Z.lt l2 →
    (∀ x y, x ∈ l1 → y ∈ l2 → x < y) → StronglySorted Z.lt (l1 ++ l2)) as Happ.
  { intros l1 l2 Hl1 Hl2 H12. induction Hl1 as [|x l1 Hl1 IH1 Hx]; [done|]. cbn. constructor.
    - apply IH1. intros. apply H12; [by apply list_elem_of_further|done].
    - apply Forall_app. split; [done|]. apply Forall_forall. intros y Hy. apply list_elem_of_In in Hy.
      apply H12; [apply list_elem_of_here|done]. }
  apply Happ; [apply Hseq; lia|by eapply IH|]. intros x y Hx Hy. apply elem_of_interval in Hx.
  apply (addrs_bounds _ _ _ _ Hs) in Hy. lia.
Qed.

Lemma partition_point_split {A} (f : A → bool) l :
  ∃ l1 l2, l = l1 ++ l2 ∧ length l1 = partition_point f l ∧ Forall (λ x, f x = true) l1 ∧
    (∀ x l2', l2 = x :: l2' → f x = false).
Proof.
  induction l as [|x l (l1 & l2 & -> & IH2 & IH3 & IH4)]; [by exists [], []|]. cbn.
  destruct (f x) eqn:E.
  - exists (x :: l1), l2. cbn. split_and!; auto.
  - exists [], (x :: l1 ++ l2). split_and!; try done. by intros y l' [= -> _].
Qed.

(** A vector update at a known position. *)
Lemma index_mid {A} (l1 l2 : list A) x : index (l1 ++ x :: l2) (length l1) = Ret x.
Proof. unfold index. by rewrite list_lookup_middle. Qed.
Lemma insert_mid {A} (l1 l2 : list A) x y : <[length l1 := y]> (l1 ++ x :: l2) = l1 ++ y :: l2.
Proof. rewrite <- (Nat.add_0_r (length l1)). by rewrite insert_app_r. Qed.
Lemma vec_remove_mid {A} (l1 l2 : list A) x : vec_remove (l1 ++ x :: l2) (length l1) = l1 ++ l2.
Proof.
  unfold vec_remove. rewrite take_app_length. f_equal. rewrite skipn_app, skipn_all2 by lia.
  replace (S (length l1) - length l1)%nat with 1%nat by lia. done.
Qed.
Lemma vec_insert_mid {A} (l1 l2 : list A) x : vec_insert (l1 ++ l2) (length l1) x = l1 ++ x :: l2.
Proof. unfold vec_insert. by rewrite take_app_length, drop_app_length. Qed.

(** Sets of free addresses by membership. *)
Lemma elem_of_free p x : x ∈ free p ↔ x ∈ addrs (intervals p).
Proof. unfold free. apply elem_of_list_to_set. Qed.

Lemma pool_wf_with p l : pool_wf p → sep (start p) (end_ p) l → pool_wf (with_intervals p l).
Proof. intros (? & ? & ? & ? & _) ?. by split_and!. Qed.

(** ** [reserve] *)

(** What is left of an interval when one address is removed. *)
Definition pieces (s e a : Z) : list (Ipv4Addr * Ipv4Addr) :=
  (if decide (s < a) then [(s, a - 1)] else []) ++ (if decide (a < e) then [(a + 1, e)] else []).

Lemma sep_pieces lo hi s e a l :
  s ≤ a ≤ e → sep lo hi ((s, e) :: l) → sep lo hi (pieces s e a ++ l).
Proof.
  intros ? (? & ? & ? & H). unfold pieces. repeat case_decide; cbn; repeat match goal with |- _ ∧ _ => split end; try lia;
    (eapply sep_weaken; [|exact H]; lia).
Qed.

Lemma elem_of_pieces s e a x : s ≤ a ≤ e → x ∈ addrs (pieces s e a) ↔ s ≤ x ≤ e ∧ x ≠ a.
Proof.
  intros ?. unfold pieces. rewrite addrs_app, elem_of_app.
  repeat case_decide; rewrite ?addrs_cons, ?elem_of_app, ?elem_of_interval; cbn [fst snd addrs mbind list_bind];
    rewrite ?elem_of_nil; lia.
Qed.

(** The branches of [reserve] all compute [pieces]. *)
Lemma reserve_hit p a l1 s e l2 :
  intervals p = l1 ++ (s, e) :: l2 → s ≤ a ≤ e → u32 s → u32 e →
  partition_point (λ iv, iv.1 <=? a) (intervals p) = S (length l1) →
  reserve p a = Ret (with_intervals p (l1 ++ pieces s e a ++ l2), Some a).
Proof.
  intros El Ha Hs He Hp. unfold reserve. rewrite Hp, El, index_mid. cbn [mbind outcome_bind].
  rewrite (proj2 (Z.ltb_ge e a)) by lia. unfold pieces.
  destruct (Z.eqb_spec s a) as [->|Hsa]; cbn [andb].
  - rewrite (decide_False (P := a < a)) by lia. destruct (Z.eqb_spec e a) as [->|Hea].
    + rewrite decide_False, vec_remove_mid by lia. done.
    + rewrite decide_True, add32_Ret by word_lia. cbn [mbind outcome_bind]. by rewrite insert_mid.
  - rewrite decide_True by lia. destruct (Z.eqb_spec e a) as [->|Hea].
    + rewrite decide_False, sub32_Ret by word_lia. cbn [mbind outcome_bind]. by rewrite insert_mid.
    + rewrite decide_True, add32_Ret, sub32_Ret by word_lia. cbn [mbind outcome_bind].
      replace (vec_insert (l1 ++ (s, e) :: l2) (length l1 + 1) (a + 1, e))
        with (l1 ++ (s, e) :: (a + 1, e) :: l2); [by rewrite insert_mid|].
      change (l1 ++ (s, e) :: l2) with (l1 ++ [(s, e)] ++ l2). rewrite app_assoc.
      replace (length l1 + 1)%nat with (length (l1 ++ [(s, e)])) by (rewrite length_app; done).
      rewrite vec_insert_mid, <- app_assoc. done.
Qed.

(** Where an address can be: in the last interval that starts at or before it. *)
Lemma locate (p : AddressPool) a :
  pool_wf p →
  match partition_point (λ iv, iv.1 <=? a) (intervals p) with
  | O => a ∉ addrs (intervals p)
  | S idx => ∃ l1 s e l2, intervals p = l1 ++ (s, e) :: l2 ∧ length l1 = idx ∧ s ≤ a ∧
      sep (start p) (end_ p) l1 ∧ sep (after (start p) l1) (end_ p) ((s, e) :: l2) ∧
      after (start p) l1 ≤ a ∧ (∀ x, x ∈ addrs l2 → a < x)
  end.
Proof.
  intros (Hs & He & Hse & Hsz & Hsep). set (l := intervals p) in *.
  destruct (partition_point_split (λ iv : Z * Z, iv.1 <=? a) l) as (l1 & l2 & El & <- & H1 & H2).
  rewrite El in Hsep. apply sep_app in Hsep as [Hsep1 Hsep2].
  assert (∀ x, x ∈ addrs l2 → a < x) as Hgt.
  { intros x Hx. destruct l2 as [|[s e] l2]; [by rewrite elem_of_nil in Hx|].
    pose proof (H2 _ _ eq_refl) as Hlt. cbn in Hlt. apply Z.leb_gt in Hlt. destruct Hsep2 as (_ & ? & ? & Hsep2).
    assert (sep s (end_ p) ((s, e) :: l2)) as Hs2 by (cbn; split_and!; try done; lia).
    apply (addrs_bounds _ _ _ _ Hs2) in Hx. lia. }
  destruct l1 as [|iv l1 _] using rev_ind.
  - cbn. rewrite El. intros Hx. apply Hgt in Hx. lia.
  - rewrite length_app. cbn. rewrite Nat.add_1_r. destruct iv as [s e]. exists l1, s, e, l2.
    rewrite El, <- app_assoc. apply Forall_app in H1 as [_ H1]. inv_Forall. cbn in H. apply Z.leb_le in H.
    apply sep_app in Hsep1 as [Hsep1 Hse1]. rewrite after_app in Hsep2. cbn in Hse1, Hsep2.
    split_and!; try done; cbn; try (split_and!; try done); lia.
Qed.

Lemma reserve_spec p a :
  pool_wf p →
  ∃ p' r, reserve p a = Ret (p', r) ∧ pool_wf p' ∧ start p' = start p ∧ end_ p' = end_ p ∧
    free p' = free p ∖ {[a]} ∧ r = (if decide (a ∈ free p) then Some a else None) ∧ (r = None → p' = p).
Proof.
  intros Hwf. pose proof (locate p a Hwf) as Hloc. destruct (partition_point _ _) as [|idx] eqn:Epos.
  { exists p, None. unfold reserve. rewrite Epos. rewrite decide_False by (by rewrite elem_of_free).
    split_and!; try done. rewrite <- elem_of_free in Hloc. by rewrite difference_disjoint_L by set_solver. }
  destruct Hloc as (l1 & s & e & l2 & El & <- & Hsa & Hs1 & (Hs2 & Hse & He & Hs3) & Haf & Hgt).
  assert (∀ x, x ∈ free p ↔ x ∈ addrs l1 ∨ s ≤ x ≤ e ∨ x ∈ addrs l2) as Hfree.
  { intros x. by rewrite elem_of_free, El, addrs_app, addrs_cons, !elem_of_app, elem_of_interval. }
  assert (a ∉ addrs l1) as Hn1 by (intros Hx; apply (addrs_bounds _ _ _ _ Hs1) in Hx; lia).
  assert (a ∉ addrs l2) as Hn2 by (intros Hx; apply Hgt in Hx; lia).
  destruct (decide (a ≤ e)) as [Hae|Hae].
  - pose proof Hwf as (? & ? & ? & ? & _). pose proof (after_ge _ _ _ Hs1).
    rewrite (reserve_hit p a l1 s e l2); try done; [|word_lia|word_lia].
    eexists _, _. split; [reflexivity|]. cbn [start end_ with_intervals].
    rewrite decide_True by (rewrite Hfree; lia). split_and!; try done.
    + apply pool_wf_with; [done|]. apply sep_app. split; [done|]. apply sep_pieces; [lia|]. by split_and!.
    + apply set_eq. intros x. rewrite elem_of_difference, elem_of_singleton, Hfree, elem_of_free.
      cbn [intervals with_intervals]. rewrite !addrs_app, !elem_of_app, elem_of_pieces by lia. naive_solver.
  - assert (a ∉ free p) by (rewrite Hfree; naive_solver lia). exists p, None. rewrite decide_False by done.
    split_and!; try done.
    + unfold reserve. rewrite Epos, El, index_mid. cbn [mbind outcome_bind].
      by rewrite (proj2 (Z.ltb_lt e a)) by lia.
    + by rewrite difference_disjoint_L by set_solver.
Qed.

(** ** [take] *)

(** Well-formed intervals that fit the [u32] arithmetic. *)
Definition narrow (lo hi : Z) : Prop := 0 ≤ lo ∧ u32 hi ∧ hi - lo < 2 ^ 32 - 1.

Lemma span_Ret lo hi s e : narrow lo hi → lo ≤ s → s ≤ e → e ≤ hi → span (s, e) = Ret (Z.to_nat (e - s + 1)).
Proof.
  intros (? & ? & ?) ???. unfold span. cbn [fst snd]. rewrite sub32_Ret by lia. cbn [mbind outcome_bind].
  rewrite add32_Ret by word_lia. done.
Qed.

Lemma length_addrs_cons s e l :
  s ≤ e → length (addrs ((s, e) :: l)) = (Z.to_nat (e - s + 1) + length (addrs l))%nat.
Proof. intros. rewrite addrs_cons, length_app, length_seqZ. done. Qed.

Lemma count_available_spec lo hi l av n :
  narrow lo hi → sep lo hi l →
  ∃ k, count_available l av n = Ret k ∧ ((k < n)%nat ↔ (av + length (addrs l) < n)%nat).
Proof.
  intros Hn. revert lo av Hn. induction l as [|[s e] l IH]; intros lo av Hn Hs; cbn [count_available].
  { eexists. split; [reflexivity|]. cbn. lia. }
  destruct Hs as (? & ? & ? & Hs). rewrite (span_Ret lo hi) by done. cbn [mbind outcome_bind].
  rewrite length_addrs_cons by done. case_bool_decide.
  - eexists. split; [reflexivity|]. lia.
  - destruct (IH (e + 2) (av + Z.to_nat (e - s + 1))%nat) as (k & -> & Hk); [|done|].
    + destruct Hn as (? & ? & ?). split_and!; lia || done.
    + eexists. split; [reflexivity|]. rewrite Hk. lia.
Qed.

Lemma consume_spec lo hi l n :
  narrow lo hi → sep lo hi l → (n ≤ length (addrs l))%nat →
  ∃ l', consume l n = Ret (firstn n (addrs l), l') ∧ addrs l' = skipn n (addrs l) ∧ sep lo hi l'.
Proof.
  intros Hn. revert lo n Hn. induction l as [|[s e] l IH]; intros lo n Hn Hs Hl; cbn [consume].
  { exists []. rewrite firstn_nil, skipn_nil. done. }
  destruct Hs as (? & ? & ? & Hs). rewrite (span_Ret lo hi) by done. cbn [mbind outcome_bind].
  rewrite length_addrs_cons in Hl by done.
  assert (length (seqZ s (e - s + 1)) = Z.to_nat (e - s + 1)) as Hlen by apply length_seqZ.
  rewrite addrs_cons. cbn [fst snd]. case_bool_decide as Hk.
  - rewrite Z2Nat.id by lia. rewrite firstn_app, skipn_app, firstn_all2, skipn_all2, Hlen by lia. cbn [app].
    assert (sep lo hi l) as Hs' by (eapply sep_weaken; [|exact Hs]; lia). case_bool_decide as Hz.
    + exists l. rewrite Hz. cbn. by rewrite app_nil_r, drop_0.
    + destruct (IH (e + 2) (n - Z.to_nat (e - s + 1))%nat) as (l' & -> & Ha & Hl'); [|done|lia|].
      { destruct Hn as (? & ? & ?). split_and!; lia || done. }
      exists l'. split_and!; [done|done|]. eapply sep_weaken; [|exact Hl']. lia.
  - destruct Hn as (? & ? & ?). rewrite Z.mod_small, add32_Ret by word_lia. cbn [mbind outcome_bind].
    exists ((s + Z.of_nat n, e) :: l).
    replace (e - s + 1) with (Z.of_nat n + (e - (s + Z.of_nat n) + 1)) by lia.
    rewrite (seqZ_app s) by lia. rewrite <- app_assoc.
    assert (length (seqZ s (Z.of_nat n)) = n) as Hln by (rewrite length_seqZ; lia).
    rewrite take_app_length', drop_app_length' by done. split; [done|]. split; [done|]. cbn. split_and!; lia || done.
Qed.

(** [take n] hands out the [n] smallest free addresses, or nothing. *)
Lemma take_spec p n :
  pool_wf p →
  if decide (n ≤ length (addrs (intervals p)))%nat then
    ∃ p', take_ p n = Ret (p', Some (firstn n (addrs (intervals p)))) ∧ pool_wf p' ∧
      start p' = start p ∧ end_ p' = end_ p ∧ addrs (intervals p') = skipn n (addrs (intervals p))
  else take_ p n = Ret (p, None).
Proof.
  intros Hwf. pose proof Hwf as (Hs & He & Hse & Hsz & Hsep).
  assert (narrow (start p) (end_ p)) as Hn by (split_and!; [word_lia|done|done]).
  unfold take_. destruct (count_available_spec _ _ _ 0 n Hn Hsep) as (k & -> & Hk). cbn [mbind outcome_bind].
  case_decide.
  - rewrite bool_decide_false by lia. destruct (consume_spec _ _ _ n Hn Hsep) as (l' & -> & Ha & Hs'); [done|].
    eexists. split; [reflexivity|]. split; [by apply pool_wf_with|done].
  - by rewrite bool_decide_true by lia.
Qed.

(** ** [release] *)

(** Adding one address next to or between intervals that do not contain it. *)
Lemma release_cases lo hi l ip :
  sep lo hi l → lo ≤ ip ≤ hi → ip ∉ addrs l →
  ∃ l1 l2, l = l1 ++ l2 ∧ length l1 = partition_point (λ iv, iv.1 <? ip) l ∧
    sep lo hi l1 ∧ (∀ s e l1', l1 = l1' ++ [(s, e)] → s ≤ e ∧ e < ip ∧ sep lo hi l1' ∧ after lo l1' ≤ s) ∧
    (∀ s e l2', l2 = (s, e) :: l2' → ip < s ∧ s ≤ e ∧ e ≤ hi ∧ sep (e + 2) hi l2') ∧ (l1 = [] → sep lo hi l2).
Proof.
  intros Hs Hip Hn. destruct (partition_point_split (λ iv : Z * Z, iv.1 <? ip) l) as (l1 & l2 & El & Hp & H1 & H2).
  exists l1, l2. rewrite El in Hs, Hn. pose proof Hs as Hs0. apply sep_app in Hs as [Hs1 Hs2].
  rewrite addrs_app, elem_of_app in Hn. split_and!; try done.
  - intros s e l1' ->. apply Forall_app in H1 as [_ H1]. inv_Forall. cbn in H. apply Z.ltb_lt in H.
    apply sep_app in Hs1 as [Hs1 (? & ? & ? & _)]. split_and!; try done.
    assert (¬ (s ≤ ip ≤ e)) by (intros ?; apply Hn; left; rewrite addrs_app, elem_of_app; right; by rewrite addrs_cons, elem_of_app, elem_of_interval; left).
    lia.
  - intros s e l2' ->. pose proof (H2 _ _ eq_refl) as Hge. cbn in Hge. apply Z.ltb_ge in Hge. destruct Hs2 as (? & ? & ? & ?).
    assert (¬ (s ≤ ip ≤ e)) by (intros ?; apply Hn; right; by rewrite addrs_cons, elem_of_app, elem_of_interval; left).
    split_and!; lia || done.
  - intros ->. done.
Qed.

(** The interval to the left is extended when it ends just before [ip]. *)
Definition left_of (l1 : list (Ipv4Addr * Ipv4Addr)) (ip : Z) : bool :=
  match list.last l1 with Some iv => iv.2 + 1 =? ip | None => false end.
Definition right_of (l2 : list (Ipv4Addr * Ipv4Addr)) (ip : Z) : bool :=
  match head l2 with Some iv => iv.1 =? ip + 1 | None => false end.
Definition merged (l1 l2 : list (Ipv4Addr * Ipv4Addr)) (ip : Z) : list (Ipv4Addr * Ipv4Addr) :=
  (if left_of l1 ip then removelast l1 else l1) ++
  ((if left_of l1 ip then default ip (fst <$> list.last l1) else ip),
   (if right_of l2 ip then default ip (snd <$> head l2) else ip)) ::
  (if right_of l2 ip then tail l2 else l2).

Section release.
Context (lo hi ip : Z) (l1 l2 : list (Ipv4Addr * Ipv4Addr)).
Hypothesis Hs1 : sep lo hi l1.
Hypothesis Hl1 : ∀ s e l1', l1 = l1' ++ [(s, e)] → s ≤ e ∧ e < ip ∧ sep lo hi l1' ∧ after lo l1' ≤ s.
Hypothesis Hl2 : ∀ s e l2', l2 = (s, e) :: l2' → ip < s ∧ s ≤ e ∧ e ≤ hi ∧ sep (e + 2) hi l2'.
Hypothesis Hip : lo ≤ ip ≤ hi.

Lemma merged_left a b l2' :
  (a = if left_of l1 ip then default ip (fst <$> list.last l1) else ip) → ip ≤ b ≤ hi → sep (b + 2) hi l2' →
  let l1' := if left_of l1 ip then removelast l1 else l1 in
  sep lo hi (l1' ++ (a, b) :: l2') ∧ (∀ x, x ∈ addrs l1 ∨ x = ip ↔ x ∈ addrs l1' ∨ a ≤ x ≤ ip) ∧ a ≤ ip.
Proof.
  intros -> Hb Hs2. unfold left_of. destruct l1 as [|[s e] l1' _] using rev_ind.
  { cbn. split_and!; try done; try lia. intros x. rewrite elem_of_nil. lia. }
  destruct (Hl1 s e l1' eq_refl) as (? & ? & ? & ?).
  rewrite last_snoc. cbn [fst snd fmap option_fmap option_map from_option].
  destruct (Z.eqb_spec (e + 1) ip).
  - rewrite removelast_last. unfold id. split_and!; [apply sep_app; cbn; split_and!; done || lia| |lia].
    intros x. rewrite addrs_app, elem_of_app, elem_of_addrs_1.
    assert (s ≤ x ≤ e ∨ x = ip ↔ s ≤ x ≤ ip) by lia. tauto.
  - assert (∀ x, x = ip ↔ ip ≤ x ≤ ip) as Hx by lia. split_and!; [|intros x; by rewrite Hx|lia].
    rewrite <- app_assoc. apply sep_app. cbn. split_and!; done || lia.
Qed.

Lemma merged_right :
  let b := if right_of l2 ip then default ip (snd <$> head l2) else ip in
  let l2' := if right_of l2 ip then tail l2 else l2 in
  ip ≤ b ≤ hi ∧ sep (b + 2) hi l2' ∧ (∀ x, x ∈ addrs l2 ∨ x = ip ↔ x ∈ addrs l2' ∨ ip ≤ x ≤ b).
Proof.
  cbn zeta. unfold right_of. destruct l2 as [|[s e] l2']; cbn [head].
  { split_and!; try done; try lia. intros x. rewrite elem_of_nil. lia. }
  destruct (Hl2 s e l2' eq_refl) as (? & ? & ? & ?). cbn [fst snd fmap option_fmap option_map from_option tail].
  destruct (Z.eqb_spec s (ip + 1)); unfold id.
  - split_and!; try done; try lia. intros x. rewrite addrs_cons, elem_of_app, elem_of_interval. cbn [fst snd].
    assert (s ≤ x ≤ e ∨ x = ip ↔ ip ≤ x ≤ e) by lia. tauto.
  - assert (∀ x, x = ip ↔ ip ≤ x ≤ ip) as Hx by lia. split_and!; try lia; [|intros x; by rewrite Hx].
    cbn. split_and!; done || lia.
Qed.

Lemma merged_spec :
  sep lo hi (merged l1 l2 ip) ∧ ∀ x, x ∈ addrs (merged l1 l2 ip) ↔ x ∈ addrs (l1 ++ l2) ∨ x = ip.
Proof.
  destruct merged_right as (Hb & Hs2 & Hr). unfold merged. set (b := if right_of l2 ip then _ else ip) in *.
  set (l2' := if right_of l2 ip then tail l2 else l2) in *.
  destruct (merged_left _ b l2' eq_refl Hb Hs2) as (Hs & Hl & Ha). split; [done|]. intros x.
  rewrite !addrs_app, addrs_cons, !elem_of_app, elem_of_interval. cbn [fst snd].
  pose proof (Hl x). pose proof (Hr x). set (a := if left_of l1 ip then _ else ip) in *.
  assert (a ≤ x ≤ b ↔ a ≤ x ≤ ip ∨ ip ≤ x ≤ b) by lia. tauto.
Qed.
End release.

Lemma index_last {A} (l1 l2 : list A) x :
  index ((l1 ++ [x]) ++ l2) (length (l1 ++ [x]) - 1) = Ret x.
Proof. rewrite length_app, <- app_assoc. cbn [length app]. rewrite Nat.add_sub. apply index_mid. Qed.
Lemma insert_last {A} (l1 l2 : list A) x y :
  <[(length (l1 ++ [x]) - 1)%nat := y]> ((l1 ++ [x]) ++ l2) = (l1 ++ [y]) ++ l2.
Proof. rewrite length_app, <- !app_assoc. cbn [length app]. rewrite Nat.add_sub. apply insert_mid. Qed.

(** The branches of [release] all compute [merged]. *)
Lemma release_hit p ip l1 l2 :
  intervals p = l1 ++ l2 → length l1 = partition_point (λ iv, iv.1 <? ip) (intervals p) →
  u32 (end_ p) → start p ≤ ip ≤ end_ p →
  (∀ s e l1', l1 = l1' ++ [(s, e)] → e < ip) → (∀ s e l2', l2 = (s, e) :: l2' → ip < s ∧ s ≤ end_ p) →
  release p ip = Ret (with_intervals p (merged l1 l2 ip)).
Proof.
  intros El Hpos Hu Hip Hl1 Hl2. unfold release. rewrite (proj2 (Z.leb_le _ _)), (proj2 (Z.leb_le _ _)) by lia.
  cbn [andb assert_ mbind outcome_bind]. rewrite <- Hpos, El. clear Hpos El.
  assert ((if bool_decide (0 < length l1)%nat then iv ← index (l1 ++ l2) (length l1 - 1); a ← add32 iv.2 1; mret (a =? ip)
    else mret false) = Ret (left_of l1 ip)) as ->.
  { unfold left_of. destruct l1 as [|[s e] l1' _] using rev_ind; [done|]. rewrite last_snoc.
    rewrite bool_decide_true by (rewrite length_app; cbn; lia). rewrite index_last. cbn [mbind outcome_bind snd].
    pose proof (Hl1 _ _ _ eq_refl). by rewrite add32_Ret by word_lia. }
  assert ((if bool_decide (length l1 < length (l1 ++ l2))%nat then iv ← index (l1 ++ l2) (length l1); a ← add32 ip 1; mret (iv.1 =? a)
    else mret false) = Ret (right_of l2 ip)) as ->.
  { unfold right_of. destruct l2 as [|[s e] l2'].
    - rewrite app_nil_r, bool_decide_false by lia. done.
    - rewrite bool_decide_true by (rewrite length_app; cbn; lia). rewrite index_mid. cbn [mbind outcome_bind head fst].
      pose proof (Hl2 _ _ _ eq_refl). by rewrite add32_Ret by word_lia. }
  cbn [mbind outcome_bind]. unfold merged.
  destruct (left_of l1 ip) eqn:EL.
  - unfold left_of in EL. destruct l1 as [|[s e] l1' _] using rev_ind; [done|]. rewrite last_snoc, removelast_last.
    cbn [fmap option_fmap option_map from_option fst]. unfold id. destruct (right_of l2 ip) eqn:ER.
    + destruct l2 as [|[s2 e2] l2']; [done|]. rewrite index_last, index_mid. cbn [mbind outcome_bind fst snd].
      rewrite insert_last. replace (length (l1' ++ [(s, e)])) with (length (l1' ++ [(s, e2)])) by (by rewrite !length_app).
      rewrite vec_remove_mid, <- app_assoc. done.
    + rewrite index_last. cbn [mbind outcome_bind fst snd]. rewrite insert_last, <- app_assoc. done.
  - destruct (right_of l2 ip) eqn:ER.
    + destruct l2 as [|[s2 e2] l2']; [done|]. rewrite index_mid. cbn [mbind outcome_bind snd]. by rewrite insert_mid.
    + by rewrite vec_insert_mid.
Qed.

Lemma release_spec p ip :
  pool_wf p → start p ≤ ip ≤ end_ p → ip ∉ free p →
  ∃ p', release p ip = Ret p' ∧ pool_wf p' ∧ start p' = start p ∧ end_ p' = end_ p ∧ free p' = free p ∪ {[ip]}.
Proof.
  intros Hwf Hip Hn. pose proof Hwf as (Hs & He & Hse & Hsz & Hsep). rewrite elem_of_free in Hn.
  destruct (release_cases _ _ _ _ Hsep Hip Hn) as (l1 & l2 & El & Hpos & Hs1 & Hl1 & Hl2 & _).
  destruct (merged_spec _ _ ip l1 l2 Hs1 Hl1 Hl2 Hip) as [Hm Hx].
  rewrite (release_hit p ip l1 l2); try done.
  - eexists. split; [reflexivity|]. split; [by apply pool_wf_with|]. split_and!; try done.
    apply set_eq. intros x. rewrite elem_of_union, elem_of_singleton, !elem_of_free, El. apply Hx.
  - intros s e l1' E. by apply Hl1 in E as (_ & ? & _).
  - intros s e l2' E. apply Hl2 in E. lia.
Qed.

Lemma release_out_of_bounds p ip : ¬ (start p ≤ ip ≤ end_ p) → release p ip = Panic.
Proof.
  intros H. unfold release. destruct (Z.leb_spec (start p) ip), (Z.leb_spec ip (end_ p)); cbn; done || lia.
Qed.

(** ** What the pool promises to its clients *)

(** A pool of addresses with an abstract set of free ones.  Operations may
    panic; the laws say when they do not. *)
Class FreePool (T : Type) := {
  fp_inv : T → Prop;
  fp_free : T → gset Ipv4Addr;
  fp_bounds : T → Ipv4Addr * Ipv4Addr;
  fp_take1 : T → outcome (T * option Ipv4Addr);
  fp_reserve : T → Ipv4Addr → outcome (T * option Ipv4Addr);
  fp_release : T → Ipv4Addr → outcome T;
  fp_in_bounds : ∀ p x, fp_inv p → x ∈ fp_free p → (fp_bounds p).1 ≤ x ≤ (fp_bounds p).2;
  fp_take1_law : ∀ p, fp_inv p → ∃ p' r, fp_take1 p = Ret (p', r) ∧ fp_inv p' ∧ fp_bounds p' = fp_bounds p ∧
    match r with
    | Some x => x ∈ fp_free p ∧ (∀ y, y ∈ fp_free p → x ≤ y) ∧ fp_free p' = fp_free p ∖ {[x]}
    | None => fp_free p = ∅ ∧ p' = p
    end;
  fp_reserve_law : ∀ p x, fp_inv p → ∃ p' r, fp_reserve p x = Ret (p', r) ∧ fp_inv p' ∧
    fp_bounds p' = fp_bounds p ∧ fp_free p' = fp_free p ∖ {[x]} ∧
    r = (if decide (x ∈ fp_free p) then Some x else None);
  fp_release_law : ∀ p x, fp_inv p → (fp_bounds p).1 ≤ x ≤ (fp_bounds p).2 → x ∉ fp_free p →
    ∃ p', fp_release p x = Ret p' ∧ fp_inv p' ∧ fp_bounds p' = fp_bounds p ∧ fp_free p' = fp_free p ∪ {[x]};
}.

(** [self.pool.take(1)?.into_iter().next()?]. *)
Definition take1 (p : AddressPool) : outcome (AddressPool * option Ipv4Addr) :=
  r ← take_ p 1; mret (r.1, l ← r.2; head l).

Lemma take1_spec p :
  pool_wf p → ∃ p' r, take1 p = Ret (p', r) ∧ pool_wf p' ∧ (start p', end_ p') = (start p, end_ p) ∧
    match r with
    | Some x => x ∈ free p ∧ (∀ y, y ∈ free p → x ≤ y) ∧ free p' = free p ∖ {[x]}
    | None => free p = ∅ ∧ p' = p
    end.
Proof.
  intros Hwf. pose proof (take_spec p 1 Hwf) as Ht. unfold take1.
  pose proof Hwf as (_ & _ & _ & _ & Hsep). apply addrs_sorted in Hsep as Hsort. revert Ht. unfold free.
  destruct (addrs (intervals p)) as [|x l] eqn:El; cbn [length firstn skipn].
  - rewrite decide_False by lia. intros ->. eexists _, _. split; [reflexivity|]. by split_and!.
  - rewrite decide_True by lia. intros (p' & -> & Hwf' & Es & Ee & Ea).
    eexists _, _. split; [reflexivity|]. cbn [fst snd mbind option_bind firstn head]. rewrite Es, Ee, Ea, drop_0.
    inversion Hsort as [|? ? Hl Hx]; subst. rewrite List.Forall_forall in Hx. setoid_rewrite <- list_elem_of_In in Hx.
    split_and!; try done; [set_solver|..].
    + intros y. rewrite list_to_set_cons, elem_of_union, elem_of_singleton, elem_of_list_to_set.
      intros [->|Hy]; [lia|]. apply Hx in Hy. lia.
    + assert (x ∉ l) as Hxl by (intros Hxl; apply Hx in Hxl; lia). rewrite list_to_set_cons. set_solver.
Qed.

#[global] Program Instance AddressPool_FreePool : FreePool AddressPool := {|
  fp_inv := pool_wf;
  fp_free := free;
  fp_bounds p := (start p, end_ p);
  fp_take1 := take1;
  fp_reserve := reserve;
  fp_release := release;
|}.
Next Obligation.
  intros p x (_ & _ & _ & _ & Hs). rewrite elem_of_free. intros Hx. apply (addrs_bounds _ _ _ _ Hs) in Hx.
  cbn [fst snd]. lia.
Qed.
Next Obligation. apply take1_spec. Qed.
Next Obligation.
  intros p x Hp. destruct (reserve_spec p x Hp) as (p' & r & E & Hw & Es & Ee & Ef & Er & _).
  exists p', r. rewrite Es, Ee. by split_and!.
Qed.
Next Obligation.
  intros p x Hp Hx Hn. destruct (release_spec p x Hp Hx Hn) as (p' & E & Hw & Es & Ee & Ef).
  exists p'. rewrite Es, Ee. by split_and!.
Qed.

(** ** Properties *)

Definition sample_pool : AddressPool :=
  {| start := 10; end_ := 20; intervals := [(10, 12); (14, 14); (17, 20)] |}.

Lemma sample_pool_wf : pool_wf sample_pool.
Proof. unfold pool_wf, sample_pool, u32. cbn. lia. Qed.

(** [take n] is all or nothing: with at least [n] free addresses it returns
    the [n] smallest ones in increasing order and leaves exactly the others
    free, and otherwise it returns [None] and leaves the pool as it was; it
    never panics, and the interval invariant is kept. *)
Theorem pool_take_smallest (p : AddressPool) (n : nat) (Hwf : pool_wf p) :
  let all := addrs (intervals p) in
  StronglySorted Z.lt all ∧
  if decide (n ≤ length all)%nat then
    ∃ p', take_ p n = Ret (p', Some (firstn n all)) ∧ pool_wf p' ∧ addrs (intervals p') = skipn n all
  else take_ p n = Ret (p, None).
Proof.
  cbn zeta. split.
  - destruct Hwf as (_ & _ & _ & _ & Hs). by apply addrs_sorted in Hs.
  - pose proof (take_spec p n Hwf) as H. case_decide; [|done]. destruct H as (p' & ? & ? & _ & _ & ?). by exists p'.
Qed.

Lemma pool_take_smallest_witness :
  take_ sample_pool 5 = Ret (with_intervals sample_pool [(18, 20)], Some [10; 11; 12; 14; 17]) ∧
  StronglySorted Z.lt (addrs (intervals sample_pool)).
Proof.
  split; [vm_compute; reflexivity|]. exact (proj1 (pool_take_smallest sample_pool 5 sample_pool_wf)).
Defined.

(** [reserve] refines set subtraction: whatever interval the address lies
    in (at its start, at its end, inside, or alone), the address and only that
    address stops being free; the result tells whether it was free, and the
    invariant (sorted, disjoint, non-adjacent intervals) is kept. *)
Theorem pool_reserve_removes (p : AddressPool) (a : Ipv4Addr) (Hwf : pool_wf p) :
  ∃ p' r, reserve p a = Ret (p', r) ∧ pool_wf p' ∧ free p' = free p ∖ {[a]} ∧
    r = (if decide (a ∈ free p) then Some a else None) ∧ (r = None → p' = p).
Proof. destruct (reserve_spec p a Hwf) as (p' & r & ? & ? & _ & _ & ? & ? & ?). exists p', r. by split_and!. Qed.

Lemma pool_reserve_removes_witness :
  reserve sample_pool 18 = Ret (with_intervals sample_pool [(10, 12); (14, 14); (17, 17); (19, 20)], Some 18) ∧
  ∃ p' r, reserve sample_pool 18 = Ret (p', r) ∧ free p' = free sample_pool ∖ {[18]}.
Proof.
  split; [vm_compute; reflexivity|].
  destruct (pool_reserve_removes sample_pool 18 sample_pool_wf) as (p' & r & E & _ & F & _).
  exists p', r. split; [exact E|exact F].
Defined.

(** [release] of an address of the pool that is not free makes exactly that
    address free again, merging it with the neighbouring intervals so that the
    invariant is kept; an address outside the pool's bounds panics. *)
Theorem pool_release_adds (p : AddressPool) (ip : Ipv4Addr) (Hwf : pool_wf p) (Hn : ip ∉ free p) :
  if decide (start p ≤ ip ≤ end_ p) then
    ∃ p', release p ip = Ret p' ∧ pool_wf p' ∧ free p' = free p ∪ {[ip]}
  else release p ip = Panic.
Proof.
  case_decide; [|by apply release_out_of_bounds].
  destruct (release_spec p ip Hwf) as (p' & ? & ? & _ & _ & ?); [done..|]. by exists p'.
Qed.

Lemma pool_release_adds_witness :
  release sample_pool 13 = Ret (with_intervals sample_pool [(10, 14); (17, 20)]) ∧
  ∃ p', release sample_pool 13 = Ret p' ∧ free p' = free sample_pool ∪ {[13]}.
Proof.
  split; [vm_compute; reflexivity|].
  assert (13 ∉ free sample_pool) as Hn by (apply (bool_decide_unpack _); vm_compute; exact I).
  pose proof (pool_release_adds sample_pool 13 sample_pool_wf Hn) as H.
  rewrite decide_True in H by (cbn; lia). destruct H as (p' & E & _ & F). exists p'. split; [exact E|exact F].
Defined.

(** Taking an address and releasing it restores the set of free addresses:
    no address is leaked or gained by a lease that ends. *)
Theorem pool_take_release_roundtrip (p p' : AddressPool) (x : Ipv4Addr)
    (Hwf : pool_wf p) (Htake : take1 p = Ret (p', Some x)) :
  ∃ p'', release p' x = Ret p'' ∧ pool_wf p'' ∧ free p'' = free p.
Proof.
  destruct (take1_spec p Hwf) as (q & r & E & Hq & Eb & Hr). rewrite Htake in E. simplify_eq.
  destruct Hr as (Hx & _ & Hf). destruct (release_spec q x Hq) as (p'' & ? & ? & _ & _ & Hf'').
  - destruct Hwf as (_ & _ & _ & _ & Hs). rewrite elem_of_free in Hx. apply (addrs_bounds _ _ _ _ Hs) in Hx. lia.
  - rewrite Hf. set_solver.
  - exists p''. split_and!; try done. rewrite Hf'', Hf, difference_union_L. set_solver.
Qed.

Lemma pool_take_release_roundtrip_witness :
  ∃ p', take1 sample_pool = Ret (p', Some 10) ∧ ∃ p'', release p' 10 = Ret p'' ∧ free p'' = free sample_pool.
Proof.
  eexists. split; [vm_compute; reflexivity|].
  destruct (pool_take_release_roundtrip sample_pool _ 10 sample_pool_wf eq_refl) as (p'' & E & _ & F).
  exists p''. split; [exact E|exact F].
Defined.

(** Releasing an address that is already free breaks the invariant: the pool
    then hands the address out twice. *)
Lemma double_release_duplicates :
  ∃ p', release sample_pool 18 = Ret p' ∧ ¬ pool_wf p' ∧
    ∃ p'', take_ p' 9 = Ret (p'', Some [10; 11; 12; 14; 17; 18; 19; 20; 18]).
Proof.
  eexists. split; [vm_compute; reflexivity|]. split.
  - unfold pool_wf. cbn. lia.
  - eexists. vm_compute. reflexivity.
Qed.
