(* ===== verification/Frame.v ===== *)
(** * Building UDP/IPv4 frames ([src/router/frame.rs]) *)

From S2P Require Import Prelude Wire Ethernet Ip Udp Checksum View.

Definition ETH : nat := EthernetHeader_LEN.
Definition IP : nat := Ip.MIN_LEN.
Definition UDP : nat := Udp.LEN.
Definition IP_CKSUM_OFFSET : nat := 10.
Definition UDP_CKSUM_OFFSET : nat := 6.
Definition IPV4_VERSION : Z := 4.
Definition IPV4_IHL_NO_OPTIONS : Z := 5.
Definition DEFAULT_TTL : Z := 64.

Record UdpV4 := {
  src_mac : MacAddr;
  dst_mac : MacAddr;
  src_ip : Ipv4Addr;
  dst_ip : Ipv4Addr;
  src_port : Z;
  dst_port : Z;
  ttl : Z;
}.

Definition frame_len (payload_len : nat) : nat := (ETH + IP + UDP + payload_len)%nat.

(** The header writes: three nested mutable views of the buffer. *)
Definition write_headers (buf : bytes) (p : UdpV4) (ip_len udp_len : nat) : bytes * option unit :=
  mut_from_prefix (T := EthernetHeader) buf
    (λ eth, set_ethertype (Ethernet.set_src (Ethernet.set_dst eth (dst_mac p)) (src_mac p)) ethertype_IPV4)
    (λ rest,
      mut_from_prefix (T := Ipv4Header) rest
        (λ ip,
          let ip := set_version_ihl ip IPV4_VERSION IPV4_IHL_NO_OPTIONS in
          let ip := set_total_len ip (Z.of_nat ip_len `mod` 2 ^ 16) in
          let ip := set_ttl ip (ttl p) in
          let ip := set_protocol ip proto_UDP in
          let ip := Ip.set_src ip (src_ip p) in
          Ip.set_dst ip (dst_ip p))
        (λ rest,
          mut_from_prefix (T := UdpHeader) rest
            (λ udp,
              let udp := set_src_port udp (src_port p) in
              let udp := set_dst_port udp (dst_port p) in
              set_length udp (Z.of_nat udp_len `mod` 2 ^ 16))
            (λ tail, (tail, Some ())))).

(** The buffer after the writes and the returned length. *)
Definition build_udp_ipv4 (buf : bytes) (p : UdpV4) (payload : bytes) : outcome (bytes * option nat) :=
  let total := frame_len (length payload) in
  if bool_decide (length buf < total)%nat then mret (buf, None)
  else
    buf ← copy_range buf 0 (ETH + IP + UDP) (replicate (ETH + IP + UDP) 0);
    let udp_len := (UDP + length payload)%nat in
    let ip_len := (IP + udp_len)%nat in
    match write_headers buf p ip_len udp_len with
    | (buf, None) => mret (buf, None)
    | (buf, Some _) =>
      let payload_off := (ETH + IP + UDP)%nat in
      buf ← copy_range buf payload_off (payload_off + length payload) payload;
      hdr ← get_range buf ETH (ETH + IP);
      let ip_cksum := ipv4_header hdr in
      buf ← copy_range buf (ETH + IP_CKSUM_OFFSET) (ETH + IP_CKSUM_OFFSET + 2) (to_be16 ip_cksum);
      let udp_off := (ETH + IP)%nat in
      seg ← get_range buf udp_off (udp_off + udp_len);
      let udp_cksum := udp_ipv4 (octets (src_ip p)) (octets (dst_ip p)) seg in
      buf ← copy_range buf (udp_off + UDP_CKSUM_OFFSET) (udp_off + UDP_CKSUM_OFFSET + 2) (to_be16 udp_cksum);
      mret (buf, Some total)
    end.

(** ** The bytes of the frame *)

Definition raw_eth (p : UdpV4) : bytes := dst_mac p ++ src_mac p ++ to_be16 ethertype_IPV4.
Definition raw_ip (p : UdpV4) (ip_len : nat) (ck : bytes) : bytes :=
  [69; 0] ++ to_be16 (Z.of_nat ip_len `mod` 2 ^ 16) ++ [0; 0; 0; 0; ttl p; proto_UDP] ++ ck ++
  octets (src_ip p) ++ octets (dst_ip p).
Definition raw_udp (p : UdpV4) (udp_len : nat) (ck : bytes) : bytes :=
  to_be16 (src_port p) ++ to_be16 (dst_port p) ++ to_be16 (Z.of_nat udp_len `mod` 2 ^ 16) ++ ck.

Definition ip_ck (p : UdpV4) (n : nat) : Z := ipv4_header (raw_ip p (20 + (8 + n)) [0; 0]).
Definition udp_ck (p : UdpV4) (payload : bytes) : Z :=
  udp_ipv4 (octets (src_ip p)) (octets (dst_ip p)) (raw_udp p (8 + length payload) [0; 0] ++ payload).
Definition udp_frame (p : UdpV4) (payload : bytes) : bytes :=
  raw_eth p ++ raw_ip p (20 + (8 + length payload)) (to_be16 (ip_ck p (length payload))) ++
  raw_udp p (8 + length payload) (to_be16 (udp_ck p payload)) ++ payload.

Lemma write_headers_eq p n m rest :
  write_headers (replicate 42 0 ++ rest) p n m =
    (raw_eth p ++ raw_ip p n [0; 0] ++ raw_udp p m [0; 0] ++ rest, Some ()).
Proof.
  unfold write_headers.
  change (replicate 42 0 ++ rest) with (replicate 14 0 ++ replicate 20 0 ++ replicate 8 0 ++ rest).
  rewrite !mut_from_prefix_app by reflexivity. reflexivity.
Qed.

Lemma length_raw_eth p : mac_ok (src_mac p) → mac_ok (dst_mac p) → length (raw_eth p) = 14%nat.
Proof. intros [Hs _] [Hd _]. unfold raw_eth. by rewrite !length_app, Hs, Hd. Qed.
Lemma length_raw_ip p n ck : length ck = 2%nat → length (raw_ip p n ck) = 20%nat.
Proof. intros H. unfold raw_ip. by rewrite !length_app, H. Qed.
Lemma length_raw_udp p n ck : length ck = 2%nat → length (raw_udp p n ck) = 8%nat.
Proof. intros H. unfold raw_udp. by rewrite !length_app, H. Qed.

(** A write at the boundary of two appended pieces. *)
Lemma splice_app_ge a b off v n :
  length a = n → (n ≤ off)%nat → (off + length v ≤ n + length b)%nat →
  splice off v (a ++ b) = a ++ splice (off - n) v b.
Proof.
  intros Ha Ho Hl. unfold splice. rewrite firstn_app, skipn_app, Ha.
  rewrite firstn_all2, skipn_all2 by lia. cbn [app]. rewrite <- app_assoc. do 3 f_equal. f_equal. lia.
Qed.
Lemma splice_app_lt a b off v :
  (off + length v ≤ length a)%nat → splice off v (a ++ b) = splice off v a ++ b.
Proof.
  intros Hl. unfold splice. rewrite firstn_app, skipn_app.
  replace (off - length a)%nat with 0%nat by lia. replace (off + length v - length a)%nat with 0%nat by lia.
  cbn [firstn skipn]. by rewrite app_nil_r, drop_0, <- !app_assoc.
Qed.
Lemma splice_all a b v : length a = length v → splice 0 v (a ++ b) = v ++ b.
Proof. intros H. unfold splice. cbn. by rewrite <- H, drop_app_length. Qed.

Lemma splice_ip_ck p n ck : length ck = 2%nat → splice 10 ck (raw_ip p n [0; 0]) = raw_ip p n ck.
Proof. intros H. explode_list ck. reflexivity. Qed.
Lemma splice_udp_ck p n ck b : length ck = 2%nat → splice 6 ck (raw_udp p n [0; 0] ++ b) = raw_udp p n ck ++ b.
Proof. intros H. explode_list ck. reflexivity. Qed.

Lemma build_udp_ipv4_eq buf p payload :
  mac_ok (src_mac p) → mac_ok (dst_mac p) → (frame_len (length payload) ≤ length buf)%nat →
  build_udp_ipv4 buf p payload =
    Ret (udp_frame p payload ++ skipn (frame_len (length payload)) buf, Some (frame_len (length payload))).
Proof.
  intros Hs Hd Hl. unfold build_udp_ipv4. rewrite bool_decide_false by lia.
  unfold frame_len in *. change (ETH + IP + UDP)%nat with 42%nat in *. change (ETH + IP)%nat with 34%nat.
  change ETH with 14%nat. change IP_CKSUM_OFFSET with 10%nat. change UDP_CKSUM_OFFSET with 6%nat.
  change (14 + IP)%nat with 34%nat. change UDP with 8%nat. change IP with 20%nat.
  rewrite copy_range_Ret by (rewrite ?length_replicate; lia). cbn [mbind outcome_bind].
  replace (splice 0 (replicate 42 0) buf) with (replicate 42 0 ++ skipn 42 buf)
    by (unfold splice; by rewrite length_replicate).
  rewrite write_headers_eq.
  set (n := length payload) in *. set (rest := skipn 42 buf).
  assert (length rest = length buf - 42)%nat as Hr by apply length_drop.
  pose proof (length_raw_eth p Hs Hd) as LE.
  assert (∀ ck, length ck = 2%nat → length (raw_ip p (20 + (8 + n)) ck) = 20%nat) as LI by (intros; by apply length_raw_ip).
  assert (∀ ck, length ck = 2%nat → length (raw_udp p (8 + n) ck) = 8%nat) as LU by (intros; by apply length_raw_udp).
  rewrite copy_range_Ret by (rewrite ?length_app, ?LE, ?LI, ?LU by done; lia). cbn [mbind outcome_bind].
  rewrite (splice_app_ge _ _ _ _ 14), (splice_app_ge _ _ _ _ 20), (splice_app_ge _ _ _ _ 8);
    try (rewrite ?length_app, ?LI, ?LU by done; lia); try done.
  change (42 - 14 - 20 - 8)%nat with 0%nat.
  assert (splice 0 payload rest = payload ++ skipn (42 + n) buf) as ->
    by (unfold splice; cbn [firstn app Nat.add]; unfold rest; by rewrite drop_drop).
  set (rest' := skipn (42 + n) buf). clearbody rest'. clear rest Hr.
  rewrite get_range_Ret by (rewrite ?length_app, ?LE, ?LI, ?LU by done; lia). cbn [mbind outcome_bind].
  change (34 - 14)%nat with 20%nat. rewrite (slice_app_ge _ _ 14) by (done || lia).
  rewrite slice_app_0 by (by apply LI).
  rewrite copy_range_Ret by (rewrite ?length_app, ?LE, ?LI, ?LU by done; cbn; lia). cbn [mbind outcome_bind].
  rewrite (splice_app_ge _ _ _ _ 14) by (rewrite ?length_app, ?LI, ?LU by done; done || cbn; lia).
  change (14 + 10 - 14)%nat with 10%nat. rewrite splice_app_lt by (rewrite LI by done; cbn; lia).
  rewrite splice_ip_ck by done.
  rewrite get_range_Ret by (rewrite ?length_app, ?LE, ?LI, ?LU by done; fold n; lia). cbn [mbind outcome_bind].
  replace (34 + (8 + n) - 34)%nat with (8 + n)%nat by lia.
  rewrite (slice_app_ge _ _ 14), (slice_app_ge _ _ 20) by (done || lia || by apply LI).
  change (34 - 14 - 20)%nat with 0%nat. rewrite (app_assoc _ payload rest').
  rewrite slice_app_0 by (rewrite length_app, LU by done; done).
  rewrite copy_range_Ret by (rewrite ?length_app, ?LE, ?LI, ?LU by done; cbn; lia). cbn [mbind outcome_bind].
  rewrite (splice_app_ge _ _ _ _ 14), (splice_app_ge _ _ _ _ 20)
    by (rewrite ?length_app, ?LI, ?LU by done; done || cbn; lia).
  change (34 + 6 - 14 - 20)%nat with 6%nat. rewrite <- (app_assoc _ payload rest').
  rewrite splice_udp_ck by done. unfold udp_frame, ip_ck, udp_ck. fold n. rewrite <- !app_assoc. reflexivity.
Qed.

(** ** Parsing a built frame *)

Record params_ok (p : UdpV4) : Prop := {
  po_src_mac : mac_ok (src_mac p);
  po_dst_mac : mac_ok (dst_mac p);
  po_src_ip : u32 (src_ip p);
  po_dst_ip : u32 (dst_ip p);
  po_src_port : u16 (src_port p);
  po_dst_port : u16 (dst_port p);
  po_ttl : u8 (ttl p);
}.

(** The builder is total, keeps the buffer's length and returns a length in it. *)
Definition fits (out : bytes) (r : bytes * option nat) : Prop :=
  length r.1 = length out ∧ ∀ n, r.2 = Some n → (n ≤ length out)%nat.

Lemma build_udp_ipv4_total buf p payload :
  mac_ok (src_mac p) → mac_ok (dst_mac p) → ∃ r, build_udp_ipv4 buf p payload = Ret r ∧ fits buf r.
Proof.
  intros Hs Hd. destruct (decide (length buf < frame_len (length payload))%nat).
  - unfold build_udp_ipv4. rewrite bool_decide_true by done. by eexists.
  - rewrite build_udp_ipv4_eq by (done || lia). eexists. split; [reflexivity|].
    assert (length (udp_frame p payload) = frame_len (length payload)) as L.
    { unfold udp_frame, frame_len. rewrite !length_app, length_raw_eth, length_raw_ip, length_raw_udp by done.
      change (ETH + IP + UDP)%nat with 42%nat. lia. }
    split; cbn [fst snd]; [rewrite length_app, length_drop, L; lia|]. intros ? [= <-]. lia.
Qed.

Section parse_built.
Context (p : UdpV4) (payload rest : bytes).
Hypothesis Hp : params_ok p.
Hypothesis Hpay : Forall u8 payload.
Hypothesis Hlen : Z.of_nat (length payload) ≤ 65507.
Hypothesis Hrest : Z.of_nat (length rest) < 2 ^ 62.

Let n := length payload.
Let F := udp_frame p payload ++ rest.
Let I := raw_ip p (20 + (8 + n)) (to_be16 (ip_ck p n)).
Let U := raw_udp p (8 + n) (to_be16 (udp_ck p payload)).

Lemma built_eq : F = raw_eth p ++ I ++ U ++ payload ++ rest.
Proof. unfold F, udp_frame. by rewrite <- !app_assoc. Qed.

Lemma built_lengths : length (raw_eth p) = 14%nat ∧ length I = 20%nat ∧ length U = 8%nat ∧
  length F = (42 + n + length rest)%nat.
Proof.
  pose proof (length_raw_eth p (po_src_mac p Hp) (po_dst_mac p Hp)) as LE.
  assert (length I = 20%nat) as LI by (by apply length_raw_ip).
  assert (length U = 8%nat) as LU by (by apply length_raw_udp).
  split_and!; try done. rewrite built_eq, !length_app, LE, LI, LU. fold n. lia.
Qed.

Lemma built_slices :
  slice 0 14 F = raw_eth p ∧ slice 14 20 F = I ∧ slice 34 8 F = U ∧ slice 42 n F = payload ∧
  slice 34 (8 + n) F = U ++ payload.
Proof.
  destruct built_lengths as (LE & LI & LU & _). rewrite built_eq. split_and!.
  - by apply slice_app_0.
  - rewrite (slice_app_ge _ _ 14) by (done || lia). by apply slice_app_0.
  - rewrite (slice_app_ge _ _ 14), (slice_app_ge _ _ 20) by (done || lia). by apply slice_app_0.
  - rewrite (slice_app_ge _ _ 14), (slice_app_ge _ _ 20), (slice_app_ge _ _ 8) by (done || lia). by apply slice_app_0.
  - rewrite (slice_app_ge _ _ 14), (slice_app_ge _ _ 20) by (done || lia). rewrite app_assoc.
    apply slice_app_0. rewrite length_app, LU. done.
Qed.

Lemma built_eth :
  parse F = Some {| eth_buf := F; eth_start := 0; eth_type := ethertype_IPV4; l3_start := 14 |}.
Proof.
  destruct built_lengths as (LE & _ & _ & LF). destruct built_slices as (SE & _).
  unfold parse, EthernetView_parse, EthernetView_parse_at.
  rewrite (header_at_Some (T := EthernetHeader)) by (change (size_of EthernetHeader) with 14%nat; lia).
  change (size_of EthernetHeader) with 14%nat. rewrite SE. cbn [mbind option_bind].
  assert (Ethernet.ethertype (of_bytes (raw_eth p)) = ethertype_IPV4) as ->.
  { unfold Ethernet.ethertype, u16be_get. cbn [ethertype_field of_bytes EthernetHeader_Pod u16be_bytes].
    unfold raw_eth. destruct (po_src_mac p Hp) as [Ls _], (po_dst_mac p Hp) as [Ld _].
    rewrite (slice_app_ge _ _ 6), (slice_app_ge _ _ 6) by (done || lia). reflexivity. }
  cbn [Z.eqb ethertype_IPV4 ethertype_VLAN]. change (EthernetHeader_LEN) with 14%nat.
  change (0 + 14)%nat with 14%nat. cbn. by rewrite bool_decide_false by lia.
Qed.

Lemma built_ip_len : from_be (to_be16 (Z.of_nat (20 + (8 + n)) `mod` 2 ^ 16)) = Z.of_nat (20 + (8 + n)).
Proof. rewrite Z.mod_small by (unfold n; word_lia). apply from_to_be16. unfold n. word_lia. Qed.
Lemma built_udp_len : from_be (to_be16 (Z.of_nat (8 + n) `mod` 2 ^ 16)) = Z.of_nat (8 + n).
Proof. rewrite Z.mod_small by (unfold n; word_lia). apply from_to_be16. unfold n. word_lia. Qed.

Definition built_ip_view : Ipv4View :=
  {| ip_buf := F; ip_start := 14; l4_start := 34; ip_end := 14 + (20 + (8 + n)) |}.
Definition built_udp_view : UdpView :=
  {| udp_buf := F; udp_start := 34; udp_payload_start := 42; udp_end := 34 + (8 + n) |}.

Lemma built_ip : Ipv4View_parse_at F 14 = Some built_ip_view.
Proof.
  destruct built_lengths as (LE & LI & LU & LF). destruct built_slices as (_ & SI & _).
  unfold Ipv4View_parse_at.
  rewrite (header_at_Some (T := Ipv4Header)) by (change (size_of Ipv4Header) with 20%nat; lia).
  change (size_of Ipv4Header) with 20%nat. rewrite SI. cbn [mbind option_bind].
  assert (Ip.header_len (of_bytes I) = 20%nat) as -> by reflexivity.
  assert (Ip.total_len (of_bytes I) = Z.of_nat (20 + (8 + n))) as -> by (apply built_ip_len).
  rewrite bool_decide_false by (unfold Ip.MIN_LEN; lia). rewrite (checked_add_Some 14 20) by lia.
  cbn [mbind option_bind]. rewrite (bool_decide_false (length F < 14 + 20)%nat) by lia. rewrite Nat2Z.id.
  rewrite checked_add_Some by (unfold n; word_lia). rewrite bool_decide_true by lia.
  unfold built_ip_view. do 2 f_equal.
Qed.

Lemma built_udp : udp built_ip_view = Ret (Some built_udp_view).
Proof.
  destruct built_lengths as (LE & LI & LU & LF). destruct built_slices as (_ & SI & SU & _).
  rewrite udp_Ret by (unfold ip_view_wf; cbn [built_ip_view ip_start l4_start ip_end ip_buf]; lia).
  cbn [built_ip_view ip_start l4_start ip_end ip_buf]. rewrite SI.
  change (protocol (of_bytes I) =? proto_UDP) with true. cbn iota. f_equal. unfold UdpView_parse_at.
  rewrite (header_at_Some (T := UdpHeader)) by (change (size_of UdpHeader) with 8%nat; lia).
  change (size_of UdpHeader) with 8%nat. rewrite SU. cbn [mbind option_bind]. unfold Udp.LEN.
  rewrite (checked_add_Some 34 8) by lia. cbn [mbind option_bind].
  rewrite (bool_decide_false (14 + (20 + (8 + n)) < 34 + 8 ∨ length F < 34 + 8)%nat) by lia.
  assert (Udp.length_ (of_bytes U) = Z.of_nat (8 + n)) as -> by (apply built_udp_len). rewrite Nat2Z.id.
  rewrite checked_add_Some by (unfold n; word_lia). rewrite bool_decide_true by lia.
  unfold built_udp_view. do 2 f_equal. lia.
Qed.

Lemma built_checks :
  checksum (slice 14 20 F) = 0 ∧
  l4_check (octets (src_ip p)) (octets (dst_ip p)) proto_UDP (slice 34 (8 + n) F) = 0.
Proof.
  destruct built_slices as (_ & -> & _ & _ & ->). destruct Hp as [_ _ _ _ _ _ Httl].
  assert (∀ k ck, Forall u8 ck → Forall u8 (raw_ip p k ck)) as Hi.
  { intros k ck Hc. unfold raw_ip. repeat (apply Forall_app; split); auto with bytes_db; repeat constructor; word_lia || done. }
  assert (∀ k ck, Forall u8 ck → Forall u8 (raw_udp p k ck)) as Hu.
  { intros k ck Hc. unfold raw_udp. repeat (apply Forall_app; split); auto with bytes_db. }
  assert (Forall u8 [0; 0]) as H0 by decide_now. split.
  - unfold I, ip_ck. rewrite <- (splice_ip_ck p _ (to_be16 _)) by done. apply store_checksum; auto.
    + rewrite length_raw_ip by done. lia.
    + rewrite length_raw_ip by done. lia.
    + by exists 5%nat.
  - unfold U, udp_ck. rewrite <- splice_udp_ck by done.
    assert (length (raw_udp p (8 + n) [0; 0]%Z ++ payload) = 8 + n)%nat as Hl
      by (rewrite length_app, length_raw_udp by done; done).
    apply store_udp_checksum; auto with bytes_db; try (rewrite Hl; unfold n; lia).
    apply Forall_app. auto.
Qed.

Lemma built_udp_view_wf : udp_view_wf built_udp_view.
Proof.
  destruct built_lengths as (_ & _ & _ & LF). unfold udp_view_wf.
  cbn [built_udp_view udp_start udp_payload_start udp_end udp_buf]. fold F n. lia.
Qed.

Lemma built_ports :
  udp_src_port built_udp_view = Ret (src_port p) ∧
  udp_dst_port built_udp_view = Ret (dst_port p).
Proof.
  destruct built_slices as (_ & _ & SU & _). unfold udp_src_port, udp_dst_port.
  rewrite udp_header_Ret by apply built_udp_view_wf. cbn [built_udp_view udp_start udp_buf]. fold F. rewrite SU.
  cbn [mbind outcome_bind mret outcome_ret]. split; f_equal.
  - apply (from_to_be16 (src_port p)), Hp.
  - apply (from_to_be16 (dst_port p)), Hp.
Qed.

Lemma built_ipv4 :
  ipv4 {| eth_buf := F; eth_start := 0; eth_type := ethertype_IPV4; l3_start := 14 |} =
  Some built_ip_view.
Proof. unfold ipv4, is_ipv4. cbn [eth_type eth_buf l3_start]. rewrite Z.eqb_refl. by apply built_ip. Qed.

End parse_built.

Lemma raw_eth_addresses p :
  params_ok p → Ethernet.src (of_bytes (raw_eth p)) = src_mac p ∧ Ethernet.dst (of_bytes (raw_eth p)) = dst_mac p.
Proof.
  intros Hp. assert (length (src_mac p) = 6%nat ∧ length (dst_mac p) = 6%nat) as [Hs Hd] by (split; apply Hp).
  unfold raw_eth. destruct p as [s d ? ? ? ? ?]. cbn [src_mac dst_mac] in *. explode_list s. explode_list d. by split.
Qed.

(** ** Properties *)

(** C32: a built datagram parses back: for every addressing and every payload
    that fits an IPv4 datagram, [build_udp_ipv4] into a large enough buffer
    returns the frame length, and the layered views of the result yield an
    Ethernet frame with the given addresses, in it an IPv4 packet with the given addresses, TTL and protocol, a UDP datagram with the
    given ports, and exactly the payload; the bytes after the frame are kept,
    and both the IPv4 header checksum and the UDP checksum verify.  A buffer
    that is too short for the frame is refused and left as it was. *)
Theorem built_frame_parses (buf : bytes) (p : UdpV4) (payload : bytes)
    (Hp : params_ok p) (Hpay : Forall u8 payload) (Hmax : Z.of_nat (length payload) ≤ 65507)
    (Hsz : Z.of_nat (length buf) < 2 ^ 62) :
  ((frame_len (length payload) ≤ length buf)%nat → ∃ frame e eh ip u h,
    build_udp_ipv4 buf p payload = Ret (frame, Some (frame_len (length payload))) ∧
    length frame = length buf ∧
    skipn (frame_len (length payload)) frame = skipn (frame_len (length payload)) buf ∧
    parse frame = Some e ∧ eth_header e = Ret eh ∧ Ethernet.src eh = src_mac p ∧ Ethernet.dst eh = dst_mac p ∧
    ipv4 e = Some ip ∧ udp ip = Ret (Some u) ∧
    ip_header ip = Ret h ∧ Ip.src h = src_ip p ∧ Ip.dst h = dst_ip p ∧ Ip.ttl h = ttl p ∧
    udp_src_port u = Ret (src_port p) ∧ udp_dst_port u = Ret (dst_port p) ∧ udp_payload u = Ret payload ∧
    Checksum.checksum (slice 14 20 frame) = 0 ∧
    l4_check (octets (src_ip p)) (octets (dst_ip p)) proto_UDP (slice 34 (8 + length payload) frame) = 0) ∧
  ((length buf < frame_len (length payload))%nat → build_udp_ipv4 buf p payload = Ret (buf, None)).
Proof.
  split; [intros Hbuf|intros Hbuf; unfold build_udp_ipv4; by rewrite bool_decide_true].
  set (rest := skipn (frame_len (length payload)) buf).
  assert (length rest = length buf - frame_len (length payload))%nat as Hr by apply length_drop.
  assert (Z.of_nat (length rest) < 2 ^ 62) as Hrest by lia. unfold frame_len in Hbuf, Hr.
  change (ETH + IP + UDP)%nat with 42%nat in *.
  destruct (built_lengths p payload rest Hp) as (LE & LI & LU & LF).
  destruct (built_slices p payload rest Hp) as (SE & SI & SU & SP & _).
  destruct (built_checks p payload rest Hp Hpay Hmax) as [C1 C2].
  set (F := udp_frame p payload ++ rest) in *.
  exists F, {| eth_buf := F; eth_start := 0; eth_type := ethertype_IPV4; l3_start := 14 |}, (of_bytes (slice 0 14 F)),
    (built_ip_view p payload rest), (built_udp_view p payload rest), (of_bytes (slice 14 20 F)).
  destruct (built_ports p payload rest Hp) as [Ps Pd].
  split_and!; try done.
  - by apply build_udp_ipv4_eq; [apply Hp|apply Hp|].
  - lia.
  - unfold F. apply drop_app_length'. unfold udp_frame. rewrite !length_app, LE, LI, LU. reflexivity.
  - by apply built_eth.
  - apply eth_header_Ret. unfold eth_view_wf. cbn [eth_buf eth_start l3_start]. lia.
  - rewrite SE. by apply raw_eth_addresses.
  - rewrite SE. by apply raw_eth_addresses.
  - by apply built_ipv4.
  - by apply built_udp.
  - apply ip_header_Ret. unfold ip_view_wf. cbn [built_ip_view ip_start l4_start ip_end ip_buf]. fold F. lia.
  - rewrite SI. unfold Ip.src. cbn [src_field of_bytes Ipv4Header_Pod]. apply ip_from_octets, Hp.
  - rewrite SI. unfold Ip.dst. cbn [dst_field of_bytes Ipv4Header_Pod]. apply ip_from_octets, Hp.
  - rewrite SI. reflexivity.
  - rewrite udp_payload_Ret by (by apply built_udp_view_wf). cbn [built_udp_view udp_payload_start udp_end udp_buf]. fold F.
    replace (34 + (8 + length payload) - 42)%nat with (length payload) by lia. by rewrite SP.
Qed.

Definition sample_params : UdpV4 :=
  {| src_mac := [2;0;0;0;0;1]; dst_mac := [2;0;0;0;0;2]; src_ip := ip4 10 0 0 1; dst_ip := ip4 10 0 0 5;
     src_port := 67; dst_port := 68; ttl := 64 |}.

Lemma built_frame_parses_witness :
  (∃ frame e eh u, build_udp_ipv4 (replicate 60 0) sample_params [1; 2; 3] = Ret (frame, Some 45%nat) ∧
    parse frame = Some e ∧ eth_header e = Ret eh ∧ Ethernet.src eh = [2; 0; 0; 0; 0; 1] ∧ Ethernet.dst eh = [2; 0; 0; 0; 0; 2] ∧
    udp_payload u = Ret [1; 2; 3] ∧ Checksum.checksum (slice 14 20 frame) = 0) ∧
  build_udp_ipv4 (replicate 44 0) sample_params [1; 2; 3] = Ret (replicate 44 0, None).
Proof.
  assert (params_ok sample_params) as Hp by (split; decide_now || (split; [reflexivity|decide_now])).
  split.
  - destruct (built_frame_parses (replicate 60 0) sample_params [1; 2; 3] Hp ltac:(decide_now) ltac:(vm_compute; discriminate)
      ltac:(vm_compute; reflexivity)) as [H _].
    destruct H as (frame & e & eh & ip & u & h & E & _ & _ & Ee & Eh & Hs & Hd & _ & _ & _ & _ & _ & _ & _ & _ & P & C & _);
      [vm_compute; lia|].
    exists frame, e, eh, u. split; [exact E|]. split; [exact Ee|]. split; [exact Eh|]. split; [exact Hs|]. split; [exact Hd|].
    split; [exact P|exact C].
  - refine (proj2 (built_frame_parses (replicate 44 0) sample_params [1; 2; 3] Hp _ _ _) _);
      [decide_now|vm_compute; discriminate|vm_compute; reflexivity|vm_compute; lia].
Defined.
