(* ===== verification/Fdb.v ===== *)
(** * The forwarding database ([src/router/fdb.rs])

    A map from MAC address to the port it was last seen on.  [SharedFdb] wraps
    each operation in a spin lock. *)

From S2P Require Import Prelude.

Record Fdb := { table : gmap MacAddr Z }.

Definition new : Fdb := {| table := ∅ |}.
Definition insert_ (t : Fdb) (src : MacAddr) (port : Z) : Fdb := {| table := <[src := port]> (table t) |}.
Definition lookup_ (t : Fdb) (dst : MacAddr) : option Z := table t !! dst.
Definition len (t : Fdb) : nat := size (table t).
Definition is_empty (t : Fdb) : bool := bool_decide (size (table t) = 0%nat).

(** The frames observed, oldest first. *)
Definition learn (t : Fdb) (seen : list (MacAddr * Z)) : Fdb :=
  foldl (λ t f, insert_ t f.1 f.2) t seen.

(** The port of the last frame from [m]. *)
Definition last_port (m : MacAddr) (seen : list (MacAddr * Z)) : option Z :=
  snd <$> list.last (filter (λ f, f.1 = m) seen).

(** Learning is roaming-safe: after any history of observed frames the
    database maps a MAC to the port of the most recent frame from it, and to
    nothing (flood) if it was never seen. *)
Theorem fdb_tracks_last_port (seen : list (MacAddr * Z)) (m : MacAddr) :
  lookup_ (learn new seen) m = last_port m seen.
Proof.
  unfold learn, last_port. induction seen as [|[m' p] seen IH] using rev_ind; [done|].
  rewrite foldl_app, list.filter_app. cbn [foldl fst snd]. unfold lookup_, insert_. cbn [table].
  rewrite filter_cons, filter_nil. cbn [fst]. destruct (decide (m' = m)) as [->|Hne].
  - by rewrite last_snoc, lookup_insert_eq.
  - rewrite app_nil_r, lookup_insert_ne by done. exact IH.
Qed.
