(* ===== verification/Leases.v ===== *)
(** * The lease table ([src/router/leases.rs])

    Bindings from client MAC to leased address.  [SharedLeases] wraps each
    operation in a spin lock. *)

From S2P Require Import Prelude.

Record LeaseTable := { by_mac : gmap MacAddr Ipv4Addr }.

Definition default_ : LeaseTable := {| by_mac := ∅ |}.
Definition lookup_ (t : LeaseTable) (m : MacAddr) : option Ipv4Addr := by_mac t !! m.
Definition insert_ (t : LeaseTable) (m : MacAddr) (ip : Ipv4Addr) : LeaseTable :=
  {| by_mac := <[m := ip]> (by_mac t) |}.
Definition remove (t : LeaseTable) (m : MacAddr) : LeaseTable * option Ipv4Addr :=
  ({| by_mac := delete m (by_mac t) |}, by_mac t !! m).
Definition len (t : LeaseTable) : nat := size (by_mac t).
Definition is_empty (t : LeaseTable) : bool := bool_decide (size (by_mac t) = 0%nat).

(** The addresses on lease. *)
Definition leased (t : LeaseTable) : gset Ipv4Addr := map_img (by_mac t).

(** No two clients hold the same address. *)
Definition exclusive (t : LeaseTable) : Prop :=
  ∀ m m' ip, by_mac t !! m = Some ip → by_mac t !! m' = Some ip → m = m'.

Lemma elem_of_leased t ip : ip ∈ leased t ↔ ∃ m, by_mac t !! m = Some ip.
Proof. apply elem_of_map_img. Qed.

Lemma insert_exclusive t m ip : exclusive t → ip ∉ leased t → exclusive (insert_ t m ip).
Proof.
  intros He Hn m1 m2 ip'. cbn. rewrite !lookup_insert_Some, elem_of_leased in *.
  intros [[? ?]|[? H1]] [[? ?]|[? H2]]; subst; try done; try (by destruct Hn; eauto). by eapply He.
Qed.

Lemma remove_exclusive t m : exclusive t → exclusive (remove t m).1.
Proof.
  intros He m1 m2 ip'. cbn. rewrite !lookup_delete_Some. intros [_ H1] [_ H2]. by eapply He.
Qed.

Lemma leased_insert t m ip :
  by_mac t !! m = None → leased (insert_ t m ip) = leased t ∪ {[ip]}.
Proof.
  intros Hm. apply set_eq. intros x. rewrite elem_of_union, elem_of_singleton, !elem_of_leased. cbn. split.
  - intros (m' & H). apply lookup_insert_Some in H as [[_ ->]|[_ H]]; eauto.
  - intros [(m' & H)| ->].
    + exists m'. rewrite lookup_insert_ne; [done|]. intros ->. congruence.
    + exists m. by rewrite lookup_insert_eq.
Qed.

Lemma leased_remove t m ip :
  exclusive t → by_mac t !! m = Some ip → leased (remove t m).1 = leased t ∖ {[ip]}.
Proof.
  intros He Hm. apply set_eq. intros x. rewrite elem_of_difference, elem_of_singleton, !elem_of_leased. cbn. split.
  - intros (m' & H). apply lookup_delete_Some in H as [Hne H]. split; [eauto|]. intros ->. by destruct Hne; eapply He.
  - intros [(m' & H) Hx]. exists m'. rewrite lookup_delete_ne; [done|]. intros ->. congruence.
Qed.
