(* ===== verification/DhcpFrame.v ===== *)
(** * DHCP messages on the wire (the parts of [src/router/dhcp.rs] that its server and client share)

    Both ends write a header and a list of options into a scratch payload and
    wrap it in a UDP frame; both read a received frame through a [DhcpView].
    This file has the shared constants and helpers and relates the two
    directions: the frame built from a header and options is parsed back into
    that header and those options. *)

From S2P Require Import Prelude Wire Ethernet Dhcp View Frame.

Definition SERVER_PORT : Z := 67.
Definition CLIENT_PORT : Z := 68.
Definition PAYLOAD_MAX : nat := 512.
Definition UNSPECIFIED : Ipv4Addr := ip4 0 0 0 0.
Definition BROADCAST_IP : Ipv4Addr := ip4 255 255 255 255.

(** Options the client asks the server to include. *)
Definition PARAM_REQUEST_LIST : bytes := [option_SUBNET_MASK; option_ROUTER; option_DNS_SERVER; option_LEASE_TIME].

(** The first six bytes of [chaddr]. *)
Definition client_mac (h : DhcpHeader) : MacAddr := firstn 6 (chaddr h).

(** [w.f() && k]: the second call is made only when the first returned [true]. *)
Definition wthen (m : OptionsWriter * bool) (k : OptionsWriter → OptionsWriter * bool) : OptionsWriter * bool :=
  let '(w, ok) := m in if ok then k w else (w, false).
Notation "m ;&& k" := (wthen m k) (at level 60, right associativity).

(** [cond || (..)]: skip the writes when the condition holds. *)
Definition wunless (b : bool) (k : OptionsWriter → OptionsWriter * bool) (w : OptionsWriter) : OptionsWriter * bool :=
  if b then (w, true) else k w.

Lemma opt_ipv4_octets a : u32 a → opt_ipv4 (octets a) = Some a.
Proof. intros Ha. unfold opt_ipv4. rewrite bool_decide_true by reflexivity. f_equal. by apply ip_from_octets. Qed.

(** A list of addresses reads back as it was written. *)
Lemma ipv4_list_collect_octets l n :
  Forall u32 l → (length l < n)%nat → ipv4_list_collect n (concat (octets <$> l)) = l.
Proof.
  revert n. induction l as [|a l IH]; intros [|n] Hl Hn; cbn [length] in Hn; try lia; [done|].
  apply Forall_cons_1 in Hl as [Ha Hl]. cbn [fmap list_fmap concat ipv4_list_collect].
  assert (ipv4_list_next (octets a ++ concat (octets <$> l)) = (Some a, concat (octets <$> l))) as ->.
  { unfold ipv4_list_next. rewrite <- (opt_ipv4_octets a Ha). done. }
  rewrite IH by (done || lia). done.
Qed.
Lemma ipv4_list_octets l : Forall u32 l → ipv4_list (concat (octets <$> l)) = l.
Proof.
  intros Hl. destruct l as [|a l]; [done|]. apply ipv4_list_collect_octets; [done|].
  assert (∀ l : list Ipv4Addr, length (concat (octets <$> l)) = (4 * length l)%nat) as ->; [|cbn; lia].
  intros k. induction k as [|b k IH]; [done|]. cbn [fmap list_fmap concat]. rewrite length_app, IH. cbn. lia.
Qed.

(** ** The payload written by a sequence of option writes *)

Definition dhcp_payload (h : DhcpHeader) (opts : list (Z * bytes)) : bytes :=
  to_bytes h ++ encode opts ++ [option_END].

Lemma length_dhcp_payload h opts :
  pod_wf h → length (dhcp_payload h opts) = (240 + (length (encode opts) + 1))%nat.
Proof. intros Hh. unfold dhcp_payload. by rewrite !length_app, (length_to_bytes (T := DhcpHeader) h Hh). Qed.

Lemma written_payload h opts :
  pod_wf h → (length (encode opts) ≤ 271)%nat → Forall option_wf opts →
  ∃ w rest, write_options (writer_new (replicate 272 0)) opts ;&& write_end = (w, true) ∧
    to_bytes h ++ wbuf w = dhcp_payload h opts ++ rest ∧ (Dhcp.LEN + wlen w)%nat = length (dhcp_payload h opts).
Proof.
  intros Hh Hf Hwf. set (w0 := writer_new (replicate 272 0)).
  destruct (write_options_fits opts w0) as (w1 & E1 & L1).
  { eapply Forall_impl; [|exact Hwf]. by intros o (_ & _ & ?). }
  { cbn [w0 writer_new wlen wbuf]. rewrite length_replicate. lia. }
  rewrite E1. cbn [wthen]. apply write_options_true in E1 as (W1 & B1 & _).
  cbn [w0 writer_new wlen wbuf] in L1, B1. rewrite length_replicate in B1.
  destruct (write_end w1) as [w2 ok] eqn:E2. assert (ok = true) as ->.
  { unfold write_end in E2. rewrite bool_decide_false in E2 by lia. by simplify_eq. }
  assert (wlen w2 = wlen w1 + 1)%nat as L2.
  { unfold write_end in E2. case_bool_decide; simplify_eq; done. }
  apply write_end_true in E2. rewrite W1 in E2.
  exists w2, (skipn (wlen w2) (wbuf w2)). rewrite length_dhcp_payload by done. split_and!; [done| |].
  - unfold dhcp_payload. rewrite <- !app_assoc. f_equal. rewrite <- (take_drop (wlen w2) (wbuf w2)) at 1.
    fold (written w2). rewrite E2. cbn [written w0 writer_new wlen wbuf firstn app]. by rewrite <- app_assoc.
  - change Dhcp.LEN with 240%nat. lia.
Qed.

(** ** Received messages *)

Definition view_header (v : DhcpView) : DhcpHeader := of_bytes (slice (dhcp_start v) 240 (dhcp_buf v)).
Definition view_opts (v : DhcpView) : bytes := slice (options_start v) (dhcp_end v - options_start v) (dhcp_buf v).
Definition view_mac (v : DhcpView) : MacAddr := client_mac (view_header v).

(** A view that the packet parser returns (see [view_msg_ok]). *)
Definition msg_ok (v : DhcpView) : Prop :=
  dhcp_view_wf v ∧ mac_ok (view_mac v) ∧ u32 (xid (view_header v)) ∧ u32 (your_ip (view_header v)).

Lemma msg_type v : dhcp_view_wf v → dhcp_message_type v = Ret (get_message_type (view_opts v)).
Proof. intros Hv. unfold dhcp_message_type. by rewrite dhcp_options_Ret. Qed.

Lemma view_msg_ok v : dhcp_view_wf v → Forall u8 (dhcp_buf v) → msg_ok v.
Proof.
  intros Hv Hb. split; [done|]. destruct Hv as (Hl & _).
  assert (length (slice (dhcp_start v) 240 (dhcp_buf v)) = 240%nat) as L by (by apply length_slice).
  assert (Forall u8 (slice (dhcp_start v) 240 (dhcp_buf v))) as B by (by apply Forall_slice).
  unfold view_mac, view_header, client_mac, xid, your_ip, u32be_get, ip_from.
  cbn [of_bytes chaddr DhcpHeader_Pod xid_field yiaddr u32be_bytes]. split_and!.
  - split; [rewrite length_take, length_slice; lia|]. by apply Forall_take, Forall_slice.
  - apply from_be_u32; [rewrite length_slice; lia|by apply Forall_slice].
  - apply from_be_u32; [rewrite length_slice; lia|by apply Forall_slice].
Qed.

(** A received frame, down to its DHCP message. *)
Definition with_dhcp (f : bytes) : outcome (option DhcpView) :=
  match e ← parse f; ipv4 e with
  | None => mret None
  | Some ip => u ← udp ip; match u with None => mret None | Some u => udp_dhcp u end
  end.

(** ** Frames that are sent *)

Section sent.
Context (h : DhcpHeader) (opts : list (Z * bytes)) (params : UdpV4) (rest : bytes).
Hypothesis Hh : pod_wf h.
Hypothesis Hopts : (length (encode opts) ≤ 271)%nat.
Hypothesis Hp : params_ok params.
Hypothesis Hports : is_bootp (src_port params) || is_bootp (dst_port params) = true.

Let payload := dhcp_payload h opts.
Let F := udp_frame params payload ++ rest.

Definition sent_view : DhcpView :=
  {| dhcp_buf := F; dhcp_start := 42; options_start := 282; dhcp_end := 42 + length payload |}.

Lemma sent_size : (241 ≤ length payload ≤ 512)%nat.
Proof. unfold payload. rewrite length_dhcp_payload by done. lia. Qed.

Lemma sent_slices :
  slice 42 240 F = to_bytes h ∧ slice 282 (length payload - 240) F = encode opts ++ [option_END] ∧
  length F = (42 + length payload + length rest)%nat.
Proof.
  pose proof sent_size as Hl.
  destruct (built_slices params payload rest Hp) as (_ & _ & _ & SP & _).
  destruct (built_lengths params payload rest Hp) as (_ & _ & _ & LF). fold F in SP, LF.
  assert (length (to_bytes h) = 240%nat) as LH by exact (length_to_bytes _ Hh).
  split_and!; [| |done].
  - rewrite <- (slice_slice 42 (length payload) 0 240) by lia. rewrite SP. unfold payload, dhcp_payload.
    by apply slice_app_0.
  - rewrite <- (slice_slice 42 (length payload) 240) by lia. rewrite SP. unfold payload, dhcp_payload.
    rewrite (slice_app_ge _ _ 240) by (done || lia). change (240 - 240)%nat with 0%nat.
    rewrite slice_to_end, drop_0; [done|]. rewrite (length_app (to_bytes _)), LH. lia.
Qed.

Lemma sent_dhcp : udp_dhcp (built_udp_view params payload rest) = Ret (Some sent_view).
Proof.
  pose proof sent_size as Hl. destruct (built_ports params payload rest Hp) as [Ps Pd].
  destruct sent_slices as (SH & _ & LF). unfold F in LF.
  unfold udp_dhcp, udp_is_dhcp. rewrite Ps, Pd. cbn [mbind outcome_bind mret outcome_ret]. f_equal. rewrite Hports.
  cbn iota. cbn [built_udp_view udp_buf udp_payload_start udp_end]. unfold DhcpView_parse_at.
  rewrite (header_at_Some (T := DhcpHeader)) by (change (size_of DhcpHeader) with 240%nat; lia).
  cbn [mbind option_bind]. rewrite checked_add_Some by (vm_compute; reflexivity). cbn [mbind option_bind].
  unfold sent_view, F. change (42 + Dhcp.LEN)%nat with 282%nat. do 2 f_equal; lia.
Qed.

Lemma sent_decodes :
  with_dhcp F = Ret (Some sent_view) ∧ dhcp_view_wf sent_view ∧ view_header sent_view = h ∧
  view_opts sent_view = encode opts ++ [option_END].
Proof.
  pose proof sent_size as Hl. assert (Z.of_nat (length payload) ≤ 65507) as Hm by lia.
  destruct sent_slices as (SH & SO & LF). split_and!.
  - unfold with_dhcp. unfold F at 1. rewrite (built_eth params payload rest Hp). cbn [mbind option_bind].
    rewrite (built_ipv4 params payload rest Hp Hm), (built_udp params payload rest Hp Hm).
    cbn [mbind outcome_bind]. apply sent_dhcp.
  - unfold dhcp_view_wf, sent_view. cbn [dhcp_start dhcp_buf options_start dhcp_end]. lia.
  - unfold view_header, sent_view. cbn [dhcp_start dhcp_buf]. rewrite SH. by apply of_to_bytes.
  - unfold view_opts, sent_view. cbn [options_start dhcp_end dhcp_buf].
    replace (42 + length payload - 282)%nat with (length payload - 240)%nat by lia. exact SO.
Qed.

(** Building the frame into a large enough buffer. *)
Lemma sent_built out :
  (554 ≤ length out)%nat → ∃ f, build_udp_ipv4 out params payload = Ret (f, Some (frame_len (length payload))) ∧
    firstn (frame_len (length payload)) f = udp_frame params payload.
Proof.
  intros Ho. pose proof sent_size as Hl. pose proof Hp as [? ? _ _ _ _ _].
  assert (frame_len (length payload) = 42 + length payload)%nat as El by reflexivity.
  exists (udp_frame params payload ++ skipn (frame_len (length payload)) out). split.
  - apply build_udp_ipv4_eq; [done|done|]. rewrite El. lia.
  - rewrite take_app_length'; [done|]. destruct (built_lengths params payload [] Hp) as (_ & _ & _ & LF).
    rewrite app_nil_r in LF. rewrite LF, El. cbn. lia.
Qed.

End sent.
