(* ===== verification/DhcpServer.v ===== *)
(** * The DHCP server ([src/router/dhcp.rs], server half)

    The server is parametric in the pool, which it uses through the [FreePool]
    interface; the leases are the shared table.  Several server instances (one
    per LAN port) share pool and leases; here they treat one message after the
    other, and in [DhcpWorkers] several at a time. *)

From S2P Require Import Prelude Wire Ethernet Dhcp View Frame AddrPool Leases DhcpFrame.

Record DhcpServerConfig := {
  server_ip : Ipv4Addr;
  server_mac : MacAddr;
  gateway : Ipv4Addr;
  subnet_mask : Ipv4Addr;
  dns : list Ipv4Addr;
  lease_secs : Z;
}.

(** The option list of a reply, and the buffer and length of its payload. *)
Definition write_reply_options (cfg : DhcpServerConfig) (kind : MessageType) (w : OptionsWriter)
    : OptionsWriter * bool :=
  write_message_type w kind ;&&
  (λ w, write_ipv4 w option_SERVER_ID (server_ip cfg) ;&&
  (λ w, wunless (bool_decide (kind = Nak))
    (λ w, write_seconds w option_LEASE_TIME (lease_secs cfg) ;&&
    (λ w, write_ipv4 w option_SUBNET_MASK (subnet_mask cfg) ;&&
    (λ w, write_ipv4 w option_ROUTER (gateway cfg) ;&&
    (λ w, wunless (bool_decide (dns cfg = [])) (λ w, write_ipv4_list w option_DNS_SERVER (dns cfg)) w)))) w ;&&
  write_end)).

Definition build_payload (cfg : DhcpServerConfig) (kind : MessageType) (xid : Z) (yiaddr : Ipv4Addr)
    (client : MacAddr) (buf : bytes) : bytes * option nat :=
  mut_from_prefix (T := DhcpHeader) buf
    (λ h,
      let h := init_ethernet h op_BOOTREPLY in
      let h := set_xid h xid in
      let h := set_your_ip h yiaddr in
      let h := set_server_ip h (server_ip cfg) in
      set_client_hardware_addr h client)
    (λ tail,
      let '(w, ok) := write_reply_options cfg kind (writer_new tail) in
      (wbuf w, if ok then Some (Dhcp.LEN + wlen w)%nat else None)).

(** The output buffer and the returned length. *)
Definition build_reply (cfg : DhcpServerConfig) (kind : MessageType) (xid : Z) (yiaddr : Ipv4Addr)
    (client : MacAddr) (broadcast : bool) (out : bytes) : outcome (bytes * option nat) :=
  let '(payload, r) := build_payload cfg kind xid yiaddr client (replicate PAYLOAD_MAX 0) in
  match r with
  | None => mret (out, None)
  | Some plen =>
    let '(dst_ip, dst_mac) :=
      if broadcast || bool_decide (kind = Nak) then (BROADCAST_IP, BROADCAST) else (yiaddr, client) in
    let params := {| src_mac := server_mac cfg; Frame.dst_mac := dst_mac; src_ip := server_ip cfg;
                     Frame.dst_ip := dst_ip; src_port := SERVER_PORT; dst_port := CLIENT_PORT;
                     ttl := DEFAULT_TTL |} in
    pl ← get_range payload 0 plen;
    build_udp_ipv4 out params pl
  end.

Section server.
Context {T : Type} `{FreePool T}.

Record DhcpServer := { cfg : DhcpServerConfig; pool : T; leases : LeaseTable }.

Definition with_state (s : DhcpServer) (p : T) (l : LeaseTable) : DhcpServer :=
  {| cfg := cfg s; pool := p; leases := l |}.

Definition reserve (s : DhcpServer) (ip : Ipv4Addr) : outcome DhcpServer :=
  r ← fp_reserve (pool s) ip; mret (with_state s r.1 (leases s)).
Definition release (s : DhcpServer) (ip : Ipv4Addr) : outcome DhcpServer :=
  p ← fp_release (pool s) ip; mret (with_state s p (leases s)).
Definition server_start (s : DhcpServer) : Ipv4Addr := (fp_bounds (pool s)).1.
Definition server_end (s : DhcpServer) : Ipv4Addr := (fp_bounds (pool s)).2.
Definition lease_of (s : DhcpServer) (m : MacAddr) : option Ipv4Addr := lookup_ (leases s) m.

Definition assign (s : DhcpServer) (m : MacAddr) : outcome (DhcpServer * option Ipv4Addr) :=
  match lookup_ (leases s) m with
  | Some ip => mret (s, Some ip)
  | None =>
    r ← fp_take1 (pool s);
    match r with
    | (p, None) => mret (with_state s p (leases s), None)
    | (p, Some ip) => mret (with_state s p (insert_ (leases s) m ip), Some ip)
    end
  end.

(** The server, the output buffer and the returned length. *)
Definition handle (s : DhcpServer) (view : DhcpView) (out : bytes) : outcome (DhcpServer * bytes * option nat) :=
  header ← dhcp_header view;
  let m := client_mac header in
  let x := xid header in
  let bc := broadcast header in
  opts ← dhcp_options view;
  t ← dhcp_message_type view;
  match t with
  | None => mret (s, out, None)
  | Some Discover =>
    a ← assign s m;
    match a with
    | (s, None) => mret (s, out, None)
    | (s, Some ip) => r ← build_reply (cfg s) Offer x ip m bc out; mret (s, r.1, r.2)
    end
  | Some Request =>
    if match get_server_id opts with Some sid => negb (sid =? server_ip (cfg s)) | None => false end
    then mret (s, out, None)
    else
      let requested := default (client_ip header) (get_requested_ip opts) in
      a ← assign s m;
      match a with
      | (s, None) => mret (s, out, None)
      | (s, Some ip) =>
        r ← (if requested =? ip then build_reply (cfg s) Ack x ip m bc out
             else build_reply (cfg s) Nak x UNSPECIFIED m true out);
        mret (s, r.1, r.2)
      end
  | Some Release | Some Decline =>
    let '(l, r) := remove (leases s) m in
    match r with
    | None => mret (with_state s (pool s) l, out, None)
    | Some ip => p ← fp_release (pool s) ip; mret (with_state s p l, out, None)
    end
  | Some _ => mret (s, out, None)
  end.

(** The server instances of the LAN ports share pool and leases; each call on
    one of them is an event. *)
Inductive event :=
| Message (c : DhcpServerConfig) (v : DhcpView) (out : bytes)
| Reserve (c : DhcpServerConfig) (ip : Ipv4Addr).

Definition apply_event (st : T * LeaseTable) (e : event) : outcome (T * LeaseTable) :=
  match e with
  | Message c v out =>
    r ← handle {| cfg := c; pool := st.1; leases := st.2 |} v out; mret (pool r.1.1, leases r.1.1)
  | Reserve c ip => s ← reserve {| cfg := c; pool := st.1; leases := st.2 |} ip; mret (pool s, leases s)
  end.

Fixpoint run (st : T * LeaseTable) (es : list event) : outcome (T * LeaseTable) :=
  match es with [] => mret st | e :: es => st ← apply_event st e; run st es end.

End server.
Arguments DhcpServer : clear implicits.

(** ** What a reply contains *)

Definition reply_options (cfg : DhcpServerConfig) (kind : MessageType) : list (Z * bytes) :=
  (option_MESSAGE_TYPE, [message_type_to_u8 kind]) :: (option_SERVER_ID, octets (server_ip cfg)) ::
  if bool_decide (kind = Nak) then []
  else (option_LEASE_TIME, to_be32 (lease_secs cfg)) :: (option_SUBNET_MASK, octets (subnet_mask cfg)) ::
    (option_ROUTER, octets (gateway cfg)) ::
    if bool_decide (dns cfg = []) then [] else [(option_DNS_SERVER, concat (octets <$> dns cfg))].

Lemma write_reply_options_eq cfg kind w :
  write_reply_options cfg kind w = write_options w (reply_options cfg kind) ;&& write_end.
Proof.
  unfold write_reply_options, reply_options, write_message_type, write_ipv4, write_seconds, wthen, wunless.
  cbn [write_options]. destruct (write_option w option_MESSAGE_TYPE _) as [w1 []]; [|done].
  destruct (write_option w1 option_SERVER_ID _) as [w2 []]; [|done].
  destruct (bool_decide (kind = Nak)); [done|]. cbn [write_options].
  destruct (write_option w2 option_LEASE_TIME _) as [w3 []]; [|done].
  destruct (write_option w3 option_SUBNET_MASK _) as [w4 []]; [|done].
  destruct (write_option w4 option_ROUTER _) as [w5 []]; [|done].
  destruct (bool_decide (dns cfg = [])); [done|]. rewrite write_ipv4_list_eq. cbn [write_options].
  destruct (write_option w5 option_DNS_SERVER _) as [w6 []]; done.
Qed.

Lemma length_concat_octets l : length (concat (octets <$> l)) = (4 * length l)%nat.
Proof. induction l as [|x l IH]; [done|]. cbn [fmap list_fmap concat length]. rewrite length_app, IH, length_octets. lia. Qed.

(** The options fit the scratch buffer when at most 60 DNS servers are configured. *)
Lemma reply_options_fit cfg kind :
  (length (dns cfg) ≤ 60)%nat →
  (length (encode (reply_options cfg kind)) ≤ 271)%nat ∧ Forall option_wf (reply_options cfg kind).
Proof.
  intros Hd. pose proof (length_concat_octets (dns cfg)) as Hc. split.
  - unfold reply_options, encode. repeat case_bool_decide; cbn [fmap list_fmap concat]; rewrite ?length_app;
      cbn -[octets to_be32 concat]; rewrite ?Hc, ?length_octets, ?length_to_be32; lia.
  - assert (∀ c v, c ≠ option_PAD → c ≠ option_END → (length v ≤ 255)%nat → option_wf (c, v)) as Hw
      by (intros; by split_and!).
    unfold reply_options. repeat case_bool_decide;
      repeat (apply Forall_cons_2; [apply Hw; [done|done|rewrite ?Hc; cbn; lia]|]); constructor.
Qed.

(** The header of a reply. *)
Definition reply_header (cfg : DhcpServerConfig) (x : Z) (yi : Ipv4Addr) (client : MacAddr) : DhcpHeader :=
  set_client_hardware_addr (set_server_ip (set_your_ip (set_xid
    (init_ethernet (of_bytes (replicate 240 0)) op_BOOTREPLY) x) yi) (server_ip cfg)) client.

Lemma reply_header_wf cfg x yi client : length client = 6%nat → pod_wf (reply_header cfg x yi client).
Proof. intros Hc. explode_list client. repeat split. Qed.

Lemma reply_header_fields cfg x yi client :
  length client = 6%nat → u32 x → u32 yi → u32 (server_ip cfg) →
  let h := reply_header cfg x yi client in
  xid h = x ∧ your_ip h = yi ∧ Dhcp.server_ip h = server_ip cfg ∧ client_mac h = client ∧
  op h = op_BOOTREPLY ∧ has_magic_cookie h = true.
Proof.
  intros Hc Hx Hy Hs. explode_list client. cbn zeta. split_and!; try reflexivity.
  - by apply (from_to_be32 x).
  - by apply (from_to_be32 yi).
  - by apply (from_to_be32 (server_ip cfg)).
Qed.

(** The payload of a reply. *)
Definition reply_payload (cfg : DhcpServerConfig) (kind : MessageType) (x : Z) (yi : Ipv4Addr) (client : MacAddr)
    : bytes := dhcp_payload (reply_header cfg x yi client) (reply_options cfg kind).

Lemma build_payload_eq cfg kind x yi client :
  (length (dns cfg) ≤ 60)%nat → length client = 6%nat →
  ∃ rest, build_payload cfg kind x yi client (replicate PAYLOAD_MAX 0) =
    (reply_payload cfg kind x yi client ++ rest, Some (length (reply_payload cfg kind x yi client))).
Proof.
  intros Hd Hc. unfold build_payload.
  change (replicate PAYLOAD_MAX 0) with (replicate 240 0 ++ replicate 272 0).
  rewrite mut_from_prefix_app by reflexivity. fold (reply_header cfg x yi client). rewrite write_reply_options_eq.
  destruct (reply_options_fit cfg kind Hd) as [Hf Hwf].
  destruct (written_payload (reply_header cfg x yi client) (reply_options cfg kind)) as (w & rest & -> & E & L);
    [by apply reply_header_wf|done|done|]. exists rest. cbn [fst snd]. by rewrite L, E.
Qed.

(** Addressing of a reply. *)
Definition reply_params (cfg : DhcpServerConfig) (kind : MessageType) (yi : Ipv4Addr) (client : MacAddr) (bc : bool)
    : UdpV4 :=
  let d := if bc || bool_decide (kind = Nak) then (BROADCAST_IP, BROADCAST) else (yi, client) in
  {| src_mac := server_mac cfg; Frame.dst_mac := d.2; src_ip := server_ip cfg; Frame.dst_ip := d.1;
     src_port := SERVER_PORT; dst_port := CLIENT_PORT; ttl := DEFAULT_TTL |}.

Record cfg_ok (c : DhcpServerConfig) : Prop := {
  ck_ip : u32 (server_ip c);
  ck_mac : mac_ok (server_mac c);
  ck_gateway : u32 (gateway c);
  ck_mask : u32 (subnet_mask c);
  ck_dns : (length (dns c) ≤ 60)%nat;
  ck_lease : u32 (lease_secs c);
}.

Lemma reply_params_ok c kind yi client bc :
  cfg_ok c → u32 yi → mac_ok client → params_ok (reply_params c kind yi client bc).
Proof.
  intros [Hi Hm _ _ _ _] Hy Hc. split; cbn; try done.
  - by destruct (bc || _); [split; [reflexivity|decide_now]|].
  - by destruct (bc || _); [decide_now|].
Qed.

Lemma dhcp_reply_eq c kind x yi client bc out :
  cfg_ok c → length client = 6%nat →
  build_reply c kind x yi client bc out =
    build_udp_ipv4 out (reply_params c kind yi client bc) (reply_payload c kind x yi client).
Proof.
  intros Hcfg Hc. unfold build_reply. destruct (build_payload_eq c kind x yi client) as [rest ->]; [apply Hcfg|done|].
  unfold reply_params. destruct (bc || bool_decide (kind = Nak)); cbn [fst snd];
    (rewrite get_range_Ret by (rewrite ?length_app; lia); cbn [mbind outcome_bind];
     rewrite Nat.sub_0_r, slice_app_0 by done; done).
Qed.

Lemma build_reply_total c kind x yi client bc out :
  cfg_ok c → u32 yi → mac_ok client → ∃ r, build_reply c kind x yi client bc out = Ret r ∧ fits out r.
Proof.
  intros Hcfg Hy Hc. rewrite dhcp_reply_eq by (done || apply Hc).
  apply build_udp_ipv4_total; by apply reply_params_ok.
Qed.

(** What a client reads from a parsed DHCP message. *)
Record reply_reads (d : DhcpView) (c : DhcpServerConfig) (kind : MessageType) (x : Z) (yi : Ipv4Addr)
    (client : MacAddr) : Prop := {
  rr_op : op (view_header d) = op_BOOTREPLY;
  rr_xid : xid (view_header d) = x;
  rr_your_ip : your_ip (view_header d) = yi;
  rr_client : view_mac d = client;
  rr_type : get_message_type (view_opts d) = Some kind;
  rr_server : get_server_id (view_opts d) = Some (server_ip c);
  rr_config : kind ≠ Nak → get_subnet_mask (view_opts d) = Some (subnet_mask c) ∧
    (ipv4_list_next (get_routers (view_opts d))).1 = Some (gateway c) ∧ get_lease_time (view_opts d) = Some (lease_secs c);
  rr_lists : kind ≠ Nak → Forall u32 (dns c) → ipv4_list (get_routers (view_opts d)) = [gateway c] ∧
    ipv4_list (get_dns_servers (view_opts d)) = dns c;
  rr_timers : get_renewal_time (view_opts d) = None ∧ get_rebinding_time (view_opts d) = None;
}.

(** A frame that a receiver reads as the given reply. *)
Definition decodes (f : bytes) (c : DhcpServerConfig) (kind : MessageType) (x : Z) (yi : Ipv4Addr) (client : MacAddr)
    : Prop :=
  ∃ d, with_dhcp f = Ret (Some d) ∧ msg_ok d ∧ reply_reads d c kind x yi client.

Lemma reply_view_reads d c kind x yi client :
  cfg_ok c → u32 x → u32 yi → mac_ok client → view_header d = reply_header c x yi client →
  view_opts d = encode (reply_options c kind) ++ [option_END] → reply_reads d c kind x yi client.
Proof.
  intros Hcfg Hx Hy Hc Eh Eo. pose proof Hcfg as [Hi _ Hg Hm Hd Hls].
  destruct (reply_header_fields c x yi client) as (Fx & Fy & _ & Fc & Fo & _); [apply Hc|done|done|done|].
  destruct (reply_options_fit c kind Hd) as [_ Hwf].
  split; unfold view_mac; rewrite ?Eh, ?Eo; try done.
  - unfold get_message_type. rewrite options_get_encoded by done. by destruct kind.
  - unfold get_server_id. rewrite options_get_encoded by done. cbn -[octets opt_ipv4]. by apply opt_ipv4_octets.
  - intros Hk. unfold get_subnet_mask, get_routers, get_lease_time. rewrite !options_get_encoded by done.
    unfold reply_options. rewrite (bool_decide_false (kind = Nak)) by done. cbn -[octets to_be32 opt_ipv4 opt_seconds ipv4_list_next].
    split_and!; [by apply opt_ipv4_octets| |].
    + unfold ipv4_list_next. cbn -[opt_ipv4]. by apply (opt_ipv4_octets (gateway c)).
    + unfold opt_seconds. rewrite bool_decide_true by reflexivity. f_equal. by apply from_to_be32.
  - intros Hk Hdns. unfold get_routers, get_dns_servers. rewrite !options_get_encoded by done.
    unfold reply_options. rewrite (bool_decide_false (kind = Nak)) by done. split.
    + apply (ipv4_list_octets [gateway c]). by constructor.
    + cbn -[octets ipv4_list]. case_bool_decide as Ed; [by rewrite Ed|]. by apply ipv4_list_octets.
  - unfold get_renewal_time, get_rebinding_time. rewrite !options_get_encoded by done. unfold reply_options.
    by repeat case_bool_decide.
Qed.

(** The typed views of a reply hold what the server is configured with. *)
Lemma offer_reads f c x yi client :
  decodes f c Offer x yi client → Forall u32 (dns c) →
  ∃ d m, with_dhcp f = Ret (Some d) ∧ dhcp_offer d = Ret (Some m) ∧ dhcp_lease d = Ret None ∧
    transaction_id m = x ∧ offered_ip m = yi ∧ offer_server_id m = Some (server_ip c) ∧
    offer_lease_time m = Some (lease_secs c) ∧ offer_subnet_mask m = Some (subnet_mask c) ∧
    ipv4_list (offer_routers m) = [gateway c] ∧ ipv4_list (offer_dns_servers m) = dns c.
Proof.
  intros (d & Ed & (Hv & _) & [_ Hx Hy _ Ht Hs Hc Hl _]) Hdns. destruct (Hc ltac:(done)) as (Hm & _ & Hls).
  destruct (Hl ltac:(done) Hdns) as [Hr Hd]. eexists d, _. split; [done|].
  unfold dhcp_offer, dhcp_lease. rewrite dhcp_header_Ret, dhcp_options_Ret by done. cbn [mbind outcome_bind].
  fold (view_header d) (view_opts d). unfold offer_parse, lease_parse, parse_message. rewrite Ht. cbn [mbind option_bind].
  split; [reflexivity|]. by split_and!.
Qed.
Lemma granted_lease_reads f c x yi client :
  decodes f c Ack x yi client → Forall u32 (dns c) →
  ∃ d m, with_dhcp f = Ret (Some d) ∧ dhcp_lease d = Ret (Some m) ∧ dhcp_offer d = Ret None ∧
    transaction_id m = x ∧ assigned_ip m = yi ∧ lease_server_id m = Some (server_ip c) ∧
    lease_lease_time m = Some (lease_secs c) ∧ lease_subnet_mask m = Some (subnet_mask c) ∧
    ipv4_list (lease_routers m) = [gateway c] ∧ ipv4_list (lease_dns_servers m) = dns c ∧
    lease_renewal_time m = None ∧ lease_rebinding_time m = None.
Proof.
  intros (d & Ed & (Hv & _) & [_ Hx Hy _ Ht Hs Hc Hl [Ht1 Ht2]]) Hdns. destruct (Hc ltac:(done)) as (Hm & _ & Hls).
  destruct (Hl ltac:(done) Hdns) as [Hr Hd]. eexists d, _. split; [done|].
  unfold dhcp_offer, dhcp_lease. rewrite dhcp_header_Ret, dhcp_options_Ret by done. cbn [mbind outcome_bind].
  fold (view_header d) (view_opts d). unfold offer_parse, lease_parse, parse_message. rewrite Ht. cbn [mbind option_bind].
  split; [reflexivity|]. by split_and!.
Qed.

Lemma build_reply_decodes c kind x yi client bc out :
  cfg_ok c → u32 x → u32 yi → mac_ok client → (554 ≤ length out)%nat →
  ∃ f n, build_reply c kind x yi client bc out = Ret (f, Some n) ∧ decodes (firstn n f) c kind x yi client.
Proof.
  intros Hcfg Hx Hy Hc Ho. rewrite dhcp_reply_eq by (done || apply Hc).
  assert (pod_wf (reply_header c x yi client)) as Hh by (apply reply_header_wf, Hc).
  destruct (reply_options_fit c kind (ck_dns c Hcfg)) as [Hf _].
  pose proof (reply_params_ok c kind yi client bc Hcfg Hy Hc) as Hp.
  destruct (sent_built _ _ _ Hh Hf Hp out Ho) as (f & E & Ef). eexists f, _. split; [exact E|].
  rewrite Ef. destruct (sent_decodes _ _ _ [] Hh Hf Hp eq_refl) as (Ed & Hw & Eh & Eo). rewrite app_nil_r in Ed.
  eexists. split; [exact Ed|]. destruct (reply_header_fields c x yi client) as (Fx & Fy & _ & Fc & _);
    [apply Hc|done|done|apply Hcfg|].
  split; [|by apply reply_view_reads]. split; [done|]. unfold view_mac. rewrite Eh, Fc, Fx, Fy. done.
Qed.

(** ** The invariant of the shared pool and leases *)

Section invariant.
Context {T : Type} `{FreePool T}.
Implicit Types (s : DhcpServer T) (p : T) (l : LeaseTable) (v : DhcpView).

(** The addresses on lease and the free ones partition what the server manages. *)
Record state_wf (p : T) (l : LeaseTable) : Prop := {
  sw_pool : fp_inv p;
  sw_low : 0 ≤ (fp_bounds p).1;
  sw_high : (fp_bounds p).2 < 2 ^ 32;
  sw_exclusive : exclusive l;
  sw_disjoint : leased l ## fp_free p;
  sw_range : ∀ ip, ip ∈ leased l → (fp_bounds p).1 ≤ ip ≤ (fp_bounds p).2;
}.
Definition server_wf s : Prop := cfg_ok (cfg s) ∧ state_wf (pool s) (leases s).
Definition managed s : gset Ipv4Addr := leased (leases s) ∪ fp_free (pool s).

Lemma leased_u32 p l ip : state_wf p l → ip ∈ leased l → u32 ip.
Proof. intros [_ ? ? _ _ Hr] Hip%Hr. unfold u32. lia. Qed.

Lemma assign_spec s m :
  server_wf s → ∃ s' r, assign s m = Ret (s', r) ∧ server_wf s' ∧ cfg s' = cfg s ∧ managed s' = managed s ∧
    lease_of s' m = r ∧ (∀ m', m' ≠ m → lease_of s' m' = lease_of s m') ∧
    (r = None → lease_of s m = None ∧ fp_free (pool s) = ∅) ∧
    (∀ ip, lease_of s m = Some ip → r = Some ip ∧ s' = s) ∧
    (∀ ip, r = Some ip → lease_of s m = None → ip ∈ fp_free (pool s) ∧ ∀ y, y ∈ fp_free (pool s) → ip ≤ y).
Proof.
  intros [Hc Hs]. unfold assign, lease_of at 3 4 5. destruct (lookup_ (leases s) m) as [ip|] eqn:El.
  { exists s, (Some ip). split; [done|]. unfold lease_of. by split_and!; intros; simplify_eq. }
  pose proof Hs as [Hp Hlo Hhi He Hd Hr]. destruct (fp_take1_law (pool s) Hp) as (p' & r & -> & Hp' & Hb & Ht).
  cbn [mbind outcome_bind]. destruct r as [ip|]; cbn [with_state].
  - destruct Ht as (Hin & Hmin & Hf). eexists _, _. split; [reflexivity|].
    assert (ip ∉ leased (leases s)) as Hnl by set_solver.
    assert (leased (insert_ (leases s) m ip) = leased (leases s) ∪ {[ip]}) as Hl by (by apply leased_insert).
    pose proof (fp_in_bounds (pool s) ip Hp Hin) as Hbd.
    split_and!; try done; cbn [with_state cfg pool leases]; unfold managed, lease_of; cbn [with_state leases pool].
    + split; [done|]. cbn [with_state pool leases]. split; rewrite ?Hb; try done; [by apply insert_exclusive|set_solver|].
      intros x. rewrite Hl, elem_of_union, elem_of_singleton. intros [Hx| ->]; [by apply Hr|done].
    + rewrite Hl, Hf. apply set_eq. intros x. destruct (decide (x = ip)); set_solver.
    + unfold lookup_, insert_. cbn. by rewrite lookup_insert_eq.
    + intros m' Hm'. unfold lookup_, insert_. cbn. by rewrite lookup_insert_ne.
    + by intros ? [= ->].
  - destruct Ht as [Hf ->]. destruct s. eexists _, _. split; [reflexivity|]. by split_and!.
Qed.

Lemma lease_leased s m ip : lease_of s m = Some ip → ip ∈ leased (leases s).
Proof. intros Hl. apply elem_of_leased. by exists m. Qed.

(** [reserve] keeps the invariant; [release] does when the address is neither
    free nor on lease. *)
Lemma reserve_wf s a :
  server_wf s → ∃ s', reserve s a = Ret s' ∧ server_wf s' ∧ leases s' = leases s ∧ cfg s' = cfg s ∧
    fp_bounds (pool s') = fp_bounds (pool s) ∧ fp_free (pool s') = fp_free (pool s) ∖ {[a]}.
Proof.
  intros [Hc [Hp Hlo Hhi He Hd Hr]]. unfold reserve.
  destruct (fp_reserve_law (pool s) a Hp) as (p' & r & -> & Hp' & Hb & Hf & _). cbn [mbind outcome_bind fst].
  eexists. split; [reflexivity|]. cbn [with_state pool leases cfg]. split_and!; try done.
  split; [done|]. cbn [with_state pool leases]. split; rewrite ?Hb, ?Hf; try done. set_solver.
Qed.

Lemma release_wf s a :
  server_wf s → (fp_bounds (pool s)).1 ≤ a ≤ (fp_bounds (pool s)).2 → a ∉ fp_free (pool s) → a ∉ leased (leases s) →
  ∃ s', release s a = Ret s' ∧ server_wf s' ∧ leases s' = leases s ∧ fp_free (pool s') = fp_free (pool s) ∪ {[a]}.
Proof.
  intros [Hc [Hp Hlo Hhi He Hd Hr]] Hab Hfree Hl. unfold release.
  destruct (fp_release_law (pool s) a Hp Hab Hfree) as (p' & -> & Hp' & Hb & Hf). cbn [mbind outcome_bind].
  eexists. split; [reflexivity|]. cbn [with_state pool leases]. split_and!; try done.
  split; [done|]. cbn [with_state pool leases]. split; rewrite ?Hb, ?Hf; try done. set_solver.
Qed.

(** The effect of RELEASE and DECLINE. *)
Lemma remove_spec s m :
  server_wf s → let '(l, r) := remove (leases s) m in
  match r with
  | None => l = leases s
  | Some ip => lease_of s m = Some ip ∧ ∃ p, fp_release (pool s) ip = Ret p ∧
      let s' := with_state s p l in
      server_wf s' ∧ managed s' = managed s ∧ lease_of s' m = None ∧ ip ∈ fp_free p ∧
      ∀ m', m' ≠ m → lease_of s' m' = lease_of s m'
  end.
Proof.
  intros [Hc [Hp Hlo Hhi He Hd Hr]]. destruct (remove (leases s) m) as [l r] eqn:Er.
  unfold remove in Er. apply pair_eq in Er as [Hl Er]. destruct r as [ip|].
  2:{ rewrite <- Hl. rewrite delete_id by done. by destruct (leases s). }
  split; [done|]. assert (ip ∈ leased (leases s)) as Hin by (apply elem_of_leased; eauto).
  destruct (fp_release_law (pool s) ip Hp (Hr _ Hin)) as (p' & -> & Hp' & Hb & Hf); [set_solver|].
  assert (leased l = leased (leases s) ∖ {[ip]}) as Hll by (rewrite <- Hl; exact (leased_remove _ _ _ He Er)).
  assert (exclusive l) as Hel by (rewrite <- Hl; exact (remove_exclusive _ m He)).
  exists p'. split; [done|]. cbn zeta. unfold managed, lease_of. cbn [with_state leases pool].
  split_and!.
  - split; [done|]. cbn [with_state pool leases]. split; rewrite ?Hb; try done; [set_solver|].
    intros x Hx. apply Hr. set_solver.
  - rewrite Hll, Hf. apply set_eq. intros x. destruct (decide (x = ip)); set_solver.
  - rewrite <- Hl. unfold lookup_. cbn. apply lookup_delete_eq.
  - set_solver.
  - intros m' Hm'. rewrite <- Hl. unfold lookup_. cbn. by apply lookup_delete_ne.
Qed.

(** What every message does to the shared state. *)
Lemma handle_spec s v out :
  server_wf s → msg_ok v → ∃ s' out' r, handle s v out = Ret (s', out', r) ∧ server_wf s' ∧ cfg s' = cfg s ∧
    managed s' = managed s ∧ fits out (out', r) ∧ ∀ m, m ≠ view_mac v → lease_of s' m = lease_of s m.
Proof.
  intros Hs Hv. destruct Hv as (Hv & Hm & _).
  unfold handle. rewrite dhcp_header_Ret, dhcp_options_Ret, msg_type by done. cbn [mbind outcome_bind].
  fold (view_header v) (view_mac v) (view_opts v).
  assert (∃ s' out' r, mret (s, out, None) = Ret (A := DhcpServer T * bytes * option nat) (s', out', r) ∧
    server_wf s' ∧ cfg s' = cfg s ∧ managed s' = managed s ∧ fits out (out', r) ∧
    ∀ m, m ≠ view_mac v → lease_of s' m = lease_of s m)
    as Hnone by (by eexists _, _, _).
  destruct (assign_spec s (view_mac v) Hs) as (s' & r & Ea & Hs' & Ec & Em & Er & Ho & _).
  assert (∀ k x yi bc, u32 yi → ∃ s'' out' n, (r ← build_reply (cfg s') k x yi (view_mac v) bc out;
    mret (s', r.1, r.2)) = Ret (s'', out', n) ∧ server_wf s'' ∧ cfg s'' = cfg s ∧ managed s'' = managed s ∧
    fits out (out', n) ∧ ∀ m, m ≠ view_mac v → lease_of s'' m = lease_of s m) as Hreply.
  { intros k x yi bc Hy. destruct (build_reply_total (cfg s') k x yi (view_mac v) bc out) as ([o n] & -> & ?);
      [by apply Hs'|done|done|]. by eexists _, _, _. }
  assert (∀ ip, r = Some ip → u32 ip) as Hip.
  { intros ip ->. eapply leased_u32; [apply Hs'|by eapply lease_leased]. }
  destruct (get_message_type (view_opts v)) as [[]|]; try exact Hnone.
  - rewrite Ea. cbn [mbind outcome_bind]. destruct r as [ip|]; [by apply Hreply, Hip|by eexists _, _, _].
  - match goal with |- context [if ?b then mret _ else _] => destruct b end; [exact Hnone|]. rewrite Ea. cbn [mbind outcome_bind].
    destruct r as [ip|]; [|by eexists _, _, _].
    destruct (_ =? ip); [by apply Hreply, Hip|by apply Hreply; decide_now].
  - pose proof (remove_spec s (view_mac v) Hs) as Hr. destruct (remove _ _) as [l [ip|]].
    + destruct Hr as (_ & p & -> & ? & ? & _ & _ & ?). by eexists _, _, _.
    + subst l. destruct s. by eexists _, _, _.
  - pose proof (remove_spec s (view_mac v) Hs) as Hr. destruct (remove _ _) as [l [ip|]].
    + destruct Hr as (_ & p & -> & ? & ? & _ & _ & ?). by eexists _, _, _.
    + subst l. destruct s. by eexists _, _, _.
Qed.

(** *** Sequences of calls *)

Definition event_ok (e : event) : Prop :=
  match e with Message c v _ => cfg_ok c ∧ msg_ok v | Reserve _ _ => True end.
(** The event is not a message of client [m]. *)
Definition not_from (m : MacAddr) (e : event) : Prop :=
  match e with Message _ v _ => view_mac v ≠ m | Reserve _ _ => True end.
Definition reserved (es : list event) : gset Ipv4Addr :=
  list_to_set (es ≫= λ e, match e with Reserve _ ip => [ip] | Message _ _ _ => [] end).

Lemma reserved_cons e es : reserved (e :: es) = reserved [e] ∪ reserved es.
Proof. unfold reserved. destruct e; cbn; set_solver. Qed.

Lemma apply_event_spec p l e :
  state_wf p l → event_ok e → ∃ p' l', apply_event (p, l) e = Ret (p', l') ∧ state_wf p' l' ∧
    leased l' ∪ fp_free p' ⊆ leased l ∪ fp_free p ∧
    (leased l ∪ fp_free p) ∖ reserved [e] ⊆ leased l' ∪ fp_free p' ∧
    ∀ m, not_from m e → lookup_ l' m = lookup_ l m.
Proof.
  intros Hs He. destruct e as [c v out|c ip]; cbn [apply_event fst snd].
  - destruct He as [Hc Hv].
    destruct (handle_spec {| cfg := c; pool := p; leases := l |} v out) as (s' & o & r & -> & [_ Hs'] & _ & Hm & _ & Hl);
      [by split|done|]. unfold managed in Hm. cbn [leases pool] in Hm.
    cbn [mbind outcome_bind fst]. eexists _, _. split; [reflexivity|]. rewrite Hm.
    split_and!; [done|done|set_solver|]. intros m Hn. apply Hl. by apply not_eq_sym.
  - destruct Hs as [Hp Hlo Hhi Hex Hd Hr]. unfold reserve. cbn [pool].
    destruct (fp_reserve_law p ip Hp) as (p' & r & -> & Hp' & Hb & Hf & _). cbn [mbind outcome_bind fst].
    eexists _, _. split; [reflexivity|]. cbn [with_state pool leases].
    assert (reserved [Reserve c ip] = {[ip]}) as -> by (unfold reserved; cbn; set_solver).
    rewrite Hf. split_and!; [|set_solver|set_solver|done].
    split; rewrite ?Hb; try done. set_solver.
Qed.

Lemma server_run_spec p l es :
  state_wf p l → Forall event_ok es → ∃ p' l', run (p, l) es = Ret (p', l') ∧ state_wf p' l' ∧
    leased l' ∪ fp_free p' ⊆ leased l ∪ fp_free p ∧
    (leased l ∪ fp_free p) ∖ reserved es ⊆ leased l' ∪ fp_free p' ∧
    ∀ m, Forall (not_from m) es → lookup_ l' m = lookup_ l m.
Proof.
  intros Hs He. revert p l Hs. induction He as [|e es He _ IH]; intros p l Hs.
  { exists p, l. split; [done|]. split_and!; [done|set_solver|set_solver|done]. }
  cbn [run]. destruct (apply_event_spec p l e Hs He) as (p1 & l1 & -> & Hs1 & A1 & B1 & C1).
  destruct (IH p1 l1 Hs1) as (p2 & l2 & E2 & Hs2 & A2 & B2 & C2). exists p2, l2. cbn [mbind outcome_bind].
  split_and!; [done|done|by etrans| |].
  - rewrite reserved_cons. clear -B1 B2. set_solver.
  - intros m Hm. apply Forall_cons_1 in Hm as [Hm Hms]. rewrite C2 by done. by apply C1.
Qed.

(** *** Replies *)

(** The largest reply: 42 bytes of headers and a full payload buffer. *)
Definition buf_ok (out : bytes) : Prop := (554 ≤ length out)%nat.

Lemma handle_discover s v out :
  server_wf s → msg_ok v → buf_ok out → get_message_type (view_opts v) = Some Discover →
  is_Some (lease_of s (view_mac v)) ∨ fp_free (pool s) ≠ ∅ →
  ∃ ip s' f n, handle s v out = Ret (s', f, Some n) ∧ server_wf s' ∧ cfg s' = cfg s ∧
    lease_of s' (view_mac v) = Some ip ∧ decodes (firstn n f) (cfg s) Offer (xid (view_header v)) ip (view_mac v).
Proof.
  intros Hs Hv Ho Ht Hf. destruct Hv as (Hv & Hm & Hx & _). unfold handle. rewrite dhcp_header_Ret, dhcp_options_Ret, msg_type, Ht by done.
  cbn [mbind outcome_bind]. fold (view_header v) (view_mac v).
  destruct (assign_spec s (view_mac v) Hs) as (s' & r & -> & Hs' & Ec & Em & Er & _ & Hn & _). cbn [mbind outcome_bind].
  destruct r as [ip|]; [|destruct (Hn eq_refl) as [Hl ?]; rewrite Hl in Hf; by destruct Hf as [[? ?]|?]].
  destruct (build_reply_decodes (cfg s') Offer (xid (view_header v)) ip (view_mac v) (broadcast (view_header v)) out)
    as (f & n & -> & Hd); try done; [apply Hs'|eapply leased_u32; [apply Hs'|by eapply lease_leased]|].
  rewrite Ec in Hd. by exists ip, s', f, n.
Qed.

Lemma handle_request s v out ip :
  server_wf s → msg_ok v → buf_ok out → get_message_type (view_opts v) = Some Request →
  get_server_id (view_opts v) = Some (server_ip (cfg s)) ∨ get_server_id (view_opts v) = None →
  lease_of s (view_mac v) = Some ip →
  let ok := default (client_ip (view_header v)) (get_requested_ip (view_opts v)) =? ip in
  ∃ f n, handle s v out = Ret (s, f, Some n) ∧
    decodes (firstn n f) (cfg s) (if ok then Ack else Nak) (xid (view_header v)) (if ok then ip else UNSPECIFIED) (view_mac v).
Proof.
  intros Hs Hv Ho Ht Hsid Hl. destruct Hv as (Hv & Hm & Hx & _). cbn zeta. unfold handle. rewrite dhcp_header_Ret, dhcp_options_Ret, msg_type, Ht by done.
  cbn [mbind outcome_bind]. fold (view_header v) (view_mac v) (view_opts v).
  match goal with |- context [if ?b then mret _ else _] => replace b with false end.
  2:{ destruct Hsid as [-> | ->]; [|done]. by rewrite Z.eqb_refl. }
  assert (assign s (view_mac v) = Ret (s, Some ip)) as ->.
  { unfold assign. unfold lease_of in Hl. by rewrite Hl. }
  cbn [mbind outcome_bind]. assert (u32 ip) as Hip by (eapply leased_u32; [apply Hs|by eapply lease_leased]).
  destruct (_ =? ip).
  - destruct (build_reply_decodes (cfg s) Ack (xid (view_header v)) ip (view_mac v) (broadcast (view_header v)) out)
      as (f & n & -> & Hd); try done; [apply Hs|]. by exists f, n.
  - destruct (build_reply_decodes (cfg s) Nak (xid (view_header v)) UNSPECIFIED (view_mac v) true out)
      as (f & n & -> & Hd); try done; [apply Hs|]. by exists f, n.
Qed.

End invariant.

(** ** Claims *)

(** C11: the server instances of all LAN ports together, on any sequence of
    received messages and reservations: no call panics; no address is ever
    leased to two clients, no leased address is free in the pool, and every
    leased address lies in the pool's range; no address is lost or invented
    (leased and free ones together only lose reserved addresses); and a
    client's lease is changed by its own messages only. *)
Theorem leases_stay_exclusive {T : Type} `{FreePool T} (p : T) (l : LeaseTable) (es : list event)
    (Hs : state_wf p l) (He : Forall event_ok es) :
  ∃ p' l', run (p, l) es = Ret (p', l') ∧
    (∀ m m' ip, lookup_ l' m = Some ip → lookup_ l' m' = Some ip → m = m') ∧
    (∀ m ip, lookup_ l' m = Some ip → ip ∉ fp_free p' ∧ (fp_bounds p').1 ≤ ip ≤ (fp_bounds p').2) ∧
    leased l' ∪ fp_free p' ⊆ leased l ∪ fp_free p ∧
    (leased l ∪ fp_free p) ∖ reserved es ⊆ leased l' ∪ fp_free p' ∧
    (∀ m, Forall (not_from m) es → lookup_ l' m = lookup_ l m).
Proof.
  destruct (server_run_spec p l es Hs He) as (p' & l' & Hr & [_ _ _ Hx Hd Hb] & HA & HB & HC).
  exists p', l'. split_and!; try done. intros m ip Hm.
  assert (ip ∈ leased l') as Hin by (apply elem_of_leased; by exists m). split; [set_solver|by apply Hb].
Qed.

(** DISCOVER, OFFER, REQUEST, ACK.  A DISCOVER from a client that has a
    lease, or while the pool has a free address, is answered with a frame that
    parses as an OFFER of some address, carrying the client's xid and hardware
    address and the server's identity; after any messages of other clients on
    any port, a REQUEST of the client that names this server is answered with
    an ACK of the offered address, the client's recorded lease, when it asks
    for it, and with a NAK otherwise. *)
Theorem offer_then_ack {T : Type} `{FreePool T} (s : DhcpServer T) (dv rv : DhcpView) (out1 out2 : bytes)
    (es : list event) (Hs : server_wf s) (Hdv : msg_ok dv) (Hrv : msg_ok rv) (Ho1 : buf_ok out1) (Ho2 : buf_ok out2)
    (Hdt : get_message_type (view_opts dv) = Some Discover) (Hrt : get_message_type (view_opts rv) = Some Request)
    (Hmac : view_mac rv = view_mac dv) (Hsid : get_server_id (view_opts rv) = Some (server_ip (cfg s)))
    (Hfree : is_Some (lease_of s (view_mac dv)) ∨ fp_free (pool s) ≠ ∅)
    (Hes : Forall event_ok es) (Hother : Forall (not_from (view_mac dv)) es) :
  ∃ ip s1 f1 n1, handle s dv out1 = Ret (s1, f1, Some n1) ∧ lease_of s1 (view_mac dv) = Some ip ∧
    decodes (firstn n1 f1) (cfg s) Offer (xid (view_header dv)) ip (view_mac dv) ∧
    ∃ p l, run (pool s1, leases s1) es = Ret (p, l) ∧
    ∃ s2 f2 n2, handle {| cfg := cfg s; pool := p; leases := l |} rv out2 = Ret (s2, f2, Some n2) ∧
      if default (client_ip (view_header rv)) (get_requested_ip (view_opts rv)) =? ip
      then decodes (firstn n2 f2) (cfg s) Ack (xid (view_header rv)) ip (view_mac dv)
      else decodes (firstn n2 f2) (cfg s) Nak (xid (view_header rv)) UNSPECIFIED (view_mac dv).
Proof.
  destruct (handle_discover s dv out1) as (ip & s1 & f1 & n1 & E1 & [Hc1 Hs1] & Ec & El & D1); try done.
  exists ip, s1, f1, n1. split_and!; [done|done|done|].
  destruct (server_run_spec _ _ es Hs1 Hes) as (p & l & Er & Hs2 & _ & _ & Hl). exists p, l. split; [done|].
  destruct (handle_request {| cfg := cfg s; pool := p; leases := l |} rv out2 ip) as (f2 & n2 & E2 & D2);
    try done; [split; [apply Hs|done]|by left|unfold lease_of; cbn [leases]; rewrite Hmac, Hl; done|].
  eexists _, f2, n2. split; [exact E2|]. rewrite Hmac in D2. cbn [cfg] in D2. by destruct (_ =? ip).
Qed.

(** A RELEASE (or DECLINE) is not answered; it ends the sender's lease and
    returns the address to the pool, so that it can be leased again, leaves
    every other lease alone, and a repeated RELEASE changes nothing: the
    address is not returned twice. *)
Theorem release_returns_address {T : Type} `{FreePool T} (s : DhcpServer T) (v : DhcpView) (out : bytes)
    (ip : Ipv4Addr) (Hs : server_wf s) (Hv : msg_ok v)
    (Ht : get_message_type (view_opts v) = Some Release ∨ get_message_type (view_opts v) = Some Decline)
    (Hl : lease_of s (view_mac v) = Some ip) :
  ∃ s', handle s v out = Ret (s', out, None) ∧ lease_of s' (view_mac v) = None ∧ ip ∈ fp_free (pool s') ∧
    (∀ m, m ≠ view_mac v → lease_of s' m = lease_of s m) ∧
    handle s' v out = Ret (s', out, None).
Proof.
  assert (∀ s', handle s' v out = let '(l, r) := remove (leases s') (view_mac v) in
    match r with
    | None => mret (with_state s' (pool s') l, out, None)
    | Some a => p ← fp_release (pool s') a; mret (with_state s' p l, out, None)
    end) as Eh.
  { intros s'. unfold handle. destruct Hv as [Hv _]. rewrite dhcp_header_Ret, dhcp_options_Ret, msg_type by done.
    cbn [mbind outcome_bind]. by destruct Ht as [-> | ->]. }
  pose proof (remove_spec s (view_mac v) Hs) as Hr. rewrite (Eh s). destruct (remove _ _) as [l r] eqn:Er.
  assert (r = Some ip) as -> by exact (eq_trans (eq_sym (f_equal snd Er)) Hl).
  destruct Hr as (_ & p & -> & Hs' & _ & Hn & Hin & Ho). cbn [mbind outcome_bind].
  exists (with_state s p l). split_and!; try done. rewrite Eh. clear Er.
  pose proof (remove_spec _ (view_mac v) Hs') as Hr2. destruct (remove _ _) as [l2 r2] eqn:Er2.
  assert (r2 = None) as -> by exact (eq_trans (eq_sym (f_equal snd Er2)) Hn).
  by rewrite Hr2.
Qed.

(** ** A sample exchange *)

Module Sample.
Definition config : DhcpServerConfig :=
  {| server_ip := ip4 192 168 0 1; server_mac := [2; 0; 0; 0; 0; 1]; gateway := ip4 192 168 0 1;
     subnet_mask := ip4 255 255 255 0; dns := [ip4 8 8 8 8; ip4 8 8 4 4]; lease_secs := 3600 |}.
Definition addresses : AddressPool :=
  {| start := ip4 192 168 0 10; end_ := ip4 192 168 0 12; intervals := [(ip4 192 168 0 10, ip4 192 168 0 12)] |}.
Definition server : DhcpServer AddressPool := {| cfg := config; pool := addresses; leases := default_ |}.
Definition mac_a : MacAddr := [10; 0; 0; 0; 0; 1].
Definition mac_b : MacAddr := [10; 0; 0; 0; 0; 2].

(** A message of client [m] with the given options. *)
Definition message (m : MacAddr) (x : Z) (opts : list (Z * bytes)) : DhcpView :=
  let payload := to_bytes (set_client_hardware_addr (set_xid
    (init_ethernet (of_bytes (replicate 240 0)) op_BOOTREQUEST) x) m) ++ encode opts ++ [option_END] in
  {| dhcp_buf := payload; dhcp_start := 0; options_start := 240; dhcp_end := length payload |}.
Definition discover (m : MacAddr) : DhcpView := message m 7 [(option_MESSAGE_TYPE, [1])].
Definition request (m : MacAddr) (ip : Ipv4Addr) : DhcpView :=
  message m 8 [(option_MESSAGE_TYPE, [3]); (option_SERVER_ID, octets (server_ip config)); (option_REQUESTED_IP, octets ip)].
Definition release_msg (m : MacAddr) : DhcpView := message m 9 [(option_MESSAGE_TYPE, [7])].
Definition room : bytes := replicate 600 0.

(** The server after a call. *)
Definition after (r : outcome (DhcpServer AddressPool * bytes * option nat)) : option (DhcpServer AddressPool) :=
  match r with Ret r => Some r.1.1 | Panic => None end.

Lemma config_ok : cfg_ok config.
Proof. split; first [decide_now|split; [reflexivity|decide_now]|cbn; lia]. Qed.
Lemma state_ok : state_wf addresses default_.
Proof.
  assert (leased default_ = ∅) as El by reflexivity.
  split; rewrite ?El; cbn [fp_bounds AddressPool_FreePool fst snd]; try done.
Qed.
Lemma room_ok : buf_ok room.
Proof. vm_compute. lia. Qed.
Lemma discover_ok : msg_ok (discover mac_a) ∧ msg_ok (discover mac_b).
Proof. split; (apply view_msg_ok; [unfold dhcp_view_wf; vm_compute; lia|decide_now]). Qed.
Lemma request_ok ip : ip = ip4 192 168 0 10 → msg_ok (request mac_a ip).
Proof. intros ->. apply view_msg_ok; [unfold dhcp_view_wf; vm_compute; lia|decide_now]. Qed.
Lemma release_ok : msg_ok (release_msg mac_a).
Proof. apply view_msg_ok; [unfold dhcp_view_wf; vm_compute; lia|decide_now]. Qed.
End Sample.
Import Sample.

Lemma leases_stay_exclusive_witness :
  ∃ p' l', run (addresses, default_) [Message config (discover mac_a) room; Reserve config (ip4 192 168 0 11);
      Message config (discover mac_b) room] = Ret (p', l') ∧
    lookup_ l' mac_a = Some (ip4 192 168 0 10) ∧ lookup_ l' mac_b = Some (ip4 192 168 0 12) ∧
    ∀ m m' ip, lookup_ l' m = Some ip → lookup_ l' m' = Some ip → m = m'.
Proof.
  destruct (leases_stay_exclusive addresses default_ [Message config (discover mac_a) room;
    Reserve config (ip4 192 168 0 11); Message config (discover mac_b) room] state_ok) as (p' & l' & E & X & _).
  { apply Forall_cons_2; [exact (conj config_ok (proj1 discover_ok))|]. apply Forall_cons_2; [exact I|].
    apply Forall_cons_2; [exact (conj config_ok (proj2 discover_ok))|]. apply Forall_nil_2. }
  exists p', l'. split; [exact E|]. split; [|split; [|exact X]].
  all: vm_compute in E; simplify_eq; vm_compute; reflexivity.
Defined.

Lemma offer_then_ack_witness :
  ∃ s1 f1 n1 s2 f2 n2,
    handle server (discover mac_a) room = Ret (s1, f1, Some n1) ∧
    handle s1 (request mac_a (ip4 192 168 0 10)) room = Ret (s2, f2, Some n2) ∧
    decodes (firstn n2 f2) config Ack 8 (ip4 192 168 0 10) mac_a.
Proof.
  destruct (offer_then_ack server (discover mac_a) (request mac_a (ip4 192 168 0 10)) room room [])
    as (ip & s1 & f1 & n1 & E1 & El & _ & p & l & Er & s2 & f2 & n2 & E2 & D); try reflexivity; try apply room_ok.
  - split; [apply config_ok|apply state_ok].
  - apply discover_ok.
  - by apply request_ok.
  - right. intros Hf. apply (f_equal size) in Hf. by vm_compute in Hf.
  - apply Forall_nil_2.
  - apply Forall_nil_2.
  - injection Er as <- <-. destruct s1 as [c1 p1 l1]. apply (f_equal after) in E1 as Ea. vm_compute in Ea.
    assert (c1 = config) as -> by (injection Ea; intros; subst; reflexivity).
    assert (ip = ip4 192 168 0 10) as -> by (injection Ea; intros; subst; vm_compute in El |- *; congruence).
    exists {| cfg := config; pool := p1; leases := l1 |}, f1, n1, s2, f2, n2. split; [exact E1|]. split; [exact E2|exact D].
Defined.

Lemma release_returns_address_witness :
  ∃ s1 f1 n1 s', handle server (discover mac_a) room = Ret (s1, f1, Some n1) ∧
    handle s1 (release_msg mac_a) room = Ret (s', room, None) ∧ lease_of s' mac_a = None ∧
    ip4 192 168 0 10 ∈ fp_free (pool s').
Proof.
  destruct (handle server (discover mac_a) room) as [[[s1 f1] [n1|]]|] eqn:E1; try (by vm_compute in E1).
  destruct (handle_spec server (discover mac_a) room) as (s' & o & r & E & Hs & _);
    [exact (conj config_ok state_ok)|apply discover_ok|].
  rewrite E1 in E. injection E as <- <- <-.
  destruct (release_returns_address s1 (release_msg mac_a) room (ip4 192 168 0 10) Hs release_ok)
    as (s' & E & Hn & Hin & _).
  - left. vm_compute. reflexivity.
  - apply (f_equal after) in E1 as Ea. vm_compute in Ea. injection Ea as <-. vm_compute. reflexivity.
  - exists s1, f1, n1, s'. split; [reflexivity|]. split; [exact E|]. split; [exact Hn|exact Hin].
Defined.

(** [release] returns an address to the pool without ending its lease, and
    [assign] does not consult the leases of other clients: after [release] of
    an address that is on lease, the next client is given the same address. *)
Lemma release_of_leased_address :
  ∃ s1 s2 s3, assign server mac_a = Ret (s1, Some (ip4 192 168 0 10)) ∧
    release s1 (ip4 192 168 0 10) = Ret s2 ∧
    assign s2 mac_b = Ret (s3, Some (ip4 192 168 0 10)) ∧
    lease_of s3 mac_a = Some (ip4 192 168 0 10) ∧ lease_of s3 mac_b = Some (ip4 192 168 0 10).
Proof. do 3 eexists. repeat split; vm_compute; reflexivity. Qed.
