(* ===== verification/DhcpClient.v ===== *)
(** * The DHCP client ([src/router/dhcp.rs], client half)

    The state machine that obtains the router's WAN address: [poll] emits the
    next message, [on_receive] consumes a received one.  [SharedDhcpClient]
    runs each call under a lock, so a client sees a sequence of calls. *)

From S2P Require Import Prelude Wire Ethernet Dhcp View Frame AddrPool Leases DhcpFrame DhcpServer.

Inductive ClientState := Init | Selecting | Requesting | Bound.
#[global] Instance ClientState_dec : EqDecision ClientState.
Proof. solve_decision. Defined.

Record DhcpLease := {
  ip : Ipv4Addr;
  lease_subnet_mask : option Ipv4Addr;
  lease_gateway : option Ipv4Addr;
  lease_server_id : option Ipv4Addr;
  lease_time : option Z;
}.

Record DhcpClient := {
  mac : MacAddr;
  client_xid : Z;
  state : ClientState;
  offered_ip : option Ipv4Addr;
  server_id : option Ipv4Addr;
  lease : option DhcpLease;
}.

Definition new (m : MacAddr) (x : Z) : DhcpClient :=
  {| mac := m; client_xid := x; state := Init; offered_ip := None; server_id := None; lease := None |}.
Definition bound_ip (c : DhcpClient) : option Ipv4Addr := ip <$> lease c.

(** [opt.is_none() || w.ipv4(code, opt.unwrap())]. *)
Definition write_some (code : Z) (a : option Ipv4Addr) (w : OptionsWriter) : OptionsWriter * bool :=
  match a with None => (w, true) | Some a => write_ipv4 w code a end.

Definition write_client_options (c : DhcpClient) (kind : MessageType) (w : OptionsWriter) : OptionsWriter * bool :=
  write_message_type w kind ;&&
  (λ w, wunless (negb (bool_decide (kind = Request)))
    (λ w, write_some option_REQUESTED_IP (offered_ip c) w ;&& write_some option_SERVER_ID (server_id c)) w ;&&
  (λ w, write_option w option_PARAMETER_REQUEST_LIST PARAM_REQUEST_LIST ;&&
  write_end)).

(** The output buffer and the returned length. *)
Definition build (c : DhcpClient) (kind : MessageType) (out : bytes) : outcome (bytes * option nat) :=
  let '(payload, r) :=
    mut_from_prefix (T := DhcpHeader) (replicate PAYLOAD_MAX 0)
      (λ h,
        let h := init_ethernet h op_BOOTREQUEST in
        let h := set_xid h (client_xid c) in
        let h := set_broadcast h true in
        set_client_hardware_addr h (mac c))
      (λ tail,
        let '(w, ok) := write_client_options c kind (writer_new tail) in
        (wbuf w, if ok then Some (Dhcp.LEN + wlen w)%nat else None)) in
  match r with
  | None => mret (out, None)
  | Some plen =>
    let params := {| src_mac := mac c; Frame.dst_mac := BROADCAST; src_ip := UNSPECIFIED;
                     Frame.dst_ip := BROADCAST_IP; src_port := CLIENT_PORT; dst_port := SERVER_PORT;
                     ttl := DEFAULT_TTL |} in
    pl ← get_range payload 0 plen;
    build_udp_ipv4 out params pl
  end.

Definition with_client_state (c : DhcpClient) (s : ClientState) : DhcpClient :=
  {| mac := mac c; client_xid := client_xid c; state := s; offered_ip := offered_ip c; server_id := server_id c;
     lease := lease c |}.

(** The client, the output buffer and the returned length. *)
Definition poll (c : DhcpClient) (out : bytes) : outcome (DhcpClient * bytes * option nat) :=
  match state c with
  | Init =>
    r ← build c Discover out;
    mret (match r.2 with
          | None => (c, r.1, None)
          | Some n => (with_client_state c Selecting, r.1, Some n)
          end)
  | Requesting => r ← build c Request out; mret (c, r.1, r.2)
  | Selecting | Bound => mret (c, out, None)
  end.

Definition on_receive (c : DhcpClient) (view : DhcpView) : outcome DhcpClient :=
  header ← dhcp_header view;
  if negb (xid header =? client_xid c) then mret c
  else
    opts ← dhcp_options view;
    t ← dhcp_message_type view;
    mret match t, state c with
    | Some Offer, Selecting =>
      {| mac := mac c; client_xid := client_xid c; state := Requesting; offered_ip := Some (your_ip header);
         server_id := get_server_id opts; lease := lease c |}
    | Some Ack, Requesting =>
      {| mac := mac c; client_xid := client_xid c; state := Bound; offered_ip := offered_ip c;
         server_id := server_id c;
         lease := Some {| ip := your_ip header; lease_subnet_mask := get_subnet_mask opts;
                          lease_gateway := (ipv4_list_next (get_routers opts)).1;
                          lease_server_id := get_server_id opts; lease_time := get_lease_time opts |} |}
    | Some Nak, _ =>
      {| mac := mac c; client_xid := client_xid c; state := Init; offered_ip := None; server_id := None;
         lease := lease c |}
    | _, _ => c
    end.

(** The calls on a [SharedDhcpClient]. *)
Inductive event :=
| Poll (out : bytes)
| Receive (v : DhcpView).

Definition apply_event (c : DhcpClient) (e : event) : outcome DhcpClient :=
  match e with
  | Poll out => r ← poll c out; mret r.1.1
  | Receive v => on_receive c v
  end.

Fixpoint run (c : DhcpClient) (es : list event) : outcome DhcpClient :=
  match es with [] => mret c | e :: es => c ← apply_event c e; run c es end.

(** ** What the client sends *)

Definition some_option (code : Z) (a : option Ipv4Addr) : list (Z * bytes) :=
  match a with None => [] | Some a => [(code, octets a)] end.
Definition client_options (c : DhcpClient) (kind : MessageType) : list (Z * bytes) :=
  (option_MESSAGE_TYPE, [message_type_to_u8 kind]) ::
  (if bool_decide (kind = Request)
   then some_option option_REQUESTED_IP (offered_ip c) ++ some_option option_SERVER_ID (server_id c) else []) ++
  [(option_PARAMETER_REQUEST_LIST, PARAM_REQUEST_LIST)].
Definition client_header (c : DhcpClient) : DhcpHeader :=
  set_client_hardware_addr (set_broadcast (set_xid
    (init_ethernet (of_bytes (replicate 240 0)) op_BOOTREQUEST) (client_xid c)) true) (mac c).
Definition client_params (c : DhcpClient) : UdpV4 :=
  {| src_mac := mac c; Frame.dst_mac := BROADCAST; src_ip := UNSPECIFIED; Frame.dst_ip := BROADCAST_IP;
     src_port := CLIENT_PORT; dst_port := SERVER_PORT; ttl := DEFAULT_TTL |}.

Lemma write_client_options_eq c kind w :
  write_client_options c kind w = write_options w (client_options c kind) ;&& write_end.
Proof.
  unfold write_client_options, client_options, write_message_type, write_ipv4, wthen, wunless.
  cbn [write_options]. destruct (write_option w option_MESSAGE_TYPE _) as [w1 []]; [|done].
  assert (∀ w, (let '(w, ok) := write_option w option_PARAMETER_REQUEST_LIST PARAM_REQUEST_LIST in
      if ok then write_end w else (w, false)) =
    let '(w, ok) := write_options w [(option_PARAMETER_REQUEST_LIST, PARAM_REQUEST_LIST)] in
      if ok then write_end w else (w, false)) as Hlast.
  { intros w'. cbn [write_options]. by destruct (write_option w' _ _) as [w'' []]. }
  case_bool_decide; cbn [negb app]; [|apply Hlast].
  destruct (offered_ip c) as [a|], (server_id c) as [b|]; cbn [some_option app write_some]; rewrite ?Hlast; try done;
    cbn [write_options]; unfold write_ipv4; repeat (destruct (write_option _ _ (octets _)) as [? []]; try done).
Qed.

Lemma client_options_fit c kind :
  (length (encode (client_options c kind)) ≤ 271)%nat ∧ Forall option_wf (client_options c kind).
Proof.
  assert (∀ co v, co ≠ option_PAD → co ≠ option_END → (length v ≤ 255)%nat → option_wf (co, v)) as Hw
    by (intros; by split_and!).
  unfold client_options. case_bool_decide; [destruct (offered_ip c) as [a|], (server_id c) as [b|]|];
    (split; [vm_compute; lia|]); cbn [some_option app];
    repeat (apply Forall_cons_2; [apply Hw; [done|done|cbn; lia]|]); constructor.
Qed.

(** The client's data are machine words. *)
Record client_wf (c : DhcpClient) : Prop := {
  cw_mac : mac_ok (mac c);
  cw_xid : u32 (client_xid c);
  cw_offered : ∀ a, offered_ip c = Some a → u32 a;
  cw_server : ∀ a, server_id c = Some a → u32 a;
}.

(** What a server reads from a client's message. *)
Record client_msg (d : DhcpView) (c : DhcpClient) (kind : MessageType) : Prop := {
  cm_op : op (view_header d) = op_BOOTREQUEST;
  cm_xid : xid (view_header d) = client_xid c;
  cm_mac : view_mac d = mac c;
  cm_broadcast : broadcast (view_header d) = true;
  cm_type : get_message_type (view_opts d) = Some kind;
  cm_requested : get_requested_ip (view_opts d) = if bool_decide (kind = Request) then offered_ip c else None;
  cm_server : get_server_id (view_opts d) = if bool_decide (kind = Request) then server_id c else None;
}.

Lemma client_header_wf c : length (mac c) = 6%nat → pod_wf (client_header c).
Proof. intros Hc. unfold client_header. destruct c as [m ? ? ? ? ?]. cbn [mac] in *. explode_list m. repeat split. Qed.

Lemma client_header_fields c :
  length (mac c) = 6%nat → u32 (client_xid c) →
  op (client_header c) = op_BOOTREQUEST ∧ xid (client_header c) = client_xid c ∧
  client_mac (client_header c) = mac c ∧ broadcast (client_header c) = true ∧ your_ip (client_header c) = 0.
Proof.
  unfold client_header. destruct c as [m x ? ? ? ?]. cbn [mac client_xid]. intros Hc Hx. explode_list m.
  split_and!; try reflexivity. by apply (from_to_be32 x).
Qed.

Lemma client_view_msg d c kind :
  client_wf c → view_header d = client_header c → view_opts d = encode (client_options c kind) ++ [option_END] →
  client_msg d c kind.
Proof.
  intros [Hm Hx Ho Hs] Eh Eo.
  destruct (client_header_fields c (proj1 Hm) Hx) as (Fo & Fx & Fc & Fb & _).
  destruct (client_options_fit c kind) as [_ Hwf].
  split; unfold view_mac; rewrite ?Eh, ?Eo; try done.
  - unfold get_message_type. rewrite options_get_encoded by done. by destruct kind.
  - unfold get_requested_ip. rewrite options_get_encoded by done. unfold client_options.
    case_bool_decide; [|done]. destruct (offered_ip c) as [a|], (server_id c) as [b|]; cbn -[octets opt_ipv4];
      try done; by apply opt_ipv4_octets, Ho.
  - unfold get_server_id. rewrite options_get_encoded by done. unfold client_options.
    case_bool_decide; [|done]. destruct (offered_ip c) as [a|], (server_id c) as [b|]; cbn -[octets opt_ipv4];
      try done; by apply opt_ipv4_octets, Hs.
Qed.

Lemma build_eq c kind out :
  length (mac c) = 6%nat →
  build c kind out = build_udp_ipv4 out (client_params c) (dhcp_payload (client_header c) (client_options c kind)).
Proof.
  intros Hm. unfold build. change (replicate PAYLOAD_MAX 0) with (replicate 240 0 ++ replicate 272 0).
  rewrite mut_from_prefix_app by reflexivity. fold (client_header c). rewrite write_client_options_eq.
  destruct (client_options_fit c kind) as [Hf Hwf].
  destruct (written_payload (client_header c) (client_options c kind) (client_header_wf c Hm) Hf Hwf)
    as (w & rest & -> & E & L).
  cbn [fst snd]. rewrite L, E, get_range_Ret by (rewrite ?length_app; lia). cbn [mbind outcome_bind].
  by rewrite Nat.sub_0_r, slice_app_0 by done.
Qed.

Lemma client_params_ok c : mac_ok (mac c) → params_ok (client_params c).
Proof. intros Hm. split; try decide_now; done. Qed.

Lemma build_total c kind out : mac_ok (mac c) → ∃ r, build c kind out = Ret r ∧ fits out r.
Proof.
  intros Hm. rewrite build_eq by apply Hm. apply build_udp_ipv4_total; by apply client_params_ok.
Qed.

Lemma build_decodes c kind out :
  client_wf c → (554 ≤ length out)%nat →
  ∃ f n d, build c kind out = Ret (f, Some n) ∧ with_dhcp (firstn n f) = Ret (Some d) ∧ msg_ok d ∧
    client_msg d c kind.
Proof.
  intros Hw Ho. pose proof Hw as [Hm Hx _ _]. rewrite build_eq by apply Hm.
  destruct (client_options_fit c kind) as [Hf Hwf].
  assert (pod_wf (client_header c)) as Hh by (apply client_header_wf, Hm).
  pose proof (client_params_ok c Hm) as Hp.
  destruct (sent_built _ _ _ Hh Hf Hp out Ho) as (f & Ef & Et).
  destruct (sent_decodes _ _ _ [] Hh Hf Hp eq_refl) as (Ed & Hv & Eh & Eo). rewrite app_nil_r in Ed.
  eexists f, _, _. split; [exact Ef|]. rewrite Et. split; [exact Ed|].
  destruct (client_header_fields c (proj1 Hm) Hx) as (_ & Fx & Fc & _ & Fy).
  split; [|by apply client_view_msg]. split; [done|]. unfold view_mac. rewrite Eh, Fx, Fc, Fy. split_and!; [done..|decide_now].
Qed.

(** The typed view of a REQUEST names the offer it accepts. *)
Lemma request_reads d c a s :
  dhcp_view_wf d → client_msg d c Request → offered_ip c = Some a → server_id c = Some s →
  ∃ m, dhcp_request d = Ret (Some m) ∧ transaction_id m = client_xid c ∧
    request_requested_ip m = Some a ∧ request_server_id m = Some s.
Proof.
  intros Hv [_ Hx _ _ Ht Hq Hs] Ea Es. unfold dhcp_request. rewrite dhcp_header_Ret, dhcp_options_Ret by done.
  cbn [mbind outcome_bind]. fold (view_header d) (view_opts d). unfold request_parse, parse_message. rewrite Ht.
  cbn [mbind option_bind]. eexists. split; [reflexivity|]. split; [exact Hx|]. split.
  - unfold request_requested_ip. cbn [msg_options]. rewrite Hq. by rewrite Ea.
  - unfold request_server_id. cbn [msg_options]. rewrite Hs. by rewrite Es.
Qed.

(** [on_receive], with the accessors of the view evaluated. *)
Lemma on_receive_own c v :
  dhcp_view_wf v → xid (view_header v) = client_xid c →
  on_receive c v = Ret match get_message_type (view_opts v), state c with
    | Some Offer, Selecting =>
      {| mac := mac c; client_xid := client_xid c; state := Requesting; offered_ip := Some (your_ip (view_header v));
         server_id := get_server_id (view_opts v); lease := lease c |}
    | Some Ack, Requesting =>
      {| mac := mac c; client_xid := client_xid c; state := Bound; offered_ip := offered_ip c;
         server_id := server_id c;
         lease := Some {| ip := your_ip (view_header v); lease_subnet_mask := get_subnet_mask (view_opts v);
                          lease_gateway := (ipv4_list_next (get_routers (view_opts v))).1;
                          lease_server_id := get_server_id (view_opts v);
                          lease_time := get_lease_time (view_opts v) |} |}
    | Some Nak, _ =>
      {| mac := mac c; client_xid := client_xid c; state := Init; offered_ip := None; server_id := None;
         lease := lease c |}
    | _, _ => c
    end.
Proof.
  intros Hv Hx. unfold on_receive. rewrite dhcp_header_Ret, dhcp_options_Ret, msg_type by done.
  cbn [mbind outcome_bind]. fold (view_header v) (view_opts v). by rewrite Hx, Z.eqb_refl.
Qed.

(** ** The exchange with a server *)

Section exchange.
Context {T : Type} `{FreePool T}.

(** One request and its response: the client's next message is delivered to
    the server and the server's reply to the client. *)
Definition round (c : DhcpClient) (s : DhcpServer T) (out reply : bytes) : outcome (DhcpClient * DhcpServer T) :=
  p ← poll c out;
  match p with
  | (c, _, None) => mret (c, s)
  | (c, f, Some n) =>
    v ← with_dhcp (firstn n f);
    match v with
    | None => mret (c, s)
    | Some v =>
      r ← handle s v reply;
      match r with
      | (s, _, None) => mret (c, s)
      | (s, f, Some n) =>
        v ← with_dhcp (firstn n f);
        match v with
        | None => mret (c, s)
        | Some v => c ← on_receive c v; mret (c, s)
        end
      end
    end
  end.

Lemma round_discover c s out reply :
  client_wf c → state c = Init → server_wf s → buf_ok out → buf_ok reply →
  is_Some (lease_of s (mac c)) ∨ fp_free (pool s) ≠ ∅ →
  ∃ c' s' ip, round c s out reply = Ret (c', s') ∧ server_wf s' ∧ cfg s' = cfg s ∧ lease_of s' (mac c) = Some ip ∧
    u32 ip ∧ c' = {| mac := mac c; client_xid := client_xid c; state := Requesting; offered_ip := Some ip;
             server_id := Some (server_ip (cfg s)); lease := lease c |}.
Proof.
  intros Hc Hi Hs Ho Hr Hf. destruct (build_decodes c Discover out Hc Ho) as (f & n & d & Eb & Ed & Hd & [_ Hx Hm _ Ht _ _]).
  unfold round, poll. rewrite Hi, Eb. cbn [mbind outcome_bind mret outcome_ret fst snd]. rewrite Ed. cbn [mbind outcome_bind].
  destruct (handle_discover s d reply Hs Hd Hr Ht) as (ip & s' & g & k & -> & Hs' & Ec & El & Dr); [by rewrite Hm|].
  cbn [mbind outcome_bind]. destruct Dr as (w & -> & Hw & [_ Rx Ry _ Rt Rs _]). cbn [mbind outcome_bind].
  rewrite on_receive_own by (apply Hw || by rewrite Rx, Hx). cbn [mbind outcome_bind]. rewrite Rt, Ry, Rs.
  cbn [with_client_state state]. rewrite Hm in El. eexists _, s', ip. split; [reflexivity|]. split_and!; try done.
  eapply leased_u32; [apply Hs'|by eapply lease_leased].
Qed.

Lemma round_request c s out reply a :
  client_wf c → state c = Requesting → server_wf s → buf_ok out → buf_ok reply →
  offered_ip c = Some a → server_id c = Some (server_ip (cfg s)) → lease_of s (mac c) = Some a →
  round c s out reply = Ret ({| mac := mac c; client_xid := client_xid c; state := Bound; offered_ip := Some a;
    server_id := server_id c;
    lease := Some {| ip := a; lease_subnet_mask := Some (subnet_mask (cfg s));
                     lease_gateway := Some (gateway (cfg s)); lease_server_id := Some (server_ip (cfg s));
                     lease_time := Some (lease_secs (cfg s)) |} |}, s).
Proof.
  intros Hc Hi Hs Ho Hr Ha Hsid Hl.
  destruct (build_decodes c Request out Hc Ho) as (f & n & d & Eb & Ed & Hd & [_ Hx Hm _ Ht Hq Hsv]).
  rewrite bool_decide_true in Hq, Hsv by done.
  unfold round, poll. rewrite Hi, Eb. cbn [mbind outcome_bind mret outcome_ret fst snd]. rewrite Ed. cbn [mbind outcome_bind].
  destruct (handle_request s d reply a Hs Hd Hr Ht) as (g & k & -> & Dr); [left; congruence|by rewrite Hm|].
  rewrite Hq, Ha in Dr. cbn [default from_option id] in Dr. rewrite Z.eqb_refl in Dr.
  cbn [mbind outcome_bind]. destruct Dr as (w & -> & Hw & [_ Rx Ry _ Rt Rs Rc]). cbn [mbind outcome_bind].
  rewrite on_receive_own by (apply Hw || by rewrite Rx, Hx). cbn [mbind outcome_bind].
  destruct Rc as (R1 & R2 & R3); [done|]. by rewrite Rt, Hi, Ry, Rs, R1, R2, R3, Ha.
Qed.

End exchange.

(** ** Where a lease comes from *)

(** The message is of the given kind and of transaction [x]. *)
Definition is_msg (kind : MessageType) (x : Z) (v : DhcpView) : Prop :=
  get_message_type (view_opts v) = Some kind ∧ xid (view_header v) = x.
Definition lease_in (v : DhcpView) : DhcpLease :=
  {| ip := your_ip (view_header v); lease_subnet_mask := get_subnet_mask (view_opts v);
     lease_gateway := (ipv4_list_next (get_routers (view_opts v))).1;
     lease_server_id := get_server_id (view_opts v); lease_time := get_lease_time (view_opts v) |}.

Definition event_ok (e : event) : Prop := match e with Receive v => dhcp_view_wf v | Poll _ => True end.

(** An OFFER of the transaction was received, and not refused since. *)
Definition offered (x : Z) (o : option Ipv4Addr) (sid : option Ipv4Addr) (es : list event) : Prop :=
  ∃ es1 v es2, es = es1 ++ Receive v :: es2 ∧ is_msg Offer x v ∧ o = Some (your_ip (view_header v)) ∧
    sid = get_server_id (view_opts v) ∧ ∀ w, Receive w ∈ es2 → ¬ is_msg Nak x w.

(** What the state of a client says about the calls made so far. *)
Definition explained (x : Z) (es : list event) (c : DhcpClient) : Prop :=
  match state c with
  | Init | Selecting => True
  | Requesting => offered x (offered_ip c) (server_id c) es
  | Bound => ∃ es1 v es2, es = es1 ++ Receive v :: es2 ∧ is_msg Ack x v ∧ lease c = Some (lease_in v) ∧
      offered x (offered_ip c) (server_id c) es1 ∧ ∀ w, Receive w ∈ es2 → ¬ is_msg Nak x w
  end.

Lemma offered_snoc x o sid es e :
  (∀ w, e = Receive w → ¬ is_msg Nak x w) → offered x o sid es → offered x o sid (es ++ [e]).
Proof.
  intros Hn (es1 & v & es2 & -> & Hm & Ho & Hs & Hq). exists es1, v, (es2 ++ [e]).
  rewrite <- app_assoc. split_and!; try done. intros w Hw%elem_of_app. destruct Hw as [Hw|Hw%list_elem_of_singleton]; [eauto|].
  by apply Hn.
Qed.

Lemma explained_snoc x es c e :
  (∀ w, e = Receive w → ¬ is_msg Nak x w) → explained x es c → explained x (es ++ [e]) c.
Proof.
  intros Hn. unfold explained. destruct (state c); try done; [by apply offered_snoc|].
  intros (es1 & v & es2 & -> & Hm & Hl & Ho & Hq). exists es1, v, (es2 ++ [e]).
  rewrite <- app_assoc. split_and!; try done. intros w Hw%elem_of_app. destruct Hw as [Hw|Hw%list_elem_of_singleton]; [eauto|].
  by apply Hn.
Qed.

Lemma event_explained es c e :
  mac_ok (mac c) → event_ok e → explained (client_xid c) es c →
  ∃ c', apply_event c e = Ret c' ∧ mac c' = mac c ∧ client_xid c' = client_xid c ∧
    explained (client_xid c) (es ++ [e]) c'.
Proof.
  intros Hm He Hx. destruct e as [out|v]; cbn [apply_event].
  - assert (explained (client_xid c) (es ++ [Poll out]) c) as Hx' by (by apply explained_snoc).
    unfold poll. destruct (state c) eqn:Es; try (by exists c).
    + destruct (build_total c Discover out Hm) as ([o [n|]] & -> & _); cbn [mbind outcome_bind mret outcome_ret fst snd].
      * by eexists.
      * by exists c.
    + destruct (build_total c Request out Hm) as ([o r] & -> & _). by exists c.
  - cbn in He. destruct (decide (xid (view_header v) = client_xid c)) as [Ex|Ex].
    2:{ exists c. unfold on_receive. rewrite dhcp_header_Ret by done. cbn [mbind outcome_bind]. fold (view_header v).
        rewrite (proj2 (Z.eqb_neq _ _) Ex). split_and!; try done. apply explained_snoc; [|done]. by intros ? [= <-] [_ ?]. }
    rewrite on_receive_own by done. eexists. split; [reflexivity|].
    assert (get_message_type (view_opts v) ≠ Some Nak → explained (client_xid c) (es ++ [Receive v]) c) as Hk.
    { intros Hne. apply explained_snoc; [|done]. by intros w [= <-] [? _]. }
    destruct (get_message_type (view_opts v)) as [[]|] eqn:Et; try (by split_and!; try apply Hk);
      destruct (state c) eqn:Es; try (by split_and!; try apply Hk); split_and!; try done.
    + exists es, v, []. split_and!; try done. by intros w ?%elem_of_nil.
    + unfold explained in Hx. rewrite Es in Hx. exists es, v, []. split_and!; try done. by intros w ?%elem_of_nil.
Qed.

Lemma run_explained pre es c :
  mac_ok (mac c) → Forall event_ok es → explained (client_xid c) pre c →
  ∃ c', run c es = Ret c' ∧ mac c' = mac c ∧ client_xid c' = client_xid c ∧
    explained (client_xid c) (pre ++ es) c'.
Proof.
  intros Hm He. revert pre c Hm. induction He as [|e es He _ IH]; intros pre c Hm Hx.
  { exists c. by rewrite app_nil_r. }
  destruct (event_explained pre c e Hm He Hx) as (c1 & E1 & M1 & X1 & H1).
  destruct (IH (pre ++ [e]) c1) as (c2 & E2 & M2 & X2 & H2); [by rewrite M1|by rewrite X1|].
  exists c2. cbn [run]. rewrite E1. cbn [mbind outcome_bind]. rewrite <- app_assoc in H2.
  split_and!; [done|congruence|congruence|by rewrite X1 in H2].
Qed.

(** ** Claims *)

(** C8: the exchange completes: a new client whose DISCOVER reaches a server
    with a free address (or a lease for the client) is bound after two
    request/response rounds, even when other clients' messages are served in
    between and its REQUEST reaches another port's server with the same
    identity.  Its lease then holds the address that the servers have recorded
    for its hardware address and that server's configuration.  The messages
    travel as bytes: each is written into a frame, parsed from the frame on
    the other side, and nothing panics. *)
Theorem dora_binds_client {T : Type} `{FreePool T} (m : MacAddr) (x : Z) (s : DhcpServer T) (cfg2 : DhcpServerConfig)
    (es : list DhcpServer.event) (o1 o2 o3 o4 : bytes)
    (Hm : mac_ok m) (Hx : u32 x) (Hs : server_wf s) (Hcfg2 : cfg_ok cfg2)
    (Hsame : server_ip cfg2 = server_ip (cfg s))
    (Hfree : is_Some (lease_of s m) ∨ fp_free (pool s) ≠ ∅)
    (Hes : Forall DhcpServer.event_ok es) (Hother : Forall (not_from m) es)
    (H1 : buf_ok o1) (H2 : buf_ok o2) (H3 : buf_ok o3) (H4 : buf_ok o4) :
  ∃ c1 s1 p l c2 s2 a,
    round (new m x) s o1 o2 = Ret (c1, s1) ∧
    DhcpServer.run (pool s1, leases s1) es = Ret (p, l) ∧
    round c1 {| cfg := cfg2; pool := p; leases := l |} o3 o4 = Ret (c2, s2) ∧
    state c2 = Bound ∧ lease_of s2 m = Some a ∧
    lease c2 = Some {| ip := a; lease_subnet_mask := Some (subnet_mask cfg2); lease_gateway := Some (gateway cfg2);
                       lease_server_id := Some (server_ip cfg2); lease_time := Some (lease_secs cfg2) |}.
Proof.
  assert (client_wf (new m x)) as Hw by (split; [exact Hm|exact Hx|discriminate|discriminate]).
  destruct (round_discover (new m x) s o1 o2 Hw eq_refl Hs H1 H2 Hfree)
    as (c1 & s1 & a & E1 & [_ Hs1] & Ec & El & Ha & Ec1).
  destruct (server_run_spec _ _ es Hs1 Hes) as (p & l & Er & Hs2 & _ & _ & Hl).
  assert (client_wf c1) as Hw1.
  { subst c1. split; [exact Hm|exact Hx|intros ? [= <-]; exact Ha|intros ? [= <-]; apply Hs]. }
  pose proof (round_request c1 {| cfg := cfg2; pool := p; leases := l |} o3 o4 a Hw1) as E2. subst c1.
  assert (lookup_ l m = Some a) as Hla by exact (eq_trans (Hl m Hother) El).
  specialize (E2 eq_refl (conj Hcfg2 Hs2) H3 H4 eq_refl (f_equal Some (eq_sym Hsame)) Hla).
  eexists _, s1, p, l, _, _, a. split; [exact E1|]. split; [exact Er|]. split; [exact E2|].
  split; [reflexivity|]. split; [exact Hla|reflexivity].
Qed.

Lemma dora_binds_client_witness :
  ∃ c1 s1 c2 s2, round (new Sample.mac_a 77) Sample.server Sample.room Sample.room = Ret (c1, s1) ∧
    round c1 s1 Sample.room Sample.room = Ret (c2, s2) ∧ state c2 = Bound ∧
    bound_ip c2 = Some (ip4 192 168 0 10).
Proof.
  destruct (dora_binds_client Sample.mac_a 77 Sample.server Sample.config [] Sample.room Sample.room Sample.room
    Sample.room) as (c1 & s1 & p & l & c2 & s2 & a & E1 & Er & E2 & Hb & Hl & El).
  - split; [reflexivity|decide_now].
  - decide_now.
  - exact (conj Sample.config_ok Sample.state_ok).
  - exact Sample.config_ok.
  - reflexivity.
  - right. intros Hf. apply (f_equal size) in Hf. by vm_compute in Hf.
  - apply Forall_nil_2.
  - apply Forall_nil_2.
  - exact Sample.room_ok.
  - exact Sample.room_ok.
  - exact Sample.room_ok.
  - exact Sample.room_ok.
  - exists c1, s1, c2, s2. split; [exact E1|].
    assert (s1 = {| cfg := Sample.config; pool := p; leases := l |}) as Es.
    { injection Er as <- <-. vm_compute in E1. injection E1 as _ <-. reflexivity. }
    rewrite Es. split; [exact E2|]. split; [exact Hb|]. unfold bound_ip. rewrite El. cbn [fmap option_fmap option_map ip].
    subst s1. clear El Er. vm_compute in E1. injection E1 as <- <- <-. vm_compute in E2. injection E2 as _ <-.
    vm_compute in Hl. injection Hl as <-. reflexivity.
Defined.

(** C33: a client becomes bound by its own transaction only.  On any sequence of
    polls and received messages no call panics, and whenever the client is
    bound, its lease is what an ACK with its transaction id said, which came
    after an OFFER with that id whose address and server the client still
    records, with no NAK of the transaction in between or since. *)
Theorem bound_by_own_transaction (m : MacAddr) (x : Z) (es : list event)
    (Hm : mac_ok m) (Hes : Forall event_ok es) :
  ∃ c, run (new m x) es = Ret c ∧ mac c = m ∧ client_xid c = x ∧
    (state c = Bound →
     ∃ es1 ov es2 av es3, es = es1 ++ Receive ov :: es2 ++ Receive av :: es3 ∧
       is_msg Offer x ov ∧ is_msg Ack x av ∧ lease c = Some (lease_in av) ∧
       offered_ip c = Some (your_ip (view_header ov)) ∧ server_id c = get_server_id (view_opts ov) ∧
       (∀ w, Receive w ∈ es2 ++ es3 → ¬ is_msg Nak x w)).
Proof.
  destruct (run_explained [] es (new m x) Hm Hes) as (c & Er & Ec & Ex & He); [exact I|].
  exists c. split_and!; try done. intros Hb. unfold explained in He. rewrite Hb in He. cbn [app new client_xid] in He.
  destruct He as (pre & av & es3 & -> & Ha & Hl & (es1 & ov & es2 & -> & Ho & Hip & Hsid & Hn2) & Hn3).
  exists es1, ov, es2, av, es3. rewrite <- app_assoc. split_and!; try done.
  intros w [Hw|Hw]%elem_of_app; [by apply Hn2|by apply Hn3].
Qed.

(** A reply that the sample server sends to the sample client. *)
Definition sample_reply (kind : MessageType) : DhcpView :=
  sent_view (reply_header Sample.config 77 (ip4 192 168 0 10) Sample.mac_a) (reply_options Sample.config kind)
    (reply_params Sample.config kind (ip4 192 168 0 10) Sample.mac_a true) [].

Lemma bound_by_own_transaction_witness :
  ∃ c, run (new Sample.mac_a 77) [Poll Sample.room; Receive (sample_reply Offer); Poll Sample.room;
      Receive (sample_reply Ack)] = Ret c ∧ state c = Bound ∧ lease c = Some (lease_in (sample_reply Ack)).
Proof.
  destruct (bound_by_own_transaction Sample.mac_a 77 [Poll Sample.room; Receive (sample_reply Offer);
    Poll Sample.room; Receive (sample_reply Ack)]) as (c & E & _ & _ & Hb).
  - split; [reflexivity|decide_now].
  - apply Forall_cons_2; [exact I|]. apply Forall_cons_2; [unfold event_ok, dhcp_view_wf; vm_compute; lia|].
    apply Forall_cons_2; [exact I|]. apply Forall_cons_2; [unfold event_ok, dhcp_view_wf; vm_compute; lia|].
    apply Forall_nil_2.
  - exists c. split; [exact E|]. vm_compute in E. injection E as <-. split; [reflexivity|].
    destruct Hb as (es1 & ov & es2 & av & es3 & _ & _ & _ & Hl & _); [reflexivity|]. vm_compute. reflexivity.
Defined.

(** A NAK while bound sends the client back to [Init] but leaves the old lease
    in place: [bound_ip] goes on reporting the refused address. *)
Lemma nak_keeps_lease c v :
  dhcp_view_wf v → is_msg Nak (client_xid c) v →
  ∃ c', on_receive c v = Ret c' ∧ state c' = Init ∧ bound_ip c' = bound_ip c.
Proof. intros Hv [Ht Hx]. rewrite on_receive_own, Ht by done. by eexists. Qed.

(** A client whose DISCOVER or whose OFFER is lost stays in [Selecting]: polling
    it sends nothing. *)
Lemma selecting_is_silent c outs :
  state c = Selecting → run c (Poll <$> outs) = Ret c ∧ ∀ out, poll c out = Ret (c, out, None).
Proof.
  intros Hs. assert (∀ out, poll c out = Ret (c, out, None)) as Hp by (intros out; unfold poll; by rewrite Hs).
  split; [|done]. induction outs as [|o outs IH]; [done|]. cbn [fmap list_fmap run apply_event]. by rewrite Hp.
Qed.
