(* ===== verification/Workers.v ===== *)
(** * Workers that share tables

    A worker's treatment of an input as a program over shared state: each [Op]
    is one operation under a lock (or on an atomic), each [Send] hands a frame
    to a port, and everything between is local.  A configuration is the shared
    state and any number of workers; a schedule says which worker takes its next
    step, and when an idle worker is given its next input, so that quantifying
    over schedules is quantifying over the interleavings of locked operations.

    [ok] is the proof rule: a program is good for a worker if each of its steps,
    from every state that satisfies the invariant, satisfies it again.  A worker
    may own ghost resources, of type [L], which the invariant sees.  The rule
    is for total correctness when [may_panic] is [False], and for the safety of
    what happens before a panic when it is [True]. *)

From S2P Require Import Prelude.

Section programs.
Context {S O : Type}.

Inductive prog (A : Type) : Type :=
| Done (a : A)
| Fault
| Send (o : O) (k : prog A)
| Op {X : Type} (f : S → outcome (X * S)) (k : X → prog A).
#[global] Arguments Done {_} _.
#[global] Arguments Fault {_}.
#[global] Arguments Send {_} _ _.
#[global] Arguments Op {_ _} _ _.

Fixpoint pbind {A B} (p : prog A) (k : A → prog B) : prog B :=
  match p with
  | Done a => k a
  | Fault => Fault
  | Send o p => Send o (pbind p k)
  | Op f p => Op f (λ x, pbind (p x) k)
  end.

(** A local computation, and an operation on the shared state. *)
Definition local {A} (m : outcome A) : prog A := match m with Ret a => Done a | Panic => Fault end.
Definition atom {A} (f : S → outcome (A * S)) : prog A := Op f Done.
Definition send (o : O) : prog unit := Send o (Done ()).
Fixpoint send_each (os : list O) : prog unit :=
  match os with [] => Done () | o :: os => Send o (send_each os) end.

(** The program run without interruption. *)
Fixpoint exec {A} (p : prog A) (s : S) : outcome (A * S * list O) :=
  match p with
  | Done a => Ret (a, s, [])
  | Fault => Panic
  | Send o k => match exec k s with Ret (a, s, os) => Ret (a, s, o :: os) | Panic => Panic end
  | Op f k => match f s with Ret (x, s) => exec (k x) s | Panic => Panic end
  end.

Lemma exec_bind {A B} (p : prog A) (k : A → prog B) s :
  exec (pbind p k) s =
    match exec p s with
    | Ret (a, s, os) => match exec (k a) s with Ret (b, s, os') => Ret (b, s, os ++ os') | Panic => Panic end
    | Panic => Panic
    end.
Proof.
  revert s. induction p as [a| |o p IH|X f p IH]; intros s; cbn [pbind exec].
  - by destruct (exec (k a) s) as [[[b s'] os]|].
  - done.
  - rewrite IH. destruct (exec p s) as [[[a s1] os1]|]; [|done]. by destruct (exec (k a) s1) as [[[b s2] os2]|].
  - destruct (f s) as [[x s1]|]; [|done]. apply IH.
Qed.
Lemma exec_send_each os s : exec (send_each os) s = Ret ((), s, os).
Proof. induction os as [|o os IH]; [done|]. cbn [send_each exec]. by rewrite IH. Qed.
End programs.
Arguments prog : clear implicits.

Declare Scope prog_scope.
Delimit Scope prog_scope with prog.
Notation "x <~ m ; k" := (pbind m (λ x, k)) (at level 100, m at next level, right associativity) : prog_scope.

(** Use a part of a larger state. *)
Fixpoint zoom {S S' O A} (get : S' → S) (put : S → S' → S') (p : prog S O A) : prog S' O A :=
  match p with
  | Done a => Done a
  | Fault => Fault
  | Send o p => Send o (zoom get put p)
  | Op f k => Op (λ s', match f (get s') with Ret (x, s) => Ret (x, put s s') | Panic => Panic end) (λ x, zoom get put (k x))
  end.

Lemma exec_zoom {S S' O A} (get : S' → S) (put : S → S' → S') (p : prog S O A) s' :
  (∀ s s', get (put s s') = s) → (∀ s1 s2 s', put s1 (put s2 s') = put s1 s') → (∀ s', put (get s') s' = s') →
  exec (zoom get put p) s' =
    match exec p (get s') with Ret (a, s, os) => Ret (a, put s s', os) | Panic => Panic end.
Proof.
  intros H1 H2 H3. revert s'. induction p as [a| |o p IH|X f p IH]; intros s'; cbn [zoom exec].
  - by rewrite H3.
  - done.
  - rewrite IH. by destruct (exec p (get s')) as [[[a s] os]|].
  - destruct (f (get s')) as [[x s]|]; [|done]. rewrite IH, H1. destruct (exec (p x) s) as [[[a s1] os]|]; [|done].
    by rewrite H2.
Qed.

(** ** Configurations and schedules *)

Section schedules.
Context {S O E : Type} (body : E → prog S O unit).

(** A worker with the input it is treating. *)
Record worker := { job : option E; code : prog S O unit }.
Definition idle_worker : worker := {| job := None; code := Done () |}.

(** The inputs taken so far and the outputs with the inputs they answer. *)
Record config := { shared : S; history : list E; workers : list worker; outputs : list (option E * O) }.

Inductive action := Start (i : nat) (e : E) | Advance (i : nat).

Definition advance (p : prog S O unit) (s : S) : outcome (prog S O unit * S * list O) :=
  match p with
  | Done a => Ret (Done a, s, [])
  | Fault => Panic
  | Send o k => Ret (k, s, [o])
  | Op f k => match f s with Ret (x, s) => Ret (k x, s, []) | Panic => Panic end
  end.

(** An action that is not possible changes nothing. *)
Definition act (c : config) (a : action) : outcome config :=
  match a with
  | Start i e =>
    match workers c !! i with
    | Some {| code := Done _ |} =>
      mret {| shared := shared c; history := history c ++ [e];
              workers := <[i := {| job := Some e; code := body e |}]> (workers c); outputs := outputs c |}
    | _ => mret c
    end
  | Advance i =>
    match workers c !! i with
    | Some w =>
      '(p, s, os) ← advance (code w) (shared c);
      mret {| shared := s; history := history c; workers := <[i := {| job := job w; code := p |}]> (workers c);
              outputs := outputs c ++ ((λ o, (job w, o)) <$> os) |}
    | None => mret c
    end
  end.

Fixpoint run (c : config) (acts : list action) : outcome config :=
  match acts with [] => mret c | a :: acts => c ← act c a; run c acts end.

Definition start_config (s : S) (n : nat) : config :=
  {| shared := s; history := []; workers := replicate n idle_worker; outputs := [] |}.
Definition starts (acts : list action) : list E :=
  omap (λ a, match a with Start _ e => Some e | Advance _ => None end) acts.

(** ** The proof rule *)

Context {L : Type} (may_panic : Prop) (J : S → list E → list L → Prop) (P : option E → list E → O → Prop).

Fixpoint ok {A} (e : option E) (l : L) (p : prog S O A) (Q : L → A → Prop) : Prop :=
  match p with
  | Done a => Q l a
  | Fault => may_panic
  | Send o k => (∀ s h ls i, J s h ls → ls !! i = Some l → P e h o) ∧ ok e l k Q
  | Op f k => ∀ s h ls i, J s h ls → ls !! i = Some l →
      match f s with Panic => may_panic | Ret (x, s') => ∃ l', J s' h (<[i := l']> ls) ∧ ok e l' (k x) Q end
  end.

Lemma ok_bind {A B} e l (p : prog S O A) (k : A → prog S O B) Q :
  ok e l p (λ l' a, ok e l' (k a) Q) → ok e l (pbind p k) Q.
Proof.
  revert l. induction p as [a| |o p IH|X f p IH]; intros l; cbn [pbind ok]; [done|done| |].
  - intros [H1 H2]. auto.
  - intros H s h ls i HJ Hl. specialize (H s h ls i HJ Hl). destruct (f s) as [[x s']|]; [|done].
    destruct H as (l' & HJ' & Hk). eauto.
Qed.
Lemma ok_mono {A} e l (p : prog S O A) (Q R : L → A → Prop) :
  (∀ l a, Q l a → R l a) → ok e l p Q → ok e l p R.
Proof.
  intros HQR. revert l. induction p as [a| |o p IH|X f p IH]; intros l; cbn [ok]; [apply HQR|done| |].
  - intros [H1 H2]. auto.
  - intros H s h ls i HJ Hl. specialize (H s h ls i HJ Hl). destruct (f s) as [[x s']|]; [|done].
    destruct H as (l' & HJ' & Hk). eauto.
Qed.
Lemma ok_local {A} e l (m : outcome A) (Q : L → A → Prop) : (∃ a, m = Ret a ∧ Q l a) → ok e l (local m) Q.
Proof. by intros (a & -> & H). Qed.
Lemma ok_local_partial {A} e l (m : outcome A) (Q : L → A → Prop) :
  may_panic → (∀ a, m = Ret a → Q l a) → ok e l (local m) Q.
Proof. intros Hp HQ. destruct m; [by apply HQ|done]. Qed.
Lemma ok_send_each e l os (Q : L → unit → Prop) :
  (∀ o s h ls i, o ∈ os → J s h ls → ls !! i = Some l → P e h o) → Q l () → ok e l (send_each os) Q.
Proof.
  intros HP HQ. induction os as [|o os IH]; [done|]. cbn [send_each ok]. split.
  - intros. eapply HP; [left|done..].
  - apply IH. intros. eapply HP; [by right|done..].
Qed.

(** ** Adequacy *)

(** What a worker without an input may own. *)
Context (idle : L → Prop) (allowed : E → Prop).

Definition worker_ok (l : L) (w : worker) : Prop := ok (job w) l (code w) (λ l' _, idle l').
Definition config_ok (c : config) : Prop :=
  (∃ ls, J (shared c) (history c) ls ∧ Forall2 worker_ok ls (workers c)) ∧
  Forall (λ x, P x.1 (history c) x.2) (outputs c).

Context (Hstart : ∀ e s h ls i l0, allowed e → J s h ls → ls !! i = Some l0 → idle l0 →
  ∃ l, J s (h ++ [e]) (<[i := l]> ls) ∧ ok (Some e) l (body e) (λ l' _, idle l')).
Context (Hmono : ∀ e h e' o, P e h o → P e (h ++ [e']) o).

Abbreviation unless_panic o := (match o with Ret c => config_ok c | Panic => may_panic end).

Lemma act_ok c a : config_ok c → Forall allowed (starts [a]) → unless_panic (act c a).
Proof.
  intros Hc Ha. pose proof Hc as [(ls & HJ & Hws) Hout]. destruct a as [i e|i]; cbn [act].
  - destruct (workers c !! i) as [w|] eqn:Ew; [|done].
    destruct w as [j p]. destruct p as [[]| |o p|X f p]; try done.
    apply Forall_cons_1 in Ha as [Ha _]. cbn [mret outcome_ret].
    destruct (Forall2_lookup_r _ _ _ _ _ Hws Ew) as (l & El & Hl). unfold worker_ok in Hl. cbn in Hl.
    destruct (Hstart e _ _ _ _ _ Ha HJ El Hl) as (l' & HJ' & Hok). split; cbn [shared history workers outputs].
    + exists (<[i := l']> ls). split; [done|]. by apply Forall2_insert.
    + eapply List.Forall_impl; [|exact Hout]. auto.
  - destruct (workers c !! i) as [w|] eqn:Ew; [|done].
    destruct (Forall2_lookup_r _ _ _ _ _ Hws Ew) as (l & El & Hl). unfold worker_ok in Hl. destruct w as [j p]. cbn [code job] in *.
    assert (∀ l' p', ok j l' p' (λ l' _, idle l') → Forall2 worker_ok (<[i := l']> ls) (<[i := {| job := j; code := p' |}]> (workers c))) as Hins
      by (intros; by apply Forall2_insert).
    destruct p as [a| |o p|X f p]; cbn [advance mbind outcome_bind mret outcome_ret ok] in *; [|done| |].
    + split; cbn; [|by rewrite app_nil_r]. exists ls. split; [done|]. by rewrite list_insert_id.
    + destruct Hl as [HP Hl]. split; cbn.
      * exists ls. split; [done|]. rewrite <- (list_insert_id ls i l) by done. by apply Hins.
      * apply Forall_app_2; [done|]. apply Forall_singleton. by eapply HP.
    + specialize (Hl _ _ _ _ HJ El). destruct (f (shared c)) as [[x s']|]; [|done]. destruct Hl as (l' & HJ' & Hl).
      split; cbn; [|by rewrite app_nil_r]. exists (<[i := l']> ls). split; [done|]. by apply Hins.
Qed.

(** Under every schedule, the invariant and the promise on outputs hold unless a
    worker has panicked. *)
Lemma run_ok c acts : config_ok c → Forall allowed (starts acts) → unless_panic (run c acts).
Proof.
  revert c. induction acts as [|a acts IH]; intros c Hc Ha; [done|]. cbn [run].
  assert (unless_panic (act c a)) as H1 by (apply act_ok; [done|]; destruct a; cbn in *; [by inv_Forall; constructor|constructor]).
  destruct (act c a) as [c1|]; [|done]. apply IH; [done|]. destruct a; cbn in *; by inv_Forall.
Qed.

Lemma start_ok s n l : idle l → J s [] (replicate n l) → config_ok (start_config s n).
Proof.
  intros Hl HJ. split; [|constructor]. exists (replicate n l). split; [done|]. cbn [start_config workers].
  by apply Forall2_replicate.
Qed.
End schedules.
