(* ===== verification/DhcpWorkers.v ===== *)
(** * The DHCP servers under concurrent workers ([src/router/dhcp.rs])

    Several workers treat DHCP messages at the same time, and [handle] takes the
    locks of the pool and of the lease table once per operation.  Here [handle]
    is the program of its locked operations.  Run without interruption it is
    the [handle] of [DhcpServer]; under every interleaving the leases stay
    exclusive, but two messages of one client treated at once can lose an
    address. *)

From S2P Require Import Prelude Wire Ethernet Dhcp View Frame AddrPool Leases DhcpFrame DhcpServer Workers.
#[local] Open Scope prog_scope.

(** ** The server as locked operations *)

Section steps.
Context {T O : Type} `{FreePool T}.
Abbreviation handles := (T * LeaseTable)%type.

(** The operations of [SharedLeases] and [SharedAddressPool]. *)
Definition shared_lookup (m : MacAddr) : prog handles O (option Ipv4Addr) := atom (λ st, Ret (lookup_ st.2 m, st)).
Definition shared_insert (m : MacAddr) (ip : Ipv4Addr) : prog handles O unit :=
  atom (λ st, Ret ((), (st.1, insert_ st.2 m ip))).
Definition shared_remove (m : MacAddr) : prog handles O (option Ipv4Addr) :=
  atom (λ st, let '(l, r) := remove st.2 m in Ret (r, (st.1, l))).
Definition shared_take1 : prog handles O (option Ipv4Addr) :=
  atom (λ st, r ← fp_take1 st.1; mret (r.2, (r.1, st.2)))%stdpp.
Definition shared_release (ip : Ipv4Addr) : prog handles O unit :=
  atom (λ st, p ← fp_release st.1 ip; mret ((), (p, st.2)))%stdpp.
Definition shared_reserve (ip : Ipv4Addr) : prog handles O unit :=
  atom (λ st, r ← fp_reserve st.1 ip; mret ((), (r.1, st.2)))%stdpp.

Definition assign_steps (m : MacAddr) : prog handles O (option Ipv4Addr) :=
  found <~ shared_lookup m;
  match found with
  | Some ip => Done (Some ip)
  | None =>
    taken <~ shared_take1;
    match taken with
    | None => Done None
    | Some ip => _ <~ shared_insert m ip; Done (Some ip)
    end
  end.

(** The output buffer and the returned length. *)
Definition handle_steps (cfg : DhcpServerConfig) (view : DhcpView) (out : bytes) : prog handles O (bytes * option nat) :=
  header <~ local (dhcp_header view);
  let m := client_mac header in
  let x := xid header in
  let bc := broadcast header in
  opts <~ local (dhcp_options view);
  t <~ local (dhcp_message_type view);
  match t with
  | None => Done (out, None)
  | Some Discover =>
    a <~ assign_steps m;
    match a with
    | None => Done (out, None)
    | Some ip => local (build_reply cfg Offer x ip m bc out)
    end
  | Some Request =>
    if match get_server_id opts with Some sid => negb (sid =? server_ip cfg) | None => false end
    then Done (out, None)
    else
      let requested := default (client_ip header) (get_requested_ip opts) in
      a <~ assign_steps m;
      match a with
      | None => Done (out, None)
      | Some ip =>
        local (if requested =? ip then build_reply cfg Ack x ip m bc out
               else build_reply cfg Nak x UNSPECIFIED m true out)
      end
  | Some Release | Some Decline =>
    r <~ shared_remove m;
    match r with
    | None => Done (out, None)
    | Some ip => _ <~ shared_release ip; Done (out, None)
    end
  | Some _ => Done (out, None)
  end.

Lemma exec_assign c p l m :
  exec (assign_steps m) (p, l) =
    match assign {| cfg := c; pool := p; leases := l |} m with
    | Ret (s, r) => Ret (r, (pool s, leases s), [])
    | Panic => Panic
    end.
Proof.
  unfold assign_steps, assign. cbn. destruct (lookup_ l m); [done|]. cbn.
  destruct (fp_take1 p) as [[p' [ip|]]|]; done.
Qed.

Lemma assign_cfg (s s' : DhcpServer T) m r : assign s m = Ret (s', r) → cfg s' = cfg s.
Proof.
  unfold assign. destruct (lookup_ (leases s) m); [by intros [= <- _]|].
  destruct (fp_take1 (pool s)) as [[? []]|]; [by intros [= <- _]..|done].
Qed.

(** Without interruption, the steps are [handle]. *)
Lemma exec_handle c p l v out :
  exec (handle_steps c v out) (p, l) =
    match handle {| cfg := c; pool := p; leases := l |} v out with
    | Ret (s, o, r) => Ret ((o, r), (pool s, leases s), [])
    | Panic => Panic
    end.
Proof.
  unfold handle_steps, handle. destruct (dhcp_header v) as [h|]; [|done]. cbn [local pbind mbind outcome_bind].
  destruct (dhcp_options v) as [opts|]; [|done]. cbn [local pbind mbind outcome_bind].
  destruct (dhcp_message_type v) as [[[]|]|]; cbn [local pbind mbind outcome_bind]; try done.
  - rewrite exec_bind, (exec_assign c). destruct (assign _ _) as [[s [ip|]]|] eqn:Ea; [|done|done]. cbn [mbind outcome_bind].
    apply assign_cfg in Ea as ->. cbn [cfg].
    by destruct (build_reply _ _ _ _ _ _ _) as [[]|].
  - destruct (match get_server_id opts with Some _ => _ | None => _ end); [done|].
    rewrite exec_bind, (exec_assign c). destruct (assign _ _) as [[s [ip|]]|] eqn:Ea; [|done|done]. cbn [mbind outcome_bind].
    apply assign_cfg in Ea as ->. cbn [cfg].
    by destruct (if _ =? ip then _ else _) as [[]|].
  - cbn. destruct (by_mac l !! client_mac h); [|done]. cbn. by destruct (fp_release p _).
  - cbn. destruct (by_mac l !! client_mac h); [|done]. cbn. by destruct (fp_release p _).
Qed.
End steps.

(** ** Workers *)

Section workers.
Context {T : Type} `{FreePool T}.

(** What a worker does for a message or a claimed address; it sends the reply. *)
Definition serve (e : event) : prog (T * LeaseTable) bytes unit :=
  match e with
  | Message c v out =>
    r <~ handle_steps c v out;
    match r.2 with None => Done () | Some n => f <~ local (get_range r.1 0 n); send f end
  | Reserve _ ip => shared_reserve ip
  end.

(** The address a worker has taken from the pool or the leases and not yet put
    into the other. *)
Abbreviation in_hand := (option Ipv4Addr).
Context (b : Ipv4Addr * Ipv4Addr).

Record shared_ok (st : T * LeaseTable) (hands : list in_hand) : Prop := {
  so_state : state_wf st.1 st.2;
  so_bounds : fp_bounds st.1 = b;
  so_hand : ∀ i ip, hands !! i = Some (Some ip) → ip ∉ leased st.2 ∧ ip ∉ fp_free st.1 ∧ b.1 ≤ ip ≤ b.2;
  so_once : ∀ i j ip, hands !! i = Some (Some ip) → hands !! j = Some (Some ip) → i = j;
}.

Definition served (e : event) : Prop :=
  event_ok e ∧ match e with Message _ _ out => buf_ok out | Reserve _ _ => True end.

(** A reply is for the client of the message, and offers or grants an address of
    the pool's range. *)
Definition reply_ok (e : option event) (o : bytes) : Prop :=
  match e with
  | Some (Message c v _) => ∃ kind ip, decodes o c kind (xid (view_header v)) ip (view_mac v) ∧
      (kind = Nak ∨ b.1 ≤ ip ≤ b.2)
  | _ => False
  end.

(** Changing what worker [i] holds. *)
Lemma hand_insert st st' hands i h h' : shared_ok st hands → hands !! i = Some h → state_wf st'.1 st'.2 →
  fp_bounds st'.1 = b →
  (∀ ip, ip ∈ leased st'.2 ∪ fp_free st'.1 → ip ∈ leased st.2 ∪ fp_free st.1 ∨ h = Some ip) →
  (∀ ip, h' = Some ip → ip ∉ leased st'.2 ∧ ip ∉ fp_free st'.1 ∧ b.1 ≤ ip ≤ b.2 ∧
     (h = Some ip ∨ ip ∈ leased st.2 ∪ fp_free st.1)) →
  shared_ok st' (<[i := h']> hands).
Proof.
  intros [Hs Hb Hh Ho] Hi Hs' Hb' Hsub Hnew. assert (i < length hands)%nat as Hlt by (by eapply lookup_lt_Some).
  split; [done|done| |].
  - intros j ip. rewrite list_lookup_insert_Some. intros [(<- & -> & _)|(Hne & Hj)].
    + destruct (Hnew ip eq_refl) as (? & ? & ? & _). done.
    + destruct (Hh j ip Hj) as (H1 & H2 & H3).
      assert (ip ∉ leased st'.2 ∪ fp_free st'.1) as Hn by (intros [?| ->]%Hsub; [set_solver|by apply Hne; eapply Ho]).
      set_solver.
  - intros j k ip. rewrite !list_lookup_insert_Some. intros [(<- & -> & _)|(Hj & Hj')] [(<- & E & _)|(Hk & Hk')]; try done.
    + destruct (Hnew ip eq_refl) as (_ & _ & _ & [->|Hin]); [by eapply Ho|].
      destruct (Hh k ip Hk'). set_solver.
    + subst h'. destruct (Hnew ip eq_refl) as (_ & _ & _ & [->|Hin]); [symmetry; by eapply Ho|].
      destruct (Hh j ip Hj'). set_solver.
    + by eapply Ho.
Qed.

Lemma leased_insert_sub l m ip x : x ∈ leased (insert_ l m ip) → x = ip ∨ x ∈ leased l.
Proof.
  rewrite !elem_of_leased. cbn. intros (m' & Hx%lookup_insert_Some). destruct Hx as [[_ ->]|[_ Hx]]; eauto.
Qed.

(** The rules hold whatever the inputs and outputs of the workers are. *)
Section rules.
Context {E O : Type} (P : option E → list E → O → Prop).
Abbreviation fine := (ok False (λ st (_ : list E) hands, shared_ok st hands) P).

Lemma fine_lookup e h m (Q : in_hand → option Ipv4Addr → Prop) :
  (∀ r, (∀ ip, r = Some ip → b.1 ≤ ip ≤ b.2) → Q h r) → fine e h (shared_lookup m) Q.
Proof.
  intros HQ st hist hands i HJ Hi. exists h. rewrite list_insert_id by done. split; [done|]. apply HQ. intros ip Hip.
  rewrite <- (so_bounds _ _ HJ). apply (so_state _ _ HJ). apply elem_of_leased. eauto.
Qed.
Lemma fine_take1 e (Q : in_hand → option Ipv4Addr → Prop) :
  (∀ r, (∀ ip, r = Some ip → b.1 ≤ ip ≤ b.2) → Q r r) → fine e None shared_take1 Q.
Proof.
  intros HQ [p l] hist hands i HJ Hi. pose proof HJ as [[Hp Hlo Hhi He Hd Hr] Hb _ _]. cbn [fst snd] in *.
  destruct (fp_take1_law p Hp) as (p' & r & -> & Hp' & Hb' & Ht). cbn [mbind outcome_bind mret outcome_ret fst snd].
  exists r. destruct r as [ip|].
  - destruct Ht as (Hin & _ & Hf). pose proof (fp_in_bounds p ip Hp Hin) as Hbd. rewrite Hb in *. split.
    + apply (hand_insert _ _ _ _ _ _ HJ Hi); cbn [fst snd].
      * split; rewrite ?Hb'; try done. set_solver.
      * done.
      * rewrite Hf. set_solver.
      * intros ? [= <-]. rewrite Hf. set_solver.
    + apply HQ. by intros ? [= <-].
  - destruct Ht as [_ ->]. split; [|by apply HQ]. by rewrite list_insert_id.
Qed.
Lemma fine_insert e m ip (Q : in_hand → unit → Prop) : Q None () → fine e (Some ip) (shared_insert m ip) Q.
Proof.
  intros HQ [p l] hist hands i HJ Hi. pose proof HJ as [[Hp Hlo Hhi He Hd Hr] Hb Hh _]. cbn [fst snd] in *.
  destruct (Hh i ip Hi) as (H1 & H2 & H3). exists None. split; [|done].
  assert (∀ x, x ∈ leased (insert_ l m ip) → x = ip ∨ x ∈ leased l) as Hl by (intros x; apply leased_insert_sub).
  apply (hand_insert _ _ _ _ _ _ HJ Hi); cbn [fst snd]; [|done| |done].
  - split; try done; [by apply insert_exclusive| |].
    + intros x [->|?]%Hl ?; set_solver.
    + intros x [->|?]%Hl; [by rewrite Hb|auto].
  - intros x [[->|?]%Hl|?]%elem_of_union; set_solver.
Qed.
Lemma fine_remove e m (Q : in_hand → option Ipv4Addr → Prop) : (∀ r, Q r r) → fine e None (shared_remove m) Q.
Proof.
  intros HQ [p l] hist hands i HJ Hi. pose proof HJ as [[Hp Hlo Hhi He Hd Hr] Hb _ _]. cbn [fst snd] in *.
  destruct (remove l m) as [l' r] eqn:Er. exists r. split; [|apply HQ]. unfold remove in Er. apply pair_eq in Er as [El Er].
  pose proof (remove_exclusive l m He) as He'. change (remove l m).1 with {| by_mac := delete m (by_mac l) |} in He'. rewrite El in He'.
  assert (leased l' ⊆ leased l) as Hsub.
  { rewrite <- El. intros x. rewrite !elem_of_leased. cbn. intros (m' & [_ Hx]%lookup_delete_Some). eauto. }
  apply (hand_insert _ _ _ _ _ _ HJ Hi); cbn [fst snd]; [|done|set_solver|].
  - split; try done; [set_solver|]. intros x Hx. apply Hr. set_solver.
  - intros ip ->. assert (ip ∈ leased l) as Hin by (apply elem_of_leased; eauto).
    pose proof (leased_remove l m ip He Er) as Hl. change (remove l m).1 with {| by_mac := delete m (by_mac l) |} in Hl. rewrite El in Hl.
    rewrite Hl. specialize (Hr _ Hin). rewrite Hb in Hr. set_solver.
Qed.
Lemma fine_release e ip (Q : in_hand → unit → Prop) : Q None () → fine e (Some ip) (shared_release ip) Q.
Proof.
  intros HQ [p l] hist hands i HJ Hi. pose proof HJ as [[Hp Hlo Hhi He Hd Hr] Hb Hh _]. cbn [fst snd] in *.
  destruct (Hh i ip Hi) as (H1 & H2 & H3). destruct (fp_release_law p ip Hp) as (p' & -> & Hp' & Hb' & Hf); [by rewrite Hb|done|].
  exists None. split; [|done]. rewrite Hb in Hb'.
  apply (hand_insert _ _ _ _ _ _ HJ Hi); cbn [fst snd]; [|done| |done].
  - split; rewrite ?Hb'; rewrite Hb in *; try done. set_solver.
  - rewrite Hf. set_solver.
Qed.
Lemma fine_reserve e ip (Q : in_hand → unit → Prop) : Q None () → fine e None (shared_reserve ip) Q.
Proof.
  intros HQ [p l] hist hands i HJ Hi. pose proof HJ as [[Hp Hlo Hhi He Hd Hr] Hb Hh _]. cbn [fst snd] in *.
  destruct (fp_reserve_law p ip Hp) as (p' & r & -> & Hp' & Hb' & Hf & _). exists None. split; [|done]. rewrite Hb in Hb'.
  apply (hand_insert _ _ _ _ _ _ HJ Hi); cbn [fst snd]; [|done| |done].
  - split; rewrite ?Hb'; rewrite Hb in *; try done. set_solver.
  - rewrite Hf. set_solver.
Qed.

Lemma fine_assign e m (Q : in_hand → option Ipv4Addr → Prop) :
  (∀ r, (∀ ip, r = Some ip → b.1 ≤ ip ≤ b.2) → Q None r) → fine e None (assign_steps m) Q.
Proof.
  intros HQ. apply ok_bind, fine_lookup. intros [ip|] Hb; [by apply HQ|].
  apply ok_bind, fine_take1. intros [ip|] Hb'; [|by apply HQ]. apply ok_bind, fine_insert. by apply HQ.
Qed.

Context (Hlow : 0 ≤ b.1) (Hhigh : b.2 < 2 ^ 32).

(** What [handle] leaves behind: no address in hand, and a reply, if any, that
    fits its buffer. *)
Definition handled (c : DhcpServerConfig) (v : DhcpView) (out : bytes) (h : in_hand) (r : bytes * option nat) : Prop :=
  h = None ∧ fits out r ∧ ∀ n, r.2 = Some n → buf_ok out →
    ∃ kind ip, decodes (firstn n r.1) c kind (xid (view_header v)) ip (view_mac v) ∧ (kind = Nak ∨ b.1 ≤ ip ≤ b.2).

Lemma fine_reply e c v out kind yi bc :
  cfg_ok c → msg_ok v → u32 yi → kind = Nak ∨ b.1 ≤ yi ≤ b.2 →
  fine e None (local (build_reply c kind (xid (view_header v)) yi (view_mac v) bc out)) (handled c v out).
Proof.
  intros Hc (Hv & Hm & Hx & _) Hy Hk.
  destruct (build_reply_total c kind (xid (view_header v)) yi (view_mac v) bc out) as (r & Er & Hf); [done..|].
  apply ok_local. exists r. split; [done|]. split_and!; [done|done|]. intros n Hn Ho.
  destruct (build_reply_decodes c kind (xid (view_header v)) yi (view_mac v) bc out) as (f & k & Ek & Hd); [done..|].
  rewrite Er in Ek. injection Ek as ->. injection Hn as <-. by exists kind, yi.
Qed.

Lemma fine_handle e c v out : cfg_ok c → msg_ok v → fine e None (handle_steps c v out) (handled c v out).
Proof.
  intros Hc Hm. pose proof Hm as (Hv & _). assert (∀ ip, b.1 ≤ ip ≤ b.2 → u32 ip) as Hu by (unfold u32; lia).
  assert (handled c v out None (out, None)) as Hsame by done.
  unfold handle_steps. rewrite dhcp_header_Ret, dhcp_options_Ret, msg_type by done. cbn [local pbind].
  fold (view_header v) (view_mac v) (view_opts v). destruct (get_message_type (view_opts v)) as [[]|]; try done.
  - apply ok_bind, fine_assign. intros [ip|] Hip; [|done]. apply fine_reply; auto.
  - destruct (match get_server_id _ with Some _ => _ | None => _ end); [done|].
    apply ok_bind, fine_assign. intros [ip|] Hip; [|done].
    destruct (_ =? ip); [apply fine_reply; auto|apply fine_reply; auto; decide_now].
  - apply ok_bind, fine_remove. intros [ip|]; [|done]. by apply ok_bind, fine_release.
  - apply ok_bind, fine_remove. intros [ip|]; [|done]. by apply ok_bind, fine_release.
Qed.
End rules.

Abbreviation fine := (ok False (λ st (_ : list event) hands, shared_ok st hands) (λ e _ o, reply_ok e o)).

Lemma serve_fine e : 0 ≤ b.1 → b.2 < 2 ^ 32 → served e → fine (Some e) None (serve e) (λ l' _, None = l').
Proof.
  intros Hlow Hhigh [He Hbuf]. destruct e as [c v out|c ip]; cbn [serve]; [|by apply fine_reserve].
  destruct He as [Hc Hm]. apply ok_bind. eapply ok_mono; [|by apply fine_handle].
  intros h [f r] (-> & [Hl Hn] & Hd). cbn [fst snd] in *. destruct r as [n|]; [|done].
  apply ok_bind, ok_local. exists (firstn n f). split.
  - rewrite get_range_Ret by (rewrite ?Hl; auto with lia). unfold slice. by rewrite Nat.sub_0_r, drop_0.
  - cbn. split; [|done]. intros. exact (Hd n eq_refl Hbuf).
Qed.
End workers.

(** ** Properties *)

(** C12: the DHCP servers under concurrency: for any number of workers that treat
    DHCP messages and address claims at the same time, and under every
    interleaving of their locked operations on the pool and the leases, no worker
    panics; no address is ever leased to two clients, no leased address is free
    in the pool, and every leased address lies in the pool's range; and every
    reply sent is a DHCP message for the client that asked, which refuses it or
    names an address of the pool's range. *)
Theorem leases_exclusive_concurrently {T : Type} `{FreePool T} (p : T) (l : LeaseTable) (n : nat)
    (acts : list (action (E := event))) (Hs : state_wf p l) (Hacts : Forall served (starts acts)) :
  ∃ c, run serve (start_config (p, l) n) acts = Ret c ∧
    let '(p', l') := shared c in
    (∀ m m' ip, lookup_ l' m = Some ip → lookup_ l' m' = Some ip → m = m') ∧
    (∀ m ip, lookup_ l' m = Some ip → ip ∉ fp_free p' ∧ (fp_bounds p).1 ≤ ip ≤ (fp_bounds p).2) ∧
    Forall (λ x, reply_ok (fp_bounds p) x.1 x.2) (outputs c).
Proof.
  assert (config_ok False (λ st (_ : list event) hands, shared_ok (fp_bounds p) st hands) (λ e _ o, reply_ok (fp_bounds p) e o)
    (eq None) (start_config (O := bytes) (E := event) (p, l) n)) as Hstart.
  { apply (start_ok _ _ _ _ _ _ None eq_refl). split; cbn [fst snd]; [done|done| |].
    - intros i ip Hi. by apply lookup_replicate in Hi as [? _].
    - intros i j ip Hi. by apply lookup_replicate in Hi as [? _]. }
  eapply (run_ok serve) in Hstart; [|intros e st h hands i l0 He HJ Hi <-|done|exact Hacts].
  2:{ exists None. rewrite list_insert_id by done. split; [done|]. by apply serve_fine; [apply Hs..|]. }
  destruct (run serve _ acts) as [c|]; [|done]. exists c. split; [done|]. destruct Hstart as [(hands & HJ & _) Hout].
  destruct (shared c) as [p' l']. destruct HJ as [[_ _ _ He Hd Hr] Hb _ _]. cbn [fst snd] in *.
  split_and!; [done| |done]. intros m ip Hm. assert (ip ∈ leased l') as Hin by (apply elem_of_leased; by exists m).
  rewrite <- Hb. split; [set_solver|by apply Hr].
Qed.

Import DhcpServer.Sample.

(** Both messages are read before either worker takes an address. *)
Definition schedule (m m' : MacAddr) : list (action (E := event)) :=
  [Start 0 (Message config (discover m) room); Start 1 (Message config (discover m') room);
   Advance 0; Advance 1; Advance 0; Advance 1; Advance 0; Advance 1; Advance 0; Advance 1].

(** What the witnesses look at after a run. *)
Definition after (m m' : MacAddr) : option (option Ipv4Addr * option Ipv4Addr * nat) :=
  match run serve (start_config (addresses, default_) 2) (schedule m m') with
  | Ret c => Some (lookup_ (shared c).2 m, lookup_ (shared c).2 m', length (outputs c))
  | Panic => None
  end.
Lemma after_ab : after mac_a mac_b = Some (Some (ip4 192 168 0 10), Some (ip4 192 168 0 11), 2%nat).
Proof. vm_compute. reflexivity. Qed.

Lemma leases_exclusive_concurrently_witness :
  ∃ c, run serve (start_config (addresses, default_) 2) (schedule mac_a mac_b) = Ret c ∧
    lookup_ (shared c).2 mac_a = Some (ip4 192 168 0 10) ∧ lookup_ (shared c).2 mac_b = Some (ip4 192 168 0 11) ∧
    Forall (λ x, reply_ok (fp_bounds addresses) x.1 x.2) (outputs c) ∧ length (outputs c) = 2%nat.
Proof.
  destruct (leases_exclusive_concurrently addresses default_ 2 (schedule mac_a mac_b) state_ok) as (c & E & H).
  - apply Forall_cons_2; [exact (conj (conj config_ok (proj1 discover_ok)) room_ok)|].
    apply Forall_cons_2; [exact (conj (conj config_ok (proj2 discover_ok)) room_ok)|]. apply Forall_nil_2.
  - exists c. split; [exact E|]. pose proof after_ab as Ea. unfold after in Ea. rewrite E in Ea.
    destruct (shared c) as [p' l']. destruct H as (_ & _ & Hout). injection Ea as Ha Hb Hl.
    split; [exact Ha|]. split; [exact Hb|]. split; [exact Hout|exact Hl].
Defined.

(** The address a reply names. *)
Definition offered (f : bytes) : option Ipv4Addr :=
  match with_dhcp f with Ret (Some v) => Some (your_ip (view_header v)) | _ => None end.

(** Two DISCOVERs of one client treated at once: both workers find no lease and
    take an address; the second insertion overwrites the first, whose address
    is then neither leased nor free although both workers are done, and the
    client has been made two different offers. *)
Lemma concurrent_discovers_lose_an_address :
  match run serve (start_config (addresses, default_) 2) (schedule mac_a mac_a) with
  | Ret c =>
    bool_decide (leased (shared c).2 ∪ fp_free (shared c).1 = {[ip4 192 168 0 11; ip4 192 168 0 12]}) &&
    forallb (λ w, match code w with Done _ => true | _ => false end) (workers c) &&
    bool_decide ((offered <$> (outputs c).*2) = [Some (ip4 192 168 0 10); Some (ip4 192 168 0 11)])
  | Panic => false
  end = true.
Proof. vm_compute. reflexivity. Qed.
