(* ===== verification/Locks.v ===== *)
(** * Spin locks ([src/core/spinlock.rs])

    [SpinLock] and [RwSpinLock] as step relations over any number of threads.
    A step is one atomic operation on the lock word, or one access of a closure
    to the data it guards; the closure of a critical section is the list of its
    accesses, so steps of different threads interleave inside it.  Every
    operation of the source is an acquire or a release.  The guards ([lock],
    [read_lock], [write_lock]) perform the same operations on the word as the
    closures ([with], [with_read], [with_write]); [Guards] has both. *)

From S2P Require Import Prelude.

Module Spin.
Section spinlock.
Context {T : Type}.

(** ** The lock *)

Record SpinLock := { locked : bool; data : T }.
Definition new (value : T) : SpinLock := {| locked := false; data := value |}.
(** [compare_exchange_weak(false, true)], when it does not fail spuriously. *)
Definition try_lock (l : SpinLock) : SpinLock * bool :=
  if locked l then (l, false) else ({| locked := true; data := data l |}, true).
(** [store(false)]. *)
Definition unlock (l : SpinLock) : SpinLock := {| locked := false; data := data l |}.

(** ** Threads *)

(** A critical section: the accesses of its closure to the data. *)
Abbreviation body := (list (T → T)).
Definition effect (b : body) (d : T) : T := foldl (λ d f, f d) d b.

Inductive phase := Idle | Spinning (b : body) | Inside (rest : body) | Unwound.
Record Thread := { phase_of : phase; todo : list body }.
Record Sys := { lock : SpinLock; threads : list Thread; log : list (nat * body) }.

Definition go (s : Sys) (i : nat) (l : SpinLock) (th : Thread) (entered : list (nat * body)) : Sys :=
  {| lock := l; threads := <[i := th]> (threads s); log := log s ++ entered |}.

(** One step of thread [i].  [log] records the critical sections in the order
    in which they were entered. *)
Inductive step (s : Sys) : Sys → Prop :=
| step_call i b bs :
    threads s !! i = Some {| phase_of := Idle; todo := b :: bs |} →
    step s (go s i (lock s) {| phase_of := Spinning b; todo := bs |} [])
| step_spin i b bs :
    threads s !! i = Some {| phase_of := Spinning b; todo := bs |} → step s s
| step_acquire i b bs l :
    threads s !! i = Some {| phase_of := Spinning b; todo := bs |} → try_lock (lock s) = (l, true) →
    step s (go s i l {| phase_of := Inside b; todo := bs |} [(i, b)])
| step_access i f b bs :
    threads s !! i = Some {| phase_of := Inside (f :: b); todo := bs |} →
    step s (go s i {| locked := locked (lock s); data := f (data (lock s)) |} {| phase_of := Inside b; todo := bs |} [])
| step_release i bs :
    threads s !! i = Some {| phase_of := Inside []; todo := bs |} →
    step s (go s i (unlock (lock s)) {| phase_of := Idle; todo := bs |} [])
| step_unwind i b bs :
    threads s !! i = Some {| phase_of := Inside b; todo := bs |} →
    step s (go s i (lock s) {| phase_of := Unwound; todo := bs |} []).

Definition start (d : T) (progs : list (list body)) : Sys :=
  {| lock := new d; threads := (λ p, {| phase_of := Idle; todo := p |}) <$> progs; log := [] |}.

(** The data after the sections of a log, each run in one piece. *)
Definition serial (d : T) (l : list (nat * body)) : T := foldl (λ d e, effect e.2 d) d l.

(** The thread holds the lock word. *)
Definition holds (th : Thread) : bool :=
  match phase_of th with Inside _ | Unwound => true | _ => false end.

(** ** Invariant *)

Definition inv (d : T) (s : Sys) : Prop :=
  if locked (lock s) then
    ∃ i th, threads s !! i = Some th ∧ holds th = true ∧
      (∀ j th', threads s !! j = Some th' → holds th' = true → j = i) ∧
      (∀ b, phase_of th = Inside b → effect b (data (lock s)) = serial d (log s))
  else (∀ j th, threads s !! j = Some th → holds th = false) ∧ data (lock s) = serial d (log s).

(** What a thread has entered so far and has still to do is its program. *)
Definition entered (i : nat) (l : list (nat * body)) : list body := (List.filter (λ e, (e.1 =? i)%nat) l).*2.
Definition remaining (th : Thread) : list body :=
  match phase_of th with Spinning b => b :: todo th | _ => todo th end.
Definition in_order (progs : list (list body)) (s : Sys) : Prop :=
  length (threads s) = length progs ∧
  ∀ i th, threads s !! i = Some th → progs !! i = Some (entered i (log s) ++ remaining th).

Lemma serial_snoc d l i b : serial d (l ++ [(i, b)]) = effect b (serial d l).
Proof. unfold serial. by rewrite foldl_app. Qed.
Lemma entered_app i l l' : entered i (l ++ l') = entered i l ++ entered i l'.
Proof. unfold entered. by rewrite List.filter_app, fmap_app. Qed.

(** The other threads are as before. *)
Lemma lookup_go s i l th e j th' :
  threads (go s i l th e) !! j = Some th' → (j = i ∧ th' = th ∧ is_Some (threads s !! i)) ∨ (j ≠ i ∧ threads s !! j = Some th').
Proof.
  cbn. destruct (decide (j = i)) as [->|]; [|rewrite list_lookup_insert_ne by done; auto].
  intros H. left. pose proof (lookup_lt_Some _ _ _ H) as Hl. rewrite length_insert in Hl.
  rewrite list_lookup_insert_eq in H by done. injection H as <-. split_and!; [done|done|by apply lookup_lt_is_Some].
Qed.

(** A thread that holds the lock is the only one. *)
Lemma holder_unique d s i th : inv d s → threads s !! i = Some th → holds th = true →
  locked (lock s) = true ∧ (∀ j th', threads s !! j = Some th' → holds th' = true → j = i) ∧
  (∀ b, phase_of th = Inside b → effect b (data (lock s)) = serial d (log s)).
Proof.
  unfold inv. destruct (locked (lock s)).
  - intros (k & th' & Hk & Hh & Hu & He) Hi Hhi. pose proof (Hu _ _ Hi Hhi) as ->. rewrite Hk in Hi. injection Hi as ->.
    split_and!; [done|done|done].
  - intros [Hn _] Hi Hhi. apply Hn in Hi. congruence.
Qed.

(** A step that changes neither the word, the data nor who holds the lock. *)
Lemma inv_quiet d s i th th' :
  inv d s → threads s !! i = Some th → holds th = false → holds th' = false → inv d (go s i (lock s) th' []).
Proof.
  intros Hi Ht Hh Hh'. unfold inv in *. cbn [go lock log]. rewrite app_nil_r. destruct (locked (lock s)).
  - destruct Hi as (k & tk & Hk & Hhk & Hu & He). exists k, tk.
    assert (k ≠ i) as Hne by (intros ->; congruence).
    split_and!; [cbn; by rewrite list_lookup_insert_ne|done| |done].
    intros j tj [(-> & -> & _)|[_ Hj]]%lookup_go Hhj; [congruence|by eapply Hu].
  - destruct Hi as [Hn He]. split; [|done]. intros j tj [(-> & -> & _)|[_ Hj]]%lookup_go; [done|by eapply Hn].
Qed.

(** A step of the holder that keeps the lock. *)
Lemma inv_holder d s i th th' x :
  inv d s → threads s !! i = Some th → holds th = true → holds th' = true →
  (∀ b, phase_of th' = Inside b → effect b x = serial d (log s)) →
  inv d (go s i {| locked := locked (lock s); data := x |} th' []).
Proof.
  intros Hi Ht Hh Hh' He. destruct (holder_unique _ _ _ _ Hi Ht Hh) as (Hl & Hu & _).
  unfold inv. cbn [go lock log locked data]. rewrite Hl, app_nil_r. exists i, th'.
  split_and!; [cbn; by rewrite list_lookup_insert_eq by (by eapply lookup_lt_Some)|done| |done].
  intros j tj [(-> & _)|[_ Hj]]%lookup_go Hhj; [done|by eapply Hu].
Qed.

Lemma step_inv d s s' : step s s' → inv d s → inv d s'.
Proof.
  destruct 1 as [i b bs Hi|i b bs Hi|i b bs l Hi Hl|i f b bs Hi|i bs Hi|i b bs Hi]; intros Hinv.
  - by eapply inv_quiet.
  - done.
  - unfold try_lock in Hl. unfold inv in *. destruct (locked (lock s)) eqn:El; [done|]. injection Hl as <-.
    cbn [go lock log locked data]. destruct Hinv as [Hn Hd]. exists i, {| phase_of := Inside b; todo := bs |}.
    split_and!; [cbn; by rewrite list_lookup_insert_eq by (by eapply lookup_lt_Some)|done| |].
    + intros j tj [(-> & _)|[_ Hj]]%lookup_go Hhj; [done|]. apply Hn in Hj. congruence.
    + intros b' [= <-]. by rewrite serial_snoc, Hd.
  - eapply inv_holder; [done|done|done|done|]. intros b' [= <-].
    destruct (holder_unique _ _ _ _ Hinv Hi) as (_ & _ & He); [done|]. by rewrite <- (He (f :: b) eq_refl).
  - destruct (holder_unique _ _ _ _ Hinv Hi) as (_ & Hu & He); [done|].
    unfold inv. cbn [go lock log locked unlock data]. rewrite app_nil_r. split.
    + intros j tj [(-> & -> & _)|[Hne Hj]]%lookup_go; [done|].
      destruct (holds tj) eqn:E; [|done]. by eapply Hu in Hj.
    + exact (He [] eq_refl).
  - destruct (lock s) as [lk dt] eqn:El. rewrite <- El. 
    assert (lock s = {| locked := locked (lock s); data := data (lock s) |}) as -> by (by destruct (lock s)).
    by eapply inv_holder.
Qed.

(** A step of thread [i] keeps the order when the thread's past and future
    still make up its program. *)
Lemma in_order_go progs s i l th th' new :
  in_order progs s → threads s !! i = Some th → Forall (λ e, e.1 = i) new →
  remaining th = new.*2 ++ remaining th' → in_order progs (go s i l th' new).
Proof.
  intros [Hl Ho] Hi Hnew Hr. split; [cbn; by rewrite length_insert|].
  assert (∀ j, entered j new = if decide (j = i) then new.*2 else []) as Hent.
  { intros j. unfold entered. clear Hr. induction Hnew as [|e new He _ IH]; [by case_decide|]. cbn.
    destruct (Nat.eqb_spec e.1 j), (decide (j = i)); cbn; rewrite ?IH; congruence. }
  intros j tj [(-> & -> & _)|[Hne Hj]]%lookup_go; cbn [go log]; rewrite entered_app, Hent.
  - rewrite decide_True, <- app_assoc, <- Hr by done. by apply Ho.
  - rewrite decide_False, app_nil_r by done. by apply Ho.
Qed.

Lemma step_in_order progs s s' : step s s' → in_order progs s → in_order progs s'.
Proof.
  destruct 1 as [i b bs Hi|i b bs Hi|i b bs l Hi Hl|i f b bs Hi|i bs Hi|i b bs Hi]; intros Ho;
    first [done|eapply in_order_go; [done|done|by repeat constructor|done]].
Qed.

Lemma reachable_inv d progs s : rtc step (start d progs) s → inv d s ∧ in_order progs s.
Proof.
  intros H. assert (inv d (start d progs) ∧ in_order progs (start d progs)) as Hs.
  { split; [split|split].
    - cbn [start threads]. intros j th. rewrite list_lookup_fmap. intros (p & _ & Eth)%fmap_Some. by subst th.
    - done.
    - cbn. by rewrite length_fmap.
    - cbn [start threads]. intros j th. rewrite list_lookup_fmap. intros (p & E & Eth)%fmap_Some. by subst th. }
  revert Hs. induction H as [s|s s1 s2 Hst _ IH]; [done|]. intros [Hi Ho]. apply IH.
  split; [by eapply step_inv|by eapply step_in_order].
Qed.

(** A closure that panics inside [with] leaves the word set: nobody enters a
    critical section from then on. *)
Lemma unwound_blocks d progs s s' i th :
  rtc step (start d progs) s → threads s !! i = Some th → phase_of th = Unwound →
  rtc step s s' → log s' = log s.
Proof.
  intros Hr Hi Hp Hs. apply reachable_inv in Hr as [Hinv _].
  assert (inv d s ∧ ∃ th, threads s !! i = Some th ∧ phase_of th = Unwound) as Hst by eauto.
  clear Hi Hp Hinv th. induction Hs as [s|s s1 s2 Hstep _ IH]; [done|].
  destruct Hst as (Hinv & th & Hi & Hp).
  destruct (holder_unique _ _ _ _ Hinv Hi) as (Hl & Hu & _); [by unfold holds; rewrite Hp|].
  assert (∃ th', threads s1 !! i = Some th' ∧ phase_of th' = Unwound) as Hi1.
  { destruct Hstep as [j|j|j|j|j|j]; cbn [go threads];
      try (rewrite list_lookup_insert_ne by (intros ->; simplify_eq); by eauto); eauto. }
  rewrite IH by (split; [by eapply step_inv|done]).
  destruct Hstep as [j|j|j b bs l Hj Htry|j|j|j]; cbn [go log]; rewrite ?app_nil_r; try done.
  unfold try_lock in Htry. by rewrite Hl in Htry.
Qed.
End spinlock.

(** ** Properties *)

(** C18: the spin lock makes critical sections atomic: in every interleaving of
    the threads' atomic operations and accesses, at most one thread is inside a
    critical section; and whenever nobody is, the data is what running the
    sections entered so far one after another gives, in an order that keeps
    each thread's program order.  This is what entitles the rest of the
    development to treat an operation on a locked table as one step. *)
Theorem spinlock_serializes {T} (d : T) (progs : list (list (list (T → T)))) (s : Sys) (Hrun : rtc step (start d progs) s) :
  (∀ i j ti tj, threads s !! i = Some ti → threads s !! j = Some tj → holds ti = true → holds tj = true → i = j) ∧
  ((∀ i ti, threads s !! i = Some ti → holds ti = false) → data (lock s) = serial d (log s)) ∧
  (∀ i ti, threads s !! i = Some ti → progs !! i = Some (entered i (log s) ++ remaining ti)).
Proof.
  apply reachable_inv in Hrun as [Hi [_ Ho]]. split_and!; [|intros Hn|done].
  - intros i j ti tj Hti Htj Hhi Hhj. destruct (holder_unique _ _ _ _ Hi Htj Hhj) as (_ & Hu & _). by eapply Hu.
  - unfold inv in Hi. destruct (locked (lock s)); [|by destruct Hi].
    destruct Hi as (i & th & Hth & Hh & _). apply Hn in Hth. congruence.
Qed.

(** Two threads increment a counter by a read and a write each; the second
    starts while the first is inside. *)
Definition increments : list (list (list (Z * Z → Z * Z))) :=
  [[[λ p, (p.1, p.1); λ p, (p.2 + 1, p.2)]]; [[λ p, (p.1, p.1); λ p, (p.2 + 1, p.2)]]].
(** Take the given step, and evaluate the state it leads to. *)
Tactic Notation "take_step" uconstr(c) :=
  eapply rtc_l; [eapply c; reflexivity|];
  match goal with |- rtc step ?x _ => let y := eval vm_compute in x in change x with y end.
Lemma increments_run :
  ∃ s, rtc step (start (0, 0) increments) s ∧ (∀ i ti, threads s !! i = Some ti → holds ti = false) ∧ (data (lock s)).1 = 2.
Proof.
  eexists. split; [|split].
  - unfold increments. take_step (step_call _ 0). take_step (step_acquire _ 0).
    take_step (step_access _ 0). take_step (step_call _ 1). take_step (step_spin _ 1).
    take_step (step_access _ 0). take_step (step_release _ 0).
    take_step (step_acquire _ 1). take_step (step_access _ 1).
    take_step (step_access _ 1). take_step (step_release _ 1). apply rtc_refl.
  - intros [|[|i]] ti; cbn; [by intros [= <-]..|done].
  - reflexivity.
Qed.
Lemma spinlock_serializes_witness :
  ∃ s, rtc step (start (0, 0) increments) s ∧ data (lock s) = serial (0, 0) (log s) ∧ (data (lock s)).1 = 2.
Proof.
  destruct increments_run as (s & Hrun & Hn & H2). exists s. split_and!; [done| |done].
  apply (spinlock_serializes _ _ _ Hrun). exact Hn.
Defined.
End Spin.

Module Rw.
Import Spin(effect).

(** Occurrences in a list, and how an update changes them. *)
Definition count {A} (p : A → bool) (l : list A) : Z := Z.of_nat (length (List.filter p l)).
Lemma count_insert {A} (p : A → bool) l i x y :
  l !! i = Some x → count p (<[i := y]> l) = count p l - Z.b2z (p x) + Z.b2z (p y).
Proof.
  unfold count. revert i. induction l as [|z l IH]; intros [|i] H; [done|done|..].
  - injection H as ->. change (<[0%nat := y]> (x :: l)) with (y :: l). cbn [List.filter].
    destruct (p x), (p y); cbn [length Z.b2z]; lia.
  - apply (IH i) in H. change (<[S i := y]> (z :: l)) with (z :: <[i := y]> l). cbn [List.filter].
    destruct (p z); cbn [length]; lia.
Qed.
Lemma count_bounds {A} (p : A → bool) l : 0 ≤ count p l ≤ Z.of_nat (length l).
Proof. unfold count. pose proof (List.filter_length_le p l). lia. Qed.
Lemma count_pos {A} (p : A → bool) l i x : l !! i = Some x → p x = true → 1 ≤ count p l.
Proof.
  unfold count. intros H Hp. apply list_elem_of_lookup_2, list_elem_of_In in H.
  assert (x ∈ List.filter p l) as Hin by (apply list_elem_of_In, List.filter_In; auto).
  destruct (List.filter p l); [by apply elem_of_nil in Hin|]. cbn [length]. lia.
Qed.
Lemma count_two {A} (p : A → bool) l i j x y :
  l !! i = Some x → l !! j = Some y → p x = true → p y = true → i ≠ j → 2 ≤ count p l.
Proof.
  intros Hi Hj Hx Hy Hne. revert i j Hi Hj Hne. induction l as [|z l IH]; intros [|i] [|j] Hi Hj Hne; try done; cbn in Hi, Hj; unfold count; cbn [List.filter].
  - injection Hi as ->. rewrite Hx. pose proof (count_pos p l j y Hj Hy) as H. unfold count in H. cbn [length]. lia.
  - injection Hj as ->. rewrite Hy. pose proof (count_pos p l i x Hi Hx) as H. unfold count in H. cbn [length]. lia.
  - assert (i ≠ j) as Hne' by congruence. specialize (IH i j Hi Hj Hne'). unfold count in IH. destruct (p z); cbn [length]; lia.
Qed.

Section rwlock.
Context {T : Type}.

(** ** The lock *)

Record RwSpinLock := { state : Z; data : T }.
Definition rw_new (value : T) : RwSpinLock := {| state := 0; data := value |}.
Definition with_word (l : RwSpinLock) (w : Z) : RwSpinLock := {| state := w; data := data l |}.
(** [compare_exchange_weak(state, state + 2)] with the loaded value, and whether
    it succeeded; it is only tried when no writer is in. *)
Definition try_read (l : RwSpinLock) (observed : Z) : RwSpinLock * bool :=
  if Z.land observed 1 =? 0 then
    if state l =? observed then (with_word l ((observed + 2) mod 2 ^ 64), true) else (l, false)
  else (l, false).
(** [fetch_sub(2)]. *)
Definition read_unlock (l : RwSpinLock) : RwSpinLock := with_word l ((state l - 2) mod 2 ^ 64).
(** [compare_exchange_weak(0, 1)]. *)
Definition try_write (l : RwSpinLock) : RwSpinLock * bool :=
  if state l =? 0 then (with_word l 1, true) else (l, false).
(** [store(0)]. *)
Definition write_unlock (l : RwSpinLock) : RwSpinLock := with_word l 0.

(** ** Threads *)

Abbreviation body := (list (T → T)).
Inductive request := Read | Write (b : body).

(** [Reading seen] lists what the closure has read. *)
Inductive rw_phase :=
| Idle | WantRead | Loaded (observed : Z) | Reading (seen : list T)
| WantWrite (b : body) | Writing (rest : body) | LostRead | LostWrite.
Record RwThread := { phase_of : rw_phase; todo : list request }.
Record RwSys := { lock : RwSpinLock; threads : list RwThread; log : list body }.

Definition rw_go (s : RwSys) (i : nat) (l : RwSpinLock) (th : RwThread) (entered : list body) : RwSys :=
  {| lock := l; threads := <[i := th]> (threads s); log := log s ++ entered |}.

Inductive rw_step (s : RwSys) : RwSys → Prop :=
| step_call_read i rs :
    threads s !! i = Some {| phase_of := Idle; todo := Read :: rs |} →
    rw_step s (rw_go s i (lock s) {| phase_of := WantRead; todo := rs |} [])
| step_call_write i b rs :
    threads s !! i = Some {| phase_of := Idle; todo := Write b :: rs |} →
    rw_step s (rw_go s i (lock s) {| phase_of := WantWrite b; todo := rs |} [])
| step_load i rs :
    threads s !! i = Some {| phase_of := WantRead; todo := rs |} →
    rw_step s (rw_go s i (lock s) {| phase_of := Loaded (state (lock s)); todo := rs |} [])
| step_retry i w rs :
    threads s !! i = Some {| phase_of := Loaded w; todo := rs |} →
    rw_step s (rw_go s i (lock s) {| phase_of := WantRead; todo := rs |} [])
| step_acquire_read i w rs l :
    threads s !! i = Some {| phase_of := Loaded w; todo := rs |} → try_read (lock s) w = (l, true) →
    rw_step s (rw_go s i l {| phase_of := Reading []; todo := rs |} [])
| step_read i seen rs :
    threads s !! i = Some {| phase_of := Reading seen; todo := rs |} →
    rw_step s (rw_go s i (lock s) {| phase_of := Reading (data (lock s) :: seen); todo := rs |} [])
| step_release_read i seen rs :
    threads s !! i = Some {| phase_of := Reading seen; todo := rs |} →
    rw_step s (rw_go s i (read_unlock (lock s)) {| phase_of := Idle; todo := rs |} [])
| step_acquire_write i b rs l :
    threads s !! i = Some {| phase_of := WantWrite b; todo := rs |} → try_write (lock s) = (l, true) →
    rw_step s (rw_go s i l {| phase_of := Writing b; todo := rs |} [b])
| step_access i f b rs :
    threads s !! i = Some {| phase_of := Writing (f :: b); todo := rs |} →
    rw_step s (rw_go s i {| state := state (lock s); data := f (data (lock s)) |} {| phase_of := Writing b; todo := rs |} [])
| step_release_write i rs :
    threads s !! i = Some {| phase_of := Writing []; todo := rs |} →
    rw_step s (rw_go s i (write_unlock (lock s)) {| phase_of := Idle; todo := rs |} [])
| step_unwind_read i seen rs :
    threads s !! i = Some {| phase_of := Reading seen; todo := rs |} →
    rw_step s (rw_go s i (lock s) {| phase_of := LostRead; todo := rs |} [])
| step_unwind_write i b rs :
    threads s !! i = Some {| phase_of := Writing b; todo := rs |} →
    rw_step s (rw_go s i (lock s) {| phase_of := LostWrite; todo := rs |} []).

Definition rw_start (d : T) (progs : list (list request)) : RwSys :=
  {| lock := rw_new d; threads := (λ p, {| phase_of := Idle; todo := p |}) <$> progs; log := [] |}.

Definition rw_serial (d : T) (l : list body) : T := foldl (λ d b, effect b d) d l.

Definition is_reader (th : RwThread) : bool := match phase_of th with Reading _ | LostRead => true | _ => false end.
Definition is_writer (th : RwThread) : bool := match phase_of th with Writing _ | LostWrite => true | _ => false end.
Definition readers (s : RwSys) : Z := count is_reader (threads s).
Definition writers (s : RwSys) : Z := count is_writer (threads s).

(** ** Invariant *)

Record inv (d : T) (s : RwSys) : Prop := {
  inv_word : state (lock s) = 2 * readers s + writers s;
  inv_excl : writers s = 0 ∨ writers s = 1 ∧ readers s = 0;
  inv_size : Z.of_nat (length (threads s)) < 2 ^ 62;
  inv_quiet : writers s = 0 → data (lock s) = rw_serial d (log s);
  inv_write : ∀ i th b, threads s !! i = Some th → phase_of th = Writing b → effect b (data (lock s)) = rw_serial d (log s);
  inv_seen : ∀ i th seen, threads s !! i = Some th → phase_of th = Reading seen → Forall (λ x, x = data (lock s)) seen;
}.

Lemma rw_lookup_go s i l th e j th' :
  threads (rw_go s i l th e) !! j = Some th' → (j = i ∧ th' = th) ∨ (j ≠ i ∧ threads s !! j = Some th').
Proof.
  cbn. destruct (decide (j = i)) as [->|]; [|rewrite list_lookup_insert_ne by done; auto].
  intros H. left. pose proof (lookup_lt_Some _ _ _ H) as Hl. rewrite length_insert in Hl.
  rewrite list_lookup_insert_eq in H by done. by injection H as <-.
Qed.

(** The general step: the counts move with the thread's phase, and the data's
    relations have to be shown for this thread, and for the others when the
    data changes. *)
Lemma inv_go d s i th l th' new :
  inv d s → threads s !! i = Some th →
  let r := readers s - Z.b2z (is_reader th) + Z.b2z (is_reader th') in
  let w := writers s - Z.b2z (is_writer th) + Z.b2z (is_writer th') in
  state l = 2 * r + w → (w = 0 ∨ w = 1 ∧ r = 0) →
  (w = 0 → data l = rw_serial d (log s ++ new)) →
  (∀ b, phase_of th' = Writing b → effect b (data l) = rw_serial d (log s ++ new)) →
  (∀ seen, phase_of th' = Reading seen → Forall (λ x, x = data l) seen) →
  (data l = data (lock s) ∧ new = [] ∨ w = 1 ∧ is_writer th' = true) →
  inv d (rw_go s i l th' new).
Proof.
  intros [Hw He Hs Hq Hb Hseen] Hi r w Hword Hexcl Hquiet Hbody Hsn Hdata.
  assert (readers (rw_go s i l th' new) = r) as Er by (unfold readers; cbn; by apply count_insert).
  assert (writers (rw_go s i l th' new) = w) as Ew by (unfold writers; cbn; by apply count_insert).
  split; rewrite ?Er, ?Ew; cbn [rw_go lock log]; try done.
  - cbn. by rewrite length_insert.
  - intros j tj b [(-> & ->)|[Hne Hj]]%rw_lookup_go Hp; [by apply Hbody|].
    destruct Hdata as [[-> ->]|[Hw1 Hwt]]; [rewrite app_nil_r; by eapply Hb|]. exfalso.
    assert (2 ≤ writers (rw_go s i l th' new)) as H2; [|lia].
    unfold writers. eapply (count_two _ _ i j th' tj); cbn; [|by rewrite list_lookup_insert_ne|done|by unfold is_writer; rewrite Hp|done].
    rewrite list_lookup_insert_eq; [done|]. by eapply lookup_lt_Some.
  - intros j tj seen [(-> & ->)|[Hne Hj]]%rw_lookup_go Hp; [by apply Hsn|].
    destruct Hdata as [[-> _]|[Hw1 Hwt]]; [by eapply Hseen|]. exfalso.
    assert (1 ≤ readers (rw_go s i l th' new)) as H1; [|lia].
    unfold readers. eapply (count_pos _ _ j tj); cbn; [by rewrite list_lookup_insert_ne|by unfold is_reader; rewrite Hp].
Qed.

(** A step that leaves the lock and the data alone. *)
Lemma inv_same d s i th th' :
  inv d s → threads s !! i = Some th → is_reader th' = is_reader th → is_writer th' = is_writer th →
  (∀ b, phase_of th' ≠ Writing b) → (∀ seen, phase_of th' = Reading seen → Forall (λ x, x = data (lock s)) seen) →
  inv d (rw_go s i (lock s) th' []).
Proof.
  intros Hinv Hi Hr Hw Hb Hs. pose proof Hinv as [Iw Ie Is Iq _ _].
  eapply inv_go; [done|done|..]; rewrite ?Hr, ?Hw, ?Z.sub_add, ?app_nil_r; auto.
  intros b E. by apply Hb in E.
Qed.

Lemma land_1 x : Z.land x 1 = x mod 2.
Proof. change 1 with (Z.ones 1) at 1. by rewrite Z.land_ones. Qed.

Lemma rw_step_inv d s s' : rw_step s s' → inv d s → inv d s'.
Proof.
  intros Hstep Hinv. pose proof Hinv as [Iw Ie Is Iq Ib Isn].
  pose proof (count_bounds is_reader (threads s)) as Br. change (count is_reader (threads s)) with (readers s) in Br.
  destruct Hstep as [i rs Hi|i b rs Hi|i rs Hi|i w rs Hi|i w rs l Hi Hl|i seen rs Hi|i seen rs Hi|i b rs l Hi Hl|i f b rs Hi
    |i rs Hi|i seen rs Hi|i b rs Hi]; try (eapply inv_same; [done|done|done|done|done|done]).
  - (* a reader enters *)
    unfold try_read in Hl. destruct (Z.eqb_spec (Z.land w 1) 0) as [Ew|]; [|done].
    destruct (Z.eqb_spec (state (lock s)) w) as [<-|]; [|done]. injection Hl as <-. rewrite land_1, Iw in Ew.
    assert (writers s = 0) as W0 by (destruct Ie as [?|[E _]]; [done|rewrite E in Ew; Z.div_mod_to_equations; lia]).
    eapply inv_go; [done|done|..]; cbn [is_reader is_writer phase_of Z.b2z with_word state data]; rewrite ?app_nil_r.
    + rewrite Iw, W0, Z.mod_small by lia. lia.
    + lia.
    + intros _. by apply Iq.
    + done.
    + intros seen' [= <-]. apply Forall_nil_2.
    + auto.
  - (* a reader reads *)
    eapply inv_same; [done|done|done|done|done|]. intros seen' [= <-]. apply Forall_cons_2; [done|].
    by eapply (Isn i).
  - (* a reader leaves *)
    pose proof (count_pos is_reader _ _ _ Hi eq_refl) as R1. change (1 ≤ readers s) in R1.
    assert (writers s = 0) as W0 by lia.
    eapply inv_go; [done|done|..]; cbn [is_reader is_writer phase_of Z.b2z read_unlock with_word state data]; rewrite ?app_nil_r; auto.
    + rewrite Iw, W0, Z.mod_small by lia. lia.
    + lia.
    + done.
    + done.
  - (* a writer enters *)
    unfold try_write in Hl. destruct (Z.eqb_spec (state (lock s)) 0) as [E0|]; [|done]. injection Hl as <-.
    rewrite Iw in E0. assert (writers s = 0 ∧ readers s = 0) as [W0 R0] by lia.
    eapply inv_go; [done|done|..]; cbn [is_reader is_writer phase_of Z.b2z with_word state data]; try done; try lia.
    intros b' [= <-]. unfold rw_serial. rewrite foldl_app. cbn. f_equal. by apply Iq.
  - (* a writer writes *)
    pose proof (count_pos is_writer _ _ _ Hi eq_refl) as W1. change (1 ≤ writers s) in W1.
    eapply inv_go; [done|done|..]; cbn [is_reader is_writer phase_of Z.b2z state data]; rewrite ?app_nil_r; try done; try lia.
    intros b' [= <-]. by rewrite <- (Ib _ _ _ Hi eq_refl).
  - (* a writer leaves *)
    pose proof (count_pos is_writer _ _ _ Hi eq_refl) as W1. change (1 ≤ writers s) in W1.
    eapply inv_go; [done|done|..]; cbn [is_reader is_writer phase_of Z.b2z write_unlock with_word state data]; rewrite ?app_nil_r; try done; try lia.
    + intros _. exact (Ib _ _ _ Hi eq_refl).
    + auto.
Qed.

Lemma rw_reachable_inv d progs s :
  Z.of_nat (length progs) < 2 ^ 62 → rtc rw_step (rw_start d progs) s → inv d s.
Proof.
  intros Hn H. assert (inv d (rw_start d progs)) as Hs.
  { assert (∀ i th, threads (rw_start d progs) !! i = Some th → phase_of th = Idle) as Hidle.
    { cbn [rw_start threads]. intros j th. rewrite list_lookup_fmap. intros (p & _ & Eth)%fmap_Some. by subst th. }
    assert (∀ p : RwThread → bool, (∀ th, phase_of th = Idle → p th = false) → count p (threads (rw_start d progs)) = 0) as H0.
    { intros p Hp. unfold count. cbn [rw_start threads]. clear Hn Hidle H. induction progs as [|q progs IH]; [done|].
      cbn [fmap list_fmap List.filter]. by rewrite Hp. }
    assert (readers (rw_start d progs) = 0) as R0 by (apply H0; by intros [[] ?]).
    assert (writers (rw_start d progs) = 0) as W0 by (apply H0; by intros [[] ?]).
    split; rewrite ?R0, ?W0; auto.
    - cbn. by rewrite length_fmap.
    - intros i th b Hi Hp. apply Hidle in Hi. congruence.
    - intros i th b Hi Hp. apply Hidle in Hi. congruence. }
  induction H as [s|s s1 s2 Hst _ IH]; [done|]. apply IH. by eapply rw_step_inv.
Qed.
End rwlock.

(** ** Properties *)

(** C29: the readers-writer lock: for any fewer than 2^62 threads, in every
    interleaving, a writer inside excludes all readers and all other writers;
    the lock word is twice the number of readers, plus one for a writer, and
    never wraps; all values a reader reads in one critical section are the
    current data; and while nobody writes, the data is the result of the write
    sections entered so far, one after another. *)
Theorem rwlock_excludes {T} (d : T) (progs : list (list request)) (s : RwSys)
    (Hn : Z.of_nat (length progs) < 2 ^ 62) (Hrun : rtc rw_step (rw_start d progs) s) :
  (∀ i j ti tj, threads s !! i = Some ti → threads s !! j = Some tj → is_writer ti = true →
     is_reader tj = true ∨ is_writer tj = true → i = j) ∧
  (state (lock s) = 2 * readers s + writers s ∧ 0 ≤ state (lock s) < 2 ^ 64) ∧
  (∀ i ti seen, threads s !! i = Some ti → phase_of ti = Reading seen → Forall (λ x, x = data (lock s)) seen) ∧
  (writers s = 0 → data (lock s) = rw_serial d (log s)).
Proof.
  apply rw_reachable_inv in Hrun as [Iw Ie Is Iq Ib Isn]; [|done].
  pose proof (count_bounds is_reader (threads s)) as Br. change (count is_reader (threads s)) with (readers s) in Br.
  split_and!; [|done|lia|lia|done|done].
  intros i j ti tj Hi Hj Hw Hrw. destruct (decide (i = j)) as [|Hne]; [done|]. exfalso.
  pose proof (count_pos is_writer _ _ _ Hi Hw) as W1. change (1 ≤ writers s) in W1. destruct Hrw as [Hr|Hw'].
  - pose proof (count_pos is_reader _ _ _ Hj Hr) as R1. change (1 ≤ readers s) in R1. lia.
  - pose proof (count_two is_writer _ _ _ _ _ Hi Hj Hw Hw' Hne) as W2. change (2 ≤ writers s) in W2. lia.
Qed.

(** A writer increments twice while a reader has loaded the word: the reader's
    exchange fails, it retries and sees the final value. *)
Definition sample : list (list (request (T := Z))) := [[Write [Z.add 1; Z.add 1]]; [Read]].
Tactic Notation "take_step" uconstr(c) :=
  eapply rtc_l; [eapply c; reflexivity|];
  match goal with |- rtc rw_step ?x _ => let y := eval vm_compute in x in change x with y end.
Lemma sample_run :
  ∃ s, rtc rw_step (rw_start 0 sample) s ∧
    ∃ ti, threads s !! 1%nat = Some ti ∧ phase_of ti = Reading [2; 2] ∧ state (lock s) = 2.
Proof.
  eexists. split.
  - unfold sample. take_step (step_call_read _ 1). take_step (step_load _ 1). take_step (step_call_write _ 0).
    take_step (step_acquire_write _ 0). take_step (step_access _ 0). take_step (step_retry _ 1).
    take_step (step_access _ 0). take_step (step_release_write _ 0). take_step (step_load _ 1).
    take_step (step_acquire_read _ 1). take_step (step_read _ 1). take_step (step_read _ 1). apply rtc_refl.
  - eexists. split; [reflexivity|]. by split.
Qed.
Lemma rwlock_excludes_witness :
  ∃ s, rtc rw_step (rw_start 0 sample) s ∧ (state (lock s) = 2 * readers s + writers s ∧ 0 ≤ state (lock s) < 2 ^ 64) ∧ state (lock s) = 2.
Proof.
  destruct sample_run as (s & Hrun & ti & _ & _ & H2). exists s. split_and!; try done.
  all: apply (rwlock_excludes 0 sample s); [decide_now|exact Hrun].
Defined.
End Rw.
