(* ===== verification/Guards.v ===== *)
(** * Lock guards ([src/core/spinlock.rs])

    Both locks have two interfaces: [with] and its kin run a closure and then
    release the word, so that a closure which panics leaves it taken; [lock],
    [read_lock] and [write_lock] return a guard whose destructor releases the
    word, also when its owner unwinds.  The two are modelled side by side over
    an interface of lock words, which the words of [Locks] implement. *)

From S2P Require Import Prelude Locks.
Import Rw(count, count_insert, count_pos, count_two, count_bounds).
Import Spin(effect).

(** ** Lock words

    [gl_is w r k]: the word stands for [r] readers and [k] writers inside. *)
Class LockWord (W : Type) := {
  gl_new : W;
  gl_try_read : W → option W;
  gl_free_read : W → W;
  gl_try_write : W → option W;
  gl_free_write : W → W;
  gl_is : W → Z → Z → Prop;
  gl_new_is : gl_is gl_new 0 0;
  gl_exclusive w r k : gl_is w r k → 0 ≤ r ∧ (k = 0 ∨ k = 1 ∧ r = 0);
  gl_try_read_is w w' r k : gl_is w r k → r < 2 ^ 62 → gl_try_read w = Some w' → k = 0 ∧ gl_is w' (r + 1) 0;
  gl_free_read_is w r : gl_is w r 0 → 1 ≤ r < 2 ^ 62 → gl_is (gl_free_read w) (r - 1) 0;
  gl_try_write_is w w' r k : gl_is w r k → gl_try_write w = Some w' → r = 0 ∧ k = 0 ∧ gl_is w' 0 1;
  gl_free_write_is w : gl_is w 0 1 → gl_is (gl_free_write w) 0 0;
  gl_available w : gl_is w 0 0 → is_Some (gl_try_write w);
}.

(** The destructors of the guards: the releases of the closures' interface. *)
Definition drop_guard {T} (l : Spin.SpinLock (T := T)) : Spin.SpinLock := Spin.unlock l.
Definition drop_read_guard {T} (l : Rw.RwSpinLock (T := T)) : Rw.RwSpinLock := Rw.read_unlock l.
Definition drop_write_guard {T} (l : Rw.RwSpinLock (T := T)) : Rw.RwSpinLock := Rw.write_unlock l.
(** The word an attempt leaves, when it succeeded. *)
Definition taken {L} (r : L * bool) : option L := if r.2 then Some r.1 else None.

(** The flag of [SpinLock]: there are no readers. *)
#[global] Program Instance spin_word : LockWord (Spin.SpinLock (T := unit)) := {|
  gl_new := Spin.new ();
  gl_try_read _ := None;
  gl_free_read l := l;
  gl_try_write l := taken (Spin.try_lock l);
  gl_free_write := drop_guard;
  gl_is l r k := r = 0 ∧ k = Z.b2z (Spin.locked l);
|}.
Next Obligation. done. Qed.
Next Obligation. intros w r k [-> ->]. split; [lia|]. destruct (Spin.locked w); cbn; auto. Qed.
Next Obligation. done. Qed.
Next Obligation. intros w r [-> _]. lia. Qed.
Next Obligation.
  intros w w' r k [-> ->]. unfold Spin.try_lock. destruct (Spin.locked w) eqn:E; cbn; [done|]. by intros [= <-].
Qed.
Next Obligation. by intros w [_ _]. Qed.
Next Obligation. intros w [_ Hl]. unfold Spin.try_lock. destruct (Spin.locked w); [done|]. by eexists. Qed.

(** The word of [RwSpinLock]: twice the readers, plus one for a writer.  A read
    attempt succeeds with the value it has just loaded. *)
#[global] Program Instance rw_word : LockWord (Rw.RwSpinLock (T := unit)) := {|
  gl_new := Rw.rw_new ();
  gl_try_read l := taken (Rw.try_read l (Rw.state l));
  gl_free_read := drop_read_guard;
  gl_try_write l := taken (Rw.try_write l);
  gl_free_write := drop_write_guard;
  gl_is l r k := Rw.state l = 2 * r + k ∧ 0 ≤ r ∧ (k = 0 ∨ k = 1 ∧ r = 0);
|}.
Next Obligation. cbn. lia. Qed.
Next Obligation. intros w r k (_ & Hr & Hk). auto. Qed.
Next Obligation.
  intros w w' r k (Hs & Hr & Hk) Hb. unfold Rw.try_read. rewrite Rw.land_1, Z.eqb_refl, Hs.
  destruct (Z.eqb_spec ((2 * r + k) mod 2) 0) as [E|]; cbn; [|done]. intros [= <-].
  assert (k = 0) as -> by (destruct Hk as [?|[-> ->]]; [done|by cbn in E]). split; [done|].
  cbn. rewrite Z.mod_small by lia. lia.
Qed.
Next Obligation. intros w r (Hs & _) Hr. cbn. rewrite Hs, Z.mod_small by lia. lia. Qed.
Next Obligation.
  intros w w' r k (Hs & Hr & Hk). unfold Rw.try_write. destruct (Z.eqb_spec (Rw.state w) 0); cbn; [|done].
  intros [= <-]. cbn. lia.
Qed.
Next Obligation. intros w _. cbn. lia. Qed.
Next Obligation. intros w (Hs & _). unfold Rw.try_write. rewrite Hs. by eexists. Qed.

Section guards.
Context {W T : Type} `{LockWord W}.

(** ** Threads *)

Abbreviation body := (list (T → T)).
Inductive api := Closure | Guard.
Inductive request := Read (a : api) | Write (a : api) (b : body).

(** [Writes a done rest]: what the section has done to the data, and what is
    left.  [Gone holds r done]: the thread has unwound out of [r]. *)
Inductive phase :=
| Idle | Wants (r : request) | Reads (a : api) | Writes (a : api) (done rest : body)
| Gone (holds : bool) (r : request) (done : body).
Record Thread := { phase_of : phase; todo : list request }.
(** [log]: the write sections with what they did, the newest first. *)
Record Sys := { word : W; data : T; threads : list Thread; log : list (nat * body) }.

Definition go (s : Sys) (i : nat) (w : W) (x : T) (p : phase) (rs : list request) (l : list (nat * body)) : Sys :=
  {| word := w; data := x; threads := <[i := {| phase_of := p; todo := rs |}]> (threads s); log := l |}.

(** The section that is open adds an access to its entry of the log. *)
Definition log_access (f : T → T) (l : list (nat * body)) : list (nat * body) :=
  match l with (i, b) :: l => (i, b ++ [f]) :: l | [] => [] end.

Inductive step (s : Sys) : Sys → Prop :=
| step_call i r rs :
    threads s !! i = Some {| phase_of := Idle; todo := r :: rs |} →
    step s (go s i (word s) (data s) (Wants r) rs (log s))
| step_spin i r rs : threads s !! i = Some {| phase_of := Wants r; todo := rs |} → step s s
| step_enter_read i a rs w :
    threads s !! i = Some {| phase_of := Wants (Read a); todo := rs |} → gl_try_read (word s) = Some w →
    step s (go s i w (data s) (Reads a) rs (log s))
| step_leave_read i a rs :
    threads s !! i = Some {| phase_of := Reads a; todo := rs |} →
    step s (go s i (gl_free_read (word s)) (data s) Idle rs (log s))
| step_enter_write i a b rs w :
    threads s !! i = Some {| phase_of := Wants (Write a b); todo := rs |} → gl_try_write (word s) = Some w →
    step s (go s i w (data s) (Writes a [] b) rs ((i, []) :: log s))
| step_access i a f done rest rs :
    threads s !! i = Some {| phase_of := Writes a done (f :: rest); todo := rs |} →
    step s (go s i (word s) (f (data s)) (Writes a (done ++ [f]) rest) rs (log_access f (log s)))
| step_leave_write i a done rs :
    threads s !! i = Some {| phase_of := Writes a done []; todo := rs |} →
    step s (go s i (gl_free_write (word s)) (data s) Idle rs (log s))
| step_unwind_read_closure i rs :
    threads s !! i = Some {| phase_of := Reads Closure; todo := rs |} →
    step s (go s i (word s) (data s) (Gone true (Read Closure) []) rs (log s))
| step_unwind_read_guard i rs :
    threads s !! i = Some {| phase_of := Reads Guard; todo := rs |} →
    step s (go s i (gl_free_read (word s)) (data s) (Gone false (Read Guard) []) rs (log s))
| step_unwind_write_closure i done rest rs :
    threads s !! i = Some {| phase_of := Writes Closure done rest; todo := rs |} →
    step s (go s i (word s) (data s) (Gone true (Write Closure (done ++ rest)) done) rs (log s))
| step_unwind_write_guard i done rest rs :
    threads s !! i = Some {| phase_of := Writes Guard done rest; todo := rs |} →
    step s (go s i (gl_free_write (word s)) (data s) (Gone false (Write Guard (done ++ rest)) done) rs (log s)).

Definition start (d : T) (progs : list (list request)) : Sys :=
  {| word := gl_new; data := d; threads := (λ p, {| phase_of := Idle; todo := p |}) <$> progs; log := [] |}.

(** ** What the theorems speak of *)

Definition serial (d : T) (l : list (nat * body)) : T := foldr (λ e d, effect e.2 d) d l.

Definition is_reader (th : Thread) : bool :=
  match phase_of th with Reads _ | Gone true (Read _) _ => true | _ => false end.
Definition is_writer (th : Thread) : bool :=
  match phase_of th with Writes _ _ _ | Gone true (Write _ _) _ => true | _ => false end.
Definition readers (s : Sys) : Z := count is_reader (threads s).
Definition writers (s : Sys) : Z := count is_writer (threads s).

(** The write sections of a program and of a log, the newest first. *)
Definition writes (rs : list request) : list body :=
  omap (λ r, match r with Write _ b => Some b | Read _ => None end) (reverse rs).
Definition entered (i : nat) (l : list (nat * body)) : list body := (List.filter (λ e, (e.1 =? i)%nat) l).*2.

(** What the thread did is its program up to where it stands, every write
    section whole, except for the one it is in or has unwound from. *)
Definition accounts (prog : list request) (th : Thread) (es : list body) : Prop :=
  match phase_of th with
  | Idle => ∃ past, prog = past ++ todo th ∧ es = writes past
  | Wants r => ∃ past, prog = past ++ r :: todo th ∧ es = writes past
  | Reads a => ∃ past, prog = past ++ Read a :: todo th ∧ es = writes past
  | Writes a done rest => ∃ past, prog = past ++ Write a (done ++ rest) :: todo th ∧ es = done :: writes past
  | Gone _ (Read a) _ => ∃ past, prog = past ++ Read a :: todo th ∧ es = writes past
  | Gone _ (Write a b) done => done `prefix_of` b ∧ ∃ past, prog = past ++ Write a b :: todo th ∧ es = done :: writes past
  end.

Record inv (d : T) (progs : list (list request)) (s : Sys) : Prop := {
  inv_word : gl_is (word s) (readers s) (writers s);
  inv_size : Z.of_nat (length (threads s)) < 2 ^ 62;
  inv_data : data s = serial d (log s);
  inv_open : ∀ i th a done rest, threads s !! i = Some th → phase_of th = Writes a done rest → head (log s) = Some (i, done);
  inv_order : length (threads s) = length progs ∧
    ∀ i th, threads s !! i = Some th → ∃ prog, progs !! i = Some prog ∧ accounts prog th (entered i (log s));
}.

(** ** The invariant *)

Lemma writes_snoc rs r : writes (rs ++ [r]) = match r with Write _ b => b :: writes rs | Read _ => writes rs end.
Proof. unfold writes. rewrite reverse_app. cbn. by destruct r. Qed.
Lemma effect_snoc b f (x : T) : effect (b ++ [f]) x = f (effect b x).
Proof. unfold effect. by rewrite foldl_app. Qed.

Lemma guard_lookup_go s i w x p rs l j th :
  threads (go s i w x p rs l) !! j = Some th →
  (j = i ∧ th = {| phase_of := p; todo := rs |}) ∨ (j ≠ i ∧ threads s !! j = Some th).
Proof.
  cbn. destruct (decide (j = i)) as [->|]; [|rewrite list_lookup_insert_ne by done; auto].
  intros Hj. left. pose proof (lookup_lt_Some _ _ _ Hj) as Hl. rewrite length_insert in Hl.
  rewrite list_lookup_insert_eq in Hj by done. by injection Hj as <-.
Qed.

(** The general step: the counts move with the phase of the thread, and a step
    that changes the log is one of the writer. *)
Lemma guard_inv_go d progs s i th w x p rs l :
  inv d progs s → threads s !! i = Some th →
  let th' := {| phase_of := p; todo := rs |} in
  gl_is w (readers s - Z.b2z (is_reader th) + Z.b2z (is_reader th')) (writers s - Z.b2z (is_writer th) + Z.b2z (is_writer th')) →
  x = serial d l →
  (∀ a done rest, p = Writes a done rest → head l = Some (i, done)) →
  l = log s ∨ is_writer th' = true →
  (∀ j, j ≠ i → entered j l = entered j (log s)) →
  (∀ prog, accounts prog th (entered i (log s)) → accounts prog th' (entered i l)) →
  inv d progs (go s i w x p rs l).
Proof.
  intros [Iw Is Id Io [In Ir]] Hi th' Hw Hx Hopen Hl Hother Hacc.
  assert (readers (go s i w x p rs l) = readers s - Z.b2z (is_reader th) + Z.b2z (is_reader th')) as Er
    by (unfold readers; cbn; by apply count_insert).
  assert (writers (go s i w x p rs l) = writers s - Z.b2z (is_writer th) + Z.b2z (is_writer th')) as Ew
    by (unfold writers; cbn; by apply count_insert).
  split; rewrite ?Er, ?Ew; [done|cbn; by rewrite length_insert|done| |split; [cbn; by rewrite length_insert|]].
  - intros j tj a done rest [(-> & ->)|[Hne Hj]]%guard_lookup_go Hp; [by eapply Hopen|]. cbn [go log].
    destruct Hl as [->|Hwr]; [by eapply Io|]. exfalso.
    assert (2 ≤ writers (go s i w x p rs l)) as H2.
    { unfold writers. eapply (count_two _ _ i j th' tj); cbn; [|by rewrite list_lookup_insert_ne|done|by unfold is_writer; rewrite Hp|done].
      rewrite list_lookup_insert_eq; [done|]. by eapply lookup_lt_Some. }
    apply gl_exclusive in Hw. lia.
  - intros j tj [(-> & ->)|[Hne Hj]]%guard_lookup_go; cbn [go log].
    + destruct (Ir _ _ Hi) as (prog & Hp & Ha). exists prog. auto.
    + rewrite Hother by done. by apply Ir.
Qed.

(** A step that leaves the log alone. *)
Lemma guard_inv_same d progs s i th w p rs :
  inv d progs s → threads s !! i = Some th →
  gl_is w (readers s - Z.b2z (is_reader th) + Z.b2z (is_reader {| phase_of := p; todo := rs |}))
    (writers s - Z.b2z (is_writer th) + Z.b2z (is_writer {| phase_of := p; todo := rs |})) →
  (∀ a done rest, p ≠ Writes a done rest) →
  (∀ prog es, accounts prog th es → accounts prog {| phase_of := p; todo := rs |} es) →
  inv d progs (go s i w (data s) p rs (log s)).
Proof.
  intros Hinv Hi Hw Hp Ha. eapply guard_inv_go; [done|done|done|by apply inv_data in Hinv| |by left|done|by auto].
  intros a done rest E. by apply Hp in E.
Qed.

Lemma entered_cons i b l : entered i ((i, b) :: l) = b :: entered i l.
Proof. unfold entered. cbn. by rewrite Nat.eqb_refl. Qed.
Lemma entered_ne i j b l : j ≠ i → entered j ((i, b) :: l) = entered j l.
Proof. intros Hne. unfold entered. cbn. by destruct (Nat.eqb_spec i j). Qed.

Lemma guard_step_inv d progs s s' : step s s' → inv d progs s → inv d progs s'.
Proof.
  intros Hstep Hinv. pose proof Hinv as [Iw Is Id Io _].
  pose proof (count_bounds is_reader (threads s)) as Br. change (count is_reader (threads s)) with (readers s) in Br.
  destruct (gl_exclusive _ _ _ Iw) as [_ Ie].
  destruct Hstep as [i r rs Hi|i r rs Hi|i a rs w Hi Hw|i a rs Hi|i a b rs w Hi Hw|i a f done rest rs Hi|i a done rs Hi
    |i rs Hi|i rs Hi|i done rest rs Hi|i done rest rs Hi].
  - eapply guard_inv_same; [done|done|cbn; by rewrite !Z.sub_add|done|by intros].
  - done.
  - destruct (gl_try_read_is _ _ _ _ Iw ltac:(lia) Hw) as [W0 Hw'].
    eapply guard_inv_same; [done|done|cbn; rewrite W0, Z.sub_0_r; done|done|done].
  - pose proof (count_pos is_reader _ _ _ Hi eq_refl) as R1. change (1 ≤ readers s) in R1.
    assert (writers s = 0) as W0 by lia. rewrite W0 in Iw.
    eapply guard_inv_same; [done|done|cbn; rewrite W0, Z.add_0_r; apply gl_free_read_is; [done|lia]|done|].
    intros prog es (past & -> & ->). exists (past ++ [Read a]). by rewrite <- app_assoc, writes_snoc.
  - destruct (gl_try_write_is _ _ _ _ Iw Hw) as (R0 & W0 & Hw').
    eapply guard_inv_go; [done|done|cbn; rewrite R0, W0; done|done|by intros ??? [= <- <- <-]|by right|intros; by apply entered_ne|].
    intros prog (past & -> & E). rewrite entered_cons, E. by exists past.
  - pose proof (Io _ _ _ _ _ Hi eq_refl) as Hh. destruct (log s) as [|[j b] l] eqn:El; [done|]. injection Hh as -> ->.
    eapply guard_inv_go; [done|done|cbn; by rewrite !Z.sub_add| |by intros ??? [= <- <- <-]|by right| |]; rewrite ?El.
    + cbn [log_access serial foldr snd]. rewrite effect_snoc. f_equal. exact Id.
    + intros j Hne. cbn [log_access]. by rewrite !entered_ne.
    + intros prog (past & -> & E). cbn [log_access]. rewrite entered_cons in *. injection E as E. exists past.
      by rewrite <- app_assoc, E.
  - pose proof (count_pos is_writer _ _ _ Hi eq_refl) as W1. change (1 ≤ writers s) in W1.
    assert (writers s = 1 ∧ readers s = 0) as [Ew Er] by lia. rewrite Ew, Er in Iw.
    eapply guard_inv_same; [done|done|cbn; rewrite Ew, Er; by apply gl_free_write_is|done|].
    intros prog es (past & -> & ->). exists (past ++ [Write a done]). by rewrite <- app_assoc, writes_snoc, app_nil_r.
  - eapply guard_inv_same; [done|done|cbn; by rewrite !Z.sub_add|done|done].
  - pose proof (count_pos is_reader _ _ _ Hi eq_refl) as R1. change (1 ≤ readers s) in R1.
    assert (writers s = 0) as W0 by lia. rewrite W0 in Iw.
    eapply guard_inv_same; [done|done|cbn; rewrite W0, Z.add_0_r; apply gl_free_read_is; [done|lia]|done|done].
  - eapply guard_inv_same; [done|done|cbn; by rewrite !Z.sub_add|done|].
    intros prog es (past & -> & ->). split; [by eexists|by exists past].
  - pose proof (count_pos is_writer _ _ _ Hi eq_refl) as W1. change (1 ≤ writers s) in W1.
    assert (writers s = 1 ∧ readers s = 0) as [Ew Er] by lia. rewrite Ew, Er in Iw.
    eapply guard_inv_same; [done|done|cbn; rewrite Ew, Er; by apply gl_free_write_is|done|].
    intros prog es (past & -> & ->). split; [by eexists|by exists past].
Qed.

Lemma guard_reachable_inv d progs s :
  Z.of_nat (length progs) < 2 ^ 62 → rtc step (start d progs) s → inv d progs s.
Proof.
  intros Hn Hrun. assert (inv d progs (start d progs)) as Hs.
  { assert (∀ i th, threads (start d progs) !! i = Some th → ∃ p, progs !! i = Some p ∧ th = {| phase_of := Idle; todo := p |}) as Hidle.
    { cbn [start threads]. intros j th. rewrite list_lookup_fmap. intros (p & Hp & ->)%fmap_Some. eauto. }
    assert (∀ p : Thread → bool, (∀ rs, p {| phase_of := Idle; todo := rs |} = false) → count p (threads (start d progs)) = 0) as H0.
    { intros p Hp. unfold count. cbn [start threads]. clear -Hp. induction progs as [|q progs IH]; [done|].
      cbn [fmap list_fmap List.filter]. by rewrite Hp. }
    split.
    - unfold readers, writers. rewrite !H0 by done. apply gl_new_is.
    - cbn. by rewrite length_fmap.
    - done.
    - intros i th a done rest (p & _ & ->)%Hidle. done.
    - split; [cbn; by rewrite length_fmap|]. intros i th (p & Hp & ->)%Hidle. exists p. split; [done|]. by exists []. }
  induction Hrun as [s|s s1 s2 Hst _ IH]; [done|]. apply IH. by eapply guard_step_inv.
Qed.

(** ** Nobody keeps a guarded lock *)

Definition guarded (r : request) : bool := match r with Read Guard | Write Guard _ => true | _ => false end.
Definition holder (th : Thread) : bool := is_reader th || is_writer th.
(** Only a closure leaves the word taken when it unwinds. *)
Definition left_by_closure (s : Sys) : Prop :=
  ∀ i th r done, threads s !! i = Some th → phase_of th = Gone true r done → guarded r = false.

Lemma step_left s s' : step s s' → left_by_closure s → left_by_closure s'.
Proof.
  intros Hstep Hs. destruct Hstep; try done; intros j tj r' done' [(-> & ->)|[Hne Hj]]%guard_lookup_go Hp;
    first [discriminate Hp|exact (Hs _ _ _ _ Hj Hp)|by injection Hp as <- <-].
Qed.
Lemma reachable_left d progs s : rtc step (start d progs) s → left_by_closure s.
Proof.
  intros Hrun. assert (left_by_closure (start d progs)) as Hs.
  { intros i th r done. cbn [start threads]. rewrite list_lookup_fmap. by intros (p & _ & ->)%fmap_Some. }
  induction Hrun as [s|s s1 s2 Hst _ IH]; [done|]. apply IH. by eapply step_left.
Qed.

(** Nobody has unwound out of a closure. *)
Definition sound (s : Sys) : Prop := ∀ i th r done, threads s !! i = Some th → phase_of th ≠ Gone true r done.

Lemma guarded_sound d progs s :
  Z.of_nat (length progs) < 2 ^ 62 → Forall (Forall (λ r, guarded r = true)) progs → rtc step (start d progs) s → sound s.
Proof.
  intros Hn Hg Hrun i th r done Hi Hp. pose proof (reachable_left _ _ _ Hrun _ _ _ _ Hi Hp) as Hr.
  apply (inv_order _ _ _ (guard_reachable_inv _ _ _ Hn Hrun)) in Hi as (prog & Hprog & Ha).
  assert (r ∈ prog) as Hin.
  { unfold accounts in Ha. rewrite Hp in Ha. destruct r; [destruct Ha as (past & -> & _)|destruct Ha as (_ & past & -> & _)];
      apply elem_of_app; right; apply elem_of_cons; by left. }
  eapply Forall_lookup_1 in Hg; [|exact Hprog]. rewrite Forall_forall in Hg. apply list_elem_of_In, Hg in Hin. congruence.
Qed.

(** A writer's own steps finish its section. *)
Lemma finish_write s i a done rest rs :
  threads s !! i = Some {| phase_of := Writes a done rest; todo := rs |} →
  ∃ s', rtc step s s' ∧ threads s' = <[i := {| phase_of := Idle; todo := rs |}]> (threads s).
Proof.
  revert s done. induction rest as [|f rest IH]; intros s done Hi.
  - eexists. split; [eapply rtc_once; by eapply step_leave_write|done].
  - destruct (IH (go s i (word s) (f (data s)) (Writes a (done ++ [f]) rest) rs (log_access f (log s))) (done ++ [f])) as (s' & Hr & Et).
    { cbn. rewrite list_lookup_insert_eq; [done|]. by eapply lookup_lt_Some. }
    exists s'. split; [eapply rtc_l; [by eapply step_access|done]|]. rewrite Et. cbn. apply list_insert_insert_eq.
Qed.

Lemma leave_one s i th : sound s → threads s !! i = Some th → holder th = true →
  ∃ s', rtc step s s' ∧ sound s' ∧ count holder (threads s') = count holder (threads s) - 1.
Proof.
  intros Hs Hi Hh. assert (∃ s', rtc step s s' ∧ threads s' = <[i := {| phase_of := Idle; todo := todo th |}]> (threads s)) as (s' & Hr & Et).
  { destruct th as [p rs]. unfold holder, is_reader, is_writer in Hh. cbn in Hh.
    destruct p as [|r|a|a done rest|[] r done]; try discriminate Hh.
    - eexists. split; [eapply rtc_once; by eapply step_leave_read|done].
    - by eapply finish_write.
    - exfalso. exact (Hs _ _ _ _ Hi eq_refl). }
  exists s'. split; [done|]. split.
  - intros j tj r done. rewrite Et. destruct (decide (j = i)) as [->|].
    + rewrite list_lookup_insert_eq by (by eapply lookup_lt_Some). by intros [= <-].
    + rewrite list_lookup_insert_ne by done. apply Hs.
  - rewrite Et, (count_insert holder _ _ _ _ Hi), Hh. cbn. lia.
Qed.

Lemma all_leave s : sound s → ∃ s', rtc step s s' ∧ ∀ i th, threads s' !! i = Some th → holder th = false.
Proof.
  remember (Z.to_nat (count holder (threads s))) as n eqn:En. revert s En. induction n as [|n IH]; intros s En Hs.
  - exists s. split; [done|]. intros i th Hi. destruct (holder th) eqn:Hh; [|done].
    pose proof (count_pos holder _ _ _ Hi Hh). lia.
  - destruct (decide (Exists (λ th, holder th = true) (threads s))) as [He|He].
    + apply Exists_exists in He as (th & Hin & Hh). apply list_elem_of_In, list_elem_of_lookup in Hin as [i Hi].
      destruct (leave_one s i th Hs Hi Hh) as (s1 & Hr1 & Hs1 & Ec).
      destruct (IH s1) as (s2 & Hr2 & H2); [lia|done|]. exists s2. split; [by etrans|done].
    + exists s. split; [done|]. intros i th Hi. destruct (holder th) eqn:Hh; [|done]. exfalso. apply He, Exists_exists.
      exists th. split; [by eapply list_elem_of_In, list_elem_of_lookup_2|done].
Qed.

Lemma count_zero {A} (p : A → bool) l : (∀ i x, l !! i = Some x → p x = false) → count p l = 0.
Proof.
  unfold count. induction l as [|x l IH]; intros Hl; [done|]. cbn. rewrite (Hl 0%nat x eq_refl).
  apply IH. intros i y Hi. by apply (Hl (S i)).
Qed.
Lemma free_available d progs s :
  inv d progs s → (∀ i th, threads s !! i = Some th → holder th = false) → is_Some (gl_try_write (word s)).
Proof.
  intros Hinv Hf. apply gl_available. pose proof (inv_word _ _ _ Hinv) as Hw. unfold readers, writers in Hw.
  rewrite (count_zero is_reader), (count_zero is_writer) in Hw; [done|..];
    intros i th Hi; apply Hf, orb_false_iff in Hi as [? ?]; done.
Qed.
End guards.

(** ** Properties *)

(** C30: the guards of both locks: in every interleaving of threads that use
    closures and guards and may panic inside them, a writer excludes everyone
    else; the data is always what the write sections so far did, one after
    another, where each thread's sections are those of its program, whole except
    for one that it is in or has unwound from; and if the threads use guards
    only, the threads inside can always leave by their own steps, also after
    others have panicked, and then the lock can be taken. *)
Theorem guards_always_release {W T} `{LockWord W} (d : T) (progs : list (list request)) (s : Sys)
    (Hn : Z.of_nat (length progs) < 2 ^ 62) (Hrun : rtc step (start d progs) s) :
  (∀ i j ti tj, threads s !! i = Some ti → threads s !! j = Some tj → is_writer ti = true → holder tj = true → i = j) ∧
  data s = serial d (log s) ∧
  (∀ i ti, threads s !! i = Some ti → ∃ prog, progs !! i = Some prog ∧ accounts prog ti (entered i (log s))) ∧
  (Forall (Forall (λ r, guarded r = true)) progs →
   ∃ s', rtc step s s' ∧ (∀ i ti, threads s' !! i = Some ti → holder ti = false) ∧ is_Some (gl_try_write (word s'))).
Proof.
  pose proof (guard_reachable_inv _ _ _ Hn Hrun) as Hinv. destruct (gl_exclusive _ _ _ (inv_word _ _ _ Hinv)) as [_ He].
  split_and!; [|exact (inv_data _ _ _ Hinv)|exact (proj2 (inv_order _ _ _ Hinv))|intros Hg].
  - intros i j ti tj Hi Hj Hw Hh. destruct (decide (i = j)) as [|Hne]; [done|]. exfalso.
    pose proof (count_pos is_writer _ _ _ Hi Hw) as W1. change (1 ≤ writers s) in W1.
    apply orb_true_iff in Hh as [Hr|Hw'].
    + pose proof (count_pos is_reader _ _ _ Hj Hr) as R1. change (1 ≤ readers s) in R1. lia.
    + pose proof (count_two is_writer _ _ _ _ _ Hi Hj Hw Hw' Hne) as W2. change (2 ≤ writers s) in W2. lia.
  - destruct (all_leave s (guarded_sound _ _ _ Hn Hg Hrun)) as (s' & Hr & Hf). exists s'. split_and!; [done|done|].
    eapply free_available; [|done]. eapply guard_reachable_inv; [done|]. by etrans.
Qed.

(** A writer panics with its guard half way, and the next one enters. *)
Definition half_way : list (list (request (T := Z))) := [[Write Guard [Z.add 1; Z.add 10]]; [Write Guard [Z.add 100]]].
Tactic Notation "take_step" uconstr(c) :=
  eapply rtc_l; [eapply c; reflexivity|];
  match goal with |- rtc step ?x _ => let y := eval vm_compute in x in change x with y end.
Lemma half_way_run :
  ∃ s : Sys (W := Spin.SpinLock (T := unit)), rtc step (start 0 half_way) s ∧ data s = 101 ∧
    log s = [(1%nat, [Z.add 100]); (0%nat, [Z.add 1])].
Proof.
  eexists. split.
  - unfold half_way. take_step (step_call _ 0). take_step (step_enter_write _ 0). take_step (step_access _ 0).
    take_step (step_call _ 1). take_step (step_spin _ 1). take_step (step_unwind_write_guard _ 0).
    take_step (step_enter_write _ 1). take_step (step_access _ 1). apply rtc_refl.
  - by split.
Qed.
Lemma guards_always_release_witness :
  ∃ s : Sys (W := Spin.SpinLock (T := unit)), rtc step (start 0 half_way) s ∧ data s = 101 ∧ data s = serial 0 (log s) ∧
    ∃ s', rtc step s s' ∧ (∀ i ti, threads s' !! i = Some ti → holder ti = false) ∧ is_Some (gl_try_write (word s')).
Proof.
  destruct half_way_run as (s & Hrun & Hd & _). exists s. split; [exact Hrun|]. split; [exact Hd|].
  destruct (guards_always_release 0 half_way s ltac:(decide_now) Hrun) as (_ & Hs & _ & Hf). split; [exact Hs|].
  apply Hf. repeat constructor.
Defined.
