(* ===== verification/Ring.v ===== *)
(** * The single-producer single-consumer ring ([src/mem/ring.rs])

    [SpscRing] with its two indices and its slots, and the two handles of a
    channel.  The producer and the consumer run as a step relation whose steps
    are the loads, the slot access and the store of [push] and [pop]; the
    acquire loads and release stores of the source make the interleavings of
    these steps all that can be seen.  The specification is a bounded queue. *)

From S2P Require Import Prelude.

Section ring.
Context {T : Type}.

(** ** The ring *)

Record SpscRing := { head : nat; tail : nat; buffer : list (option T) }.
Definition new (N : nat) : SpscRing := {| head := 0; tail := 0; buffer := replicate N None |}.

Section ops.
Context (N : nat).

(** The parts of [push]: the new head, the test, the write and the store. *)
Definition next (i : nat) : nat := (i + 1) `mod` N.
Definition is_full (r : SpscRing) (next_head : nat) : bool := bool_decide (next_head = tail r).
Definition write_slot (r : SpscRing) (i : nat) (x : option T) : outcome SpscRing :=
  _ ← expect (buffer r !! i); mret {| head := head r; tail := tail r; buffer := <[i := x]> (buffer r) |}.
Definition set_head (r : SpscRing) (i : nat) : SpscRing := {| head := i; tail := tail r; buffer := buffer r |}.
Definition push (r : SpscRing) (item : T) : outcome (SpscRing * (unit + T)) :=
  let head := head r in
  let next_head := next head in
  if is_full r next_head then mret (r, inr item)
  else r ← write_slot r head (Some item); mret (set_head r next_head, inl ()).

(** The parts of [pop]. *)
Definition take_slot (r : SpscRing) (i : nat) : outcome (SpscRing * option T) :=
  x ← expect (buffer r !! i); mret ({| head := head r; tail := tail r; buffer := <[i := None]> (buffer r) |}, x).
Definition set_tail (r : SpscRing) (i : nat) : SpscRing := {| head := head r; tail := i; buffer := buffer r |}.
Definition pop (r : SpscRing) : outcome (SpscRing * option T) :=
  let tail := tail r in
  if bool_decide (tail = head r) then mret (r, None)
  else '(r, item) ← take_slot r tail; mret (set_tail r (next tail), item).

Definition len (r : SpscRing) : nat := (head r + N - tail r) `mod` N.
Definition is_empty (r : SpscRing) : bool := bool_decide (len r = 0)%nat.
Definition capacity : nat := N - 1.

(** ** The two threads *)

Inductive producer := PIdle | PLoaded (x : T) (h : nat) | PChecked (x : T) (h : nat) | PWritten (x : T) (h : nat).
Inductive consumer := CIdle | CLoaded (t : nat) | CChecked (t : nat) | CTaken (t : nat) (x : option T).
(** The results, in the order in which the operations take effect. *)
Inductive event := Pushed (x : T) | Full (x : T) | Popped (x : option T) | Empty.
Record Sys := { ring : SpscRing; prod : producer; cons : consumer; trace : list event }.

Definition produce (s : Sys) (r : SpscRing) (p : producer) (e : list event) : Sys :=
  {| ring := r; prod := p; cons := cons s; trace := trace s ++ e |}.
Definition consume (s : Sys) (r : SpscRing) (c : consumer) (e : list event) : Sys :=
  {| ring := r; prod := prod s; cons := c; trace := trace s ++ e |}.

Inductive step (s : Sys) : Sys → Prop :=
| push_load x : prod s = PIdle → step s (produce s (ring s) (PLoaded x (head (ring s))) [])
| push_full x h : prod s = PLoaded x h → is_full (ring s) (next h) = true → step s (produce s (ring s) PIdle [Full x])
| push_room x h : prod s = PLoaded x h → is_full (ring s) (next h) = false → step s (produce s (ring s) (PChecked x h) [])
| push_write x h r :
    prod s = PChecked x h → write_slot (ring s) h (Some x) = Ret r → step s (produce s r (PWritten x h) [])
| push_store x h : prod s = PWritten x h → step s (produce s (set_head (ring s) (next h)) PIdle [Pushed x])
| pop_load : cons s = CIdle → step s (consume s (ring s) (CLoaded (tail (ring s))) [])
| pop_empty t : cons s = CLoaded t → t = head (ring s) → step s (consume s (ring s) CIdle [Empty])
| pop_item t : cons s = CLoaded t → t ≠ head (ring s) → step s (consume s (ring s) (CChecked t) [])
| pop_take t r x : cons s = CChecked t → take_slot (ring s) t = Ret (r, x) → step s (consume s r (CTaken t x) [])
| pop_store t x : cons s = CTaken t x → step s (consume s (set_tail (ring s) (next t)) CIdle [Popped x]).

Definition start : Sys := {| ring := new N; prod := PIdle; cons := CIdle; trace := [] |}.

(** ** Specification: a queue of at most [capacity] items *)

Inductive spec_step : list T → event → list T → Prop :=
| spec_pushed q x : (length q < capacity)%nat → spec_step q (Pushed x) (q ++ [x])
| spec_full q x : length q = capacity → spec_step q (Full x) q
| spec_popped x q : spec_step (x :: q) (Popped (Some x)) q
| spec_empty : spec_step [] Empty [].

Inductive spec_run : list event → list T → Prop :=
| run_nil : spec_run [] []
| run_snoc es q e q' : spec_run es q → spec_step q e q' → spec_run (es ++ [e]) q'.

(** ** Invariant *)

Hypothesis N_pos : (0 < N)%nat.

(** What the slot [k] places after the tail holds: an item of the queue (unless
    the consumer has just taken it), or the item the producer is about to
    publish. *)
Definition slot (q : list T) (p : producer) (c : consumer) (k : nat) : option T :=
  if (k <? length q)%nat then
    match k, c with O, CTaken _ _ => None | _, _ => q !! k end
  else match p with
       | PWritten x _ => if (k =? length q)%nat then Some x else None
       | _ => None
       end.

(** [n] items have been popped and [q] is in the ring. *)
Record holds (s : Sys) (n : nat) (q : list T) : Prop := {
  h_spec : spec_run (trace s) q;
  h_len : length (buffer (ring s)) = N;
  h_tail : tail (ring s) = (n `mod` N)%nat;
  h_head : head (ring s) = ((n + length q) `mod` N)%nat;
  h_room : (length q ≤ capacity)%nat;
  h_slots : ∀ k, (k < N)%nat → buffer (ring s) !! ((n + k) `mod` N)%nat = Some (slot q (prod s) (cons s) k);
  h_prod : match prod s with
           | PIdle => True
           | PLoaded _ h => h = head (ring s)
           | PChecked _ h | PWritten _ h => h = head (ring s) ∧ (length q < capacity)%nat
           end;
  h_cons : match cons s with
           | CIdle => True
           | CLoaded t => t = tail (ring s)
           | CChecked t => t = tail (ring s) ∧ q ≠ []
           | CTaken t x => t = tail (ring s) ∧ ∃ y q', q = y :: q' ∧ x = Some y
           end;
}.

Lemma mod_inj n k k' : (k < N)%nat → (k' < N)%nat → ((n + k) `mod` N)%nat = ((n + k') `mod` N)%nat → k = k'.
Proof.
  intros Hk Hk' E. pose proof (Nat.div_mod_eq (n + k) N). pose proof (Nat.div_mod_eq (n + k') N).
  rewrite E in *. set (a := ((n + k) / N)%nat) in *. set (b := ((n + k') / N)%nat) in *.
  assert (a = b) by nia. subst. nia.
Qed.
Lemma next_mod m : next (m `mod` N)%nat = ((m + 1) `mod` N)%nat.
Proof. unfold next. apply Nat.Div0.add_mod_idemp_l. Qed.

Lemma full_iff s n q :
  holds s n q → is_full (ring s) (next (head (ring s))) = true ↔ length q = capacity.
Proof.
  intros [_ _ Ht Hh Hr _ _ _]. unfold is_full. rewrite bool_decide_eq_true, Ht, Hh, next_mod. unfold capacity in *. split.
  - intros E. destruct (decide (length q + 1 < N)%nat); [|lia].
    rewrite <- (Nat.add_0_r n) in E at 2. rewrite <- Nat.add_assoc in E. apply mod_inj in E; lia.
  - intros E. replace (n + length q + 1)%nat with (n + 1 * N)%nat by lia. by rewrite Nat.Div0.mod_add.
Qed.
Lemma empty_iff s n q : holds s n q → tail (ring s) = head (ring s) ↔ q = [].
Proof.
  intros [_ _ Ht Hh Hr _ _ _]. rewrite Ht, Hh. unfold capacity in *. split.
  - intros E. rewrite <- (Nat.add_0_r n) in E at 1. apply mod_inj in E; [|lia|lia]. by apply nil_length_inv.
  - intros ->. by rewrite Nat.add_0_r.
Qed.

(** A step that touches no slot. *)
Lemma slot_same q p p' c c' k :
  (∀ x h, p = PWritten x h ↔ p' = PWritten x h) → (∀ t x, c = CTaken t x ↔ c' = CTaken t x) →
  slot q p c k = slot q p' c' k.
Proof.
  intros Hp Hc. unfold slot. destruct (k <? length q)%nat.
  - destruct k; [|done]. destruct c as [| | |t x].
    4:{ by rewrite (proj1 (Hc t x) eq_refl). }
    all: destruct c' as [| | |t' x']; try done; by pose proof (proj2 (Hc t' x') eq_refl).
  - destruct p as [| | |x h].
    4:{ by rewrite (proj1 (Hp x h) eq_refl). }
    all: destruct p' as [| | |x' h']; try done; by pose proof (proj2 (Hp x' h') eq_refl).
Qed.

(** The conditions on the two threads, as in [holds]. *)
Definition prod_ok (r : SpscRing) (q : list T) (p : producer) : Prop :=
  match p with
  | PIdle => True
  | PLoaded _ h => h = head r
  | PChecked _ h | PWritten _ h => h = head r ∧ (length q < capacity)%nat
  end.
Definition cons_ok (r : SpscRing) (q : list T) (c : consumer) : Prop :=
  match c with
  | CIdle => True
  | CLoaded t => t = tail r
  | CChecked t => t = tail r ∧ q ≠ []
  | CTaken t x => t = tail r ∧ ∃ y q', q = y :: q' ∧ x = Some y
  end.

Lemma holds_quiet s s' n q :
  holds s n q → ring s' = ring s → spec_run (trace s') q →
  (∀ x h, prod s = PWritten x h ↔ prod s' = PWritten x h) → (∀ t x, cons s = CTaken t x ↔ cons s' = CTaken t x) →
  prod_ok (ring s) q (prod s') → cons_ok (ring s) q (cons s') → holds s' n q.
Proof.
  intros [_ Hl Ht Hh Hr Hs _ _] Er Hsp Hp Hc Hpo Hco. split; rewrite ?Er; try done.
  intros k Hk. rewrite Hs by done. f_equal. by apply slot_same.
Qed.

Lemma lookup_slot_insert s n q i x k :
  holds s n q → (i < N)%nat → (k < N)%nat →
  <[((n + i) `mod` N)%nat := x]> (buffer (ring s)) !! ((n + k) `mod` N)%nat =
    Some (if (k =? i)%nat then x else slot q (prod s) (cons s) k).
Proof.
  intros H Hi Hk. pose proof (Nat.mod_upper_bound (n + i) N ltac:(lia)).
  destruct (Nat.eqb_spec k i) as [->|Hne].
  - rewrite list_lookup_insert_eq; [done|]. by rewrite (h_len _ _ _ H).
  - rewrite list_lookup_insert_ne; [by apply (h_slots _ _ _ H)|]. intros E%mod_inj; [|done|done]. congruence.
Qed.

Lemma push_write_holds s n q x h r :
  holds s n q → prod s = PChecked x h → write_slot (ring s) h (Some x) = Ret r → holds (produce s r (PWritten x h) []) n q.
Proof.
  intros H Hp Hw. pose proof (h_prod _ _ _ H) as Ho. rewrite Hp in Ho. destruct Ho as [-> Hlt]. unfold capacity in Hlt.
  unfold write_slot in Hw. destruct (buffer (ring s) !! head (ring s)); [|done]. injection Hw as <-.
  pose proof H as [Hsp Hl Ht Hh Hr Hs _ Hc].
  split; cbn [produce ring prod cons trace buffer head tail]; rewrite ?app_nil_r, ?length_insert; try done.
  intros k Hk. rewrite Hh, (lookup_slot_insert s n q (length q) (Some x) k) by (done || lia). f_equal.
  unfold slot. rewrite Hp. destruct (Nat.eqb_spec k (length q)) as [->|Hne]; [by rewrite Nat.ltb_irrefl|].
  by destruct (k <? length q)%nat.
Qed.

Lemma push_store_holds s n q x h :
  holds s n q → prod s = PWritten x h →
  holds (produce s (set_head (ring s) (next h)) PIdle [Pushed x]) n (q ++ [x]).
Proof.
  intros H Hp. pose proof (h_prod _ _ _ H) as Ho. rewrite Hp in Ho. destruct Ho as [-> Hlt].
  pose proof H as [Hsp Hl Ht Hh Hr Hs _ Hc].
  split; cbn [produce ring prod cons trace set_head buffer head tail]; try done.
  - eapply run_snoc; [done|]. by constructor.
  - rewrite Hh, next_mod, length_app. f_equal. cbn. lia.
  - rewrite length_app. cbn. lia.
  - intros k Hk. rewrite Hs by done. f_equal. unfold slot. rewrite Hp, length_app. cbn [length].
    destruct (Nat.ltb_spec k (length q)).
    + rewrite (proj2 (Nat.ltb_lt _ _)) by lia. rewrite lookup_app_l by done. done.
    + destruct (Nat.eqb_spec k (length q)) as [->|].
      * rewrite (proj2 (Nat.ltb_lt _ _)) by lia. rewrite lookup_app_r, Nat.sub_diag by lia.
        destruct (length q) eqn:El; [|by destruct (cons s)]. destruct (cons s); try done.
        destruct Hc as (_ & y & q' & -> & _). done.
      * rewrite (proj2 (Nat.ltb_ge _ _)) by lia. done.
  - destruct (cons s); try done; [|].
    + destruct Hc as [-> _]. split; [done|]. by destruct q.
    + destruct Hc as (-> & y & q' & -> & ->). split; [done|]. by exists y, (q' ++ [x]).
Qed.

Lemma pop_take_holds s n q t r x :
  holds s n q → cons s = CChecked t → take_slot (ring s) t = Ret (r, x) → holds (consume s r (CTaken t x) []) n q.
Proof.
  intros H Hc Hw. pose proof (h_cons _ _ _ H) as Ho. rewrite Hc in Ho. destruct Ho as [-> Hne].
  pose proof H as [Hsp Hl Ht Hh Hr Hs Hp _].
  destruct q as [|y q]; [done|]. unfold take_slot in Hw. rewrite Ht in Hw.
  pose proof (Hs 0%nat N_pos) as H0. rewrite Nat.add_0_r in H0. rewrite H0 in Hw. cbn in Hw.
  unfold slot in Hw. cbn in Hw. rewrite Hc in Hw. injection Hw as <- <-.
  split; cbn [consume ring prod cons trace buffer head tail]; rewrite ?app_nil_r, ?length_insert; try done.
  - intros k Hk. pose proof (lookup_slot_insert s n (y :: q) 0 None k H N_pos Hk) as E. rewrite Nat.add_0_r in E. rewrite E. f_equal.
    unfold slot. rewrite Hc. destruct k; [done|]. cbn [Nat.eqb]. done.
  - split; [by rewrite Ht|]. by exists y, q.
Qed.

Lemma pop_store_holds s n q t x :
  holds s n q → cons s = CTaken t x →
  ∃ q', holds (consume s (set_tail (ring s) (next t)) CIdle [Popped x]) (S n) q'.
Proof.
  intros H Hc. pose proof (h_cons _ _ _ H) as Ho. rewrite Hc in Ho. destruct Ho as (-> & y & q' & -> & ->).
  pose proof H as [Hsp Hl Ht Hh Hr Hs Hp _]. unfold capacity in *. cbn [length] in *. exists q'.
  split; cbn [consume ring prod cons trace set_tail buffer head tail]; try done.
  - eapply run_snoc; [done|]. constructor.
  - rewrite Ht, next_mod. f_equal. lia.
  - rewrite Hh. f_equal. lia.
  - unfold capacity. lia.
  - intros k Hk. destruct (decide (k = N - 1)%nat) as [->|Hne].
    + replace (S n + (N - 1))%nat with (n + 0 + 1 * N)%nat by lia. rewrite Nat.Div0.mod_add, (Hs 0%nat) by lia. f_equal.
      unfold slot. cbn [length]. rewrite Hc. rewrite (proj2 (Nat.ltb_ge (N - 1) (length q'))) by lia. cbn [Nat.ltb Nat.leb].
      destruct (prod s); try done. unfold capacity in Hp. rewrite (proj2 (Nat.eqb_neq _ _)) by lia. done.
    + replace (S n + k)%nat with (n + S k)%nat by lia. rewrite (Hs (S k)) by lia. f_equal. unfold slot. cbn [length].
      rewrite ?Hc. change (S k <? S (length q'))%nat with (k <? length q')%nat. destruct (k <? length q')%nat; [by destruct k|done].
  - destruct (prod s); try done; destruct Hp as [-> Hp]; (split; [done|]); unfold capacity in *; lia.
Qed.

Lemma step_holds s s' n q : step s s' → holds s n q → ∃ n' q', holds s' n' q'.
Proof.
  intros Hst H. pose proof H as [Hsp Hl Ht Hh Hr Hs Hp Hc]. destruct Hst as [x E|x h E Ef|x h E Ef|x h r E Ew|x h E|E|t E Ef|t E Ef|t r x E Ew|t x E].
  - exists n, q. eapply holds_quiet; cbn; rewrite ?app_nil_r; try done. by rewrite E.
  - exists n, q. eapply holds_quiet; cbn; try done; [|by rewrite E]. eapply run_snoc; [done|]. constructor.
    rewrite E in Hp. subst h. by eapply full_iff.
  - exists n, q. eapply holds_quiet; cbn; rewrite ?app_nil_r; try done; [by rewrite E|].
    rewrite E in Hp. subst h. split; [done|]. apply not_true_iff_false in Ef. rewrite full_iff in Ef by done. lia.
  - exists n, q. by eapply push_write_holds.
  - exists n, (q ++ [x]). by eapply push_store_holds.
  - exists n, q. eapply holds_quiet; cbn; rewrite ?app_nil_r; try done. by rewrite E.
  - exists n, q. eapply holds_quiet; cbn; try done; [|by rewrite E]. eapply run_snoc; [done|].
    rewrite E in Hc. rewrite Hc in Ef. apply (empty_iff _ _ _ H) in Ef as ->. constructor.
  - exists n, q. eapply holds_quiet; cbn; rewrite ?app_nil_r; try done; [by rewrite E|].
    rewrite E in Hc. subst t. split; [done|]. by rewrite <- (empty_iff _ _ _ H).
  - exists n, q. by eapply pop_take_holds.
  - destruct (pop_store_holds s n q t x H E) as [q' H']. eauto.
Qed.

Lemma reachable_holds s : rtc step start s → ∃ n q, holds s n q.
Proof.
  intros Hrun. assert (holds start 0 []) as H0.
  { split; cbn; try done; [constructor|by rewrite length_replicate|by rewrite Nat.Div0.mod_0_l|by rewrite Nat.Div0.mod_0_l|lia|].
    intros k Hk. rewrite lookup_replicate_2 by (apply Nat.mod_upper_bound; lia). by unfold slot. }
  assert (∃ n q, holds start n q) as Hs by eauto. clear H0. revert Hs. induction Hrun as [s|s s1 s2 Hst _ IH]; [done|].
  intros (n & q & H). apply IH. by eapply step_holds.
Qed.

(** ** Consequences *)

Definition pushed (es : list event) : list T := omap (λ e, match e with Pushed x => Some x | _ => None end) es.
Definition popped (es : list event) : list T := omap (λ e, match e with Popped x => x | _ => None end) es.

Lemma spec_fifo es q : spec_run es q → pushed es = popped es ++ q.
Proof.
  unfold pushed, popped. induction 1 as [|es q e q' _ IH Hst]; [done|]. rewrite !omap_app, IH.
  destruct Hst; cbn; rewrite <- ?app_assoc, ?app_nil_r; done.
Qed.

Lemma distance n k : (k < N)%nat → (((n + k) `mod` N + N - n `mod` N) `mod` N)%nat = k.
Proof.
  intros Hk. pose proof (Nat.mod_upper_bound n N ltac:(lia)). apply (mod_inj (n `mod` N)); [apply Nat.mod_upper_bound; lia|done|].
  rewrite Nat.Div0.add_mod_idemp_r, (Nat.Div0.add_mod_idemp_l n k).
  replace (n `mod` N + ((n + k) `mod` N + N - n `mod` N))%nat with ((n + k) `mod` N + 1 * N)%nat by lia.
  by rewrite Nat.Div0.mod_add, Nat.Div0.mod_mod.
Qed.

Lemma produce_produce s r p r' p' e : produce (produce s r p []) r' p' e = produce s r' p' e.
Proof. unfold produce. cbn. by rewrite app_nil_r. Qed.
Lemma consume_consume s r c r' c' e : consume (consume s r c []) r' c' e = consume s r' c' e.
Proof. unfold consume. cbn. by rewrite app_nil_r. Qed.

(** The operations, run without interruption, are sequences of these steps. *)
Lemma push_steps s x r res :
  prod s = PIdle → push (ring s) x = Ret (r, res) →
  rtc step s (produce s r PIdle [match res with inl _ => Pushed x | inr y => Full y end]).
Proof.
  intros Hp. unfold push. cbn zeta. destruct (is_full (ring s) (next (head (ring s)))) eqn:Ef.
  - intros [= <- <-]. eapply rtc_l; [by apply (push_load s x)|]. eapply rtc_once.
    rewrite <- (produce_produce s (ring s) (PLoaded x (head (ring s))) (ring s) PIdle [Full x]).
    exact (push_full (produce s (ring s) (PLoaded x (head (ring s))) []) x _ eq_refl Ef).
  - destruct (write_slot (ring s) (head (ring s)) (Some x)) as [r'|] eqn:Ew; [|done]. intros [= <- <-].
    eapply rtc_l; [by apply (push_load s x)|]. eapply rtc_l; [by eapply push_room|]. rewrite produce_produce.
    eapply rtc_l; [by eapply push_write|]. rewrite produce_produce. eapply rtc_once.
    rewrite <- (produce_produce s r' (PWritten x (head (ring s))) (set_head r' (next (head (ring s)))) PIdle [Pushed x]).
    exact (push_store (produce s r' (PWritten x (head (ring s))) []) x _ eq_refl).
Qed.
Lemma pop_steps s r x :
  cons s = CIdle → pop (ring s) = Ret (r, x) →
  rtc step s (consume s r CIdle [if bool_decide (tail (ring s) = head (ring s)) then Empty else Popped x]).
Proof.
  intros Hc. unfold pop. cbn zeta. case_bool_decide as He.
  - intros [= <- <-]. eapply rtc_l; [by apply (pop_load s)|]. eapply rtc_once.
    rewrite <- (consume_consume s (ring s) (CLoaded (tail (ring s))) (ring s) CIdle [Empty]).
    exact (pop_empty (consume s (ring s) (CLoaded (tail (ring s))) []) _ eq_refl He).
  - destruct (take_slot (ring s) (tail (ring s))) as [[r' x']|] eqn:Ew; [|done]. intros [= <- <-].
    eapply rtc_l; [by apply (pop_load s)|]. eapply rtc_l; [by eapply pop_item|]. rewrite consume_consume.
    eapply rtc_l; [by eapply pop_take|]. rewrite consume_consume. eapply rtc_once.
    rewrite <- (consume_consume s r' (CTaken (tail (ring s)) x') (set_tail r' (next (tail (ring s)))) CIdle [Popped x']).
    exact (pop_store (consume s r' (CTaken (tail (ring s)) x') []) _ _ eq_refl).
Qed.
End ops.
End ring.

(** ** Properties *)

(** C19: the ring is a linearizable bounded queue: in every interleaving of one
    producer and one consumer, the results of [push] and [pop], in the order in
    which they take effect, are those of a queue of capacity N - 1: [push] fails
    exactly when the queue is full and [pop] exactly when it is empty; the items
    come out in the order they went in, none lost, invented or twice; [len]
    tells the number of queued items; no slot access is out of bounds, and a
    push never overwrites an item. *)
Theorem ring_linearizable {T} (N : nat) (s : Sys (T := T)) (HN : (0 < N)%nat) (Hrun : rtc (step N) (start N) s) :
  ∃ q, spec_run N (trace s) q ∧ (length q ≤ capacity N)%nat ∧ pushed (trace s) = popped (trace s) ++ q ∧
    len N (ring s) = length q ∧
    (∀ x h, prod s = PChecked x h → buffer (ring s) !! h = Some None ∧ ∃ r, write_slot (ring s) h (Some x) = Ret r) ∧
    (∀ t, cons s = CChecked t → ∃ y q' r, q = y :: q' ∧ take_slot (ring s) t = Ret (r, Some y)).
Proof.
  apply reachable_holds in Hrun as (n & q & [Hsp Hl Ht Hh Hr Hs Hp Hc]); [|done]. exists q.
  split_and!; [done|done|by eapply spec_fifo| | |].
  - unfold len. rewrite Hh, Ht. apply distance; unfold capacity in *; lia.
  - intros x h E. rewrite E in Hp. destruct Hp as [-> Hlt]. unfold capacity in Hlt.
    assert (buffer (ring s) !! head (ring s) = Some None) as Hb.
    { rewrite Hh, Hs by lia. unfold slot. rewrite E, Nat.ltb_irrefl. done. }
    split; [done|]. unfold write_slot. rewrite Hb. by eexists.
  - intros t E. rewrite E in Hc. destruct Hc as [-> Hne]. destruct q as [|y q]; [done|]. exists y, q.
    unfold take_slot. rewrite Ht. pose proof (Hs 0%nat HN) as H0. rewrite Nat.add_0_r in H0. rewrite H0.
    unfold slot. rewrite E. cbn. by eexists.
Qed.

Tactic Notation "take_step" uconstr(c) :=
  eapply rtc_l; [eapply c; first [reflexivity|discriminate]|];
  match goal with |- rtc _ ?x _ => let y := eval vm_compute in x in change x with y end.
(** Three slots: two pushes, a third that fails, and a pop that overlaps it. *)
Lemma sample_ring_run : ∃ s, rtc (step 3) (start 3) s ∧ trace s = [Pushed 1; Pushed 2; Full 3; Popped (Some 1)].
Proof.
  eexists. split.
  - take_step (push_load 3 _ 1). take_step (push_room 3). take_step (push_write 3). take_step (push_store 3).
    take_step (push_load 3 _ 2). take_step (push_room 3). take_step (push_write 3). take_step (push_store 3).
    take_step (pop_load 3). take_step (pop_item 3). take_step (push_load 3 _ 3). take_step (pop_take 3).
    take_step (push_full 3). take_step (pop_store 3). apply rtc_refl.
  - reflexivity.
Qed.
Lemma ring_linearizable_witness :
  ∃ s : Sys (T := Z), rtc (step 3) (start 3) s ∧ ∃ q, spec_run 3 (trace s) q ∧ pushed (trace s) = popped (trace s) ++ q.
Proof.
  destruct sample_ring_run as (s & Hrun & _). exists s. split; [exact Hrun|].
  destruct (ring_linearizable 3 s ltac:(lia) Hrun) as (q & Hq & _ & Hf & _). by exists q.
Defined.

(** ** The channel's control block *)

Module Channel.
(** Each handle's drop first clears its own flag, then frees the block when the
    other's is clear; [freed] counts the frees. *)
Inductive handle := Live | Cleared | Dropped.
Record ControlBlock := { has_rx : bool; has_tx : bool; rx : handle; tx : handle; freed : nat }.
Definition channel : ControlBlock := {| has_rx := true; has_tx := true; rx := Live; tx := Live; freed := 0 |}.
Definition rx_is_closed (c : ControlBlock) : bool := negb (has_tx c).
Definition tx_is_closed (c : ControlBlock) : bool := negb (has_rx c).

Definition rx_clear (c : ControlBlock) : ControlBlock :=
  {| has_rx := false; has_tx := has_tx c; rx := Cleared; tx := tx c; freed := freed c |}.
Definition rx_check (c : ControlBlock) : ControlBlock :=
  {| has_rx := has_rx c; has_tx := has_tx c; rx := Dropped; tx := tx c;
     freed := if negb (has_tx c) then S (freed c) else freed c |}.
Definition tx_clear (c : ControlBlock) : ControlBlock :=
  {| has_rx := has_rx c; has_tx := false; rx := rx c; tx := Cleared; freed := freed c |}.
Definition tx_check (c : ControlBlock) : ControlBlock :=
  {| has_rx := has_rx c; has_tx := has_tx c; rx := rx c; tx := Dropped;
     freed := if negb (has_rx c) then S (freed c) else freed c |}.

Inductive drop_step (c : ControlBlock) : ControlBlock → Prop :=
| drop_rx_clear : rx c = Live → drop_step c (rx_clear c)
| drop_rx_check : rx c = Cleared → drop_step c (rx_check c)
| drop_tx_clear : tx c = Live → drop_step c (tx_clear c)
| drop_tx_check : tx c = Cleared → drop_step c (tx_check c).

Definition live (h : handle) : bool := match h with Live => true | _ => false end.
Definition drop_inv (c : ControlBlock) : Prop :=
  has_rx c = live (rx c) ∧ has_tx c = live (tx c) ∧ (rx c = Dropped → tx c = Dropped → (1 ≤ freed c)%nat).
Lemma drop_step_inv c c' : drop_step c c' → drop_inv c → drop_inv c'.
Proof.
  unfold drop_inv. destruct c as [hr ht r t f]. intros [H|H|H|H]; cbn in *; subst; intros (-> & -> & Hf);
    (split; [done|split; [done|]]); intros E1 E2; try done; subst; cbn; lia.
Qed.

(** The block is freed by the time both handles are dropped, ... *)
Lemma dropped_is_freed c : rtc drop_step channel c → rx c = Dropped → tx c = Dropped → (1 ≤ freed c)%nat.
Proof.
  intros Hrun. enough (drop_inv c) as (_ & _ & H) by done. assert (drop_inv channel) as H0 by done.
  revert H0. induction Hrun as [c|c c1 c2 H _ IH]; [done|]. intros H0. by eapply IH, drop_step_inv.
Qed.

(** ... but when the two drops overlap it is freed twice. *)
Lemma drops_free_twice : ∃ c, rtc drop_step channel c ∧ freed c = 2%nat.
Proof.
  eexists. split; [|shelve]. eapply rtc_l; [by apply drop_rx_clear|]. eapply rtc_l; [by apply drop_tx_clear|].
  eapply rtc_l; [by apply drop_rx_check|]. eapply rtc_l; [by apply drop_tx_check|]. apply rtc_refl.
  Unshelve. reflexivity.
Qed.

(** ** The operations of the handles *)

(** While a handle is not dropped the block it points to is there. *)
Lemma live_not_freed c : rtc drop_step channel c → rx c = Live ∨ tx c = Live → freed c = 0%nat.
Proof.
  intros Hrun. enough (drop_inv c ∧ (rx c = Live ∨ tx c = Live → freed c = 0%nat)) as [_ H] by done.
  assert (drop_inv channel ∧ (rx channel = Live ∨ tx channel = Live → freed channel = 0%nat)) as H0 by done.
  revert H0. induction Hrun as [c|c c1 c2 Hst _ IH]; [done|]. intros [Hi Hf]. apply IH.
  split; [by eapply drop_step_inv|]. destruct Hi as (Hr & Ht & _). destruct Hst as [H|H|H|H]; cbn; rewrite ?Hr, ?Ht, H in *; cbn in *.
  - intros [?|?]; [done|by auto].
  - intros [?|E]; [done|]. rewrite E in *. cbn. by auto.
  - intros [?|?]; [by auto|done].
  - intros [E|?]; [|done]. rewrite E in *. cbn. by auto.
Qed.

Section handles.
Context {T : Type} (N : nat).
Record Chan := { block : ControlBlock; queue : SpscRing (T := T) }.
Definition new_channel : Chan := {| block := channel; queue := new N |}.

(** The ring behind the pointer [cb]; [Panic] stands for an access to a freed block. *)
Definition deref (c : Chan) : outcome SpscRing := if bool_decide (freed (block c) = 0%nat) then Ret (queue c) else Panic.
Definition with_queue (c : Chan) (r : SpscRing) : Chan := {| block := block c; queue := r |}.
Definition tx_push (c : Chan) (item : T) : outcome (Chan * (unit + T)) :=
  r ← deref c; '(r, res) ← push N r item; mret (with_queue c r, res).
Definition rx_pop (c : Chan) : outcome (Chan * option T) :=
  r ← deref c; '(r, item) ← pop N r; mret (with_queue c r, item).
Definition rx_len (c : Chan) : outcome nat := r ← deref c; mret (len N r).
Definition tx_len (c : Chan) : outcome nat := r ← deref c; mret (len N r).
Definition rx_is_empty (c : Chan) : outcome bool := r ← deref c; mret (is_empty N r).
Definition tx_is_empty (c : Chan) : outcome bool := r ← deref c; mret (is_empty N r).
Definition rx_capacity (c : Chan) : outcome nat := _ ← deref c; mret (capacity N).
Definition tx_capacity (c : Chan) : outcome nat := _ ← deref c; mret (capacity N).

(** The operations of a handle that is not dropped are those of the ring,
    whether or not the other handle is dropped, or being dropped. *)
Lemma handles_reach_ring c :
  rtc drop_step channel (block c) →
  (tx (block c) = Live → ∀ x, tx_push c x = ('(r, res) ← push N (queue c) x; mret (with_queue c r, res))) ∧
  (rx (block c) = Live → rx_pop c = ('(r, item) ← pop N (queue c); mret (with_queue c r, item))).
Proof.
  intros Hrun. assert (rx (block c) = Live ∨ tx (block c) = Live → deref c = Ret (queue c)) as Hd.
  { intros Hl. unfold deref. by rewrite (live_not_freed _ Hrun Hl). }
  split; intros Hl; [intros x; unfold tx_push|unfold rx_pop]; by rewrite Hd by auto.
Qed.
End handles.

(** Items that were pushed before the sender closed can still be popped. *)
Lemma closed_channel_drains :
  (c ← tx_push 4 (new_channel 4) 7;
   let c := {| block := tx_check (tx_clear (block c.1)); queue := queue c.1 |} in
   r ← rx_pop 4 c; mret (rx_is_closed (block c), r.2)) = Ret (true, Some 7).
Proof. reflexivity. Qed.
End Channel.
