(* ===== verification/ObjectPool.v ===== *)
(** * The bit mask and the object pool ([src/core/bitmask.rs], [src/mem/pool.rs])

    [Bitmask] keeps a set of indices in 32-bit words; [ObjectPool] hands out
    slots through a stack of free indices, with the mask to check them.  A slot
    holds [None] while it is uninitialised.  The stack is listed top first, and
    the debug assertions are modelled as assertions. *)

From S2P Require Import Prelude.

(** ** The bit mask *)

Module Bits.
Record Bitmask := { size : nat; bits : list Z }.
Definition bitmask_new (size : nat) : Bitmask := {| size := size; bits := replicate ((size + 31) / 32) 0 |}.
Definition is_set (b : Bitmask) (idx : nat) : outcome bool :=
  _ ← assert_ (idx <? size b)%nat;
  w ← expect (bits b !! (idx / 32)%nat);
  mret (negb (Z.land w (Z.shiftl 1 (Z.of_nat (idx `mod` 32))) =? 0)).
Definition update (b : Bitmask) (idx : nat) (f : Z → Z → Z) : outcome Bitmask :=
  _ ← assert_ (idx <? size b)%nat;
  w ← expect (bits b !! (idx / 32)%nat);
  mret {| size := size b; bits := <[(idx / 32)%nat := f w (Z.shiftl 1 (Z.of_nat (idx `mod` 32)))]> (bits b) |}.
Definition set (b : Bitmask) (idx : nat) : outcome Bitmask := update b idx Z.lor.
(** [w &= !bit] on 32 bits. *)
Definition clear (b : Bitmask) (idx : nat) : outcome Bitmask := update b idx (λ w bit, Z.land w (2 ^ 32 - 1 - bit)).

(** The mask holds the set [s]. *)
Record mask_is (b : Bitmask) (s : gset nat) : Prop := {
  mi_len : length (bits b) = ((size b + 31) / 32)%nat;
  mi_words : Forall u32 (bits b);
  mi_bits : ∀ i, (i < size b)%nat → ∃ w, bits b !! (i / 32)%nat = Some w ∧
              Z.testbit w (Z.of_nat (i `mod` 32)) = bool_decide (i ∈ s);
}.

Lemma word_index b i : (i < size b)%nat → (i / 32 < (size b + 31) / 32)%nat.
Proof. intros. pose proof (Nat.div_mod_eq i 32). pose proof (Nat.div_mod_eq (size b + 31) 32).
  pose proof (Nat.mod_upper_bound i 32). pose proof (Nat.mod_upper_bound (size b + 31) 32). lia. Qed.

Lemma land_bit w k : 0 ≤ k → (Z.land w (Z.shiftl 1 k) =? 0) = negb (Z.testbit w k).
Proof.
  intros Hk. destruct (Z.testbit w k) eqn:E; cbn.
  - apply Z.eqb_neq. intros H. apply (f_equal (λ x, Z.testbit x k)) in H.
    rewrite Z.land_spec, E, Z.shiftl_spec, Z.sub_diag, Z.bits_0 in H by lia. done.
  - apply Z.eqb_eq. apply Z.bits_inj'. intros n Hn. rewrite Z.land_spec, Z.bits_0, Z.shiftl_spec by lia.
    destruct (decide (n = k)) as [->|]; [by rewrite E|].
    assert (Z.testbit 1 (n - k) = false) as ->; [|apply andb_false_r].
    destruct (decide (n < k)); [apply Z.testbit_neg_r; lia|]. apply (Z.bits_above_log2 1); cbn; lia.
Qed.

Lemma new_mask n : mask_is (bitmask_new n) ∅.
Proof.
  split; cbn; [apply length_replicate|apply Forall_replicate; word_lia|].
  intros i Hi. exists 0. rewrite lookup_replicate_2 by (apply (word_index (bitmask_new n)); done).
  rewrite Z.bits_0. split; [done|]. by rewrite bool_decide_false by set_solver.
Qed.

Lemma is_set_spec b s i : mask_is b s → (i < size b)%nat → is_set b i = Ret (bool_decide (i ∈ s)).
Proof.
  intros [Hl _ Hb] Hi. unfold is_set. rewrite (proj2 (Nat.ltb_lt _ _) Hi). cbn [assert_ mbind outcome_bind].
  destruct (Hb i Hi) as (w & -> & E). cbn [expect mbind outcome_bind mret outcome_ret]. rewrite land_bit by lia. by rewrite negb_involutive, E.
Qed.

(** An update that changes one bit. *)
Lemma update_spec b s s' i f :
  mask_is b s → (i < size b)%nat → (∀ j, j ≠ i → j ∈ s' ↔ j ∈ s) →
  (∀ w k, u32 w → 0 ≤ k < 32 → u32 (f w (Z.shiftl 1 k)) ∧
     Z.testbit (f w (Z.shiftl 1 k)) k = bool_decide (i ∈ s') ∧
     ∀ n, 0 ≤ n < 32 → n ≠ k → Z.testbit (f w (Z.shiftl 1 k)) n = Z.testbit w n) →
  ∃ b', update b i f = Ret b' ∧ mask_is b' s' ∧ size b' = size b.
Proof.
  intros [Hl Hw Hb] Hi Hs Hf. unfold update. rewrite (proj2 (Nat.ltb_lt _ _) Hi). cbn [assert_ mbind outcome_bind].
  destruct (Hb i Hi) as (w & Ew & E). rewrite Ew. cbn [expect mbind outcome_bind mret outcome_ret]. eexists. split; [reflexivity|]. split; [|done].
  assert (u32 w) as Uw by (eapply Forall_lookup_1 in Hw; [|exact Ew]; done).
  pose proof (Nat.mod_upper_bound i 32 ltac:(lia)).
  destruct (Hf w (Z.of_nat (i `mod` 32)) Uw ltac:(lia)) as (Hu & Hsame & Hother).
  split; cbn [bits size]; [by rewrite length_insert|by apply Forall_insert|].
  intros j Hj. destruct (Hb j Hj) as (wj & Ewj & Ej). destruct (decide (j / 32 = i / 32)%nat) as [Eq|Hne].
  - rewrite Eq in Ewj |- *. rewrite Ew in Ewj. injection Ewj as <-.
    rewrite list_lookup_insert_eq by (rewrite Hl; by apply word_index). eexists. split; [reflexivity|].
    destruct (decide (j = i)) as [->|Hji]; [done|]. pose proof (Nat.mod_upper_bound j 32 ltac:(lia)).
    rewrite Hother; [rewrite Ej; apply bool_decide_ext; by rewrite Hs|lia|].
    intros En. apply Hji. pose proof (Nat.div_mod_eq i 32). pose proof (Nat.div_mod_eq j 32). lia.
  - rewrite list_lookup_insert_ne by done. exists wj. split; [done|]. rewrite Ej. apply bool_decide_ext. rewrite Hs; [done|].
    by intros ->.
Qed.

Lemma testbit_one k n : 0 ≤ k → 0 ≤ n → Z.testbit (Z.shiftl 1 k) n = bool_decide (n = k).
Proof.
  intros. rewrite Z.shiftl_spec by lia. case_bool_decide as E; [subst; by rewrite Z.sub_diag|].
  destruct (decide (n < k)); [apply Z.testbit_neg_r; lia|]. apply (Z.bits_above_log2 1); cbn; lia.
Qed.
Lemma u32_bits x : 0 ≤ x → (∀ n, 32 ≤ n → Z.testbit x n = false) → u32 x.
Proof.
  intros H0 Hb. split; [done|]. destruct (decide (x = 0)) as [->|]; [lia|].
  apply Z.log2_lt_pow2; [lia|]. destruct (decide (Z.log2 x < 32)); [done|].
  pose proof (Z.bit_log2 x ltac:(lia)) as Hl. rewrite Hb in Hl by lia. done.
Qed.
Lemma testbit_u32 x n : u32 x → 32 ≤ n → Z.testbit x n = false.
Proof.
  intros [H0 H1] Hn. destruct (decide (x = 0)) as [->|]; [by rewrite Z.bits_0|].
  apply Z.bits_above_log2; [done|]. apply Z.log2_lt_pow2 in H1; lia.
Qed.

Lemma set_spec b s i : mask_is b s → (i < size b)%nat → ∃ b', set b i = Ret b' ∧ mask_is b' (s ∪ {[i]}) ∧ size b' = size b.
Proof.
  intros Hm Hi. apply (update_spec b s); [done|done|set_solver|]. intros w k Hw Hk.
  assert (∀ n, 0 ≤ n → Z.testbit (Z.lor w (Z.shiftl 1 k)) n = Z.testbit w n || bool_decide (n = k)) as Hb
    by (intros; rewrite Z.lor_spec, testbit_one; done || lia).
  split_and!.
  - apply u32_bits; [apply Z.lor_nonneg; split; [apply Hw|apply Z.shiftl_nonneg; lia]|]. intros n Hn.
    rewrite Hb, testbit_u32, bool_decide_false by (done || lia). done.
  - rewrite Hb, !bool_decide_true by (set_solver || lia). apply orb_true_r.
  - intros n Hn Hne. rewrite Hb, bool_decide_false by (done || lia). apply orb_false_r.
Qed.
Lemma not_bit k n : 0 ≤ k < 32 → 0 ≤ n → Z.testbit (2 ^ 32 - 1 - Z.shiftl 1 k) n = bool_decide (n < 32 ∧ n ≠ k).
Proof.
  intros Hk Hn. assert (2 ^ 32 - 1 - Z.shiftl 1 k = Z.ldiff (Z.ones 32) (Z.shiftl 1 k)) as ->.
  { rewrite <- Z.sub_nocarry_ldiff; [done|]. apply Z.bits_inj'. intros m Hm.
    rewrite Z.ldiff_spec, Z.bits_0, testbit_one, Z.testbit_ones by lia.
    case_bool_decide; [subst|done]. destruct (Z.leb_spec 0 k), (Z.ltb_spec k 32); cbn; lia || done. }
  rewrite Z.ldiff_spec, testbit_one, Z.testbit_ones_nonneg by lia.
  destruct (Z.ltb_spec n 32), (decide (n = k)); cbn; repeat case_bool_decide; done || lia.
Qed.
Lemma clear_spec b s i : mask_is b s → (i < size b)%nat → ∃ b', clear b i = Ret b' ∧ mask_is b' (s ∖ {[i]}) ∧ size b' = size b.
Proof.
  intros Hm Hi. apply (update_spec b s); [done|done|set_solver|]. intros w k Hw Hk.
  assert (∀ n, 0 ≤ n → Z.testbit (Z.land w (2 ^ 32 - 1 - Z.shiftl 1 k)) n = Z.testbit w n && bool_decide (n < 32 ∧ n ≠ k)) as Hb
    by (intros; rewrite Z.land_spec, not_bit; done || lia).
  split_and!.
  - apply u32_bits; [apply Z.land_nonneg; left; apply Hw|]. intros n Hn.
    rewrite Hb, testbit_u32 by (done || lia). done.
  - rewrite Hb, (bool_decide_false (k < 32 ∧ k ≠ k)), bool_decide_false by (set_solver || lia). apply andb_false_r.
  - intros n Hn Hne. rewrite Hb, bool_decide_true by lia. apply andb_true_r.
Qed.
End Bits.

(** ** The pool *)

Module Pool.
Section pool.
Context {T : Type}.

Record ObjectPool := { slots : list (option T); used : Bits.Bitmask; free_list : list nat }.

(** The assertion of [new] that the type is not zero-sized concerns the choice of
    the type and is left out: values here have no size. *)
Definition new (capacity : nat) : ObjectPool :=
  {| slots := replicate capacity None; used := Bits.bitmask_new capacity; free_list := seq 0 capacity |}.
Definition capacity (p : ObjectPool) : nat := length (slots p).
Definition available (p : ObjectPool) : nat := length (free_list p).

(** The pool and the index of the handle. *)
Definition alloc (p : ObjectPool) (value : T) : outcome (ObjectPool * option nat) :=
  match free_list p with
  | [] => mret (p, None)
  | index :: rest =>
    in_use ← Bits.is_set (used p) index;
    _ ← assert_ (negb in_use);
    used ← Bits.set (used p) index;
    _ ← expect (slots p !! index);
    mret ({| slots := <[index := Some value]> (slots p); used := used; free_list := rest |}, Some index)
  end.

(** The pool and the values whose destructors ran. *)
Definition release (p : ObjectPool) (index : nat) (drop_value : bool) : outcome (ObjectPool * list T) :=
  dropped ← (if drop_value then v ← expect (slots p !! index); v ← expect v; mret [v] else mret []);
  in_use ← Bits.is_set (used p) index;
  _ ← assert_ in_use;
  used ← Bits.clear (used p) index;
  mret ({| slots := <[index := None]> (slots p); used := used; free_list := index :: free_list p |}, dropped).

(** [Obj]: the value behind a handle, read and written in place; dropping the
    handle; moving the value out. *)
Definition as_ref (p : ObjectPool) (index : nat) : outcome T := v ← expect (slots p !! index); expect v.
Definition write (p : ObjectPool) (index : nat) (value : T) : outcome ObjectPool :=
  _ ← as_ref p index;
  mret {| slots := <[index := Some value]> (slots p); used := used p; free_list := free_list p |}.
Definition drop_obj (p : ObjectPool) (index : nat) : outcome (ObjectPool * list T) := release p index true.
Definition into_inner (p : ObjectPool) (index : nat) : outcome (ObjectPool * T) :=
  value ← as_ref p index;
  r ← release p index false;
  mret (r.1, value).

(** [Drop for ObjectPool]: the values still in use, in the order of the slots. *)
Fixpoint drop_from (p : ObjectPool) (ix : list nat) : outcome (list T) :=
  match ix with
  | [] => mret []
  | i :: ix =>
    in_use ← Bits.is_set (used p) i;
    if (in_use : bool) then (v ← as_ref p i; vs ← drop_from p ix; mret (v :: vs)) else drop_from p ix
  end.
Definition drop_pool (p : ObjectPool) : outcome (list T) := drop_from p (seq 0 (capacity p)).

(** ** What the pool holds *)

(** The live handles and their values: each handle is created by [alloc], and
    only its owner writes through it or ends it. *)
Inductive owns (n : nat) : ObjectPool → gmap nat T → Prop :=
| owns_new : owns n (new n) ∅
| owns_alloc p m v p' i : owns n p m → alloc p v = Ret (p', Some i) → owns n p' (<[i := v]> m)
| owns_write p m i w v p' : owns n p m → m !! i = Some w → write p i v = Ret p' → owns n p' (<[i := v]> m)
| owns_drop p m i w p' vs : owns n p m → m !! i = Some w → drop_obj p i = Ret (p', vs) → owns n p' (delete i m)
| owns_into p m i w p' v : owns n p m → m !! i = Some w → into_inner p i = Ret (p', v) → owns n p' (delete i m).

Record holds (n : nat) (p : ObjectPool) (m : gmap nat T) : Prop := {
  hs_cap : length (slots p) = n;
  hs_size : Bits.size (used p) = n;
  hs_mask : Bits.mask_is (used p) (dom m);
  hs_slots : ∀ i, (i < n)%nat → slots p !! i = Some (m !! i);
  hs_nodup : NoDup (free_list p);
  hs_free : ∀ i, i ∈ free_list p ↔ (i < n)%nat ∧ m !! i = None;
  hs_dom : ∀ i, is_Some (m !! i) → (i < n)%nat;
}.

Lemma obj_new_holds n : holds n (new n) ∅.
Proof.
  split; cbn.
  - apply length_replicate.
  - done.
  - rewrite dom_empty_L. apply Bits.new_mask.
  - intros i Hi. by rewrite lookup_empty, lookup_replicate_2.
  - apply NoDup_seq.
  - intros i. rewrite elem_of_seq, lookup_empty. intuition lia.
  - intros i. rewrite lookup_empty. by intros [? ?].
Qed.

Lemma obj_alloc_spec n p m v :
  holds n p m →
  match free_list p with
  | [] => alloc p v = Ret (p, None)
  | i :: _ => m !! i = None ∧ ∃ p', alloc p v = Ret (p', Some i) ∧ holds n p' (<[i := v]> m)
  end.
Proof.
  intros [Hc Hz Hm Hs Hn Hf Hd]. unfold alloc. destruct (free_list p) as [|i rest] eqn:El; [done|].
  destruct (proj1 (Hf i) ltac:(by left)) as [Hi Hnone]. split; [done|].
  rewrite (Bits.is_set_spec _ (dom m)) by (done || lia). rewrite bool_decide_false by (by apply not_elem_of_dom).
  cbn [mbind outcome_bind negb assert_]. destruct (Bits.set_spec (used p) (dom m) i) as (b & -> & Hb & Hbz); [done|lia|].
  cbn [mbind outcome_bind]. rewrite Hs by done. cbn. eexists. split; [reflexivity|].
  split; cbn [slots used free_list].
  - by rewrite length_insert.
  - congruence.
  - rewrite dom_insert_L. by rewrite union_comm_L.
  - intros j Hj. destruct (decide (j = i)) as [->|]; [by rewrite list_lookup_insert_eq, lookup_insert_eq by lia|].
    by rewrite list_lookup_insert_ne, lookup_insert_ne, Hs.
  - by eapply NoDup_cons_1_2.
  - intros j. pose proof (NoDup_cons_1_1 _ _ Hn) as Hni. pose proof (Hf j) as Hfj. rewrite elem_of_cons in Hfj.
    destruct (decide (j = i)) as [->|Hne]; [rewrite lookup_insert_eq; naive_solver|].
    rewrite lookup_insert_ne by done. naive_solver.
  - intros j [w [[<- _]|[_ Hw]]%lookup_insert_Some]; [done|]. apply Hd. eauto.
Qed.

Lemma obj_release_spec n p m i v b :
  holds n p m → m !! i = Some v →
  ∃ p', release p i b = Ret (p', if b then [v] else []) ∧ holds n p' (delete i m).
Proof.
  intros [Hc Hz Hm Hs Hn Hf Hd] Hi. assert (i < n)%nat as Hlt by eauto. unfold release.
  rewrite Hs, Hi by done. replace (if b then _ else _) with (Ret (if b then [v] else [])) by (by destruct b).
  cbn [mbind outcome_bind]. rewrite (Bits.is_set_spec _ (dom m)) by (done || lia).
  rewrite bool_decide_true by (apply elem_of_dom; eauto). cbn [mbind outcome_bind assert_].
  destruct (Bits.clear_spec (used p) (dom m) i) as (bm & -> & Hb & Hbz); [done|lia|]. cbn.
  eexists. split; [reflexivity|]. split; cbn [slots used free_list].
  - by rewrite length_insert.
  - congruence.
  - by rewrite dom_delete_L.
  - intros j Hj. destruct (decide (j = i)) as [->|]; [by rewrite list_lookup_insert_eq, lookup_delete_eq by lia|].
    by rewrite list_lookup_insert_ne, lookup_delete_ne, Hs.
  - constructor; [|done]. rewrite Hf, Hi. naive_solver.
  - intros j. rewrite elem_of_cons, Hf. destruct (decide (j = i)) as [->|]; [rewrite lookup_delete_eq; naive_solver|].
    rewrite lookup_delete_ne by done. naive_solver.
  - intros j [w [_ Hw]%lookup_delete_Some]. apply Hd. eauto.
Qed.

Lemma obj_as_ref_spec n p m i v : holds n p m → m !! i = Some v → as_ref p i = Ret v.
Proof. intros [Hc _ _ Hs _ _ Hd] Hi. unfold as_ref. by rewrite Hs, Hi by eauto. Qed.

Lemma obj_write_spec n p m i w v :
  holds n p m → m !! i = Some w → ∃ p', write p i v = Ret p' ∧ holds n p' (<[i := v]> m).
Proof.
  intros H Hi. unfold write. rewrite (obj_as_ref_spec n p m i w) by done. cbn. destruct H as [Hc Hz Hm Hs Hn Hf Hd].
  assert (i < n)%nat as Hlt by eauto. eexists. split; [reflexivity|]. split; cbn [slots used free_list]; try done.
  - by rewrite length_insert.
  - rewrite dom_insert_L. replace ({[i]} ∪ dom m) with (dom m); [done|]. assert (i ∈ dom m) by (apply elem_of_dom; eauto). set_solver.
  - intros j Hj. destruct (decide (j = i)) as [->|]; [by rewrite list_lookup_insert_eq, lookup_insert_eq by lia|].
    by rewrite list_lookup_insert_ne, lookup_insert_ne, Hs.
  - intros j. rewrite Hf. destruct (decide (j = i)) as [->|]; [rewrite lookup_insert_eq, Hi; naive_solver|].
    by rewrite lookup_insert_ne.
  - intros j [x [[<- _]|[_ Hx]]%lookup_insert_Some]; [done|]. apply Hd. eauto.
Qed.

Lemma owns_holds n p m : owns n p m → holds n p m.
Proof.
  induction 1 as [|p m v p' i _ IH E|p m i w v p' _ IH Hi E|p m i w p' vs _ IH Hi E|p m i w p' v _ IH Hi E].
  - apply obj_new_holds.
  - pose proof (obj_alloc_spec n p m v IH) as Ha. destruct (free_list p) as [|j l]; [by rewrite E in Ha|].
    destruct Ha as (_ & p'' & E' & H). rewrite E in E'. by injection E' as -> ->.
  - destruct (obj_write_spec n p m i w v IH Hi) as (p'' & E' & H). rewrite E in E'. by injection E' as ->.
  - destruct (obj_release_spec n p m i w true IH Hi) as (p'' & E' & H). unfold drop_obj in E. rewrite E in E'. by injection E' as -> _.
  - destruct (obj_release_spec n p m i w false IH Hi) as (p'' & E' & H). unfold into_inner in E.
    rewrite (obj_as_ref_spec n p m i w), E' in E by done. by injection E as <- _.
Qed.

Lemma obj_available_spec n p m : holds n p m → (available p + size m)%nat = n.
Proof.
  intros [Hc Hz Hm Hs Hn Hf Hd]. unfold available.
  assert (list_to_set (free_list p) ∪ dom m = list_to_set (seq 0 n) :> gset nat) as E.
  { apply set_eq. intros i. rewrite elem_of_union, !elem_of_list_to_set, Hf, elem_of_dom, elem_of_seq.
    destruct (m !! i) eqn:Ei; split; [|eauto|naive_solver lia|naive_solver lia].
    intros _. assert (i < n)%nat by eauto. lia. }
  apply (f_equal size) in E. rewrite size_union in E.
  - rewrite size_dom, !size_list_to_set in E by (done || apply NoDup_seq). by rewrite length_seq in E.
  - intros i. rewrite elem_of_list_to_set, Hf, elem_of_dom. intros [_ ->] [? ?]. done.
Qed.

Lemma drop_from_spec n p m ix :
  holds n p m → (∀ i, i ∈ ix → (i < n)%nat) → drop_from p ix = Ret (omap (λ i, m !! i) ix).
Proof.
  intros H. induction ix as [|i ix IH]; intros Hi; [done|]. cbn [drop_from].
  rewrite (Bits.is_set_spec _ (dom m)) by (first [apply H | rewrite (hs_size _ _ _ H); apply Hi; by left]).
  cbn [mbind outcome_bind omap list_omap]. rewrite IH by (intros; apply Hi; by right).
  destruct (m !! i) as [v|] eqn:E.
  - rewrite bool_decide_true by (apply elem_of_dom; eauto). rewrite (obj_as_ref_spec n p m i v) by done. done.
  - rewrite bool_decide_false by (by apply not_elem_of_dom). done.
Qed.
End pool.

(** ** Properties *)

(** C31: the object pool: over every use of a pool in which each handle is
    written through and ended by its owner only, no assertion fires, and the pool
    behaves as a map from live handles to values: an allocation fails exactly
    when as many handles are live as there are slots, and otherwise returns an
    index no live handle has; reading gives the last value written, whatever
    happens to other handles; ending a handle destroys its value exactly once, or
    moves it out undestroyed; and dropping the pool destroys exactly the values
    still live, once each. *)
Theorem object_pool_is_map {T} (n : nat) (p : ObjectPool) (m : gmap nat T) (Howns : owns n p m) :
  capacity p = n ∧ (available p + size m)%nat = n ∧
  (∀ v, if (size m <? n)%nat
        then ∃ p' i, alloc p v = Ret (p', Some i) ∧ m !! i = None ∧ (i < n)%nat
        else alloc p v = Ret (p, None)) ∧
  (∀ i v, m !! i = Some v →
     as_ref p i = Ret v ∧ (∀ w, ∃ p', write p i w = Ret p') ∧
     (∃ p', drop_obj p i = Ret (p', [v])) ∧ (∃ p', into_inner p i = Ret (p', v))) ∧
  drop_pool p = Ret (omap (λ i, m !! i) (seq 0 n)).
Proof.
  apply owns_holds in Howns as H. pose proof (obj_available_spec n p m H) as Hav.
  split_and!; [apply H|done| | |].
  - intros v. pose proof (obj_alloc_spec n p m v H) as Ha. unfold available in Hav. destruct (free_list p) as [|i l] eqn:El.
    + cbn [length] in Hav. by rewrite (proj2 (Nat.ltb_ge _ _)) by lia.
    + cbn [length] in Hav. rewrite (proj2 (Nat.ltb_lt _ _)) by lia. destruct Ha as (Hn & p' & E & _). exists p', i.
      split_and!; [done|done|]. apply (hs_free _ _ _ H). rewrite El. by left.
  - intros i v Hi. pose proof (obj_as_ref_spec n p m i v H Hi) as Hr.
    destruct (obj_release_spec n p m i v false H Hi) as (p2 & E2 & _).
    split_and!; [done| | |].
    + intros w. destruct (obj_write_spec n p m i v w H Hi) as (p' & E & _). eauto.
    + destruct (obj_release_spec n p m i v true H Hi) as (p' & E & _). eauto.
    + exists p2. unfold into_inner. by rewrite Hr, E2.
  - unfold drop_pool, capacity. rewrite (hs_cap _ _ _ H). apply (drop_from_spec n); [done|].
    intros i. rewrite elem_of_seq. lia.
Qed.
Lemma object_pool_is_map_witness :
  ∃ p : ObjectPool, owns 2 p {[0%nat := 7]} ∧ available p = 1%nat ∧ as_ref p 0 = Ret 7.
Proof.
  assert (∃ p, owns 2 p {[0%nat := 7]}) as [p Hp].
  { eexists. rewrite <- insert_empty. eapply owns_alloc; [apply owns_new|]. reflexivity. }
  exists p. destruct (object_pool_is_map 2 p _ Hp) as (_ & Ha & _ & Hr & _). split_and!; [done| |].
  - rewrite map_size_singleton in Ha. lia.
  - apply (Hr 0%nat 7). reflexivity.
Defined.
End Pool.
