(* ===== verification/Alloc.v ===== *)
(** * The free-list allocator ([src/mem/alloc.rs])

    [FreeList] keeps the free blocks of a region in a list threaded through the
    blocks themselves; [Arena] is the process allocator over one region.  The
    memory of the region is a map from the offset of each aligned 8-byte word
    to its value, shared by the list and the clients: a client may store
    anything in a block it was given.  An access outside the region is a
    [Panic], and so are an overflow of [u64] arithmetic and a failing debug
    assertion.

    The specification is the list of free blocks in the order of their offsets.
    The theorems are about every history of requests, releases and client
    stores that keeps to the contract of [GlobalAlloc]. *)

From S2P Require Import Prelude.
From stdpp Require Import list sorting.
Open Scope Z_scope.

(** ** Words and layouts *)

Definition ALIGN : Z := 8.
Definition MIN_BLOCK : Z := 16.
Definition NIL : Z := 2 ^ 64 - 1.

Definition add64 (a b : Z) : outcome Z := if a + b <? 2 ^ 64 then Ret (a + b) else Panic.
Definition sub64 (a b : Z) : outcome Z := if b <=? a then Ret (a - b) else Panic.
Definition not64 (a : Z) : Z := 2 ^ 64 - 1 - a.

Record Layout := { layout_size : Z; layout_align : Z }.
(** What [Layout::from_size_align] guarantees. *)
Definition layout_ok (ly : Layout) : Prop :=
  0 ≤ layout_size ly ∧ layout_size ly + layout_align ly ≤ 2 ^ 63 ∧
  ∃ k, 0 ≤ k ∧ layout_align ly = 2 ^ k.

Definition align_up (value align : Z) : outcome Z :=
  x ← add64 value (align - 1); mret (Z.land x (not64 (align - 1))).
Definition block_size_for (layout : Layout) : outcome Z :=
  align_up (Z.max (layout_size layout) MIN_BLOCK) ALIGN.

(** ** The list *)

Abbreviation memory := (gmap Z Z).
(** [mem] is the region that [base] points to. *)
Record FreeList := { base : Z; size : Z; head : Z; mem : memory }.

Definition set_head (l : FreeList) (x : Z) : FreeList :=
  {| base := base l; size := size l; head := x; mem := mem l |}.
Definition load (l : FreeList) (i : Z) : outcome Z := expect (mem l !! i).
Definition store (l : FreeList) (i x : Z) : outcome FreeList :=
  _ ← load l i; mret {| base := base l; size := size l; head := head l; mem := <[i := x]> (mem l) |}.

(** [Entry { size, next }] at [off]. *)
Definition entry_size (l : FreeList) (off : Z) : outcome Z := load l off.
Definition entry_next (l : FreeList) (off : Z) : outcome Z := load l (off + 8).
Definition set_size (l : FreeList) (off x : Z) : outcome FreeList := store l off x.
Definition set_next (l : FreeList) (off x : Z) : outcome FreeList := store l (off + 8) x.
Definition write_entry (l : FreeList) (off s n : Z) : outcome FreeList :=
  l ← set_size l off s; set_next l off n.

Definition new (addr len : Z) (m : memory) : outcome FreeList :=
  aligned ← align_up addr ALIGN;
  pad ← sub64 aligned addr;
  rest ← sub64 len pad;
  let usable := Z.land rest (not64 (ALIGN - 1)) in
  _ ← assert_ (MIN_BLOCK <=? usable);
  write_entry {| base := addr + pad; size := usable; head := 0; mem := m |} 0 usable NIL.

(** A turn of a loop over the list looks at one block, and blocks take at
    least [MIN_BLOCK] bytes of the region. *)
Definition turns (l : FreeList) : nat := S (Z.to_nat (size l / MIN_BLOCK)).

(** Where a block starts in the hole at [cur], and the bytes left in front. *)
Definition place (base_addr align cur : Z) : outcome (Z * Z) :=
  start ← add64 base_addr cur;
  a ← align_up start align; aligned ← sub64 a base_addr; front ← sub64 aligned cur;
  if negb (front =? 0) && (front <? MIN_BLOCK) then
    start ← add64 start MIN_BLOCK;
    a ← align_up start align; aligned ← sub64 a base_addr; front ← sub64 aligned cur;
    mret (aligned, front)
  else mret (aligned, front).

(** Replace the hole at [cur] by its front and back remnants. *)
Definition carve (l : FreeList) (prev cur next front alloc_end back : Z) : outcome FreeList :=
  '(l, back_off) ← (if MIN_BLOCK <=? back
                    then l ← write_entry l alloc_end back next; mret (l, alloc_end)
                    else mret (l, next));
  '(l, seg_head) ← (if MIN_BLOCK <=? front
                    then l ← write_entry l cur front back_off; mret (l, cur)
                    else mret (l, back_off));
  if prev =? NIL then mret (set_head l seg_head) else set_next l prev seg_head.

Fixpoint alloc_loop (fuel : nat) (l : FreeList) (align need prev cur : Z) : outcome (FreeList * option Z) :=
  match fuel with
  | O => Panic
  | S fuel =>
    if cur =? NIL then mret (l, None)
    else
      hole_size ← entry_size l cur;
      next ← entry_next l cur;
      hole_end ← add64 cur hole_size;
      '(aligned, front) ← place (base l) align cur;
      alloc_end ← add64 aligned need;
      let back := hole_end - alloc_end in
      if (alloc_end <=? hole_end) && ((back =? 0) || (MIN_BLOCK <=? back)) then
        l ← carve l prev cur next front alloc_end back; mret (l, Some (base l + aligned))
      else alloc_loop fuel l align need cur next
  end.

Definition alloc (l : FreeList) (layout : Layout) : outcome (FreeList * option Z) :=
  let align := Z.max (layout_align layout) ALIGN in
  need ← block_size_for layout;
  alloc_loop (turns l) l align need NIL (head l).

Fixpoint find_gap (fuel : nat) (l : FreeList) (off prev cur : Z) : outcome (Z * Z) :=
  match fuel with
  | O => Panic
  | S fuel =>
    if negb (cur =? NIL) && (cur <? off) then n ← entry_next l cur; find_gap fuel l off cur n
    else mret (prev, cur)
  end.

(** [b != NIL && b + self.entry_size(b) == x]. *)
Definition ends_at (l : FreeList) (b x : Z) : outcome bool :=
  if b =? NIL then mret false else s ← entry_size l b; e ← add64 b s; mret (e =? x).

(** The two branches of [insert_free]: grow the block at [prev], or link a new
    block between [prev] and [cur]. *)
Definition merge_prev (l : FreeList) (prev cur size : Z) : outcome FreeList :=
  s ← entry_size l prev; s ← add64 s size; l ← set_size l prev s;
  merge_next ← (if cur =? NIL then mret false else ends_at l prev cur);
  if merge_next : bool then
    s ← entry_size l prev; t ← entry_size l cur; s ← add64 s t; l ← set_size l prev s;
    n ← entry_next l cur; set_next l prev n
  else mret l.
Definition insert_new (l : FreeList) (off size prev cur : Z) : outcome FreeList :=
  merge_next ← (if cur =? NIL then mret false else e ← add64 off size; mret (e =? cur));
  '(new_size, new_next) ←
    (if merge_next : bool then t ← entry_size l cur; s ← add64 size t; n ← entry_next l cur; mret (s, n)
     else mret (size, cur));
  l ← write_entry l off new_size new_next;
  if prev =? NIL then mret (set_head l off) else set_next l prev off.
Definition insert_free (l : FreeList) (off size : Z) : outcome FreeList :=
  '(prev, cur) ← find_gap (turns l) l off NIL (head l);
  adjacent ← ends_at l prev off;
  if adjacent : bool then merge_prev l prev cur size else insert_new l off size prev cur.

Definition dealloc (l : FreeList) (ptr : Z) (layout : Layout) : outcome FreeList :=
  off ← sub64 ptr (base l);
  _ ← assert_ (off <? size l);
  s ← block_size_for layout;
  insert_free l off s.

Fixpoint free_bytes_from (fuel : nat) (l : FreeList) (total cur : Z) : outcome Z :=
  match fuel with
  | O => Panic
  | S fuel =>
    if cur =? NIL then mret total
    else s ← entry_size l cur; total ← add64 total s; n ← entry_next l cur; free_bytes_from fuel l total n
  end.
Definition free_bytes (l : FreeList) : outcome Z := free_bytes_from (turns l) l 0 (head l).

(** ** The arena *)

(** [addr] and [capacity] are the address and the length of [data]; before the
    first request [heap] is [None] and the words of the arena are [data]. *)
Record Arena := { addr : Z; capacity : Z; data : memory; heap : option FreeList }.

Definition with_heap (a : Arena) (l : FreeList) : Arena :=
  {| addr := addr a; capacity := capacity a; data := data a; heap := Some l |}.
Definition get_or_insert_heap (a : Arena) : outcome FreeList :=
  match heap a with Some l => mret l | None => new (addr a) (capacity a) (data a) end.
Definition arena_alloc (a : Arena) (layout : Layout) : outcome (Arena * option Z) :=
  l ← get_or_insert_heap a;
  '(l, p) ← alloc l layout; mret (with_heap a l, p).
Definition arena_dealloc (a : Arena) (ptr : Z) (layout : Layout) : outcome Arena :=
  match heap a with
  | Some l => l ← dealloc l ptr layout; mret (with_heap a l)
  | None => mret a
  end.

(** [Arena::new] placed at [at_]: all words are zero. *)
Definition zeroed (n : nat) : memory := list_to_map ((λ i, (8 * Z.of_nat i, 0)) <$> seq 0 n).
Definition arena_new (at_ cap : Z) : Arena :=
  {| addr := at_; capacity := cap; data := zeroed (Z.to_nat (cap / 8)); heap := None |}.

(** ** Rounding *)

Definition up (v a : Z) : Z := (v + a - 1) / a * a.
Definition bsize (ly : Layout) : Z := up (Z.max (layout_size ly) MIN_BLOCK) ALIGN.

Lemma add64_Ret a b : a + b < 2 ^ 64 → add64 a b = Ret (a + b).
Proof. intros. unfold add64. by rewrite (proj2 (Z.ltb_lt _ _)). Qed.
Lemma sub64_Ret a b : b ≤ a → sub64 a b = Ret (a - b).
Proof. intros. unfold sub64. by rewrite (proj2 (Z.leb_le _ _)). Qed.

Lemma up_spec v a : 0 < a → v ≤ up v a < v + a ∧ (a | up v a).
Proof.
  intros Ha. unfold up. split; [|by exists ((v + a - 1) / a)].
  pose proof (Z.div_mod (v + a - 1) a ltac:(lia)). pose proof (Z.mod_pos_bound (v + a - 1) a Ha). lia.
Qed.

(** Masking with [!(align - 1)] rounds down to a multiple of a power of two. *)
Lemma land_not64 x k : 0 ≤ x < 2 ^ 64 → 0 ≤ k ≤ 64 → Z.land x (not64 (2 ^ k - 1)) = x / 2 ^ k * 2 ^ k.
Proof.
  intros Hx Hk. unfold not64.
  replace (2 ^ 64 - 1 - (2 ^ k - 1)) with (Z.ones 64 - Z.ones k) by (rewrite !Z.ones_equiv; lia).
  assert (Z.ldiff (Z.ones k) (Z.ones 64) = 0) as Hz.
  { apply Z.bits_inj'. intros n Hn. rewrite Z.ldiff_spec, Z.bits_0, !Z.testbit_ones_nonneg by lia.
    destruct (n <? k) eqn:E1, (n <? 64) eqn:E2; try done. lia. }
  rewrite (Z.sub_nocarry_ldiff _ _ Hz), Z.ldiff_land, Z.land_assoc, <- Z.ldiff_land.
  rewrite Z.land_ones, Z.mod_small by lia.
  rewrite Z.ldiff_ones_r, Z.shiftr_div_pow2, Z.shiftl_mul_pow2 by lia. done.
Qed.

Lemma align_up_Ret v k : 0 ≤ v → 0 ≤ k ≤ 64 → v + 2 ^ k ≤ 2 ^ 64 → align_up v (2 ^ k) = Ret (up v (2 ^ k)).
Proof.
  intros Hv Hk Hs. unfold align_up. pose proof (Z.pow_pos_nonneg 2 k). rewrite add64_Ret by lia. simpl.
  rewrite land_not64 by lia. unfold up, mret, outcome_ret. do 3 f_equal. lia.
Qed.

Lemma layout_block ly : layout_ok ly →
  block_size_for ly = Ret (bsize ly) ∧ layout_size ly ≤ bsize ly ≤ Z.max (layout_size ly) 16 + 7 ∧
  16 ≤ bsize ly ∧ (8 | bsize ly).
Proof.
  intros (H0 & H1 & k & Hk & Ha). pose proof (Z.pow_pos_nonneg 2 k). unfold block_size_for, bsize, ALIGN, MIN_BLOCK.
  change 8 with (2 ^ 3) at 1. rewrite align_up_Ret by word_lia.
  pose proof (up_spec (Z.max (layout_size ly) 16) 8 ltac:(lia)) as [? ?].
  change (2 ^ 3) with 8. split_and!; [done|lia|lia|lia|done].
Qed.

(** ** Blocks and the list in memory *)

Abbreviation block := (Z * Z)%type.
Definition inside (i : Z) (b : block) : Prop := b.1 ≤ i < b.1 + b.2.
Definition within (b c : block) : Prop := c.1 ≤ b.1 ∧ b.1 + b.2 ≤ c.1 + c.2.
Definition apart (b c : block) : Prop := b.1 + b.2 ≤ c.1 ∨ c.1 + c.2 ≤ b.1.
(** In order, and not adjacent. *)
Definition before (b c : block) : Prop := b.1 + b.2 < c.1.
Definition block_ok (n : Z) (b : block) : Prop :=
  0 ≤ b.1 ∧ MIN_BLOCK ≤ b.2 ∧ b.1 + b.2 ≤ n ∧ (8 | b.1) ∧ (8 | b.2).
Definition total (bs : list block) : Z := foldr (λ b t, b.2 + t) 0 bs.

(** The entries from [h] on are the blocks [bs] and lead to [t]. *)
Fixpoint lseg (m : memory) (h : Z) (bs : list block) (t : Z) : Prop :=
  match bs with
  | [] => h = t
  | (o, s) :: bs => h = o ∧ m !! o = Some s ∧ ∃ n, m !! (o + 8) = Some n ∧ lseg m n bs t
  end.
Definition last_off (bs : list block) : Z := List.last bs.*1 NIL.

Lemma lseg_app m h a b t : lseg m h (a ++ b) t ↔ ∃ u, lseg m h a u ∧ lseg m u b t.
Proof.
  revert h; induction a as [|[o s] a IH]; intros h; simpl.
  - split; [by exists h|by intros (u & -> & H)].
  - setoid_rewrite IH. naive_solver.
Qed.

Lemma blocks_big n bs : Forall (block_ok n) bs → Forall (λ b, 16 ≤ b.2) bs.
Proof. apply List.Forall_impl. by intros b (_ & H & _). Qed.

(** What a list operation may change. *)
Record touches (l l' : FreeList) (bs : list block) : Prop := {
  t_base : base l' = base l;
  t_size : size l' = size l;
  t_mem : ∀ i, mem l' !! i = mem l !! i ∨ Exists (inside i) bs;
  t_dom : ∀ i, is_Some (mem l !! i) → is_Some (mem l' !! i)
}.

Lemma touches_refl l bs : touches l l bs.
Proof. split; auto. Qed.
Lemma touches_head l x bs : touches l (set_head l x) bs.
Proof. split; auto. Qed.
Lemma touches_trans l l1 l2 bs : touches l l1 bs → touches l1 l2 bs → touches l l2 bs.
Proof.
  intros [B1 S1 M1 D1] [B2 S2 M2 D2]. split; [congruence|congruence| |auto].
  intros i. destruct (M2 i) as [->|]; auto.
Qed.

Definition upd (l : FreeList) (i x : Z) : FreeList :=
  {| base := base l; size := size l; head := head l; mem := <[i := x]> (mem l) |}.
Lemma store_Ret l i x : is_Some (mem l !! i) → store l i x = Ret (upd l i x).
Proof. intros [v Hv]. unfold store, load. by rewrite Hv. Qed.
Lemma touches_upd l i x bs : Exists (inside i) bs → touches l (upd l i x) bs.
Proof.
  intros H. split; [done..| |]; intros j; simpl.
  - destruct (decide (i = j)) as [->|]; [by right|left; by apply lookup_insert_ne].
  - intros Hj. destruct (decide (i = j)) as [->|]; [rewrite lookup_insert_eq; eauto|by rewrite lookup_insert_ne].
Qed.

(** The words of the region can be accessed. *)
Definition mapped (l : FreeList) : Prop :=
  size l ≤ 2 ^ 63 ∧ ∀ i, 0 ≤ i → i + 8 ≤ size l → (8 | i) → is_Some (mem l !! i).
Lemma touches_mapped l l' bs : touches l l' bs → mapped l → mapped l'.
Proof. intros [B S M D] [Hs H]. unfold mapped. rewrite S. auto. Qed.
Lemma block_words l b : mapped l → block_ok (size l) b → is_Some (mem l !! b.1) ∧ is_Some (mem l !! (b.1 + 8)).
Proof.
  intros [_ Hm] (? & ? & ? & ? & ?). unfold MIN_BLOCK in *.
  split; apply Hm; try lia; [done|]. apply Z.divide_add_r; [done|by exists 1].
Qed.

Definition clear_of (cs bs : list block) : Prop := ∀ c b, c ∈ cs → b ∈ bs → apart c b.

Lemma lseg_frame l l' cs h bs t n : lseg (mem l) h bs t → touches l l' cs → Forall (block_ok n) bs →
  clear_of cs bs → lseg (mem l') h bs t.
Proof.
  intros Hl HT. revert h Hl; induction bs as [|[o s] bs IH]; intros h; simpl; [done|].
  intros (-> & Ho & m & Hm & Hr) [(_ & Hs & _) Hok]%Forall_cons_1 Hap. simpl in Hs. unfold MIN_BLOCK in Hs.
  assert (∀ i, o ≤ i < o + s → mem l' !! i = mem l !! i) as Hsame.
  { intros i Hi. destruct (t_mem _ _ _ HT i) as [?|(c & Hc & Hin)%Exists_exists]; [done|].
    specialize (Hap c (o, s) Hc ltac:(left)). unfold apart, inside in *; simpl in *. lia. }
  rewrite !Hsame by lia. split_and!; [done..|]. exists m. split; [done|].
  apply IH; [done..|]. intros c b Hc Hb. apply Hap; [done|by right].
Qed.

Lemma touches_within l l' bs cs : touches l l' bs → (∀ b, b ∈ bs → ∃ c, c ∈ cs ∧ within b c) → touches l l' cs.
Proof.
  intros [B S M D] H. split; [done..| |done]. intros i. destruct (M i) as [?|(b & Hb & Hi)%Exists_exists]; [by left|right].
  destruct (H b Hb) as (c & Hc & Hw). apply Exists_exists. exists c. split; [done|]. unfold inside, within in *. lia.
Qed.

(** A new entry in front of a chain. *)
Lemma write_entry_cons l o s n bs t : mapped l → Forall (block_ok (size l)) ((o, s) :: bs) →
  lseg (mem l) n bs t → clear_of [(o, s)] bs →
  ∃ l', write_entry l o s n = Ret l' ∧ lseg (mem l') o ((o, s) :: bs) t ∧ touches l l' [(o, s)] ∧ head l' = head l.
Proof.
  intros Hm [Hb Hok]%Forall_cons_1 Hl Hc. pose proof (block_words _ _ Hm Hb) as [W1 W2]. simpl in W1, W2.
  pose proof Hb as (? & Hs & _). unfold MIN_BLOCK in Hs; simpl in *.
  assert (touches l (upd l o s) [(o, s)]) as T1 by (apply touches_upd, Exists_cons_hd; unfold inside; simpl; lia).
  assert (touches l (upd (upd l o s) (o + 8) n) [(o, s)]) as T2.
  { eapply touches_trans; [done|]. apply touches_upd, Exists_cons_hd. unfold inside; simpl; lia. }
  exists (upd (upd l o s) (o + 8) n). split; [|split; [|by split]].
  - unfold write_entry, set_size, set_next. rewrite store_Ret by done. simpl. apply store_Ret. by apply T1.
  - split; [done|]. split; [simpl; rewrite lookup_insert_ne by lia; apply lookup_insert_eq|].
    exists n. split; [apply lookup_insert_eq|]. by eapply lseg_frame.
Qed.

(** Make [x] the successor of the last block of [pre], or the head. *)
Lemma relink l pre cur x : mapped l → Forall (block_ok (size l)) pre → StronglySorted before pre →
  lseg (mem l) (head l) pre cur →
  ∃ l', (if last_off pre =? NIL then mret (set_head l x) else set_next l (last_off pre) x) = Ret l' ∧
    lseg (mem l') (head l') pre x ∧ touches l l' pre.
Proof.
  intros Hm Hok Hs Hl. destruct pre as [|p pre _] using rev_ind.
  { exists (set_head l x). split_and!; [done..|apply touches_head]. }
  apply Forall_app in Hok as [Hok Hp%Forall_cons_1]. destruct Hp as [Hp _].
  unfold last_off. rewrite fmap_app. simpl. rewrite last_last.
  destruct (block_words l p Hm Hp) as [W1 W2]. destruct Hm as [Hsz Hm].
  destruct p as [o s], Hp as (? & ? & ? & _). unfold MIN_BLOCK, NIL in *; simpl in *.
  rewrite (proj2 (Z.eqb_neq _ _)) by word_lia. unfold set_next. rewrite store_Ret by done.
  apply StronglySorted_app in Hs as (Hb & _ & _). rewrite lseg_app in Hl. destruct Hl as (u & Hl1 & -> & Hu & n & Hn & ->).
  assert (touches l (upd l (o + 8) x) [(o, s)]) as T by (apply touches_upd, Exists_cons_hd; unfold inside; simpl; lia).
  exists (upd l (o + 8) x). split_and!; [done| |].
  - rewrite lseg_app. exists o. split.
    + eapply lseg_frame; [done..|]. intros c b ->%list_elem_of_singleton Hb'.
      specialize (Hb b (o, s) Hb' ltac:(left)). unfold before, apart in *; simpl in *. lia.
    + simpl. rewrite lookup_insert_ne by lia. rewrite lookup_insert_eq. split_and!; [done..|]. by exists x.
  - eapply touches_within; [done|]. intros b ->%list_elem_of_singleton. exists (o, s).
    split; [apply elem_of_app; right; left|unfold within; lia].
Qed.

(** ** Allocation *)

(** A hole of [s] bytes is cut into [front] bytes, [need] bytes and the rest,
    where front and rest are empty or blocks. *)
Definition cut_ok (s front need : Z) : Prop :=
  (front = 0 ∨ MIN_BLOCK ≤ front) ∧ MIN_BLOCK ≤ need ∧
  (s - front - need = 0 ∨ MIN_BLOCK ≤ s - front - need) ∧ (8 | front) ∧ (8 | need).
Definition part (o s : Z) : list block := if MIN_BLOCK <=? s then [(o, s)] else [].
Definition remnants (o s front need : Z) : list block :=
  part o front ++ part (o + front + need) (s - front - need).

Lemma remnants_ok n o s front need : block_ok n (o, s) → cut_ok s front need →
  Forall (block_ok n) (remnants o s front need) ∧ Forall (λ b, within b (o, s)) (remnants o s front need) ∧
  StronglySorted before (remnants o s front need) ∧ total (remnants o s front need) = s - need ∧
  block_ok n (o + front, need) ∧ within (o + front, need) (o, s) ∧
  Forall (apart (o + front, need)) (remnants o s front need).
Proof.
  intros (H1 & H2 & H3 & D1 & D2) (Hf & Hn & Hb & D3 & D4). unfold MIN_BLOCK in *; simpl in *.
  assert (8 | o + front) by by apply Z.divide_add_r.
  assert (8 | o + front + need) by by apply Z.divide_add_r.
  assert (8 | s - front - need) by by repeat apply Z.divide_sub_r.
  unfold remnants, part, block_ok, within, apart, before, MIN_BLOCK.
  destruct (Z.leb_spec 16 front), (Z.leb_spec 16 (s - front - need)); simpl;
    (split_and!; repeat constructor; simpl; try done; lia).
Qed.

(** Write a remnant in front of a chain, if there is one. *)
Lemma put_part l o s n rest : mapped l → Forall (block_ok (size l)) (part o s ++ rest) → clear_of (part o s) rest →
  lseg (mem l) n rest NIL →
  ∃ l' h, (if MIN_BLOCK <=? s then l ← write_entry l o s n; mret (l, o) else mret (l, n)) = Ret (l', h) ∧
    lseg (mem l') h (part o s ++ rest) NIL ∧ touches l l' (part o s) ∧ head l' = head l.
Proof.
  unfold part. destruct (_ <=? _); intros Hm Hok Hc Hl.
  - destruct (write_entry_cons l o s n rest NIL) as (l' & -> & L & T & Hh); [done..|]. by exists l', o.
  - exists l, n. split_and!; try done. apply touches_refl.
Qed.

(** Blocks of an ordered list are apart, and so are blocks within them. *)
Lemma sorted_apart b c x y : before b c → within x b → within y c → apart x y.
Proof. unfold before, within, apart. lia. Qed.
Lemma apart_sym b c : apart b c → apart c b.
Proof. unfold apart; lia. Qed.
Lemma within_refl b : within b b.
Proof. unfold within; lia. Qed.
#[local] Hint Resolve within_refl : core.

Lemma carve_spec l pre o s rest next front need : mapped l →
  Forall (block_ok (size l)) (pre ++ (o, s) :: rest) → StronglySorted before (pre ++ (o, s) :: rest) →
  lseg (mem l) (head l) pre o → lseg (mem l) next rest NIL → cut_ok s front need →
  ∃ l', carve l (last_off pre) o next front (o + front + need) (s - front - need) = Ret l' ∧
    lseg (mem l') (head l') (pre ++ remnants o s front need ++ rest) NIL ∧ touches l l' (pre ++ [(o, s)]).
Proof.
  intros Hm [Hpre [Ho Hrest]%Forall_cons_1]%Forall_app (Hord & Spre & [Hor Srest]%StronglySorted_cons)%StronglySorted_app
    Lpre Lrest Hcut.
  destruct (remnants_ok _ _ _ _ _ Ho Hcut) as (Rok & Rin & (Rord & _ & _)%StronglySorted_app & _). unfold remnants in *.
  apply Forall_app in Rok as [Fok Bok], Rin as [Fin Bin]. rewrite Forall_forall in Fin, Bin, Hor.
  unfold carve.
  destruct (put_part l (o + front + need) (s - front - need) next rest) as (l1 & h1 & -> & L1 & T1 & E1); [done|by apply Forall_app| |done|].
  { intros c b Hc Hb. eapply sorted_apart; [by apply Hor|by apply Bin|done]. }
  simpl. pose proof (touches_mapped _ _ _ T1 Hm) as M1. pose proof (t_size _ _ _ T1) as S1.
  destruct (put_part l1 o front h1 (part (o + front + need) (s - front - need) ++ rest)) as (l2 & h2 & -> & L2 & T2 & E2); [done| | |done|].
  { rewrite S1. repeat apply Forall_app_2; done. }
  { intros c b Hc [Hb|Hb]%elem_of_app; [eapply sorted_apart; [by apply Rord|done..]|].
    eapply sorted_apart; [by apply Hor|by apply Fin|done]. }
  simpl. assert (touches l l2 [(o, s)]) as T.
  { eapply touches_trans; (eapply touches_within; [done|]); intros b Hb; exists (o, s); (split; [left|auto]). }
  destruct (relink l2 pre o h2) as (l3 & -> & L3 & T3).
  { by eapply touches_mapped. } { by rewrite (t_size _ _ _ T). } { done. }
  { rewrite E2, E1. eapply lseg_frame; [done..|]. intros c b ->%list_elem_of_singleton Hb.
    apply apart_sym. by eapply sorted_apart; [apply Hord; [done|left]|..]. }
  exists l3. split; [done|]. split.
  - rewrite lseg_app. exists h2. split; [done|]. rewrite <- app_assoc. eapply lseg_frame; [exact L2|exact T3|by repeat apply Forall_app_2|].
    intros c b Hc Hb. apply (sorted_apart c (if bool_decide (b ∈ rest) then b else (o, s)) c b); [|done|].
    + case_bool_decide; apply Hord; [done|by right|done|left].
    + case_bool_decide; [done|]. rewrite !elem_of_app in Hb. naive_solver.
  - eapply touches_trans; eapply touches_within; [done| |done|]; intros b Hb; exists b; (split; [|done]); apply elem_of_app; auto.
Qed.

(** The first start in the hole at [cur] that is aligned and leaves nothing or
    a block in front. *)
Definition pos (b align cur : Z) : Z :=
  let a := up (b + cur) align - b in
  if (a - cur =? 0) || (MIN_BLOCK <=? a - cur) then a else up (b + cur + MIN_BLOCK) align - b.

Lemma place_spec b k cur : 0 ≤ b → 0 ≤ cur → b + cur + MIN_BLOCK ≤ 2 ^ 63 → 3 ≤ k ≤ 63 → (8 | b) →
  place b (2 ^ k) cur = Ret (pos b (2 ^ k) cur, pos b (2 ^ k) cur - cur) ∧
  cur ≤ pos b (2 ^ k) cur < cur + MIN_BLOCK + 2 ^ k ∧
  (pos b (2 ^ k) cur - cur = 0 ∨ MIN_BLOCK ≤ pos b (2 ^ k) cur - cur) ∧
  (2 ^ k | b + pos b (2 ^ k) cur) ∧ (8 | pos b (2 ^ k) cur).
Proof.
  intros Hb Hc Hs Hk D. unfold MIN_BLOCK in *.
  assert (2 ^ k ≤ 2 ^ 63) as Hp by (apply Z.pow_le_mono_r; lia). pose proof (Z.pow_pos_nonneg 2 k ltac:(lia) ltac:(lia)) as Hpos.
  assert (8 | 2 ^ k) as D8 by (exists (2 ^ (k - 3)); change 8 with (2 ^ 3); rewrite <- Z.pow_add_r by lia; f_equal; lia).
  assert (∀ v, (2 ^ k | b + (up v (2 ^ k) - b)) ∧ (8 | up v (2 ^ k) - b)) as Hd.
  { intros v. destruct (up_spec v (2 ^ k) Hpos) as [_ Hv]. split; [by replace (b + _) with (up v (2 ^ k)) by lia|].
    apply Z.divide_sub_r; [by eapply Z.divide_trans|done]. }
  destruct (up_spec (b + cur) (2 ^ k) Hpos) as [Hu _], (up_spec (b + cur + 16) (2 ^ k) Hpos) as [Hu2 _].
  unfold place, pos, MIN_BLOCK. rewrite add64_Ret by word_lia. simpl.
  rewrite align_up_Ret by word_lia. simpl. rewrite sub64_Ret by lia. simpl. rewrite sub64_Ret by lia. simpl.
  destruct (Z.eqb_spec (up (b + cur) (2 ^ k) - b - cur) 0), (Z.ltb_spec (up (b + cur) (2 ^ k) - b - cur) 16),
    (Z.leb_spec 16 (up (b + cur) (2 ^ k) - b - cur)); try lia; simpl; try (split_and!; [done|lia..|apply Hd|apply Hd]).
  rewrite add64_Ret by word_lia. simpl.
  rewrite align_up_Ret by word_lia. simpl. rewrite sub64_Ret by lia. simpl. rewrite sub64_Ret by lia. simpl.
  split_and!; [done|lia..|apply Hd|apply Hd].
Qed.

(** Where a request goes, as a function of the free blocks. *)
Definition fit (b align need : Z) (h : block) : option Z :=
  let a := pos b align h.1 in
  let back := h.1 + h.2 - (a + need) in
  if (a + need <=? h.1 + h.2) && ((back =? 0) || (MIN_BLOCK <=? back)) then Some a else None.
Fixpoint first_fit (b align need : Z) (hs : list block) : option (Z * list block) :=
  match hs with
  | [] => None
  | h :: hs =>
    match fit b align need h with
    | Some a => Some (a, remnants h.1 h.2 (a - h.1) need ++ hs)
    | None => '(a, hs') ← first_fit b align need hs; Some (a, h :: hs')
    end
  end.

(** [l] holds exactly the free blocks [hs]. *)
Record repr (l : FreeList) (hs : list block) : Prop := {
  r_mapped : mapped l;
  r_base : 0 < base l ∧ (8 | base l) ∧ base l + size l ≤ 2 ^ 62;
  r_list : lseg (mem l) (head l) hs NIL;
  r_sorted : StronglySorted before hs;
  r_blocks : Forall (block_ok (size l)) hs
}.

Lemma fit_cut b k need o s n a : 0 ≤ b → b + n ≤ 2 ^ 63 → 3 ≤ k ≤ 63 → (8 | b) → block_ok n (o, s) →
  MIN_BLOCK ≤ need → (8 | need) →
  fit b (2 ^ k) need (o, s) = Some a → cut_ok s (a - o) need ∧ (2 ^ k | b + a) ∧ a = pos b (2 ^ k) o.
Proof.
  intros Hb Hn Hk D (H0 & H1 & H2 & D1 & D2) Hneed D3. unfold fit, MIN_BLOCK in *; simpl in *.
  destruct (place_spec b k o) as (_ & Hp & Hf & Da & D8); unfold MIN_BLOCK in *; [lia..|done|].
  destruct (_ && _) eqn:E; intros [= <-]. split_and!; [|done..].
  unfold cut_ok, MIN_BLOCK. split_and!; [lia..| |done]. by apply Z.divide_sub_r.
Qed.

Lemma last_off_snoc bs b : last_off (bs ++ [b]) = b.1.
Proof. unfold last_off. rewrite fmap_app. apply last_last. Qed.

Lemma alloc_loop_spec l hs k need fuel : repr l hs → 3 ≤ k ≤ 63 → MIN_BLOCK ≤ need → (8 | need) → 2 ^ k + need ≤ 2 ^ 63 + 64 →
  ∀ pre rest cur, hs = pre ++ rest → lseg (mem l) (head l) pre cur → lseg (mem l) cur rest NIL → (length rest < fuel)%nat →
  match first_fit (base l) (2 ^ k) need rest with
  | None => alloc_loop fuel l (2 ^ k) need (last_off pre) cur = Ret (l, None)
  | Some (a, rest') => ∃ l', alloc_loop fuel l (2 ^ k) need (last_off pre) cur = Ret (l', Some (base l + a)) ∧
      lseg (mem l') (head l') (pre ++ rest') NIL ∧ touches l l' hs
  end.
Proof.
  intros HR Hk Hneed D3 Hbig pre rest. revert fuel pre.
  induction rest as [|[o s] rest IH]; intros fuel pre cur Hhs Lpre Lrest Hfuel; destruct fuel as [|fuel]; try (simpl in Hfuel; lia).
  { simpl in *. subst cur. by rewrite Z.eqb_refl. }
  destruct Lrest as (-> & Ho & next & Hn & Lrest). destruct (r_base _ _ HR) as (B0 & B8 & Bs).
  assert (block_ok (size l) (o, s)) as Hok.
  { pose proof (r_blocks _ _ HR) as H. rewrite Hhs in H. by apply Forall_app in H as [_ [? _]%Forall_cons_1]. }
  pose proof Hok as (H0 & H1 & H2 & _). unfold MIN_BLOCK in *; simpl in H0, H1, H2.
  destruct (place_spec (base l) k o) as (Epl & Hp & _); unfold MIN_BLOCK in *; [word_lia..|done|].
  cbn [first_fit alloc_loop].
  rewrite (proj2 (Z.eqb_neq o NIL)) by (unfold NIL; word_lia). unfold entry_size, entry_next, load. rewrite Ho, Hn. simpl.
  rewrite add64_Ret by word_lia. simpl. rewrite Epl. simpl. rewrite add64_Ret by word_lia. simpl.
  destruct (fit (base l) (2 ^ k) need (o, s)) as [a|] eqn:Ef.
  - destruct (fit_cut (base l) k need o s (size l) a) as (Hcut & _ & ->); [lia|word_lia|done..|].
    unfold fit, MIN_BLOCK in *; simpl in Ef. destruct (_ && _); [|done].
    destruct (carve_spec l pre o s rest next (pos (base l) (2 ^ k) o - o) need) as (l' & E & L & T);
      [apply HR|rewrite <- Hhs; apply HR|rewrite <- Hhs; apply HR|done|done|done|].
    replace (pos (base l) (2 ^ k) o + need) with (o + (pos (base l) (2 ^ k) o - o) + need) by lia.
    replace (o + s - _) with (s - (pos (base l) (2 ^ k) o - o) - need) by lia.
    rewrite E. simpl. exists l'. rewrite (t_base _ _ _ T). split_and!; [done..|]. subst hs.
    eapply touches_within; [done|]. intros b Hb. exists b. split; [|done]. set_solver.
  - unfold fit, MIN_BLOCK in *; simpl in Ef. destruct (_ && _); [done|].
    assert (lseg (mem l) (head l) (pre ++ [(o, s)]) next) as L1.
    { rewrite lseg_app. exists o. split; [done|]. simpl. eauto. }
    specialize (IH fuel (pre ++ [(o, s)]) next). rewrite last_off_snoc in IH. simpl in IH.
    rewrite <- app_assoc in IH. specialize (IH Hhs L1 Lrest ltac:(simpl in Hfuel; lia)).
    destruct (first_fit _ _ _ rest) as [[a rest']|]; simpl; [|done]. destruct IH as (l' & E & L & T). exists l'.
    split_and!; [done| |done]. by rewrite <- app_assoc in L.
Qed.

(** Ordered free blocks fill the region only as one block. *)
Lemma sorted_total n bs : ∀ lo, StronglySorted before bs → Forall (block_ok n) bs → Forall (λ b, lo ≤ b.1) bs → lo ≤ n →
  16 * Z.of_nat (length bs) ≤ total bs ∧ lo + total bs ≤ n ∧ (lo + total bs = n → bs = if lo =? n then [] else [(lo, n - lo)]).
Proof.
  induction bs as [|[o s] bs IH]; intros lo Hs Hok Hlo Hn.
  { simpl. split_and!; [lia..|]. intros. by rewrite (proj2 (Z.eqb_eq lo n)) by lia. }
  apply StronglySorted_cons in Hs as [Hb Hs]. apply Forall_cons in Hok as [(H0 & H1 & H2 & _) Hok], Hlo as [Ho _].
  unfold MIN_BLOCK in *; simpl in *.
  assert (bs = [] ∨ o + s + 1 ≤ n) as Hcase.
  { destruct bs as [|[o' s'] bs]; [by left|right]. inv_Forall. unfold before, block_ok, MIN_BLOCK in *; simpl in *. lia. }
  destruct Hcase as [->|Hle].
  - simpl. split_and!; [lia..|]. intros. rewrite (proj2 (Z.eqb_neq lo n)) by lia. repeat f_equal; lia.
  - destruct (IH (o + s + 1)) as (I1 & I2 & _); [done|done| |done|split_and!; lia].
    eapply List.Forall_impl; [|exact Hb]. unfold before; simpl. intros; lia.
Qed.

Lemma repr_fuel l hs : repr l hs → 0 ≤ size l → (length hs < turns l)%nat.
Proof.
  intros HR Hz. destruct (sorted_total (size l) hs 0) as (H1 & H2 & _); [apply HR|apply HR| |done|].
  { eapply List.Forall_impl; [|apply HR]. by intros b (? & _). }
  unfold turns, MIN_BLOCK. assert (Z.of_nat (length hs) ≤ size l / 16) by (apply Z.div_le_lower_bound; lia). lia.
Qed.

Lemma sorted_replace A b B xs : StronglySorted before (A ++ b :: B) → StronglySorted before xs →
  Forall (λ x, within x b) xs → StronglySorted before (A ++ xs ++ B).
Proof.
  rewrite !StronglySorted_app, StronglySorted_cons, !Forall_forall. intros (H1 & H2 & H3 & H4) H5 H6.
  split; [|split; [done|split; [|done]]].
  - intros x y Hx [Hy|Hy]%elem_of_app; [|apply H1; [done|by right]].
    specialize (H1 x b Hx ltac:(left)). specialize (H6 y Hy). unfold before, within in *. lia.
  - intros x y Hx Hy. specialize (H3 y Hy). specialize (H6 x Hx). unfold before, within in *. lia.
Qed.

Lemma first_fit_Some b align need hs a hs' : first_fit b align need hs = Some (a, hs') →
  ∃ A o s B, hs = A ++ (o, s) :: B ∧ hs' = A ++ remnants o s (a - o) need ++ B ∧
    fit b align need (o, s) = Some a ∧ Forall (λ h, fit b align need h = None) A.
Proof.
  revert a hs'; induction hs as [|[o s] hs IH]; intros a hs'; simpl; [done|].
  destruct (fit b align need (o, s)) as [a0|] eqn:Ef.
  - intros [= -> <-]. by exists [], o, s, hs.
  - destruct (first_fit b align need hs) as [[a1 hs1]|]; simpl; [|done]. intros [= -> <-].
    destruct (IH a hs1 eq_refl) as (A & o' & s' & B & -> & -> & Hf & HA). exists ((o, s) :: A), o', s', B.
    split_and!; [done..|]. by constructor.
Qed.
Lemma first_fit_None b align need hs : first_fit b align need hs = None → Forall (λ h, fit b align need h = None) hs.
Proof.
  induction hs as [|h hs IH]; simpl; [constructor|]. destruct (fit b align need h) eqn:Ef; [done|].
  destruct (first_fit b align need hs) as [[]|]; [done|]. constructor; auto.
Qed.

Lemma layout_power ly : layout_ok ly → ∃ k, 3 ≤ k ≤ 63 ∧ Z.max (layout_align ly) ALIGN = 2 ^ k ∧ 2 ^ k + bsize ly ≤ 2 ^ 63 + 64 ∧
  (layout_align ly | 2 ^ k).
Proof.
  intros Hly. destruct (layout_block ly Hly) as (_ & Hb & _). destruct Hly as (H0 & H1 & k & Hk & Ha).
  assert (k ≤ 63). { apply Z.lt_succ_r, (Z.pow_lt_mono_r_iff 2); [lia..|]. change (2 ^ Z.succ 63) with (2 ^ 64). word_lia. }
  unfold ALIGN. destruct (Z.le_gt_cases 3 k) as [H3|H3].
  - exists k. assert (2 ^ 3 ≤ 2 ^ k) by (apply Z.pow_le_mono_r; lia). change (2 ^ 3) with 8 in *.
    split_and!; [lia..|word_lia|by rewrite Ha].
  - exists 3. change (2 ^ 3) with 8. assert (2 ^ k < 2 ^ 3) by (apply Z.pow_lt_mono_r; lia). change (2 ^ 3) with 8 in *.
    split_and!; [lia..|word_lia|]. rewrite Ha. change 8 with (2 ^ 3). exists (2 ^ (3 - k)). rewrite <- Z.pow_add_r by lia. f_equal; lia.
Qed.

Lemma repr_touches l l' hs hs' cs : repr l hs → touches l l' cs → lseg (mem l') (head l') hs' NIL →
  StronglySorted before hs' → Forall (block_ok (size l)) hs' → repr l' hs'.
Proof.
  intros [M B L S O] T L' S' O'. split; [by eapply touches_mapped| |done|done|by rewrite (t_size _ _ _ T)].
  by rewrite (t_size _ _ _ T), (t_base _ _ _ T).
Qed.

(** [alloc] implements [first_fit] on the free blocks. *)
Lemma alloc_spec l hs ly : repr l hs → 0 ≤ size l → layout_ok ly →
  match first_fit (base l) (Z.max (layout_align ly) ALIGN) (bsize ly) hs with
  | None => alloc l ly = Ret (l, None)
  | Some (a, hs') => ∃ l', alloc l ly = Ret (l', Some (base l + a)) ∧ repr l' hs' ∧ touches l l' hs
  end.
Proof.
  intros HR Hz Hly. destruct (layout_block ly Hly) as (Eb & _ & H16 & D8).
  destruct (layout_power ly Hly) as (k & Hk & Ea & Hbig & _). unfold alloc. rewrite Eb, Ea. simpl.
  pose proof (alloc_loop_spec l hs k (bsize ly) (turns l) HR Hk H16 D8 Hbig [] hs (head l) eq_refl eq_refl
    (r_list _ _ HR) (repr_fuel _ _ HR Hz)) as H.
  destruct (first_fit (base l) (2 ^ k) (bsize ly) hs) as [[a hs']|] eqn:Ef; [|done].
  destruct H as (l' & E & L & T). exists l'. split_and!; [done| |done].
  apply first_fit_Some in Ef as (A & o & s & B & -> & -> & Hf & _).
  destruct (r_base _ _ HR) as (B0 & B8 & Bs). pose proof (r_blocks _ _ HR) as [HA [Ho HB]%Forall_cons]%Forall_app.
  destruct (fit_cut (base l) k (bsize ly) o s (size l) a) as (Hcut & _); [lia|word_lia|done..|].
  destruct (remnants_ok _ _ _ _ _ Ho Hcut) as (Rok & Rin & Rs & _).
  eapply repr_touches; [done..| |apply Forall_app_2; [done|by apply Forall_app_2]]. by eapply sorted_replace; [apply HR|..].
Qed.

(** ** Release *)

(** The gap for a block at [off] is after the free blocks that start before it. *)
Lemma find_gap_spec l hs off fuel : repr l hs →
  ∀ pre rest cur, hs = pre ++ rest → Forall (λ b, b.1 < off) pre → lseg (mem l) (head l) pre cur → lseg (mem l) cur rest NIL →
  (length rest < fuel)%nat →
  ∃ pre' rest' cur', find_gap fuel l off (last_off pre) cur = Ret (last_off pre', cur') ∧ hs = pre' ++ rest' ∧
    lseg (mem l) (head l) pre' cur' ∧ lseg (mem l) cur' rest' NIL ∧
    Forall (λ b, b.1 < off) pre' ∧ Forall (λ b, off ≤ b.1) rest'.
Proof.
  intros HR pre rest. revert fuel pre.
  induction rest as [|[o s] rest IH]; intros fuel pre cur Hhs Hpre Lpre Lrest Hfuel; destruct fuel as [|fuel]; try (simpl in Hfuel; lia); simpl.
  { simpl in Lrest. subst cur. rewrite Z.eqb_refl. exists pre, [], NIL. by split_and!. }
  pose proof Lrest as (-> & Ho & next & Hn & Lrest').
  pose proof (r_blocks _ _ HR) as Hok. pose proof (r_sorted _ _ HR) as Hs. rewrite Hhs in Hok, Hs.
  apply Forall_app in Hok as [_ [(H0 & H1 & H2 & _) _]%Forall_cons]. simpl in *. unfold MIN_BLOCK in *.
  destruct (r_mapped _ _ HR) as [Hsz _].
  rewrite (proj2 (Z.eqb_neq o NIL)) by (unfold NIL; word_lia). destruct (Z.ltb_spec o off); simpl.
  - unfold entry_next, load. rewrite Hn. simpl. specialize (IH fuel (pre ++ [(o, s)]) next).
    rewrite last_off_snoc, <- app_assoc in IH. apply IH; [done| | |done|lia].
    + apply Forall_app_2; [done|]. by repeat constructor.
    + rewrite lseg_app. exists o. split; [done|]. simpl. eauto.
  - exists pre, ((o, s) :: rest), o. split_and!; try done. constructor; [done|].
    apply StronglySorted_app in Hs as (_ & _ & [Hb _]%StronglySorted_cons).
    eapply List.Forall_impl; [|exact Hb]. unfold before; simpl. intros; lia.
Qed.

(** Merge a block with the first of the blocks after it, if they touch. *)
Definition join (x : block) (rest : list block) : block * list block :=
  match rest with
  | b :: rest' => if x.1 + x.2 =? b.1 then ((x.1, x.2 + b.2), rest') else (x, rest)
  | [] => (x, [])
  end.

(** Blocks [hs'] cover what [x] and [hs] cover. *)
Record covers (x : block) (hs hs' : list block) : Prop := {
  c_total : total hs' = x.2 + total hs;
  c_inside : ∀ i, Exists (inside i) hs' ↔ inside i x ∨ Exists (inside i) hs;
  c_apart : ∀ z, 0 < z.2 → apart z x → Forall (apart z) hs → Forall (apart z) hs'
}.

Lemma join_spec n x rest : block_ok n x → Forall (block_ok n) rest → StronglySorted before rest →
  Forall (λ b, x.1 + x.2 ≤ b.1) rest →
  let '(y, rest') := join x rest in
  y.1 = x.1 ∧ Forall (block_ok n) (y :: rest') ∧ StronglySorted before (y :: rest') ∧ covers x rest (y :: rest').
Proof.
  intros Hx Hok Hs Hle. unfold join. destruct rest as [|[o s] rest].
  { split_and!; [done|by constructor|by repeat constructor|]. split; [done| |].
    - intros i. by rewrite Exists_cons.
    - intros z _ Hz _. by constructor. }
  apply StronglySorted_cons in Hs as [Hb Hs]. pose proof Hx as (X1 & X2 & X3 & X4 & X5).
  pose proof Hok as [(O1 & O2 & O3 & O4 & O5) Hok']%Forall_cons. apply Forall_cons in Hle as [Hle Hle'].
  unfold MIN_BLOCK in *; simpl in *.
  destruct (Z.eqb_spec (x.1 + x.2) o) as [E|E].
  - split_and!; [done| | |].
    + constructor; [|done]. unfold block_ok, MIN_BLOCK; simpl. split_and!; [lia..|done|by apply Z.divide_add_r].
    + apply StronglySorted_cons. split; [|done]. eapply List.Forall_impl; [|exact Hb]. unfold before; simpl. intros; lia.
    + split; [simpl; lia| |].
      * intros i. rewrite !Exists_cons, (assoc (∨)). apply or_iff_compat_r. unfold inside; simpl. lia.
      * intros z Hz Hzx [Hzo Hzr]%Forall_cons. constructor; [|done]. unfold apart in *; simpl in *. lia.
  - split_and!; [done|by constructor| |].
    + apply StronglySorted_cons. split; [|by apply StronglySorted_cons]. constructor; [unfold before; simpl; lia|].
      eapply List.Forall_impl; [|exact Hb]. unfold before; simpl. intros; lia.
    + split; [done| |].
      * intros i. by rewrite Exists_cons.
      * intros z Hz Hzx Hzr. by constructor.
Qed.

Lemma total_app a b : total (a ++ b) = total a + total b.
Proof. induction a; simpl; lia. Qed.

Lemma covers_app x A rest ys : covers x rest ys → covers x (A ++ rest) (A ++ ys).
Proof.
  intros [T I P]. split.
  - rewrite !total_app, T. lia.
  - intros i. rewrite !Exists_app, I. tauto.
  - intros z Hz Hx [HA Hr]%Forall_app. apply Forall_app. auto.
Qed.
Lemma touches_covers l l' x hs hs' : touches l l' hs' → covers x hs hs' → touches l l' (x :: hs).
Proof.
  intros [B S M D] [_ I _]. split; [done..| |done]. intros i. destruct (M i) as [?|[?|?]%I]; [by left|right..].
  - by apply Exists_cons_hd.
  - by apply Exists_cons_tl.
Qed.
(** ... and the same when the block first grows out of the one before it. *)
Lemma covers_grow p sp off sz A rest ys : 0 < sp → 0 < sz → p + sp = off → covers (p, sp + sz) (A ++ rest) ys →
  covers (off, sz) (A ++ (p, sp) :: rest) ys.
Proof.
  intros Hp Hs E [T I P]. simpl in *. split.
  - rewrite T, !total_app. simpl. lia.
  - intros i. rewrite I, !Exists_app, Exists_cons.
    assert (inside i (p, sp + sz) ↔ inside i (p, sp) ∨ inside i (off, sz)) as -> by (unfold inside; simpl; lia). tauto.
  - intros z Hz Hx [HA [Hzp Hr]%Forall_cons]%Forall_app. apply P; [done| |by apply Forall_app]. unfold apart in *; simpl in *. lia.
Qed.

(** The entry read for the block after the gap. *)
Lemma lseg_cur l cur rest n : mapped l → Forall (block_ok (size l)) rest → n = size l → lseg (mem l) cur rest NIL →
  match rest with
  | [] => cur = NIL
  | (o, s) :: rest' => cur = o ∧ (o =? NIL) = false ∧ entry_size l o = Ret s ∧
      ∃ m, entry_next l o = Ret m ∧ lseg (mem l) m rest' NIL
  end.
Proof.
  intros [Hs _] Hok -> Hl. destruct rest as [|[o s] rest]; [done|]. destruct Hl as (-> & Ho & m & Hm & Hr).
  apply Forall_cons in Hok as [(H0 & H1 & H2 & _) _]. unfold MIN_BLOCK, entry_size, entry_next, load in *; simpl in *.
  rewrite Ho, Hm. split_and!; [done| |done|by exists m]. apply Z.eqb_neq. unfold NIL; word_lia.
Qed.

Lemma insert_new_spec l pre rest cur off sz : repr l (pre ++ rest) → block_ok (size l) (off, sz) →
  lseg (mem l) (head l) pre cur → lseg (mem l) cur rest NIL →
  Forall (λ b, before b (off, sz)) pre → Forall (λ b, off + sz ≤ b.1) rest →
  ∃ l', insert_new l off sz (last_off pre) cur = Ret l' ∧
    let '(y, rest') := join (off, sz) rest in
    repr l' (pre ++ y :: rest') ∧ touches l l' (pre ++ y :: rest').
Proof.
  intros HR Hx Lpre Lrest Hpre Hrest.
  pose proof (r_blocks _ _ HR) as [Okp Okr]%Forall_app. pose proof (r_sorted _ _ HR) as (Sord & Sp & Sr)%StronglySorted_app.
  pose proof (join_spec _ _ _ Hx Okr Sr Hrest) as HJ.
  pose proof (lseg_cur _ _ _ _ (r_mapped _ _ HR) Okr eq_refl Lrest) as HC.
  destruct (r_mapped _ _ HR) as [Hsz _]. pose proof Hx as (X1 & X2 & X3 & _). unfold MIN_BLOCK in *; simpl in *.
  assert (∃ ns nn rest', join (off, sz) rest = ((off, ns), rest') ∧ lseg (mem l) nn rest' NIL ∧
    insert_new l off sz (last_off pre) cur = (l ← write_entry l off ns nn;
      if last_off pre =? NIL then mret (set_head l off) else set_next l (last_off pre) off)) as (ns & nn & rest' & EJ & Ln & ->).
  { unfold insert_new. destruct rest as [|[o s] rest]; simpl in *.
    - subst cur. rewrite Z.eqb_refl. simpl. by exists sz, NIL, [].
    - destruct HC as (-> & -> & Es & m & Em & Lm). rewrite add64_Ret by word_lia. simpl.
      destruct (off + sz =? o); simpl; [|by exists sz, o, ((o, s) :: rest)].
      apply Forall_cons in Okr as [(? & ? & ? & _) _], Hrest as [? _]; simpl in *. rewrite Es, Em. simpl. rewrite add64_Ret by word_lia. simpl.
      by exists (sz + s), m, rest. }
  rewrite EJ in *. destruct HJ as (_ & Jok & Js & Jc).
  destruct (write_entry_cons l off ns nn rest' NIL) as (l1 & -> & L1 & T1 & E1); [apply HR|done|done| |].
  { apply StronglySorted_cons in Js as [Hb _]. rewrite Forall_forall in Hb. intros c b ->%list_elem_of_singleton Hb'.
    by eapply sorted_apart; [apply Hb|..]. }
  simpl. assert (Forall (λ b, before b (off, ns)) pre) as Hpre' by done. rewrite Forall_forall in Hpre'.
  destruct (relink l1 pre cur off) as (l2 & -> & L2 & T2).
  { eapply touches_mapped; [done|apply HR]. } { by rewrite (t_size _ _ _ T1). } { done. }
  { rewrite E1. eapply lseg_frame; [done..|]. intros c b ->%list_elem_of_singleton Hb.
    apply apart_sym. by eapply sorted_apart; [apply Hpre'|..]. }
  assert (StronglySorted before (pre ++ (off, ns) :: rest')) as Hsorted.
  { apply StronglySorted_app_2; [|done..]. intros b c Hb [->|Hc]%elem_of_cons; [by apply Hpre'|].
    apply StronglySorted_cons in Js as [Hy _]. rewrite Forall_forall in Hy. specialize (Hy c Hc). specialize (Hpre' b Hb).
    unfold before in *; simpl in *. apply Forall_cons in Jok as [(? & ? & _) _]. unfold MIN_BLOCK in *; simpl in *. lia. }
  assert (touches l l2 (pre ++ (off, ns) :: rest')) as T.
  { eapply touches_trans; eapply touches_within; [exact T1| |exact T2|]; intros b Hb; exists b; (split; [set_solver|done]). }
  exists l2. split; [done|]. split; [|done]. eapply repr_touches; [done..| |done|by apply Forall_app_2].
  rewrite lseg_app. exists off. split; [done|]. eapply lseg_frame; [done..|]. intros c b Hc Hb.
  apply StronglySorted_app in Hsorted as (H & _ & _). by eapply sorted_apart; [by apply H|..].
Qed.

(** Give the block at [p] a new size and successor. *)
Lemma regrow l l' pre p sp s n rest : Forall (block_ok (size l)) (pre ++ (p, s) :: rest) → sp ≤ s →
  StronglySorted before (pre ++ (p, s) :: rest) →
  lseg (mem l) (head l) pre p → lseg (mem l) n rest NIL → touches l l' [(p, sp)] → head l' = head l →
  mem l' !! p = Some s → mem l' !! (p + 8) = Some n → lseg (mem l') (head l') (pre ++ (p, s) :: rest) NIL.
Proof.
  intros [Okp [_ Okr]%Forall_cons]%Forall_app Hle (Hord & _ & [Hpr _]%StronglySorted_cons)%StronglySorted_app Lp Lr T Eh Es En.
  rewrite Forall_forall in Hpr. assert (within (p, sp) (p, s)) as Hw by (unfold within; simpl; lia).
  rewrite lseg_app, Eh. exists p. split.
  - eapply lseg_frame; [done..|]. intros c b ->%list_elem_of_singleton Hb. apply apart_sym.
    by eapply sorted_apart; [apply Hord; [done|left]|..].
  - split; [done|]. split; [done|]. exists n. split; [done|]. eapply lseg_frame; [done..|].
    intros c b ->%list_elem_of_singleton Hb. by eapply sorted_apart; [apply Hpr|..].
Qed.

(** The stores of [merge_prev]. *)
Lemma merge_prev_stores l p sp rest cur sz : mapped l → Forall (block_ok (size l)) ((p, sp) :: rest) →
  block_ok (size l) (p + sp, sz) → Forall (λ b, p + sp + sz ≤ b.1) rest →
  mem l !! p = Some sp → mem l !! (p + 8) = Some cur → lseg (mem l) cur rest NIL →
  ∃ l' s n rest', merge_prev l p cur sz = Ret l' ∧ join (p, sp + sz) rest = ((p, s), rest') ∧ lseg (mem l) n rest' NIL ∧
    sp ≤ s ∧ touches l l' [(p, sp)] ∧ head l' = head l ∧ mem l' !! p = Some s ∧ mem l' !! (p + 8) = Some n.
Proof.
  intros Hm [Okb Okr]%Forall_cons Hx Hrest Ep Ec Lrest. pose proof (lseg_cur _ _ _ _ Hm Okr eq_refl Lrest) as HC.
  destruct Hm as [Hsz _], Okb as (P1 & P2 & P3 & _), Hx as (X1 & X2 & X3 & _). unfold MIN_BLOCK in *; simpl in *.
  assert (∀ l i x, i = p ∨ i = p + 8 → touches l (upd l i x) [(p, sp)]) as HT.
  { intros l0 i x Hi. apply touches_upd, Exists_cons_hd. unfold inside; simpl; lia. }
  unfold merge_prev, ends_at. rewrite (proj2 (Z.eqb_neq p NIL)) by (unfold NIL; word_lia).
  assert (entry_size l p = Ret sp) as -> by (unfold entry_size, load; by rewrite Ep). simpl.
  rewrite add64_Ret by word_lia. simpl.
  assert (set_size l p (sp + sz) = Ret (upd l p (sp + sz))) as -> by (apply store_Ret; by rewrite Ep). simpl.
  assert (entry_size (upd l p (sp + sz)) p = Ret (sp + sz)) as ->.
  { unfold entry_size, load. simpl. by rewrite lookup_insert_eq. }
  destruct rest as [|[o s] rest]; simpl.
  { rewrite HC, Z.eqb_refl. simpl. exists (upd l p (sp + sz)), (sp + sz), NIL, []. split_and!; try done; [lia|auto|apply lookup_insert_eq|].
    simpl. rewrite lookup_insert_ne by lia. by rewrite Ec, HC. }
  destruct HC as (-> & -> & Es & m & Em & Lm). apply Forall_cons in Okr as [(O1 & O2 & O3 & _) _], Hrest as [Ho _].
  unfold MIN_BLOCK in *; simpl in *.
  rewrite add64_Ret by word_lia. simpl.
  rewrite Z.add_assoc. destruct (Z.eqb_spec (p + sp + sz) o) as [E|E]; simpl.
  - unfold entry_size, entry_next, load in *. simpl.
    rewrite lookup_insert_ne by lia. rewrite Es. simpl. rewrite add64_Ret by word_lia. simpl.
    unfold set_size. rewrite store_Ret by (simpl; rewrite lookup_insert_eq; eauto). simpl.
    rewrite !lookup_insert_ne by lia. rewrite Em. simpl.
    unfold set_next. rewrite store_Ret by (simpl; rewrite !lookup_insert_ne by lia; by rewrite Ec). 
    eexists _, (sp + sz + s), m, rest. split_and!; [done..|lia| |done| |apply lookup_insert_eq].
    + apply (touches_trans _ (upd (upd l p (sp + sz)) p (sp + sz + s))); [apply (touches_trans _ (upd l p (sp + sz)))|];
        apply HT; auto.
    + simpl. rewrite lookup_insert_ne by lia. apply lookup_insert_eq.
  - exists (upd l p (sp + sz)), (sp + sz), o, ((o, s) :: rest). split_and!; try done; [lia|auto|apply lookup_insert_eq|].
    simpl. rewrite lookup_insert_ne by lia. done.
Qed.

Lemma merge_prev_spec l pre p sp rest cur sz : repr l (pre ++ (p, sp) :: rest) → block_ok (size l) (p + sp, sz) →
  lseg (mem l) (head l) (pre ++ [(p, sp)]) cur → lseg (mem l) cur rest NIL → Forall (λ b, p + sp + sz ≤ b.1) rest →
  ∃ l', merge_prev l p cur sz = Ret l' ∧
    let '(y, rest') := join (p, sp + sz) rest in
    repr l' (pre ++ y :: rest') ∧ covers (p, sp + sz) rest (y :: rest') ∧ touches l l' [(p, sp)].
Proof.
  intros HR Hx Lpre Lrest Hrest. rewrite lseg_app in Lpre. destruct Lpre as (u & Lpre & -> & Ep & c & Ec & ->).
  pose proof (r_blocks _ _ HR) as [Okp Okr]%Forall_app. pose proof (r_sorted _ _ HR) as (Sord & Sp & [_ Sr]%StronglySorted_cons)%StronglySorted_app.
  destruct (merge_prev_stores l p sp rest cur sz) as (l' & s & n & rest' & E & EJ & Ln & Hle & T & Eh & Es & En); [apply HR|done..|].
  pose proof Okr as [(P1 & P2 & P3 & P4 & P5) Okr']%Forall_cons. destruct Hx as (X1 & X2 & X3 & X4 & X5).
  pose proof (join_spec (size l) (p, sp + sz) rest) as HJ. unfold MIN_BLOCK in *; simpl in *. rewrite EJ in HJ.
  destruct HJ as (_ & Jok & Js & Jc); [|done|done|eapply List.Forall_impl; [|exact Hrest]; intros b Hb; simpl in *; lia|].
  { unfold block_ok, MIN_BLOCK; simpl. split_and!; [lia..|done|by apply Z.divide_add_r]. }
  exists l'. rewrite EJ. split; [done|]. split; [|done].
  assert (StronglySorted before (pre ++ (p, s) :: rest')) as Hsorted.
  { apply StronglySorted_app_2; [|done..]. intros b c' Hb Hc. specialize (Sord b (p, sp) Hb ltac:(left)).
    apply elem_of_cons in Hc as [->|Hc]; [done|]. apply StronglySorted_cons in Js as [Hy _].
    rewrite Forall_forall in Hy. specialize (Hy c' Hc). unfold before in *; simpl in *. lia. }
  assert (Forall (block_ok (size l)) (pre ++ (p, s) :: rest')) by by apply Forall_app_2.
  eapply repr_touches; [done..| |done|done]. by eapply regrow.
Qed.

(** [insert_free] adds the block to the free blocks and keeps them merged. *)
Lemma insert_free_spec l hs off sz : repr l hs → 0 ≤ size l → block_ok (size l) (off, sz) → Forall (apart (off, sz)) hs →
  ∃ l' hs', insert_free l off sz = Ret l' ∧ repr l' hs' ∧ covers (off, sz) hs hs' ∧ touches l l' ((off, sz) :: hs).
Proof.
  intros HR Hz Hx Hap. pose proof Hx as (X1 & X2 & X3 & _). unfold MIN_BLOCK in *; simpl in X1, X2, X3.
  destruct (find_gap_spec l hs off (turns l) HR [] hs (head l)) as (pre & rest & cur & Eg & -> & Lp & Lr & Hp & Hr);
    [done|done|done|apply HR|by apply repr_fuel|].
  unfold insert_free. change NIL with (last_off []). rewrite Eg. simpl.
  pose proof (r_blocks _ _ HR) as [Okp Okr]%Forall_app. pose proof (r_sorted _ _ HR) as Sorted.
  apply Forall_app in Hap as [Hapl Hapr].
  assert (Forall (λ b, off + sz ≤ b.1) rest) as Hr'.
  { rewrite !Forall_forall in *. intros b Hb. specialize (Hr b Hb). specialize (Hapr b Hb). destruct (Okr b Hb) as (_ & ? & _).
    unfold apart, MIN_BLOCK in *; simpl in *. lia. }
  assert (Forall (λ b, b.1 + b.2 ≤ off) pre) as Hp'.
  { rewrite !Forall_forall in *. intros b Hb. specialize (Hp b Hb). specialize (Hapl b Hb). unfold apart in *; simpl in *. lia. }
  assert (Forall (λ b, before b (off, sz)) pre → ∃ l' hs', insert_new l off sz (last_off pre) cur = Ret l' ∧
    repr l' hs' ∧ covers (off, sz) (pre ++ rest) hs' ∧ touches l l' ((off, sz) :: pre ++ rest)) as Hnew.
  { intros Hb. destruct (insert_new_spec l pre rest cur off sz) as (l' & E & H); [done..|].
    pose proof (join_spec _ _ _ Hx Okr) as HJ. apply StronglySorted_app in Sorted as (_ & _ & Sr). specialize (HJ Sr Hr').
    destruct (join (off, sz) rest) as [y rest']. destruct H as [H T], HJ as (_ & _ & _ & HC%(covers_app _ pre)).
    exists l', (pre ++ y :: rest'). split_and!; [done..|]. by eapply touches_covers. }
  unfold ends_at. destruct pre as [|[p sp] pre _] using rev_ind; [by apply Hnew|].
  rewrite last_off_snoc in *. simpl in *. pose proof Lp as (u & _ & -> & Ep & _)%lseg_app. 
  apply Forall_app in Okp as [Okp [(P1 & P2 & P3 & _) _]%Forall_cons], Hp' as [_ [Hpo _]%Forall_cons].
  destruct (r_mapped _ _ HR) as [Hsz _]. unfold MIN_BLOCK in *; simpl in *.
  rewrite (proj2 (Z.eqb_neq p NIL)) by (unfold NIL; word_lia). unfold entry_size, load. rewrite Ep. simpl.
  rewrite add64_Ret by word_lia. simpl. destruct (Z.eqb_spec (p + sp) off) as [<-|Hne].
  - rewrite <- app_assoc in *. simpl in *. destruct (merge_prev_spec l pre p sp rest cur sz) as (l' & E & H); [done..|].
    destruct (join (p, sp + sz) rest) as [y rest']. destruct H as (H & HC & T). exists l', (pre ++ y :: rest'). split_and!; [done..| |].
    + apply covers_grow; [lia..|]. by apply covers_app.
    + eapply touches_within; [done|]. intros b ->%list_elem_of_singleton. exists (p, sp). split; [set_solver|done].
  - apply Hnew. apply Forall_app_2; [|constructor; [unfold before; simpl; lia|done]].
    apply StronglySorted_app in Sorted as (_ & (Hs & _ & _)%StronglySorted_app & _).
    apply Forall_forall. intros b Hb. specialize (Hs b (p, sp) Hb ltac:(left)). unfold before in *; simpl in *. lia.
Qed.

(** ** Histories *)

(** The blocks that clients hold, with the layouts they asked for. *)
Abbreviation held := (list (Z * Layout)).
Definition block_of (b : Z) (x : Z * Layout) : block := (x.1 - b, bsize x.2).

(** Free and held blocks tile the region. *)
Record inv (l : FreeList) (hs : list block) (live : held) : Prop := {
  i_repr : repr l hs;
  i_size : MIN_BLOCK ≤ size l;
  i_held : Forall (λ x, layout_ok x.2 ∧ block_ok (size l) (block_of (base l) x)) live;
  i_apart : Forall (λ x, Forall (apart (block_of (base l) x)) hs) live;
  i_held_apart : StronglySorted apart (block_of (base l) <$> live);
  i_total : total hs + total (block_of (base l) <$> live) = size l;
  i_cover : ∀ i, 0 ≤ i < size l → Exists (inside i) hs ∨ Exists (inside i) (block_of (base l) <$> live)
}.

Lemma remnants_cover o s front need i : cut_ok s front need → inside i (o, s) →
  inside i (o + front, need) ∨ Exists (inside i) (remnants o s front need).
Proof.
  intros (Hf & Hn & Hb & _) Hi. unfold remnants, part, inside, MIN_BLOCK in *; simpl in *.
  rewrite Exists_app. destruct (Z.leb_spec 16 front), (Z.leb_spec 16 (s - front - need));
    rewrite ?Exists_cons, ?Exists_nil; simpl; lia.
Qed.
Lemma remnants_total o s front need A B : cut_ok s front need →
  total (A ++ remnants o s front need ++ B) + need = total (A ++ (o, s) :: B).
Proof.
  intros (Hf & Hn & Hb & _). unfold remnants, part, MIN_BLOCK in *. rewrite !total_app. simpl.
  destruct (Z.leb_spec 16 front), (Z.leb_spec 16 (s - front - need)); simpl; lia.
Qed.
Lemma apart_within b c d : apart b d → within c d → apart b c.
Proof. unfold apart, within. lia. Qed.

(** A block cut out of a hole. *)
Lemma inv_cut l hs live l' p ly A o s B : inv l hs live → layout_ok ly → hs = A ++ (o, s) :: B →
  cut_ok s (p - base l - o) (bsize ly) → repr l' (A ++ remnants o s (p - base l - o) (bsize ly) ++ B) → touches l l' hs →
  inv l' (A ++ remnants o s (p - base l - o) (bsize ly) ++ B) ((p, ly) :: live).
Proof.
  intros [HR Hz HL HA HP HT HC] Hly -> Hcut HR' T. pose proof (t_base _ _ _ T) as Eb. pose proof (t_size _ _ _ T) as Es.
  pose proof (r_blocks _ _ HR) as [_ [Ho _]%Forall_cons]%Forall_app.
  destruct (remnants_ok _ _ _ _ _ Ho Hcut) as (_ & Rin & _ & _ & Nok & Nin & Nap).
  replace (o + (p - base l - o)) with (p - base l) in * by lia.
  pose proof (r_sorted _ _ HR) as (Sord & _ & [Sb _]%StronglySorted_cons)%StronglySorted_app.
  split; rewrite ?Eb, ?Es; try done.
  - by constructor.
  - constructor; simpl.
    + apply Forall_app_2; [|apply Forall_app_2; [done|]]; apply Forall_forall; intros b Hb.
      * apply apart_sym. eapply sorted_apart; [apply Sord; [done|left]|done|done].
      * rewrite Forall_forall in Sb. by eapply sorted_apart; [apply Sb|..].
    + eapply List.Forall_impl; [|exact HA]. intros x [H1 [H2 H3]%Forall_cons]%Forall_app.
      apply Forall_app_2; [done|]. apply Forall_app_2; [|done]. eapply List.Forall_impl; [|exact Rin].
      intros b Hb. by eapply apart_within.
  - simpl. apply StronglySorted_cons. split; [|done]. apply Forall_fmap. eapply List.Forall_impl; [|exact HA].
    intros x [_ [H _]%Forall_cons]%Forall_app. apply apart_sym. by eapply apart_within.
  - change (total (block_of (base l) <$> (p, ly) :: live)) with (bsize ly + total (block_of (base l) <$> live)).
    pose proof (remnants_total o s (p - base l - o) (bsize ly) A B Hcut). lia.
  - intros i Hi. simpl. rewrite !Exists_app, Exists_cons. destruct (HC i Hi) as [[?|[?|?]%Exists_cons]%Exists_app|?]; auto.
    destruct (remnants_cover o s (p - base l - o) (bsize ly) i Hcut) as [Hin|Hin]; [done| |auto].
    right; left. by replace (o + (p - base l - o)) with (p - base l) in Hin by lia.
Qed.

(** A request, from a good state. *)
Lemma inv_alloc l hs live ly : inv l hs live → layout_ok ly →
  (alloc l ly = Ret (l, None) ∧ Forall (λ h, fit (base l) (Z.max (layout_align ly) ALIGN) (bsize ly) h = None) hs) ∨
  ∃ l' hs' p, alloc l ly = Ret (l', Some p) ∧ inv l' hs' ((p, ly) :: live) ∧ touches l l' hs ∧ (layout_align ly | p).
Proof.
  intros HI Hly. pose proof (i_repr _ _ _ HI) as HR. pose proof (i_size _ _ _ HI) as Hz. unfold MIN_BLOCK in Hz.
  pose proof (alloc_spec l hs ly HR ltac:(lia) Hly) as H.
  destruct (first_fit _ _ _ hs) as [[a hs']|] eqn:Ef; [right|left; split; [done|by apply first_fit_None]].
  destruct H as (l' & E & HR' & T). apply first_fit_Some in Ef as (A & o & s & B & -> & -> & Hf & _).
  destruct (layout_block ly Hly) as (_ & _ & H16 & D8). destruct (layout_power ly Hly) as (k & Hk & Ea & _ & Dk).
  destruct (r_base _ _ HR) as (B0 & B8 & Bs). pose proof (r_blocks _ _ HR) as [_ [Ho _]%Forall_cons]%Forall_app.
  rewrite Ea in Hf. destruct (fit_cut (base l) k (bsize ly) o s (size l) a) as (Hcut & Da & _); [lia|word_lia|done..|].
  replace (a - o) with (base l + a - base l - o) in * by lia.
  eexists l', _, (base l + a). split; [done|]. split; [by eapply inv_cut|]. split; [done|]. by eapply Z.divide_trans.
Qed.

(** A release, from a good state. *)
Lemma inv_dealloc l hs live1 p ly live2 : inv l hs (live1 ++ (p, ly) :: live2) →
  ∃ l' hs', dealloc l p ly = Ret l' ∧ inv l' hs' (live1 ++ live2) ∧ touches l l' (block_of (base l) (p, ly) :: hs).
Proof.
  intros [HR Hz HL HA HP HT HC]. unfold MIN_BLOCK in Hz.
  pose proof HL as [HL1 [[Hly Hx] HL2]%Forall_cons]%Forall_app. pose proof HA as [HA1 [Hax HA2]%Forall_cons]%Forall_app.
  rewrite fmap_app, fmap_cons in HP, HT, HC. pose proof HP as (Pord & P1 & [Pb P2]%StronglySorted_cons)%StronglySorted_app.
  pose proof Hx as (X1 & X2 & X3 & _). unfold MIN_BLOCK in *; simpl in *.
  destruct (insert_free_spec l hs (p - base l) (bsize ly)) as (l' & hs' & E & HR' & [CT CI CA] & T); [done|lia|done..|].
  pose proof (t_base _ _ _ T) as Eb. pose proof (t_size _ _ _ T) as Es.
  assert (∀ x, x ∈ live1 ++ live2 → apart (block_of (base l) x) (block_of (base l) (p, ly))) as Hoth.
  { intros x [Hx1|Hx2]%elem_of_app.
    - apply Pord; [by apply list_elem_of_fmap_2|left].
    - apply apart_sym. rewrite Forall_forall in Pb. apply Pb. by apply list_elem_of_fmap_2. }
  exists l', hs'. split; [|split; [|done]].
  { unfold dealloc. rewrite sub64_Ret by lia. simpl. rewrite (proj2 (Z.ltb_lt _ _)) by lia. simpl.
    destruct (layout_block ly Hly) as (-> & _). done. }
  assert (Forall (λ x, layout_ok x.2 ∧ block_ok (size l) (block_of (base l) x)) (live1 ++ live2)) as HL' by by apply Forall_app_2.
  split; rewrite ?Eb, ?Es; try done.
  - apply Forall_forall. intros x Hx'. rewrite Forall_forall in HL'. destruct (HL' x Hx') as [_ (_ & ? & _)].
    apply CA; [unfold MIN_BLOCK in *; lia|by apply Hoth|].
    apply elem_of_app in Hx' as [Hx'|Hx']; rewrite Forall_forall in HA1, HA2; auto.
  - rewrite fmap_app. apply StronglySorted_app_2; [|done..]. intros a b Ha Hb. apply Pord; [done|by right].
  - rewrite fmap_app, total_app in *. simpl in *. lia.
  - intros i Hi. rewrite fmap_app, Exists_app, CI. destruct (HC i Hi) as [?|[?|[?|?]%Exists_cons]%Exists_app]; auto.
Qed.

(** A store of a client into a block it holds. *)
Lemma inv_store l hs live x i v : inv l hs live → x ∈ live → inside i (block_of (base l) x) →
  inv (upd l i v) hs live.
Proof.
  intros [[M B L S O] Hz HL HA HP HT HC] Hx Hi.
  assert (touches l (upd l i v) [block_of (base l) x]) as T by by apply touches_upd, Exists_cons_hd.
  split; try done. split; try done; [by eapply touches_mapped|]. simpl. 
  change (lseg (mem (upd l i v)) (head l) hs NIL). eapply lseg_frame; [done..|].
  intros c b ->%list_elem_of_singleton Hb. rewrite Forall_forall in HA. specialize (HA x Hx). rewrite Forall_forall in HA. auto.
Qed.

(** The fresh list is one block. *)
Lemma new_inv at_ len m : 0 < at_ → (8 | at_) → MIN_BLOCK ≤ len → at_ + len ≤ 2 ^ 62 →
  (∀ i, 0 ≤ i → i + 8 ≤ len → (8 | i) → is_Some (m !! i)) →
  ∃ l, new at_ len m = Ret l ∧ base l = at_ ∧ size l = len / 8 * 8 ∧ inv l [(0, len / 8 * 8)] [].
Proof.
  intros H0 D Hlen Hs Hm. unfold MIN_BLOCK in *.
  assert (up at_ 8 = at_) as Eu by (destruct D as [z ->]; unfold up; Z.div_mod_to_equations; lia).
  pose proof (align_up_Ret at_ 3 ltac:(lia) ltac:(lia) ltac:(word_lia)) as EA. change (2 ^ 3) with 8 in EA.
  pose proof (land_not64 len 3 ltac:(word_lia) ltac:(lia)) as EL. change (2 ^ 3) with 8 in EL.
  unfold new, ALIGN. rewrite EA, Eu. simpl. rewrite sub64_Ret by lia. simpl. rewrite sub64_Ret by lia. simpl.
  rewrite !Z.sub_diag, Z.sub_0_r. rewrite EL.
  assert (16 ≤ len / 8 * 8 ≤ len) as Hu by (Z.div_mod_to_equations; lia).
  unfold MIN_BLOCK. rewrite (proj2 (Z.leb_le _ _)) by lia. simpl.
  assert (8 | len / 8 * 8) as Du by by exists (len / 8). rewrite Z.add_0_r.
  set (l0 := {| base := at_; size := len / 8 * 8; head := 0; mem := m |}).
  assert (mapped l0) as Hmap by (split; [simpl; word_lia|intros i ???; apply Hm; simpl in *; [lia..|done]]).
  assert (block_ok (len / 8 * 8) (0, len / 8 * 8)) as Hok.
  { unfold block_ok, MIN_BLOCK; simpl. split_and!; [lia..|by exists 0|done]. }
  destruct (write_entry_cons l0 0 (len / 8 * 8) NIL [] NIL) as (l & E & L & T & Eh); [done|by apply Forall_singleton|done| |].
  { intros c b _ []%elem_of_nil. }
  pose proof (t_base _ _ _ T) as Eb. pose proof (t_size _ _ _ T) as Es. simpl in Eb, Es.
  exists l. split_and!; try done. split; rewrite ?Es, ?Eb; try done; simpl; [|unfold MIN_BLOCK; lia| |lia|].
  - split; [by eapply touches_mapped| |by rewrite Eh|by repeat constructor|rewrite Es; by apply Forall_singleton].
    rewrite Eb, Es. split_and!; [done|done|lia].
  - constructor.
  - intros i Hi. left. apply Exists_cons_hd. unfold inside; simpl. lia.
Qed.

Lemma zeroed_lookup n i : 0 ≤ i → i + 8 ≤ 8 * Z.of_nat n → (8 | i) → is_Some (zeroed n !! i).
Proof.
  intros H0 H1 [z ->]. exists 0. unfold zeroed. apply elem_of_list_to_map_1.
  - rewrite <- list_fmap_compose. apply NoDup_fmap_2; [intros x y; simpl; lia|apply NoDup_seq].
  - apply list_elem_of_fmap. exists (Z.to_nat z). split; [f_equal; lia|]. apply elem_of_seq. lia.
Qed.

Lemma total_nonneg n bs : Forall (block_ok n) bs → 0 ≤ total bs.
Proof. induction 1 as [|b bs (_ & ? & _) _ IH]; unfold MIN_BLOCK in *; simpl; lia. Qed.

Lemma free_bytes_from_spec l hs : size l ≤ 2 ^ 63 → ∀ fuel h t, Forall (block_ok (size l)) hs → lseg (mem l) h hs NIL →
  (length hs < fuel)%nat → 0 ≤ t → t + total hs ≤ size l → free_bytes_from fuel l t h = Ret (t + total hs).
Proof.
  intros Hsz. induction hs as [|[o s] hs IH]; intros fuel h t Hok L Hf H0 Ht; destruct fuel as [|fuel];
    try (simpl in Hf; lia); simpl in *.
  { subst h. rewrite Z.eqb_refl. unfold mret, outcome_ret. f_equal. lia. }
  destruct L as (-> & Ho & n & Hn & L). apply Forall_cons in Hok as [(O1 & O2 & O3 & _) Hok]. unfold MIN_BLOCK in *; simpl in *.
  rewrite (proj2 (Z.eqb_neq o NIL)) by (unfold NIL; word_lia). unfold entry_size, entry_next, load. rewrite Ho, Hn. simpl.
  pose proof (total_nonneg _ _ Hok). rewrite add64_Ret by word_lia. simpl.
  rewrite IH by (done || lia). f_equal. lia.
Qed.
Lemma free_bytes_spec l hs : repr l hs → 0 ≤ size l → free_bytes l = Ret (total hs).
Proof.
  intros HR Hz. destruct (sorted_total (size l) hs 0) as (_ & Ht & _); [apply HR|apply HR| |done|].
  { eapply List.Forall_impl; [|apply HR]. by intros b (? & _). }
  apply (free_bytes_from_spec l hs); [apply HR|apply HR|apply HR|by apply repr_fuel|lia|lia].
Qed.

(** A free range lies in one hole, because free neighbours are merged. *)
Lemma range_in_hole l hs live r : inv l hs live → 0 ≤ r.1 → 0 < r.2 → r.1 + r.2 ≤ size l →
  Forall (λ x, apart r (block_of (base l) x)) live → ∃ h, h ∈ hs ∧ within r h.
Proof.
  intros HI H0 H1 H2 Hap. assert (∀ i, inside i r → ∃ h, h ∈ hs ∧ inside i h) as Hin.
  { intros i Hi. destruct (i_cover _ _ _ HI i) as [H|H]; [unfold inside in Hi; lia|by apply Exists_exists in H|].
    apply Exists_exists in H as (b & (x & -> & Hx)%list_elem_of_fmap & Hb). rewrite Forall_forall in Hap.
    specialize (Hap x Hx). unfold apart, inside in *. lia. }
  destruct (Hin r.1) as (h & Hh & Hr); [unfold inside; lia|]. exists h. split; [done|].
  destruct (Z.le_gt_cases (r.1 + r.2) (h.1 + h.2)) as [?|Hgt]; [unfold within, inside in *; lia|exfalso].
  destruct (Hin (h.1 + h.2)) as (h' & Hh' & Hr'); [unfold inside in *; lia|].
  assert (h = h' ∨ before h h' ∨ before h' h) as Hord.
  { pose proof (r_sorted _ _ (i_repr _ _ _ HI)) as Hs. clear -Hs Hh Hh'. induction Hs as [|b bs _ IH Hb]; [by apply elem_of_nil in Hh|].
    rewrite Forall_forall in Hb. apply elem_of_cons in Hh as [->|Hh], Hh' as [->|Hh']; auto. }
  unfold before, inside in *. naive_solver lia.
Qed.

(** A hole with room to spare takes the request. *)
Lemma roomy_fit b k need o s n : 0 ≤ b → b + n ≤ 2 ^ 62 → 3 ≤ k ≤ 63 → (8 | b) → block_ok n (o, s) →
  need + 2 ^ k + 2 * MIN_BLOCK ≤ s → fit b (2 ^ k) need (o, s) ≠ None.
Proof.
  intros Hb Hn Hk D (H0 & H1 & H2 & D1 & D2) Hroom. unfold fit, MIN_BLOCK in *; simpl in *.
  destruct (place_spec b k o) as (_ & Hp & _); unfold MIN_BLOCK in *; [lia..|word_lia|done|done|].
  rewrite (proj2 (Z.leb_le (_ + _) _)) by lia. rewrite (proj2 (Z.leb_le 16 _)) by lia. by rewrite orb_true_r.
Qed.

(** The histories of an arena under the contract of [GlobalAlloc]: a block is
    released once, with its own layout, and clients store in held blocks. *)
Inductive reach (a0 : Arena) : Arena → held → Prop :=
  | reach_start : reach a0 a0 []
  | reach_alloc a live ly a' p : reach a0 a live → layout_ok ly →
      arena_alloc a ly = Ret (a', Some p) → reach a0 a' ((p, ly) :: live)
  | reach_null a live ly a' : reach a0 a live → layout_ok ly → arena_alloc a ly = Ret (a', None) → reach a0 a' live
  | reach_dealloc a live1 p ly live2 a' : reach a0 a (live1 ++ (p, ly) :: live2) →
      arena_dealloc a p ly = Ret a' → reach a0 a' (live1 ++ live2)
  | reach_store a live x l i v : reach a0 a live → x ∈ live → heap a = Some l → inside i (block_of (addr a) x) →
      reach a0 (with_heap a (upd l i v)) live.

(** The word at address [w]. *)
Definition peek (a : Arena) (w : Z) : option Z :=
  match heap a with Some l => mem l | None => data a end !! (w - addr a).
Definition keeps (a a' : Arena) (live : held) : Prop :=
  ∀ x w, x ∈ live → x.1 ≤ w < x.1 + bsize x.2 → peek a' w = peek a w.

Section arena.
Context (at_ cap : Z) (Hat : 0 < at_) (Halign : (64 | at_)) (Hcap : MIN_BLOCK ≤ cap) (Hend : at_ + cap ≤ 2 ^ 62).

Definition ainv (a : Arena) (live : held) : Prop :=
  addr a = at_ ∧
  match heap a with
  | Some l => base l = at_ ∧ size l = cap / 8 * 8 ∧ ∃ hs, inv l hs live
  | None => live = [] ∧ a = arena_new at_ cap
  end.

Lemma ainv_heap a live : ainv a live →
  ∃ l hs, get_or_insert_heap a = Ret l ∧ base l = at_ ∧ size l = cap / 8 * 8 ∧ inv l hs live ∧
    (live ≠ [] → heap a = Some l).
Proof.
  intros [_ HI]. unfold get_or_insert_heap. destruct (heap a) as [l|]; simpl.
  - destruct HI as (Eb & Es & hs & HI). by exists l, hs.
  - destruct HI as [-> ->]. unfold MIN_BLOCK in *.
    destruct (new_inv at_ cap (zeroed (Z.to_nat (cap / 8)))) as (l & E & Eb & Es & HI); [done| |done|done| |].
    + eapply Z.divide_trans; [|done]. by exists 8.
    + intros i H0 H8 [z ->]. apply zeroed_lookup; [done| |by exists z]. Z.div_mod_to_equations; lia.
    + exists l, [(0, cap / 8 * 8)]. by split_and!.
Qed.

Lemma touches_keeps a l l' bs live : heap a = Some l → base l = addr a → touches l l' bs →
  Forall (λ x, Forall (apart (block_of (base l) x)) bs) live → keeps a (with_heap a l') live.
Proof.
  intros Eh Eb T HA x w Hx Hw. unfold peek. rewrite Eh. simpl.
  destruct (t_mem _ _ _ T (w - addr a)) as [?|(b & Hb & Hi)%Exists_exists]; [done|]. rewrite Forall_forall in HA.
  specialize (HA x Hx). rewrite Forall_forall in HA. specialize (HA b Hb).
  unfold apart, inside, block_of in *; simpl in *. rewrite Eb in *. lia.
Qed.

Lemma ainv_alloc a live ly : ainv a live → layout_ok ly →
  ∃ a' r, arena_alloc a ly = Ret (a', r) ∧ keeps a a' live ∧
    match r with
    | Some p => ainv a' ((p, ly) :: live) ∧ (layout_align ly | p)
    | None => ainv a' live ∧ ∃ l hs, inv l hs live ∧ base l = at_ ∧ size l = cap / 8 * 8 ∧
        Forall (λ h, fit at_ (Z.max (layout_align ly) ALIGN) (bsize ly) h = None) hs
    end.
Proof.
  intros HA Hly. destruct (ainv_heap a live HA) as (l & hs & E & Eb & Es & HI & Hh). destruct HA as [Ea _].
  assert (∀ l', touches l l' hs → keeps a (with_heap a l') live) as HK.
  { intros l' T. destruct live as [|x live]; [by intros y w []%elem_of_nil|]. eapply touches_keeps; [by apply Hh|by rewrite Eb|done|apply HI]. }
  unfold arena_alloc. rewrite E. simpl. destruct (inv_alloc l hs live ly HI Hly) as [(-> & Hf)|(l' & hs' & p & -> & HI' & T & D)]; simpl.
  - exists (with_heap a l), None. split; [done|]. split; [apply HK, touches_refl|]. split.
    + split; [done|]. split_and!; [done..|by exists hs].
    + rewrite Eb in Hf. by exists l, hs.
  - exists (with_heap a l'), (Some p). split; [done|]. split; [by apply HK|]. split; [|done].
    split; [done|]. split_and!; [by rewrite (t_base _ _ _ T)|by rewrite (t_size _ _ _ T)|by exists hs'].
Qed.

Lemma ainv_dealloc a live1 p ly live2 : ainv a (live1 ++ (p, ly) :: live2) →
  ∃ a', arena_dealloc a p ly = Ret a' ∧ ainv a' (live1 ++ live2) ∧ keeps a a' (live1 ++ live2).
Proof.
  intros [Ea HA]. unfold arena_dealloc. destruct (heap a) as [l|] eqn:Eh; [|by destruct HA as [H _], live1].
  destruct HA as (Eb & Es & hs & HI). destruct (inv_dealloc l hs live1 p ly live2 HI) as (l' & hs' & -> & HI' & T).
  simpl. exists (with_heap a l'). split; [done|]. split.
  - split; [done|]. split_and!; [by rewrite (t_base _ _ _ T)|by rewrite (t_size _ _ _ T)|by exists hs'].
  - eapply touches_keeps; [done|by rewrite Eb|done|]. destruct HI as [_ _ _ HA HP _ _]. 
    apply Forall_app in HA as [HA1 [_ HA2]%Forall_cons]. rewrite fmap_app, fmap_cons in HP.
    apply StronglySorted_app in HP as (Hord & _ & [Hb _]%StronglySorted_cons).
    rewrite !Forall_forall in *. intros x [Hx|Hx]%elem_of_app; constructor; auto.
    + apply Hord; [by apply list_elem_of_fmap_2|left].
    + apply apart_sym, Hb. by apply list_elem_of_fmap_2.
Qed.

Lemma reach_ainv a live : reach (arena_new at_ cap) a live → ainv a live.
Proof.
  induction 1 as [|a live ly a' p _ IH Hly E|a live ly a' _ IH Hly E|a live1 p ly live2 a' _ IH E|a live x l i v _ IH Hx Eh Hi].
  - by split.
  - destruct (ainv_alloc a live ly IH Hly) as (? & ? & E' & _ & H). rewrite E in E'. injection E' as <- <-. apply H.
  - destruct (ainv_alloc a live ly IH Hly) as (? & ? & E' & _ & H). rewrite E in E'. injection E' as <- <-. apply H.
  - destruct (ainv_dealloc a live1 p ly live2 IH) as (? & E' & H & _). rewrite E in E'. by injection E' as <-.
  - destruct IH as [Ea IH]. rewrite Eh in IH. destruct IH as (Eb & Es & hs & HI). split; [done|]. split_and!; [done..|].
    exists hs. eapply inv_store; [done..|]. by rewrite Eb, <- Ea.
Qed.
End arena.

(** A history: two requests, a client store, and the release of the first. *)
Module Sample.
Definition small : Layout := {| layout_size := 20; layout_align := 8 |}.
Definition big : Layout := {| layout_size := 30; layout_align := 64 |}.
Lemma small_ok : layout_ok small.
Proof. split; [done|]. split; [done|]. by exists 3. Qed.
Lemma big_ok : layout_ok big.
Proof. split; [done|]. split; [done|]. by exists 6. Qed.

Definition or_start {A} (m : outcome A) (f : A → Arena) : Arena :=
  match m with Ret x => f x | Panic => arena_new 4096 256 end.
Definition arena1 : Arena := or_start (arena_alloc (arena_new 4096 256) small) fst.
Definition arena2 : Arena := or_start (arena_alloc arena1 big) fst.
Definition list2 : FreeList :=
  match heap arena2 with Some l => l | None => {| base := 0; size := 0; head := 0; mem := ∅ |} end.
Definition arena3 : Arena := with_heap arena2 (upd list2 72 99).
Definition arena : Arena := or_start (arena_dealloc arena3 4096 small) id.

Lemma reached : reach (arena_new 4096 256) arena [(4160, big)].
Proof.
  assert (inside 72 (block_of (addr arena2) (4160, big))) as Hi by (split; vm_compute; [discriminate|reflexivity]).
  assert (arena_alloc (arena_new 4096 256) small = Ret (arena1, Some 4096)) as E1 by (vm_compute; reflexivity).
  assert (arena_alloc arena1 big = Ret (arena2, Some 4160)) as E2 by (vm_compute; reflexivity).
  assert (heap arena2 = Some list2) as E3 by (vm_compute; reflexivity).
  assert (arena_dealloc arena3 4096 small = Ret arena) as E4 by (vm_compute; reflexivity).
  pose proof (reach_start (arena_new 4096 256)) as R0.
  pose proof (reach_alloc _ _ _ _ _ _ R0 small_ok E1) as R1. pose proof (reach_alloc _ _ _ _ _ _ R1 big_ok E2) as R2.
  pose proof (reach_store _ _ _ (4160, big) list2 72 99 R2 ltac:(left) E3 Hi) as R3.
  exact (reach_dealloc _ _ [(4160, big)] 4096 small [] _ R3 E4).
Qed.
End Sample.

(** ** The promises of the allocator *)

(** C20: memory safety of the allocator: after any history of requests, releases
    and client stores, a request never panics; the block it returns has the
    requested alignment, lies in the arena and overlaps no held block; and
    neither it nor the release of a held block panics or changes a word of
    another held block. *)
Theorem allocator_safe (at_ cap : Z) (a : Arena) (live : held) (ly : Layout)
    (Hat : 0 < at_) (Halign : (64 | at_)) (Hcap : MIN_BLOCK ≤ cap) (Hend : at_ + cap ≤ 2 ^ 62)
    (Hreach : reach (arena_new at_ cap) a live) (Hly : layout_ok ly) :
  (∃ a' r, arena_alloc a ly = Ret (a', r) ∧ keeps a a' live ∧
    ∀ p, r = Some p → at_ ≤ p ∧ p + layout_size ly ≤ at_ + cap ∧ (layout_align ly | p) ∧
      Forall (λ x, p + layout_size ly ≤ x.1 ∨ x.1 + layout_size x.2 ≤ p) live) ∧
  (∀ live1 q lq live2, live = live1 ++ (q, lq) :: live2 →
    ∃ a', arena_dealloc a q lq = Ret a' ∧ keeps a a' (live1 ++ live2)).
Proof.
  pose proof (reach_ainv at_ cap Hat Halign Hcap Hend a live Hreach) as HA. split.
  - destruct (ainv_alloc at_ cap Hat Halign Hcap Hend a live ly HA Hly) as (a' & r & E & HK & H). exists a', r.
    split_and!; [done..|]. intros p ->. destruct H as [[_ H] D]. destruct (heap a') as [l|]; [|by destruct H].
    destruct H as (Eb & Es & hs & [_ _ [[_ (X1 & _ & X3 & _)] HL]%Forall_cons _ HP _ _]).
    rewrite fmap_cons in HP. apply StronglySorted_cons in HP as [HP _].
    destruct (layout_block ly Hly) as (_ & Hb & _). unfold block_of in X1, X3; simpl in X1, X3.
    assert (cap / 8 * 8 ≤ cap) by (Z.div_mod_to_equations; lia). split_and!; [lia|lia|done|].
    apply Forall_forall. intros x Hx. rewrite Forall_forall in HL. rewrite Forall_forall in HP. destruct (HL x Hx) as [Hlx _].
    destruct (layout_block x.2 Hlx) as (_ & Hbx & _). specialize (HP _ (list_elem_of_fmap_2 _ _ _ Hx)).
    unfold apart, block_of in HP; simpl in HP. lia.
  - intros live1 q lq live2 ->. destruct (ainv_dealloc at_ cap a live1 q lq live2 HA) as (a' & E & _ & HK).
    by exists a'.
Qed.

Lemma allocator_safe_witness :
  ∃ a' p, arena_alloc Sample.arena Sample.big = Ret (a', Some p) ∧ p = 4096 ∧ peek a' 4168 = Some 99 ∧ (64 | p).
Proof.
  destruct (allocator_safe 4096 256 Sample.arena [(4160, Sample.big)] Sample.big ltac:(lia) ltac:(by exists 64)
    ltac:(done) ltac:(done) Sample.reached Sample.big_ok) as [(a' & r & E & HK & H) _].
  assert (r = Some 4096) as ->.
  { assert (match arena_alloc Sample.arena Sample.big with Ret x => x.2 | Panic => None end = Some 4096) as H0
      by (vm_compute; reflexivity). by rewrite E in H0. }
  exists a', 4096. destruct (H 4096 eq_refl) as (_ & _ & D & _). split; [done|]. split; [done|]. split; [|done].
  rewrite (HK (4160, Sample.big) 4168); [vm_compute; reflexivity|left|]. split; vm_compute; [discriminate|reflexivity].
Defined.

(** C21: the allocator wastes no room: after any history, [free_bytes] is the
    size of the region less the blocks held; and a request is refused only if
    every range of the arena that no held block overlaps is shorter than the
    request, its alignment and two blocks together. *)
Theorem allocator_finds_room (at_ cap : Z) (a : Arena) (live : held)
    (Hat : 0 < at_) (Halign : (64 | at_)) (Hcap : MIN_BLOCK ≤ cap) (Hend : at_ + cap ≤ 2 ^ 62)
    (Hreach : reach (arena_new at_ cap) a live) :
  (∀ l, heap a = Some l → free_bytes l = Ret (cap / 8 * 8 - total (block_of at_ <$> live))) ∧
  (∀ ly a' lo len, layout_ok ly → arena_alloc a ly = Ret (a', None) →
    at_ ≤ lo → lo + len ≤ at_ + cap / 8 * 8 → Forall (λ x, lo + len ≤ x.1 ∨ x.1 + bsize x.2 ≤ lo) live →
    len < bsize ly + Z.max (layout_align ly) ALIGN + 2 * MIN_BLOCK).
Proof.
  pose proof (reach_ainv at_ cap Hat Halign Hcap Hend a live Hreach) as HA. split.
  - intros l Eh. destruct HA as [_ HA]. rewrite Eh in HA. destruct HA as (Eb & Es & hs & HI).
    pose proof (i_size _ _ _ HI) as Hz. unfold MIN_BLOCK in Hz.
    rewrite (free_bytes_spec l hs) by (apply HI || lia). pose proof (i_total _ _ _ HI) as HT. rewrite Eb, Es in HT. f_equal. lia.
  - intros ly a' lo len Hly E Hlo Hhi Hfree. apply Z.nle_gt. intros Hlong.
    destruct (ainv_alloc at_ cap Hat Halign Hcap Hend a live ly HA Hly) as (? & r & E' & _ & H). rewrite E in E'.
    injection E' as <- <-. destruct H as (_ & l & hs & HI & Eb & Es & Hf).
    destruct (layout_block ly Hly) as (_ & _ & H16 & _). destruct (layout_power ly Hly) as (k & Hk & Ek & _). rewrite Ek in *.
    pose proof (Z.pow_pos_nonneg 2 k ltac:(lia) ltac:(lia)). unfold MIN_BLOCK in *.
    destruct (range_in_hole l hs live (lo - at_, len)) as ([o s] & Hh & Hw); [done|simpl; lia..| |].
    { eapply List.Forall_impl; [|exact Hfree]. rewrite Eb. unfold apart, block_of; simpl. intros; lia. }
    rewrite Forall_forall in Hf. refine (roomy_fit at_ k (bsize ly) o s (size l) _ _ Hk _ _ _ (Hf _ Hh)); [lia|..].
    + rewrite Es. Z.div_mod_to_equations; word_lia.
    + rewrite <- Eb. apply HI.
    + pose proof (r_blocks _ _ (i_repr _ _ _ HI)) as Hok. rewrite Forall_forall in Hok. by apply Hok.
    + unfold within, MIN_BLOCK in *; simpl in *. lia.
Qed.
Lemma allocator_finds_room_witness :
  ∃ l, heap Sample.arena = Some l ∧ free_bytes l = Ret 224.
Proof.
  destruct (allocator_finds_room 4096 256 Sample.arena [(4160, Sample.big)] ltac:(lia) ltac:(by exists 64)
    ltac:(done) ltac:(done) Sample.reached) as [H _].
  assert (is_Some (heap Sample.arena)) as [l E] by (apply not_eq_None_Some; vm_compute; discriminate).
  exists l. split; [exact E|exact (H l E)].
Defined.
