(* ===== verification/NetUtil.v ===== *)
(** * Network utilities ([src/net/util.rs])

    Netmasks and prefix lengths, the router's software-defined hardware address
    and the printed form of hardware addresses. *)

From S2P Require Import Prelude.
From stdpp Require Import pretty.
#[local] Open Scope Z_scope.

(** ** [u32] intrinsics *)

(** [u32::count_ones]. *)
Fixpoint ones (w : nat) (x : Z) : Z :=
  match w with O => 0 | S w => Z.b2z (Z.odd x) + ones w (Z.div2 x) end.
Definition count_ones (x : Z) : Z := ones 32 x.
(** [u32::trailing_zeros], 32 at zero. *)
Fixpoint zeros (w : nat) (x : Z) : Z :=
  match w with O => 0 | S w => if Z.odd x then 0 else 1 + zeros w (Z.div2 x) end.
Definition trailing_zeros (x : Z) : Z := zeros 32 x.

(** ** Netmasks *)

Definition prefix_to_netmask (prefix : Z) : option Ipv4Addr :=
  if 32 <? prefix then None
  else Some (if prefix =? 0 then 0 else Z.land (Z.shiftl (2 ^ 32 - 1) (32 - prefix)) (2 ^ 32 - 1)).

Definition netmask_to_prefix (netmask : Ipv4Addr) : option Z :=
  if negb (count_ones netmask + trailing_zeros netmask =? 32) then None
  else Some (count_ones netmask).

Record Netmask := { mask_addr : Ipv4Addr }.
Definition Netmask_new (netmask : Ipv4Addr) : option Netmask :=
  _ ← netmask_to_prefix netmask; Some {| mask_addr := netmask |}.
Definition Netmask_prefix (m : Netmask) : outcome Z := expect (netmask_to_prefix (mask_addr m)).
Definition netmask (m : Netmask) : Ipv4Addr := mask_addr m.
Definition network (m : Netmask) (ip : Ipv4Addr) : Ipv4Addr := Z.land ip (mask_addr m).

(** What [Serialize] hands to the serializer; [None] is its error. *)
Definition Netmask_serialize (m : Netmask) : option Z := netmask_to_prefix (mask_addr m).
(** [Deserialize], from the address that the deserializer returns. *)
Definition Netmask_deserialize (read : option Ipv4Addr) : option Netmask :=
  netmask ← read;
  match netmask_to_prefix netmask with None => None | Some _ => Some {| mask_addr := netmask |} end.

(** ** Hardware addresses *)

(** [Ipv4Addr::to_string]. *)
Definition ipv4_to_string (a : Ipv4Addr) : string :=
  match octets a with
  | [a; b; c; d] => pretty a +:+ "." +:+ pretty b +:+ "." +:+ pretty c +:+ "." +:+ pretty d
  | _ => ""
  end%string.
Definition as_bytes (s : string) : bytes := (λ c, Z.of_N (Ascii.N_of_ascii c)) <$> String.list_ascii_of_string s.

(** [sha256] is the digest of the hash library. *)
Definition software_defined_mac (sha256 : bytes → bytes) (ip : Ipv4Addr) : outcome MacAddr :=
  let hash := sha256 (as_bytes (ipv4_to_string ip)) in
  mac ← get_range hash 0 6;
  m0 ← get_index mac 0;
  let mac := <[0%nat := Z.lor m0 2]> mac in
  m0 ← get_index mac 0;
  mret (<[0%nat := Z.land m0 254]> mac).

(** [{:02x}]. *)
Definition hex_digit (d : Z) : string :=
  match d with
  | 0 => "0" | 1 => "1" | 2 => "2" | 3 => "3" | 4 => "4" | 5 => "5" | 6 => "6" | 7 => "7"
  | 8 => "8" | 9 => "9" | 10 => "a" | 11 => "b" | 12 => "c" | 13 => "d" | 14 => "e" | _ => "f"
  end%string.
Definition hex2 (x : Z) : string := hex_digit (x / 16) +:+ hex_digit (x mod 16).
Definition format_mac (mac : MacAddr) : string :=
  match mac with
  | [a; b; c; d; e; f] =>
    hex2 a +:+ ":" +:+ hex2 b +:+ ":" +:+ hex2 c +:+ ":" +:+ hex2 d +:+ ":" +:+ hex2 e +:+ ":" +:+ hex2 f
  | _ => ""
  end%string.

(** ** Lemmas *)

Lemma ones_bounds w x : 0 ≤ ones w x ≤ Z.of_nat w.
Proof. revert x. induction w as [|w IH]; intros x; cbn [ones]; [lia|]. specialize (IH (Z.div2 x)). destruct (Z.odd x); cbn; lia. Qed.

(** A word with as many ones as it has bits is all ones. *)
Lemma ones_full w x : 0 ≤ x < 2 ^ Z.of_nat w → ones w x = Z.of_nat w → x = 2 ^ Z.of_nat w - 1.
Proof.
  revert x. induction w as [|w IH]; intros x Hx Ho; [cbn in *; lia|].
  rewrite Nat2Z.inj_succ, Z.pow_succ_r in Hx |- * by lia. cbn [ones] in Ho.
  pose proof (ones_bounds w (Z.div2 x)). pose proof (Z.div2_odd x) as E.
  destruct (Z.odd x); cbn [Z.b2z] in *; [|lia]. rewrite (IH (Z.div2 x)) in E by lia. lia.
Qed.

(** Ones above zeros, and nothing else: the shape of a netmask. *)
Lemma mask_shape w x :
  0 ≤ x < 2 ^ Z.of_nat w → ones w x + zeros w x = Z.of_nat w → x = 2 ^ Z.of_nat w - 2 ^ (Z.of_nat w - ones w x).
Proof.
  revert x. induction w as [|w IH]; intros x Hx Hs; [cbn in *; lia|].
  destruct (Z.odd x) eqn:Eo.
  - cbn [ones zeros] in *. rewrite Eo in *. rewrite Z.add_0_r in Hs.
    rewrite Hs, Z.sub_diag. apply ones_full; [done|]. cbn [ones]. by rewrite Eo.
  - cbn [ones zeros] in *. rewrite Eo in *. cbn [Z.b2z] in *.
    pose proof (ones_bounds w (Z.div2 x)). pose proof (Z.div2_odd x) as E. rewrite Eo in E. cbn [Z.b2z] in E.
    rewrite Nat2Z.inj_succ, Z.pow_succ_r in Hx |- * by lia.
    rewrite (IH (Z.div2 x)) in E by lia. rewrite E at 1.
    replace (Z.succ (Z.of_nat w) - (0 + ones w (Z.div2 x))) with (Z.succ (Z.of_nat w - ones w (Z.div2 x))) by lia.
    rewrite Z.pow_succ_r by lia. lia.
Qed.

Lemma prefix_to_netmask_value p :
  0 ≤ p ≤ 32 → prefix_to_netmask p = Some (2 ^ 32 - 2 ^ (32 - p)).
Proof.
  intros Hp. assert (p ∈ seqZ 0 33) as Hin by (apply elem_of_seqZ; lia). clear Hp. revert p Hin.
  apply Forall_forall. decide_now.
Qed.
Lemma netmask_to_prefix_value p : 0 ≤ p ≤ 32 → netmask_to_prefix (2 ^ 32 - 2 ^ (32 - p)) = Some p.
Proof.
  intros Hp. assert (p ∈ seqZ 0 33) as Hin by (apply elem_of_seqZ; lia). clear Hp. revert p Hin.
  apply Forall_forall. decide_now.
Qed.
Lemma netmask_to_prefix_inv m p :
  u32 m → netmask_to_prefix m = Some p → 0 ≤ p ≤ 32 ∧ m = 2 ^ 32 - 2 ^ (32 - p).
Proof.
  intros Hm. unfold netmask_to_prefix. destruct (_ =? 32) eqn:E; cbn [negb]; [|done]. intros [= <-].
  apply Z.eqb_eq in E. split; [apply (ones_bounds 32)|]. by apply (mask_shape 32).
Qed.

(** [mac[0] | 2] keeps a byte a byte. *)
Lemma first_byte_ok x : u8 x → u8 (Z.land (Z.lor x 2) 254) ∧
  Z.testbit (Z.land (Z.lor x 2) 254) 0 = false ∧ Z.testbit (Z.land (Z.lor x 2) 254) 1 = true.
Proof.
  intros Hx. assert (x ∈ seqZ 0 256) as Hin by (apply elem_of_seqZ; word_lia). clear Hx. revert x Hin.
  unfold u8. apply Forall_forall. decide_now.
Qed.

Lemma hex_digit_inj d d' : 0 ≤ d < 16 → 0 ≤ d' < 16 → hex_digit d = hex_digit d' → d = d'.
Proof.
  intros H H'. assert (Forall (λ d, Forall (λ d', hex_digit d = hex_digit d' → d = d') (seqZ 0 16)) (seqZ 0 16)) as HF
    by decide_now.
  rewrite Forall_forall in HF. specialize (HF d ltac:(apply elem_of_seqZ; lia)).
  rewrite Forall_forall in HF. by apply HF, elem_of_seqZ.
Qed.

Lemma hex_digit_one d : ∃ c, hex_digit d = String.String c String.EmptyString.
Proof. unfold hex_digit. repeat case_match; eauto. Qed.

(** Two printed bytes at the front of a string are recovered with what follows. *)
Lemma hex2_app_inj x y s t : u8 x → u8 y → (hex2 x +:+ s = hex2 y +:+ t)%string → x = y ∧ s = t.
Proof.
  intros Hx Hy. unfold hex2.
  pose proof (hex_digit_inj (x / 16) (y / 16)) as H1. pose proof (hex_digit_inj (x mod 16) (y mod 16)) as H2.
  destruct (hex_digit_one (x / 16)) as [a Ea], (hex_digit_one (x mod 16)) as [b Eb],
    (hex_digit_one (y / 16)) as [c Ec], (hex_digit_one (y mod 16)) as [d Ed].
  rewrite Ea, Eb, Ec, Ed in *. cbn [String.append]. intros H. injection H as Ha Hb Hs. change (s = t) in Hs. subst a b s. split; [|done].
  pose proof (Z.mod_pos_bound x 16). pose proof (Z.mod_pos_bound y 16).
  specialize (H1 ltac:(div_lia) ltac:(div_lia) eq_refl). specialize (H2 ltac:(lia) ltac:(lia) eq_refl).
  rewrite (Z.div_mod x 16), (Z.div_mod y 16) by lia. lia.
Qed.

Lemma colon_app_inj s t : (":" +:+ s = ":" +:+ t → s = t)%string.
Proof. intros H. by injection H as H. Qed.

(** Distinct addresses are printed differently. *)
Lemma format_mac_inj m m' : mac_ok m → mac_ok m' → format_mac m = format_mac m' → m = m'.
Proof.
  intros [Hl Hb] [Hl' Hb']. explode_list m. explode_list m'. inv_Forall. cbn [format_mac]. intros E.
  do 5 (apply hex2_app_inj in E as [-> E]; [|done..]; apply colon_app_inj in E).
  apply (f_equal (λ s, s +:+ EmptyString)) in E. by apply hex2_app_inj in E as [-> _].
Qed.

(** The digest's first bytes, with the two flag bits of the first one set. *)
Lemma software_mac_shape sha256 ip :
  (∀ b, length (sha256 b) = 32%nat ∧ Forall u8 (sha256 b)) →
  ∃ m m0 rest, software_defined_mac sha256 ip = Ret m ∧ mac_ok m ∧ m = m0 :: rest ∧
    rest = slice 1 5 (sha256 (as_bytes (ipv4_to_string ip))) ∧ Z.testbit m0 0 = false ∧ Z.testbit m0 1 = true.
Proof.
  intros Hsha.
  unfold software_defined_mac. destruct (Hsha (as_bytes (ipv4_to_string ip))) as [Hl Hb].
  set (h := sha256 _) in *. rewrite get_range_Ret by lia. cbn [mbind outcome_bind].
  assert (length (slice 0 (6 - 0) h) = 6%nat) as L by (apply length_slice; lia).
  assert (slice 1 5 h = skipn 1 (slice 0 (6 - 0) h)) as Er.
  { unfold slice. rewrite drop_0, skipn_firstn_comm. reflexivity. }
  rewrite Er. assert (Forall u8 (slice 0 (6 - 0) h)) as B by (by apply Forall_slice).
  generalize dependent (slice 0 (6 - 0) h). intros m L _ B. explode_list m. inv_Forall. cbn.
  destruct (first_byte_ok z) as (Hu & Hm & Hla); [done|]. eexists _, _, _. split; [reflexivity|].
  split_and!; try done. split; [done|]. by repeat apply Forall_cons_2.
Qed.
Lemma software_mac_ok sha256 ip :
  (∀ b, length (sha256 b) = 32%nat ∧ Forall u8 (sha256 b)) →
  ∃ m, software_defined_mac sha256 ip = Ret m ∧ mac_ok m.
Proof. intros (m & ? & ? & E & H & _)%(software_mac_shape _ ip). by exists m. Qed.

(** ** Properties *)

(** Netmasks and prefix lengths are in bijection: the code recognises as
    netmasks exactly the addresses it builds from the prefixes 0 to 32, each by
    its own prefix, and refuses a prefix above 32; so [Netmask::prefix] never
    panics on a constructed [Netmask]. *)
Theorem netmask_prefix_bijection (p : Z) (m : Ipv4Addr) (Hp : u8 p) (Hm : u32 m) :
  (netmask_to_prefix m = Some p ↔ prefix_to_netmask p = Some m) ∧
  (prefix_to_netmask p = None ↔ 32 < p) ∧
  (∀ nm, Netmask_new m = Some nm → ∃ q, Netmask_prefix nm = Ret q ∧ prefix_to_netmask q = Some (netmask nm)).
Proof.
  assert (∀ q, netmask_to_prefix m = Some q ↔ u8 q ∧ prefix_to_netmask q = Some m) as Hiff.
  { intros q. split.
    - intros [Hq ->]%netmask_to_prefix_inv; [|done]. rewrite prefix_to_netmask_value by done. split; [word_lia|done].
    - intros [Hq H]. destruct (decide (q ≤ 32)).
      + rewrite prefix_to_netmask_value in H by word_lia. injection H as <-. apply netmask_to_prefix_value. word_lia.
      + unfold prefix_to_netmask in H. by rewrite (proj2 (Z.ltb_lt _ _)) in H by lia. }
  split_and!.
  - rewrite Hiff. naive_solver.
  - unfold prefix_to_netmask. destruct (Z.ltb_spec 32 p); split; [done|done|done|lia].
  - intros nm. unfold Netmask_new. destruct (netmask_to_prefix m) as [q|] eqn:E; [|done]. intros [= <-].
    exists q. unfold Netmask_prefix. cbn [mask_addr netmask]. rewrite E. split; [done|]. by apply Hiff.
Qed.
Lemma netmask_prefix_bijection_witness :
  netmask_to_prefix (ip4 255 255 255 0) = Some 24 ↔ prefix_to_netmask 24 = Some (ip4 255 255 255 0).
Proof. apply (netmask_prefix_bijection 24 (ip4 255 255 255 0)); decide_now. Defined.

(** The software-defined address of the router is computed without a panic
    and is a locally administered unicast address (hence never the broadcast
    address), whatever the hash library's 32-byte digest is. *)
Theorem software_defined_mac_unicast (sha256 : bytes → bytes) (ip : Ipv4Addr)
    (Hsha : ∀ b, length (sha256 b) = 32%nat ∧ Forall u8 (sha256 b)) :
  ∃ m, software_defined_mac sha256 ip = Ret m ∧ mac_ok m ∧ m ≠ replicate 6 255 ∧
    ∃ m0 rest, m = m0 :: rest ∧ rest = slice 1 5 (sha256 (as_bytes (ipv4_to_string ip))) ∧
      Z.testbit m0 0 = false ∧ Z.testbit m0 1 = true.
Proof.
  destruct (software_mac_shape sha256 ip Hsha) as (m & m0 & rest & E & Hm & -> & Er & H0 & H1).
  eexists. split_and!; [exact E|exact Hm| |by eexists _, _]. intros [= E0 _]. by rewrite E0 in H0.
Qed.
Lemma software_defined_mac_unicast_witness :
  ∃ m, software_defined_mac (λ _, replicate 32 77) (ip4 10 0 0 1) = Ret m ∧ mac_ok m ∧ m ≠ replicate 6 255 ∧
    ∃ m0 rest, m = m0 :: rest ∧ rest = slice 1 5 (replicate 32 77) ∧ Z.testbit m0 0 = false ∧ Z.testbit m0 1 = true.
Proof. apply (software_defined_mac_unicast (λ _, replicate 32 77)). intros _. split; [done|]. decide_now. Defined.
