(* ===== verification/PortPlan.v ===== *)
(** * Ports, queues and logical cores ([src/dpdk/port.rs], [src/dpdk/lcore.rs], [src/dpdk/util.rs])

    What the router decides about the hardware: the capabilities it reads, the
    queues it asks for, and which logical core polls and fills which queue.  The
    driver library is the record [Eal]: the answers of its functions.  The calls
    that change a device are logged. *)

From S2P Require Import Prelude.

(** ** The driver library *)

Record EthDevInfo := {
  dev_max_rx_queues : Z; dev_max_tx_queues : Z; dev_max_rx_pktlen : Z; dev_max_mac_addrs : Z;
  dev_rx_offload_capa : Z; dev_tx_offload_capa : Z; dev_reta_size : Z; dev_hash_key_size : Z;
  dev_flow_type_rss_offloads : Z; dev_driver_name : option string;
}.
Record EthConf := { mq_mode : Z; rss_hf : Z }.

(** Calls that change a device, in the order they are made. *)
Inductive DevCall :=
| Configure (nb_rx nb_tx : Z) (conf : EthConf)
| RxQueueSetup (queue ring_size socket : Z)
| TxQueueSetup (queue ring_size socket : Z)
| Start
| PromiscuousEnable.

Record Eal := {
  rte_eth_dev_info_get : Z → Z * EthDevInfo;
  rte_eth_dev_socket_id : Z → Z;
  rte_eth_macaddr_get : Z → MacAddr;
  dev_call : Z → DevCall → Z;
  rte_eth_find_next : Z → Z;
  RTE_MAX_ETHPORTS : Z;
  rte_get_next_lcore : Z → Z;
  rte_lcore_to_socket_id : Z → Z;
  RTE_MAX_LCORE : Z;
}.

(** ** Capabilities *)

Definition TX_IPV4_CKSUM : Z := Z.shiftl 1 1.
Definition TX_UDP_CKSUM : Z := Z.shiftl 1 2.
Definition TX_TCP_CKSUM : Z := Z.shiftl 1 3.
Definition RX_IPV4_CKSUM : Z := Z.shiftl 1 1.
Definition RX_UDP_CKSUM : Z := Z.shiftl 1 2.
Definition RX_TCP_CKSUM : Z := Z.shiftl 1 3.
Definition MQ_MODE_RSS : Z := 1.
Definition RSS_IPV4 : Z := Z.shiftl 1 2.
Definition RSS_TCP_IPV4 : Z := Z.shiftl 1 4.
Definition RSS_UDP_IPV4 : Z := Z.shiftl 1 5.

Record PortInfo := {
  info_port_id : Z; driver_name : string; socket_id : Z; info_ether_addr : MacAddr;
  max_rx_queues : Z; max_tx_queues : Z; max_rx_pktlen : Z; max_mac_addrs : Z;
  rx_offload_capa : Z; tx_offload_capa : Z; reta_size : Z; hash_key_size : Z; flow_type_rss_offloads : Z;
}.

Definition rss_usable (i : PortInfo) : bool := (0 <? reta_size i) && negb (flow_type_rss_offloads i =? 0).
Definition supports_per_core_tx (i : PortInfo) (workers : Z) : bool := workers <=? max_tx_queues i.
Definition tx_checksum_offload (i : PortInfo) : bool :=
  let want := Z.lor (Z.lor TX_IPV4_CKSUM TX_UDP_CKSUM) TX_TCP_CKSUM in
  Z.land (tx_offload_capa i) want =? want.
Definition rx_checksum_offload (i : PortInfo) : bool :=
  let want := Z.lor (Z.lor RX_IPV4_CKSUM RX_UDP_CKSUM) RX_TCP_CKSUM in
  Z.land (rx_offload_capa i) want =? want.

Inductive PortError :=
| ErrConfigure (rc : Z) | ErrRxQueueSetup (queue rc : Z) | ErrTxQueueSetup (queue rc : Z)
| ErrStart (rc : Z) | ErrPromiscuous (rc : Z) | ErrInfo (rc : Z).

Definition info (eal : Eal) (p : Z) : PortError + PortInfo :=
  let '(rc, dev) := rte_eth_dev_info_get eal p in
  if negb (rc =? 0) then inl (ErrInfo rc)
  else inr {|
    info_port_id := p;
    driver_name := default "" (dev_driver_name dev);
    socket_id := Z.max (rte_eth_dev_socket_id eal p) 0;
    info_ether_addr := rte_eth_macaddr_get eal p;
    max_rx_queues := dev_max_rx_queues dev; max_tx_queues := dev_max_tx_queues dev;
    max_rx_pktlen := dev_max_rx_pktlen dev; max_mac_addrs := dev_max_mac_addrs dev;
    rx_offload_capa := dev_rx_offload_capa dev; tx_offload_capa := dev_tx_offload_capa dev;
    reta_size := dev_reta_size dev; hash_key_size := dev_hash_key_size dev;
    flow_type_rss_offloads := dev_flow_type_rss_offloads dev |}.

(** The loop of [all_ports]; [n] bounds its turns. *)
Fixpoint ports_from (eal : Eal) (n : nat) (p : Z) : list Z :=
  match n with
  | O => []
  | S n => if p <? RTE_MAX_ETHPORTS eal then p :: ports_from eal n (rte_eth_find_next eal (p + 1)) else []
  end.
Definition all_ports (eal : Eal) : list Z :=
  ports_from eal (Z.to_nat (RTE_MAX_ETHPORTS eal)) (rte_eth_find_next eal 0).

(** ** Initialisation *)

Record PortConfig := {
  conf_port_id : Z; nb_rx_queues : Z; nb_tx_queues : Z; rx_ring_size : Z; tx_ring_size : Z;
}.
Record PortSetup := { setup_port_id : Z; rx_queues : Z; tx_queues : Z; rss_enabled : bool }.

(** [Ord::clamp(lo, hi)] for [lo <= hi]. *)
Definition clamp (x lo hi : Z) : Z := if x <? lo then lo else if hi <? x then hi else x.

(** A device call that fails ends the initialisation. *)
Definition Init (A : Type) : Type := list DevCall * (PortError + A).
Definition init_ret {A} (a : A) : Init A := ([], inr a).
Definition init_bind {A B} (m : Init A) (k : A → Init B) : Init B :=
  match m with
  | (calls, inl e) => (calls, inl e)
  | (calls, inr a) => let '(calls', r) := k a in (calls ++ calls', r)
  end.
Definition init_call (eal : Eal) (p : Z) (c : DevCall) (err : Z → PortError) : Init unit :=
  let rc := dev_call eal p c in ([c], if rc <? 0 then inl (err rc) else inr ()).
Fixpoint init_each (qs : list Z) (f : Z → Init unit) : Init unit :=
  match qs with [] => init_ret () | q :: qs => init_bind (f q) (λ _, init_each qs f) end.

Definition init_port (eal : Eal) (config : PortConfig) : Init PortSetup :=
  let p := conf_port_id config in
  init_bind ([], info eal p) (λ info,
  let nb_rx := clamp (nb_rx_queues config) 1 (Z.max (max_rx_queues info) 1) in
  let nb_tx := clamp (nb_tx_queues config) 1 (Z.max (max_tx_queues info) 1) in
  let rss_enabled := (1 <? nb_rx) && rss_usable info in
  let eth_conf :=
    if rss_enabled then
      let desired := Z.lor (Z.lor RSS_IPV4 RSS_TCP_IPV4) RSS_UDP_IPV4 in
      {| mq_mode := MQ_MODE_RSS; rss_hf := Z.land desired (flow_type_rss_offloads info) |}
    else {| mq_mode := 0; rss_hf := 0 |} in
  init_bind (init_call eal p (Configure nb_rx nb_tx eth_conf) ErrConfigure) (λ _,
  let socket := if rte_eth_dev_socket_id eal p <? 0 then 0 else rte_eth_dev_socket_id eal p in
  init_bind (init_each (seqZ 0 nb_rx) (λ q,
    init_call eal p (RxQueueSetup q (rx_ring_size config) socket) (ErrRxQueueSetup q))) (λ _,
  init_bind (init_each (seqZ 0 nb_tx) (λ q,
    init_call eal p (TxQueueSetup q (tx_ring_size config) socket) (ErrTxQueueSetup q))) (λ _,
  init_bind (init_call eal p Start ErrStart) (λ _,
  init_bind (init_call eal p PromiscuousEnable ErrPromiscuous) (λ _,
  init_ret {| setup_port_id := p; rx_queues := nb_rx; tx_queues := nb_tx; rss_enabled := rss_enabled |})))))).

(** ** Queue assignment *)

Definition BURST : nat := 32.

Inductive RxPlan := Rss (queue_of : gmap Z Z) | SingleOwner (lcore : Z).
Record TxPlan := { lcore_to_queue : gmap Z Z; locks : nat }.
Record Port := { port_info : PortInfo; port_setup : PortSetup; rx : RxPlan; tx : TxPlan }.

(** [for (i, &lc) in lcores.iter().enumerate() { map.insert(lc, f(i)) }]. *)
Fixpoint insert_enumerated (f : nat → Z) (i : nat) (lcores : list Z) (m : gmap Z Z) : gmap Z Z :=
  match lcores with [] => m | lc :: lcores => insert_enumerated f (S i) lcores (<[lc := f i]> m) end.

(** [random] is the index that the random number generator picks. *)
Definition Port_new (setup : PortSetup) (info : PortInfo) (lcores : list Z) (random : nat) : outcome Port :=
  _ ← assert_ (negb (bool_decide (lcores = [])));
  rx ← (if rss_enabled setup
        then mret (Rss (insert_enumerated Z.of_nat 0 (firstn (Z.to_nat (rx_queues setup)) lcores) ∅))
        else lcore ← expect (lcores !! random); mret (SingleOwner lcore));
  let n_tx := Z.to_nat (Z.max (tx_queues setup) 1) in
  mret {| port_info := info; port_setup := setup; rx := rx;
          tx := {| lcore_to_queue := insert_enumerated (λ i, Z.of_nat (i `mod` n_tx)) 0 lcores ∅; locks := n_tx |} |}.

Definition is_rx_owner (p : Port) (lcore : Z) : bool :=
  match rx p with
  | Rss m => bool_decide (is_Some (m !! lcore))
  | SingleOwner o => lcore =? o
  end.
(** The queue that [receive] polls for a core. *)
Definition rx_queue (p : Port) (lcore : Z) : option Z :=
  match rx p with
  | Rss m => m !! lcore
  | SingleOwner owner => if lcore =? owner then Some 0 else None
  end.
(** The frames that [receive] returns; [burst q n] is what the driver has on queue [q]. *)
Definition receive {A} (burst : Z → nat → list A) (p : Port) (lcore : Z) : list A :=
  match rx_queue p lcore with
  | Some q => firstn BURST (burst q BURST)
  | None => []
  end.
(** The queue that [transmit_mbuf] uses, under the lock of that index. *)
Definition tx_queue (p : Port) (lcore : Z) : outcome Z :=
  let q := default 0 (lcore_to_queue (tx p) !! lcore) in
  if (Z.to_nat q <? locks (tx p))%nat then Ret q else Panic.

(** ** Logical cores *)

Record Lcore := { lcore_id : Z; lcore_socket : Z }.

Definition LcoreIter_new : Z := 2 ^ 32 - 1.
(** The iterator's next state and item. *)
Definition LcoreIter_next (eal : Eal) (curr : Z) : Z * option Lcore :=
  let nxt := rte_get_next_lcore eal curr in
  if RTE_MAX_LCORE eal <=? nxt then (RTE_MAX_LCORE eal, None)
  else (nxt, Some {| lcore_id := nxt; lcore_socket := rte_lcore_to_socket_id eal nxt |}).
Fixpoint lcores_from (eal : Eal) (n : nat) (curr : Z) : list Lcore :=
  match n with
  | O => []
  | S n => match LcoreIter_next eal curr with
           | (curr, Some l) => l :: lcores_from eal n curr
           | (_, None) => []
           end
  end.

(** ** [assign_ports] *)

(** [min_by_key]: the first of the least elements; [None] when there is none. *)
Fixpoint min_by_key {A} (key : A → outcome nat) (l : list A) : outcome (option A) :=
  match l with
  | [] => mret None
  | x :: l =>
    kx ← key x;
    best ← min_by_key key l;
    match best with
    | None => mret (Some x)
    | Some y => ky ← key y; mret (Some (if (ky <? kx)%nat then y else x))
    end
  end.

(** [load[&id]]: indexing a map panics on an absent key. *)
Definition load_at (load : gmap Z nat) (l : Lcore) : outcome nat := expect (load !! lcore_id l).

Fixpoint assign_loop (lcores : list Lcore) (ports : list PortInfo) (load : gmap Z nat) (acc : gmap Z Z)
    : outcome (gmap Z Z) :=
  match ports with
  | [] => mret acc
  | port :: ports =>
    near ← min_by_key (load_at load) (filter (λ l, lcore_socket l = socket_id port) lcores);
    selected ← (match near with
                | Some l => mret (Some l)
                | None => min_by_key (load_at load) lcores
                end);
    l ← expect selected;
    assign_loop lcores ports (<[lcore_id l := S (default 0%nat (load !! lcore_id l))]> load)
      (<[info_port_id port := lcore_id l]> acc)
  end.
Definition assign_ports (ports : list PortInfo) (lcores : list Lcore) : outcome (gmap Z Z) :=
  assign_loop lcores ports ∅ ∅.

(** ** Lemmas *)

Lemma clamp_bounds x hi : 1 ≤ hi → 1 ≤ clamp x 1 hi ≤ hi ∧ clamp x 1 hi ≤ Z.max x 1.
Proof. intros. unfold clamp. destruct (Z.ltb_spec x 1); [lia|]. destruct (Z.ltb_spec hi x); lia. Qed.

(** Who is in the map, and with which index. *)
Lemma insert_enumerated_Some f i lcores m lc q :
  insert_enumerated f i lcores m !! lc = Some q →
  (∃ j, lcores !! j = Some lc ∧ q = f (i + j)%nat) ∨ m !! lc = Some q.
Proof.
  revert i m. induction lcores as [|x lcores IH]; intros i m; cbn [insert_enumerated]; [auto|].
  intros [(j & Hj & ->)|H]%IH.
  - left. exists (S j). split; [done|]. f_equal. lia.
  - apply lookup_insert_Some in H as [[-> <-]|[_ H]]; [|auto]. left. exists 0%nat. by rewrite Nat.add_0_r.
Qed.
Lemma insert_enumerated_None f i lcores m lc :
  insert_enumerated f i lcores m !! lc = None ↔ lc ∉ lcores ∧ m !! lc = None.
Proof.
  revert i m. induction lcores as [|x lcores IH]; intros i m; cbn [insert_enumerated]; [set_solver|].
  rewrite IH, lookup_insert_None. set_solver.
Qed.

(** A run of the initialisation: if it succeeds every call did, otherwise it
    stopped at the first call that failed, and says which. *)
Definition orderly {A} (eal : Eal) (p : Z) (m : Init A) : Prop :=
  match m with
  | (calls, inr _) => Forall (λ c, 0 ≤ dev_call eal p c) calls
  | (calls, inl e) =>
    ∃ pre c, calls = pre ++ [c] ∧ Forall (λ c, 0 ≤ dev_call eal p c) pre ∧ dev_call eal p c < 0 ∧
      e = match c with
          | Configure _ _ _ => ErrConfigure (dev_call eal p c)
          | RxQueueSetup q _ _ => ErrRxQueueSetup q (dev_call eal p c)
          | TxQueueSetup q _ _ => ErrTxQueueSetup q (dev_call eal p c)
          | Start => ErrStart (dev_call eal p c)
          | PromiscuousEnable => ErrPromiscuous (dev_call eal p c)
          end
  end.

Lemma orderly_bind {A B} eal p (m : Init A) (k : A → Init B) :
  orderly eal p m → (∀ a, orderly eal p (k a)) → orderly eal p (init_bind m k).
Proof.
  destruct m as [calls [e|a]]; [done|]. cbn [orderly init_bind]. intros Hm Hk. specialize (Hk a).
  destruct (k a) as [calls' [e|b]]; cbn [orderly] in *.
  - destruct Hk as (pre & c & -> & Hp & Hc & ->). exists (calls ++ pre), c. rewrite app_assoc.
    split_and!; [done| |done|done]. by apply Forall_app.
  - by apply Forall_app.
Qed.
Lemma orderly_call eal p c err :
  (err = match c with
         | Configure _ _ _ => ErrConfigure | RxQueueSetup q _ _ => ErrRxQueueSetup q
         | TxQueueSetup q _ _ => ErrTxQueueSetup q | Start => ErrStart | PromiscuousEnable => ErrPromiscuous
         end) → orderly eal p (init_call eal p c err).
Proof.
  intros ->. unfold init_call. destruct (Z.ltb_spec (dev_call eal p c) 0); cbn [orderly].
  - exists [], c. split_and!; [done|constructor|done|by destruct c].
  - by repeat constructor.
Qed.
Lemma orderly_each eal p qs f : (∀ q, orderly eal p (f q)) → orderly eal p (init_each qs f).
Proof.
  intros Hf. induction qs as [|q qs IH]; cbn [init_each]; [by constructor|]. by apply orderly_bind.
Qed.

(** What a successful run has done. *)
Lemma init_bind_inr {A B} (m : Init A) (k : A → Init B) calls b :
  init_bind m k = (calls, inr b) → ∃ c1 a c2, m = (c1, inr a) ∧ k a = (c2, inr b) ∧ calls = c1 ++ c2.
Proof.
  destruct m as [c1 [e|a]]; cbn; [done|]. destruct (k a) as [c2 [e|b']] eqn:E; [done|].
  intros [= <- <-]. by exists c1, a, c2.
Qed.
Lemma init_call_inr eal p c err calls u : init_call eal p c err = (calls, inr u) → calls = [c].
Proof. unfold init_call. case_match; naive_solver. Qed.
Lemma init_each_inr eal p (call : Z → DevCall) err qs calls u :
  init_each qs (λ q, init_call eal p (call q) (err q)) = (calls, inr u) → calls = call <$> qs.
Proof.
  revert calls. induction qs as [|q qs IH]; cbn [init_each]; intros calls; [by intros [= <- <-]|].
  intros (c1 & [] & c2 & E1%init_call_inr & E2%IH & ->)%init_bind_inr. by subst.
Qed.

Lemma init_port_orderly eal config i :
  info eal (conf_port_id config) = inr i → orderly eal (conf_port_id config) (init_port eal config).
Proof.
  intros Ei. unfold init_port. cbn zeta. rewrite Ei. apply orderly_bind; [by constructor|]. intros i'.
  repeat (apply orderly_bind; [first [by apply orderly_call | by apply orderly_each; intros q; apply orderly_call]|intros _]).
  by constructor.
Qed.

Lemma Port_new_total setup info lcores random :
  lcores ≠ [] → (random < length lcores)%nat →
  ∃ p, Port_new setup info lcores random = Ret p ∧ port_info p = info ∧ port_setup p = setup.
Proof.
  intros Hne Hr. unfold Port_new. rewrite bool_decide_false by done. cbn. destruct (rss_enabled setup); [by eexists|].
  destruct (lookup_lt_is_Some_2 lcores random Hr) as [o ->]. by eexists.
Qed.

(** ** Properties *)

(** C28: initialising a port asks for at least one queue in each direction and
    for no more than the device offers or the caller wanted (one at least);
    hashing is enabled over the types of IPv4 traffic that the device advertises,
    and over no others; a success has
    configured the device, set up every queue, started the port and made it
    promiscuous, in this order, and the device has accepted every one of these
    calls; a failure stops at the first failing call and reports
    it with its code. *)
Theorem init_port_within_limits (eal : Eal) (config : PortConfig) :
  let p := conf_port_id config in
  match init_port eal config with
  | (calls, inr s) => ∃ i hf sock, info eal p = inr i ∧
      1 ≤ rx_queues s ≤ Z.max (max_rx_queues i) 1 ∧ rx_queues s ≤ Z.max (nb_rx_queues config) 1 ∧
      1 ≤ tx_queues s ≤ Z.max (max_tx_queues i) 1 ∧ tx_queues s ≤ Z.max (nb_tx_queues config) 1 ∧
      0 ≤ sock ∧ Z.land hf (flow_type_rss_offloads i) = hf ∧
      hf = (if rss_enabled s then Z.land (Z.lor (Z.lor RSS_IPV4 RSS_TCP_IPV4) RSS_UDP_IPV4) (flow_type_rss_offloads i) else 0) ∧
      setup_port_id s = p ∧ Forall (λ c, 0 ≤ dev_call eal p c) calls ∧
      (rss_enabled s = true ↔ 1 < rx_queues s ∧ rss_usable i = true) ∧
      calls = [Configure (rx_queues s) (tx_queues s) {| mq_mode := if rss_enabled s then MQ_MODE_RSS else 0; rss_hf := hf |}] ++
        ((λ q, RxQueueSetup q (rx_ring_size config) sock) <$> seqZ 0 (rx_queues s)) ++
        ((λ q, TxQueueSetup q (tx_ring_size config) sock) <$> seqZ 0 (tx_queues s)) ++ [Start; PromiscuousEnable]
  | (calls, inl e) => calls = [] ∧ info eal p = inl e ∨ orderly eal p (calls, inl e : PortError + PortSetup)
  end.
Proof.
  cbn zeta. destruct (init_port eal config) as [calls [e|s]] eqn:E.
  - destruct (info eal (conf_port_id config)) as [e'|i] eqn:Ei.
    + left. unfold init_port in E. cbn zeta in E. rewrite Ei in E. cbn in E. naive_solver.
    + right. rewrite <- E. by eapply init_port_orderly.
  - assert (∃ i, info eal (conf_port_id config) = inr i) as [i0 Ei0].
    { destruct (info eal (conf_port_id config)) as [e|i] eqn:Ei; [|by exists i].
      unfold init_port in E. cbn zeta in E. rewrite Ei in E. cbn in E. naive_solver. }
    pose proof (init_port_orderly eal config i0 Ei0) as Hacc. rewrite E in Hacc. cbn [orderly] in Hacc. clear i0 Ei0.
    unfold init_port in E. cbn zeta in E. apply init_bind_inr in E as (c1 & i & c2 & E1 & E & ->). injection E1 as <- Ei.
    apply init_bind_inr in E as (c3 & [] & c4 & ->%init_call_inr & E & ->).
    apply init_bind_inr in E as (c5 & [] & c6 & ->%init_each_inr & E & ->).
    apply init_bind_inr in E as (c7 & [] & c8 & ->%init_each_inr & E & ->).
    apply init_bind_inr in E as (c9 & [] & c10 & ->%init_call_inr & E & ->).
    apply init_bind_inr in E as (c11 & [] & c12 & ->%init_call_inr & E & ->). injection E as <- <-.
    cbn [rx_queues tx_queues rss_enabled].
    set (on := (1 <? clamp (nb_rx_queues config) 1 (Z.max (max_rx_queues i) 1)) && rss_usable i).
    exists i, (if on then Z.land (Z.lor (Z.lor RSS_IPV4 RSS_TCP_IPV4) RSS_UDP_IPV4) (flow_type_rss_offloads i) else 0),
      (if rte_eth_dev_socket_id eal (conf_port_id config) <? 0 then 0 else rte_eth_dev_socket_id eal (conf_port_id config)).
    destruct (clamp_bounds (nb_rx_queues config) (Z.max (max_rx_queues i) 1)) as [? ?]; [lia|].
    destruct (clamp_bounds (nb_tx_queues config) (Z.max (max_tx_queues i) 1)) as [? ?]; [lia|].
    split; [done|]. do 4 (split; [lia|]). split; [by destruct (Z.ltb_spec (rte_eth_dev_socket_id eal (conf_port_id config)) 0)|].
    split; [by destruct on; [rewrite <- Z.land_assoc, Z.land_diag|]|]. split; [done|]. split; [done|]. split; [exact Hacc|].
    split; [unfold on; by rewrite andb_true_iff, Z.ltb_lt|]. by destruct on.
Qed.

(** The polled queue of a core is its position among the cores of the port. *)
Lemma rx_queue_Some setup info lcores random p lc q :
  Port_new setup info lcores random = Ret p → rx_queue p lc = Some q →
  if rss_enabled setup then 0 ≤ q ∧ q < rx_queues setup ∧ lcores !! Z.to_nat q = Some lc
  else q = 0 ∧ lcores !! random = Some lc.
Proof.
  unfold Port_new, rx_queue. destruct (bool_decide (lcores = [])); cbn; [done|].
  destruct (rss_enabled setup); cbn.
  - intros [= <-]. cbn. intros [(j & Hj & ->)|H]%insert_enumerated_Some; [|by rewrite lookup_empty in H].
    cbn. apply lookup_take_Some in Hj as [Hj Hlt]. rewrite Nat2Z.id. split_and!; [lia|lia|done].
  - destruct (lcores !! random) as [o|] eqn:E; cbn; [|done]. intros [= <-]. cbn.
    destruct (Z.eqb_spec lc o); [|done]. intros [= <-]. by subst.
Qed.

Lemma tx_queue_spec setup info lcores random p lc :
  Port_new setup info lcores random = Ret p →
  ∃ q, tx_queue p lc = Ret q ∧ 0 ≤ q < Z.max (tx_queues setup) 1 ∧
    (lc ∈ lcores → ∃ j, lcores !! j = Some lc ∧ q = Z.of_nat j mod Z.max (tx_queues setup) 1).
Proof.
  intros Hp. assert (tx p = {| lcore_to_queue := insert_enumerated
    (λ i, Z.of_nat (i `mod` Z.to_nat (Z.max (tx_queues setup) 1))) 0 lcores ∅; locks := Z.to_nat (Z.max (tx_queues setup) 1) |}) as Et.
  { revert Hp. unfold Port_new. destruct (bool_decide _); cbn; [done|]. destruct (rss_enabled setup); cbn; [by intros [= <-]|].
    destruct (lcores !! random); cbn; [by intros [= <-]|done]. }
  unfold tx_queue. rewrite Et. cbn [lcore_to_queue locks]. set (n := Z.max (tx_queues setup) 1).
  assert (1 ≤ n) by lia. destruct (insert_enumerated _ _ _ _ !! lc) as [q|] eqn:E; cbn [default from_option].
  - apply insert_enumerated_Some in E as [(j & Hj & ->)|E]; [|by rewrite lookup_empty in E]. cbn [Nat.add id].
    rewrite Nat2Z.inj_mod, Z2Nat.id by lia. pose proof (Z.mod_pos_bound (Z.of_nat j) n ltac:(lia)).
    exists (Z.of_nat j mod n). split; [|split; [lia|eauto]]. by rewrite (proj2 (Nat.ltb_lt _ _)) by lia.
  - apply insert_enumerated_None in E as [Hni _]. exists 0. cbn [id]. split; [|split; [lia|done]].
    by rewrite (proj2 (Nat.ltb_lt _ _)) by lia.
Qed.

(** C27: queue ownership: a port is built for every non-empty list of cores (given
    a random index within it); then no two cores ever poll the same receive
    queue, every polled queue is one of the configured ones, [is_rx_owner] tells
    exactly the polling cores and a core that is not one receives nothing;
    transmitting never indexes a queue lock out of range, also from a core
    outside the list; and with a transmit queue for each core no two cores of
    the port share one. *)
Theorem queues_exclusively_owned (setup : PortSetup) (info : PortInfo) (lcores : list Z) (random : nat)
    (Hne : lcores ≠ []) (Hrandom : (random < length lcores)%nat) (Hrx : 1 ≤ rx_queues setup) :
  ∃ p, Port_new setup info lcores random = Ret p ∧
    (∀ a b q, rx_queue p a = Some q → rx_queue p b = Some q → a = b) ∧
    (∀ a q, rx_queue p a = Some q → 0 ≤ q < rx_queues setup ∧ a ∈ lcores) ∧
    (∀ a, is_rx_owner p a = true ↔ is_Some (rx_queue p a)) ∧
    (∀ a (burst : Z → nat → list bytes), is_rx_owner p a = false → receive burst p a = []) ∧
    (∀ a, ∃ q, tx_queue p a = Ret q ∧ 0 ≤ q < Z.max (tx_queues setup) 1) ∧
    (Z.of_nat (length lcores) ≤ tx_queues setup →
     ∀ a b, a ∈ lcores → b ∈ lcores → tx_queue p a = tx_queue p b → a = b).
Proof.
  destruct (Port_new_total setup info lcores random Hne Hrandom) as (p & Hp & _).
  assert (∀ a, is_rx_owner p a = true ↔ is_Some (rx_queue p a)) as Hown.
  { intros a. unfold is_rx_owner, rx_queue. destruct (rx p); [by rewrite bool_decide_eq_true|]. destruct (_ =? _); naive_solver. }
  exists p. split_and!; [done| | |done| | |].
  - intros a b q Ha Hb. pose proof (rx_queue_Some _ _ _ _ _ _ _ Hp Ha). pose proof (rx_queue_Some _ _ _ _ _ _ _ Hp Hb).
    destruct (rss_enabled setup); naive_solver congruence.
  - intros a q Ha. pose proof (rx_queue_Some _ _ _ _ _ _ _ Hp Ha) as H.
    destruct (rss_enabled setup); destruct_and!; (split; [lia|by eapply list_elem_of_lookup_2]).
  - intros a burst Ha. unfold receive. destruct (rx_queue p a) eqn:E; [|done].
    by rewrite (proj2 (Hown a)) in Ha by (rewrite E; eauto).
  - intros a. destruct (tx_queue_spec _ _ _ _ _ a Hp) as (q & E & Hq & _). eauto.
  - intros Hlen a b Ha Hb E. destruct (tx_queue_spec _ _ _ _ _ a Hp) as (qa & Ea & _ & Hja).
    destruct (tx_queue_spec _ _ _ _ _ b Hp) as (qb & Eb & _ & Hjb).
    destruct (Hja Ha) as (i & Hi & ->), (Hjb Hb) as (j & Hj & ->). rewrite Ea, Eb in E. injection E as E.
    pose proof (lookup_lt_Some _ _ _ Hi). pose proof (lookup_lt_Some _ _ _ Hj).
    rewrite !Z.mod_small in E by lia. apply Nat2Z.inj in E. congruence.
Qed.

Definition sample_info : PortInfo :=
  {| info_port_id := 0; driver_name := "net_ixgbe"; socket_id := 0; info_ether_addr := [2; 0; 0; 0; 0; 9];
     max_rx_queues := 4; max_tx_queues := 4; max_rx_pktlen := 1518; max_mac_addrs := 1; rx_offload_capa := 14;
     tx_offload_capa := 14; reta_size := 128; hash_key_size := 40; flow_type_rss_offloads := 52 |}.
Definition sample_setup (rss : bool) : PortSetup :=
  {| setup_port_id := 0; rx_queues := 4; tx_queues := 2; rss_enabled := rss |}.

Lemma queues_exclusively_owned_witness :
  ∃ p, Port_new (sample_setup true) sample_info [3; 5] 1 = Ret p ∧
    (∀ a b q, rx_queue p a = Some q → rx_queue p b = Some q → a = b).
Proof.
  destruct (queues_exclusively_owned (sample_setup true) sample_info [3; 5] 1) as (p & Hp & H & _);
    [done|decide_now|decide_now|]. by exists p.
Defined.

(** With hashing over more queues than the port has cores, the last queues are
    polled by nobody: what the device puts there is never received. *)
Lemma unpolled_queue setup info lcores random p q :
  Port_new setup info lcores random = Ret p → rss_enabled setup = true →
  Z.of_nat (length lcores) ≤ q < rx_queues setup → ∀ lc, rx_queue p lc ≠ Some q.
Proof.
  intros Hp Hrss Hq lc H. pose proof (rx_queue_Some _ _ _ _ _ _ _ Hp H) as Hl. rewrite Hrss in Hl.
  destruct Hl as (_ & _ & Hl). apply lookup_lt_Some in Hl. lia.
Qed.

(** [assign_ports] panics on every non-empty list of ports: the load map it
    indexes starts empty. *)
Lemma assign_ports_panics port ports lcores : assign_ports (port :: ports) lcores = Panic.
Proof.
  assert (∀ l, l ≠ [] → min_by_key (load_at ∅) l = Panic) as Hmin.
  { intros [|x l]; [done|]. intros _. cbn [min_by_key]. unfold load_at. by rewrite lookup_empty. }
  unfold assign_ports. cbn [assign_loop]. destruct (filter _ lcores) as [|x l] eqn:E.
  - cbn. destruct lcores; [done|]. rewrite Hmin by done. reflexivity.
  - rewrite (Hmin (x :: l)) by done. reflexivity.
Qed.

(** The port enumeration: [find_next] is documented to return the first valid
    port from its argument on, or the maximum. *)
Section enumeration.
Context (eal : Eal) (valid : Z → bool).
Hypothesis find_next_spec : ∀ i, 0 ≤ i → i ≤ rte_eth_find_next eal i ∧
  (∀ j, i ≤ j < rte_eth_find_next eal i → valid j = false) ∧
  (rte_eth_find_next eal i < RTE_MAX_ETHPORTS eal → valid (rte_eth_find_next eal i) = true).

Lemma ports_from_spec n i : 0 ≤ i → RTE_MAX_ETHPORTS eal ≤ i + Z.of_nat n →
  ∀ j, j ∈ ports_from eal n (rte_eth_find_next eal i) ↔ i ≤ j < RTE_MAX_ETHPORTS eal ∧ valid j = true.
Proof.
  revert i. induction n as [|n IH]; intros i Hi Hn j; destruct (find_next_spec i Hi) as (Hle & Hno & Hv); cbn [ports_from].
  - rewrite elem_of_nil. split; [done|lia].
  - set (f := rte_eth_find_next eal i) in *. destruct (Z.ltb_spec f (RTE_MAX_ETHPORTS eal)) as [Hf|Hf].
    + rewrite elem_of_cons, IH by lia. split.
      * intros [->|[? ?]]; [auto with lia|split; [lia|done]].
      * intros [Hj Hvj]. destruct (decide (j < f)); [by rewrite Hno in Hvj by lia|].
        destruct (decide (j = f)); [auto|]. right. split; [lia|done].
    + rewrite elem_of_nil. split; [done|]. intros [Hj Hvj]. by rewrite Hno in Hvj by lia.
Qed.

(** [all_ports] lists exactly the valid ports. *)
Lemma all_ports_spec j : j ∈ all_ports eal ↔ 0 ≤ j < RTE_MAX_ETHPORTS eal ∧ valid j = true.
Proof. unfold all_ports. apply ports_from_spec; lia. Qed.
End enumeration.
