(* ===== verification/Mbuf.v ===== *)
(** * Packet buffers ([src/dpdk/mbuf.rs], [src/dpdk/mempool.rs], [src/dpdk/port.rs])

    An [Mbuf] is the unique owner of a buffer of the driver library: it is freed
    when it goes out of scope, or handed over with [into_raw].  The library is
    the class [Dpdk]; its state is seen through the buffers that the program
    owns and the packets that were accepted for transmission.  Using or freeing
    a buffer that the program does not own is undefined behaviour, here [Panic];
    so is reading or writing outside of a buffer.

    The laws are those of the library's documentation for packets of one
    segment (scattered reception is not configured). *)

From S2P Require Import Prelude Wire Ethernet Ip Udp Tcp View PortPlan.

(** ** The driver library *)

Abbreviation ptr := Z (only parsing).
Definition null : ptr := 0.

Record rte_mbuf := { buf_addr : Z; buf : bytes; data_off : nat; m_data_len : nat; m_pkt_len : nat }.

(** The packet that a buffer holds. *)
Definition contents (b : rte_mbuf) : bytes := slice (data_off b) (m_data_len b) (buf b).
Definition tailroom (b : rte_mbuf) : nat := (length (buf b) - (data_off b + m_data_len b))%nat.
(** The data lies in the buffer, and its length in its 16-bit field. *)
Definition mbuf_wf (b : rte_mbuf) : Prop :=
  (data_off b + m_data_len b ≤ length (buf b))%nat ∧ 0 < buf_addr b ∧ Z.of_nat (m_data_len b) < 2 ^ 16.
Definition extend (b : rte_mbuf) (n : nat) : rte_mbuf :=
  {| buf_addr := buf_addr b; buf := buf b; data_off := data_off b; m_data_len := (m_data_len b + n)%nat;
     m_pkt_len := (m_pkt_len b + n)%nat |}.
Definition with_buf (b : rte_mbuf) (bs : bytes) : rte_mbuf :=
  {| buf_addr := buf_addr b; buf := bs; data_off := data_off b; m_data_len := m_data_len b; m_pkt_len := m_pkt_len b |}.

Class Dpdk (W : Type) := {
  owned : W → gmap ptr rte_mbuf;
  sent : W → list (Z * Z * bytes);
  (** a store of the program into a buffer *)
  poke : ptr → bytes → W → W;
  rte_pktmbuf_alloc : ptr → W → ptr * W;
  rte_pktmbuf_free : ptr → W → W;
  rte_pktmbuf_append : ptr → nat → W → ptr * W;
  (** port, queue and room; the pointers stored *)
  rte_eth_rx_burst : Z → Z → nat → W → list ptr * W;
  (** port, queue and one packet; the number accepted *)
  rte_eth_tx_burst : Z → Z → ptr → W → nat * W;
  rte_pktmbuf_pool_create : bytes → Z → Z → Z → Z → Z → W → ptr * W;
  rte_mempool_free : ptr → W → W;
}.

Class DpdkLaws (W : Type) `{Dpdk W} := {
  poke_law : ∀ p bs w b, owned w !! p = Some b →
    owned (poke p bs w) = <[p := with_buf b bs]> (owned w) ∧ sent (poke p bs w) = sent w;
  alloc_law : ∀ pool w p w', rte_pktmbuf_alloc pool w = (p, w') →
    sent w' = sent w ∧
    if p =? null then owned w' = owned w
    else owned w !! p = None ∧
      ∃ b, mbuf_wf b ∧ m_data_len b = 0%nat ∧ m_pkt_len b = 0%nat ∧ owned w' = <[p := b]> (owned w);
  free_law : ∀ p w, is_Some (owned w !! p) →
    owned (rte_pktmbuf_free p w) = delete p (owned w) ∧ sent (rte_pktmbuf_free p w) = sent w;
  append_law : ∀ p n w t w' b, owned w !! p = Some b → rte_pktmbuf_append p n w = (t, w') →
    sent w' = sent w ∧
    if bool_decide (n ≤ tailroom b)%nat
    then t = buf_addr b + Z.of_nat (data_off b + m_data_len b) ∧ owned w' = <[p := extend b n]> (owned w)
    else t = null ∧ owned w' = owned w;
  rx_law : ∀ port q n w ps w', rte_eth_rx_burst port q n w = (ps, w') →
    sent w' = sent w ∧ (length ps ≤ n)%nat ∧ NoDup ps ∧
    ∃ new, owned w' = new ∪ owned w ∧ new ##ₘ owned w ∧ dom new = list_to_set ps ∧
      map_Forall (λ p b, p ≠ null ∧ mbuf_wf b ∧ m_pkt_len b = m_data_len b) new;
  tx_law : ∀ port q p w n w' b, owned w !! p = Some b → rte_eth_tx_burst port q p w = (n, w') →
    if bool_decide (n = 0)%nat then owned w' = owned w ∧ sent w' = sent w
    else owned w' = delete p (owned w) ∧ sent w' = sent w ++ [(port, q, contents b)];
}.

Section mbuf.
Context {W : Type} `{Dpdk W}.

(** ** [Mbuf] *)

Record Mbuf := { raw : ptr }.

(** [NonNull::new]. *)
Definition from_raw (p : ptr) : option Mbuf := if p =? null then None else Some {| raw := p |}.
Definition into_raw (m : Mbuf) : ptr := raw m.
Definition as_ptr (m : Mbuf) : ptr := raw m.
Definition as_mut_ptr (m : Mbuf) : ptr := raw m.

Definition mbuf_alloc (pool : ptr) (w : W) : option Mbuf * W :=
  let '(m, w) := rte_pktmbuf_alloc pool w in (from_raw m, w).

(** [*self.raw.as_ptr()]. *)
Definition deref (m : Mbuf) (w : W) : outcome rte_mbuf := expect (owned w !! raw m).

Definition data_len (m : Mbuf) (w : W) : outcome nat := b ← deref m w; mret (m_data_len b).
Definition pkt_len (m : Mbuf) (w : W) : outcome nat := b ← deref m w; mret (m_pkt_len b).
Definition data_ptr (m : Mbuf) (w : W) : outcome Z := b ← deref m w; mret (buf_addr b + Z.of_nat (data_off b)).

(** [slice::from_raw_parts]: [n] bytes at an address of the buffer. *)
Definition from_raw_parts (m : Mbuf) (addr : Z) (n : nat) (w : W) : outcome bytes :=
  b ← deref m w;
  _ ← assert_ (buf_addr b <=? addr);
  let o := Z.to_nat (addr - buf_addr b) in
  get_range (buf b) o (o + n).
(** [slice::from_raw_parts_mut]: [f] is what the caller does to the bytes and
    the value it computes. *)
Definition from_raw_parts_mut {A} (m : Mbuf) (addr : Z) (n : nat) (f : bytes → outcome (bytes * A)) (w : W)
    : outcome (A * W) :=
  b ← deref m w;
  _ ← assert_ (buf_addr b <=? addr);
  let o := Z.to_nat (addr - buf_addr b) in
  d ← get_range (buf b) o (o + n);
  r ← f d;
  bs ← copy_range (buf b) o (o + n) r.1;
  mret (r.2, poke (raw m) bs w).

Definition data (m : Mbuf) (w : W) : outcome bytes :=
  p ← data_ptr m w; n ← data_len m w; from_raw_parts m p n w.
Definition data_mut {A} (m : Mbuf) (f : bytes → outcome (bytes * A)) (w : W) : outcome (A * W) :=
  p ← data_ptr m w; n ← data_len m w; from_raw_parts_mut m p n f w.

Definition ethernet (m : Mbuf) (w : W) : outcome (option EthernetView) :=
  d ← data m w; mret (EthernetView_parse d).

(** The caller edits the header with [f]. *)
Definition header_at_mut {T} `{Pod T} (m : Mbuf) (offset : nat) (f : T → T) (w : W) : outcome (option unit * W) :=
  data_mut m (λ d,
    if bool_decide (offset ≤ length d)%nat then
      let '(rest, r) := mut_from (skipn offset d) f in mret (firstn offset d ++ rest, r)
    else mret (d, None)) w.

(** The address of the new bytes. *)
Definition append (m : Mbuf) (len : nat) (w : W) : option ptr * W :=
  let '(tail, w) := rte_pktmbuf_append (raw m) len w in
  if tail =? null then (None, w) else (Some tail, w).

Definition drop_mbuf (m : Mbuf) (w : W) : outcome W := _ ← deref m w; mret (rte_pktmbuf_free (raw m) w).

(** ** [MemPool]; a [SharedMemPool] is one behind a lock *)

Record MemPool := { pool : ptr }.

Definition create (name : bytes) (num_mbufs cache_size mbuf_size socket : Z) (w : W) : outcome (option MemPool * W) :=
  _ ← assert_ (negb (bool_decide (0 ∈ name)));
  let '(p, w) := rte_pktmbuf_pool_create name num_mbufs cache_size 0 mbuf_size socket w in
  mret (if p =? null then None else Some {| pool := p |}, w).
Definition pool_from_raw (p : ptr) : outcome MemPool :=
  _ ← assert_ (negb (p =? null)); mret {| pool := p |}.
Definition pool_alloc (p : MemPool) (w : W) : option Mbuf * W := mbuf_alloc (pool p) w.
Definition drop_pool (p : MemPool) (w : W) : W := rte_mempool_free (pool p) w.

Record SharedMemPool := { inner : MemPool }.
Definition shared_from (p : MemPool) : SharedMemPool := {| inner := p |}.
Definition shared_alloc (p : SharedMemPool) (w : W) : option Mbuf * W := pool_alloc (inner p) w.
Definition raw_ptr (p : SharedMemPool) : ptr := pool (inner p).

(** ** Ports *)

Record NicPort := { nic : PortPlan.Port; mempool : SharedMemPool }.
Definition nic_id (p : NicPort) : Z := info_port_id (port_info (nic p)).
Definition port_alloc (p : NicPort) (w : W) : option Mbuf * W := shared_alloc (mempool p) w.

Definition receive_mbufs (p : NicPort) (lcore : Z) (w : W) : list Mbuf * W :=
  match rx_queue (nic p) lcore with
  | Some q => let '(bufs, w) := rte_eth_rx_burst (nic_id p) q BURST w in (omap from_raw bufs, w)
  | None => ([], w)
  end.

Definition transmit_mbuf (p : NicPort) (lcore : Z) (m : Mbuf) (w : W) : outcome (bool * W) :=
  q ← tx_queue (nic p) lcore;
  let raw := into_raw m in
  let '(n, w) := rte_eth_tx_burst (nic_id p) q raw w in
  if bool_decide (n = 0)%nat then
    match from_raw raw with
    | Some m => w ← drop_mbuf m w; mret (false, w)
    | None => mret (false, w)
    end
  else mret (true, w).

(** [frame.len() as u16] drops the high bits; [copy_from_slice] panics on
    slices of different lengths. *)
Definition transmit_frame (p : NicPort) (lcore : Z) (frame : bytes) (w : W) : outcome (bool * W) :=
  match port_alloc p w with
  | (None, w) => mret (false, w)
  | (Some m, w) =>
    let n := Z.to_nat (Z.of_nat (length frame) mod 2 ^ 16) in
    match append m n w with
    | (None, w) => w ← drop_mbuf m w; mret (false, w)
    | (Some dst, w) =>
      r ← from_raw_parts_mut m dst n (λ d, _ ← assert_ (bool_decide (length d = length frame)); mret (frame, ())) w;
      transmit_mbuf p lcore m r.2
    end
  end.

(** Handing a packet to several ports: a copy to each, then the buffer goes out of scope. *)
Fixpoint transmit_each (ports : list NicPort) (lcore : Z) (frame : bytes) (w : W) : outcome W :=
  match ports with
  | [] => mret w
  | p :: ports => r ← transmit_frame p lcore frame w; transmit_each ports lcore frame r.2
  end.
Definition flood (ports : list NicPort) (lcore : Z) (m : Mbuf) (w : W) : outcome W :=
  d ← data m w; w ← transmit_each ports lcore d w; drop_mbuf m w.
End mbuf.

(** ** Lemmas *)

Section lemmas.
Context {W : Type} `{DpdkLaws W}.
Implicit Types (w : W) (m : Mbuf) (b : rte_mbuf).

Lemma addr_offset a o : a <=? a + Z.of_nat o = true ∧ Z.to_nat (a + Z.of_nat o - a) = o.
Proof. split; [apply Z.leb_le|]; lia. Qed.

Lemma data_Ret m w b : owned w !! raw m = Some b → mbuf_wf b → data m w = Ret (contents b).
Proof.
  intros E [Hl _]. unfold data, data_ptr, data_len, from_raw_parts, deref. rewrite E. cbn [expect mbind outcome_bind mret outcome_ret].
  destruct (addr_offset (buf_addr b) (data_off b)) as [-> ->]. cbn [assert_ mbind outcome_bind].
  rewrite get_range_Ret by lia. f_equal. unfold contents. f_equal. lia.
Qed.

(** What a caller does to the data of a packet. *)
Lemma data_mut_Ret {A} m w b (f : bytes → outcome (bytes * A)) d (a : A) :
  owned w !! raw m = Some b → mbuf_wf b → f (contents b) = Ret (d, a) → length d = length (contents b) →
  data_mut m f w = Ret (a, poke (raw m) (splice (data_off b) d (buf b)) w).
Proof.
  intros E [Hl _] Ef Hd. assert (length (contents b) = m_data_len b) as Lc by (apply length_slice; lia).
  unfold data_mut, data_ptr, data_len, from_raw_parts_mut, deref. rewrite E. cbn [expect mbind outcome_bind mret outcome_ret].
  destruct (addr_offset (buf_addr b) (data_off b)) as [-> ->]. cbn [assert_ mbind outcome_bind].
  rewrite get_range_Ret by lia. replace (data_off b + m_data_len b - data_off b)%nat with (m_data_len b) by lia.
  fold (contents b). cbn [mbind outcome_bind]. rewrite Ef. cbn [fst snd mbind outcome_bind].
  by rewrite copy_range_Ret by lia.
Qed.
Lemma contents_splice b d :
  mbuf_wf b → length d = length (contents b) → contents (with_buf b (splice (data_off b) d (buf b))) = d.
Proof.
  intros [Hl _] Hd. assert (length (contents b) = m_data_len b) as Lc by (apply length_slice; lia).
  unfold contents at 1. cbn [data_off m_data_len buf with_buf]. rewrite <- Lc, <- Hd. apply slice_splice_eq. lia.
Qed.

(** An owned buffer is consumed by [transmit_mbuf], accepted or not. *)
Lemma transmit_mbuf_spec p lcore m w b q :
  tx_queue (nic p) lcore = Ret q → owned w !! raw m = Some b → raw m ≠ null →
  ∃ ok w', transmit_mbuf p lcore m w = Ret (ok, w') ∧ owned w' = delete (raw m) (owned w) ∧
    sent w' = sent w ++ (if ok : bool then [(nic_id p, q, contents b)] else []).
Proof.
  intros Eq Em Hn. unfold transmit_mbuf. rewrite Eq. cbn [mbind outcome_bind]. unfold into_raw.
  destruct (rte_eth_tx_burst _ _ _ _) as [n w1] eqn:Et. pose proof (tx_law _ _ _ _ _ _ _ Em Et) as Hl.
  case_bool_decide as Hz; destruct Hl as [Ho Hs].
  - unfold from_raw. rewrite (proj2 (Z.eqb_neq _ _) Hn). unfold drop_mbuf, deref. cbn [raw]. rewrite Ho, Em.
    cbn [expect mbind outcome_bind mret outcome_ret]. destruct (free_law (raw m) w1) as [Hf Hs']; [by rewrite Ho, Em|].
    exists false, (rte_pktmbuf_free (raw m) w1). by rewrite Hf, Hs', Ho, Hs, app_nil_r.
  - exists true, w1. by rewrite Hs.
Qed.

Lemma transmit_frame_spec p lcore frame w q :
  tx_queue (nic p) lcore = Ret q → Z.of_nat (length frame) < 2 ^ 16 →
  ∃ ok w', transmit_frame p lcore frame w = Ret (ok, w') ∧ owned w' = owned w ∧
    sent w' = sent w ++ (if ok : bool then [(nic_id p, q, frame)] else []).
Proof.
  intros Eq Hlen. unfold transmit_frame, port_alloc, shared_alloc, pool_alloc, mbuf_alloc.
  destruct (rte_pktmbuf_alloc _ _) as [r w1] eqn:Ea. apply alloc_law in Ea as [Hs1 Ho1]. unfold from_raw.
  destruct (Z.eqb_spec r null) as [->|Hr]. { exists false, w1. by rewrite Hs1, app_nil_r. }
  destruct Ho1 as (Hfresh & b & (Hwf & Haddr & _) & Hd & Hp & Ho1).
  assert (owned w1 !! r = Some b) as Er by (by rewrite Ho1, lookup_insert_eq).
  rewrite Z.mod_small, Nat2Z.id by lia. unfold append. cbn [raw].
  destruct (rte_pktmbuf_append _ _ _) as [t w2] eqn:Et. apply (append_law _ _ _ _ _ b Er) in Et as [Hs2 Ho2].
  rewrite Hs1 in Hs2. case_bool_decide as Hroom; destruct Ho2 as [-> Ho2].
  - unfold null at 1. rewrite (proj2 (Z.eqb_neq _ _)) by lia.
    assert (owned w2 !! r = Some (extend b (length frame))) as E2 by (by rewrite Ho2, lookup_insert_eq).
    unfold from_raw_parts_mut, deref. cbn [raw]. rewrite E2. cbn [expect mbind outcome_bind mret outcome_ret extend buf_addr buf].
    destruct (addr_offset (buf_addr b) (data_off b + m_data_len b)) as [-> ->]. cbn [assert_ mbind outcome_bind].
    unfold tailroom in Hroom. rewrite Hd, Nat.add_0_r in *.
    rewrite get_range_Ret by lia. cbn [mbind outcome_bind].
    rewrite length_slice by lia. rewrite bool_decide_true by lia. cbn [assert_ mbind outcome_bind mret outcome_ret fst snd].
    rewrite copy_range_Ret by lia. cbn [mbind outcome_bind mret outcome_ret fst snd]. set (bs := splice _ _ _).
    destruct (poke_law r bs w2 _ E2) as [Ho3 Hs3]. set (w3 := poke r bs w2) in *.
    destruct (transmit_mbuf_spec p lcore {| raw := r |} w3 (with_buf (extend b (length frame)) bs) q) as (ok & w' & E & Ho & Hs);
      [done|cbn [raw]; by rewrite Ho3, lookup_insert_eq|done|].
    exists ok, w'. split; [exact E|]. split.
    + rewrite Ho, Ho3, Ho2, Ho1. cbn [raw]. rewrite !insert_insert_eq. by rewrite delete_insert_id.
    + rewrite Hs, Hs3, Hs2. do 2 f_equal. destruct ok; [|done]. do 2 f_equal.
      unfold contents. cbn [with_buf extend data_off m_data_len buf]. rewrite Hd. cbn [Nat.add].
      apply slice_splice_eq. lia.
  - rewrite (Z.eqb_refl null). unfold drop_mbuf, deref. cbn [raw]. rewrite Ho2, Er. cbn [expect mbind outcome_bind mret outcome_ret].
    destruct (free_law r w2) as [Hf Hs']; [by rewrite Ho2, Er|].
    exists false, (rte_pktmbuf_free r w2). split; [done|]. split; [|by rewrite Hs', Hs2, app_nil_r].
    rewrite Hf, Ho2, Ho1. by rewrite delete_insert_id.
Qed.

(** The packets a burst hands over are new, and distinct. *)
Lemma receive_spec p lcore w ms w' :
  receive_mbufs p lcore w = (ms, w') →
  sent w' = sent w ∧ (length ms ≤ BURST)%nat ∧ NoDup (raw <$> ms) ∧
  ∃ new, owned w' = new ∪ owned w ∧ new ##ₘ owned w ∧ dom new = list_to_set (raw <$> ms) ∧
    map_Forall (λ p b, p ≠ null ∧ mbuf_wf b ∧ m_pkt_len b = m_data_len b) new.
Proof.
  unfold receive_mbufs. destruct (rx_queue _ _) as [q|].
  - destruct (rte_eth_rx_burst _ _ _ _) as [bufs w1] eqn:Er. intros [= <- <-].
    apply rx_law in Er as (Hs & Hl & Hnd & new & Ho & Hdisj & Hdom & Hall).
    assert (raw <$> omap from_raw bufs = bufs) as Eb.
    { assert (∀ x, x ∈ bufs → x ≠ null) as Hnn.
      { intros x Hx. assert (x ∈ dom new) as [b Hb]%elem_of_dom by (rewrite Hdom; set_solver). by destruct (Hall _ _ Hb). }
      clear -Hnn. induction bufs as [|x bufs IH]; [done|]. cbn. unfold from_raw at 1.
      rewrite (proj2 (Z.eqb_neq _ _)) by (apply Hnn; left). cbn. f_equal. apply IH. intros y Hy. apply Hnn. by right. }
    split; [done|]. split; [by rewrite <- (length_fmap raw), Eb|]. rewrite Eb. split; [done|]. by exists new.
  - intros [= <- <-]. split; [done|]. cbn. split; [lia|]. split; [constructor|]. exists ∅.
    split_and!; [by rewrite map_empty_union|apply map_disjoint_empty_l|by rewrite dom_empty_L|apply map_Forall_empty].
Qed.
End lemmas.

(** ** What becomes of received buffers *)

(** The ways in which the handlers end the life of a received packet: it goes out
    of scope, is forwarded as it is, is copied to several ports, or is queued.
    [dispose] is not the translation of one handler: it stands for the ways in
    which the handlers of [src/router/app.rs] end a packet's life, with the
    operations they use; which packet ends in which way is left open. *)
Inductive fate := Discard | Forward (p : NicPort) | Flood (ports : list NicPort) | Keep.

Section fates.
Context {W : Type} `{DpdkLaws W}.

Definition dispose (lcore : Z) (m : Mbuf) (d : fate) (w : W) : outcome W :=
  match d with
  | Discard => drop_mbuf m w
  | Forward p => r ← transmit_mbuf p lcore m w; mret r.2
  | Flood ports => flood ports lcore m w
  | Keep => mret w
  end.
Fixpoint dispose_all (lcore : Z) (mds : list (Mbuf * fate)) (w : W) : outcome W :=
  match mds with [] => mret w | (m, d) :: mds => w ← dispose lcore m d w; dispose_all lcore mds w end.

Definition kept (mds : list (Mbuf * fate)) : list ptr :=
  omap (λ md, match md.2 with Keep => Some (raw md.1) | _ => None end) mds.

(** A port whose transmit queues are in range, as [Port::new] makes them. *)
Definition port_ok (p : NicPort) : Prop := ∀ lcore, ∃ q, tx_queue (nic p) lcore = Ret q.
Definition fate_ok (d : fate) : Prop :=
  match d with Forward p => port_ok p | Flood ports => Forall port_ok ports | _ => True end.

Lemma transmit_each_spec ports lcore frame w :
  Forall port_ok ports → Z.of_nat (length frame) < 2 ^ 16 →
  ∃ w', transmit_each ports lcore frame w = Ret w' ∧ owned w' = owned w.
Proof.
  intros Hp Hf. revert w. induction Hp as [|p ports Hp _ IH]; intros w; [by exists w|]. cbn [transmit_each].
  destruct (Hp lcore) as [q Eq]. destruct (transmit_frame_spec p lcore frame w q Eq Hf) as (ok & w1 & -> & Ho & _).
  cbn [mbind outcome_bind snd]. destruct (IH w1) as (w' & E & Ho'). exists w'. split; [done|]. congruence.
Qed.


Lemma dispose_spec lcore m d w b :
  fate_ok d → owned w !! raw m = Some b → raw m ≠ null → mbuf_wf b →
  ∃ w', dispose lcore m d w = Ret w' ∧
    owned w' = match d with Keep => owned w | _ => delete (raw m) (owned w) end.
Proof.
  intros Hd Hb Hn Hwf. destruct d as [|p|ports|]; cbn [dispose].
  - unfold drop_mbuf, deref. rewrite Hb. eexists. split; [done|]. by apply free_law.
  - destruct (Hd lcore) as [q Eq]. destruct (transmit_mbuf_spec p lcore m w b q Eq Hb Hn) as (ok & w' & -> & Ho & _).
    by exists w'.
  - unfold flood. rewrite (data_Ret m w b) by done. cbn [mbind outcome_bind].
    destruct (transmit_each_spec ports lcore (contents b) w) as (w1 & -> & Ho); [done| |].
    { unfold contents. rewrite length_slice; apply Hwf. }
    cbn [mbind outcome_bind]. unfold drop_mbuf, deref. rewrite Ho, Hb. eexists. split; [done|]. rewrite <- Ho.
    apply free_law. by rewrite Ho, Hb.
  - by exists w.
Qed.

Lemma dispose_all_spec lcore mds w :
  NoDup (raw <$> mds.*1) → Forall (λ md, fate_ok md.2) mds →
  (∀ m, m ∈ mds.*1 → ∃ b, owned w !! raw m = Some b ∧ raw m ≠ null ∧ mbuf_wf b) →
  ∃ w', dispose_all lcore mds w = Ret w' ∧
    ∀ p, owned w' !! p = if bool_decide (p ∈ raw <$> mds.*1 ∧ p ∉ kept mds) then None else owned w !! p.
Proof.
  revert w. induction mds as [|[m d] mds IH]; intros w Hnd Hf Ho.
  { exists w. split; [done|]. intros p. rewrite bool_decide_false; [done|]. set_solver. }
  cbn in Hnd. pose proof (NoDup_cons_1_1 _ _ Hnd) as Hm. apply NoDup_cons_1_2 in Hnd. apply Forall_cons_1 in Hf as [Hd Hf].
  cbn [dispose_all fst snd] in *.
  destruct (Ho m) as (b & Hb & Hn & Hwf); [cbn; left|]. destruct (dispose_spec lcore m d w b Hd Hb Hn Hwf) as (w1 & -> & Ho1).
  cbn [mbind outcome_bind]. assert (∀ p, p ≠ raw m → owned w1 !! p = owned w !! p) as Hother.
  { intros p Hne. rewrite Ho1. destruct d; by rewrite ?lookup_delete_ne. }
  destruct (IH w1 Hnd Hf) as (w' & E & Hw').
  { intros m' Hm'. destruct (Ho m') as (b' & Hb' & Hp'); [cbn; by right|]. exists b'. split; [|done].
    rewrite Hother; [done|]. intros Heq. apply Hm. rewrite <- Heq. by apply list_elem_of_fmap_2. }
  exists w'. split; [done|]. intros p. rewrite Hw'. assert (∀ q, q ∈ kept mds → q ∈ raw <$> mds.*1) as Hk.
  { intros q (md & Hmd & Eq)%list_elem_of_omap. apply list_elem_of_fmap. exists md.1. split; [by destruct md.2; simplify_eq|].
    by apply list_elem_of_fmap_2. }
  destruct (decide (p = raw m)) as [->|Hne].
  - rewrite bool_decide_false by set_solver. rewrite Ho1. destruct d; cbn [kept omap list_omap fst snd fmap list_fmap].
    1-3: rewrite lookup_delete_eq, bool_decide_true; [done|]; (split; [left|]); intros Hin; apply Hm, Hk, Hin.
    rewrite bool_decide_false; [done|]. set_solver.
  - rewrite Hother by done. apply (f_equal (λ b : bool, if b then None else owned w !! p)). apply bool_decide_ext.
    destruct d; cbn [kept omap list_omap fst snd fmap list_fmap]; rewrite ?elem_of_cons; set_solver.
Qed.
End fates.

(** ** Editing a header in place *)

Section editing.
Context {W : Type} `{DpdkLaws W} {T : Type} `{Pod T}.

(** What [header_at_mut] did: [h] was read at [off], and [f h] is there now; the
    rest of the packet, and every other buffer, is as before. *)
Definition edited (m : Mbuf) (off : nat) (f : T → T) (h : T) (w w' : W) : Prop :=
  ∃ d, data m w = Ret d ∧ header_at d off = Some h ∧
    data m w' = Ret (splice off (to_bytes (f h)) d) ∧ header_at (splice off (to_bytes (f h)) d) off = Some (f h) ∧
    (∀ p, p ≠ raw m → owned w' !! p = owned w !! p) ∧ sent w' = sent w.

Lemma header_at_mut_spec m off (f : T → T) h w b :
  owned w !! raw m = Some b → mbuf_wf b → (∀ t, pod_wf t → pod_wf (f t)) → header_at (contents b) off = Some h →
  ∃ w', header_at_mut m off f w = Ret (Some (), w') ∧ edited m off f h w w'.
Proof.
  intros Hb Hwf Hf Hh. pose proof Hh as [Hl ->]%header_at_inv. set (d := contents b) in *. set (h := of_bytes _).
  assert (pod_wf (f h)) as Hfw by (apply Hf, of_bytes_wf; by apply length_slice).
  assert (length (to_bytes (f h)) = size_of T) as Lf by (by apply length_to_bytes).
  set (d' := splice off (to_bytes (f h)) d). assert (length d' = length d) as Ld by (apply length_splice; lia).
  eexists. split.
  - unfold header_at_mut. eapply (data_mut_Ret m w b _ d' (Some ())); [done|done| |done]. fold d.
    rewrite bool_decide_true by lia. unfold mut_from. rewrite mut_from_prefix_Some by (rewrite length_drop; lia).
    cbn [fst snd]. unfold d', splice. rewrite Lf, drop_drop. done.
  - destruct (poke_law (raw m) (splice (data_off b) d' (buf b)) w b Hb) as [Ho Hs]. exists d. split_and!.
    + by apply data_Ret.
    + done.
    + rewrite (data_Ret _ _ (with_buf b (splice (data_off b) d' (buf b)))).
      * by rewrite contents_splice.
      * by rewrite Ho, lookup_insert_eq.
      * destruct Hwf as (Hbd & Ha & Hw). assert (length d = m_data_len b) by (apply length_slice; lia).
        split_and!; cbn [with_buf data_off m_data_len buf buf_addr]; [rewrite length_splice by lia; done|done..].
    + rewrite header_at_Some by (rewrite length_splice; lia). rewrite <- Lf at 1. rewrite slice_splice_eq by lia.
      by rewrite of_to_bytes.
    + intros p Hp. by rewrite Ho, lookup_insert_ne by congruence.
    + done.
Qed.
End editing.

(** ** A library with one pool and one receive ring *)

Module Bench.
Record Bench := {
  b_owned : gmap Z rte_mbuf; b_sent : list (Z * Z * bytes);
  free_mbufs : nat; tx_slots : nat; arriving : list bytes;
}.
Definition with_owned (w : Bench) (m : gmap Z rte_mbuf) (n : nat) : Bench :=
  {| b_owned := m; b_sent := b_sent w; free_mbufs := n; tx_slots := tx_slots w; arriving := arriving w |}.

(** An address above all those in use. *)
Definition top (m : gmap Z rte_mbuf) : Z := 1 + map_fold (λ k _ a, Z.max k a) 0 m.
Definition room : nat := 128.
Definition buffer (p : Z) (d : bytes) : rte_mbuf :=
  {| buf_addr := p * 65536; buf := replicate room 0 ++ d ++ replicate room 0; data_off := room;
     m_data_len := length d; m_pkt_len := length d |}.

#[global] Instance Bench_Dpdk : Dpdk Bench := {|
  owned := b_owned;
  sent := b_sent;
  poke p bs w := match b_owned w !! p with
    | Some b => with_owned w (<[p := with_buf b bs]> (b_owned w)) (free_mbufs w)
    | None => w end;
  rte_pktmbuf_alloc _ w := match free_mbufs w with
    | O => (null, w)
    | S n => let p := top (b_owned w) in (p, with_owned w (<[p := buffer p []]> (b_owned w)) n) end;
  rte_pktmbuf_free p w := with_owned w (delete p (b_owned w)) (S (free_mbufs w));
  rte_pktmbuf_append p n w := match b_owned w !! p with
    | Some b => if bool_decide (n ≤ tailroom b)%nat
        then (buf_addr b + Z.of_nat (data_off b + m_data_len b), with_owned w (<[p := extend b n]> (b_owned w)) (free_mbufs w))
        else (null, w)
    | None => (null, w) end;
  rte_eth_rx_burst _ _ n w := match n, arriving w with
    | S _, d :: rest =>
      let p := top (b_owned w) in
      ([p], {| b_owned := <[p := buffer p (firstn 2048 d)]> (b_owned w); b_sent := b_sent w; free_mbufs := free_mbufs w;
               tx_slots := tx_slots w; arriving := rest |})
    | _, _ => ([], w) end;
  rte_eth_tx_burst port q p w := match tx_slots w, b_owned w !! p with
    | S n, Some b => (1%nat, {| b_owned := delete p (b_owned w); b_sent := b_sent w ++ [(port, q, contents b)];
                                free_mbufs := S (free_mbufs w); tx_slots := n; arriving := arriving w |})
    | _, _ => (0%nat, w) end;
  rte_pktmbuf_pool_create _ _ _ _ _ _ w := (1, w);
  rte_mempool_free _ w := w;
|}.

Lemma top_fresh m : m !! top m = None ∧ 0 < top m.
Proof.
  assert (0 ≤ map_fold (λ k _ a, Z.max k a) 0 m ∧ ∀ k, is_Some (m !! k) → k ≤ map_fold (λ k _ a, Z.max k a) 0 m) as [H0 H].
  { apply (map_fold_weak_ind (λ r m, 0 ≤ r ∧ ∀ k, is_Some (m !! k) → k ≤ r)).
    - split; [lia|]. intros k [? Hk]. by rewrite lookup_empty in Hk.
    - intros k b m' r Hk [H1 H2]. split; [lia|]. intros k' [x [[<- _]|[_ Hx]]%lookup_insert_Some]; [lia|].
      specialize (H2 k'). rewrite Hx in H2. specialize (H2 ltac:(eauto)). lia. }
  unfold top. split; [|lia]. destruct (m !! _) eqn:E; [|done]. specialize (H _ ltac:(eauto)). lia.
Qed.
Lemma buffer_wf p d : 0 < p → (length d ≤ 2048)%nat → mbuf_wf (buffer p d).
Proof.
  intros Hp Hd. unfold mbuf_wf. cbn [buffer data_off m_data_len buf buf_addr]. rewrite !length_app, !length_replicate.
  split_and!; lia.
Qed.

#[global] Instance Bench_laws : DpdkLaws Bench.
Proof.
  split.
  - intros p bs w b. cbn. intros ->. done.
  - intros pool w p w'. cbn. destruct (free_mbufs w) as [|n]; intros [= <- <-]; [done|]. split; [done|].
    destruct (top_fresh (b_owned w)) as [Hf Hp]. unfold null. rewrite (proj2 (Z.eqb_neq _ _)) by lia. split; [done|].
    exists (buffer (top (b_owned w)) []). split_and!; try done. apply buffer_wf; [done|cbn; lia].
  - intros p w _. done.
  - intros p n w t w' b. cbn. intros ->. case_bool_decide; intros [= <- <-]; done.
  - intros port q n w ps w'. cbn. destruct n as [|n]; [|destruct (arriving w) as [|d rest]]; intros [= <- <-].
    3: { destruct (top_fresh (b_owned w)) as [Hf Hp]. set (p := top (b_owned w)) in *. split; [done|]. split; [cbn; lia|].
      split; [apply NoDup_singleton|]. exists {[p := buffer p (firstn 2048 d)]}.
      split; [by rewrite insert_union_singleton_l|]. split; [by apply map_disjoint_singleton_l|].
      split; [rewrite dom_singleton_L; set_solver|]. apply map_Forall_singleton. split; [unfold null; lia|]. split; [|done].
      apply buffer_wf; [done|]. rewrite length_take. lia. }
    all: split; [done|]; split; [cbn; lia|]; split; [constructor|]; exists ∅;
      split_and!; [by rewrite map_empty_union|apply map_disjoint_empty_l|by rewrite dom_empty_L|apply map_Forall_empty].
  - intros port q p w n w' b Hb. cbn in *. rewrite Hb. destruct (tx_slots w); intros [= <- <-]; done.
Qed.
End Bench.

(** ** Properties *)

(** C24: sending a frame through a port that [Port::new] made, from any core and
    for every frame that fits the 16-bit length: nothing undefined happens; the
    library receives exactly the frame, on the core's queue of that port, when
    the result is [true], and nothing when it is [false]; and in every case,
    also when no buffer or no tail room is left or the device refuses, the
    program owns the same buffers as before: none is leaked or freed twice. *)
Theorem transmit_frame_exact {W : Type} `{DpdkLaws W} (p : NicPort) (setup : PortSetup) (info : PortInfo)
    (lcores : list Z) (random : nat) (lcore : Z) (frame : bytes) (w : W)
    (Hport : Port_new setup info lcores random = Ret (nic p)) (Hlen : Z.of_nat (length frame) < 2 ^ 16) :
  ∃ q ok w', tx_queue (nic p) lcore = Ret q ∧ transmit_frame p lcore frame w = Ret (ok, w') ∧
    owned w' = owned w ∧ sent w' = sent w ++ (if ok : bool then [(nic_id p, q, frame)] else []).
Proof.
  destruct (tx_queue_spec _ _ _ _ _ lcore Hport) as (q & Eq & _).
  destruct (transmit_frame_spec p lcore frame w q Eq Hlen) as (ok & w' & E & Ho & Hs). by exists q, ok, w'.
Qed.

(** C23: the life of received buffers: when a core polls a port and then discards,
    forwards, floods or queues each packet of the burst, no buffer is used or
    freed without being owned, and afterwards the program owns what it owned
    before and the queued packets, untouched: every other received buffer was
    freed or handed to the device exactly once. *)
Theorem received_buffers_accounted {W : Type} `{DpdkLaws W} (p : NicPort) (lcore : Z) (w w1 : W) (ms : list Mbuf)
    (fates : list fate)
    (Hrx : receive_mbufs p lcore w = (ms, w1)) (Hlen : length fates = length ms) (Hok : Forall fate_ok fates) :
  ∃ w', dispose_all lcore (zip ms fates) w1 = Ret w' ∧
    ∀ q, owned w' !! q = if bool_decide (q ∈ kept (zip ms fates)) then owned w1 !! q else owned w !! q.
Proof.
  apply receive_spec in Hrx as (_ & _ & Hnd & new & Ho & Hdisj & Hdom & Hall).
  assert ((zip ms fates).*1 = ms) as Ez by (apply fst_zip; lia).
  destruct (dispose_all_spec lcore (zip ms fates) w1) as (w' & E & Hw').
  - by rewrite Ez.
  - apply List.Forall_forall. intros [m d] Hin%list_elem_of_In. apply elem_of_zip_r in Hin.
    exact (proj1 (List.Forall_forall _ _) Hok d (proj1 (list_elem_of_In _ _) Hin)).
  - intros m Hm. rewrite Ez in Hm. assert (raw m ∈ dom new) as [b Hb]%elem_of_dom
      by (rewrite Hdom; apply elem_of_list_to_set; by apply list_elem_of_fmap_2).
    destruct (Hall _ _ Hb) as (Hn & Hwf & _). exists b. split; [|done]. rewrite Ho. by apply lookup_union_Some_l.
  - exists w'. split; [done|]. intros q. rewrite Hw', Ez. case_bool_decide as Hq.
    + destruct Hq as [Hq Hk]. rewrite bool_decide_false by done. symmetry.
      assert (q ∈ dom new) as [b Hb]%elem_of_dom by (rewrite Hdom; by apply elem_of_list_to_set).
      by eapply map_disjoint_Some_l.
    + case_bool_decide as Hk; [done|]. rewrite Ho. apply lookup_union_r. apply not_elem_of_dom. rewrite Hdom.
      rewrite elem_of_list_to_set. tauto.
Qed.

(** Editing in place: for a packet whose bytes parse as IPv4, and as TCP or
    UDP inside, [header_at_mut] at the offset that the view reports finds the
    header that the view reads, and an edit through it replaces exactly the
    bytes of that header in that packet; reading it back gives the edited
    header. *)
Theorem header_edit_in_place {W : Type} `{DpdkLaws W} (m : Mbuf) (w : W) (b : rte_mbuf) (e : EthernetView) (v : Ipv4View)
    (Hb : owned w !! raw m = Some b) (Hwf : mbuf_wf b)
    (He : ethernet m w = Ret (Some e)) (Hv : ipv4 e = Some v) :
  (∀ f : Ipv4Header → Ipv4Header, (∀ h, pod_wf h → pod_wf (f h)) →
     ∃ h w', ip_header v = Ret h ∧ header_at_mut m (ip_header_offset v) f w = Ret (Some (), w') ∧
       edited m (ip_header_offset v) f h w w') ∧
  (∀ (t : TcpView) (f : Tcp.TcpHeader → Tcp.TcpHeader), tcp v = Ret (Some t) → (∀ h, pod_wf h → pod_wf (f h)) →
     ∃ h w', tcp_header t = Ret h ∧ header_at_mut m (tcp_header_offset t) f w = Ret (Some (), w') ∧
       edited m (tcp_header_offset t) f h w w') ∧
  (∀ (u : UdpView) (f : Udp.UdpHeader → Udp.UdpHeader), udp v = Ret (Some u) → (∀ h, pod_wf h → pod_wf (f h)) →
     ∃ h w', udp_header u = Ret h ∧ header_at_mut m (udp_header_offset u) f w = Ret (Some (), w') ∧
       edited m (udp_header_offset u) f h w w').
Proof.
  unfold ethernet in He. rewrite (data_Ret m w b Hb Hwf) in He. injection He as He.
  apply eth_parse_wf in He as (_ & Eb & _). apply ipv4_wf in Hv as (Hv & Eb' & _). rewrite Eb in Eb'.
  assert (∀ (T : Type) (P : Pod T) (off : nat) (f : T → T) (read : outcome T),
    read = expect (header_at (contents b) off) → (off + size_of T ≤ length (contents b))%nat → (∀ h, pod_wf h → pod_wf (f h)) →
    ∃ h w', read = Ret h ∧ header_at_mut m off f w = Ret (Some (), w') ∧ edited m off f h w w') as Hedit.
  { intros T P off f read -> Hl Hf. destruct (header_at_mut_spec m off f _ w b Hb Hwf Hf (header_at_Some _ _ Hl)) as (w' & E & Hed).
    eexists _, w'. rewrite header_at_Some by done. by split. }
  split_and!.
  - intros f. apply Hedit; unfold ip_header, ip_header_offset; rewrite <- Eb'; [done|]. destruct Hv as (? & ? & ?).
    change (size_of Ipv4Header) with 20%nat. lia.
  - intros t f Ht. apply tcp_wf in Ht as (Ht & Et & _); [|done]. apply Hedit; unfold tcp_header, tcp_header_offset.
    + by rewrite Et, Eb'.
    + rewrite <- Eb', <- Et. destruct Ht as (? & ? & ?). change (size_of Tcp.TcpHeader) with 20%nat. lia.
  - intros u f Hu. apply udp_wf in Hu as (Hu & Eu & _); [|done]. apply Hedit; unfold udp_header, udp_header_offset.
    + by rewrite Eu, Eb'.
    + rewrite <- Eb', <- Eu. destruct Hu as (? & ? & ?). change (size_of Udp.UdpHeader) with 8%nat. lia.
Qed.

(** ** Witnesses *)

Module Sample.
Import Bench.

Definition plan : PortPlan.Port := {|
  port_info := sample_info; port_setup := sample_setup true;
  rx := Rss (insert_enumerated Z.of_nat 0 [3; 5] ∅);
  tx := {| lcore_to_queue := insert_enumerated (λ i, Z.of_nat (i `mod` 2)) 0 [3; 5] ∅; locks := 2 |} |}.
Lemma plan_ok : Port_new (sample_setup true) sample_info [3; 5] 1 = Ret plan.
Proof. reflexivity. Qed.
Definition port : NicPort := {| nic := plan; mempool := shared_from {| pool := 1 |} |}.
Lemma sample_port_ok : port_ok port.
Proof. intros lcore. destruct (tx_queue_spec _ _ _ _ _ lcore plan_ok) as (q & E & _). by exists q. Qed.

(** A TCP segment to 10.0.0.2. *)
Definition segment : bytes :=
  [2; 0; 0; 0; 0; 1; 2; 0; 0; 0; 0; 2; 8; 0; 69; 0; 0; 40; 0; 0; 0; 0; 64; 6; 0; 0; 10; 0; 0; 1; 10; 0; 0; 2;
   19; 136; 1; 187; 0; 0; 0; 0; 0; 0; 0; 0; 80; 2; 255; 255; 0; 0; 0; 0].
Definition world : Bench :=
  {| b_owned := {[1 := buffer 1 segment]}; b_sent := []; free_mbufs := 2; tx_slots := 2; arriving := [segment; [9; 9]] |}.
End Sample.

Lemma transmit_frame_exact_witness :
  ∃ w', transmit_frame Sample.port 5 Sample.segment Sample.world = Ret (true, w') ∧
    owned w' = owned Sample.world ∧ sent w' = [(0, 1, Sample.segment)].
Proof.
  destruct (transmit_frame_exact Sample.port (sample_setup true) sample_info [3; 5] 1 5 Sample.segment Sample.world
    Sample.plan_ok) as (q & ok & w' & Eq & E & Ho & Hs); [vm_compute; reflexivity|].
  assert (ok = true) as ->.
  { transitivity (match transmit_frame Sample.port 5 Sample.segment Sample.world with Ret (ok, _) => ok | Panic => false end);
      [rewrite E; reflexivity|vm_compute; reflexivity]. }
  exists w'. split; [exact E|]. split; [exact Ho|]. rewrite Hs. vm_compute in Eq. injection Eq as <-. reflexivity.
Defined.

Lemma received_buffers_accounted_witness :
  ∃ m w1 w', receive_mbufs Sample.port 3 Sample.world = ([m], w1) ∧
    dispose_all 3 [(m, Flood [Sample.port; Sample.port])] w1 = Ret w' ∧
    ∀ q, owned w' !! q = owned Sample.world !! q.
Proof.
  assert (∃ m w1, receive_mbufs Sample.port 3 Sample.world = ([m], w1)) as (m & w1 & E)
    by (vm_compute; eexists _, _; reflexivity).
  destruct (received_buffers_accounted Sample.port 3 Sample.world w1 [m] [Flood [Sample.port; Sample.port]] E) as (w' & E' & H).
  - reflexivity.
  - apply Forall_singleton. repeat (apply Forall_cons_2; [exact Sample.sample_port_ok|]). apply Forall_nil_2.
  - exists m, w1, w'. split; [exact E|]. split; [exact E'|]. exact H.
Defined.

Lemma header_edit_in_place_witness :
  ∃ v h w', ip_header v = Ret h ∧ ttl h = 64 ∧
    header_at_mut {| raw := 1 |} (ip_header_offset v) (λ h, set_ttl h (ttl h - 1)) Sample.world = Ret (Some (), w') ∧
    edited {| raw := 1 |} (ip_header_offset v) (λ h, set_ttl h (ttl h - 1)) h Sample.world w'.
Proof.
  assert (∃ e v, ethernet {| raw := 1 |} Sample.world = Ret (Some e) ∧ ipv4 e = Some v ∧
    match ip_header v with Ret h => ttl h | Panic => 0 end = 64) as (e & v & He & Hv & Ht)
    by (eexists _, _; split; [vm_compute; reflexivity|split; [vm_compute; reflexivity|vm_compute; reflexivity]]).
  destruct (header_edit_in_place {| raw := 1 |} Sample.world (Bench.buffer 1 Sample.segment) e v) as (H & _).
  - reflexivity.
  - apply Bench.buffer_wf; decide_now.
  - exact He.
  - exact Hv.
  - destruct (H (λ h, set_ttl h (ttl h - 1))) as (h & w' & Eh & Ew & Hed).
    + intros h Hh. exact Hh.
    + exists v, h, w'. split; [exact Eh|]. rewrite Eh in Ht. split; [exact Ht|]. split; [exact Ew|exact Hed].
Defined.

(** ** Frames that do not fit *)

(** The length is cut to 16 bits for [append]: a longer frame is never sent, and
    panics once the shortened length fits the buffer. *)
Lemma oversized_frame_not_sent {W : Type} `{DpdkLaws W} p lcore frame (w w' : W) ok :
  2 ^ 16 ≤ Z.of_nat (length frame) → transmit_frame p lcore frame w = Ret (ok, w') → ok = false.
Proof.
  intros Hl. unfold transmit_frame. destruct (port_alloc p w) as [[m|] w1]; [|by intros [= <- _]].
  destruct (append m _ w1) as [[dst|] w2].
  - intros E. exfalso. revert E. unfold from_raw_parts_mut. destruct (deref m w2) as [b|]; [|done]. cbn [mbind outcome_bind].
    destruct (_ <=? dst); [|done]. cbn [assert_ mbind outcome_bind].
    set (n := Z.to_nat (Z.of_nat (length frame) mod 2 ^ 16)). set (o := Z.to_nat (dst - buf_addr b)).
    destruct (get_range (buf b) o (o + n)) as [d|] eqn:Eg; [|done]. cbn [mbind outcome_bind].
    rewrite bool_decide_false; [done|]. unfold get_range in Eg. case_bool_decide; [|done]. injection Eg as <-.
    rewrite length_slice by lia. pose proof (Z.mod_pos_bound (Z.of_nat (length frame)) (2 ^ 16) ltac:(lia)). lia.
  - destruct (drop_mbuf m w2); [|done]. by intros [= <- _].
Qed.
