(* ===== verification/Worker.v ===== *)
(** * Per-packet helpers ([src/router/worker.rs], [src/router/arp.rs])

    The layer-2 rewrite, the two translations as the worker applies them to a
    packet, and the ARP responder for the router's own addresses.  A packet
    buffer ([Mbuf]) is its bytes. *)

From S2P Require Import Prelude Wire Ethernet Arp View SourceNat.

Definition rewrite_ethernet (data : bytes) (s d : MacAddr) : bytes :=
  (mut_from (T := EthernetHeader) data (λ eth, set_dst (set_src eth s) d)).1.
Definition set_ethernet (m : bytes) (s d : MacAddr) : bytes := rewrite_ethernet m s d.

(** The packet, the table and whether the packet was translated. *)
Definition worker_egress (m : bytes) (n : Nat) (wan_mac gateway_mac : MacAddr) : outcome (bytes * Nat * bool) :=
  r ← translate_egress m n;
  match r with
  | (data, n, None) => mret (data, n, false)
  | (data, n, Some _) => mret (rewrite_ethernet data wan_mac gateway_mac, n, true)
  end.
Definition worker_ingress (m : bytes) (n : Nat) : outcome (bytes * option Ingress) := translate_ingress m n.

(** The output buffer and the returned length. *)
Definition respond (our_mac : MacAddr) (owned : list Ipv4Addr) (frame out : bytes) : bytes * option nat :=
  match e ← EthernetView_parse frame; arp e with
  | None => (out, None)
  | Some pkt =>
    if negb (is_request pkt) then (out, None)
    else
      let target := target_ip pkt in
      if bool_decide (target ∈ owned) then build_reply out our_mac target (sha pkt) (sender_ip pkt)
      else (out, None)
  end.

(** ** Laws *)

Lemma rewrite_ethernet_app h rest s d :
  length h = 14%nat → rewrite_ethernet (h ++ rest) s d = d ++ s ++ slice 12 2 h ++ rest.
Proof.
  intros Hh. unfold rewrite_ethernet, mut_from. rewrite mut_from_prefix_app by done. cbn [fst].
  cbn [to_bytes of_bytes EthernetHeader_Pod set_dst set_src dst src ethertype_field u16be_bytes].
  by rewrite <- !app_assoc.
Qed.

(** The addresses are replaced, the rest of the frame is kept. *)
Lemma rewrite_ethernet_spec data s d :
  (14 ≤ length data)%nat → length s = 6%nat → length d = 6%nat →
  let data' := rewrite_ethernet data s d in
  length data' = length data ∧ slice 0 6 data' = d ∧ slice 6 6 data' = s ∧ skipn 12 data' = skipn 12 data.
Proof.
  intros Hl Hs Hd. cbn zeta. rewrite <- (take_drop 14 data).
  assert (length (firstn 14 data) = 14%nat) as L14 by (rewrite length_take; lia).
  rewrite rewrite_ethernet_app by done. set (h := firstn 14 data) in *. set (rest := skipn 14 data).
  assert (length (slice 12 2 h) = 2%nat) as L2 by (apply length_slice; lia).
  split_and!.
  - rewrite !length_app. lia.
  - by rewrite slice_app_0.
  - rewrite (slice_app_ge _ _ 6) by (done || lia). by apply slice_app_0.
  - rewrite skipn_app, (skipn_all2 d), Hd by lia. cbn [app]. change (12 - 6)%nat with 6%nat.
    rewrite skipn_app, (skipn_all2 s), Hs by lia. cbn [app]. change (6 - 6)%nat with 0%nat. rewrite drop_0.
    rewrite (skipn_app 12 h), L14. change (12 - 14)%nat with 0%nat. rewrite drop_0. f_equal.
    unfold slice. rewrite take_ge; [done|]. rewrite length_drop. lia.
Qed.

Lemma rewrite_ethernet_ok data s d :
  Forall u8 data → mac_ok s → mac_ok d → Forall u8 (rewrite_ethernet data s d).
Proof.
  intros Hb [Hs Bs] [Hd Bd]. destruct (decide (length data < 14)%nat).
  { unfold rewrite_ethernet, mut_from, mut_from_prefix. by rewrite bool_decide_true. }
  rewrite <- (take_drop 14 data). rewrite rewrite_ethernet_app by (rewrite length_take; lia).
  repeat apply Forall_app_2; try done; [by apply Forall_slice, Forall_take|by apply Forall_drop].
Qed.
