(* ===== verification/App.v ===== *)
(** * The datapath ([src/router/app.rs])

    One worker's treatment of the frames received on the WAN port and on the
    LAN ports, over the tables that all ports share.  The wiring is that of
    [src/main.rs]: one WAN port with its neighbour table and DHCP client; LAN
    ports that share one neighbour table, one address pool and one lease table,
    each with a DHCP server of its own configuration.

    A packet buffer is its bytes.  [transmit_frame] and [transmit_mbuf] hand a
    frame to a port; whether the hardware accepts it changes nothing but a log
    line, so a handler's output is the list of frames it hands over.  The frames
    received by a poll are an argument. *)

From S2P Require Import Prelude Wire Ethernet Arp Dhcp View SourceNat Neighbor Conntrack AddrPool Frame Fdb Leases.
From S2P Require Import DhcpFrame DhcpServer DhcpClient Worker.

(** ** State *)

Definition FRAME_MAX : nat := 1518.
Definition SWEEP_INTERVAL_MS : Z := 250.

Record Port := { port_id : Z; ether_addr : MacAddr }.
Record WanPortCtx := { wan_port_of : Port }.
Record LanPortCtx := { lan_port_of : Port; lan_dhcp : DhcpServerConfig }.
Inductive PortCtx := Wan (w : WanPortCtx) | Lan (l : LanPortCtx).

Record AppCtx := { app_server_ip : Ipv4Addr; app_server_mac : MacAddr; ports : list PortCtx }.

(** Everything behind a lock or in an atomic. *)
Record Tables := {
  fdb : Fdb;
  nat : Nat;
  conntrack : ConnTrack;
  wan_neighbors : NeighborTable bytes;
  wan_client : DhcpClient;
  wan_bound : Z;
  wan_gateway : Z;
  lan_neighbors : NeighborTable bytes;
  lan_pool : AddressPool;
  lan_leases : LeaseTable;
  last_sweep_ms : Z;
}.

(** A frame handed to a port. *)
Record Tx := { tx_port : Z; tx_frame : bytes }.

(** ** Handlers: a state, output and panic monad *)

Definition M (A : Type) : Type := Tables → outcome (A * Tables * list Tx).

Definition ret {A} (a : A) : M A := λ t, Ret (a, t, []).
Definition bind {A B} (m : M A) (k : A → M B) : M B := λ t,
  match m t with
  | Ret (a, t, o) => match k a t with Ret (b, t, o') => Ret (b, t, o ++ o') | Panic => Panic end
  | Panic => Panic
  end.
Definition lift {A} (m : outcome A) : M A := λ t, match m with Ret a => Ret (a, t, []) | Panic => Panic end.
Definition emit (p : Port) (f : bytes) : M unit := λ t, Ret ((), t, [{| tx_port := port_id p; tx_frame := f |}]).
Definition gets {A} (f : Tables → A) : M A := λ t, Ret (f t, t, []).

Declare Scope app_scope.
Delimit Scope app_scope with app.
Notation "x <- m ;; k" := (bind m (λ x, k)) (at level 100, m at next level, right associativity) : app_scope.
Notation "' p <- m ;; k" := (bind m (λ x, match x with p => k end))
  (at level 100, p pattern, m at next level, right associativity) : app_scope.
Notation "m ;; k" := (bind m (λ _, k)) (at level 100, right associativity) : app_scope.
#[local] Open Scope app_scope.

(** [for x in l { f(x) }]. *)
Fixpoint for_each {A} (l : list A) (f : A → M unit) : M unit :=
  match l with [] => ret () | x :: l => f x ;; for_each l f end.

(** Updates of one table. *)
Definition set_fdb (x : Fdb) : M unit := λ t, Ret ((),
  {| fdb := x; nat := nat t; conntrack := conntrack t; wan_neighbors := wan_neighbors t; wan_client := wan_client t;
     wan_bound := wan_bound t; wan_gateway := wan_gateway t; lan_neighbors := lan_neighbors t;
     lan_pool := lan_pool t; lan_leases := lan_leases t; last_sweep_ms := last_sweep_ms t |}, []).
Definition set_nat (x : Nat) : M unit := λ t, Ret ((),
  {| fdb := fdb t; nat := x; conntrack := conntrack t; wan_neighbors := wan_neighbors t; wan_client := wan_client t;
     wan_bound := wan_bound t; wan_gateway := wan_gateway t; lan_neighbors := lan_neighbors t;
     lan_pool := lan_pool t; lan_leases := lan_leases t; last_sweep_ms := last_sweep_ms t |}, []).
Definition set_conntrack (x : ConnTrack) : M unit := λ t, Ret ((),
  {| fdb := fdb t; nat := nat t; conntrack := x; wan_neighbors := wan_neighbors t; wan_client := wan_client t;
     wan_bound := wan_bound t; wan_gateway := wan_gateway t; lan_neighbors := lan_neighbors t;
     lan_pool := lan_pool t; lan_leases := lan_leases t; last_sweep_ms := last_sweep_ms t |}, []).
Definition set_wan_neighbors (x : NeighborTable bytes) : M unit := λ t, Ret ((),
  {| fdb := fdb t; nat := nat t; conntrack := conntrack t; wan_neighbors := x; wan_client := wan_client t;
     wan_bound := wan_bound t; wan_gateway := wan_gateway t; lan_neighbors := lan_neighbors t;
     lan_pool := lan_pool t; lan_leases := lan_leases t; last_sweep_ms := last_sweep_ms t |}, []).
Definition set_wan (c : DhcpClient) (b g : Z) : M unit := λ t, Ret ((),
  {| fdb := fdb t; nat := nat t; conntrack := conntrack t; wan_neighbors := wan_neighbors t; wan_client := c;
     wan_bound := b; wan_gateway := g; lan_neighbors := lan_neighbors t;
     lan_pool := lan_pool t; lan_leases := lan_leases t; last_sweep_ms := last_sweep_ms t |}, []).
Definition set_lan_neighbors (x : NeighborTable bytes) : M unit := λ t, Ret ((),
  {| fdb := fdb t; nat := nat t; conntrack := conntrack t; wan_neighbors := wan_neighbors t; wan_client := wan_client t;
     wan_bound := wan_bound t; wan_gateway := wan_gateway t; lan_neighbors := x;
     lan_pool := lan_pool t; lan_leases := lan_leases t; last_sweep_ms := last_sweep_ms t |}, []).
Definition set_dhcp (p : AddressPool) (l : LeaseTable) : M unit := λ t, Ret ((),
  {| fdb := fdb t; nat := nat t; conntrack := conntrack t; wan_neighbors := wan_neighbors t; wan_client := wan_client t;
     wan_bound := wan_bound t; wan_gateway := wan_gateway t; lan_neighbors := lan_neighbors t;
     lan_pool := p; lan_leases := l; last_sweep_ms := last_sweep_ms t |}, []).
Definition set_last_sweep (x : Z) : M unit := λ t, Ret ((),
  {| fdb := fdb t; nat := nat t; conntrack := conntrack t; wan_neighbors := wan_neighbors t; wan_client := wan_client t;
     wan_bound := wan_bound t; wan_gateway := wan_gateway t; lan_neighbors := lan_neighbors t;
     lan_pool := lan_pool t; lan_leases := lan_leases t; last_sweep_ms := x |}, []).

(** The DHCP server of a LAN port, over the shared pool and leases. *)
Definition server_of (lan : LanPortCtx) (t : Tables) : DhcpServer AddressPool :=
  {| cfg := lan_dhcp lan; pool := lan_pool t; leases := lan_leases t |}.

(** ** Ports *)

Definition lan_ports (a : AppCtx) : list LanPortCtx :=
  omap (λ p, match p with Lan l => Some l | Wan _ => None end) (ports a).
Definition lan_port_by_id (a : AppCtx) (id : Z) : option LanPortCtx :=
  List.find (λ l, port_id (lan_port_of l) =? id) (lan_ports a).
Definition wan_port (a : AppCtx) : option WanPortCtx :=
  head (omap (λ p, match p with Wan w => Some w | Lan _ => None end) (ports a)).
Definition gateway_ip (t : Tables) : option Ipv4Addr :=
  if wan_gateway t =? 0 then None else Some (wan_gateway t).

(** ** Forwarding *)

Definition transmit_to_mac_or_flood_except (a : AppCtx) (m : MacAddr) (packet : bytes) (except : option Z) : M unit :=
  hit <- gets (λ t, Fdb.lookup_ (fdb t) m) ;;
  match hit with
  | Some port =>
    if bool_decide (Some port = except) then ret ()
    else match lan_port_by_id a port with Some out => emit (lan_port_of out) packet | None => ret () end
  | None =>
    for_each (lan_ports a) (λ ctx,
      if bool_decide (Some (port_id (lan_port_of ctx)) = except) then ret () else emit (lan_port_of ctx) packet)
  end.

(** Send the packets an ARP answer has released. *)
Definition send_drained (p : Port) (r : option (MacAddr * list bytes)) : M unit :=
  match r with
  | None => ret ()
  | Some (m, drained) => for_each drained (λ q, emit p (set_ethernet q (ether_addr p) m))
  end.

Definition parse_tcp_tuple (frame : bytes) : outcome (option (Ipv4Addr * Z * Ipv4Addr * Z * Z)) :=
  match e ← parse frame; ipv4 e with
  | None => mret None
  | Some ip =>
    (t ← tcp ip;
     match t with
     | None => mret None
     | Some t =>
       h ← ip_header ip; sp ← tcp_src_port t; dp ← tcp_dst_port t; th ← tcp_header t;
       mret (Some (Ip.src h, sp, Ip.dst h, dp, Tcp.flags th))
     end)%stdpp
  end.

(** ** LAN to WAN *)

(** The neighbour table's request buffer, [&req_buf[..n]]. *)
Definition arp_buf : bytes := replicate FRAME_LEN 0.

Definition lan_egress_nat (a : AppCtx) (now : Tick) (m : bytes) : M unit :=
  match wan_port a with
  | None => ret ()
  | Some wan =>
    gw <- gets gateway_ip ;;
    match gw with
    | None => ret ()
    | Some gateway_ip =>
      w <- gets (λ t, wan_ip (nat t)) ;;
      if w =? 0 then ret ()
      else
        tuple <- lift (parse_tcp_tuple m) ;;
        match tuple with
        | None => ret ()
        | Some (int_ip, int_port, ext_ip, ext_port, flags) =>
          ct <- gets conntrack ;;
          set_conntrack (observe_egress ct
            {| int_ip := int_ip; int_port := int_port; ext_ip := ext_ip; ext_port := ext_port |} flags now).1 ;;
          n <- gets nat ;;
          '(m, n, r) <- lift (translate_egress m n) ;;
          set_nat n ;;
          match r with
          | None => ret ()
          | Some _ =>
            nb <- gets wan_neighbors ;;
            let '(nb, req_buf, act) := resolve nb gateway_ip m arp_buf now in
            set_wan_neighbors nb ;;
            let p := wan_port_of wan in
            match act with
            | Forward mac packet => emit p (set_ethernet packet (ether_addr p) mac)
            | Queued (Some n) => f <- lift (get_range req_buf 0 n) ;; emit p f
            | Queued None => ret ()
            | Drop_ _ => ret ()
            end
          end
        end
    end
  end.

Record LanClass := { l_src_mac : MacAddr; l_dst_mac : MacAddr; l_is_broadcast : bool; l_is_arp : bool;
                     l_is_ipv4 : bool }.

(** The scratch buffer is the result: it is reused for the frames of a burst. *)
Definition handle_lan_ipv4 (a : AppCtx) (now : Tick) (lan : LanPortCtx) (m : bytes) (class : LanClass)
    (scratch : bytes) : M bytes :=
  d <- lift (with_dhcp m) ;;
  match d with
  | Some view =>
    s <- gets (server_of lan) ;;
    '(s, scratch, r) <- lift (DhcpServer.handle s view scratch) ;;
    set_dhcp (pool s) (leases s) ;;
    match r with
    | None => ret scratch
    | Some n => f <- lift (get_range scratch 0 n) ;; emit (lan_port_of lan) f ;; ret scratch
    end
  | None =>
    if bool_decide (l_dst_mac class = app_server_mac a) then lan_egress_nat a now m ;; ret scratch
    else if l_is_broadcast class then
      for_each (lan_ports a) (λ ctx,
        if port_id (lan_port_of ctx) =? port_id (lan_port_of lan) then ret () else emit (lan_port_of ctx) m) ;;
      ret scratch
    else
      transmit_to_mac_or_flood_except a (l_dst_mac class) m (Some (port_id (lan_port_of lan))) ;; ret scratch
  end.

(** Reserve the sender's address, and return the one it held before. *)
Definition lan_arp_pool (lan : LanPortCtx) (pkt : ArpPacket) : M unit :=
  s <- gets (server_of lan) ;;
  s <- lift (DhcpServer.reserve s (sender_ip pkt)) ;;
  set_dhcp (pool s) (leases s) ;;
  old <- gets (λ t, reverse_lookup (lan_neighbors t) (sha pkt)) ;;
  s <- gets (server_of lan) ;;
  match old with
  | Some old_ip =>
    if negb (old_ip =? sender_ip pkt) && (server_start s <=? old_ip) && (old_ip <=? server_end s) then
      s <- lift (DhcpServer.release s old_ip) ;; set_dhcp (pool s) (leases s)
    else ret ()
  | None => ret ()
  end.

(** Learn a mapping and send what was waiting for it. *)
Definition lan_arp_learn (now : Tick) (p : Port) (addr : Ipv4Addr) (m : MacAddr) : M unit :=
  nb <- gets lan_neighbors ;;
  let '(nb, r) := on_arp nb addr m now in
  set_lan_neighbors nb ;;
  send_drained p r.

Definition handle_lan_arp (a : AppCtx) (now : Tick) (lan : LanPortCtx) (m scratch : bytes) : M bytes :=
  match eth ← parse m; pkt ← arp eth; Some (eth, pkt) with
  | None => ret scratch
  | Some (eth, pkt) =>
    let p := lan_port_of lan in
    lan_arp_pool lan pkt ;;
    lan_arp_learn now p (sender_ip pkt) (sha pkt) ;;
    (if negb (target_ip pkt =? 0) then lan_arp_learn now p (target_ip pkt) (tha pkt) else ret ()) ;;
    let tip := target_ip pkt in
    h <- lift (eth_header eth) ;;
    if negb (tip =? app_server_ip a) && is_request pkt && is_broadcast h then
      for_each (lan_ports a) (λ ctx,
        if port_id (lan_port_of ctx) =? port_id p then ret () else emit (lan_port_of ctx) m) ;;
      ret scratch
    else if (tip =? app_server_ip a) && is_request pkt then
      let '(scratch, r) := Arp.build_reply scratch (app_server_mac a) (app_server_ip a) (sha pkt) (sender_ip pkt) in
      match r with
      | None => ret scratch
      | Some n => f <- lift (get_range scratch 0 n) ;; emit p f ;; ret scratch
      end
    else ret scratch
  end.

(** The body of the receive loop of [drive_lan]. *)
Definition lan_frame (a : AppCtx) (now : Tick) (lan : LanPortCtx) (m scratch : bytes) : M bytes :=
  match parse m with
  | None => ret scratch
  | Some eth =>
    h <- lift (eth_header eth) ;;
    let class := {| l_src_mac := src h; l_dst_mac := dst h; l_is_broadcast := is_broadcast h;
                    l_is_arp := is_arp eth; l_is_ipv4 := is_ipv4 eth |} in
    t <- gets fdb ;;
    set_fdb (Fdb.insert_ t (l_src_mac class) (port_id (lan_port_of lan))) ;;
    if l_is_arp class then handle_lan_arp a now lan m scratch
    else if l_is_ipv4 class then handle_lan_ipv4 a now lan m class scratch
    else ret scratch
  end.

Fixpoint lan_frames (a : AppCtx) (now : Tick) (lan : LanPortCtx) (ms : list bytes) (scratch : bytes) : M unit :=
  match ms with
  | [] => ret ()
  | m :: ms => scratch <- lan_frame a now lan m scratch ;; lan_frames a now lan ms scratch
  end.

Definition drive_lan (a : AppCtx) (now : Tick) (lan : LanPortCtx) (received : list bytes) : M unit :=
  lan_frames a now lan received (replicate FRAME_MAX 0).

(** ** WAN to LAN *)

Definition wan_ingress_nat (a : AppCtx) (now : Tick) (m : bytes) : M unit :=
  tuple <- lift (parse_tcp_tuple m) ;;
  match tuple with
  | None => ret ()
  | Some (ext_ip, ext_port, _, _, flags) =>
    n <- gets nat ;;
    '(m, r) <- lift (translate_ingress m n) ;;
    match r with
    | None => ret ()
    | Some ing =>
      ct <- gets conntrack ;;
      let '(ct, ok) := check_ingress ct
        {| int_ip := SourceNat.dst_ip ing; int_port := SourceNat.dst_port ing; ext_ip := ext_ip; ext_port := ext_port |} flags now in
      set_conntrack ct ;;
      if negb ok then ret ()
      else
        match head (lan_ports a) with
        | None => ret ()
        | Some any_lan =>
          nb <- gets lan_neighbors ;;
          let '(nb, req_buf, act) := resolve nb (SourceNat.dst_ip ing) m arp_buf now in
          set_lan_neighbors nb ;;
          match act with
          | Forward mac packet =>
            transmit_to_mac_or_flood_except a mac
              (set_ethernet packet (ether_addr (lan_port_of any_lan)) mac) None
          | Queued (Some n) =>
            f <- lift (get_range req_buf 0 n) ;;
            for_each (lan_ports a) (λ ctx, emit (lan_port_of ctx) f)
          | Queued None => ret ()
          | Drop_ _ => ret ()
          end
        end
    end
  end.

Definition wan_arp_learn (now : Tick) (p : Port) (addr : Ipv4Addr) (m : MacAddr) : M unit :=
  nb <- gets wan_neighbors ;;
  let '(nb, r) := on_arp nb addr m now in
  set_wan_neighbors nb ;;
  send_drained p r.

Definition handle_wan_arp (now : Tick) (wan : WanPortCtx) (m : bytes) : M unit :=
  match eth ← EthernetView_parse m; arp eth with
  | None => ret ()
  | Some pkt =>
    let p := wan_port_of wan in
    (if negb (sender_ip pkt =? 0) then wan_arp_learn now p (sender_ip pkt) (sha pkt) else ret ()) ;;
    (if negb (target_ip pkt =? 0) then wan_arp_learn now p (target_ip pkt) (tha pkt) else ret ())
  end.

Record WanClass := { w_src_mac : MacAddr; w_is_arp : bool; w_is_ipv4 : bool }.

(** The body of the receive loop of [drive_wan]. *)
Definition wan_frame (a : AppCtx) (now : Tick) (wan : WanPortCtx) (m : bytes) : M unit :=
  match parse m with
  | None => ret ()
  | Some eth =>
    h <- lift (eth_header eth) ;;
    let class := {| w_src_mac := src h; w_is_arp := is_arp eth; w_is_ipv4 := is_ipv4 eth |} in
    t <- gets fdb ;;
    set_fdb (Fdb.insert_ t (w_src_mac class) (port_id (wan_port_of wan))) ;;
    if w_is_arp class then handle_wan_arp now wan m
    else
      d <- lift (with_dhcp m) ;;
      match d with
      | Some view =>
        c <- gets wan_client ;;
        c <- lift (on_receive c view) ;;
        b <- gets wan_bound ;;
        g <- gets wan_gateway ;;
        set_wan c b g
      | None => if w_is_ipv4 class then wan_ingress_nat a now m else ret ()
      end
  end.

(** What [drive_wan] does after the receive loop: act on a new lease, or let
    the DHCP client send its next message. *)
Definition wan_control (wan : WanPortCtx) (scratch : bytes) : M unit :=
  let p := wan_port_of wan in
  c <- gets wan_client ;;
  match bound_ip c with
  | Some wan_ip =>
    old <- gets wan_bound ;;
    g <- gets wan_gateway ;;
    set_wan c wan_ip g ;;
    if negb (old =? wan_ip) then
      nb <- gets wan_neighbors ;;
      set_wan_neighbors (set_our_ip nb wan_ip) ;;
      n <- gets nat ;;
      set_nat (set_wan_ip n wan_ip) ;;
      match l ← lease c; lease_gateway l with
      | None => ret ()
      | Some gw =>
        set_wan c wan_ip gw ;;
        let '(frame, r) := build_request arp_buf (ether_addr p) wan_ip gw in
        match r with Some _ => emit p frame | None => ret () end
      end
    else ret ()
  | None =>
    '(c, scratch, r) <- lift (poll c scratch) ;;
    b <- gets wan_bound ;;
    g <- gets wan_gateway ;;
    set_wan c b g ;;
    match r with
    | None => ret ()
    | Some n => f <- lift (get_range scratch 0 n) ;; emit p f
    end
  end.

Definition drive_wan (a : AppCtx) (now : Tick) (wan : WanPortCtx) (received : list bytes) : M unit :=
  for_each received (wan_frame a now wan) ;;
  wan_control wan (replicate FRAME_MAX 0).

Definition drive (a : AppCtx) (now : Tick) (port : PortCtx) (received : list bytes) : M unit :=
  match port with
  | Wan w => drive_wan a now w received
  | Lan l => drive_lan a now l received
  end.

(** ** Sweeping; [iter] is the order in which the hash maps are traversed *)

Section sweeping.
Context (iter : gmap Ipv4Addr (Pending bytes) → list (Ipv4Addr * Pending bytes)).

Definition sweep_port (now : Tick) (port : PortCtx) : M unit :=
  match port with
  | Wan w =>
    nb <- gets wan_neighbors ;;
    let '(nb, _, requests) := Neighbor.sweep iter nb now in
    set_wan_neighbors nb ;;
    for_each requests (emit (wan_port_of w))
  | Lan l =>
    nb <- gets lan_neighbors ;;
    let '(nb, _, requests) := Neighbor.sweep iter nb now in
    set_lan_neighbors nb ;;
    for_each requests (emit (lan_port_of l))
  end.

Definition maybe_sweep (a : AppCtx) (now : Tick) : M unit :=
  last <- gets last_sweep_ms ;;
  if negb (last =? 0) && (Z.max 0 (now - last) <? SWEEP_INTERVAL_MS) then ret ()
  else
    set_last_sweep (Z.min now (2 ^ 32 - 1)) ;;
    for_each (ports a) (sweep_port now) ;;
    ct <- gets conntrack ;;
    set_conntrack (Conntrack.sweep ct now).

(** One turn of the poll loop of [AppCtx::run]: each port with the frames that
    its poll returned, then the sweep on the sweeper core. *)
Definition run_iteration (a : AppCtx) (now : Tick) (is_sweeper : bool) (received : list (list bytes)) : M unit :=
  for_each (zip (ports a) received) (λ '(port, ms), drive a now port ms) ;;
  if is_sweeper then maybe_sweep a now else ret ().
End sweeping.
