(* ===== verification/Datapath.v ===== *)
(** * Properties of the datapath

    Total-correctness reasoning for the handlers of [App] ([wp]), and the
    property of the composed router that no frame makes a worker panic or
    breaks a table.  The behaviours that the handlers have against their intent
    are shown on a sample router. *)

From S2P Require Import Prelude Wire Ethernet Ip Udp Tcp Arp Dhcp View SourceNat Neighbor Conntrack AddrPool Frame Fdb Leases.
From S2P Require Import DhcpFrame DhcpServer DhcpClient Worker App.
#[local] Open Scope app_scope.

(** ** Reasoning about handlers *)

(** [m] does not panic from [t], and its result, state and output satisfy [Q]. *)
Definition wp {A} (m : M A) (t : Tables) (Q : A → Tables → list Tx → Prop) : Prop :=
  match m t with Ret (a, t', o) => Q a t' o | Panic => False end.

Lemma wp_bind {A B} (m : M A) (k : A → M B) t Q :
  wp m t (λ a t1 o1, wp (k a) t1 (λ b t2 o2, Q b t2 (o1 ++ o2))) → wp (bind m k) t Q.
Proof.
  unfold wp, bind. destruct (m t) as [[[a t1] o1]|]; [|done]. by destruct (k a t1) as [[[b t2] o2]|].
Qed.
Lemma wp_ret {A} (a : A) t (Q : A → Tables → list Tx → Prop) : Q a t [] → wp (ret a) t Q.
Proof. done. Qed.
Lemma wp_emit p f t (Q : unit → Tables → list Tx → Prop) :
  Q () t [{| tx_port := port_id p; tx_frame := f |}] → wp (emit p f) t Q.
Proof. done. Qed.
Lemma wp_gets {A} (f : Tables → A) t (Q : A → Tables → list Tx → Prop) : Q (f t) t [] → wp (gets f) t Q.
Proof. done. Qed.
Lemma wp_lift {A} (m : outcome A) t (Q : A → Tables → list Tx → Prop) :
  (∃ a, m = Ret a ∧ Q a t []) → wp (lift m) t Q.
Proof. by intros (a & -> & H). Qed.
Lemma wp_det {A} (m : M A) t a t' o (Q : A → Tables → list Tx → Prop) :
  m t = Ret (a, t', o) → Q a t' o → wp m t Q.
Proof. unfold wp. by intros ->. Qed.
Lemma wp_mono {A} (m : M A) t (Q R : A → Tables → list Tx → Prop) :
  (∀ a t' o, Q a t' o → R a t' o) → wp m t Q → wp m t R.
Proof. unfold wp. intros HR. destruct (m t) as [[[a t'] o]|]; [apply HR|done]. Qed.
Lemma wp_run {A} (m : M A) t (Q : A → Tables → list Tx → Prop) :
  wp m t Q ↔ ∃ a t' o, m t = Ret (a, t', o) ∧ Q a t' o.
Proof.
  unfold wp. destruct (m t) as [[[a t'] o]|]; split.
  - intros. by exists a, t', o.
  - by intros (? & ? & ? & [= <- <- <-] & ?).
  - done.
  - by intros (? & ? & ? & ? & ?).
Qed.

(** A loop, by an invariant over the state and the output so far. *)
Lemma wp_for_each {A} (l : list A) (f : A → M unit) (I : Tables → list Tx → Prop) t o :
  I t o → (∀ x t o, x ∈ l → I t o → wp (f x) t (λ _ t' o', I t' (o ++ o'))) →
  wp (for_each l f) t (λ _ t' o', I t' (o ++ o')).
Proof.
  revert t o. induction l as [|x l IH]; intros t o HI Hf.
  { apply wp_ret. by rewrite app_nil_r. }
  cbn [for_each]. apply wp_bind. eapply wp_mono; [|by apply (Hf x t o); [set_solver|]].
  intros [] t1 o1 H1. eapply wp_mono; [|by apply (IH t1 (o ++ o1)); [|intros; apply Hf; [set_solver|]]].
  intros [] t2 o2 H2. by rewrite app_assoc.
Qed.

(** A loop that only sends. *)
Lemma for_each_emits {A} (l : list A) (f : A → M unit) (out : A → list Tx) t :
  (∀ x t, x ∈ l → f x t = Ret ((), t, out x)) → for_each l f t = Ret ((), t, l ≫= out).
Proof.
  revert t. induction l as [|x l IH]; intros t Hf; [done|]. cbn [for_each]. unfold bind at 1.
  rewrite Hf by set_solver. rewrite IH by (intros; apply Hf; set_solver). done.
Qed.

(** Steps that are not calls of a table. *)
Ltac wp_step :=
  match goal with
  | |- wp (bind _ _) _ _ => apply wp_bind
  | |- wp (ret _) _ _ => apply wp_ret
  | |- wp (emit _ _) _ _ => apply wp_emit
  | |- wp (gets _) _ _ => apply wp_gets
  | |- wp (lift _) _ _ => apply wp_lift
  | |- wp (set_fdb _) _ _ => eapply wp_det; [reflexivity|]
  | |- wp (set_nat _) _ _ => eapply wp_det; [reflexivity|]
  | |- wp (set_conntrack _) _ _ => eapply wp_det; [reflexivity|]
  | |- wp (set_wan_neighbors _) _ _ => eapply wp_det; [reflexivity|]
  | |- wp (set_wan _ _ _) _ _ => eapply wp_det; [reflexivity|]
  | |- wp (set_lan_neighbors _) _ _ => eapply wp_det; [reflexivity|]
  | |- wp (set_dhcp _ _) _ _ => eapply wp_det; [reflexivity|]
  | |- wp (set_last_sweep _) _ _ => eapply wp_det; [reflexivity|]
  end; cbn beta iota.
Ltac wp_steps := cbn beta iota; repeat wp_step.
Tactic Notation "name_state" ident(t') := match goal with |- wp _ ?x _ => set (t' := x) end.

(** ** Reading a frame *)

(** [parse_tcp_tuple] never panics. *)
Lemma parse_tcp_tuple_eq m :
  parse_tcp_tuple m = Ret (
    eth ← parse m; ip ← ipv4 eth;
    if protocol (of_bytes (slice (ip_start ip) 20 (ip_buf ip))) =? proto_TCP then
      t ← TcpView_parse_at (ip_buf ip) (l4_start ip) (ip_end ip);
      Some (Ip.src (of_bytes (slice (ip_start ip) 20 m)), Tcp.src_port (of_bytes (slice (tcp_start t) 20 m)),
            Ip.dst (of_bytes (slice (ip_start ip) 20 m)), Tcp.dst_port (of_bytes (slice (tcp_start t) 20 m)),
            Tcp.flags (of_bytes (slice (tcp_start t) 20 m)))
    else None)%stdpp.
Proof.
  unfold parse_tcp_tuple. destruct (parse m) as [e|] eqn:Ee; [|done]. apply eth_parse_wf in Ee as (_ & Eb & _).
  cbn [mbind option_bind]. destruct (ipv4 e) as [ip|] eqn:Ei; [|done].
  cbv beta iota delta [mbind option_bind]. apply ipv4_wf in Ei as (Hip & Eb' & _). rewrite tcp_Ret by done. cbn [mbind outcome_bind].
  destruct (_ =? proto_TCP); [|done]. destruct (TcpView_parse_at _ _ _) as [t|] eqn:Et; [|done].
  pose proof Hip as (_ & _ & Hle). apply tcp_parse_wf in Et as (Ht & Etb & _); [|done].
  unfold tcp_src_port, tcp_dst_port. rewrite ip_header_Ret, tcp_header_Ret by done. cbn [mbind outcome_bind].
  by rewrite Etb, Eb', Eb.
Qed.

(** What it reads is what the translations classify. *)
Lemma tuple_classify m ip p ip' p' fl :
  parse_tcp_tuple m = Ret (Some (ip, p, ip', p', fl)) →
  ∃ f h, classify_egress m = Ret (Some f) ∧ f_l4 f = L4_Tcp ∧ f_ip f = ip ∧ f_port f = p ∧
    classify_ingress m = Ret (Some h) ∧ f_l4 h = L4_Tcp ∧ f_ip h = ip' ∧ f_port h = p'.
Proof.
  rewrite parse_tcp_tuple_eq. intros [= H]. apply bind_Some in H as (e & Ee & H). apply bind_Some in H as (v & Ev & H).
  destruct (_ =? proto_TCP) eqn:Ep in H; [|done]. apply bind_Some in H as (t & Et & H).
  change ((protocol (of_bytes (slice (ip_start v) 20 (ip_buf v))) =? proto_TCP) = true) in Ep.
  pose proof Ee as Hb. apply eth_parse_wf in Hb as (_ & Eb & _).
  pose proof Ev as Hv. apply ipv4_wf in Hv as (Hv & Eb' & _). rewrite Eb in Eb'.
  pose proof Hv as (_ & _ & Hle). pose proof Et as Ht. apply tcp_parse_wf in Ht as (Ht & Etb & _); [|done].
  rewrite Eb' in Etb.
  assert (∀ addr tport uport, classify addr tport uport m =
    (q ← tport t; mret (Some {| f_ip_off := ip_start v; f_l4_off := tcp_start t; f_l4 := L4_Tcp;
       f_ip := addr (of_bytes (slice (ip_start v) 20 m)); f_port := q |}))%stdpp) as Hc.
  { intros addr tport uport. unfold classify. rewrite Ee. cbn [obind]. rewrite Ev. cbn [obind].
    unfold ip_protocol. rewrite ip_header_Ret by done. cbn [mbind outcome_bind mret outcome_ret].
    pose proof (proj1 (Z.eqb_eq _ _) Ep) as Ep'. rewrite Ep'. change (L4_from_proto proto_TCP) with (Some L4_Tcp). cbn [obind].
    rewrite tcp_Ret, Ep by done. cbn [obind mbind outcome_bind]. rewrite Et. cbn [obind].
    destruct (tport t); [|done]. cbn [obind mbind outcome_bind mret outcome_ret]. by rewrite Eb'. }
  eexists _, _. unfold classify_egress, classify_ingress. rewrite !Hc.
  unfold tcp_src_port, tcp_dst_port. rewrite tcp_header_Ret, Etb by done. cbn [mbind outcome_bind mret outcome_ret].
  injection H as <- <- <- <- <-. by split_and!.
Qed.

Lemma with_dhcp_Ret m : ∃ d, with_dhcp m = Ret d ∧ ∀ v, d = Some v → dhcp_view_wf v ∧ dhcp_buf v = m.
Proof.
  unfold with_dhcp. destruct (e ← parse m; ipv4 e)%stdpp as [v|] eqn:E; [|by exists None].
  apply bind_Some in E as (e & Ee & Ev). apply eth_parse_wf in Ee as (_ & Eb & _).
  apply ipv4_wf in Ev as (Hv & Eb' & _). rewrite udp_Ret by done. cbn [mbind outcome_bind].
  destruct (_ =? proto_UDP); [|by exists None]. destruct (UdpView_parse_at _ _ _) as [u|] eqn:Eu; [|by exists None].
  pose proof Hv as (_ & _ & Hle). apply udp_parse_wf in Eu as (Hu & Ebu & _); [|done].
  unfold udp_dhcp, udp_is_dhcp, udp_src_port, udp_dst_port. rewrite udp_header_Ret by done.
  cbn [mbind outcome_bind mret outcome_ret]. eexists. split; [reflexivity|]. intros d Hd. case_match; [|done].
  destruct Hu as (_ & _ & Hle'). apply dhcp_parse_wf in Hd as (? & ? & _); [|done]. split; congruence.
Qed.

(** A TCP packet is not taken for a DHCP message. *)
Lemma tuple_not_dhcp m x : parse_tcp_tuple m = Ret (Some x) → with_dhcp m = Ret None.
Proof.
  rewrite parse_tcp_tuple_eq. intros H. apply (f_equal (λ o, match o with Ret o => o | Panic => None end)) in H.
  apply bind_Some in H as (e & Ee & H). apply bind_Some in H as (v & Ev & H).
  destruct (_ =? proto_TCP) eqn:Ep in H; [|done]. unfold with_dhcp. rewrite Ee. cbn [mbind option_bind]. rewrite Ev.
  apply ipv4_wf in Ev as (Hv & _). rewrite udp_Ret by done. cbn [mbind outcome_bind].
  apply Z.eqb_eq in Ep. by rewrite Ep.
Qed.

(** ** Invariant of the tables *)

Record tables_wf (t : Tables) : Prop := {
  tw_nat : nat_wf (nat t);
  tw_client : mac_ok (mac (wan_client t));
  tw_lease : ∀ l, lease (wan_client t) = Some l → u32 (ip l);
  tw_dhcp : state_wf (lan_pool t) (lan_leases t);
  tw_wan_mac : mac_ok (our_mac (wan_neighbors t));
  tw_lan_mac : mac_ok (our_mac (lan_neighbors t));
}.

(** The pieces of the tables that [tables_wf] reads. *)
Lemma tables_wf_ext t t' :
  nat t' = nat t → wan_client t' = wan_client t → lan_pool t' = lan_pool t → lan_leases t' = lan_leases t →
  our_mac (wan_neighbors t') = our_mac (wan_neighbors t) → our_mac (lan_neighbors t') = our_mac (lan_neighbors t) →
  tables_wf t → tables_wf t'.
Proof. intros En Ec Ep El Ew Eln []. split; by rewrite ?En, ?Ec, ?Ep, ?El, ?Ew, ?Eln. Qed.

(** ** No frame from the WAN makes a worker panic *)

Lemma request_range (nb : NeighborTable bytes) target m now nb' buf n :
  mac_ok (our_mac nb) → resolve nb target m arp_buf now = (nb', buf, Queued (Some n)) → ∃ f, get_range buf 0 n = Ret f.
Proof.
  intros Hm. unfold resolve. destruct (cache nb !! target); [done|]. case_bool_decide; [done|].
  case_bool_decide; [|done]. rewrite build_request_eq by done. intros [[_ <-]%pair_eq Ea]%pair_eq.
  assert (n = FRAME_LEN) as -> by congruence.
  eexists. apply get_range_Ret; [lia|]. rewrite length_app, length_arp_frame by (done || apply Hm). lia.
Qed.

(** [for_each] over handlers that always return and leave the tables alone. *)
Lemma wp_sends {A} (l : list A) (f : A → M unit) t (Q : unit → Tables → list Tx → Prop) :
  (∀ x t, ∃ o, f x t = Ret ((), t, o)) → (∀ o, Q () t o) → wp (for_each l f) t Q.
Proof.
  intros Hf HQ. assert (∃ o, for_each l f t = Ret ((), t, o)) as [o E].
  { clear HQ. revert t. induction l as [|x l IH]; intros t; [by eexists|]. cbn [for_each].
    destruct (Hf x t) as [o1 E1]. destruct (IH t) as [o2 E2]. unfold bind. rewrite E1, E2. by eexists. }
  unfold wp. by rewrite E.
Qed.

Lemma wp_transmit a m packet ex t (Q : unit → Tables → list Tx → Prop) :
  (∀ o, Q () t o) → wp (transmit_to_mac_or_flood_except a m packet ex) t Q.
Proof.
  intros HQ. unfold transmit_to_mac_or_flood_except. wp_steps. cbn [app].
  destruct (Fdb.lookup_ (fdb t) m) as [port|].
  - case_bool_decide; [by apply wp_ret|]. destruct (lan_port_by_id a port); [by apply wp_emit|by apply wp_ret].
  - apply wp_sends; [|done]. intros x t'. case_bool_decide; by eexists.
Qed.

Lemma wp_send_drained p r t (Q : unit → Tables → list Tx → Prop) : (∀ o, Q () t o) → wp (send_drained p r) t Q.
Proof.
  intros HQ. unfold send_drained. destruct r as [[m ds]|]; [|by apply wp_ret].
  apply wp_sends; [|done]. intros x t'. by eexists.
Qed.

Lemma resolve_our_mac (nb nb' : NeighborTable bytes) target m buf now buf' act :
  resolve nb target m buf now = (nb', buf', act) → our_mac nb' = our_mac nb.
Proof.
  unfold resolve. destruct (cache nb !! target); [by intros [= <- <- <-]|].
  case_bool_decide; [by intros [= <- <- <-]|]. case_bool_decide; [|by intros [= <- <- <-]].
  destruct (build_request _ _ _ _). by intros [= <- <- <-].
Qed.
Lemma on_arp_our_mac (nb nb' : NeighborTable bytes) target m now r :
  on_arp nb target m now = (nb', r) → our_mac nb' = our_mac nb.
Proof. unfold on_arp. by intros [= <- <-]. Qed.

(** Any parsed tuple is translated or not, without a panic. *)
Lemma translate_ingress_total m n : ∃ m' r, translate_ingress m n = Ret (m', r).
Proof.
  destruct (classify_ingress_total m) as [[h|] Hc].
  - destruct (ingress n (f_l4 h) (f_port h)) as [[? ?]|] eqn:Ei.
    + rewrite (translate_ingress_Some _ _ _ _ _ Hc Ei). by eexists _, _.
    + unfold translate_ingress. rewrite Hc. cbn [mbind outcome_bind]. rewrite Ei. by eexists _, _.
  - unfold translate_ingress. rewrite Hc. by eexists _, _.
Qed.

Lemma parse_tcp_tuple_total m : ∃ o, parse_tcp_tuple m = Ret o.
Proof. rewrite parse_tcp_tuple_eq. by eexists. Qed.

(** A handler that never panics and keeps the invariant. *)
Abbreviation safe m t := (wp m t (λ _ t' _, tables_wf t')).

Lemma wan_ingress_nat_safe a now m t : tables_wf t → safe (wan_ingress_nat a now m) t.
Proof.
  intros Ht. unfold wan_ingress_nat. wp_steps. destruct (parse_tcp_tuple_total m) as [o ->]. eexists. split; [done|].
  destruct o as [[[[[xip xport] ?] ?] fl]|]; [|by apply wp_ret]. wp_steps.
  destruct (translate_ingress_total m (nat t)) as (m' & r & ->). eexists. split; [done|].
  destruct r as [ing|]; [|by apply wp_ret]. wp_steps.
  destruct (check_ingress _ _ _ _) as [ct ok]. wp_steps.
  name_state t1. assert (tables_wf t1) as Ht1 by (by apply (tables_wf_ext t)).
  destruct ok; cbn [negb]; [|by apply wp_ret]. destruct (head (lan_ports a)) as [any|]; [|by apply wp_ret].
  wp_steps. destruct (resolve (P := bytes) _ _ _ _ _) as [[nb buf] act] eqn:Er. apply resolve_our_mac in Er as Em.
  wp_steps. name_state t2.
  assert (tables_wf t2) as Ht2 by (by apply (tables_wf_ext t1)).
  destruct act as [mac p|[n|]|]; [by apply wp_transmit| |by apply wp_ret..].
  apply request_range in Er as [f Ef]; [|apply Ht1]. wp_steps. exists f. split; [done|].
  apply wp_sends; [|done]. by eexists.
Qed.

Lemma wan_arp_learn_safe now p x m t : tables_wf t → safe (wan_arp_learn now p x m) t.
Proof.
  intros Ht. unfold wan_arp_learn. wp_steps. destruct (on_arp (P := bytes) _ _ _ _) as [nb r] eqn:Er.
  apply on_arp_our_mac in Er. wp_steps. apply wp_send_drained. intros o. by apply (tables_wf_ext t).
Qed.
Lemma lan_arp_learn_safe now p x m t : tables_wf t → safe (lan_arp_learn now p x m) t.
Proof.
  intros Ht. unfold lan_arp_learn. wp_steps. destruct (on_arp (P := bytes) _ _ _ _) as [nb r] eqn:Er.
  apply on_arp_our_mac in Er. wp_steps. apply wp_send_drained. intros o. by apply (tables_wf_ext t).
Qed.

Lemma handle_wan_arp_safe now wan m t : tables_wf t → safe (handle_wan_arp now wan m) t.
Proof.
  intros Ht. unfold handle_wan_arp. destruct (_ ≫= _) as [pkt|]; [|by apply wp_ret]. cbn zeta. wp_step.
  eapply (wp_mono _ _ (λ _ t' _, tables_wf t')).
  - intros [] t1 o1 H1. destruct (negb (target_ip pkt =? 0)); [by apply wan_arp_learn_safe|by apply wp_ret].
  - destruct (negb (sender_ip pkt =? 0)); [by apply wan_arp_learn_safe|by apply wp_ret].
Qed.

Lemma on_receive_safe c v :
  msg_ok v → (∀ l, lease c = Some l → u32 (ip l)) →
  ∃ c', on_receive c v = Ret c' ∧ mac c' = mac c ∧ ∀ l, lease c' = Some l → u32 (ip l).
Proof.
  intros (Hv & _ & _ & Hy) Hl. destruct (decide (xid (view_header v) = client_xid c)) as [Ex|Ex].
  - rewrite on_receive_own by done. eexists. split; [reflexivity|].
    destruct (get_message_type (view_opts v)) as [[]|], (state c); (split; [done|]); try done; by intros ? [= <-].
  - exists c. unfold on_receive. rewrite dhcp_header_Ret by done. cbn [mbind outcome_bind]. fold (view_header v).
    by rewrite (proj2 (Z.eqb_neq _ _) Ex).
Qed.

Lemma wan_frame_safe a now wan m t : Forall u8 m → tables_wf t → safe (wan_frame a now wan m) t.
Proof.
  intros Hb Ht. unfold wan_frame. destruct (parse m) as [e|] eqn:Ee; [|by apply wp_ret].
  apply eth_parse_wf in Ee as (He & _). wp_steps. rewrite eth_header_Ret by done. eexists. split; [done|].
  wp_steps. name_state t1. assert (tables_wf t1) as Ht1 by (by apply (tables_wf_ext t)).
  cbn [w_is_arp w_is_ipv4]. destruct (is_arp e); [by apply handle_wan_arp_safe|].
  wp_steps. destruct (with_dhcp_Ret m) as (d & -> & Hd). eexists. split; [done|]. destruct d as [v|].
  - destruct (Hd v eq_refl) as [Hv Eb]. wp_steps.
    destruct (on_receive_safe (wan_client t1) v) as (c & Ec & Hm & Hl); [apply view_msg_ok; by rewrite ?Eb|apply Ht1|].
    exists c. split; [done|]. wp_steps. destruct Ht1. split; cbn; try done. by rewrite Hm.
  - destruct (is_ipv4 e); [by apply wan_ingress_nat_safe|by apply wp_ret].
Qed.

Lemma poll_safe c out :
  mac_ok (mac c) → ∃ c' b r, poll c out = Ret (c', b, r) ∧ mac c' = mac c ∧ lease c' = lease c ∧ fits out (b, r).
Proof.
  intros Hm. unfold poll. destruct (state c).
  - destruct (build_total c Discover out Hm) as ([b [n|]] & -> & Hf); by eexists _, _, _.
  - by eexists _, _, _.
  - destruct (build_total c Request out Hm) as ([b r] & -> & Hf); by eexists _, _, _.
  - by eexists _, _, _.
Qed.

Lemma nat_wf_wan n x : nat_wf n → u32 x → nat_wf (set_wan_ip n x).
Proof. intros [] ?. by split. Qed.

Lemma fits_range out b n : fits out (b, Some n) → get_range b 0 n = Ret (firstn n b).
Proof.
  intros [Hl Hn]. cbn [fst snd] in *. rewrite get_range_Ret by (rewrite ?Hl; auto with lia).
  unfold slice. by rewrite Nat.sub_0_r, drop_0.
Qed.

Lemma wan_control_safe wan scratch t :
  mac_ok (ether_addr (wan_port_of wan)) → tables_wf t → safe (wan_control wan scratch) t.
Proof.
  intros Hp Ht. pose proof Ht as [Hn Hc Hl Hd Hw Hlm]. unfold wan_control. cbn zeta. wp_steps.
  destruct (bound_ip (wan_client t)) as [w|] eqn:Eb.
  - assert (u32 w) as Hu.
    { unfold bound_ip in Eb. destruct (lease (wan_client t)) as [l|] eqn:El; [|done]. injection Eb as <-. by apply Hl. }
    wp_steps. destruct (negb (_ =? w)); [|by apply wp_ret, (tables_wf_ext t)]. wp_steps.
    assert (nat_wf (set_wan_ip (nat t) w)) as Hn' by (by apply nat_wf_wan).
    destruct (_ ≫= _) as [gw|]; [|by wp_steps; split].
    wp_steps. destruct (build_request _ _ _ _) as [f [n|]]; wp_steps; by split.
  - wp_steps. destruct (poll_safe (wan_client t) scratch Hc) as (c' & b & r & -> & Hm & El & Hf).
    eexists. split; [done|]. wp_steps. destruct r as [n|].
    + wp_steps. rewrite (fits_range _ _ _ Hf). eexists. split; [done|]. wp_steps. split; cbn; by rewrite ?Hm, ?El.
    + wp_steps. split; cbn; by rewrite ?Hm, ?El.
Qed.

(** A pool with no leases yet. *)
Lemma empty_leases_wf p : pool_wf p → state_wf p Leases.default_.
Proof.
  intros Hp. pose proof Hp as (Hs & He & _). assert (leased Leases.default_ = ∅) as El by reflexivity.
  split; rewrite ?El; cbn [fp_inv fp_bounds fp_free AddressPool_FreePool fst snd]; try done; [apply Hs|apply He].
Qed.

(** ** A sample router: bound to 203.0.113.7, one WAN port and two LAN ports *)

Module Sample.
Definition lan_port (id : Z) : LanPortCtx :=
  {| lan_port_of := {| port_id := id; ether_addr := [2; 0; 0; 0; 1; id] |}; lan_dhcp := DhcpServer.Sample.config |}.
Definition wan : WanPortCtx := {| wan_port_of := {| port_id := 0; ether_addr := [2; 0; 0; 0; 0; 7] |} |}.
Definition app : AppCtx :=
  {| app_server_ip := ip4 192 168 0 1; app_server_mac := [2; 0; 0; 0; 0; 1];
     ports := [Wan wan; Lan (lan_port 1); Lan (lan_port 2)] |}.
Definition gateway : Ipv4Addr := ip4 203 0 113 1.
Definition gateway_mac : MacAddr := [2; 0; 0; 0; 0; 99].
Definition host : Ipv4Addr := ip4 192 168 0 10.
Definition host_mac : MacAddr := [10; 0; 0; 0; 0; 1].
Definition peer : Ipv4Addr := ip4 8 8 8 8.
Definition tables : Tables := {|
  fdb := Fdb.new; nat := sample_nat; conntrack := Conntrack.new;
  wan_neighbors := Neighbor.insert_ (Neighbor.new (P := bytes) [2; 0; 0; 0; 0; 7] (ip4 203 0 113 7)) gateway gateway_mac 0;
  wan_client := DhcpClient.new [2; 0; 0; 0; 0; 7] 5; wan_bound := ip4 203 0 113 7; wan_gateway := gateway;
  lan_neighbors := Neighbor.insert_ (Neighbor.new (P := bytes) [2; 0; 0; 0; 0; 1] (ip4 192 168 0 1)) host host_mac 0;
  lan_pool := {| start := host; end_ := ip4 192 168 0 12; intervals := [(ip4 192 168 0 11, ip4 192 168 0 12)] |}; lan_leases := Leases.default_; last_sweep_ms := 0 |}.

(** A TCP segment without payload. *)
Definition segment (d s : MacAddr) (sip : Ipv4Addr) (sp : Z) (dip : Ipv4Addr) (dp flags : Z) : bytes :=
  d ++ s ++ [8; 0] ++ [69; 0; 0; 40; 0; 0; 0; 0; 64; 6; 0; 0] ++ octets sip ++ octets dip ++
  to_be16 sp ++ to_be16 dp ++ [0; 0; 0; 0; 0; 0; 0; 0; 80; flags; 255; 255; 0; 0; 0; 0].
(** The host opens a connection, and the peer's answer. *)
Definition syn : bytes := segment [2; 0; 0; 0; 0; 1] host_mac host 5000 peer 443 2.
Definition syn_ack : bytes := segment [2; 0; 0; 0; 0; 7] gateway_mac peer 443 (ip4 203 0 113 7) 40000 18.
(** [who] claims the address [x] and asks for [target]. *)
Definition arp_request (who : MacAddr) (x target : Ipv4Addr) : bytes :=
  (Arp.build_request (replicate FRAME_LEN 0) who x target).1.
Definition scratch : bytes := replicate FRAME_MAX 0.

Lemma tables_ok : tables_wf tables.
Proof.
  split.
  - exact sample_nat_wf.
  - split; [reflexivity|decide_now].
  - intros l [=].
  - apply empty_leases_wf. split_and!; decide_now.
  - split; [reflexivity|decide_now].
  - split; [reflexivity|decide_now].
Qed.
End Sample.

(** C9: robustness towards the WAN: whatever frames arrive on the WAN port, in
    whatever number, the worker's cycle on that port (parsing, ARP, DHCP client,
    inbound translation, firewall, forwarding, and the lease handling after the
    burst) does not panic, and the NAT table, the DHCP client, the address pool
    and the leases stay well-formed. *)
Theorem wan_never_panics (a : AppCtx) (now : Tick) (wan : WanPortCtx) (received : list bytes) (t : Tables)
    (Hport : mac_ok (ether_addr (wan_port_of wan))) (Ht : tables_wf t) (Hb : Forall (Forall u8) received) :
  ∃ t' o, drive_wan a now wan received t = Ret ((), t', o) ∧ tables_wf t'.
Proof.
  assert (safe (drive_wan a now wan received) t) as Hs.
  { unfold drive_wan. wp_step. apply (wp_mono _ _ (λ _ t' _, tables_wf t')); [by intros [] t1 o1; apply wan_control_safe|].
    apply (wp_for_each received (wan_frame a now wan) (λ t _, tables_wf t) t []); [done|].
    intros m t1 o1 Hm H1. apply wan_frame_safe; [|done]. 
    exact (proj1 (List.Forall_forall _ _) Hb m (proj1 (list_elem_of_In _ _) Hm)). }
  apply wp_run in Hs as ([] & t' & o & E & H). by exists t', o.
Qed.
Lemma wan_never_panics_witness :
  ∃ t' o, drive_wan Sample.app 5 Sample.wan [Sample.syn_ack; Sample.arp_request [2; 0; 0; 0; 0; 99] 77 78; [1; 2; 3]] Sample.tables
    = Ret ((), t', o) ∧ tables_wf t'.
Proof.
  apply (wan_never_panics Sample.app 5 Sample.wan).
  - split; [done|]. decide_now.
  - apply Sample.tables_ok.
  - decide_now.
Defined.

(** ** Frames from the LAN *)

Definition app_ok (a : AppCtx) : Prop := mac_ok (app_server_mac a).
Definition lan_ok (lan : LanPortCtx) : Prop := cfg_ok (lan_dhcp lan).

(** The address that an ARP packet makes the router return to the pool: the one
    its sender was last known by, when it changed and is of the pool's range. *)
Definition returned_by (t : Tables) (m : bytes) : option Ipv4Addr :=
  match eth ← parse m; arp eth with
  | None => None
  | Some pkt =>
    match reverse_lookup (lan_neighbors t) (sha pkt) with
    | Some old =>
      if negb (old =? sender_ip pkt) && (start (lan_pool t) <=? old) && (old <=? end_ (lan_pool t))
      then Some old else None
    | None => None
    end
  end%stdpp.

(** That address is in use as far as the pool knows, and not on lease. *)
Definition returns_ok (t : Tables) (m : bytes) : Prop :=
  ∀ old, returned_by t m = Some old → old ∉ free (lan_pool t) ∧ old ∉ leased (lan_leases t).

Lemma translate_egress_total m n : ∃ m' n' r, translate_egress m n = Ret (m', n', r).
Proof.
  destruct (classify_egress_total m) as [[f|] Hc].
  - destruct (egress n (f_l4 f) (f_ip f) (f_port f)) as [n' [x|]] eqn:Ee.
    + rewrite (translate_egress_Some _ _ _ _ _ Hc Ee). by eexists _, _, _.
    + rewrite (translate_egress_None _ _ _ _ Hc Ee). by eexists _, _, _.
  - unfold translate_egress. rewrite Hc. by eexists _, _, _.
Qed.

Lemma lan_egress_nat_safe a now m t : slice_ok m → tables_wf t → safe (lan_egress_nat a now m) t.
Proof.
  intros Hm Ht. unfold lan_egress_nat. destruct (wan_port a) as [wan|]; [|by apply wp_ret]. wp_steps.
  destruct (gateway_ip t) as [gw|]; [|by apply wp_ret]. wp_steps. destruct (_ =? 0); [by apply wp_ret|]. wp_steps.
  destruct (parse_tcp_tuple_total m) as [o ->]. eexists. split; [done|].
  destruct o as [[[[[? ?] ?] ?] fl]|]; [|by apply wp_ret]. wp_steps.
  destruct (translate_egress_total m (nat t)) as (m' & n' & r & Et). eexists. split; [exact Et|].
  apply translate_egress_table in Et as (Hn' & _); [|done|apply Ht]. wp_steps.
  name_state t1. assert (tables_wf t1) as Ht1 by (destruct Ht; by split).
  destruct r; [|by apply wp_ret]. wp_steps. destruct (resolve (P := bytes) _ _ _ _ _) as [[nb buf] act] eqn:Er.
  apply resolve_our_mac in Er as Em. wp_steps. cbn zeta. name_state t2.
  assert (tables_wf t2) as Ht2 by (by apply (tables_wf_ext t1)).
  destruct act as [x p|[k|]|]; [by wp_steps| |by wp_steps..].
  apply request_range in Er as [f Ef]; [|apply Ht1]. wp_steps. exists f. split; [done|]. by wp_steps.
Qed.

(** A handler that also hands the scratch buffer on. *)
Abbreviation safe_scratch m t := (wp m t (λ s t' _, tables_wf t' ∧ length s = FRAME_MAX)).

Lemma handle_lan_ipv4_safe a now lan m class scratch t :
  lan_ok lan → slice_ok m → length scratch = FRAME_MAX → tables_wf t →
  safe_scratch (handle_lan_ipv4 a now lan m class scratch) t.
Proof.
  intros Hlan Hm Hs Ht. unfold handle_lan_ipv4. wp_steps. destruct (with_dhcp_Ret m) as (d & -> & Hd).
  eexists. split; [done|]. destruct d as [v|].
  - destruct (Hd v eq_refl) as [Hv Eb]. wp_steps.
    destruct (handle_spec (server_of lan t) v scratch) as (s' & o & r & E & [_ Hs'] & _ & _ & Hf & _);
      [split; [done|apply Ht]|apply view_msg_ok; [done|rewrite Eb; apply Hm]|].
    eexists. split; [exact E|]. wp_steps. name_state t1.
    assert (tables_wf t1) as Ht1 by (destruct Ht; by split).
    assert (length o = FRAME_MAX) as Lo by (rewrite <- Hs; apply Hf).
    destruct r as [n|]; [|by wp_steps]. wp_steps. rewrite (fits_range _ _ _ Hf). eexists. split; [done|]. by wp_steps.
  - case_bool_decide.
    { wp_step. eapply wp_mono; [|by apply lan_egress_nat_safe]. intros [] t1 o1 H1. by wp_steps. }
    destruct (l_is_broadcast class); wp_step.
    + apply wp_sends; [intros x t'; case_match; by eexists|]. by intros; wp_steps.
    + apply wp_transmit. by intros; wp_steps.
Qed.

Lemma arp_lengths m e pkt : parse m = Some e → arp e = Some pkt → length (sha pkt) = 6%nat.
Proof.
  intros _. unfold arp. case_match; [|done]. intros [Hl ->]%header_at_inv.
  change (size_of ArpPacket) with 28%nat in *. cbn [of_bytes ArpPacket_Pod sha]. rewrite length_slice; [done|].
  rewrite length_slice; lia.
Qed.

Lemma arp_reply_range scratch smac sip tmac tip b r :
  length smac = 6%nat → length tmac = 6%nat → (FRAME_LEN ≤ length scratch)%nat →
  Arp.build_reply scratch smac sip tmac tip = (b, r) → fits scratch (b, r) ∧ r = Some FRAME_LEN.
Proof.
  intros Hs Ht Hl. rewrite build_reply_eq by done. intros [<- <-]%pair_eq. split; [|done].
  split; cbn [fst snd]; [|by intros ? [= <-]].
  rewrite length_app, length_drop. unfold arp_frame. rewrite !length_app, Hs, Ht.
  change FRAME_LEN with 42%nat in *. cbn [length to_be16 octets to_be32 app]. lia.
Qed.

(** The pool operations of the ARP handler. *)
Lemma arp_pool_safe lan t pkt :
  lan_ok lan → tables_wf t →
  (∀ old, reverse_lookup (lan_neighbors t) (sha pkt) = Some old → old ≠ sender_ip pkt →
     start (lan_pool t) ≤ old ≤ end_ (lan_pool t) → old ∉ free (lan_pool t) ∧ old ∉ leased (lan_leases t)) →
  safe (lan_arp_pool lan pkt) t.
Proof.
  intros Hlan Ht Hret. unfold lan_arp_pool. wp_steps.
  destruct (reserve_wf (server_of lan t) (sender_ip pkt)) as (s' & E & Hs' & Hl & Hc & Hb & Hf); [split; [done|apply Ht]|].
  eexists. split; [exact E|]. wp_steps. name_state t1.
  assert (tables_wf t1) as Ht1 by (destruct Ht; split; try done; apply Hs').
  cbn [lan_neighbors]. destruct (reverse_lookup _ _) as [old|] eqn:Eo; [|by apply wp_ret].
  destruct (negb (old =? sender_ip pkt) && _ && _) eqn:Eg; [|by apply wp_ret].
  apply andb_true_iff in Eg as [[Ene E1]%andb_true_iff E2]. apply negb_true_iff, Z.eqb_neq in Ene.
  apply Z.leb_le in E1, E2. change ((fp_bounds (pool s')).1 ≤ old) in E1. change (old ≤ (fp_bounds (pool s')).2) in E2.
  rewrite Hb in E1, E2. destruct (Hret old eq_refl Ene) as [Hnf Hnl]; [by split|].
  destruct (release_wf (server_of lan t1) old) as (s2 & E3 & [_ Hs2] & Hl2 & _).
  - split; [done|apply Ht1].
  - change (pool (server_of lan t1)) with (pool s'). rewrite Hb. by split.
  - change (pool (server_of lan t1)) with (pool s'). rewrite Hf. apply not_elem_of_difference. by left.
  - change (leases (server_of lan t1)) with (leases s'). by rewrite Hl.
  - wp_steps. eexists. split; [exact E3|]. wp_steps. destruct Ht1. by split.
Qed.

Lemma handle_lan_arp_safe a now lan m scratch t :
  app_ok a → lan_ok lan → length scratch = FRAME_MAX → tables_wf t → returns_ok t m →
  safe_scratch (handle_lan_arp a now lan m scratch) t.
Proof.
  intros Ha Hlan Hs Ht Hret. unfold handle_lan_arp. destruct (parse m) as [e|] eqn:Ee; cbn [mbind option_bind]; [|by apply wp_ret].
  destruct (arp e) as [pkt|] eqn:Ep; cbn [mbind option_bind]; [|by apply wp_ret]. cbn zeta.
  pose proof Ee as He. apply eth_parse_wf in He as [He _]. wp_step.
  apply (wp_mono _ _ (λ _ t' _, tables_wf t')).
  2:{ apply arp_pool_safe; [done|done|]. intros old Ho Hne [H1 H2]. apply Hret. unfold returned_by.
      rewrite Ee. cbn [mbind option_bind]. rewrite Ep, Ho.
      rewrite (proj2 (Z.eqb_neq _ _) Hne), (proj2 (Z.leb_le _ _) H1), (proj2 (Z.leb_le _ _) H2). done. }
  intros [] t1 o1 H1. wp_step. eapply wp_mono; [|by apply lan_arp_learn_safe]. intros [] t2 o2 H2. wp_step.
  apply (wp_mono _ _ (λ _ t' _, tables_wf t')).
  2:{ destruct (negb (target_ip pkt =? 0)); [by apply lan_arp_learn_safe|by apply wp_ret]. }
  intros [] t3 o3 H3. wp_steps. rewrite eth_header_Ret by done. eexists. split; [done|].
  destruct (_ && _ && _).
  { wp_step. apply wp_sends; [intros x t'; case_match; by eexists|]. by intros; wp_steps. }
  destruct (_ && _); [|by wp_steps]. destruct (Arp.build_reply _ _ _ _ _) as [b r] eqn:Eb.
  assert (length (sha pkt) = 6%nat) as Lsha by (by eapply arp_lengths).
  apply arp_reply_range in Eb as [Hf ->]; [|apply Ha|done|rewrite Hs; vm_compute; lia].
  wp_steps. rewrite (fits_range _ _ _ Hf). eexists. split; [done|]. wp_steps. split; [done|]. rewrite <- Hs. apply Hf.
Qed.

Lemma lan_frame_safe a now lan m scratch t :
  app_ok a → lan_ok lan → slice_ok m → length scratch = FRAME_MAX → tables_wf t → returns_ok t m →
  safe_scratch (lan_frame a now lan m scratch) t.
Proof.
  intros Ha Hlan Hm Hs Ht Hret. unfold lan_frame. destruct (parse m) as [e|] eqn:Ee; [|by apply wp_ret].
  apply eth_parse_wf in Ee as (He & _). wp_steps. rewrite eth_header_Ret by done. eexists. split; [done|].
  wp_steps. name_state t1. assert (tables_wf t1) as Ht1 by (by apply (tables_wf_ext t)).
  cbn [l_is_arp l_is_ipv4]. destruct (is_arp e); [by apply handle_lan_arp_safe|].
  destruct (is_ipv4 e); [by apply handle_lan_ipv4_safe|by apply wp_ret].
Qed.

(** C22: robustness towards the LAN: no frame of a LAN host, whatever its bytes,
    makes a worker panic or breaks the invariant of the tables (addresses are
    never both leased and free, the interval list stays sorted and disjoint,
    translations stay inverse), for every frame except an ARP packet by which a
    host gives up a pool address that is already free or on lease to somebody
    ([returns_ok]). *)
Theorem lan_frame_never_panics (a : AppCtx) (now : Tick) (lan : LanPortCtx) (m scratch : bytes) (t : Tables)
    (Ha : app_ok a) (Hlan : lan_ok lan) (Hm : slice_ok m) (Hs : length scratch = FRAME_MAX) (Ht : tables_wf t)
    (Hret : returns_ok t m) :
  ∃ scratch' t' o, lan_frame a now lan m scratch t = Ret (scratch', t', o) ∧ tables_wf t' ∧ length scratch' = FRAME_MAX.
Proof.
  pose proof (lan_frame_safe a now lan m scratch t Ha Hlan Hm Hs Ht Hret) as Hsafe.
  apply wp_run in Hsafe as (s' & t' & o & E & H & Hl). by exists s', t', o.
Qed.
Lemma lan_frame_never_panics_witness :
  let m := Sample.arp_request Sample.host_mac (ip4 192 168 0 11) Sample.gateway in
  returned_by Sample.tables m = Some Sample.host ∧
  ∃ scratch' t' o, lan_frame Sample.app 5 (Sample.lan_port 1) m Sample.scratch Sample.tables = Ret (scratch', t', o) ∧
    tables_wf t' ∧ length scratch' = FRAME_MAX.
Proof.
  split; [vm_compute; reflexivity|].
  apply (lan_frame_never_panics Sample.app 5 (Sample.lan_port 1)).
  - split; [reflexivity|decide_now].
  - apply DhcpServer.Sample.config_ok.
  - split; decide_now.
  - reflexivity.
  - apply Sample.tables_ok.
  - intros old H. vm_compute in H. injection H as <-. decide_now.
Defined.

(** ** Behaviour that the guards above exclude, on the sample router *)

(** Two hosts that claim one pool address and then move away return it twice:
    the free intervals overlap, and the pool will lease the address twice. *)
Lemma arp_moves_return_twice :
  let frames := [Sample.arp_request [10; 0; 0; 0; 0; 2] (ip4 192 168 0 11) Sample.gateway;
                 Sample.arp_request [10; 0; 0; 0; 0; 3] (ip4 192 168 0 11) Sample.gateway;
                 Sample.arp_request [10; 0; 0; 0; 0; 2] (ip4 192 168 0 77) Sample.gateway;
                 Sample.arp_request [10; 0; 0; 0; 0; 3] (ip4 192 168 0 78) Sample.gateway] in
  match drive_lan Sample.app 5 (Sample.lan_port 1) frames Sample.tables with
  | Ret (_, t, _) =>
    ∃ p, take_ (lan_pool t) 3 = Ret (p, Some [ip4 192 168 0 11; ip4 192 168 0 11; ip4 192 168 0 12])
  | Panic => False
  end.
Proof. vm_compute. eexists. reflexivity. Qed.

(** An ARP request makes the router map the address asked for to the all-zero
    hardware address of the request. *)
Lemma arp_request_maps_target_to_zero :
  match lan_frame Sample.app 5 (Sample.lan_port 1) (Sample.arp_request [10; 0; 0; 0; 0; 2] (ip4 192 168 0 11) (ip4 192 168 0 12))
    Sample.scratch Sample.tables with
  | Ret (_, t, _) => Neighbor.lookup_ (lan_neighbors t) (ip4 192 168 0 12) = Some (replicate 6 0)
  | Panic => False
  end.
Proof. vm_compute. reflexivity. Qed.

(** The time of the last sweep is kept in 32 bits: 49.7 days after the start
    every turn of the loop sweeps. *)
Lemma sweep_not_throttled iter a now t :
  2 ^ 32 - 1 + SWEEP_INTERVAL_MS ≤ now → last_sweep_ms t ≤ 2 ^ 32 - 1 →
  maybe_sweep iter a now t =
    (set_last_sweep (2 ^ 32 - 1) ;; for_each (ports a) (sweep_port iter now) ;;
     ct <- gets conntrack ;; set_conntrack (Conntrack.sweep ct now)) t.
Proof.
  intros Hn Hl. unfold SWEEP_INTERVAL_MS in *. unfold maybe_sweep, bind at 1, gets at 1.
  assert (Z.max 0 (now - last_sweep_ms t) <? SWEEP_INTERVAL_MS = false) as ->
    by (apply Z.ltb_ge; unfold SWEEP_INTERVAL_MS; lia).
  rewrite andb_false_r, Z.min_r by lia. cbn [app]. by destruct (bind _ _ t) as [[[? ?] ?]|].
Qed.

(** The LAN ports share a neighbour table, so the sweep of the first LAN port
    takes all retransmissions: the request for an address that was first asked
    on every port is repeated on the first one only. *)
Lemma retransmission_on_first_port :
  match lan_frame Sample.app 1 (Sample.lan_port 2) Sample.syn Sample.scratch
    {| fdb := fdb Sample.tables; nat := nat Sample.tables; conntrack := conntrack Sample.tables;
       wan_neighbors := wan_neighbors Sample.tables; wan_client := wan_client Sample.tables;
       wan_bound := wan_bound Sample.tables; wan_gateway := wan_gateway Sample.tables;
       lan_neighbors := Neighbor.new [2; 0; 0; 0; 0; 1] (ip4 192 168 0 1); lan_pool := lan_pool Sample.tables;
       lan_leases := lan_leases Sample.tables; last_sweep_ms := 0 |} with
  | Ret (_, t, _) =>
    match wan_frame Sample.app 2 Sample.wan Sample.syn_ack t with
    | Ret (_, t, first) =>
      match maybe_sweep map_to_list Sample.app 2000 t with
      | Ret (_, _, again) => tx_port <$> first = [1; 2] ∧ tx_port <$> again = [1]
      | Panic => False
      end
    | Panic => False
    end
  | Panic => False
  end.
Proof. vm_compute. by split. Qed.
