(* ===== verification/Firewall.v ===== *)
(** * The router as a firewall

    What reaches the LAN because of a frame from the WAN, over every history of
    frames, lease handling and sweeps.  [within f P m] is the frame rule used
    throughout: the handler [m] leaves the part [f] of the tables alone and
    everything it sends satisfies [P]. *)

From S2P Require Import Prelude Wire Ethernet Ip Udp Tcp Arp Dhcp View SourceNat Neighbor Conntrack AddrPool Frame Fdb Leases.
From S2P Require Import DhcpFrame DhcpServer DhcpClient Worker App Datapath.
#[local] Open Scope app_scope.

(** ** Histories *)

Inductive event :=
| LanFrame (now : Tick) (lan : LanPortCtx) (m scratch : bytes)
| WanFrame (now : Tick) (wan : WanPortCtx) (m : bytes)
| WanControl (wan : WanPortCtx) (scratch : bytes)
| Sweeping (now : Tick).

Section histories.
Context (iter : gmap Ipv4Addr (Pending bytes) → list (Ipv4Addr * Pending bytes)) (a : AppCtx).

Definition handle_event (e : event) : M unit :=
  match e with
  | LanFrame now lan m scratch => lan_frame a now lan m scratch ;; ret ()
  | WanFrame now wan m => wan_frame a now wan m
  | WanControl wan scratch => wan_control wan scratch
  | Sweeping now => maybe_sweep iter a now
  end.

(** ** Frame rule *)

Definition within {A B} (f : Tables → B) (P : Tx → Prop) (m : M A) : Prop :=
  ∀ t r t' o, m t = Ret (r, t', o) → f t' = f t ∧ Forall P o.

Section rules.
Context {B : Type} (f : Tables → B) (P : Tx → Prop).

Lemma within_bind {A C} (m : M A) (k : A → M C) : within f P m → (∀ x, within f P (k x)) → within f P (bind m k).
Proof.
  intros Hm Hk t r t' o. unfold bind. destruct (m t) as [[[x t1] o1]|] eqn:E1; [|done].
  destruct (k x t1) as [[[y t2] o2]|] eqn:E2; [|done]. intros [= <- <- <-].
  apply Hm in E1 as [<- H1]. apply Hk in E2 as [<- H2]. split; [done|]. by apply Forall_app.
Qed.
Lemma within_ret {A} (x : A) : within f P (ret x).
Proof. intros t r t' o [= <- <- <-]. split; [done|apply Forall_nil_2]. Qed.
Lemma within_gets {A} (g : Tables → A) : within f P (gets g).
Proof. intros t r t' o [= <- <- <-]. split; [done|apply Forall_nil_2]. Qed.
Lemma within_lift {A} (m : outcome A) : within f P (lift m).
Proof. intros t r t' o. unfold lift. destruct m; [|done]. intros [= <- <- <-]. split; [done|apply Forall_nil_2]. Qed.
Lemma within_emit p b : P {| tx_port := port_id p; tx_frame := b |} → within f P (emit p b).
Proof. intros H t r t' o [= <- <- <-]. split; [done|]. by apply Forall_singleton. Qed.
Lemma within_for_each {A} (l : list A) (h : A → M unit) : (∀ x, x ∈ l → within f P (h x)) → within f P (for_each l h).
Proof.
  induction l as [|x l IH]; intros Hh; cbn [for_each]; [apply within_ret|].
  apply within_bind; [apply Hh; set_solver|]. intros _. apply IH. intros y Hy. apply Hh. set_solver.
Qed.
End rules.

(** One step: a rule, an update of another table, or a case analysis. *)
Ltac within_step :=
  match goal with
  | |- within _ _ (bind _ _) => apply within_bind; [|intros ?]
  | |- within _ _ (ret _) => apply within_ret
  | |- within _ _ (gets _) => apply within_gets
  | |- within _ _ (lift _) => apply within_lift
  | |- within _ _ (emit _ _) => apply within_emit
  | |- within _ _ (for_each _ _) => apply within_for_each; intros ? ?
  | |- within _ _ (set_fdb _) => by intros ? ? ? ? [= <- <- <-]
  | |- within _ _ (set_nat _) => by intros ? ? ? ? [= <- <- <-]
  | |- within _ _ (set_conntrack _) => by intros ? ? ? ? [= <- <- <-]
  | |- within _ _ (set_wan_neighbors _) => by intros ? ? ? ? [= <- <- <-]
  | |- within _ _ (set_wan _ _ _) => by intros ? ? ? ? [= <- <- <-]
  | |- within _ _ (set_lan_neighbors _) => by intros ? ? ? ? [= <- <- <-]
  | |- within _ _ (set_dhcp _ _) => by intros ? ? ? ? [= <- <- <-]
  | |- within _ _ (set_last_sweep _) => by intros ? ? ? ? [= <- <- <-]
  | |- within _ _ (match ?x with _ => _ end) => destruct x
  end; cbn beta iota zeta; try done.
Ltac within_auto := cbn beta iota zeta; repeat within_step.

(** ** What leaves the connection table alone *)

Abbreviation keeps_flows m := (within conntrack (λ _, True) m).

Lemma transmit_keeps b p x : keeps_flows (transmit_to_mac_or_flood_except a b p x).
Proof. unfold transmit_to_mac_or_flood_except. within_auto. Qed.
Lemma lan_arp_keeps now lan m s : keeps_flows (handle_lan_arp a now lan m s).
Proof. unfold handle_lan_arp, lan_arp_pool, lan_arp_learn, send_drained. within_auto. Qed.
Lemma wan_arp_keeps now wan m : keeps_flows (handle_wan_arp now wan m).
Proof. unfold handle_wan_arp, wan_arp_learn, send_drained. within_auto. Qed.
Lemma wan_control_keeps wan s : keeps_flows (wan_control wan s).
Proof. unfold wan_control. within_auto. Qed.
Lemma sweep_port_keeps now port : keeps_flows (sweep_port iter now port).
Proof. unfold sweep_port. within_auto. Qed.

(** ** How an event changes the connection table *)

Lemma bind_inv {A C} (m : M A) (k : A → M C) t r t' o :
  bind m k t = Ret (r, t', o) → ∃ x t1 o1 o2, m t = Ret (x, t1, o1) ∧ k x t1 = Ret (r, t', o2) ∧ o = o1 ++ o2.
Proof.
  unfold bind. destruct (m t) as [[[x t1] o1]|] eqn:E1; [|done]. destruct (k x t1) as [[[y t2] o2]|] eqn:E2; [|done].
  intros [= <- <- <-]. eauto 10.
Qed.
(** Execute the first step of a handler that has returned. *)
Ltac run_step H :=
  let x := fresh "x" in let t := fresh "t" in let o := fresh "o" in let E := fresh "E" in
  apply bind_inv in H as (x & t & o & ? & E & H & ->);
  try (injection E as <- <- <-); cbn beta iota zeta in H; cbn [app] in *.

Definition key_of (int_ip int_port ext_ip ext_port : Z) : FlowKey :=
  {| int_ip := int_ip; int_port := int_port; ext_ip := ext_ip; ext_port := ext_port |}.

(** A frame that a LAN host sends to the router's own hardware address, holding
    a TCP segment of the flow. *)
Definition lan_segment (m : bytes) (k : FlowKey) (flags : Z) : Prop :=
  Ethernet.dst (of_bytes (slice 0 14 m)) = app_server_mac a ∧
  parse_tcp_tuple m = Ret (Some (int_ip k, int_port k, ext_ip k, ext_port k, flags)).

(** The flow a WAN frame belongs to, through the translation of its port. *)
Definition wan_segment (t : Tables) (m : bytes) (k : FlowKey) (flags : Z) : Prop :=
  ∃ w ext, parse_tcp_tuple m = Ret (Some (ext_ip k, ext_port k, w, ext, flags)) ∧
    ingress (nat t) L4_Tcp ext = Some (int_ip k, int_port k).

(** What an event does to the connection table, as operations of that table. *)
Definition explains (t : Tables) (e : event) (ops : list Conntrack.event) : Prop :=
  match ops with
  | [] => True
  | [Egress k fl now] => ∃ lan m scratch, e = LanFrame now lan m scratch ∧ lan_segment m k fl
  | [Conntrack.Ingress k fl now] => ∃ wan m, e = WanFrame now wan m ∧ wan_segment t m k fl
  | [Sweep now] => e = Sweeping now
  | _ => False
  end.

Lemma lan_egress_flows now m t r t' o :
  lan_egress_nat a now m t = Ret (r, t', o) →
  conntrack t' = conntrack t ∨ ∃ k fl,
    parse_tcp_tuple m = Ret (Some (int_ip k, int_port k, ext_ip k, ext_port k, fl)) ∧
    conntrack t' = (observe_egress (conntrack t) k fl now).1.
Proof.
  unfold lan_egress_nat. destruct (wan_port a) as [wan|]; [|intros [= <- <- <-]; auto].
  intros H. run_step H. destruct (gateway_ip t) as [gw|]; [|injection H as <- <- <-; auto].
  run_step H. destruct (_ =? 0); [injection H as <- <- <-; auto|].
  destruct (parse_tcp_tuple m) as [[[[[[i ip] x] xp] fl]|]|] eqn:Ep; [|injection H as <- <- <-; auto|done].
  run_step H. run_step H. run_step H.
  right. exists (key_of i ip x xp), fl. split; [done|].
  match type of H with ?k ?t1 = _ => assert (keeps_flows k) as Hk by within_auto end.
  apply Hk in H as [-> _]. done.
Qed.

Lemma lan_frame_flows now lan m s t r t' o :
  lan_frame a now lan m s t = Ret (r, t', o) →
  ∃ ops, conntrack t' = Conntrack.run (conntrack t) ops ∧ explains t (LanFrame now lan m s) ops.
Proof.
  assert (∀ t', conntrack t' = conntrack t →
    ∃ ops, conntrack t' = Conntrack.run (conntrack t) ops ∧ explains t (LanFrame now lan m s) ops) as Hsame.
  { intros t1 E. by exists []. }
  unfold lan_frame. destruct (parse m) as [e|] eqn:Ee; [|by intros [= <- <- <-]; apply Hsame].
  pose proof Ee as He. apply eth_parse_wf in He as (He & Eb & Es). rewrite eth_header_Ret, Eb, Es by done. intros H.
  run_step H. run_step H. run_step H. cbn [l_is_arp l_is_ipv4 l_src_mac] in H.
  destruct (is_arp e). { apply lan_arp_keeps in H as [H _]. by apply Hsame. }
  destruct (is_ipv4 e); [|injection H as <- <- <-; by apply Hsame].
  unfold handle_lan_ipv4 in H. run_step H. destruct (with_dhcp m) as [d|]; [|done]. injection E as <- <- <-.
  destruct d as [v|].
  { match type of H with ?k ?t1 = _ => assert (keeps_flows k) as Hk by within_auto end. apply Hk in H as [H _]. by apply Hsame. }
  cbn [l_dst_mac l_is_broadcast] in H. case_bool_decide as Hdst.
  - run_step H. injection H as <- <- <-. apply lan_egress_flows in E as [E|(k & fl & Ep & E)]; [by apply Hsame|].
    exists [Egress k fl now]. split; [done|]. eexists _, _, _. split; [done|]. by split.
  - match type of H with ?k ?t1 = _ => assert (keeps_flows k) as Hk by (within_auto; apply transmit_keeps) end.
    apply Hk in H as [H _]. by apply Hsame.
Qed.

(** The tables that serve the LAN alone, and the translations.  The MAC table is
    not among them: LAN and WAN share it, see [source_learnt]. *)
Definition lan_side (t : Tables) : NeighborTable bytes * AddressPool * LeaseTable * Nat :=
  (lan_neighbors t, lan_pool t, lan_leases t, nat t).

Abbreviation stays_out wan m := (within lan_side (λ tx, tx_port tx = port_id (wan_port_of wan)) m).

(** An inbound packet either leaves the LAN alone, or passes the check on its flow. *)
Lemma wan_ingress_cases now wan m t r t' o :
  wan_ingress_nat a now m t = Ret (r, t', o) →
  (lan_side t' = lan_side t ∧ Forall (λ tx, tx_port tx = port_id (wan_port_of wan)) o ∨
   ∃ k fl, wan_segment t m k fl ∧ (check_ingress (conntrack t) k fl now).2 = true) ∧
  ∃ ops, conntrack t' = Conntrack.run (conntrack t) ops ∧ explains t (WanFrame now wan m) ops.
Proof.
  unfold wan_ingress_nat. intros H. run_step H.
  destruct (parse_tcp_tuple m) as [[[[[[xip xport] w] ext] fl]|]|] eqn:Ep; [| |done]; injection E as <- <- <-.
  2:{ injection H as <- <- <-. split; [left; split; [done|apply Forall_nil_2]|by exists []]. }
  run_step H. run_step H. destruct (translate_ingress m (nat t)) as [[m' res]|] eqn:Et; [|done]. injection E as <- <- <-.
  destruct res as [ing|]; [|injection H as <- <- <-; split; [left; split; [done|apply Forall_nil_2]|by exists []]].
  assert (wan_segment t m (key_of (SourceNat.dst_ip ing) (SourceNat.dst_port ing) xip xport) fl) as Hseg.
  { pose proof Ep as Hcl. apply tuple_classify in Hcl as (f & h & _ & _ & _ & _ & Hc & Hl & _ & Hpt). exists w, ext.
    split; [by rewrite Ep|]. cbn [key_of int_ip int_port]. destruct (ingress (nat t) L4_Tcp ext) as [[ip port]|] eqn:Ei.
    - rewrite (translate_ingress_Some _ _ h ip port Hc) in Et by (by rewrite Hl, Hpt). by injection Et as _ <-.
    - exfalso. revert Et. unfold translate_ingress. rewrite Hc. cbn [mbind outcome_bind]. by rewrite Hl, Hpt, Ei. }
  run_step H. change (Build_FlowKey _ _ _ _) with (key_of (SourceNat.dst_ip ing) (SourceNat.dst_port ing) xip xport) in H.
  destruct (check_ingress _ _ _ _) as [ct ok] eqn:Ec. run_step H.
  set (k := key_of _ _ _ _) in *. split.
  - destruct ok; cbn [negb] in H.
    + right. exists k, fl. by rewrite Ec.
    + injection H as <- <- <-. left. split; [done|apply Forall_nil_2].
  - exists [Conntrack.Ingress k fl now]. split; [|by exists wan, m].
    assert (ct = Conntrack.run (conntrack t) [Conntrack.Ingress k fl now]) as Er by (unfold Conntrack.run; cbn; by rewrite Ec).
    rewrite <- Er. match type of H with ?h ?t1 = _ => assert (keeps_flows h) as Hk by (within_auto; apply transmit_keeps) end.
    apply Hk in H as [-> _]. done.
Qed.

Lemma wan_arp_stays_out now wan m : stays_out wan (handle_wan_arp now wan m).
Proof. unfold handle_wan_arp, wan_arp_learn, send_drained. within_auto. Qed.

Lemma wan_frame_cases now wan m t r t' o :
  wan_frame a now wan m t = Ret (r, t', o) →
  (lan_side t' = lan_side t ∧ Forall (λ tx, tx_port tx = port_id (wan_port_of wan)) o ∨
   ∃ k fl, wan_segment t m k fl ∧ (check_ingress (conntrack t) k fl now).2 = true) ∧
  ∃ ops, conntrack t' = Conntrack.run (conntrack t) ops ∧ explains t (WanFrame now wan m) ops.
Proof.
  assert (∀ (h : M unit) t1, lan_side t1 = lan_side t → conntrack t1 = conntrack t →
    stays_out wan h → keeps_flows h → h t1 = Ret (r, t', o) →
    (lan_side t' = lan_side t ∧ Forall (λ tx, tx_port tx = port_id (wan_port_of wan)) o ∨
     ∃ k fl, wan_segment t m k fl ∧ (check_ingress (conntrack t) k fl now).2 = true) ∧
    ∃ ops, conntrack t' = Conntrack.run (conntrack t) ops ∧ explains t (WanFrame now wan m) ops) as Hout.
  { intros h t1 <- <- Ho Hk E. split; [left; by eapply Ho|]. exists []. split; [by apply Hk in E as [? _]|done]. }
  unfold wan_frame. destruct (parse m) as [e|] eqn:Ee; [|by apply Hout; within_auto].
  intros H. run_step H. destruct (eth_header e); [|done]. injection E as <- <- <-. run_step H. run_step H.
  cbn [w_is_arp w_is_ipv4 w_src_mac] in H. destruct (is_arp e).
  { revert H. apply Hout; [done|done|apply wan_arp_stays_out|apply wan_arp_keeps]. }
  run_step H. destruct (with_dhcp m) as [d|]; [|done]. injection E as <- <- <-. destruct d as [v|].
  { revert H. by apply Hout; within_auto. }
  destruct (is_ipv4 e); [|revert H; by apply Hout; within_auto].
  apply (wan_ingress_cases now wan) in H. exact H.
Qed.

(** Which MAC table a frame received on [port] leaves behind. *)
Definition source_learnt (table : Fdb) (m : bytes) (port : Z) : Fdb :=
  match parse m with Some _ => Fdb.insert_ table (Ethernet.src (of_bytes (slice 0 14 m))) port | None => table end.

Abbreviation keeps_fdb m := (within fdb (λ _, True) m).
Lemma wan_arp_keeps_fdb now wan m : keeps_fdb (handle_wan_arp now wan m).
Proof. unfold handle_wan_arp, wan_arp_learn, send_drained. within_auto. Qed.
Lemma wan_ingress_keeps_fdb now m : keeps_fdb (wan_ingress_nat a now m).
Proof. unfold wan_ingress_nat, transmit_to_mac_or_flood_except. within_auto. Qed.

Lemma wan_frame_fdb now wan m t r t' o :
  wan_frame a now wan m t = Ret (r, t', o) → fdb t' = source_learnt (fdb t) m (port_id (wan_port_of wan)).
Proof.
  unfold wan_frame, source_learnt. destruct (parse m) as [e|] eqn:Ee; [|by intros [= <- <- <-]].
  apply eth_parse_wf in Ee as (He & Eb & Es). rewrite eth_header_Ret, Eb, Es by done. intros H. do 3 run_step H.
  cbn [w_src_mac w_is_arp w_is_ipv4] in H.
  match type of H with ?h ?t1 = _ => assert (keeps_fdb h) as Hk end.
  { destruct (is_arp e); [apply wan_arp_keeps_fdb|]. within_auto. apply wan_ingress_keeps_fdb. }
  apply Hk in H as [-> _]. done.
Qed.

(** A WAN frame that carries a LAN host's source address moves the host to the
    WAN port in the MAC table: what the LAN sends to it is then dropped. *)
Lemma spoofed_source_cuts_off_host now wan m e t r t' o :
  wan_frame a now wan m t = Ret (r, t', o) → parse m = Some e → lan_port_by_id a (port_id (wan_port_of wan)) = None →
  ∀ packet except, transmit_to_mac_or_flood_except a (Ethernet.src (of_bytes (slice 0 14 m))) packet except t' = Ret ((), t', []).
Proof.
  intros H Ee Hno packet except. apply wan_frame_fdb in H. unfold source_learnt in H. rewrite Ee in H.
  unfold transmit_to_mac_or_flood_except, bind, gets. rewrite H. unfold Fdb.lookup_, Fdb.insert_. cbn [Fdb.table].
  rewrite lookup_insert_eq, Hno. by case_bool_decide.
Qed.

Lemma event_flows e t r t' o :
  handle_event e t = Ret (r, t', o) → ∃ ops, conntrack t' = Conntrack.run (conntrack t) ops ∧ explains t e ops.
Proof.
  destruct e as [now lan m s|now wan m|wan s|now]; cbn [handle_event]; intros H.
  - run_step H. injection H as <- <- <-. by eapply lan_frame_flows.
  - by apply wan_frame_cases in H as [_ H].
  - apply wan_control_keeps in H as [H _]. by exists [].
  - unfold maybe_sweep in H. run_step H. destruct (_ && _); [injection H as <- <- <-; by exists []|].
    run_step H. run_step H. assert (keeps_flows (for_each (ports a) (sweep_port iter now))) as Hk
      by (within_auto; apply sweep_port_keeps).
    apply Hk in E as [E _]. run_step H. injection H as <- <- <-. exists [Sweep now]. split; [|done]. cbn in *. by rewrite E.
Qed.

(** Over a history: every flow in the table was opened by a LAN frame of it. *)
Lemma history_flows es t r t' o :
  for_each es handle_event t = Ret (r, t', o) →
  ∃ ops, conntrack t' = Conntrack.run (conntrack t) ops ∧
    ∀ k fl now, Egress k fl now ∈ ops → ∃ lan m s, LanFrame now lan m s ∈ es ∧ lan_segment m k fl.
Proof.
  revert t o. induction es as [|e es IH]; intros t o; cbn [for_each].
  { intros [= <- <- <-]. exists []. set_solver. }
  intros H. apply bind_inv in H as ([] & t1 & o1 & o2 & E & H & ->).
  apply event_flows in E as (ops1 & E1 & X). apply IH in H as (ops2 & E2 & H2). exists (ops1 ++ ops2).
  rewrite E2, E1. split; [unfold Conntrack.run; by rewrite foldl_app|]. intros k fl now [Hin|Hin]%elem_of_app.
  - destruct ops1 as [|op [|]]; [by apply elem_of_nil in Hin| |by destruct op].
    apply list_elem_of_singleton in Hin as <-. destruct X as (lan & m & s & -> & Hseg). exists lan, m, s. set_solver.
  - apply H2 in Hin as (lan & m & s & Hin & Hseg). exists lan, m, s. set_solver.
Qed.

(** ** Properties *)

(** C5: the firewall, end to end: after any history of LAN frames, WAN frames,
    lease handling and sweeps since start-up, a frame from the WAN either sends
    nothing to the LAN and changes neither the LAN's neighbours, pool and leases
    nor the translations, or it is a TCP segment whose destination port is bound
    to an internal endpoint that itself opened this flow: a LAN frame to the
    router, earlier in the history, carried a bare SYN from that endpoint to the
    very address and port the WAN segment comes from.  The MAC table, which the
    LAN shares with the WAN, changes in either case by exactly one entry: the
    frame's source address is now on the WAN port. *)
Theorem wan_reaches_lan_only_on_opened_flows (es : list event) (t0 t t' : Tables) (now : Tick) (wan : WanPortCtx)
    (m : bytes) (o0 o : list Tx)
    (Hnew : conntrack t0 = Conntrack.new) (Hhist : for_each es handle_event t0 = Ret ((), t, o0))
    (Hframe : wan_frame a now wan m t = Ret ((), t', o)) :
  ((lan_side t' = lan_side t ∧ Forall (λ tx, tx_port tx = port_id (wan_port_of wan)) o) ∨
   ∃ k flags, wan_segment t m k flags ∧
     ∃ now' lan m' scratch flags', LanFrame now' lan m' scratch ∈ es ∧ lan_segment m' k flags' ∧ opening flags' = true) ∧
  fdb t' = source_learnt (fdb t) m (port_id (wan_port_of wan)).
Proof.
  split; [|by eapply wan_frame_fdb]. apply wan_frame_cases in Hframe as [[H|(k & fl & Hseg & Hok)] _]; [by left|]. right. exists k, fl. split; [done|].
  apply history_flows in Hhist as (ops & E & Hops). rewrite Hnew in E. rewrite E in Hok.
  assert (opened k ops) as (pre & f & n & post & -> & Ho & _).
  { apply flow_opened. unfold check_ingress in Hok. destruct (flows (Conntrack.run Conntrack.new ops) !! k); [eauto|done]. }
  destruct (Hops k f n) as (lan & m' & s & Hin & Hs); [set_solver|]. eauto 10.
Qed.
End histories.

Lemma wan_reaches_lan_only_on_opened_flows_witness :
  ∃ t o0 t' o,
    for_each [LanFrame 1 (Sample.lan_port 1) Sample.syn Sample.scratch] (handle_event map_to_list Sample.app) Sample.tables
      = Ret ((), t, o0) ∧
    wan_frame Sample.app 2 Sample.wan Sample.syn_ack t = Ret ((), t', o) ∧ length o = 1%nat ∧
    ((lan_side t' = lan_side t ∧ Forall (λ tx, tx_port tx = 0) o) ∨
     ∃ k flags, wan_segment t Sample.syn_ack k flags ∧
       ∃ now' lan m' scratch flags',
         LanFrame now' lan m' scratch ∈ [LanFrame 1 (Sample.lan_port 1) Sample.syn Sample.scratch] ∧
         lan_segment Sample.app m' k flags' ∧ opening flags' = true) ∧
    fdb t' = source_learnt (fdb t) Sample.syn_ack 0.
Proof.
  assert (∃ t o0 t' o,
    for_each [LanFrame 1 (Sample.lan_port 1) Sample.syn Sample.scratch] (handle_event map_to_list Sample.app) Sample.tables
      = Ret ((), t, o0) ∧
    wan_frame Sample.app 2 Sample.wan Sample.syn_ack t = Ret ((), t', o) ∧ length o = 1%nat) as (t & o0 & t' & o & H1 & H2 & H3).
  { eexists _, _, _, _. split; [vm_compute; reflexivity|]. split; [vm_compute; reflexivity|reflexivity]. }
  exists t, o0, t', o. split; [exact H1|split; [exact H2|split; [exact H3|]]].
  exact (wan_reaches_lan_only_on_opened_flows map_to_list Sample.app _ Sample.tables t t' 2 Sample.wan Sample.syn_ack
    o0 o eq_refl H1 H2).
Defined.
