(* ===== verification/Steps.v ===== *)
(** * The datapath as locked operations ([src/router/app.rs])

    The handlers of [App] again, as programs of their operations under locks and
    on atomics: another worker may come in between any two.  Run without
    interruption, each is the handler of [App] (the theorem at the end). *)

From S2P Require Import Prelude Wire Ethernet Arp Dhcp View SourceNat Neighbor Conntrack AddrPool Frame Fdb Leases.
From S2P Require Import DhcpFrame DhcpServer DhcpClient Worker Workers DhcpWorkers App Datapath Firewall.
#[local] Open Scope app_scope.
#[local] Open Scope prog_scope.

Abbreviation steps := (prog Tables Tx).

(** ** Operations *)

(** Several accesses under one lock; they send nothing. *)
Definition locked {A} (m : M A) : steps A :=
  atom (λ t, match m t with Ret (a, t, _) => Ret (a, t) | Panic => Panic end).

Definition fdb_insert (m : MacAddr) (port : Z) : steps unit := locked (t <- gets fdb ;; set_fdb (Fdb.insert_ t m port)).
Definition fdb_lookup (m : MacAddr) : steps (option Z) := locked (gets (λ t, Fdb.lookup_ (fdb t) m)).

Definition nat_wan_ip : steps Ipv4Addr := locked (gets (λ t, wan_ip (nat t))).
Definition nat_set_wan_ip (ip : Ipv4Addr) : steps unit := locked (n <- gets nat ;; set_nat (set_wan_ip n ip)).
Definition nat_egress (m : bytes) : steps (bytes * option SourceNat.Egress) :=
  locked (n <- gets nat ;; '(m, n, r) <- lift (translate_egress m n) ;; set_nat n ;; ret (m, r)).
Definition nat_ingress (m : bytes) : steps (bytes * option SourceNat.Ingress) :=
  locked (n <- gets nat ;; lift (translate_ingress m n)).

Definition ct_observe (k : FlowKey) (flags : Z) (now : Tick) : steps unit :=
  locked (ct <- gets conntrack ;; set_conntrack (observe_egress ct k flags now).1).
Definition ct_check (k : FlowKey) (flags : Z) (now : Tick) : steps bool :=
  locked (ct <- gets conntrack ;; let '(ct, ok) := check_ingress ct k flags now in set_conntrack ct ;; ret ok).
Definition ct_sweep (now : Tick) : steps unit := locked (ct <- gets conntrack ;; set_conntrack (Conntrack.sweep ct now)).

Definition wan_resolve (target : Ipv4Addr) (m : bytes) (now : Tick) : steps (bytes * Action bytes) :=
  locked (nb <- gets wan_neighbors ;; let '(nb, buf, act) := resolve nb target m arp_buf now in
          set_wan_neighbors nb ;; ret (buf, act)).
Definition wan_on_arp (ip : Ipv4Addr) (m : MacAddr) (now : Tick) : steps (option (MacAddr * list bytes)) :=
  locked (nb <- gets wan_neighbors ;; let '(nb, r) := on_arp nb ip m now in set_wan_neighbors nb ;; ret r).
Definition wan_set_our_ip (ip : Ipv4Addr) : steps unit :=
  locked (nb <- gets wan_neighbors ;; set_wan_neighbors (set_our_ip nb ip)).
Definition lan_resolve (target : Ipv4Addr) (m : bytes) (now : Tick) : steps (bytes * Action bytes) :=
  locked (nb <- gets lan_neighbors ;; let '(nb, buf, act) := resolve nb target m arp_buf now in
          set_lan_neighbors nb ;; ret (buf, act)).
Definition lan_on_arp (ip : Ipv4Addr) (m : MacAddr) (now : Tick) : steps (option (MacAddr * list bytes)) :=
  locked (nb <- gets lan_neighbors ;; let '(nb, r) := on_arp nb ip m now in set_lan_neighbors nb ;; ret r).
Definition lan_reverse_lookup (m : MacAddr) : steps (option Ipv4Addr) :=
  locked (gets (λ t, reverse_lookup (lan_neighbors t) m)).

(** [wan.dhcp] and the two atomics of the WAN port. *)
Definition client_on_receive (view : DhcpView) : steps unit :=
  locked (c <- gets wan_client ;; c <- lift (on_receive c view) ;; b <- gets wan_bound ;; g <- gets wan_gateway ;; set_wan c b g).
Definition client_bound_ip : steps (option Ipv4Addr) := locked (gets (λ t, bound_ip (wan_client t))).
Definition client_lease : steps (option DhcpLease) := locked (gets (λ t, lease (wan_client t))).
Definition client_poll (scratch : bytes) : steps (bytes * option Datatypes.nat) :=
  locked (c <- gets wan_client ;; '(c, scratch, r) <- lift (poll c scratch) ;;
          b <- gets wan_bound ;; g <- gets wan_gateway ;; set_wan c b g ;; ret (scratch, r)).
Definition bound_swap (ip : Ipv4Addr) : steps Z :=
  locked (c <- gets wan_client ;; old <- gets wan_bound ;; g <- gets wan_gateway ;; set_wan c ip g ;; ret old).
Definition gateway_store (ip : Ipv4Addr) : steps unit :=
  locked (c <- gets wan_client ;; b <- gets wan_bound ;; set_wan c b ip).
Definition gateway_load : steps (option Ipv4Addr) := locked (gets gateway_ip).

(** The pool and the leases of the DHCP servers. *)
Definition dhcp_get (t : Tables) : AddressPool * LeaseTable := (lan_pool t, lan_leases t).
Definition dhcp_put (st : AddressPool * LeaseTable) (t : Tables) : Tables :=
  {| fdb := fdb t; nat := nat t; conntrack := conntrack t; wan_neighbors := wan_neighbors t; wan_client := wan_client t;
     wan_bound := wan_bound t; wan_gateway := wan_gateway t; lan_neighbors := lan_neighbors t;
     lan_pool := st.1; lan_leases := st.2; last_sweep_ms := last_sweep_ms t |}.
Definition dhcp {A} (p : prog (AddressPool * LeaseTable) Tx A) : steps A := zoom dhcp_get dhcp_put p.
Definition dhcp_start : steps Ipv4Addr := locked (gets (λ t, start (lan_pool t))).
Definition dhcp_end : steps Ipv4Addr := locked (gets (λ t, end_ (lan_pool t))).

Definition transmit (p : App.Port) (f : bytes) : steps unit := send {| tx_port := port_id p; tx_frame := f |}.
Fixpoint each {A} (l : list A) (f : A → steps unit) : steps unit :=
  match l with [] => Done () | x :: l => _ <~ f x; each l f end.

(** ** Handlers *)

Definition transmit_or_flood_steps (a : AppCtx) (m : MacAddr) (packet : bytes) (except : option Z) : steps unit :=
  hit <~ fdb_lookup m;
  match hit with
  | Some port =>
    if bool_decide (Some port = except) then Done ()
    else match lan_port_by_id a port with Some out => transmit (lan_port_of out) packet | None => Done () end
  | None =>
    each (lan_ports a) (λ ctx,
      if bool_decide (Some (port_id (lan_port_of ctx)) = except) then Done () else transmit (lan_port_of ctx) packet)
  end.

Definition send_drained_steps (p : App.Port) (r : option (MacAddr * list bytes)) : steps unit :=
  match r with
  | None => Done ()
  | Some (m, drained) => each drained (λ q, transmit p (set_ethernet q (ether_addr p) m))
  end.

Definition lan_egress_steps (a : AppCtx) (now : Tick) (m : bytes) : steps unit :=
  match wan_port a with
  | None => Done ()
  | Some wan =>
    gw <~ gateway_load;
    match gw with
    | None => Done ()
    | Some gateway_ip =>
      w <~ nat_wan_ip;
      if w =? 0 then Done ()
      else
        tuple <~ local (parse_tcp_tuple m);
        match tuple with
        | None => Done ()
        | Some (int_ip, int_port, ext_ip, ext_port, flags) =>
          _ <~ ct_observe {| int_ip := int_ip; int_port := int_port; ext_ip := ext_ip; ext_port := ext_port |} flags now;
          x <~ nat_egress m;
          match x.2 with
          | None => Done ()
          | Some _ =>
            y <~ wan_resolve gateway_ip x.1 now;
            let p := wan_port_of wan in
            match y.2 with
            | Forward mac packet => transmit p (set_ethernet packet (ether_addr p) mac)
            | Queued (Some n) => f <~ local (get_range y.1 0 n); transmit p f
            | Queued None => Done ()
            | Drop_ _ => Done ()
            end
          end
        end
    end
  end.

Definition lan_ipv4_steps (a : AppCtx) (now : Tick) (lan : LanPortCtx) (m : bytes) (class : LanClass) (scratch : bytes)
    : steps bytes :=
  d <~ local (with_dhcp m);
  match d with
  | Some view =>
    r <~ dhcp (handle_steps (lan_dhcp lan) view scratch);
    match r.2 with
    | None => Done r.1
    | Some n => f <~ local (get_range r.1 0 n); _ <~ transmit (lan_port_of lan) f; Done r.1
    end
  | None =>
    if bool_decide (l_dst_mac class = app_server_mac a) then _ <~ lan_egress_steps a now m; Done scratch
    else if l_is_broadcast class then
      _ <~ each (lan_ports a) (λ ctx,
        if port_id (lan_port_of ctx) =? port_id (lan_port_of lan) then Done () else transmit (lan_port_of ctx) m);
      Done scratch
    else
      _ <~ transmit_or_flood_steps a (l_dst_mac class) m (Some (port_id (lan_port_of lan))); Done scratch
  end.

Definition lan_arp_pool_steps (pkt : ArpPacket) : steps unit :=
  _ <~ dhcp (shared_reserve (sender_ip pkt));
  old <~ lan_reverse_lookup (sha pkt);
  match old with
  | None => Done ()
  | Some old_ip =>
    if negb (old_ip =? sender_ip pkt) then
      s <~ dhcp_start;
      if s <=? old_ip then
        e <~ dhcp_end;
        if old_ip <=? e then dhcp (shared_release old_ip) else Done ()
      else Done ()
    else Done ()
  end.

Definition lan_arp_learn_steps (now : Tick) (p : App.Port) (addr : Ipv4Addr) (m : MacAddr) : steps unit :=
  r <~ lan_on_arp addr m now; send_drained_steps p r.

Definition lan_arp_steps (a : AppCtx) (now : Tick) (lan : LanPortCtx) (m scratch : bytes) : steps bytes :=
  match (eth ← parse m; pkt ← arp eth; Some (eth, pkt))%stdpp with
  | None => Done scratch
  | Some (eth, pkt) =>
    let p := lan_port_of lan in
    _ <~ lan_arp_pool_steps pkt;
    _ <~ lan_arp_learn_steps now p (sender_ip pkt) (sha pkt);
    _ <~ (if negb (target_ip pkt =? 0) then lan_arp_learn_steps now p (target_ip pkt) (tha pkt) else Done ());
    let tip := target_ip pkt in
    h <~ local (eth_header eth);
    if negb (tip =? app_server_ip a) && is_request pkt && is_broadcast h then
      _ <~ each (lan_ports a) (λ ctx,
        if port_id (lan_port_of ctx) =? port_id p then Done () else transmit (lan_port_of ctx) m);
      Done scratch
    else if (tip =? app_server_ip a) && is_request pkt then
      let '(scratch, r) := Arp.build_reply scratch (app_server_mac a) (app_server_ip a) (sha pkt) (sender_ip pkt) in
      match r with
      | None => Done scratch
      | Some n => f <~ local (get_range scratch 0 n); _ <~ transmit p f; Done scratch
      end
    else Done scratch
  end.

Definition lan_frame_steps (a : AppCtx) (now : Tick) (lan : LanPortCtx) (m scratch : bytes) : steps bytes :=
  match parse m with
  | None => Done scratch
  | Some eth =>
    h <~ local (eth_header eth);
    let class := {| l_src_mac := src h; l_dst_mac := dst h; l_is_broadcast := is_broadcast h;
                    l_is_arp := is_arp eth; l_is_ipv4 := is_ipv4 eth |} in
    _ <~ fdb_insert (l_src_mac class) (port_id (lan_port_of lan));
    if l_is_arp class then lan_arp_steps a now lan m scratch
    else if l_is_ipv4 class then lan_ipv4_steps a now lan m class scratch
    else Done scratch
  end.

Definition wan_ingress_steps (a : AppCtx) (now : Tick) (m : bytes) : steps unit :=
  tuple <~ local (parse_tcp_tuple m);
  match tuple with
  | None => Done ()
  | Some (ext_ip, ext_port, _, _, flags) =>
    x <~ nat_ingress m;
    match x.2 with
    | None => Done ()
    | Some ing =>
      ok <~ ct_check {| int_ip := SourceNat.dst_ip ing; int_port := SourceNat.dst_port ing; ext_ip := ext_ip; ext_port := ext_port |} flags now;
      if negb ok then Done ()
      else
        match head (lan_ports a) with
        | None => Done ()
        | Some any_lan =>
          y <~ lan_resolve (SourceNat.dst_ip ing) x.1 now;
          match y.2 with
          | Forward mac packet =>
            transmit_or_flood_steps a mac (set_ethernet packet (ether_addr (lan_port_of any_lan)) mac) None
          | Queued (Some n) => f <~ local (get_range y.1 0 n); each (lan_ports a) (λ ctx, transmit (lan_port_of ctx) f)
          | Queued None => Done ()
          | Drop_ _ => Done ()
          end
        end
    end
  end.

Definition wan_arp_learn_steps (now : Tick) (p : App.Port) (addr : Ipv4Addr) (m : MacAddr) : steps unit :=
  r <~ wan_on_arp addr m now; send_drained_steps p r.

Definition wan_arp_steps (now : Tick) (wan : WanPortCtx) (m : bytes) : steps unit :=
  match (eth ← EthernetView_parse m; arp eth)%stdpp with
  | None => Done ()
  | Some pkt =>
    let p := wan_port_of wan in
    _ <~ (if negb (sender_ip pkt =? 0) then wan_arp_learn_steps now p (sender_ip pkt) (sha pkt) else Done ());
    (if negb (target_ip pkt =? 0) then wan_arp_learn_steps now p (target_ip pkt) (tha pkt) else Done ())
  end.

Definition wan_frame_steps (a : AppCtx) (now : Tick) (wan : WanPortCtx) (m : bytes) : steps unit :=
  match parse m with
  | None => Done ()
  | Some eth =>
    h <~ local (eth_header eth);
    let class := {| w_src_mac := src h; w_is_arp := is_arp eth; w_is_ipv4 := is_ipv4 eth |} in
    _ <~ fdb_insert (w_src_mac class) (port_id (wan_port_of wan));
    if w_is_arp class then wan_arp_steps now wan m
    else
      d <~ local (with_dhcp m);
      match d with
      | Some view => client_on_receive view
      | None => if w_is_ipv4 class then wan_ingress_steps a now m else Done ()
      end
  end.

Definition wan_control_steps (wan : WanPortCtx) (scratch : bytes) : steps unit :=
  let p := wan_port_of wan in
  bound <~ client_bound_ip;
  match bound with
  | Some wan_ip =>
    old <~ bound_swap wan_ip;
    if negb (old =? wan_ip) then
      _ <~ wan_set_our_ip wan_ip;
      _ <~ nat_set_wan_ip wan_ip;
      l <~ client_lease;
      match (l ← l; lease_gateway l)%stdpp with
      | None => Done ()
      | Some gw =>
        _ <~ gateway_store gw;
        let '(frame, r) := build_request arp_buf (ether_addr p) wan_ip gw in
        match r with Some _ => transmit p frame | None => Done () end
      end
    else Done ()
  | None =>
    r <~ client_poll scratch;
    match r.2 with
    | None => Done ()
    | Some n => f <~ local (get_range r.1 0 n); transmit p f
    end
  end.

Section sweeping.
Context (iter : gmap Ipv4Addr (Pending bytes) → list (Ipv4Addr * Pending bytes)).

(** The requests are handed to the port while the table is locked; as ports are
    no part of the tables, the model sends them after it. *)
Definition wan_sweep (now : Tick) : steps (list bytes) :=
  locked (nb <- gets wan_neighbors ;; let '(nb, _, requests) := Neighbor.sweep iter nb now in
          set_wan_neighbors nb ;; ret requests).
Definition lan_sweep (now : Tick) : steps (list bytes) :=
  locked (nb <- gets lan_neighbors ;; let '(nb, _, requests) := Neighbor.sweep iter nb now in
          set_lan_neighbors nb ;; ret requests).
Definition sweep_port_steps (now : Tick) (port : PortCtx) : steps unit :=
  match port with
  | Wan w => requests <~ wan_sweep now; each requests (transmit (wan_port_of w))
  | Lan l => requests <~ lan_sweep now; each requests (transmit (lan_port_of l))
  end.

Definition maybe_sweep_steps (a : AppCtx) (now : Tick) : steps unit :=
  last <~ locked (gets last_sweep_ms);
  if negb (last =? 0) && (Z.max 0 (now - last) <? SWEEP_INTERVAL_MS) then Done ()
  else
    _ <~ locked (set_last_sweep (Z.min now (2 ^ 32 - 1)));
    _ <~ each (ports a) (sweep_port_steps now);
    ct_sweep now.

Definition event_steps (a : AppCtx) (e : Firewall.event) : steps unit :=
  match e with
  | LanFrame now lan m scratch => _ <~ lan_frame_steps a now lan m scratch; Done ()
  | WanFrame now wan m => wan_frame_steps a now wan m
  | WanControl wan scratch => wan_control_steps wan scratch
  | Sweeping now => maybe_sweep_steps a now
  end.
End sweeping.

(** ** Without interruption, the steps are the handlers *)

Definition sim {A} (p : steps A) (m : M A) : Prop := ∀ t, exec p t = m t.

Lemma bind_det {A B} (m : M A) (k : A → M B) t a t' : m t = Ret (a, t', []) → bind m k t = k a t'.
Proof. unfold bind. intros ->. by destruct (k a t') as [[[? ?] ?]|]. Qed.
Lemma bind_panic {A B} (m : M A) (k : A → M B) t : m t = Panic → bind m k t = Panic.
Proof. unfold bind. by intros ->. Qed.
Lemma exec_det {A B} (m : M A) (k : A → steps B) t a t' :
  m t = Ret (a, t', []) → exec (pbind (locked m) k) t = exec (k a) t'.
Proof. intros E. cbn. by rewrite E. Qed.
Lemma exec_panic {A B} (m : M A) (k : A → steps B) t : m t = Panic → exec (pbind (locked m) k) t = Panic.
Proof. intros E. cbn. by rewrite E. Qed.
(** A program that sends nothing, before another. *)
Lemma exec_silent {A B} (p : steps A) (k : A → steps B) t a t' :
  exec p t = Ret (a, t', []) → exec (pbind p k) t = exec (k a) t'.
Proof. intros E. rewrite exec_bind, E. by destruct (exec (k a) t') as [[[? ?] ?]|]. Qed.
Lemma exec_locked {A} (m : M A) t a t' : m t = Ret (a, t', []) → exec (locked m) t = Ret (a, t', []).
Proof. intros E. cbn. by rewrite E. Qed.

Lemma sim_ret {A} (a : A) : sim (Done a) (ret a).
Proof. done. Qed.
Lemma sim_emit p f : sim (transmit p f) (emit p f).
Proof. done. Qed.
Lemma sim_local {A} (m : outcome A) : sim (local m) (lift m).
Proof. intros t. by destruct m. Qed.
Lemma sim_bind {A B} (p : steps A) (m : M A) (k : A → steps B) (h : A → M B) :
  sim p m → (∀ a, sim (k a) (h a)) → sim (pbind p k) (bind m h).
Proof.
  intros Hp Hk t. rewrite exec_bind, Hp. unfold bind. destruct (m t) as [[[a t1] o]|]; [|done]. by rewrite Hk.
Qed.
Lemma sim_each {A} (l : list A) (f : A → steps unit) (g : A → M unit) :
  (∀ x, sim (f x) (g x)) → sim (each l f) (for_each l g).
Proof. intros Hf. induction l as [|x l IH]; [apply sim_ret|]. cbn [each for_each]. by apply sim_bind. Qed.

(** Rules applied until a table is accessed. *)
Ltac sim_step :=
  match goal with
  | |- sim (pbind (local _) _) (bind (lift _) _) => apply sim_bind; [apply sim_local|intros ?]
  | |- sim (pbind (transmit _ _) _) (bind (emit _ _) _) => apply sim_bind; [apply sim_emit|intros ?]
  | |- sim (pbind (each _ _) _) (bind (for_each _ _) _) => apply sim_bind; [apply sim_each; intros ?|intros ?]
  | |- sim (each _ _) (for_each _ _) => apply sim_each; intros ?
  | |- sim (Done _) (ret _) => apply sim_ret
  | |- sim (transmit _ _) (emit _ _) => apply sim_emit
  | |- sim (match ?x with _ => _ end) (match ?x with _ => _ end) => destruct x
  end; cbn beta iota zeta.
Ltac sims := cbn beta iota zeta; repeat sim_step.

(** One access on either side, which does not panic. *)
Ltac app_step := erewrite bind_det by reflexivity; cbn beta iota zeta.
Ltac op_step := erewrite exec_det by reflexivity; cbn beta iota zeta.

(** Go on in the state that has been reached. *)
Ltac to_sim := match goal with |- exec ?p ?t = ?m _ => let H := fresh in enough (sim p m) as H by exact (H t) end.

Lemma sim_transmit a m packet except :
  sim (transmit_or_flood_steps a m packet except) (transmit_to_mac_or_flood_except a m packet except).
Proof.
  intros t. unfold transmit_or_flood_steps, transmit_to_mac_or_flood_except, fdb_lookup. app_step. op_step. to_sim. sims.
Qed.
Lemma sim_drained p r : sim (send_drained_steps p r) (send_drained p r).
Proof. unfold send_drained_steps, send_drained. sims. Qed.

Lemma sim_lan_learn now p x m : sim (lan_arp_learn_steps now p x m) (lan_arp_learn now p x m).
Proof.
  intros t. unfold lan_arp_learn_steps, lan_arp_learn, lan_on_arp. app_step.
  destruct (on_arp (P := bytes) (lan_neighbors t) x m now) as [nb r] eqn:E. app_step.
  erewrite exec_det by (unfold bind, gets; rewrite E; reflexivity). apply sim_drained.
Qed.
Lemma sim_wan_learn now p x m : sim (wan_arp_learn_steps now p x m) (wan_arp_learn now p x m).
Proof.
  intros t. unfold wan_arp_learn_steps, wan_arp_learn, wan_on_arp. app_step.
  destruct (on_arp (P := bytes) (wan_neighbors t) x m now) as [nb r] eqn:E. app_step.
  erewrite exec_det by (unfold bind, gets; rewrite E; reflexivity). apply sim_drained.
Qed.

Lemma sim_lan_egress a now m : sim (lan_egress_steps a now m) (lan_egress_nat a now m).
Proof.
  intros t. unfold lan_egress_steps, lan_egress_nat. destruct (wan_port a) as [wan|]; [|done].
  unfold gateway_load, nat_wan_ip. app_step. op_step. destruct (gateway_ip t) as [gw|]; [|done].
  app_step. op_step. destruct (_ =? 0); [done|]. destruct (parse_tcp_tuple m) as [[[[[[? ?] ?] ?] fl]|]|]; [|done|done].
  app_step. cbn [local pbind]. unfold ct_observe. app_step. app_step. op_step. app_step. unfold nat_egress. cbn [conntrack nat].
  destruct (translate_egress m (nat t)) as [[[m' n'] r]|] eqn:Et.
  2:{ by rewrite exec_panic by (unfold bind, gets, lift; cbn [nat]; rewrite Et; reflexivity). }
  app_step. erewrite exec_det by (unfold bind, gets, lift; cbn [nat]; rewrite Et; reflexivity). app_step. cbn [snd fst].
  destruct r as [x|]; [|done]. app_step. unfold wan_resolve. cbn [wan_neighbors].
  destruct (resolve (P := bytes) (wan_neighbors t) gw m' arp_buf now) as [[nb buf] act] eqn:Er. app_step.
  erewrite exec_det by (unfold bind, gets; cbn [wan_neighbors lan_neighbors]; rewrite Er; reflexivity). cbn [fst snd]. to_sim. sims.
Qed.

Lemma exec_dhcp {A} (p : prog (AddressPool * LeaseTable) Tx A) t :
  exec (dhcp p) t =
    match exec p (lan_pool t, lan_leases t) with Ret (a, st, os) => Ret (a, dhcp_put st t, os) | Panic => Panic end.
Proof. apply (exec_zoom dhcp_get dhcp_put p t); [by intros [] []|done|by intros []]. Qed.

Lemma sim_lan_ipv4 a now lan m class scratch :
  sim (lan_ipv4_steps a now lan m class scratch) (handle_lan_ipv4 a now lan m class scratch).
Proof.
  unfold lan_ipv4_steps, handle_lan_ipv4. apply sim_bind; [apply sim_local|]. intros [view|].
  - intros t. app_step. rewrite exec_bind, exec_dhcp, (exec_handle (lan_dhcp lan)). fold (server_of lan t).
    destruct (DhcpServer.handle (server_of lan t) view scratch) as [[[s' o] r]|]; [|done]. app_step. app_step.
    cbn [fst snd]. transitivity (exec (match r with
      | None => Done o | Some n => f <~ local (get_range o 0 n); _ <~ transmit (lan_port_of lan) f; Done o end) (dhcp_put (pool s', leases s') t));
      [by destruct (exec _ _) as [[[? ?] ?]|]|].
    to_sim. sims.
  - sims.
    + apply sim_bind; [apply sim_lan_egress|intros _; apply sim_ret].
    + apply sim_bind; [apply sim_transmit|intros _; apply sim_ret].
Qed.

Lemma sim_lan_pool lan pkt : sim (lan_arp_pool_steps pkt) (lan_arp_pool lan pkt).
Proof.
  intros t. unfold lan_arp_pool_steps, lan_arp_pool. app_step. unfold DhcpServer.reserve. cbn [pool server_of].
  destruct (fp_reserve (lan_pool t) (sender_ip pkt)) as [[p' x]|] eqn:Er.
  2:{ rewrite exec_bind, exec_dhcp. cbn [exec shared_reserve atom fst]. by rewrite Er. }
  erewrite exec_silent by (rewrite exec_dhcp; cbn [exec shared_reserve atom fst]; rewrite Er; reflexivity).
  cbn [mbind outcome_bind mret outcome_ret fst snd]. app_step. app_step. app_step. app_step.
  set (t1 := dhcp_put (p', lan_leases t) t).
  unfold lan_reverse_lookup, dhcp_start, dhcp_end. op_step. change (lan_neighbors t1) with (lan_neighbors t). cbn [lan_neighbors].
  destruct (reverse_lookup (lan_neighbors t) (sha pkt)) as [old|]; [|done].
  destruct (negb (old =? sender_ip pkt)); [|done]. op_step. cbn [andb]. unfold server_start, server_end.
  cbn [pool server_of fp_bounds AddressPool_FreePool fst snd lan_pool with_state]. change (start (lan_pool t1)) with (start p').
  destruct (start p' <=? old); [|done]. op_step.
  change (end_ (lan_pool t1)) with (end_ p'). cbn [andb]. destruct (old <=? end_ p'); [|done].
  rewrite exec_dhcp. cbn [exec shared_release atom fst snd]. unfold DhcpServer.release. cbn [server_of pool lan_pool fst snd].
  change (lan_pool t1) with p'. destruct (fp_release p' old) as [p2|]; [|done].
  cbn [mbind outcome_bind mret outcome_ret exec]. app_step. done.
Qed.

Lemma sim_lan_arp a now lan m scratch : sim (lan_arp_steps a now lan m scratch) (handle_lan_arp a now lan m scratch).
Proof.
  unfold lan_arp_steps, handle_lan_arp. destruct (_ ≫= _) as [[eth pkt]|]; [|apply sim_ret]. cbn zeta.
  apply sim_bind; [apply sim_lan_pool|intros _]. apply sim_bind; [apply sim_lan_learn|intros _].
  apply sim_bind; [destruct (negb _); [apply sim_lan_learn|apply sim_ret]|intros _]. sims.
Qed.

Lemma sim_lan_frame a now lan m scratch : sim (lan_frame_steps a now lan m scratch) (lan_frame a now lan m scratch).
Proof.
  unfold lan_frame_steps, lan_frame. destruct (parse m) as [eth|]; [|apply sim_ret]. sims. intros t. unfold fdb_insert.
  app_step. app_step. op_step. to_sim. cbn [l_is_arp l_is_ipv4]. destruct (is_arp eth); [apply sim_lan_arp|].
  destruct (is_ipv4 eth); [apply sim_lan_ipv4|apply sim_ret].
Qed.

Lemma sim_wan_ingress a now m : sim (wan_ingress_steps a now m) (wan_ingress_nat a now m).
Proof.
  unfold wan_ingress_steps, wan_ingress_nat. sims. intros t. unfold nat_ingress. app_step.
  destruct (translate_ingress m (nat t)) as [[m' r]|] eqn:Et.
  2:{ by rewrite exec_panic by (unfold bind, gets, lift; rewrite Et; reflexivity). }
  app_step. erewrite exec_det by (unfold bind, gets, lift; rewrite Et; reflexivity). cbn [fst snd].
  destruct r as [ing|]; [|done]. app_step. unfold ct_check.
  destruct (check_ingress (conntrack t) _ _ now) as [ct ok] eqn:Ec. app_step.
  erewrite exec_det by (unfold bind, gets; rewrite Ec; reflexivity).
  destruct ok; cbn [negb]; [|done]. destruct (head (lan_ports a)) as [any|]; [|done]. app_step. unfold lan_resolve. cbn [lan_neighbors].
  destruct (resolve (P := bytes) (lan_neighbors t) (SourceNat.dst_ip ing) m' arp_buf now) as [[nb buf] act] eqn:Er. app_step.
  erewrite exec_det by (unfold bind, gets; cbn [lan_neighbors]; rewrite Er; reflexivity). cbn [fst snd]. to_sim. sims.
  apply sim_transmit.
Qed.

Lemma sim_wan_arp now wan m : sim (wan_arp_steps now wan m) (handle_wan_arp now wan m).
Proof.
  unfold wan_arp_steps, handle_wan_arp. destruct (_ ≫= _) as [pkt|]; [|apply sim_ret]. cbn zeta.
  apply sim_bind; [|intros _]; (destruct (negb _); [apply sim_wan_learn|apply sim_ret]).
Qed.

Lemma sim_wan_frame a now wan m : sim (wan_frame_steps a now wan m) (wan_frame a now wan m).
Proof.
  unfold wan_frame_steps, wan_frame. destruct (parse m) as [eth|]; [|apply sim_ret]. sims. intros t. unfold fdb_insert.
  app_step. app_step. op_step. to_sim. cbn [w_is_arp w_is_ipv4]. destruct (is_arp eth); [apply sim_wan_arp|]. sims.
  - intros t1. unfold client_on_receive. app_step. destruct (on_receive (wan_client t1) _) as [c|] eqn:Ec.
    + app_step. app_step. app_step. apply exec_locked. unfold bind, gets, lift. rewrite Ec. reflexivity.
    + cbn [exec locked atom]. unfold bind, gets, lift. by rewrite Ec.
  - apply sim_wan_ingress.
Qed.

Lemma sim_wan_control wan scratch : sim (wan_control_steps wan scratch) (wan_control wan scratch).
Proof.
  intros t. unfold wan_control_steps, wan_control, client_bound_ip. cbn zeta. app_step. op_step.
  destruct (bound_ip (wan_client t)) as [w|].
  - app_step. app_step. unfold bound_swap. app_step. op_step. destruct (negb _); [|done].
    unfold wan_set_our_ip, nat_set_wan_ip, client_lease, gateway_store. app_step. app_step. app_step. app_step.
    op_step. op_step. op_step. cbn [wan_client]. destruct (_ ≫= _) as [gw|]; [|done]. app_step. op_step. to_sim. sims.
  - unfold client_poll. destruct (poll (wan_client t) scratch) as [[[c b] r]|] eqn:Ep.
    + app_step. app_step. app_step. app_step. erewrite exec_det by (unfold bind, gets, lift; rewrite Ep; reflexivity).
      cbn [fst snd]. to_sim. sims.
    + by rewrite exec_panic by (unfold bind, gets, lift; rewrite Ep; reflexivity).
Qed.

Lemma sim_sweep iter a now : sim (maybe_sweep_steps iter a now) (maybe_sweep iter a now).
Proof.
  intros t. unfold maybe_sweep_steps, maybe_sweep. app_step. op_step. destruct (_ && _); [done|].
  app_step. op_step. to_sim. apply sim_bind.
  - apply sim_each. intros [w|l] t1; unfold sweep_port_steps, sweep_port, wan_sweep, lan_sweep; app_step.
    + destruct (Neighbor.sweep iter (wan_neighbors t1) now) as [[nb dropped] reqs] eqn:Es. app_step.
      erewrite exec_det by (unfold bind, gets; rewrite Es; reflexivity). to_sim. sims.
    + destruct (Neighbor.sweep iter (lan_neighbors t1) now) as [[nb dropped] reqs] eqn:Es. app_step.
      erewrite exec_det by (unfold bind, gets; rewrite Es; reflexivity). to_sim. sims.
  - intros []. intros t1. unfold ct_sweep. app_step. apply exec_locked. reflexivity.
Qed.

(** The steps of an event, run without interruption, are its handler. *)
(** The two models of the datapath agree: the operations under locks into
    which the treatment of an event is split, run one after the other without
    another worker in between, have the result, the tables, the frames sent in
    their order and the panics of the handlers of [App]. *)
Theorem steps_run_handlers (iter : gmap Ipv4Addr (Pending bytes) → list (Ipv4Addr * Pending bytes)) (a : AppCtx)
    (e : Firewall.event) (t : Tables) :
  exec (event_steps iter a e) t = handle_event iter a e t.
Proof.
  revert t. change (sim (event_steps iter a e) (handle_event iter a e)).
  destruct e as [now lan m scratch|now wan m|wan scratch|now]; cbn [event_steps handle_event].
  - apply sim_bind; [apply sim_lan_frame|]. intros _. apply sim_ret.
  - apply sim_wan_frame.
  - apply sim_wan_control.
  - apply sim_sweep.
Qed.
