(* ===== verification/Exchange.v ===== *)
(** * A TCP exchange through the router

    The composition of dispatch, firewall, translation, neighbour tables and
    forwarding on the path that carries the traffic: a host opens a connection
    to a peer, and the peer's answer comes back. *)

From S2P Require Import Prelude Wire Ethernet Ip Udp Tcp Arp Dhcp View SourceNat Neighbor Conntrack AddrPool Frame Fdb Leases.
From S2P Require Import DhcpFrame DhcpServer DhcpClient Worker App Datapath.
#[local] Open Scope app_scope.

(** ** Layer 2 *)

Lemma slice_past (f f' : bytes) k o n : skipn k f' = skipn k f → (k ≤ o)%nat → slice o n f' = slice o n f.
Proof.
  intros E Hk. unfold slice. replace o with (k + (o - k))%nat by lia. by rewrite <- !drop_drop, E.
Qed.

(** The frame's layer-2 addresses. *)
Definition l2_src (m : bytes) : MacAddr := Ethernet.src (of_bytes (slice 0 14 m)).
Definition l2_dst (m : bytes) : MacAddr := Ethernet.dst (of_bytes (slice 0 14 m)).

Lemma l2_addresses m : (14 ≤ length m)%nat → l2_dst m = slice 0 6 m ∧ l2_src m = slice 6 6 m.
Proof.
  intros H. unfold l2_dst, l2_src. cbn [of_bytes EthernetHeader_Pod Ethernet.dst Ethernet.src].
  by rewrite !slice_slice by lia.
Qed.

(** Replacing the addresses does not change what the packet is. *)
Lemma rewrite_ethernet_layout m s d i l :
  (14 ≤ length m)%nat → length s = 6%nat → length d = 6%nat → (14 ≤ i)%nat → (i ≤ l)%nat →
  same_layout m (rewrite_ethernet m s d) i l.
Proof.
  intros Hm Hs Hd Hi Hl. destruct (rewrite_ethernet_spec m s d Hm Hs Hd) as (Elen & _ & _ & E).
  split; [done|..]; apply (slice_past _ _ 12); done || lia.
Qed.

Lemma classify_set_ethernet m s d f :
  length s = 6%nat → length d = 6%nat →
  (classify_egress m = Ret (Some f) → classify_egress (set_ethernet m s d) = Ret (Some f)) ∧
  (classify_ingress m = Ret (Some f) → classify_ingress (set_ethernet m s d) = Ret (Some f)).
Proof.
  intros Hs Hd. unfold set_ethernet. split; intros Hc.
  - pose proof (classify_egress_flow _ _ Hc) as Ho. pose proof Ho as [H1 H2 H3 _ _ _ Ea Ep].
    assert (14 ≤ length m)%nat as Hm by lia. destruct (rewrite_ethernet_spec m s d Hm Hs Hd) as (_ & _ & _ & E).
    rewrite (classify_egress_congr m) with (f := f); [|done|apply rewrite_ethernet_layout; done || lia].
    rewrite (slice_past m _ 12 (f_ip_off f + 12) 4 E), (slice_past m _ 12 (f_l4_off f + 0) 2 E), <- Ea, <- Ep by lia. by destruct f.
  - pose proof (classify_ingress_flow _ _ Hc) as Ho. pose proof Ho as [H1 H2 H3 _ _ _ Ea Ep].
    assert (14 ≤ length m)%nat as Hm by lia. destruct (rewrite_ethernet_spec m s d Hm Hs Hd) as (_ & _ & _ & E).
    rewrite (classify_ingress_congr m) with (f := f); [|done|apply rewrite_ethernet_layout; done || lia].
    rewrite (slice_past m _ 12 (f_ip_off f + 16) 4 E), (slice_past m _ 12 (f_l4_off f + 2) 2 E), <- Ea, <- Ep by lia. by destruct f.
Qed.

(** A frame with a TCP tuple is an IPv4 frame. *)
Lemma tuple_ipv4 m x :
  parse_tcp_tuple m = Ret (Some x) →
  ∃ e, parse m = Some e ∧ is_arp e = false ∧ is_ipv4 e = true ∧
    eth_header e = Ret (of_bytes (slice 0 14 m)) ∧ (14 ≤ length m)%nat.
Proof.
  rewrite parse_tcp_tuple_eq. intros H. apply (f_equal (λ o, match o with Ret o => o | Panic => None end)) in H.
  apply bind_Some in H as (e & Ee & H). apply bind_Some in H as (v & Ev & _). exists e.
  pose proof Ee as He. apply eth_parse_wf in He as (He & Eb & Es). split; [done|].
  unfold ipv4 in Ev. destruct (is_ipv4 e) eqn:E4; [|done]. unfold is_ipv4 in E4. apply Z.eqb_eq in E4.
  unfold is_arp. rewrite E4. rewrite eth_header_Ret, Eb, Es by done. split_and!; [done|done|done|].
  destruct He. rewrite Eb in *. lia.
Qed.

(** ** The firewall on the path *)

(** A bare SYN from inside leaves its flow in the table. *)
Lemma opening_stored ct k fl now :
  opening fl = true → ∃ c, flows (observe_egress ct k fl now).1 !! k = Some c ∧ fully_closed c = false.
Proof.
  intros Ho. rewrite observe_egress_lookup, decide_True by done. cbn zeta.
  set (c := default _ _). set (c' := Build_Conn _ _ _).
  assert (fully_closed c' = false) as Hc; [|rewrite Hc; eauto].
  apply not_true_iff_false. rewrite fully_closed_spec. cbn [c' internal external]. intros [Hi _].
  apply send_closed in Hi as Hc. destruct (closed_moves fl) as [Hs _]. rewrite Ho in Hs.
  destruct Hc as [Hr|Hc]; [|by rewrite Hc, Hs in Hi].
  unfold opening in Ho. rewrite Hr in Ho. by rewrite andb_false_r in Ho.
Qed.
Lemma stored_admits ct k fl now c :
  flows ct !! k = Some c → fully_closed c = false → ∃ ct', check_ingress ct k fl now = (ct', true).
Proof. intros E Hc. unfold check_ingress. rewrite E, Hc. case_match; by eexists. Qed.

(** ** Out *)

Section exchange.
Context (a : AppCtx) (wan : WanPortCtx) (lan : LanPortCtx).
Hypothesis Hwan : wan_port a = Some wan.
Hypothesis Hwmac : mac_ok (ether_addr (wan_port_of wan)).

(** The first segment of a flow leaves by the WAN port, translated, to the
    gateway's hardware address. *)
Lemma lan_egress_sends now m t gw eg hip hp xip xp fl n x :
  gateway_ip t = Some gw → wan_ip (nat t) ≠ 0 →
  parse_tcp_tuple m = Ret (Some (hip, hp, xip, xp, fl)) → egress (nat t) L4_Tcp hip hp = (n, Some x) →
  cache (wan_neighbors t) !! gw = Some eg →
  ∃ f t', classify_egress m = Ret (Some f) ∧ f_l4 f = L4_Tcp ∧
    lan_egress_nat a now m t = Ret ((), t', [{| tx_port := port_id (wan_port_of wan);
      tx_frame := set_ethernet (rewritten m 12 0 f (octets (new_src_ip x)) (to_be16 (new_src_port x)))
        (ether_addr (wan_port_of wan)) (Neighbor.mac eg) |}]) ∧
    nat t' = n ∧ fdb t' = fdb t ∧ lan_neighbors t' = lan_neighbors t ∧
    conntrack t' = (observe_egress (conntrack t) {| int_ip := hip; int_port := hp; ext_ip := xip; ext_port := xp |} fl now).1.
Proof.
  intros Hgw Hip Ht He Hc. pose proof (tuple_classify _ _ _ _ _ _ Ht) as (f & _ & Hf & Hl4 & Efip & Efp & _).
  exists f. eexists. split; [done|]. split; [done|]. unfold lan_egress_nat. rewrite Hwan.
  unfold bind, gets, lift, set_conntrack, set_nat, set_wan_neighbors, emit. rewrite Hgw.
  rewrite (proj2 (Z.eqb_neq _ _) Hip), Ht. cbn [nat conntrack].
  rewrite <- Efip, <- Efp, <- Hl4 in He. rewrite (translate_egress_Some _ _ _ _ _ Hf He). cbn [wan_neighbors].
  unfold resolve. rewrite Hc. cbn. split; [reflexivity|]. done.
Qed.

(** ** Back *)

Lemma wan_ingress_delivers now g t any k fl w ext eh port out c :
  nat_wf (nat t) → parse_tcp_tuple g = Ret (Some (ext_ip k, ext_port k, w, ext, fl)) →
  ingress (nat t) L4_Tcp ext = Some (int_ip k, int_port k) →
  flows (conntrack t) !! k = Some c → fully_closed c = false →
  head (lan_ports a) = Some any → cache (lan_neighbors t) !! int_ip k = Some eh →
  Fdb.lookup_ (fdb t) (Neighbor.mac eh) = Some port → lan_port_by_id a port = Some out →
  ∃ h t', classify_ingress g = Ret (Some h) ∧ f_l4 h = L4_Tcp ∧
    wan_ingress_nat a now g t = Ret ((), t', [{| tx_port := port_id (lan_port_of out);
      tx_frame := set_ethernet (rewritten g 16 2 h (octets (int_ip k)) (to_be16 (int_port k)))
        (ether_addr (lan_port_of any)) (Neighbor.mac eh) |}]).
Proof.
  intros Hn Ht Hi Hflow Hopen Hany Hc Hfdb Hout.
  pose proof (tuple_classify _ _ _ _ _ _ Ht) as (_ & h & _ & _ & _ & _ & Hh & Hl4 & _ & Ehp).
  destruct (stored_admits (conntrack t) k fl now c Hflow Hopen) as [ct Hct].
  exists h. eexists. split; [done|]. split; [done|]. unfold wan_ingress_nat, bind, gets, lift, set_conntrack, set_lan_neighbors.
  rewrite Ht. rewrite <- Ehp, <- Hl4 in Hi. rewrite (translate_ingress_Some _ _ _ _ _ Hh Hi).
  cbn [SourceNat.dst_ip SourceNat.dst_port].
  replace {| int_ip := int_ip k; int_port := int_port k; ext_ip := ext_ip k; ext_port := ext_port k |} with k by (by destruct k).
  rewrite Hct. cbn [negb]. rewrite Hany. cbn [lan_neighbors]. unfold resolve. rewrite Hc.
  unfold transmit_to_mac_or_flood_except, bind, gets. cbn [fdb]. rewrite Hfdb, bool_decide_false by done.
  rewrite Hout. reflexivity.
Qed.

(** ** Dispatch of TCP frames *)

(** The tables once the source address of a frame has been learnt. *)
Definition learnt (t : Tables) (m : bytes) (port : Z) : Tables :=
  {| fdb := Fdb.insert_ (fdb t) (l2_src m) port; nat := nat t; conntrack := conntrack t;
     wan_neighbors := wan_neighbors t; wan_client := wan_client t; wan_bound := wan_bound t; wan_gateway := wan_gateway t;
     lan_neighbors := lan_neighbors t; lan_pool := lan_pool t; lan_leases := lan_leases t; last_sweep_ms := last_sweep_ms t |}.

Lemma lan_frame_tcp now m scratch t x :
  parse_tcp_tuple m = Ret (Some x) → l2_dst m = app_server_mac a →
  lan_frame a now lan m scratch t =
    bind (lan_egress_nat a now m) (λ _, ret scratch) (learnt t m (port_id (lan_port_of lan))).
Proof.
  intros Ht Hd. destruct (tuple_ipv4 _ _ Ht) as (e & Ee & Ea & E4 & Eh & _).
  unfold lan_frame. rewrite Ee, Eh. unfold bind at 1 2 3, lift, gets, set_fdb.
  cbn [l_is_arp l_is_ipv4 l_src_mac]. rewrite Ea, E4. unfold handle_lan_ipv4. rewrite (tuple_not_dhcp _ _ Ht).
  unfold bind at 1. cbn [lift l_dst_mac]. rewrite bool_decide_true by exact Hd. fold (l2_src m). fold (learnt t m (port_id (lan_port_of lan))).
  destruct (bind _ _ _) as [[[? ?] ?]|]; reflexivity.
Qed.
Lemma wan_frame_tcp now g t x :
  parse_tcp_tuple g = Ret (Some x) →
  wan_frame a now wan g t = wan_ingress_nat a now g (learnt t g (port_id (wan_port_of wan))).
Proof.
  intros Ht. destruct (tuple_ipv4 _ _ Ht) as (e & Ee & Ea & E4 & Eh & _).
  unfold wan_frame. rewrite Ee, Eh. unfold bind at 1 2 3, lift, gets, set_fdb.
  cbn [w_is_arp w_is_ipv4 w_src_mac]. rewrite Ea, (tuple_not_dhcp _ _ Ht). unfold bind. cbn [lift]. rewrite E4.
  fold (l2_src g). fold (learnt t g (port_id (wan_port_of wan))). destruct (wan_ingress_nat _ _ _ _) as [[[? ?] ?]|]; reflexivity.
Qed.

(** ** There and back *)

(** The router is up: it has an address and a gateway whose hardware address it
    knows, and it knows the host behind [lan]. *)
Record ready (t : Tables) (gw : Ipv4Addr) (gw_mac : MacAddr) (host : Ipv4Addr) (host_mac : MacAddr) : Prop := {
  rd_wf : tables_wf t;
  rd_gateway : gateway_ip t = Some gw;
  rd_bound : wan_ip (nat t) ≠ 0;
  rd_gw_mac : mac_ok gw_mac;
  rd_gw : ∃ e, cache (wan_neighbors t) !! gw = Some e ∧ Neighbor.mac e = gw_mac;
  rd_host_mac : length host_mac = 6%nat;
  rd_host : ∃ e, cache (lan_neighbors t) !! host = Some e ∧ Neighbor.mac e = host_mac;
}.

(** What a frame with these endpoints and layer-2 addresses is. *)
Definition carries (f : bytes) (s d : MacAddr) (sip sp dip dp : Z) : Prop :=
  l2_src f = s ∧ l2_dst f = d ∧
  (∃ e, classify_egress f = Ret (Some e) ∧ f_l4 e = L4_Tcp ∧ f_ip e = sip ∧ f_port e = sp) ∧
  (∃ i, classify_ingress f = Ret (Some i) ∧ f_l4 i = L4_Tcp ∧ f_ip i = dip ∧ f_port i = dp).

Lemma carries_set_ethernet f s d e i :
  length s = 6%nat → length d = 6%nat →
  classify_egress f = Ret (Some e) → f_l4 e = L4_Tcp → classify_ingress f = Ret (Some i) → f_l4 i = L4_Tcp →
  carries (set_ethernet f s d) s d (f_ip e) (f_port e) (f_ip i) (f_port i).
Proof.
  intros Hs Hd He Le Hi Li. pose proof (classify_egress_flow _ _ He) as [H1 H2 H3 _ _ _ _ _].
  destruct (rewrite_ethernet_spec f s d) as (Hl & H0 & H6 & _); [lia|done|done|].
  destruct (l2_addresses (set_ethernet f s d)) as [Ed Es]; [unfold set_ethernet; lia|].
  destruct (classify_set_ethernet f s d e Hs Hd) as [Ce _]. destruct (classify_set_ethernet f s d i Hs Hd) as [_ Ci].
  split_and!; [by rewrite Es|by rewrite Ed|exists e; auto|exists i; auto].
Qed.

(** C1: a TCP exchange, end to end, of frames without VLAN tag that are not later
    fragments: when a host sends a bare SYN to the router's
    hardware address and an external port is available for it, exactly one
    frame leaves, by the WAN port, to the gateway's hardware address, from the
    router's address and the allocated port, to the peer; and when then any TCP
    segment from that peer arrives for that address and port, exactly one frame leaves, by
    the LAN port the host was seen on, to the host's hardware address, from the
    peer, to the host's own address and port. *)
Theorem tcp_exchange (t : Tables) (gw host : Ipv4Addr) (gw_mac : MacAddr) (now now' : Tick) (m scratch g : bytes)
    (sp peer pp fl fl' : Z) (n : Nat) (x : SourceNat.Egress)
    (Hready : ready t gw gw_mac host (l2_src m)) (Hlan : lan_port_by_id a (port_id (lan_port_of lan)) = Some lan)
    (Hm : slice_ok m) (Hdst : l2_dst m = app_server_mac a)
    (Hplain : untagged m = true ∧ first_fragment m = true) (Hplain' : untagged g = true ∧ first_fragment g = true)
    (Hsyn : parse_tcp_tuple m = Ret (Some (host, sp, peer, pp, fl))) (Hopen : opening fl = true)
    (Hport : egress (nat t) L4_Tcp host sp = (n, Some x))
    (Hreply : parse_tcp_tuple g = Ret (Some (peer, pp, wan_ip (nat t), new_src_port x, fl'))) (Hsrc : l2_src g ≠ l2_src m) :
  ∃ t1 f, lan_frame a now lan m scratch t = Ret (scratch, t1, [{| tx_port := port_id (wan_port_of wan); tx_frame := f |}]) ∧
    carries f (ether_addr (wan_port_of wan)) gw_mac (wan_ip (nat t)) (new_src_port x) peer pp ∧
  ∃ t2 h first, wan_frame a now' wan g t1 = Ret ((), t2, [{| tx_port := port_id (lan_port_of lan); tx_frame := h |}]) ∧
    head (lan_ports a) = Some first ∧
    (length (ether_addr (lan_port_of first)) = 6%nat →
     carries h (ether_addr (lan_port_of first)) (l2_src m) peer pp host sp).
Proof.
  destruct Hready as [Hwf Hgw Hbound Hgm (eg & Heg & <-) Hhm (eh & Heh & Eehm)].
  pose proof (tuple_classify _ _ _ _ _ _ Hsyn) as (f1 & i1 & Cf1 & Lf1 & If1 & Pf1 & Ci1 & Li1 & Ii1 & Pi1).
  pose proof (tuple_classify _ _ _ _ _ _ Hreply) as (e2 & h2 & Ce2 & Le2 & Ie2 & Pe2 & Ch2 & Lh2 & Ih2 & Ph2).
  assert (u32 host ∧ u16 sp) as [Uhost Usp].
  { rewrite <- If1, <- Pf1. apply (flow_bounds 12 0 m f1 dir_egress Hm). by apply classify_egress_flow. }
  destruct (egress_spec _ _ _ _ _ _ (tw_nat _ Hwf) Uhost Usp Hport) as (Hn & _ & _ & _ & _ & _ & Exip & Hrange & Hfwd).
  (* out *)
  set (t0 := learnt t m (port_id (lan_port_of lan))).
  destruct (lan_egress_sends now m t0 gw eg host sp peer pp fl n x) as (f1' & t1 & Cf1' & _ & Hsend & Hnat & Hfdb & Hlnb & Hct); [done..|].
  rewrite Cf1 in Cf1'. injection Cf1' as <-.
  eexists t1, _. split.
  { rewrite (lan_frame_tcp now m scratch t (host, sp, peer, pp, fl)) by done. unfold bind. fold t0. by rewrite Hsend. }
  assert (u16 (new_src_port x)) as Ux by (destruct (wf_range _ (tw_nat _ Hwf)) as (? & ? & ?); word_lia).
  destruct (rewritten_classify_egress m f1 (new_src_ip x) (new_src_port x)) as [R1 R2];
    [done|rewrite Exip; apply (wf_wan _ (tw_nat _ Hwf))|done|].
  split.
  { rewrite <- Ii1, <- Pi1. rewrite <- R2 in Ci1. rewrite <- Exip.
    exact (carries_set_ethernet _ _ _ _ _ (proj1 Hwmac) (proj1 Hgm) R1 Lf1 Ci1 Li1). }
  (* back *)
  rewrite (wan_frame_tcp now' g t1 _ Hreply).
  destruct (opening_stored (conntrack t) {| int_ip := host; int_port := sp; ext_ip := peer; ext_port := pp |} fl now Hopen) as (c & Hc & Hcc).
  assert (∃ first, head (lan_ports a) = Some first) as [first Hfirst].
  { unfold lan_port_by_id in Hlan. destruct (lan_ports a); [done|by eexists]. }
  destruct (wan_ingress_delivers now' g (learnt t1 g (port_id (wan_port_of wan))) first
    {| int_ip := host; int_port := sp; ext_ip := peer; ext_port := pp |} fl' (wan_ip (nat t)) (new_src_port x) eh
    (port_id (lan_port_of lan)) lan c) as (h & t2 & Ch & _ & Hdel); cbn [learnt nat conntrack lan_neighbors fdb int_ip int_port ext_ip ext_port]; try done.
  - by rewrite Hnat.
  - rewrite Hnat. by apply ingress_inverse.
  - by rewrite Hct.
  - by rewrite Hlnb.
  - rewrite Hfdb, Eehm. unfold Fdb.lookup_, Fdb.insert_. cbn [Fdb.table t0 learnt fdb]. unfold Fdb.insert_. cbn [Fdb.table].
    by rewrite lookup_insert_ne, lookup_insert_eq by done.
  - rewrite Ch2 in Ch. injection Ch as <-. eexists t2, _, first. split; [exact Hdel|]. split; [done|]. intros Hfl.
    cbn [int_ip int_port]. destruct (rewritten_classify_ingress g h2 host sp Ch2 Uhost Usp) as [R3 R4].
    rewrite <- Ie2, <- Pe2. rewrite <- R4 in Ce2. rewrite Eehm.
    exact (carries_set_ethernet _ _ _ _ _ Hfl Hhm Ce2 Le2 R3 Lh2).
Qed.
End exchange.

Lemma tcp_exchange_witness :
  ∃ t1 f, lan_frame Sample.app 1 (Sample.lan_port 2) Sample.syn Sample.scratch Sample.tables
      = Ret (Sample.scratch, t1, [{| tx_port := 0; tx_frame := f |}]) ∧
    carries f [2; 0; 0; 0; 0; 7] Sample.gateway_mac (ip4 203 0 113 7) 40000 Sample.peer 443 ∧
  ∃ t2 h first, wan_frame Sample.app 2 Sample.wan Sample.syn_ack t1 = Ret ((), t2, [{| tx_port := 2; tx_frame := h |}]) ∧
    head (lan_ports Sample.app) = Some first ∧
    (length (ether_addr (lan_port_of first)) = 6%nat →
     carries h (ether_addr (lan_port_of first)) Sample.host_mac Sample.peer 443 Sample.host 5000).
Proof.
  apply (tcp_exchange Sample.app Sample.wan (Sample.lan_port 2) eq_refl ltac:(split; [reflexivity|decide_now])
    Sample.tables Sample.gateway Sample.host Sample.gateway_mac 1 2 Sample.syn Sample.scratch Sample.syn_ack
    5000 Sample.peer 443 2 18
    (egress sample_nat L4_Tcp Sample.host 5000).1 {| new_src_ip := ip4 203 0 113 7; new_src_port := 40000 |}).
  - split.
    + apply Sample.tables_ok.
    + reflexivity.
    + decide_now.
    + split; [reflexivity|decide_now].
    + eexists. split; vm_compute; reflexivity.
    + vm_compute. reflexivity.
    + eexists. split; vm_compute; reflexivity.
  - reflexivity.
  - split; decide_now.
  - vm_compute. reflexivity.
  - split; vm_compute; reflexivity.
  - split; vm_compute; reflexivity.
  - vm_compute. reflexivity.
  - reflexivity.
  - vm_compute. reflexivity.
  - vm_compute. reflexivity.
  - vm_compute. discriminate.
Defined.
