(* ===== verification/Concurrent.v ===== *)
(** * The router under concurrent workers

    Any number of workers treat LAN frames, WAN frames, the lease of the WAN port
    and the sweeps at the same time, interleaved between any two of their
    operations on the tables ([Steps], [Workers]).  Two results hold for every
    schedule: what reaches a LAN port stays under the control of the firewall;
    and on a LAN whose hosts keep their addresses no worker panics and the
    leases stay exclusive. *)

From S2P Require Import Prelude Wire Ethernet Ip Udp Tcp Arp Dhcp View SourceNat Neighbor Conntrack AddrPool Frame Fdb Leases.
From S2P Require Import DhcpFrame DhcpServer DhcpClient Worker Workers DhcpWorkers App Datapath Firewall Steps Exchange.
#[local] Open Scope app_scope.
#[local] Open Scope prog_scope.

Abbreviation event := Firewall.event.
Abbreviation history := (list event).

Section router.
Context (iter : gmap Ipv4Addr (Pending bytes) → list (Ipv4Addr * Pending bytes)) (a : AppCtx) (wan : WanPortCtx).

(** ** What may be sent *)

(** A LAN host opened the flow: it sent the router a bare SYN of it. *)
Definition opened_by (h : history) (k : FlowKey) : Prop :=
  ∃ now lan m scratch flags, LanFrame now lan m scratch ∈ h ∧ lan_segment a m k flags ∧ opening flags = true.

(** A TCP segment of the flow, from its external to its internal endpoint. *)
Definition inbound (k : FlowKey) (f : bytes) : Prop :=
  (∃ x, classify_egress f = Ret (Some x) ∧ f_l4 x = L4_Tcp ∧ f_ip x = ext_ip k ∧ f_port x = ext_port k) ∧
  (∃ y, classify_ingress f = Ret (Some y) ∧ f_l4 y = L4_Tcp ∧ f_ip y = int_ip k ∧ f_port y = int_port k).

(** Such a segment, of a flow that was opened from inside, and that came as a
    WAN frame from the flow's external endpoint. *)
Definition admitted (h : history) (f : bytes) : Prop :=
  ∃ k now m w ext flags, WanFrame now wan m ∈ h ∧
    parse_tcp_tuple m = Ret (Some (ext_ip k, ext_port k, w, ext, flags)) ∧ inbound k f ∧ opened_by h k.

Definition is_arp_frame (f : bytes) : Prop := slice 12 2 f = to_be16 ethertype_ARP.

(** A frame that a worker may hand to a port while it treats [e]: a frame for the
    WAN; an ARP frame; the LAN frame itself, or a DHCP reply to the port it came
    from; or an admitted segment. *)
Definition may_send (e : option event) (h : history) (o : Tx) : Prop :=
  tx_port o = port_id (wan_port_of wan) ∨ is_arp_frame (tx_frame o) ∨
  (∃ now lan m scratch, e = Some (LanFrame now lan m scratch) ∧
     (tx_frame o = m ∨ tx_port o = port_id (lan_port_of lan) ∧ ∃ v, with_dhcp m = Ret (Some v))) ∨
  admitted h (tx_frame o).

Lemma opened_by_mono h e k : opened_by h k → opened_by (h ++ [e]) k.
Proof. intros (now & lan & m & s & fl & Hin & H). exists now, lan, m, s, fl. split; [set_solver|done]. Qed.
Lemma admitted_mono h e f : admitted h f → admitted (h ++ [e]) f.
Proof.
  intros (k & now & m & w & ext & fl & Hin & Ht & Hi & Ho). exists k, now, m, w, ext, fl. split_and!; [set_solver|done|done|].
  by apply opened_by_mono.
Qed.
Lemma may_send_mono e h e' o : may_send e h o → may_send e (h ++ [e']) o.
Proof. intros [H|[H|[H|H]]]; unfold may_send; auto using admitted_mono. Qed.

(** ** Frames *)

Lemma inbound_set_ethernet k f s d : length s = 6%nat → length d = 6%nat → inbound k f → inbound k (set_ethernet f s d).
Proof.
  intros Hs Hd [(x & Hx & Lx) (y & Hy & Ly)]. destruct (classify_set_ethernet f s d x Hs Hd) as [Cx _].
  destruct (classify_set_ethernet f s d y Hs Hd) as [_ Cy]. split; [exists x|exists y]; auto.
Qed.
Lemma admitted_set_ethernet h f s d : length s = 6%nat → length d = 6%nat → admitted h f → admitted h (set_ethernet f s d).
Proof.
  intros Hs Hd (k & now & m & w & ext & fl & Hin & Ht & Hi & Ho). exists k, now, m, w, ext, fl.
  split_and!; [done|done|by apply inbound_set_ethernet|done].
Qed.

(** The translation turns a TCP packet into a segment for the internal endpoint. *)
Lemma translate_inbound m n m' ing xip xp w ext fl :
  nat_wf n → parse_tcp_tuple m = Ret (Some (xip, xp, w, ext, fl)) → translate_ingress m n = Ret (m', Some ing) →
  inbound (key_of (SourceNat.dst_ip ing) (SourceNat.dst_port ing) xip xp) m'.
Proof.
  intros Hn Ht. destruct (tuple_classify _ _ _ _ _ _ Ht) as (e & h & Ce & Le & Ie & Pe & Ch & Lh & _ & _).
  destruct (ingress n (f_l4 h) (f_port h)) as [[ip port]|] eqn:Ei.
  - rewrite (translate_ingress_Some _ _ _ _ _ Ch Ei). intros [= <- <-]. cbn [SourceNat.dst_ip SourceNat.dst_port].
    destruct (ingress_bound _ _ _ _ _ Hn Ei) as (Hip & Hport & _).
    destruct (rewritten_classify_ingress m h ip port Ch Hip Hport) as [R1 R2]. split.
    + exists e. by rewrite R2.
    + exists (with_endpoint h ip port). split; [exact R1|]. by split_and!.
  - unfold translate_ingress. rewrite Ch. cbn [mbind outcome_bind]. by rewrite Ei.
Qed.

Lemma arp_frame_is_arp d s op sha spa tha tpa rest :
  length d = 6%nat → length s = 6%nat → is_arp_frame (arp_frame d s op sha spa tha tpa ++ rest).
Proof.
  intros Hd Hs. unfold is_arp_frame, arp_frame. rewrite <- !app_assoc. rewrite (slice_app_ge d _ 6) by (done || lia).
  rewrite (slice_app_ge s _ 6) by (done || lia). apply slice_app_0. done.
Qed.
Lemma is_arp_prefix n f : (14 ≤ n)%nat → (n ≤ length f)%nat → is_arp_frame f → is_arp_frame (firstn n f).
Proof.
  unfold is_arp_frame. intros Hn Hl <-. unfold slice. rewrite skipn_firstn_comm, take_take. f_equal. lia.
Qed.

(** ** Invariant *)

(** A LAN on which each hardware address is known by at most one address: where
    a host's address is. *)
Context (steady : bool) (home : MacAddr → option Ipv4Addr).
Context (bounds : Ipv4Addr * Ipv4Addr).

(** What a worker knows: its event, a flow that was opened, packets that were
    admitted, and the pool address it holds. *)
Record Know := { kn_event : option event; kn_flow : option FlowKey; kn_cleared : list bytes; kn_hand : option Ipv4Addr }.
Definition idle_know : Know := {| kn_event := None; kn_flow := None; kn_cleared := []; kn_hand := None |}.
Definition empty_handed (l : Know) : Prop := kn_hand l = None.
Definition with_flow (l : Know) (k : FlowKey) : Know :=
  {| kn_event := kn_event l; kn_flow := Some k; kn_cleared := kn_cleared l; kn_hand := kn_hand l |}.
Definition with_cleared (l : Know) (qs : list bytes) : Know :=
  {| kn_event := kn_event l; kn_flow := kn_flow l; kn_cleared := qs; kn_hand := kn_hand l |}.
Definition with_hand (l : Know) (x : option Ipv4Addr) : Know :=
  {| kn_event := kn_event l; kn_flow := kn_flow l; kn_cleared := kn_cleared l; kn_hand := x |}.

Record know_ok (h : history) (l : Know) : Prop := {
  ko_event : ∀ e, kn_event l = Some e → e ∈ h;
  ko_flow : ∀ k, kn_flow l = Some k → opened_by h k;
  ko_cleared : ∀ q, q ∈ kn_cleared l → admitted h q;
}.

Record tables_ok (s : Tables) (h : history) : Prop := {
  to_nat : nat_wf (nat s);
  to_client : mac_ok (mac (wan_client s));
  to_lease : ∀ l, lease (wan_client s) = Some l → u32 (ip l);
  to_wan_mac : mac_ok (our_mac (wan_neighbors s));
  to_lan_mac : mac_ok (our_mac (lan_neighbors s));
  to_flows_wf : Conntrack.table_wf (conntrack s);
  to_flows : ∀ k, is_Some (flows (conntrack s) !! k) → opened_by h k;
  to_cache : ∀ x c, cache (lan_neighbors s) !! x = Some c → length (Neighbor.mac c) = 6%nat;
  to_pending : ∀ x p q, pending (lan_neighbors s) !! x = Some p → q ∈ packets p → admitted h q;
  to_home : steady = true → ∀ m x, resolved (lan_neighbors s) !! m = Some x → home m = Some x ∨ home m = None;
}.

Record J (s : Tables) (h : history) (ls : list Know) : Prop := {
  j_tables : tables_ok s h;
  j_know : ∀ i l, ls !! i = Some l → know_ok h l;
  j_pool : steady = true → shared_ok bounds (dhcp_get s) (kn_hand <$> ls);
}.

Abbreviation fine := (ok (steady = false) J may_send).

(** The part of the tables that the invariant reads. *)
Definition visible (s : Tables) :=
  (nat s, wan_client s, our_mac (wan_neighbors s), conntrack s, lan_neighbors s, lan_pool s, lan_leases s).
Lemma J_ext s s' h ls : visible s' = visible s → J s h ls → J s' h ls.
Proof.
  unfold visible. intros E [Ht Hk Hp]. apply pair_eq in E as [E El]. apply pair_eq in E as [E Ep]. apply pair_eq in E as [E Eln].
  apply pair_eq in E as [E Ec]. apply pair_eq in E as [E Ew]. apply pair_eq in E as [En Ecl].
  split; [|done|unfold dhcp_get; by rewrite Ep, El]. destruct Ht. split; by rewrite ?En, ?Ecl, ?Ew, ?Ec, ?Eln.
Qed.
(** A change of the tables other than the pool and the leases. *)
Lemma J_tables s s' h ls : dhcp_get s' = dhcp_get s → tables_ok s' h → J s h ls → J s' h ls.
Proof. intros E Ht [_ Hk Hp]. split; [done|done|by rewrite E]. Qed.
(** A change of what a worker knows. *)
Lemma J_know s h ls i l l' :
  ls !! i = Some l → kn_hand l' = kn_hand l → know_ok h l' → J s h ls → J s h (<[i := l']> ls).
Proof.
  intros Hi Hh Hl' [Ht Hk Hp]. split; [done| |].
  - intros j x. rewrite list_lookup_insert_Some. intros [(<- & -> & _)|[_ Hx]]; [done|by eapply Hk].
  - intros Hst. rewrite list_fmap_insert, Hh. rewrite list_insert_id; [auto|]. by rewrite list_lookup_fmap, Hi.
Qed.

(** ** Rules *)

Lemma fine_locked {A} e l (m : M A) (Q : Know → A → Prop) :
  (∀ s h ls i, J s h ls → ls !! i = Some l →
     ∃ x s' l', m s = Ret (x, s', []) ∧ J s' h (<[i := l']> ls) ∧ Q l' x) → fine e l (locked m) Q.
Proof.
  intros H s h ls i HJ Hi. destruct (H s h ls i HJ Hi) as (x & s' & l' & -> & HJ' & HQ). by exists l'.
Qed.
(** An operation that leaves alone what the worker knows. *)
Lemma fine_op {A} e l (m : M A) (Q : Know → A → Prop) :
  (∀ s h ls i, J s h ls → ls !! i = Some l → ∃ x s', m s = Ret (x, s', []) ∧ J s' h ls ∧ Q l x) → fine e l (locked m) Q.
Proof.
  intros H. apply fine_locked. intros s h ls i HJ Hi. destruct (H s h ls i HJ Hi) as (x & s' & E & HJ' & HQ).
  exists x, s', l. by rewrite list_insert_id.
Qed.
Lemma fine_gets {A} e l (f : Tables → A) (Q : Know → A → Prop) :
  (∀ s h ls i, J s h ls → ls !! i = Some l → Q l (f s)) → fine e l (locked (gets f)) Q.
Proof. intros H. apply fine_op. intros s h ls i HJ Hi. exists (f s), s. eauto. Qed.
Lemma fine_transmit e l p f (Q : Know → unit → Prop) :
  (∀ h, know_ok h l → may_send e h {| tx_port := port_id p; tx_frame := f |}) → Q l () → fine e l (transmit p f) Q.
Proof. intros H HQ. split; [|done]. intros s h ls i HJ Hi. apply H. by eapply j_know. Qed.
Lemma fine_each {A} e l (xs : list A) (f : A → steps unit) (Q : Know → unit → Prop) :
  (∀ x, x ∈ xs → fine e l (f x) (λ l' _, l' = l)) → Q l () → fine e l (each xs f) Q.
Proof.
  intros H HQ. induction xs as [|x xs IH]; [done|]. cbn [each]. apply ok_bind.
  eapply ok_mono; [|by apply H; left]. cbn beta. intros l' _ ->. apply IH. intros y Hy. apply H. by right.
Qed.
Lemma fine_done {A} e l (x : A) (Q : Know → A → Prop) : Q l x → fine e l (Done x) Q.
Proof. done. Qed.

(** ** Operations *)

Ltac done_op := (split; [done|]).

(** An operation on a table that the invariant does not read. *)
Lemma fine_fdb_insert e l m port (Q : Know → unit → Prop) : Q l () → fine e l (fdb_insert m port) Q.
Proof. intros HQ. apply fine_op. intros s h ls i HJ Hi. eexists _, _. done_op. split; [by apply (J_ext s)|done]. Qed.
Lemma fine_fdb_lookup e l m (Q : Know → option Z → Prop) : (∀ r, Q l r) → fine e l (fdb_lookup m) Q.
Proof. intros HQ. by apply fine_gets. Qed.
Lemma fine_gateway_load e l (Q : Know → option Ipv4Addr → Prop) : (∀ r, Q l r) → fine e l gateway_load Q.
Proof. intros HQ. by apply fine_gets. Qed.
Lemma fine_gateway_store e l x (Q : Know → unit → Prop) : Q l () → fine e l (gateway_store x) Q.
Proof. intros HQ. apply fine_op. intros s h ls i HJ Hi. eexists _, _. done_op. split; [by apply (J_ext s)|done]. Qed.
Lemma fine_bound_swap e l x (Q : Know → Z → Prop) : (∀ r, Q l r) → fine e l (bound_swap x) Q.
Proof. intros HQ. apply fine_op. intros s h ls i HJ Hi. eexists _, _. done_op. split; [by apply (J_ext s)|apply HQ]. Qed.
Lemma fine_set_last e l x (Q : Know → unit → Prop) : Q l () → fine e l (locked (set_last_sweep x)) Q.
Proof. intros HQ. apply fine_op. intros s h ls i HJ Hi. eexists _, _. done_op. split; [by apply (J_ext s)|done]. Qed.

Lemma fine_nat_wan_ip e l (Q : Know → Ipv4Addr → Prop) : (∀ r, Q l r) → fine e l nat_wan_ip Q.
Proof. intros HQ. by apply fine_gets. Qed.
Lemma fine_nat_set e l x (Q : Know → unit → Prop) : u32 x → Q l () → fine e l (nat_set_wan_ip x) Q.
Proof.
  intros Hx HQ. apply fine_op. intros s h ls i HJ Hi. eexists _, _. done_op. split; [|done].
  apply (J_tables s); [done| |done]. destruct (j_tables _ _ _ HJ). split; try done. by apply nat_wf_wan.
Qed.
Lemma fine_nat_egress e l m (Q : Know → bytes * option SourceNat.Egress → Prop) :
  slice_ok m → (∀ r, Q l r) → fine e l (nat_egress m) Q.
Proof.
  intros Hm HQ. apply fine_op. intros s h ls i HJ Hi. pose proof (j_tables _ _ _ HJ) as Ht.
  destruct (translate_egress_total m (nat s)) as (m' & n' & r & E). unfold bind, gets, lift. rewrite E.
  eexists _, _. done_op. split; [|apply HQ]. apply translate_egress_table in E as (Hn' & _); [|done|apply Ht].
  apply (J_tables s); [done| |done]. destruct Ht. by split.
Qed.
Lemma fine_nat_ingress e l m (Q : Know → bytes * option SourceNat.Ingress → Prop) :
  (∀ n m' r, nat_wf n → translate_ingress m n = Ret (m', r) → Q l (m', r)) → fine e l (nat_ingress m) Q.
Proof.
  intros HQ. apply fine_op. intros s h ls i HJ Hi. destruct (translate_ingress_total m (nat s)) as (m' & r & E).
  unfold bind, gets, lift. rewrite E. eexists _, _. done_op. split; [done|]. eapply HQ; [apply HJ|done].
Qed.

(** The connection table. *)
Lemma fine_ct_observe e l k fl now now' lan m scratch (Q : Know → unit → Prop) :
  kn_event l = Some (LanFrame now' lan m scratch) → lan_segment a m k fl → Q l () → fine e l (ct_observe k fl now) Q.
Proof.
  intros He Hseg HQ. apply fine_op. intros s h ls i HJ Hi. pose proof (j_tables _ _ _ HJ) as Ht.
  pose proof (ko_event _ _ (j_know _ _ _ HJ _ _ Hi) _ He) as Hin. eexists _, _. done_op. split; [|done].
  apply (J_tables s); [done| |done]. destruct Ht. split; try done; cbn [conntrack].
  - by apply (apply_event_wf _ (Egress k fl now)).
  - intros k' Hk'. apply (flow_origin _ (Egress k fl now)) in Hk' as [[Hk' _]|(f & n & [= -> <- <-] & Ho)]; [auto| |done].
    by exists now', lan, m, scratch, fl.
Qed.
Lemma fine_ct_check e l k fl now (Q : Know → bool → Prop) :
  Q l false → Q (with_flow l k) true → fine e l (ct_check k fl now) Q.
Proof.
  intros HF HT. apply fine_locked. intros s h ls i HJ Hi. pose proof (j_tables _ _ _ HJ) as Ht.
  pose proof (j_know _ _ _ HJ _ _ Hi) as Hk. destruct (check_ingress (conntrack s) k fl now) as [ct ok] eqn:Ec.
  unfold bind, gets. rewrite Ec. exists ok. eexists. exists (if ok then with_flow l k else l). done_op.
  assert (∀ ls', J s h ls' → J {| fdb := fdb s; nat := nat s; conntrack := ct; wan_neighbors := wan_neighbors s;
    wan_client := wan_client s; wan_bound := wan_bound s; wan_gateway := wan_gateway s; lan_neighbors := lan_neighbors s;
    lan_pool := lan_pool s; lan_leases := lan_leases s; last_sweep_ms := last_sweep_ms s |} h ls') as Hnew.
  { intros ls' HJ'. apply (J_tables s); [done| |done]. destruct Ht.
    assert (ct = (Conntrack.apply_event (conntrack s) (Conntrack.Ingress k fl now)).1) as Ect by (cbn; by rewrite Ec).
    split; try done; cbn [conntrack]; rewrite Ect; [by apply apply_event_wf|].
    intros k' Hk'. by destruct (flow_origin (conntrack s) (Conntrack.Ingress k fl now) k') as [[? _]|(f & n & ? & _)]; auto. }
  split; [|by destruct ok]. apply Hnew. destruct ok; [|by rewrite list_insert_id].
  apply (J_know s h ls i l); [done|done| |done]. destruct Hk as [H1 H2 H3]. split; try done. intros k' [= <-].
  apply Ht. unfold check_ingress in Ec. destruct (flows (conntrack s) !! k); [eauto|done].
Qed.
Lemma fine_ct_sweep e l now (Q : Know → unit → Prop) : Q l () → fine e l (ct_sweep now) Q.
Proof.
  intros HQ. apply fine_op. intros s h ls i HJ Hi. eexists _, _. done_op. split; [|done].
  apply (J_tables s); [done| |done]. destruct (j_tables _ _ _ HJ). split; try done; cbn [conntrack].
  - by apply (apply_event_wf _ (Conntrack.Sweep now)).
  - intros k' Hk'. by destruct (flow_origin (conntrack s) (Conntrack.Sweep now) k') as [[? _]|(f & n & ? & _)]; auto.
Qed.

(** The neighbour tables. *)
Lemma resolve_result (nb nb' : NeighborTable bytes) target q now buf act :
  mac_ok (our_mac nb) → resolve nb target q arp_buf now = (nb', buf, act) →
  our_mac nb' = our_mac nb ∧ cache nb' = cache nb ∧ resolved nb' = resolved nb ∧
  (∀ x p r, pending nb' !! x = Some p → r ∈ packets p → r = q ∨ ∃ p', pending nb !! x = Some p' ∧ r ∈ packets p') ∧
  match act with
  | Forward m p => p = q ∧ ∃ c, cache nb !! target = Some c ∧ m = Neighbor.mac c
  | Queued (Some n) => ∃ f, get_range buf 0 n = Ret f ∧ is_arp_frame f
  | _ => True
  end.
Proof.
  intros [Hm _]. unfold resolve. destruct (cache nb !! target) as [c|] eqn:Ec.
  { intros [= <- <- <-]. do 3 (split; [done|]). split; [eauto|]. split; [done|]. by exists c. }
  set (e := default _ _). assert (∀ r, r ∈ packets e → ∃ p', pending nb !! target = Some p' ∧ r ∈ packets p') as He.
  { intros r. unfold e. destruct (pending nb !! target) as [p'|]; cbn; [eauto|]. by intros ?%elem_of_nil. }
  assert (∀ (nb1 : NeighborTable bytes) ps at_ n, pending nb1 = pending nb →
    (∀ r, r ∈ ps → r = q ∨ r ∈ packets e) →
    ∀ x p r, pending (set_pending nb1 target {| packets := ps; last_request_at := at_; attempts := n |}) !! x = Some p →
      r ∈ packets p → r = q ∨ ∃ p', pending nb !! x = Some p' ∧ r ∈ packets p') as Hset.
  { intros nb1 ps at_ n Epd Hps x p r. cbn [set_pending pending]. rewrite lookup_insert_Some, Epd.
    intros [[<- <-]|[_ Hx]] Hr; [|eauto]. cbn in Hr. destruct (Hps r Hr) as [->|Hr']; [by left|right; by apply He]. }
  case_bool_decide.
  { intros [= <- <- <-]. split_and!; try done. destruct e as [ps t0 n0] eqn:Ee. apply Hset; [done|]. cbn. auto. }
  case_bool_decide as Hz.
  - rewrite build_request_eq by done. intros [[<- <-]%pair_eq <-]%pair_eq. split_and!; try done.
    + cbn. rewrite insert_insert_eq. eapply (Hset nb); [done|]. cbn [packets]. set_solver.
    + eexists. rewrite get_range_Ret; [split; [reflexivity|]|lia|].
      * unfold slice. rewrite Nat.sub_0_r, drop_0. apply is_arp_prefix; [vm_compute; lia| |by apply arp_frame_is_arp].
        rewrite length_app, length_arp_frame by done. lia.
      * rewrite length_app, length_arp_frame by done. lia.
  - intros [= <- <- <-]. split_and!; try done. cbn. rewrite insert_insert_eq. eapply (Hset nb); [done|]. cbn [packets]. set_solver.
Qed.

Lemma fine_wan_resolve e l target m now (Q : Know → bytes * Action bytes → Prop) :
  (∀ buf act, (∀ n, act = Queued (Some n) → ∃ f, get_range buf 0 n = Ret f) → Q l (buf, act)) →
  fine e l (wan_resolve target m now) Q.
Proof.
  intros HQ. apply fine_op. intros s h ls i HJ Hi. pose proof (j_tables _ _ _ HJ) as Ht. unfold bind, gets.
  destruct (resolve (wan_neighbors s) target m arp_buf now) as [[nb buf] act] eqn:Er.
  eexists _, _. done_op. apply resolve_result in Er as (Em & _ & _ & _ & Ha); [|apply Ht]. split.
  - apply (J_ext s); [|done]. unfold visible. cbn [nat wan_client wan_neighbors conntrack lan_neighbors lan_pool lan_leases].
    by rewrite Em.
  - apply HQ. intros n ->. destruct Ha as (f & Hf & _). eauto.
Qed.
Lemma fine_wan_on_arp e l x m now (Q : Know → option (MacAddr * list bytes) → Prop) :
  (∀ r, Q l r) → fine e l (wan_on_arp x m now) Q.
Proof.
  intros HQ. apply fine_op. intros s h ls i HJ Hi. eexists _, _. done_op. split; [by apply (J_ext s)|apply HQ].
Qed.
Lemma fine_wan_set_our_ip e l x (Q : Know → unit → Prop) : Q l () → fine e l (wan_set_our_ip x) Q.
Proof. intros HQ. apply fine_op. intros s h ls i HJ Hi. eexists _, _. done_op. split; [by apply (J_ext s)|done]. Qed.

(** A change of the LAN's neighbour table. *)
Lemma J_neighbors s nb h ls :
  our_mac nb = our_mac (lan_neighbors s) →
  (∀ x c, cache nb !! x = Some c → length (Neighbor.mac c) = 6%nat) →
  (∀ x p q, pending nb !! x = Some p → q ∈ packets p → admitted h q) →
  (steady = true → ∀ m x, resolved nb !! m = Some x → home m = Some x ∨ home m = None) →
  J s h ls →
  J {| fdb := fdb s; nat := nat s; conntrack := conntrack s; wan_neighbors := wan_neighbors s;
    wan_client := wan_client s; wan_bound := wan_bound s; wan_gateway := wan_gateway s; lan_neighbors := nb;
    lan_pool := lan_pool s; lan_leases := lan_leases s; last_sweep_ms := last_sweep_ms s |} h ls.
Proof.
  intros Em Hc Hp Hr HJ. apply (J_tables s); [done| |done]. destruct (j_tables _ _ _ HJ). split; try done.
  cbn [lan_neighbors]. by rewrite Em.
Qed.

Lemma fine_lan_resolve e l target q now (Q : Know → bytes * Action bytes → Prop) :
  (∀ h, know_ok h l → admitted h q) →
  (∀ buf act,
     match act with
     | Forward m p => p = q ∧ length m = 6%nat
     | Queued (Some n) => ∃ f, get_range buf 0 n = Ret f ∧ is_arp_frame f
     | _ => True
     end → Q l (buf, act)) →
  fine e l (lan_resolve target q now) Q.
Proof.
  intros Hq HQ. apply fine_op. intros s h ls i HJ Hi. pose proof (j_tables _ _ _ HJ) as Ht.
  specialize (Hq h (j_know _ _ _ HJ _ _ Hi)). unfold bind, gets.
  destruct (resolve (lan_neighbors s) target q arp_buf now) as [[nb buf] act] eqn:Er.
  eexists _, _. done_op. apply resolve_result in Er as (Em & Ec & Ers & Hp & Ha); [|apply Ht]. split.
  - apply J_neighbors; [done|rewrite Ec; apply Ht| |rewrite Ers; apply Ht|done].
    intros x p r Hx Hr. destruct (Hp x p r Hx Hr) as [->|(p' & Hx' & Hr')]; [done|]. by eapply Ht.
  - apply HQ. destruct act as [m p|[n|]|p]; try done. destruct Ha as (-> & c & Hc & ->). split; [done|]. by eapply Ht.
Qed.
Lemma fine_lan_on_arp e l x m now (Q : Know → option (MacAddr * list bytes) → Prop) :
  length m = 6%nat → (steady = true → home m = Some x ∨ home m = None) →
  Q l None → (∀ qs, Q (with_cleared l qs) (Some (m, qs))) → fine e l (lan_on_arp x m now) Q.
Proof.
  intros Hm Hh HN HS. apply fine_locked. intros s h ls i HJ Hi. pose proof (j_tables _ _ _ HJ) as Ht.
  pose proof (j_know _ _ _ HJ _ _ Hi) as Hk. unfold bind, gets. destruct (on_arp (lan_neighbors s) x m now) as [nb r] eqn:Er.
  exists r. eexists. exists (match r with Some (_, qs) => with_cleared l qs | None => l end). done_op.
  unfold on_arp in Er. apply pair_eq in Er as [<- Er]. split; [|destruct r as [[m' qs]|]; [|done]].
  - apply J_neighbors; cbn [our_mac cache pending resolved Neighbor.insert_]; [done| | | |].
    + intros y c [[<- <-]|[_ Hy]]%lookup_insert_Some; [done|]. by eapply Ht.
    + intros y p q [_ Hy]%lookup_delete_Some Hq. by eapply Ht.
    + intros Hst m' y [[<- <-]|[_ Hy]]%lookup_insert_Some; [by apply Hh|]. by eapply Ht.
    + destruct r as [[m' qs]|]; [|by rewrite list_insert_id]. apply (J_know s h ls i l); [done|done| |done].
      destruct Hk as [H1 H2 _]. split; try done. cbn [with_cleared kn_cleared]. intros q Hq. cbn [Neighbor.insert_ pending] in Er.
      destruct (pending (lan_neighbors s) !! x) as [p|] eqn:Ep; [|done]. cbn in Er.
      eapply Ht; [exact Ep|]. destruct (packets p); [done|]. by injection Er as <- <-.
  - cbn [Neighbor.insert_ pending] in Er. destruct (pending (lan_neighbors s) !! x) as [p|]; [|done]. cbn in Er.
    destruct (packets p); [done|]. injection Er as <- <-. apply HS.
Qed.
Lemma fine_lan_reverse e l m (Q : Know → option Ipv4Addr → Prop) :
  (∀ r, (∀ x, r = Some x → steady = true → home m = Some x ∨ home m = None) → Q l r) → fine e l (lan_reverse_lookup m) Q.
Proof.
  intros HQ. apply fine_gets. intros s h ls i HJ Hi. apply HQ. intros x Hx Hst. by eapply (to_home _ _ (j_tables _ _ _ HJ)).
Qed.

(** The sweeps. *)
Context (Hiter : ∀ m, iter m ≡ₚ map_to_list m).
Lemma sweep_requests (nb : NeighborTable bytes) now f :
  mac_ok (our_mac nb) → f ∈ (Neighbor.sweep iter nb now).2 → is_arp_frame f.
Proof.
  intros [Hm _]. rewrite (sweep_emitted iter Hiter nb now Hm). intros (kv & -> & _)%list_elem_of_fmap.
  unfold request_for. rewrite <- (app_nil_r (arp_frame _ _ _ _ _ _ _)). by apply arp_frame_is_arp.
Qed.
Lemma fine_wan_sweep e l now (Q : Know → list bytes → Prop) :
  (∀ fs, (∀ f, f ∈ fs → is_arp_frame f) → Q l fs) → fine e l (wan_sweep iter now) Q.
Proof.
  intros HQ. apply fine_op. intros s h ls i HJ Hi. pose proof (j_tables _ _ _ HJ) as Ht. unfold bind, gets.
  pose proof (sweep_table iter Hiter (wan_neighbors s) now (proj1 (to_wan_mac _ _ Ht))) as Et.
  pose proof (sweep_requests (wan_neighbors s) now) as Hr. destruct (Neighbor.sweep iter (wan_neighbors s) now) as [[nb d] fs].
  eexists _, _. done_op. split; [|apply HQ; intros f; apply Hr, Ht]. apply (J_ext s); [|done].
  cbn [fst] in Et. by subst nb.
Qed.
Lemma fine_lan_sweep e l now (Q : Know → list bytes → Prop) :
  (∀ fs, (∀ f, f ∈ fs → is_arp_frame f) → Q l fs) → fine e l (lan_sweep iter now) Q.
Proof.
  intros HQ. apply fine_op. intros s h ls i HJ Hi. pose proof (j_tables _ _ _ HJ) as Ht. unfold bind, gets.
  pose proof (sweep_table iter Hiter (lan_neighbors s) now (proj1 (to_lan_mac _ _ Ht))) as Et.
  pose proof (sweep_requests (lan_neighbors s) now) as Hr. destruct (Neighbor.sweep iter (lan_neighbors s) now) as [[nb d] fs].
  eexists _, _. done_op. split; [|apply HQ; intros f; apply Hr, Ht].
  cbn [fst] in Et. subst nb. apply J_neighbors; cbn [our_mac cache pending resolved]; [done| | | |done].
  - intros x c [Hx _]%map_lookup_filter_Some. by eapply Ht.
  - intros x p q (p' & Es & Hx)%lookup_omap_Some Hq. eapply (to_pending _ _ Ht); [exact Hx|]. unfold sweep_entry in Es.
    destruct (due now p'); [|by injection Es as <-]. destruct (exhausted p'); [done|]. by injection Es as <-.
  - intros Hst m x [Hx _]%map_lookup_filter_Some. by eapply Ht.
Qed.

(** The DHCP client of the WAN port. *)
Lemma fine_client_bound e l (Q : Know → option Ipv4Addr → Prop) :
  (∀ r, (∀ x, r = Some x → u32 x) → Q l r) → fine e l client_bound_ip Q.
Proof.
  intros HQ. apply fine_gets. intros s h ls i HJ Hi. apply HQ. unfold bound_ip. intros x Hx.
  destruct (lease (wan_client s)) as [d|] eqn:El; [|done]. injection Hx as <-. by apply (to_lease _ _ (j_tables _ _ _ HJ)).
Qed.
Lemma fine_client_lease e l (Q : Know → option DhcpLease → Prop) : (∀ r, Q l r) → fine e l client_lease Q.
Proof. intros HQ. by apply fine_gets. Qed.
Lemma fine_client_receive e l v (Q : Know → unit → Prop) : msg_ok v → Q l () → fine e l (client_on_receive v) Q.
Proof.
  intros Hv HQ. apply fine_op. intros s h ls i HJ Hi. pose proof (j_tables _ _ _ HJ) as Ht.
  destruct (on_receive_safe (wan_client s) v Hv (to_lease _ _ Ht)) as (c' & E & Em & Hl). unfold bind, gets, lift. rewrite E.
  eexists _, _. done_op. split; [|done]. apply (J_tables s); [done| |done]. destruct Ht. split; try done. cbn. by rewrite Em.
Qed.
Lemma fine_client_poll e l out (Q : Know → bytes * option Datatypes.nat → Prop) :
  (∀ b r, fits out (b, r) → Q l (b, r)) → fine e l (client_poll out) Q.
Proof.
  intros HQ. apply fine_op. intros s h ls i HJ Hi. pose proof (j_tables _ _ _ HJ) as Ht.
  destruct (poll_safe (wan_client s) out (to_client _ _ Ht)) as (c' & b & r & E & Em & El & Hf).
  unfold bind, gets, lift. rewrite E. eexists _, _. done_op. split; [|by apply HQ]. apply (J_tables s); [done| |done].
  destruct Ht. split; try done; cbn; by rewrite ?Em, ?El.
Qed.

(** The pool and the leases, through the rules of [DhcpWorkers]. *)
Fixpoint silent {S O A} (p : prog S O A) : Prop :=
  match p with Done _ | Fault => True | Send _ _ => False | Op _ k => ∀ x, silent (k x) end.
Lemma silent_bind {S O A B} (p : prog S O A) (k : A → prog S O B) : silent p → (∀ x, silent (k x)) → silent (pbind p k).
Proof. induction p; cbn; naive_solver. Qed.
Lemma silent_local {S O A} (m : outcome A) : silent (S := S) (O := O) (local m).
Proof. by destruct m. Qed.
Lemma silent_handle c v out : silent (O := Tx) (handle_steps (T := AddressPool) c v out).
Proof.
  unfold handle_steps, assign_steps. repeat match goal with
    | |- silent (pbind _ _) => apply silent_bind; [|intros ?]
    | |- silent (local _) => apply silent_local
    | |- silent (match ?x with _ => _ end) => destruct x
    | _ => done
    end.
Qed.

Abbreviation dhcp_fine := (ok False (λ st (_ : list event) hands, shared_ok (T := AddressPool) bounds st hands) (λ _ _ (_ : Tx), False)).
Lemma with_hand_id l : with_hand l (kn_hand l) = l.
Proof. by destruct l. Qed.
Lemma fine_dhcp_steady {A} e l h (p : prog (AddressPool * LeaseTable) Tx A) (Q : option Ipv4Addr → A → Prop) :
  steady = true → dhcp_fine e h p Q → fine e (with_hand l h) (dhcp p) (λ l' x, ∃ h', l' = with_hand l h' ∧ Q h' x).
Proof.
  intros Hst. revert h. unfold dhcp. induction p as [x| |o p IH|X f p IH]; intros h; cbn [zoom ok].
  - intros HQ. by exists h.
  - done.
  - intros [HF Hp]. split; [|by apply IH]. intros s hist ls i HJ Hi. exfalso.
    apply (HF (dhcp_get s) hist (kn_hand <$> ls) i); [by apply HJ|]. by rewrite list_lookup_fmap, Hi.
  - intros Hp s hist ls i HJ Hi. specialize (Hp (dhcp_get s) hist (kn_hand <$> ls) i (j_pool _ _ _ HJ Hst)).
    rewrite list_lookup_fmap, Hi in Hp. specialize (Hp eq_refl). destruct (f (dhcp_get s)) as [[x [p' l']]|]; [|done].
    destruct Hp as (h' & Hok & Hk). exists (with_hand l h'). split; [|by apply IH].
    destruct HJ as [Ht Hkn _]. split.
    + destruct Ht. by split.
    + intros j y. rewrite list_lookup_insert_Some. intros [(<- & <- & _)|[_ Hy]]; [|by eapply Hkn].
      destruct (Hkn _ _ Hi). by split.
    + intros _. by rewrite list_fmap_insert.
Qed.
Lemma fine_dhcp_shaky {A} e l (p : prog (AddressPool * LeaseTable) Tx A) :
  steady = false → silent p → fine e l (dhcp p) (λ l' _, l' = l).
Proof.
  intros Hst. unfold dhcp. induction p as [x| |o p IH|X f p IH]; cbn [zoom ok silent]; [done|done|done|].
  intros Hs s hist ls i HJ Hi. destruct (f (dhcp_get s)) as [[x st]|]; [|done]. exists l. rewrite list_insert_id by done.
  split; [|by apply IH]. destruct HJ as [Ht Hkn _]. split; [destruct Ht; by split|done|congruence].
Qed.
Lemma fine_dhcp {A} e l (p : prog (AddressPool * LeaseTable) Tx A) (R : A → Prop) (Q : Know → A → Prop) :
  kn_hand l = None → silent p → (steady = true → dhcp_fine e None p (λ h x, h = None ∧ R x)) →
  (∀ x, (steady = true → R x) → Q l x) → fine e l (dhcp p) Q.
Proof.
  intros Hl Hs Hp HQ. assert (steady = true ∨ steady = false) as [Hst|Hst] by (destruct steady; auto).
  - rewrite <- (with_hand_id l), Hl. eapply ok_mono; [|by apply fine_dhcp_steady; [|apply Hp]].
    cbn beta. intros l' x (h' & -> & -> & HR). rewrite <- Hl, with_hand_id. auto.
  - eapply ok_mono; [|by apply fine_dhcp_shaky]. cbn beta. intros l' x ->. apply HQ. congruence.
Qed.

(** ** Handlers *)

(** The worker treats [e] and holds no address. *)
Definition busy (e : event) (l : Know) : Prop := kn_event l = Some e ∧ kn_hand l = None.
Abbreviation treats e l p := (fine (Some e) l p (λ l' _, busy e l')).

Lemma fine_tx_or_flood e l m packet except (Q : Know → unit → Prop) :
  (∀ h p, know_ok h l → may_send e h {| tx_port := port_id p; tx_frame := packet |}) → Q l () →
  fine e l (transmit_or_flood_steps a m packet except) Q.
Proof.
  intros Hs HQ. apply ok_bind, fine_fdb_lookup. intros [port|].
  - case_bool_decide; [done|]. destruct (lan_port_by_id a port); [|done]. apply fine_transmit; auto.
  - apply fine_each; [|done]. intros x _. case_bool_decide; [done|]. apply fine_transmit; auto.
Qed.
(** A frame sent on the WAN port. *)
Lemma fine_wan_tx e l f (Q : Know → unit → Prop) : Q l () → fine e l (transmit (wan_port_of wan) f) Q.
Proof. intros HQ. apply fine_transmit; [|done]. intros h _. by left. Qed.
Lemma fine_wan_drained e l r (Q : Know → unit → Prop) : Q l () → fine e l (send_drained_steps (wan_port_of wan) r) Q.
Proof. intros HQ. destruct r as [[m qs]|]; [|done]. apply fine_each; [|done]. intros q _. by apply fine_wan_tx. Qed.
(** Packets that were waiting for a LAN host. *)
Lemma fine_lan_drained e l p m (Q : Know → unit → Prop) :
  length (ether_addr p) = 6%nat → length m = 6%nat → Q l () →
  fine e l (send_drained_steps p (Some (m, kn_cleared l))) Q.
Proof.
  intros Hp Hm HQ. apply fine_each; [|done]. intros q Hq. apply fine_transmit; [|done]. intros h Hk.
  right. right. right. apply admitted_set_ethernet; [done|done|]. by apply (ko_cleared _ _ Hk).
Qed.

Context (Hwan : wan_port a = Some wan) (Ha : app_ok a).
Context (Hlan : ∀ lan, lan ∈ lan_ports a → length (ether_addr (lan_port_of lan)) = 6%nat).
Context (Hlow : 0 ≤ bounds.1) (Hhigh : bounds.2 < 2 ^ 32).

Lemma fine_lan_egress now lan m scratch l :
  let e := LanFrame now lan m scratch in
  busy e l → slice_ok m → Ethernet.dst (of_bytes (slice 0 14 m)) = app_server_mac a →
  fine (Some e) l (lan_egress_steps a now m) (λ l' _, l' = l).
Proof.
  intros e [He Hh] Hm Hdst. unfold lan_egress_steps. rewrite Hwan. apply ok_bind, fine_gateway_load. intros [gw|]; [|done].
  apply ok_bind, fine_nat_wan_ip. intros w. destruct (w =? 0); [done|]. apply ok_bind, ok_local.
  destruct (parse_tcp_tuple_total m) as [o Eo]. exists o. split; [done|].
  destruct o as [[[[[ip port] xip] xport] fl]|]; [|done].
  apply ok_bind. eapply fine_ct_observe; [exact He|by split|]. apply ok_bind, fine_nat_egress; [done|]. intros [m' [r|]]; [|done].
  apply ok_bind, fine_wan_resolve. intros buf act Hact. cbn [fst snd]. destruct act as [mac p|[n|]|p]; [|..|done|done].
  - by apply fine_wan_tx.
  - destruct (Hact n eq_refl) as [f Ef]. apply ok_bind, ok_local. exists f. split; [done|]. by apply fine_wan_tx.
Qed.

Lemma fine_lan_ipv4 now lan m scratch class l :
  let e := LanFrame now lan m scratch in
  busy e l → lan_ok lan → slice_ok m → l_dst_mac class = Ethernet.dst (of_bytes (slice 0 14 m)) →
  treats e l (lan_ipv4_steps a now lan m class scratch).
Proof.
  intros e Hl Hcfg Hm Hdst. pose proof Hl as [He Hh]. unfold lan_ipv4_steps. apply ok_bind, ok_local.
  destruct (with_dhcp_Ret m) as (d & Ed & Hd). exists d. split; [done|].
  assert (∀ h p, know_ok h l → may_send (Some e) h {| tx_port := port_id p; tx_frame := m |}) as Hsend.
  { intros h p _. right. right. left. exists now, lan, m, scratch. auto. }
  destruct d as [v|].
  - destruct (Hd v eq_refl) as [Hv Eb]. apply ok_bind.
    apply (fine_dhcp _ _ _ (fits scratch)); [done|apply silent_handle| |].
    + intros Hst. eapply ok_mono; [|apply fine_handle; [done|done|done|]].
      * intros h r (-> & Hf & _). done.
      * apply view_msg_ok; [done|rewrite Eb; apply Hm].
    + intros [b [n|]] Hf; [|done]. cbn [fst snd]. apply ok_bind.
      assert (∀ f, fine (Some e) l (_ <~ transmit (lan_port_of lan) f; Done b) (λ l' _, busy e l')) as Htx.
      { intros f. apply ok_bind, fine_transmit; [|done]. intros h _. right. right. left. exists now, lan, m, scratch.
        split; [done|]. right. eauto. }
      assert (steady = true ∨ steady = false) as [Hst|Hst] by (destruct steady; auto).
      * apply ok_local. eexists. split; [by apply (fits_range scratch), Hf|]. apply Htx.
      * apply ok_local_partial; [done|]. intros f _. apply Htx.
  - rewrite Hdst. case_bool_decide as Hb.
    { apply ok_bind. eapply ok_mono; [|by apply (fine_lan_egress now lan m scratch)]. by intros l' _ ->. }
    destruct (l_is_broadcast class); apply ok_bind.
    + apply fine_each; [|done]. intros x _. destruct (_ =? _); [done|]. apply fine_transmit; auto.
    + apply fine_tx_or_flood; auto.
Qed.

Lemma fine_lan_learn e l now p x m :
  busy e l → length (ether_addr p) = 6%nat → length m = 6%nat → (steady = true → home m = Some x ∨ home m = None) →
  treats e l (lan_arp_learn_steps now p x m).
Proof.
  intros Hl Hp Hm Hh. apply ok_bind, fine_lan_on_arp; [done|done|done|]. intros qs.
  by apply (fine_lan_drained (Some e) (with_cleared l qs)).
Qed.

Lemma fine_lan_arp_pool e l pkt :
  busy e l → (steady = true → home (sha pkt) = Some (sender_ip pkt)) → treats e l (lan_arp_pool_steps pkt).
Proof.
  intros Hl Hh. pose proof Hl as [_ Hn]. apply ok_bind. apply (fine_dhcp _ _ _ (λ _, True)); [done|done| |].
  { intros _. by apply fine_reserve. }
  intros [] _. apply ok_bind, fine_lan_reverse. intros [old|] Hold; [|done].
  destruct (negb (old =? sender_ip pkt)) eqn:Ene; [|done]. apply negb_true_iff, Z.eqb_neq in Ene.
  apply ok_bind, fine_gets. intros ? ? ? ? _ _. destruct (_ <=? old); [|done].
  apply ok_bind, fine_gets. intros ? ? ? ? _ _. destruct (old <=? _); [|done].
  apply (fine_dhcp _ _ _ (λ _, True)); [done|done| |done].
  intros Hst. exfalso. destruct (Hold old eq_refl Hst) as [E|E]; rewrite Hh in E by done; congruence.
Qed.

(** The ARP packet in a frame. *)
Definition arp_of (m : bytes) : option ArpPacket := (eth ← parse m; arp eth)%stdpp.
(** Hosts keep their addresses: a packet is sent from the address of its sender,
    and where it names the hardware address of its target, it names it rightly. *)
Definition truthful (pkt : ArpPacket) : Prop :=
  home (sha pkt) = Some (sender_ip pkt) ∧
  (target_ip pkt ≠ 0 → home (tha pkt) = Some (target_ip pkt) ∨ home (tha pkt) = None).

Lemma arp_length_tha e pkt : arp e = Some pkt → length (tha pkt) = 6%nat.
Proof.
  unfold arp. case_match; [|done]. intros [Hl ->]%header_at_inv.
  change (size_of ArpPacket) with 28%nat in *. cbn [of_bytes ArpPacket_Pod tha]. rewrite length_slice; [done|].
  rewrite length_slice; lia.
Qed.

Lemma fine_lan_arp now lan m scratch l :
  let e := LanFrame now lan m scratch in
  busy e l → length (ether_addr (lan_port_of lan)) = 6%nat → length scratch = FRAME_MAX →
  (steady = true → ∀ pkt, arp_of m = Some pkt → truthful pkt) →
  treats e l (lan_arp_steps a now lan m scratch).
Proof.
  intros e Hl Hp Hs Ht. unfold lan_arp_steps, arp_of in *. destruct (parse m) as [eth|] eqn:Ee; cbn [mbind option_bind] in *; [|done].
  destruct (arp eth) as [pkt|] eqn:Ep; cbn [mbind option_bind]; [|done]. cbn zeta.
  pose proof Ee as He. apply eth_parse_wf in He as [He _].
  assert (length (sha pkt) = 6%nat) as Lsha by (by eapply arp_lengths). pose proof (arp_length_tha _ _ Ep) as Ltha.
  assert (∀ l, busy e l → ∀ h p, know_ok h l → may_send (Some e) h {| tx_port := port_id p; tx_frame := m |}) as Hsend.
  { intros l0 _ h p _. right. right. left. exists now, lan, m, scratch. auto. }
  apply ok_bind. eapply ok_mono; [|apply fine_lan_arp_pool; [done|by intros Hst; apply Ht]].
  cbn beta. intros l1 _ H1. apply ok_bind.
  eapply ok_mono; [|apply fine_lan_learn; [done|done|done|intros Hst; left; by apply Ht]].
  cbn beta. intros l2 _ H2. apply ok_bind. apply (ok_mono _ _ _ _ _ _ (λ l' _, busy e l')).
  2:{ destruct (target_ip pkt =? 0) eqn:Et; [done|]. apply Z.eqb_neq in Et. cbn [negb].
      apply fine_lan_learn; [done|done|done|]. intros Hst. by apply Ht. }
  intros l3 _ H3. apply ok_bind, ok_local. eexists. split; [by apply eth_header_Ret|]. cbn beta.
  destruct (_ && _ && _).
  { apply ok_bind. apply fine_each; [|done]. intros x _. destruct (_ =? _); [done|]. apply fine_transmit; [|done].
    intros h. by apply Hsend. }
  destruct (_ && _); [|done]. rewrite build_reply_eq by (rewrite Hs; vm_compute; lia).
  apply ok_bind, ok_local. eexists. split; [apply get_range_Ret; [lia|]|].
  - rewrite length_app. unfold arp_frame. rewrite !length_app, Lsha, (proj1 Ha). vm_compute. lia.
  - apply ok_bind, fine_transmit; [|done]. intros h _. right. left. cbn [tx_frame]. unfold slice. rewrite Nat.sub_0_r, drop_0.
    apply is_arp_prefix; [vm_compute; lia| |by apply arp_frame_is_arp; [|apply Ha]].
    rewrite length_app. unfold arp_frame. rewrite !length_app, Lsha, (proj1 Ha). vm_compute. lia.
Qed.

Lemma fine_lan_frame now lan m scratch l :
  let e := LanFrame now lan m scratch in
  busy e l → lan_ok lan → length (ether_addr (lan_port_of lan)) = 6%nat → slice_ok m → length scratch = FRAME_MAX →
  (steady = true → ∀ pkt, arp_of m = Some pkt → truthful pkt) →
  treats e l (lan_frame_steps a now lan m scratch).
Proof.
  intros e Hl Hcfg Hp Hm Hs Ht. unfold lan_frame_steps. destruct (parse m) as [eth|] eqn:Ee; [|done].
  apply eth_parse_wf in Ee as (He & Eb & Es). apply ok_bind, ok_local. eexists. split; [by apply eth_header_Ret|]. cbn zeta.
  apply ok_bind, fine_fdb_insert. cbn [l_is_arp l_is_ipv4]. destruct (is_arp eth); [by apply fine_lan_arp|].
  destruct (is_ipv4 eth); [|done]. apply fine_lan_ipv4; [done|done|done|]. cbn [l_dst_mac]. by rewrite Eb, Es.
Qed.

Lemma fine_wan_ingress now m l :
  let e := WanFrame now wan m in busy e l → treats e l (wan_ingress_steps a now m).
Proof.
  intros e Hl. pose proof Hl as [He Hh]. unfold wan_ingress_steps. apply ok_bind, ok_local.
  destruct (parse_tcp_tuple_total m) as [o Eo]. exists o. split; [done|].
  destruct o as [[[[[xip xport] w] ext] fl]|]; [|done]. apply ok_bind, fine_nat_ingress. intros n m' [ing|] Hn Et; [|done].
  cbn [fst snd]. apply ok_bind, fine_ct_check; [done|]. cbn [negb].
  destruct (head (lan_ports a)) as [any|] eqn:Eh; [|done]. apply head_Some_elem_of, Hlan in Eh.
  pose proof (translate_inbound _ _ _ _ _ _ _ _ _ Hn Eo Et) as Hin.
  change (Build_FlowKey _ _ _ _) with (key_of (SourceNat.dst_ip ing) (SourceNat.dst_port ing) xip xport).
  set (k := key_of _ _ _ _) in *. set (l1 := with_flow l k).
  assert (∀ h, know_ok h l1 → admitted h m') as Hadm.
  { intros h Hk. exists k, now, m, w, ext, fl. split_and!; [by apply (ko_event _ _ Hk)|done|done|by apply (ko_flow _ _ Hk)]. }
  apply ok_bind, fine_lan_resolve; [done|]. intros buf act Hact. cbn [fst snd].
  destruct act as [mac p|[q|]|p]; [|..|done|done].
  - destruct Hact as [-> Hmac]. apply fine_tx_or_flood; [|done]. intros h p' Hk. right. right. right.
    apply admitted_set_ethernet; auto.
  - destruct Hact as (f & Ef & Hf). apply ok_bind, ok_local. exists f. split; [done|].
    apply fine_each; [|done]. intros x _. apply fine_transmit; [|done]. intros h _. by right; left.
Qed.

Lemma fine_wan_learn e l now x m : busy e l → treats e l (wan_arp_learn_steps now (wan_port_of wan) x m).
Proof. intros Hl. apply ok_bind, fine_wan_on_arp. intros r. by apply fine_wan_drained. Qed.
Lemma fine_wan_arp e l now m : busy e l → treats e l (wan_arp_steps now wan m).
Proof.
  intros Hl. unfold wan_arp_steps. destruct (_ ≫= _) as [pkt|]; [|done]. cbn zeta. apply ok_bind.
  apply (ok_mono _ _ _ _ _ _ (λ l' _, busy e l')).
  - intros l1 _ H1. destruct (negb _); [by apply fine_wan_learn|done].
  - destruct (negb _); [by apply fine_wan_learn|done].
Qed.

Lemma fine_wan_frame now m l :
  let e := WanFrame now wan m in busy e l → Forall u8 m → treats e l (wan_frame_steps a now wan m).
Proof.
  intros e Hl Hm. unfold wan_frame_steps. destruct (parse m) as [eth|] eqn:Ee; [|done].
  apply eth_parse_wf in Ee as (He & _). apply ok_bind, ok_local. eexists. split; [by apply eth_header_Ret|]. cbn zeta.
  apply ok_bind, fine_fdb_insert. cbn [w_is_arp w_is_ipv4]. destruct (is_arp eth); [by apply fine_wan_arp|].
  destruct (with_dhcp_Ret m) as (d & Ed & Hd). apply ok_bind, ok_local. exists d. split; [done|]. destruct d as [v|].
  - destruct (Hd v eq_refl) as [Hv Eb]. apply fine_client_receive; [|done]. apply view_msg_ok; [done|by rewrite Eb].
  - destruct (is_ipv4 eth); [by apply fine_wan_ingress|done].
Qed.

Lemma fine_wan_control e l scratch : busy e l → treats e l (wan_control_steps wan scratch).
Proof.
  intros Hl. unfold wan_control_steps. cbn zeta. apply ok_bind, fine_client_bound. intros [x|] Hx.
  - apply ok_bind, fine_bound_swap. intros old. destruct (negb _); [|done]. apply ok_bind, fine_wan_set_our_ip.
    apply ok_bind, fine_nat_set; [by apply Hx|]. apply ok_bind, fine_client_lease. intros r. destruct (_ ≫= _) as [gw|]; [|done].
    apply ok_bind, fine_gateway_store. destruct (build_request _ _ _ _) as [f [n|]]; [|done]. by apply fine_wan_tx.
  - apply ok_bind, fine_client_poll. intros b [n|] Hf; [|done]. apply ok_bind, ok_local. eexists.
    split; [by apply (fits_range scratch)|]. by apply fine_wan_tx.
Qed.

Lemma fine_sweep e l now : busy e l → treats e l (maybe_sweep_steps iter a now).
Proof.
  intros Hl. assert (∀ p fs, (∀ f, f ∈ fs → is_arp_frame f) → fine (Some e) l (each fs (transmit p)) (λ l' _, l' = l)) as Htx.
  { intros p fs Hfs. apply fine_each; [|done]. intros f Hf. apply fine_transmit; [|done]. intros h _. right. left. by apply Hfs. }
  unfold maybe_sweep_steps. apply ok_bind, fine_gets. intros ? ? ? ? _ _. destruct (_ && _); [done|].
  apply ok_bind, fine_set_last. apply ok_bind, fine_each; [|by apply fine_ct_sweep]. intros [w|lan] _; apply ok_bind.
  - apply fine_wan_sweep. auto.
  - apply fine_lan_sweep. auto.
Qed.

(** The inputs the results are about. *)
Definition allowed (e : event) : Prop :=
  match e with
  | LanFrame _ lan m scratch =>
    lan_ok lan ∧ length (ether_addr (lan_port_of lan)) = 6%nat ∧ slice_ok m ∧ length scratch = FRAME_MAX ∧
    (steady = true → ∀ pkt, arp_of m = Some pkt → truthful pkt)
  | WanFrame _ w m => w = wan ∧ Forall u8 m
  | WanControl w _ => w = wan
  | Sweeping _ => True
  end.

Lemma event_fine e l : allowed e → busy e l → fine (Some e) l (event_steps iter a e) (λ l' _, empty_handed l').
Proof.
  intros He Hl. apply (ok_mono _ _ _ _ _ _ (λ l' _, busy e l')); [by intros l' _ [_ ?]|].
  destruct e as [now lan m scratch|now w m|w scratch|now]; cbn [event_steps].
  - destruct He as (H1 & H2 & H3 & H4 & H5). apply ok_bind. eapply ok_mono; [|by apply fine_lan_frame]. done.
  - destruct He as [-> Hm]. by apply fine_wan_frame.
  - cbn in He. subst w. by apply fine_wan_control.
  - by apply fine_sweep.
Qed.

Lemma start_event e s h ls i l0 : allowed e → J s h ls → ls !! i = Some l0 → empty_handed l0 →
  ∃ l, J s (h ++ [e]) (<[i := l]> ls) ∧ fine (Some e) l (event_steps iter a e) (λ l' _, empty_handed l').
Proof.
  intros He [Ht Hk Hp] Hi Hl0. set (l := {| kn_event := Some e; kn_flow := None; kn_cleared := []; kn_hand := None |}).
  exists l. split; [|by apply event_fine]. split.
  - destruct Ht. split; try done; [by intros; apply opened_by_mono; auto|by intros; apply admitted_mono; eauto].
  - intros j x. rewrite list_lookup_insert_Some. intros [(<- & <- & _)|[_ Hx]].
    + split; cbn; [intros ? [= <-]; set_solver|done|by intros ? ?%elem_of_nil].
    + destruct (Hk _ _ Hx) as [K1 K2 K3]. split; [by intros; apply elem_of_app; left; auto| |];
        auto using opened_by_mono, admitted_mono.
  - intros Hst. rewrite list_fmap_insert, list_insert_id; [auto|]. rewrite list_lookup_fmap, Hi. cbn. by rewrite Hl0.
Qed.

(** Tables as they are at start-up. *)
Record fresh (t : Tables) : Prop := {
  fr_wf : tables_wf t;
  fr_flows : conntrack t = Conntrack.new;
  fr_neighbors : cache (lan_neighbors t) = ∅ ∧ resolved (lan_neighbors t) = ∅ ∧ pending (lan_neighbors t) = ∅;
}.

Lemma start_J t n : fresh t → bounds = (start (lan_pool t), end_ (lan_pool t)) → J t [] (replicate n idle_know).
Proof.
  intros [Hwf Hf (Hc & Hr & Hp)] Hb. destruct Hwf. split.
  - split; try done; rewrite ?Hf, ?Hc, ?Hr, ?Hp.
    + apply new_table_wf.
    + intros k [x Hx]. done.
    + done.
    + done.
    + done.
  - intros i l [-> _]%lookup_replicate. split; [done|done|]. by intros ? ?%elem_of_nil.
  - intros _. rewrite fmap_replicate. split; [done|done| |].
    + intros i x Hi. by apply lookup_replicate in Hi as [? _].
    + intros i j x Hi. by apply lookup_replicate in Hi as [? _].
Qed.

Lemma concurrent_run t n acts :
  fresh t → bounds = (start (lan_pool t), end_ (lan_pool t)) → Forall allowed (starts acts) →
  match Workers.run (event_steps iter a) (start_config t n) acts with
  | Ret c => config_ok (steady = false) J may_send empty_handed c
  | Panic => steady = false
  end.
Proof.
  intros Ht Hb Hacts. apply (run_ok (event_steps iter a) _ _ _ _ allowed); [apply start_event|apply may_send_mono| |done].
  apply (start_ok _ _ _ _ t n idle_know); [done|by apply start_J].
Qed.
End router.

(** ** Properties *)

(** C2: the firewall under concurrency: any number of workers treat LAN frames,
    WAN frames, the lease of the WAN port and sweeps, in any interleaving of
    their operations on the shared tables.  Whatever they have sent so far is a
    frame for the WAN port, an ARP frame, a LAN host's own frame (or the DHCP
    server's reply to it, on the port it came from), or a TCP segment that the
    WAN sent from an address and port with which the very LAN endpoint it is now
    addressed to had opened a connection, by a bare SYN to the router. *)
Theorem firewall_holds_concurrently (iter : gmap Ipv4Addr (Pending bytes) → list (Ipv4Addr * Pending bytes))
    (Hiter : ∀ m, iter m ≡ₚ map_to_list m) (a : AppCtx) (wan : WanPortCtx) (t : Tables) (workers : Datatypes.nat)
    (acts : list (Workers.action (E := event))) (c : config)
    (Hwan : wan_port a = Some wan) (Ha : app_ok a)
    (Hlan : ∀ lan, lan ∈ lan_ports a → length (ether_addr (lan_port_of lan)) = 6%nat) (Ht : fresh t)
    (Hacts : Forall (allowed wan false (λ _, None)) (starts acts))
    (Hrun : Workers.run (event_steps iter a) (start_config t workers) acts = Ret c) :
  Forall (λ x, may_send a wan x.1 (Workers.history c) x.2) (outputs c).
Proof.
  pose proof (concurrent_run iter a wan false (λ _, None) (start (lan_pool t), end_ (lan_pool t)) Hiter Hwan Ha Hlan
    (sw_low _ _ (tw_dhcp _ (fr_wf _ Ht))) (sw_high _ _ (tw_dhcp _ (fr_wf _ Ht))) t workers acts Ht eq_refl Hacts) as H.
  rewrite Hrun in H. apply H.
Qed.

(** C4: robustness under concurrency: on a LAN whose hosts keep their addresses
    ([home] says which), no worker panics, in any interleaving of any number of
    workers treating any frames, and at every moment no address is leased to two
    clients, no leased address is free, every leased address is of the pool's
    range, and the translations are inverse to each other. *)
Theorem workers_never_panic (iter : gmap Ipv4Addr (Pending bytes) → list (Ipv4Addr * Pending bytes))
    (Hiter : ∀ m, iter m ≡ₚ map_to_list m) (a : AppCtx) (wan : WanPortCtx) (home : MacAddr → option Ipv4Addr)
    (t : Tables) (workers : Datatypes.nat) (acts : list (Workers.action (E := event)))
    (Hwan : wan_port a = Some wan) (Ha : app_ok a)
    (Hlan : ∀ lan, lan ∈ lan_ports a → length (ether_addr (lan_port_of lan)) = 6%nat) (Ht : fresh t)
    (Hacts : Forall (allowed wan true home) (starts acts)) :
  ∃ c, Workers.run (event_steps iter a) (start_config t workers) acts = Ret c ∧
    let s := shared c in
    (∀ m m' x, Leases.lookup_ (lan_leases s) m = Some x → Leases.lookup_ (lan_leases s) m' = Some x → m = m') ∧
    (∀ m x, Leases.lookup_ (lan_leases s) m = Some x → x ∉ free (lan_pool s) ∧ start (lan_pool t) ≤ x ≤ end_ (lan_pool t)) ∧
    nat_wf (nat s).
Proof.
  pose proof (concurrent_run iter a wan true home (start (lan_pool t), end_ (lan_pool t)) Hiter Hwan Ha Hlan
    (sw_low _ _ (tw_dhcp _ (fr_wf _ Ht))) (sw_high _ _ (tw_dhcp _ (fr_wf _ Ht))) t workers acts Ht eq_refl Hacts) as H.
  destruct (Workers.run _ _ acts) as [c|]; [|done]. exists c. split; [done|]. destruct H as [(ls & [Htab _ Hp] & _) _].
  destruct (Hp eq_refl) as [[_ _ _ He Hd Hr] Hb _ _]. cbn [dhcp_get fst snd] in *. split_and!; [exact He| |apply Htab].
  intros m x Hx. assert (x ∈ leased (lan_leases (shared c))) as Hin by (apply elem_of_leased; eauto). split; [intros Hf; exact (Hd x Hin Hf)|].
  apply Hr in Hin. by rewrite Hb in Hin.
Qed.

(** ** Two workers on the sample router *)

Module Crossing.
(** The sample router before it knows any LAN host. *)
Definition tables : Tables := {|
  fdb := Fdb.new; nat := nat Sample.tables; conntrack := Conntrack.new; wan_neighbors := wan_neighbors Sample.tables;
  wan_client := wan_client Sample.tables; wan_bound := wan_bound Sample.tables; wan_gateway := wan_gateway Sample.tables;
  lan_neighbors := Neighbor.new (P := bytes) [2; 0; 0; 0; 0; 1] (ip4 192 168 0 1);
  lan_pool := lan_pool Sample.tables; lan_leases := Leases.default_; last_sweep_ms := 0 |}.
Definition opening_syn : event := LanFrame 1 (Sample.lan_port 1) Sample.syn Sample.scratch.
Definition answer : event := WanFrame 2 Sample.wan Sample.syn_ack.
Definition who_has : event :=
  LanFrame 3 (Sample.lan_port 1) (Sample.arp_request Sample.host_mac Sample.host (ip4 192 168 0 1)) Sample.scratch.
(** A host opens a connection; while its frame is still being treated the other
    worker takes the answer, which waits for the host's address; the host then
    makes itself known. *)
Definition acts : list (Workers.action (E := event)) :=
  [Start 0 opening_syn] ++ replicate 6 (Advance 0) ++ [Start 1 answer] ++ concat (replicate 6 [Advance 1; Advance 0]) ++
  [Start 0 who_has; Start 1 (Sweeping 4)] ++ concat (replicate 12 [Advance 0; Advance 1]).
Definition sent : option (list (Z * Z)) :=
  match Workers.run (event_steps map_to_list Sample.app) (start_config tables 2) acts with
  | Ret c => Some ((λ x, (tx_port x.2, Z.of_nat (length (tx_frame x.2)))) <$> outputs c)
  | Panic => None
  end.
Lemma sent_frames : sent = Some [(0, 54); (1, 42); (2, 42); (1, 54); (1, 42)].
Proof. vm_compute. reflexivity. Qed.

Lemma tables_fresh : fresh tables.
Proof. split; [|done|done]. destruct Sample.tables_ok. by split. Qed.
Lemma app_fine : app_ok Sample.app.
Proof. split; [reflexivity|decide_now]. Qed.
Lemma lan_macs lan : lan ∈ lan_ports Sample.app → length (ether_addr (lan_port_of lan)) = 6%nat.
Proof. cbn. intros [->|[->|[]%elem_of_nil]%elem_of_cons]%elem_of_cons; done. Qed.
(** The host of the sample keeps its address. *)
Definition home (m : MacAddr) : option Ipv4Addr := if decide (m = Sample.host_mac) then Some Sample.host else None.
Lemma syn_no_arp : arp_of Sample.syn = None.
Proof. vm_compute. reflexivity. Qed.
Lemma who_has_arp : ∃ pkt, arp_of (Sample.arp_request Sample.host_mac Sample.host (ip4 192 168 0 1)) = Some pkt ∧
  home (sha pkt) = Some (sender_ip pkt) ∧ home (tha pkt) = None.
Proof. eexists. split; [vm_compute; reflexivity|]. split; vm_compute; reflexivity. Qed.
Lemma acts_allowed steady hm : (steady = true → hm = home) → Forall (allowed Sample.wan steady hm) (starts acts).
Proof.
  intros Hhm. change (starts acts) with [opening_syn; answer; who_has; Sweeping 4].
  assert (lan_ok (Sample.lan_port 1)) as Hlan by apply DhcpServer.Sample.config_ok.
  apply Forall_cons_2; [|apply Forall_cons_2; [|apply Forall_cons_2; [|by apply Forall_cons_2]]].
  - split_and!; [done|done|split; decide_now|done|]. intros _ pkt H. by rewrite syn_no_arp in H.
  - split; [done|decide_now].
  - split_and!; [done|done|split; decide_now|done|]. intros Hst pkt H. rewrite Hhm by done.
    destruct who_has_arp as (pkt' & E & H1 & H2). rewrite E in H. injection H as <-. split; [done|]. by right.
Qed.
End Crossing.

Lemma firewall_holds_concurrently_witness :
  ∃ c, Workers.run (event_steps map_to_list Sample.app) (start_config Crossing.tables 2) Crossing.acts = Ret c ∧
    length (outputs c) = 5%nat ∧ Forall (λ x, may_send Sample.app Sample.wan x.1 (Workers.history c) x.2) (outputs c).
Proof.
  pose proof Crossing.sent_frames as H. unfold Crossing.sent in H.
  destruct (Workers.run _ _ _) as [c|] eqn:E; [|discriminate H]. exists c. split; [reflexivity|]. split.
  - injection H as H. apply (f_equal length) in H. rewrite length_fmap in H. exact H.
  - apply (firewall_holds_concurrently map_to_list (λ _, Permutation_refl _) Sample.app Sample.wan Crossing.tables 2
      Crossing.acts c eq_refl Crossing.app_fine Crossing.lan_macs Crossing.tables_fresh); [|exact E].
    by apply Crossing.acts_allowed.
Defined.

Lemma workers_never_panic_witness :
  ∃ c, Workers.run (event_steps map_to_list Sample.app) (start_config Crossing.tables 2) Crossing.acts = Ret c ∧
    nat_wf (nat (shared c)).
Proof.
  destruct (workers_never_panic map_to_list (λ _, Permutation_refl _) Sample.app Sample.wan Crossing.home Crossing.tables 2
    Crossing.acts eq_refl Crossing.app_fine Crossing.lan_macs Crossing.tables_fresh (Crossing.acts_allowed true _ (λ _, eq_refl))) as (c & H & _ & _ & Hn).
  exists c. split; [exact H|exact Hn].
Defined.
