(* ===== verification/Bridge.v ===== *)
(** * The LAN as one broadcast domain

    Frames between LAN hosts: what the router forwards between its LAN ports,
    against a declarative account of a learning bridge. *)

From S2P Require Import Prelude Wire Ethernet Arp View Fdb Neighbor DhcpFrame Worker App Datapath Exchange.
#[local] Open Scope app_scope.

(** ** Specification *)



(** ** Lemmas *)





Section bridge.
Context (a : AppCtx).
Hypothesis Hdistinct : NoDup ((λ c, port_id (lan_port_of c)) <$> lan_ports a).



(** ** Properties *)

End bridge.

