(* ===== verification/Lifecycle.v ===== *)
(** * Workers from launch to teardown ([src/router/app.rs], [src/main.rs])

    What [runtime::run] does once the ports are up: it installs the signal
    handlers, launches a worker on every other core, polls as a worker itself,
    and after the shutdown request waits for the workers, stops and closes the
    ports, and releases the shared context, the buffer pools and the driver
    library.  Each worker owns a boxed reference ([Arc]) to the context.  A
    panic of the main thread's own loop skips all of that: it unwinds, and only
    the locals of [run] are dropped.

    A schedule is a list of actions of the threads and of signals, with the
    answers of the library and the panics of the poll loop's body as their
    arguments; the body itself is the subject of the other files. *)

From S2P Require Import Prelude.

(** ** State *)

(** A worker: not running, about to read the shutdown flag, in the body of its
    loop, or returned. *)
Inductive WorkerState := Idle | Top | Body | Exited (rc : Z).

Inductive MainPc :=
| Launching (rest : list Z)
| MainTop
| MainBody
| Waiting (rest : list Z)
| Stopping (rest : list Z)
| Closing (p : Z) (rest : list Z)
| DropCtx
| DropPools
| Cleanup
| Returning
| Finished
| UnwindCtx
| UnwindNeighbor
| UnwindPools
| Unwinding
| Unwound
| Killed.

#[global] Instance MainPc_eq_dec : EqDecision MainPc.
Proof. solve_decision. Defined.

(** The calls and releases of the teardown. *)
Inductive Release := DevStop (p : Z) | DevClose (p : Z) | FreeApp | FreePools | EalCleanup.

(** [arcs] counts the references to the context; [socket_pools] and
    [lan_neighbor] tell whether the main thread still has its map of the buffer
    pools, to which the ports inside the context refer as well, and its handle
    of the LAN's neighbour table, which the context shares. *)
Record Sys := {
  installed : list Z;
  SHUTDOWN : bool;
  arcs : nat;
  socket_pools : bool;
  lan_neighbor : bool;
  workers : gmap Z WorkerState;
  main : MainPc;
  released : list Release;
}.

Definition set_shutdown (s : Sys) : Sys :=
  {| installed := installed s; SHUTDOWN := true; arcs := arcs s; socket_pools := socket_pools s; lan_neighbor := lan_neighbor s; workers := workers s;
     main := main s; released := released s |}.
Definition set_main (s : Sys) (pc : MainPc) : Sys :=
  {| installed := installed s; SHUTDOWN := SHUTDOWN s; arcs := arcs s; socket_pools := socket_pools s; lan_neighbor := lan_neighbor s; workers := workers s;
     main := pc; released := released s |}.
Definition set_worker (s : Sys) (l : Z) (x : WorkerState) : Sys :=
  {| installed := installed s; SHUTDOWN := SHUTDOWN s; arcs := arcs s; socket_pools := socket_pools s; lan_neighbor := lan_neighbor s;
     workers := <[l := x]> (workers s); main := main s; released := released s |}.
Definition release (s : Sys) (rs : list Release) : Sys :=
  {| installed := installed s; SHUTDOWN := SHUTDOWN s; arcs := arcs s; socket_pools := socket_pools s; lan_neighbor := lan_neighbor s; workers := workers s;
     main := main s; released := released s ++ rs |}.

(** [Arc::clone], and the drop of a reference: the last one frees the context,
    and the pools too when only the context was holding them. *)
Definition set_arcs (s : Sys) (n : nat) : Sys :=
  {| installed := installed s; SHUTDOWN := SHUTDOWN s; arcs := n; socket_pools := socket_pools s; lan_neighbor := lan_neighbor s; workers := workers s;
     main := main s; released := released s |}.
Definition arc_clone (s : Sys) : Sys := set_arcs s (S (arcs s)).
Definition arc_drop (s : Sys) : Sys :=
  let s' := set_arcs s (pred (arcs s)) in
  if bool_decide (pred (arcs s) = 0)%nat then release s' (if socket_pools s then [FreeApp] else [FreeApp; FreePools]) else s'.

(** The drop of the map: the pools are freed unless the context holds them. *)
Definition drop_pools (s : Sys) : Sys :=
  let s' := {| installed := installed s; SHUTDOWN := SHUTDOWN s; arcs := arcs s; socket_pools := false; lan_neighbor := lan_neighbor s; workers := workers s;
               main := main s; released := released s |} in
  if bool_decide (arcs s = 0)%nat then release s' [FreePools] else s'.

(** The drop of the main thread's handle of the neighbour table. *)
Definition drop_neighbor (s : Sys) : Sys :=
  {| installed := installed s; SHUTDOWN := SHUTDOWN s; arcs := arcs s; socket_pools := socket_pools s; lan_neighbor := false;
     workers := workers s; main := main s; released := released s |}.

(** ** Signals *)

Definition SIG_ERR : Z := 2 ^ 64 - 1.
Definition SIGINT : Z := 2.
Definition SIGTERM : Z := 15.

Definition handle_sigint (s : Sys) : Sys := set_shutdown s.
(** [signal] is what the system call answers; the handlers installed and the
    number of failures. *)
Definition setup_sigint_handler (signal : Z → Z) : list Z * nat :=
  (filter (λ sig, signal sig ≠ SIG_ERR) [SIGINT; SIGTERM], length (filter (λ sig, signal sig = SIG_ERR) [SIGINT; SIGTERM])).

(** ** Workers *)

Section threads.
(** Whether a panic unwinds ([panic = "unwind"]) or aborts the process, as the
    build profile says. *)
Context (unwinds : bool) (main_lcore : Z) (lcores port_ids : list Z).

(** [launch_worker], with the clone of its caller; [rc] is the answer of
    [rte_eal_remote_launch]. *)
Definition launch_worker (s : Sys) (lcore rc : Z) : Sys * (Z + unit) :=
  let s := arc_clone s in
  if negb (rc =? 0) then (arc_drop s, inl rc) else (set_worker s lcore Top, inr ()).

(** The end of [run]: the box and its reference are dropped. *)
Definition run_exit (s : Sys) (lcore : Z) (panicked : bool) : Sys :=
  let s := if panicked then set_shutdown s else s in
  arc_drop (set_worker s lcore (Exited (if panicked then 1 else 0))).

(** One step of a worker; [panics] is whether the body panics. *)
Definition worker_step (s : Sys) (lcore : Z) (panics : bool) : option Sys :=
  match workers s !! lcore with
  | Some Top => Some (if SHUTDOWN s then run_exit s lcore false else set_worker s lcore Body)
  | Some Body =>
    Some (if panics then if unwinds then run_exit s lcore true else set_main s Killed
          else set_worker s lcore Top)
  | _ => None
  end.

(** ** The main thread, from the launch of the workers on *)

(** A panic of its poll loop is not caught: it unwinds out of [runtime::run],
    which drops the locals in the reverse order of their declaration, [ctx],
    [lan_neighbor] and [socket_pools] among them, and then the process exits
    while other workers may be running.  [lan_neighbor] is a local that is
    dropped when [run] returns in the other case, too. *)

Definition main_step (s : Sys) (rc : Z) (panics : bool) : option Sys :=
  match main s with
  | Launching [] => Some (set_main s MainTop)
  | Launching (l :: rest) =>
    let s := if negb (l =? main_lcore) then (launch_worker s l rc).1 else s in
    Some (set_main s (Launching rest))
  | MainTop => Some (set_main s (if SHUTDOWN s then Waiting lcores else MainBody))
  | MainBody => Some (set_main s (if panics then if unwinds then UnwindCtx else Killed else MainTop))
  | Waiting [] => Some (set_main s (Stopping port_ids))
  | Waiting (l :: rest) =>
    if l =? main_lcore then Some (set_main s (Waiting rest))
    else match workers s !! l with
         | Some Top | Some Body => None
         | _ => Some (set_main s (Waiting rest))
         end
  | Stopping [] => Some (set_main s DropCtx)
  | Stopping (p :: rest) => Some (set_main (release s [DevStop p]) (Closing p rest))
  | Closing p rest => Some (set_main (release s [DevClose p]) (Stopping rest))
  | DropCtx => Some (set_main (arc_drop s) DropPools)
  | DropPools => Some (set_main (drop_pools s) Cleanup)
  | Cleanup => Some (set_main (release s [EalCleanup]) Returning)
  | Returning => Some (set_main (drop_neighbor s) Finished)
  | UnwindCtx => Some (set_main (arc_drop s) UnwindNeighbor)
  | UnwindNeighbor => Some (set_main (drop_neighbor s) UnwindPools)
  | UnwindPools => Some (set_main (drop_pools s) Unwinding)
  | Unwinding => Some (set_main s Unwound)
  | Finished | Unwound | Killed => None
  end.

(** The process is gone once the main thread has returned or was killed. *)
Definition gone (s : Sys) : bool := match main s with Finished | Unwound | Killed => true | _ => false end.

Inductive action := Signal (sig : Z) | MainStep (rc : Z) (panics : bool) | WorkerStep (lcore : Z) (panics : bool).

(** A signal without our handler has its default action. *)
Definition step (s : Sys) (a : action) : option Sys :=
  if gone s then None
  else match a with
  | Signal sig => Some (if bool_decide (sig ∈ installed s) then handle_sigint s else set_main s Killed)
  | MainStep rc panics => main_step s rc panics
  | WorkerStep lcore panics => worker_step s lcore panics
  end.

(** A schedule; an action that is not possible is skipped. *)
Definition act (s : Sys) (a : action) : Sys := default s (step s a).
Definition run (s : Sys) (acts : list action) : Sys := foldl act s acts.

Definition start_up (signal : Z → Z) : Sys :=
  {| installed := (setup_sigint_handler signal).1; SHUTDOWN := false; arcs := 1; socket_pools := true; lan_neighbor := true; workers := ∅; main := Launching lcores;
     released := [] |}.

(** ** Counting workers *)

Context (Hcores : NoDup lcores).

Definition weight (f : WorkerState → nat) (s : Sys) (l : Z) : nat := f (default Idle (workers s !! l)).
Definition total (f : WorkerState → nat) (s : Sys) : nat := sum_list_with (weight f s) lcores.

Lemma sum_update (g h : Z → nat) (ls : list Z) l :
  NoDup ls → l ∈ ls → (∀ k, k ≠ l → g k = h k) → (sum_list_with g ls + h l = sum_list_with h ls + g l)%nat.
Proof.
  intros Hnd Hin Heq. induction ls as [|k ls IH]; [by apply elem_of_nil in Hin|]. cbn [sum_list_with].
  pose proof (NoDup_cons_1_1 _ _ Hnd) as Hk. apply NoDup_cons_1_2 in Hnd. apply elem_of_cons in Hin as [<-|Hin].
  - assert (sum_list_with g ls = sum_list_with h ls) as ->; [|lia].
    clear -Hk Heq. induction ls as [|k ls IH]; [done|]. cbn [sum_list_with]. rewrite IH by set_solver.
    rewrite Heq; [done|]. set_solver.
  - rewrite (Heq k) by (intros ->; done). specialize (IH Hnd Hin). lia.
Qed.
Lemma total_set_worker f s l x :
  l ∈ lcores → (total f (set_worker s l x) + weight f s l = total f s + f x)%nat.
Proof.
  intros Hl. unfold total. rewrite (sum_update (weight f (set_worker s l x)) (weight f s) lcores l Hcores Hl).
  - unfold weight at 2. cbn [set_worker workers]. by rewrite lookup_insert_eq.
  - intros k Hk. unfold weight. cbn [set_worker workers]. by rewrite lookup_insert_ne by congruence.
Qed.
Lemma total_ext f s s' : workers s' = workers s → total f s' = total f s.
Proof. intros E. unfold total, weight. by rewrite E. Qed.

Definition is_live (x : WorkerState) : nat := match x with Top | Body => 1 | _ => 0 end.
Definition live (s : Sys) (l : Z) : Prop := weight is_live s l = 1%nat.

Lemma live_total s l : l ∈ lcores → live s l → (1 ≤ total is_live s)%nat.
Proof.
  unfold live, total. intros Hl Hw. clear Hcores. induction lcores as [|k ls IH]; [by apply elem_of_nil in Hl|]. cbn [sum_list_with].
  apply elem_of_cons in Hl as [<-|Hl]; [lia|]. specialize (IH Hl). lia.
Qed.
Lemma live_alt s l : live s l ↔ workers s !! l = Some Top ∨ workers s !! l = Some Body.
Proof. unfold live, weight. destruct (workers s !! l) as [[]|]; cbn; naive_solver. Qed.
Lemma arc_drop_workers s : workers (arc_drop s) = workers s.
Proof. unfold arc_drop. by case_bool_decide. Qed.

(** ** Invariant *)

Definition downs (ps : list Z) : list Release := ps ≫= λ p, [DevStop p; DevClose p].
Definition teardown : list Release := downs port_ids ++ [FreeApp; FreePools; EalCleanup].

(** How many references the main thread holds, and which workers may be running. *)
Definition holds (pc : MainPc) : nat :=
  match pc with
  | DropPools | Cleanup | Returning | Finished | UnwindNeighbor | UnwindPools | Unwinding | Unwound => 0
  | _ => 1
  end.
Definition has_map (pc : MainPc) : bool :=
  match pc with Cleanup | Returning | Finished | Unwinding | Unwound => false | _ => true end.
Definition has_neighbor (pc : MainPc) : bool := match pc with Finished | UnwindPools | Unwinding | Unwound => false | _ => true end.
Definition unwinding (pc : MainPc) : bool :=
  match pc with UnwindCtx | UnwindNeighbor | UnwindPools | Unwinding | Unwound => true | _ => false end.
Definition may_run (pc : MainPc) (l : Z) : Prop :=
  l ∈ lcores ∧ l ≠ main_lcore ∧
  match pc with
  | Launching rest => l ∉ rest
  | MainTop | MainBody => True
  | Waiting rest => l ∈ rest
  | _ => unwinding pc = true
  end.
Definition released_at (pc : MainPc) (n : nat) (rs : list Release) : Prop :=
  match pc with
  | UnwindNeighbor | UnwindPools => rs = if bool_decide (n = 0)%nat then [FreeApp] else []
  | Unwinding | Unwound => rs = if bool_decide (n = 0)%nat then [FreeApp; FreePools] else []
  | Stopping rest => ∃ done, port_ids = done ++ rest ∧ rs = downs done
  | Closing p rest => ∃ done, port_ids = done ++ p :: rest ∧ rs = downs done ++ [DevStop p]
  | DropCtx => rs = downs port_ids
  | DropPools => rs = downs port_ids ++ [FreeApp]
  | Cleanup => rs = downs port_ids ++ [FreeApp; FreePools]
  | Returning | Finished => rs = teardown
  | _ => rs = []
  end.

Definition launch_order (pc : MainPc) : Prop :=
  match pc with
  | Launching rest => ∃ done, lcores = done ++ rest
  | Waiting rest => ∃ done, lcores = done ++ rest
  | _ => True
  end.

Record regular (s : Sys) : Prop := {
  reg_arcs : arcs s = (holds (main s) + total is_live s)%nat;
  reg_live : ∀ l, live s l → may_run (main s) l;
  reg_pools : socket_pools s = has_map (main s);
  reg_neighbor : lan_neighbor s = has_neighbor (main s);
  reg_released : released_at (main s) (arcs s) (released s);
  reg_order : launch_order (main s);
}.

(** What is true in the end of a process that was killed, too. *)
Definition in_order (rs : list Release) : Prop := ∃ n, rs = firstn n teardown.
Definition sound (s : Sys) : Prop :=
  (in_order (released s) ∨ ∃ n, released s = firstn n [FreeApp; FreePools]) ∧ (released s ≠ [] → ∀ l, ¬ live s l).
Definition inv (s : Sys) : Prop :=
  match main s with Killed => sound s | _ => regular s end.

Lemma downs_app ps qs : downs (ps ++ qs) = downs ps ++ downs qs.
Proof. apply bind_app. Qed.

Lemma in_order_prefix xs ys : teardown = xs ++ ys → in_order xs.
Proof. intros E. exists (length xs). by rewrite E, take_app_length. Qed.

Lemma regular_in_order s : regular s → unwinding (main s) = false → in_order (released s).
Proof.
  intros [_ _ _ _ Hr _] Hu. revert Hr. unfold released_at. destruct (main s); try discriminate Hu.
  all: try by (intros ->; exists 0%nat).
  - intros (done & E & ->). eapply in_order_prefix. unfold teardown. rewrite E at 1. by rewrite downs_app, <- app_assoc.
  - intros (done & E & ->). eapply in_order_prefix. unfold teardown. rewrite E at 1. rewrite downs_app. cbn. by rewrite <- !app_assoc.
  - intros ->. by eapply in_order_prefix.
  - intros ->. eapply in_order_prefix. unfold teardown. by rewrite <- app_assoc.
  - intros ->. eapply in_order_prefix. unfold teardown. by rewrite <- app_assoc.
  - intros ->. eapply in_order_prefix. by rewrite app_nil_r.
  - intros ->. eapply in_order_prefix. by rewrite app_nil_r.
Qed.

Lemma none_live_total s : (∀ l, ¬ live s l) → total is_live s = 0%nat.
Proof.
  intros Hl. unfold total. clear Hcores. induction lcores as [|k ls IH]; [done|]. cbn [sum_list_with]. rewrite IH.
  specialize (Hl k). unfold live, weight in *. by destruct (default Idle _).
Qed.

(** Once something was released, no worker is running. *)
Lemma regular_quiet s l : regular s → released s ≠ [] → ¬ live s l.
Proof.
  intros [Ha Hl _ _ Hr _] Hne Hlive. destruct (Hl l Hlive) as (Hin & _ & Hm). pose proof (live_total s l Hin Hlive) as Ht.
  unfold released_at in Hr. destruct (main s); try done; by rewrite bool_decide_false in Hr by lia.
Qed.

Lemma regular_unwinding s : regular s → unwinding (main s) = true → ∃ n, released s = firstn n [FreeApp; FreePools].
Proof.
  intros [_ _ _ _ Hr _] Hu. unfold released_at in Hr. destruct (main s); try discriminate Hu.
  all: rewrite Hr; repeat case_bool_decide; first [by exists 0%nat|by exists 1%nat|by exists 2%nat].
Qed.

Lemma regular_sound s : regular s → sound s.
Proof.
  intros Hs. split; [|intros Hne l; by apply regular_quiet].
  destruct (unwinding (main s)) eqn:Hu; [right; by apply regular_unwinding|left; by apply regular_in_order].
Qed.

Lemma regular_inv s : regular s → inv s.
Proof. intros Hs. pose proof (regular_sound s Hs). unfold inv. by destruct (main s). Qed.
Lemma inv_regular s : inv s → main s ≠ Killed → regular s.
Proof. unfold inv. by destruct (main s). Qed.
Lemma gone_regular s : inv s → gone s = false → regular s.
Proof. intros Hs Hg. apply inv_regular; [done|]. intros E. unfold gone in Hg. by rewrite E in Hg. Qed.

Lemma regular_set_main s pc :
  regular s → holds pc = holds (main s) → has_map pc = has_map (main s) → has_neighbor pc = has_neighbor (main s) →
  (∀ l, live s l → may_run (main s) l → may_run pc l) →
  released_at pc (arcs s) (released s) → launch_order pc → regular (set_main s pc).
Proof.
  intros [Ha Hl Hp Hn Hr Ho] Hh Hp' Hn' Hm Hr' Ho'.
  split; cbn [set_main main arcs socket_pools lan_neighbor released]; [|intros l Hl'; apply Hm; auto| | |done|done].
  - by rewrite Hh, Ha.
  - by rewrite Hp', Hp.
  - by rewrite Hn', Hn.
Qed.

Lemma live_set_worker s l x k : live (set_worker s l x) k → k = l ∧ is_live x = 1%nat ∨ k ≠ l ∧ live s k.
Proof.
  unfold live, weight. cbn [set_worker workers]. destruct (decide (k = l)) as [->|Hne].
  - rewrite lookup_insert_eq. auto.
  - rewrite lookup_insert_ne by done. auto.
Qed.

(** A running worker goes on running. *)
Lemma regular_set_worker s l x : regular s → live s l → is_live x = 1%nat → regular (set_worker s l x).
Proof.
  intros [Ha Hl Hp Hn Hr Ho] Hlive Hx. pose proof (Hl l Hlive) as Hm. split; [|intros k Hk; cbn|done|done|done|done].
  - cbn [set_worker arcs main]. pose proof (total_set_worker is_live s l x (proj1 Hm)). unfold live in Hlive. lia.
  - apply live_set_worker in Hk as [[-> _]|[_ Hk]]; auto.
Qed.

(** The drop of a reference that the main thread or a worker has given up. *)
Record dropped (s s' : Sys) : Prop := {
  dr_arcs : arcs s' = pred (arcs s);
  dr_workers : workers s' = workers s;
  dr_main : main s' = main s;
  dr_pools : socket_pools s' = socket_pools s;
  dr_neighbor : lan_neighbor s' = lan_neighbor s;
  dr_shutdown : SHUTDOWN s' = SHUTDOWN s;
  dr_installed : installed s' = installed s;
  dr_released : released s' = released s ++
    (if bool_decide (pred (arcs s) = 0)%nat then if socket_pools s then [FreeApp] else [FreeApp; FreePools] else []);
}.
Lemma arc_drop_dropped s : dropped s (arc_drop s).
Proof. unfold arc_drop. case_bool_decide as E; split; try done; cbn; [by rewrite bool_decide_true|by rewrite bool_decide_false, app_nil_r]. Qed.

(** A running worker ends: the context is freed with it only when the main
    thread has let go of it, unwinding. *)
Lemma regular_exit s l b : regular s → live s l → regular (run_exit s l b).
Proof.
  intros [Ha Hl Hp Hn Hr Ho] Hlive. pose proof (Hl l Hlive) as Hm.
  set (s1 := if b then set_shutdown s else s).
  assert (workers s1 = workers s ∧ arcs s1 = arcs s ∧ main s1 = main s ∧ released s1 = released s ∧
    socket_pools s1 = socket_pools s ∧ lan_neighbor s1 = lan_neighbor s) as (Ew & Ea & Em & Er & Ep & En) by (by destruct b).
  set (x := Exited (if b then 1 else 0)). pose proof (total_set_worker is_live s1 l x (proj1 Hm)) as Ht.
  rewrite (total_ext is_live s s1 Ew) in Ht. assert (weight is_live s1 l = 1%nat) as Hw by (unfold weight; rewrite Ew; apply Hlive).
  change (is_live x) with 0%nat in Ht. unfold run_exit. fold s1. fold x.
  destruct (arc_drop_dropped (set_worker s1 l x)) as [Da Dw Dm Dp Dn _ _ Dr]. cbn [set_worker arcs main socket_pools lan_neighbor released] in *.
  split; rewrite ?Dm, ?Em, ?Dp, ?Ep, ?Dn, ?En; [|intros k Hk|done|done| |done].
  - rewrite (total_ext is_live _ _ Dw), Da, Ea. lia.
  - unfold live, weight in Hk. rewrite Dw in Hk. apply (live_set_worker s1 l x k) in Hk as [[_ Hk]|[_ Hk]]; [done|].
    apply Hl. unfold live, weight in *. by rewrite <- Ew.
  - rewrite Da, Dr, Ea, Er, Ep, Hp. destruct Hm as (_ & _ & Hm). unfold released_at in *.
    destruct (main s); cbn [holds has_map unwinding] in *; try discriminate Hm.
    all: repeat case_bool_decide; try lia; rewrite Hr; done.
Qed.

Lemma worker_step_inv s l b s' :
  regular s → worker_step s l b = Some s' → inv s'.
Proof.
  intros Hreg. unfold worker_step. destruct (workers s !! l) as [x|] eqn:Ew; [|done].
  destruct x; [done| | |done]; intros [= <-]; (assert (live s l) as Hlive by (apply live_alt; rewrite Ew; auto)).
  - destruct (SHUTDOWN s); apply regular_inv; [by apply regular_exit|by apply regular_set_worker].
  - destruct b; [destruct unwinds|]; [by apply regular_inv, regular_exit|by apply regular_sound in Hreg|by apply regular_inv, regular_set_worker].
Qed.

(** The launch of a worker on a core that is not yet in use. *)
Lemma regular_launch s l rest rc :
  regular s → main s = Launching (l :: rest) → l ≠ main_lcore → regular (set_main (launch_worker s l rc).1 (Launching rest)).
Proof.
  intros [Ha Hl Hp Hn Hr Ho] Em Hne. rewrite Em in *. destruct Ho as [done Ho].
  assert (l ∈ lcores) as Hin by (rewrite Ho; set_solver).
  assert (l ∉ rest) as Hrest.
  { intros Hin'. rewrite Ho in Hcores. apply list.NoDup_app in Hcores as (_ & _ & Hnd). by apply NoDup_cons_1_1 in Hnd. }
  assert (weight is_live s l = 0%nat) as Hw.
  { destruct (weight is_live s l) as [|[|n]] eqn:E; [done| |].
    - destruct (Hl l E) as (_ & _ & Hn'). set_solver.
    - unfold weight, is_live in E. repeat case_match; lia. }
  assert (launch_order (Launching rest)) as Ho' by (exists (done ++ [l]); by rewrite <- app_assoc).
  assert (∀ k, live s k → may_run (Launching rest) k) as Hl'.
  { intros k Hk. destruct (Hl k Hk) as (H1 & H2 & H3). split_and!; [done|done|]. set_solver. }
  unfold launch_worker. destruct (Z.eqb_spec rc 0); cbn [negb fst].
  - split; cbn [set_main set_worker arc_clone set_arcs arcs main socket_pools lan_neighbor released]; [|intros k Hk|done|done|done|done].
    + pose proof (total_set_worker is_live (arc_clone s) l Top Hin) as Ht. cbn [is_live] in Ht.
      change (weight is_live (arc_clone s) l) with (weight is_live s l) in Ht.
      change (total is_live (arc_clone s)) with (total is_live s) in Ht.
      change (total is_live _) with (total is_live (set_worker (arc_clone s) l Top)) at 1. cbn in Ha |- *. lia.
    + apply (live_set_worker (arc_clone s) l Top k) in Hk as [[-> _]|[_ Hk]]; [by split_and!|by apply Hl'].
  - unfold arc_drop. cbn [arc_clone set_arcs arcs pred]. rewrite bool_decide_false by (cbn in Ha; lia). by split.
Qed.

(** The steps of the main thread that let go of the context or the pools. *)
Lemma regular_drop_ctx s pc :
  regular s → main s = DropCtx ∧ pc = DropPools ∨ main s = UnwindCtx ∧ pc = UnwindNeighbor → regular (set_main (arc_drop s) pc).
Proof.
  intros Hreg Hpc. pose proof Hreg as [Ha Hl Hp Hn Hr Ho]. destruct (arc_drop_dropped s) as [Da Dw _ Dp Dn _ _ Dr].
  assert (main s = DropCtx → total is_live s = 0%nat) as Ht.
  { intros Em. apply none_live_total. intros k Hk. apply Hl in Hk as (_ & _ & Hk). by rewrite Em in Hk. }
  split; cbn [set_main arcs main socket_pools lan_neighbor released].
  - change (total is_live (set_main _ _)) with (total is_live (arc_drop s)).
    rewrite (total_ext is_live _ _ Dw), Da, Ha. destruct Hpc as [[-> ->]|[-> ->]]; cbn; lia.
  - intros k Hk. assert (live s k) as Hk' by (unfold live, weight in *; cbn [set_main workers] in Hk; by rewrite <- Dw).
    destruct (Hl k Hk') as (? & ? & Hm). destruct Hpc as [[Em ->]|[Em ->]]; rewrite Em in Hm; [done|by split_and!].
  - rewrite Dp, Hp. by destruct Hpc as [[-> ->]|[-> ->]].
  - rewrite Dn, Hn. by destruct Hpc as [[-> ->]|[-> ->]].
  - rewrite Dr, Da, Hp. destruct Hpc as [[Em ->]|[Em ->]]; rewrite Em in *; cbn [released_at has_map] in *; rewrite Hr.
    + rewrite bool_decide_true by (rewrite Ha, (Ht eq_refl); done). done.
    + done.
  - by destruct Hpc as [[_ ->]|[_ ->]].
Qed.
Lemma regular_drop_pools s pc :
  regular s → main s = DropPools ∧ pc = Cleanup ∨ main s = UnwindPools ∧ pc = Unwinding → regular (set_main (drop_pools s) pc).
Proof.
  intros [Ha Hl Hp Hn Hr Ho] Hpc.
  assert (main s = DropPools → arcs s = 0%nat) as Ht.
  { intros Em. rewrite Ha, none_live_total; [by rewrite Em|]. intros k Hk. apply Hl in Hk as (_ & _ & Hk). by rewrite Em in Hk. }
  assert (workers (drop_pools s) = workers s ∧ arcs (drop_pools s) = arcs s ∧ lan_neighbor (drop_pools s) = lan_neighbor s ∧
    socket_pools (drop_pools s) = false ∧
    released (drop_pools s) = released s ++ (if bool_decide (arcs s = 0)%nat then [FreePools] else [])) as (Dw & Da & Dn & Dp & Dr).
  { unfold drop_pools. case_bool_decide; cbn; rewrite ?app_nil_r; done. }
  split; cbn [set_main arcs main socket_pools lan_neighbor released].
  - change (total is_live (set_main _ _)) with (total is_live (drop_pools s)).
    rewrite (total_ext is_live _ _ Dw), Da, Ha. by destruct Hpc as [[-> ->]|[-> ->]].
  - intros k Hk. assert (live s k) as Hk' by (unfold live, weight in *; cbn [set_main workers] in Hk; by rewrite <- Dw).
    destruct (Hl k Hk') as (? & ? & Hm). destruct Hpc as [[Em ->]|[Em ->]]; rewrite Em in Hm; [done|by split_and!].
  - rewrite Dp. by destruct Hpc as [[_ ->]|[_ ->]].
  - rewrite Dn, Hn. by destruct Hpc as [[-> ->]|[-> ->]].
  - rewrite Dr, Da. destruct Hpc as [[Em ->]|[Em ->]]; rewrite Em in *; cbn [released_at] in *; rewrite Hr.
    + rewrite bool_decide_true by auto. by rewrite <- app_assoc.
    + by case_bool_decide.
  - by destruct Hpc as [[_ ->]|[_ ->]].
Qed.

Lemma main_step_inv s rc b s' :
  regular s → gone s = false → main_step s rc b = Some s' → inv s'.
Proof.
  intros Hreg Hgone. pose proof Hreg as [Ha Hl Hp Hn Hr Ho]. pose proof (regular_sound s Hreg) as Hsound.
  assert (∀ pc, holds pc = holds (main s) → has_map pc = has_map (main s) → has_neighbor pc = has_neighbor (main s) →
    (∀ l, live s l → may_run (main s) l → may_run pc l) →
    released_at pc (arcs s) (released s) → launch_order pc → inv (set_main s pc)) as Hmove.
  { intros. by apply regular_inv, regular_set_main. }
  unfold main_step. destruct (main s) as [rest| | |rest|rest|p rest| | | | | | | | | | |] eqn:Em;
    unfold gone in Hgone; rewrite Em in Hgone; try discriminate Hgone.
  - destruct rest as [|l rest]; intros [= <-].
    + apply Hmove; try done. intros l Hlive (? & ? & _). done.
    + destruct (Z.eqb_spec l main_lcore); cbn [negb].
      * apply Hmove; try done; [|destruct Ho as [done' ->]; exists (done' ++ [l]); by rewrite <- app_assoc].
        intros k _ (? & ? & ?). split_and!; [done|done|set_solver].
      * by apply regular_inv, regular_launch.
  - intros [= <-]. destruct (SHUTDOWN s); apply Hmove; try done; [intros l _ (? & ? & _); by split_and!|by exists []].
  - intros [= <-]. destruct b; [destruct unwinds|]; [|exact Hsound|by apply Hmove].
    apply Hmove; try done. intros l _ (? & ? & _). by split_and!.
  - destruct rest as [|l rest].
    + intros [= <-]. apply Hmove; try done; [|exists []; split; [done|exact Hr]]. intros l _ (_ & _ & Hin). by apply elem_of_nil in Hin.
    + assert (launch_order (Waiting rest)) as Ho' by (destruct Ho as [done' ->]; exists (done' ++ [l]); by rewrite <- app_assoc).
      assert ((¬ live s l ∨ l = main_lcore) → inv (set_main s (Waiting rest))) as Hnext.
      { intros Hnl. apply Hmove; try done. intros k Hk (? & ? & [->|Hin]%elem_of_cons); [by destruct Hnl|by split_and!]. }
      destruct (Z.eqb_spec l main_lcore); [intros [= <-]; apply Hnext; by right|].
      destruct (workers s !! l) as [[]|] eqn:El; try done; intros [= <-]; apply Hnext; left; rewrite live_alt, El; naive_solver.
  - destruct Hr as (done & Ep & Er). destruct rest as [|p rest]; intros [= <-].
    + apply Hmove; try done. rewrite app_nil_r in Ep. cbn. by rewrite Er, Ep.
    + apply regular_inv. split; try done. exists done. cbn. by rewrite Er.
  - destruct Hr as (done & Ep & Er). intros [= <-]. apply regular_inv. split; try done.
    exists (done ++ [p]). cbn [set_main release released]. rewrite <- app_assoc. split; [done|]. rewrite Er, downs_app. cbn. by rewrite <- app_assoc.
  - intros [= <-]. apply regular_inv, regular_drop_ctx; auto.
  - intros [= <-]. apply regular_inv, regular_drop_pools; auto.
  - intros [= <-]. apply regular_inv. split; try done.
    cbn in Hr |- *. unfold teardown. by rewrite Hr, <- app_assoc.
  - intros [= <-]. apply regular_inv. by split.
  - intros [= <-]. apply regular_inv, regular_drop_ctx; auto.
  - intros [= <-]. by apply regular_inv.
  - intros [= <-]. apply regular_inv, regular_drop_pools; auto.
  - intros [= <-]. by apply Hmove.
Qed.

Lemma sys_step_inv s a s' : inv s → step s a = Some s' → inv s'.
Proof.
  unfold step. destruct (gone s) eqn:Hg; [done|]. intros Hinv. pose proof (gone_regular s Hinv Hg) as Hreg.
  destruct a as [sig|rc b|l b]; [|by apply main_step_inv|by apply worker_step_inv].
  intros [= <-]. case_bool_decide.
  - apply regular_inv. destruct Hreg. by split.
  - by apply regular_sound in Hreg.
Qed.
Lemma run_inv s acts : inv s → inv (run s acts).
Proof.
  unfold run. revert s. induction acts as [|a acts IH]; intros s Hs; [done|]. cbn [foldl]. apply IH. unfold act.
  destruct (step s a) eqn:E; [by eapply sys_step_inv|done].
Qed.
Lemma start_inv signal : inv (start_up signal).
Proof.
  assert (∀ l, ¬ live (start_up signal) l) as Hl by (intros l Hl; by apply live_alt in Hl as [?|?]).
  split; cbn [start_up arcs main socket_pools lan_neighbor released]; [by rewrite none_live_total|intros l H; by apply Hl in H|done|done|done|by exists []].
Qed.

(** ** Runs without a panic of the main core *)


Lemma run_exit_main s l b : main (run_exit s l b) = main s.
Proof. unfold run_exit, arc_drop. case_bool_decide; by destruct b. Qed.
Lemma worker_step_main s l b s' : worker_step s l b = Some s' → main s' = main s ∨ main s' = Killed ∧ released s' = released s ∧ unwinds = false.
Proof.
  unfold worker_step. destruct (workers s !! l) as [[]|]; try done; intros [= <-].
  - destruct (SHUTDOWN s); [rewrite run_exit_main|]; auto.
  - destruct b; [destruct unwinds; [rewrite run_exit_main|]|]; auto.
Qed.


(** A main core that panicked frees the context and the pools at most. *)
Definition keeps_ports (s : Sys) : Prop :=
  (unwinding (main s) = true ∨ main s = Killed) ∧ ∃ n, released s = firstn n [FreeApp; FreePools].
Lemma step_keeps_ports s a s' : inv s → keeps_ports s → step s a = Some s' → keeps_ports s'.
Proof.
  intros Hinv [Hu Hr] Hs. pose proof (sys_step_inv s a s' Hinv Hs) as Hinv'.
  assert (unwinding (main s') = true ∨ main s' = Killed ∧ released s' = released s) as [Hu'|[Hk Hr']].
  { unfold step in Hs. destruct (gone s) eqn:Hg; [done|].
    destruct Hu as [Hu|Hk]; [|unfold gone in Hg; by rewrite Hk in Hg]. destruct a as [sig|rc b|l b].
    - injection Hs as <-. case_bool_decide; auto.
    - left. unfold main_step in Hs. destruct (main s); try discriminate Hu; by simplify_eq.
    - destruct (worker_step_main s l b s' Hs) as [E|(E & Er & _)]; [left; by rewrite E|auto]. }
  - split; [auto|]. apply regular_unwinding; [|done]. apply inv_regular; [done|]. intros E. by rewrite E in Hu'.
  - split; [auto|]. by rewrite Hr'.
Qed.
Lemma run_keeps_ports s acts : inv s → keeps_ports s → keeps_ports (run s acts).
Proof.
  unfold run. revert s. induction acts as [|a acts IH]; intros s Hinv Hk; [done|]. cbn [foldl]. unfold act at 2.
  destruct (step s a) eqn:E; [|by apply IH]. apply IH; [by eapply sys_step_inv|by eapply step_keeps_ports].
Qed.

(** ** Termination *)


















End threads.

(** ** Properties *)



Module Sample.
End Sample.




(** ** Panics *)

(** Where panics unwind, a worker's panic asks every thread to shut down. *)
Lemma panic_requests_shutdown main_lcore lcores port_ids s l :
  gone s = false → workers s !! l = Some Body →
  ∃ s', step true main_lcore lcores port_ids s (WorkerStep l true) = Some s' ∧ SHUTDOWN s' = true ∧
    workers s' !! l = Some (Exited 1).
Proof.
  intros Hg Hl. unfold step, worker_step. rewrite Hg, Hl. eexists. split; [done|]. split.
  - unfold run_exit, arc_drop. by case_bool_decide.
  - unfold run_exit. rewrite arc_drop_workers. cbn [set_worker workers]. by rewrite lookup_insert_eq.
Qed.

(** With the release profile ([panic = "abort"]) there is nothing to catch: the
    process ends with the ports running. *)
Lemma release_panic_aborts main_lcore lcores port_ids s l :
  gone s = false → workers s !! l = Some Body →
  step false main_lcore lcores port_ids s (WorkerStep l true) = Some (set_main s Killed).
Proof. intros Hg Hl. unfold step, worker_step. by rewrite Hg, Hl. Qed.

(** A panic on the main core is not caught in any build: whatever happens
    afterwards, no port is stopped and the driver is not cleaned up. *)
Lemma main_panic_skips_teardown unwinds main_lcore lcores port_ids signal acts rc s s' more :
  NoDup lcores → s = run unwinds main_lcore lcores port_ids (start_up lcores signal) acts → main s = MainBody →
  step unwinds main_lcore lcores port_ids s (MainStep rc true) = Some s' →
  ∃ n, released (run unwinds main_lcore lcores port_ids s' more) = firstn n [FreeApp; FreePools].
Proof.
  intros Hnd Es Em Hs. assert (inv main_lcore lcores port_ids s) as Hinv by (subst s; by apply run_inv; [|apply start_inv]).
  assert (released s = []) as Hr by (pose proof (inv_regular _ _ _ s Hinv ltac:(by rewrite Em)) as [_ _ _ _ Hr _]; by rewrite Em in Hr).
  eapply run_keeps_ports; [done|by eapply sys_step_inv|]. unfold step, gone, main_step in Hs. rewrite Em in Hs. injection Hs as <-.
  split; [destruct unwinds; auto|]. exists 0%nat. exact Hr.
Qed.

(** With a single core, that frees the context and the buffer pools while the
    ports, which receive into those pools, are still running. *)
Lemma main_panic_frees_pools_of_running_ports :
  let s := run true 0 [0] [5; 6] (start_up [0] (λ _, 0))
    [MainStep 0 false; MainStep 0 false; MainStep 0 false; MainStep 0 true; MainStep 0 false; MainStep 0 false; MainStep 0 false;
     MainStep 0 false] in
  main s = Unwound ∧ released s = [FreeApp; FreePools].
Proof. split; vm_compute; reflexivity. Qed.

(** When the driver library has been cleaned up, [run] still has its handle of
    the LAN's neighbour table, which is freed, with the packets queued in it,
    only after that. *)
Lemma queued_packets_outlive_driver unwinds main_lcore lcores port_ids signal acts s :
  NoDup lcores → s = run unwinds main_lcore lcores port_ids (start_up lcores signal) acts → main s = Returning →
  EalCleanup ∈ released s ∧ lan_neighbor s = true.
Proof.
  intros Hnd Es Em. assert (inv main_lcore lcores port_ids s) as Hinv by (subst s; by apply run_inv; [|apply start_inv]).
  pose proof (inv_regular _ _ _ s Hinv ltac:(by rewrite Em)) as [_ _ _ Hn Hr _]. rewrite Em in Hn, Hr. cbn in Hn, Hr.
  split; [|done]. rewrite Hr. unfold teardown. apply elem_of_app. right. right. right. left.
Qed.
