(* ===== verification/Main.v ===== *)
(** * Start-up ([src/main.rs], [src/router/conf.rs])

    The configuration and what [runtime::run] makes of it before the workers
    start: the ports it brings up, the cores it gives them, and the initial
    tables.  What follows, from the launch of the workers to the end of the
    process, is in [Lifecycle].  How the file is read and the driver
    library started is in [Boot]. *)

From stdpp Require Import sorting.
From S2P Require Import Prelude SourceNat Neighbor Conntrack AddrPool Fdb Leases DhcpServer DhcpClient.
From S2P Require Import NetUtil PortPlan App Datapath Concurrent.

(** ** Configuration *)

Inductive InterfaceRole := RoleWan | RoleLan.
#[global] Instance InterfaceRole_dec : EqDecision InterfaceRole.
Proof. solve_decision. Defined.
Record InterfaceConfig := { name : string; role : InterfaceRole }.
Record LanConfig := { conf_ip : Ipv4Addr; conf_mask : Netmask }.
Record DhcpConfig := { pool_start : Ipv4Addr; pool_end : Ipv4Addr }.
Record Alias := { alias_ip : Ipv4Addr; fqdn : string }.
Record Dns := { servers : list Ipv4Addr; search_domains : list string; aliases : list Alias }.
Record RouterConfig := { interfaces : list InterfaceConfig; lan : LanConfig; dhcp : DhcpConfig; dns : Dns }.

Definition RING : Z := 1024.
Definition LEASE_SECS : Z := 86400.
Definition WAN_XID : Z := 0x71756963.
Definition NAT_PORT_LO : Z := 40000.
Definition NAT_PORT_HI : Z := 65535.

(** ** Ordered maps ([BTreeMap]) as association lists in key order *)

Fixpoint bt_insert {A} (k : Z) (a : A) (l : list (Z * A)) : list (Z * A) :=
  match l with
  | [] => [(k, a)]
  | (k', a') :: l =>
    if k <? k' then (k, a) :: (k', a') :: l
    else if k =? k' then (k, a) :: l
    else (k', a') :: bt_insert k a l
  end.
(** [remove]: the map without the key, and the value it had. *)
Fixpoint bt_remove {A} (k : Z) (l : list (Z * A)) : list (Z * A) * option A :=
  match l with
  | [] => ([], None)
  | (k', a') :: l => if k =? k' then (l, Some a') else let '(l, r) := bt_remove k l in ((k', a') :: l, r)
  end.

(** The first error ends the iteration. *)
Fixpoint collect {A B} (f : A → outcome B) (l : list A) : outcome (list B) :=
  match l with [] => mret [] | x :: l => y ← f x; ys ← collect f l; mret (y :: ys) end.

(** [CString::new]: a string with an interior NUL is refused. *)
Definition CString_new (s : string) : option string :=
  if existsb (Ascii.eqb Ascii.zero) (String.list_ascii_of_string s) then None else Some s.

Section start_up.
(** The driver library, the random indices below a bound and the digest of the hash library. *)
Context (eal : Eal) (rte_eth_dev_get_port_by_name : string → option Z) (rte_lcore_is_enabled : Z → bool)
  (mempool_create : Z → bool) (random : Z → Datatypes.nat → Datatypes.nat) (sha256 : bytes → bytes).

Definition get_port_id (n : string) : outcome Z :=
  c_str ← expect (CString_new n); expect (rte_eth_dev_get_port_by_name c_str).

Definition enabled_lcores : list Lcore :=
  List.filter (λ l, rte_lcore_is_enabled (lcore_id l))
    (lcores_from eal (Z.to_nat (RTE_MAX_LCORE eal)) LcoreIter_new).

(** The state of the loop over the ports. *)
Record Bringup := { socket_pools : list Z; up_ports : list (Z * PortPlan.Port); load : list (Z * Datatypes.nat) }.

(** The cores that serve a port: those of its socket, or else the least loaded
    one, whose load goes up. *)
Definition dedicate (lcores : list Lcore) (socket : Z) (load : list (Z * Datatypes.nat)) : outcome (list Z * list (Z * Datatypes.nat)) :=
  let dedicated_lcores := lcore_id <$> List.filter (λ l, lcore_socket l =? socket) lcores in
  match dedicated_lcores with
  | [] =>
    best ← min_by_key (λ e, mret e.2) load;
    e ← expect best;
    mret ([e.1], bt_insert e.1 (S e.2) load)
  | _ => mret (dedicated_lcores, load)
  end.

Definition bring_up (lcores : list Lcore) (s : Bringup) (p : Z) : outcome Bringup :=
  let socket := Z.max (rte_eth_dev_socket_id eal p) 0 in
  pools ← (if bool_decide (socket ∈ socket_pools s) then mret (socket_pools s)
           else _ ← assert_ (mempool_create socket); mret (socket :: socket_pools s));
  setup ← (match (init_port eal {| conf_port_id := p;
                     nb_rx_queues := Z.of_nat (length lcores) mod 2 ^ 16;
                     nb_tx_queues := Z.of_nat (length lcores) mod 2 ^ 16;
                     rx_ring_size := RING; tx_ring_size := RING |}).2 with
           | inr s => mret s
           | inl _ => Panic
           end);
  d ← dedicate lcores socket (load s);
  info ← (match PortPlan.info eal p with inr i => mret i | inl _ => Panic end);
  port ← Port_new setup info d.1 (random p (length d.1));
  mret {| socket_pools := pools; up_ports := bt_insert p port (up_ports s); load := d.2 |}.

Fixpoint bring_up_all (lcores : list Lcore) (s : Bringup) (ps : list Z) : outcome Bringup :=
  match ps with [] => mret s | p :: ps => s ← bring_up lcores s p; bring_up_all lcores s ps end.

(** What the datapath needs of a port. *)
Definition handle_of (p : PortPlan.Port) : App.Port :=
  {| port_id := info_port_id (port_info p); ether_addr := info_ether_addr (port_info p) |}.

Definition run (config : RouterConfig) : outcome (AppCtx * Tables * list (Z * PortPlan.Port)) :=
  let server_ip := conf_ip (lan config) in
  let subnet_mask := conf_mask (lan config) in
  wan_if ← expect (List.find (λ i, bool_decide (role i = RoleWan)) (interfaces config));
  wan_id ← get_port_id (name wan_if);
  lan_ids ← collect get_port_id (name <$> List.filter (λ i, bool_decide (role i = RoleLan)) (interfaces config));
  _ ← assert_ (forallb (λ id, negb (id =? wan_id)) lan_ids);
  _ ← assert_ (negb (bool_decide (lan_ids = [])));
  let port_ids := wan_id :: lan_ids in
  let lcores := enabled_lcores in
  let load := foldr (λ l, bt_insert (lcore_id l) 0%nat) [] lcores in
  up ← bring_up_all lcores {| socket_pools := []; up_ports := []; load := load |} port_ids;
  let '(rest, wan) := bt_remove wan_id (up_ports up) in
  wan_port ← expect wan;
  let wan_mac := info_ether_addr (port_info wan_port) in
  pool ← AddrPool.new (pool_start (dhcp config)) (pool_end (dhcp config));
  reserved ← AddrPool.reserve pool server_ip;
  software_defined_addr ← software_defined_mac sha256 server_ip;
  let server_config := {|
    DhcpServer.server_ip := server_ip;
    server_mac := software_defined_addr;
    gateway := server_ip;
    DhcpServer.subnet_mask := netmask subnet_mask;
    DhcpServer.dns := server_ip :: servers (dns config);
    lease_secs := LEASE_SECS |} in
  let lans := (λ e, Lan {| lan_port_of := handle_of e.2; lan_dhcp := server_config |}) <$> rest in
  n ← SourceNat.new 0 NAT_PORT_LO NAT_PORT_HI;
  mret ({| app_server_ip := server_ip; app_server_mac := software_defined_addr;
           ports := Wan {| wan_port_of := handle_of wan_port |} :: lans |},
        {| fdb := Fdb.new; nat := n; conntrack := Conntrack.new;
           wan_neighbors := Neighbor.new (P := bytes) wan_mac 0; wan_client := DhcpClient.new wan_mac WAN_XID;
           wan_bound := 0; wan_gateway := 0;
           lan_neighbors := Neighbor.new (P := bytes) software_defined_addr server_ip;
           lan_pool := reserved.1; lan_leases := Leases.default_; last_sweep_ms := 0 |},
        up_ports up).

(** ** Lemmas *)

Definition keys {A} (l : list (Z * A)) : list Z := l.*1.

Lemma bt_insert_keys {A} k (a : A) l x : x ∈ keys (bt_insert k a l) ↔ x = k ∨ x ∈ keys l.
Proof.
  induction l as [|[k' a'] l IH]; cbn [bt_insert keys fmap list_fmap fst]; [set_solver|].
  destruct (k <? k'); [set_solver|]. destruct (Z.eqb_spec k k'); [set_solver|].
  change ((bt_insert k a l).*1) with (keys (bt_insert k a l)). change (l.*1) with (keys l). set_solver.
Qed.
Lemma bt_insert_elem {A} k (a : A) l e : e ∈ bt_insert k a l → e = (k, a) ∨ e ∈ l.
Proof.
  induction l as [|[k' a'] l IH]; cbn [bt_insert]; [set_solver|].
  destruct (k <? k'); [set_solver|]. destruct (k =? k'); set_solver.
Qed.
Lemma bt_insert_sorted {A} k (a : A) l : StronglySorted Z.lt (keys l) → StronglySorted Z.lt (keys (bt_insert k a l)).
Proof.
  induction l as [|[k' a'] l IH]; cbn [bt_insert keys fmap list_fmap fst]; intros Hs.
  { repeat constructor. }
  inversion Hs as [|? ? Hl Hf]; subst. destruct (Z.ltb_spec k k') as [?|?].
  { constructor; [done|]. constructor; [done|]. eapply List.Forall_impl; [|exact Hf]. intros y Hy. cbn [fst]. lia. }
  destruct (Z.eqb_spec k k') as [->|?]; [by constructor|].
  constructor; [by apply IH|]. apply List.Forall_forall. intros x Hx%list_elem_of_In.
  apply bt_insert_keys in Hx as [->|Hx]; [cbn [fst]; lia|]. apply list_elem_of_In in Hx.
  by eapply List.Forall_forall in Hf.
Qed.
Lemma sorted_nodup (l : list Z) : StronglySorted Z.lt l → NoDup l.
Proof.
  induction 1 as [|x l Hs IH Hf]; constructor; [|done]. intros Hx%list_elem_of_In.
  eapply List.Forall_forall in Hf; [|exact Hx]. lia.
Qed.
Lemma bt_remove_spec {A} k (l : list (Z * A)) :
  NoDup (keys l) → k ∈ keys l →
  ∃ l' a, bt_remove k l = (l', Some a) ∧ (k, a) ∈ l ∧ NoDup (keys l') ∧ (∀ e, e ∈ l' → e ∈ l) ∧
    ∀ x, x ∈ keys l' ↔ x ∈ keys l ∧ x ≠ k.
Proof.
  induction l as [|[k' a'] l IH]; cbn [bt_remove keys fmap list_fmap fst]; [set_solver|].
  intros H Hk. pose proof (NoDup_cons_1_1 _ _ H) as Hni. pose proof (NoDup_cons_1_2 _ _ H) as Hnd. clear H. destruct (Z.eqb_spec k k') as [->|Hne].
  - exists l, a'. split_and!; [done|set_solver|done|set_solver|]. intros x. rewrite elem_of_cons.
    split; [|naive_solver]. intros Hx. split; [auto|]. by intros ->.
  - destruct IH as (l' & a & -> & Ha & Hnd' & Hsub & Hkeys); [done|set_solver|].
    exists ((k', a') :: l'), a. split_and!; [done|set_solver| |set_solver|].
    + change (NoDup (k' :: keys l')). constructor; [|done]. rewrite Hkeys. tauto.
    + intros x. change (keys ((k', a') :: l')) with (k' :: keys l'). rewrite !elem_of_cons, Hkeys. naive_solver.
Qed.

Lemma min_by_key_total {A} (key : A → outcome Datatypes.nat) l :
  (∀ x, ∃ k, key x = Ret k) → l ≠ [] → ∃ x, min_by_key key l = Ret (Some x) ∧ x ∈ l.
Proof.
  intros Hk. induction l as [|x l IH]; [done|]. intros _. cbn [min_by_key]. destruct (Hk x) as [kx ->]. cbn [mbind outcome_bind].
  destruct l as [|y l]; [exists x; split; [done|set_solver]|].
  destruct IH as (z & -> & Hz); [done|]. cbn [mbind outcome_bind]. destruct (Hk z) as [kz ->]. cbn [mbind outcome_bind].
  case_match; eexists; (split; [reflexivity|set_solver]).
Qed.

Lemma dedicate_total lcores socket ld :
  ld ≠ [] → ∃ d ld', dedicate lcores socket ld = Ret (d, ld') ∧ d ≠ [] ∧ ld' ≠ [].
Proof.
  intros Hld. unfold dedicate. cbn zeta. destruct (lcore_id <$> _) as [|x d]; [|by eexists _, _].
  destruct (min_by_key_total (λ e : Z * Datatypes.nat, mret e.2) ld) as ([k c] & -> & _); [by eexists|done|].
  cbn. eexists _, _. split_and!; [reflexivity|done|]. intros E.
  assert (k ∈ keys (bt_insert k (S c) ld)) as Hin by (apply bt_insert_keys; auto). rewrite E in Hin. set_solver.
Qed.

(** ** Bringing up the ports *)

Record up_ok (s : Bringup) : Prop := {
  uo_sorted : StronglySorted Z.lt (keys (up_ports s));
  uo_info : ∀ p port, (p, port) ∈ up_ports s → PortPlan.info eal p = inr (port_info port);
  uo_load : load s ≠ [];
}.

(** The device of a port answers and accepts what it is told. *)
Definition device_ok (p : Z) : Prop :=
  (rte_eth_dev_info_get eal p).1 = 0 ∧ (∀ c, 0 ≤ dev_call eal p c) ∧ mac_ok (rte_eth_macaddr_get eal p).

Hypothesis pools_ok : ∀ socket, mempool_create socket = true.
Hypothesis random_ok : ∀ p n, (0 < n)%nat → (random p n < n)%nat.
Hypothesis sha256_ok : ∀ b, length (sha256 b) = 32%nat ∧ Forall u8 (sha256 b).

Lemma info_device p : device_ok p → ∃ i, PortPlan.info eal p = inr i ∧ info_port_id i = p ∧ mac_ok (info_ether_addr i).
Proof.
  intros (H0 & _ & Hm). unfold PortPlan.info. destruct (rte_eth_dev_info_get eal p) as [rc dev]. cbn in H0. subst rc.
  by eexists.
Qed.

Lemma bring_up_total lcores s p :
  device_ok p → up_ok s →
  ∃ s', bring_up lcores s p = Ret s' ∧ up_ok s' ∧ ∀ x, x ∈ keys (up_ports s') ↔ x = p ∨ x ∈ keys (up_ports s).
Proof.
  intros Hd [Hs Hi Hl]. unfold bring_up. cbn zeta. destruct (info_device p Hd) as (i & Ei & _).
  set (cf := Build_PortConfig _ _ _ _ _).
  assert (∃ pools, (if bool_decide (Z.max (rte_eth_dev_socket_id eal p) 0 ∈ socket_pools s) then mret (socket_pools s)
    else _ ← assert_ (mempool_create (Z.max (rte_eth_dev_socket_id eal p) 0));
         mret (Z.max (rte_eth_dev_socket_id eal p) 0 :: socket_pools s)) = Ret pools) as [pools ->].
  { case_bool_decide; [by eexists|]. rewrite pools_ok. by eexists. }
  cbn [mbind outcome_bind]. pose proof (init_port_orderly eal cf i Ei) as Ho.
  destruct (init_port eal cf) as [calls [e|setup]]; cbn [orderly snd] in *.
  { destruct Ho as (pre & c & _ & _ & Hc & _). destruct Hd as (_ & Hd & _). specialize (Hd c). cbn in Hc. lia. }
  cbn [mret outcome_ret]. destruct (dedicate_total lcores (Z.max (rte_eth_dev_socket_id eal p) 0) (load s) Hl) as (d & ld & -> & Hdne & Hld).
  cbn [mbind outcome_bind fst snd]. rewrite Ei. cbn [mret outcome_ret mbind outcome_bind].
  destruct (Port_new_total setup i d (random p (length d))) as (port & -> & Hpi & _); [done|apply random_ok; by destruct d; [|cbn; lia]|].
  cbn. eexists. split; [reflexivity|]. split; [|intros x; apply bt_insert_keys]. split; cbn [up_ports load].
  - by apply bt_insert_sorted.
  - intros q port' [[= -> ->]|H]%bt_insert_elem; [by rewrite Hpi|by apply Hi].
  - done.
Qed.
Lemma bring_up_all_total lcores s ps :
  Forall device_ok ps → up_ok s →
  ∃ s', bring_up_all lcores s ps = Ret s' ∧ up_ok s' ∧ ∀ x, x ∈ keys (up_ports s') ↔ x ∈ ps ∨ x ∈ keys (up_ports s).
Proof.
  revert s. induction ps as [|p ps IH]; intros s Hd Hs; cbn [bring_up_all]; [exists s; set_solver|].
  apply Forall_cons_1 in Hd as [Hp Hd]. destruct (bring_up_total lcores s p Hp Hs) as (s1 & -> & H1 & K1).
  cbn [mbind outcome_bind]. destruct (IH s1 Hd H1) as (s2 & -> & H2 & K2). exists s2. split_and!; [done|done|].
  intros x. rewrite K2, K1. set_solver.
Qed.

(** ** The initial state *)

Record config_ok (c : RouterConfig) : Prop := {
  co_ip : u32 (conf_ip (lan c));
  co_mask : u32 (netmask (conf_mask (lan c)));
  co_start : u32 (pool_start (dhcp c));
  co_end : u32 (pool_end (dhcp c));
  co_order : pool_start (dhcp c) ≤ pool_end (dhcp c);
  co_size : pool_end (dhcp c) - pool_start (dhcp c) < 2 ^ 32 - 1;
  co_dns : (length (servers (dns c)) < 60)%nat;
}.

(** The interfaces of the configuration name the ports [wan_id] and [lan_ids]. *)
Definition names_ports (c : RouterConfig) (wan_id : Z) (lan_ids : list Z) : Prop :=
  (∃ i, List.find (λ i, bool_decide (role i = RoleWan)) (interfaces c) = Some i ∧ get_port_id (name i) = Ret wan_id) ∧
  collect get_port_id (name <$> List.filter (λ i, bool_decide (role i = RoleLan)) (interfaces c)) = Ret lan_ids.

Lemma initial_pool s e ip :
  u32 s → u32 e → s ≤ e → e - s < 2 ^ 32 - 1 →
  ∃ p p' r, AddrPool.new s e = Ret p ∧ AddrPool.reserve p ip = Ret (p', r) ∧
    state_wf p' Leases.default_ ∧ ip ∉ free p' ∧ start p' = s ∧ end_ p' = e.
Proof.
  intros Hs He Hle Hsz. unfold AddrPool.new. rewrite (proj2 (Z.leb_le _ _) Hle). cbn [assert_ mbind outcome_bind mret outcome_ret].
  set (p := Build_AddressPool _ _ _). assert (pool_wf p) as Hp by (unfold pool_wf, p; cbn; split_and!; done || lia).
  destruct (reserve_spec p ip Hp) as (p' & r & Er & Hw & Es & Ee & Ef & _). exists p, p', r.
  split_and!; [done|done| |rewrite Ef; set_solver|done|done].
  by apply empty_leases_wf.
Qed.

Lemma lan_ports_fmap a w (mk : Z * PortPlan.Port → LanPortCtx) rest :
  ports a = Wan w :: ((λ e, Lan (mk e)) <$> rest) → lan_ports a = mk <$> rest ∧ wan_port a = Some w.
Proof.
  intros E. unfold lan_ports, wan_port. rewrite E. cbn [omap list_omap head]. split; [|done].
  clear E. induction rest as [|e rest IH]; [done|]. cbn. by f_equal.
Qed.

(** What a valid configuration with answering devices leads to. *)
Record booted (c : RouterConfig) (wan_id : Z) (lan_ids : list Z) (a : AppCtx) (t : Tables) : Prop := {
  bo_app : app_ok a;
  bo_fresh : fresh t;
  bo_lan_ok : Forall (λ l, lan_ok l ∧ mac_ok (ether_addr (lan_port_of l))) (lan_ports a);
  bo_wan : ∃ w, wan_port a = Some w ∧ port_id (wan_port_of w) = wan_id ∧ mac_ok (ether_addr (wan_port_of w));
  bo_once : NoDup ((λ l, port_id (lan_port_of l)) <$> lan_ports a);
  bo_lan_ids : ∀ p, p ∈ (λ l, port_id (lan_port_of l)) <$> lan_ports a ↔ p ∈ lan_ids;
  bo_gateway : gateway_ip t = None;
  bo_own : conf_ip (lan c) ∉ free (lan_pool t);
}.

(** A configuration that the machine can run. *)
Record runnable (c : RouterConfig) (wan_id : Z) (lan_ids : list Z) : Prop := {
  ru_config : config_ok c;
  ru_names : names_ports c wan_id lan_ids;
  ru_wan : wan_id ∉ lan_ids;
  ru_lan : lan_ids ≠ [];
  ru_devices : Forall device_ok (wan_id :: lan_ids);
  ru_cores : enabled_lcores ≠ [];
}.

Lemma run_booted c wan_id lan_ids : runnable c wan_id lan_ids →
  ∃ a t ups, run c = Ret (a, t, ups) ∧ booted c wan_id lan_ids a t.
Proof.
  intros [Hc Hnames Hwan Hlan Hdev Hcores]. destruct Hnames as ((i & Efind & Ewan) & Elans). unfold run. cbn zeta. rewrite Efind. cbn [expect mbind outcome_bind].
  rewrite Ewan. cbn [mbind outcome_bind]. rewrite Elans. cbn [mbind outcome_bind].
  replace (forallb _ lan_ids) with true by (symmetry; apply forallb_forall; intros x Hx%list_elem_of_In;
    apply negb_true_iff, Z.eqb_neq; congruence).
  rewrite bool_decide_false by done. cbn [assert_ negb mbind outcome_bind].
  destruct (bring_up_all_total enabled_lcores {| socket_pools := []; up_ports := [];
    load := foldr (λ l, bt_insert (lcore_id l) 0%nat) [] enabled_lcores |} (wan_id :: lan_ids)) as (up & -> & [Hs Hi _] & Hk); [done| |].
  { split; cbn; [constructor|set_solver|]. destruct enabled_lcores as [|l ls]; [done|]. cbn. intros E.
    assert (lcore_id l ∈ keys (bt_insert (lcore_id l) 0%nat (foldr (λ l, bt_insert (lcore_id l) 0%nat) [] ls))) as Hin
      by (apply bt_insert_keys; auto). rewrite E in Hin. set_solver. }
  cbn [mbind outcome_bind]. cbn [up_ports keys fmap list_fmap] in Hk.
  destruct (bt_remove_spec wan_id (up_ports up)) as (rest & wp & -> & Hwp & Hnd & Hsub & Hrest);
    [by apply sorted_nodup|apply Hk; left; by left|].
  assert (∀ p port, (p, port) ∈ up_ports up → info_port_id (port_info port) = p ∧ mac_ok (info_ether_addr (port_info port))) as Hport.
  { intros p port Hp. assert (device_ok p) as Hd.
    { rewrite Forall_forall in Hdev. apply Hdev. apply (list_elem_of_fmap_2 fst) in Hp.
      apply Hk in Hp as [Hp|Hp]; [by apply list_elem_of_In|by apply elem_of_nil in Hp]. }
    destruct (info_device p Hd) as (i' & Ei & Hid & Hm). apply Hi in Hp. rewrite Hp in Ei. injection Ei as <-. auto. }
  cbn [expect mbind outcome_bind]. destruct Hc.
  destruct (initial_pool (pool_start (dhcp c)) (pool_end (dhcp c)) (conf_ip (lan c))) as (p & p' & r & -> & Er & Hst & Hnf & _); [done..|].
  cbn [mbind outcome_bind]. rewrite Er. cbn [mbind outcome_bind].
  destruct (software_mac_ok sha256 (conf_ip (lan c)) sha256_ok) as (sm & -> & Hsm). cbn [mbind outcome_bind].
  destruct (SourceNat.new 0 NAT_PORT_LO NAT_PORT_HI) as [n|] eqn:En; [|done]. cbn [mbind outcome_bind mret outcome_ret].
  eexists _, _, _. split; [reflexivity|]. cbn [fst snd].
  destruct (Hport _ _ Hwp) as [Hwid Hwm].
  match goal with |- booted _ _ _ ?x _ => set (a := x) end.
  destruct (lan_ports_fmap a {| wan_port_of := handle_of wp |} (λ e, {| lan_port_of := handle_of e.2; lan_dhcp := _ |}) rest eq_refl) as [El Ew].
  assert ((λ e : Z * PortPlan.Port, info_port_id (port_info e.2)) <$> rest = keys rest) as Eids.
  { unfold keys. apply list_fmap_ext. intros k [q port] Hq. cbn. apply Hport, Hsub. by eapply list_elem_of_lookup_2. }
  split; rewrite ?El, ?Ew, <- ?list_fmap_compose; cbn [compose].
  - exact Hsm.
  - split; [|done|done]. split; cbn; try done. by apply (new_wf 0 NAT_PORT_LO NAT_PORT_HI).
  - apply Forall_fmap. apply Forall_forall. intros [q port] Hq%list_elem_of_In. cbn. split; [split; cbn; try done; lia|].
    by apply (Hport q port), Hsub.
  - exists {| wan_port_of := handle_of wp |}. by split_and!.
  - unfold compose. cbn. rewrite Eids. exact Hnd.
  - intros q. unfold compose. cbn. rewrite Eids, Hrest, Hk, elem_of_cons, elem_of_nil. naive_solver.
  - done.
  - exact Hnf.
Qed.
(** C26: start-up: with a valid configuration that names one WAN device and at
    least one LAN device, all of which answer, and an enabled core, [run]
    reaches the poll loops without a panic.  Then the configured ports are
    there (the WAN port first, each LAN port once, no port both), the tables are
    fresh (well-formed, with no flow and no LAN neighbour known), which is what
    the results on the datapath and its workers start from, no WAN gateway is
    set, and the router's own address is never handed out. *)
Theorem start_up_well_formed (c : RouterConfig) (wan_id : Z) (lan_ids : list Z) (Hrun : runnable c wan_id lan_ids) :
  ∃ a t ups, run c = Ret (a, t, ups) ∧ booted c wan_id lan_ids a t.
Proof. by apply run_booted. Qed.
End start_up.

(** ** A sample machine: two cores on two sockets, two devices on socket 0 *)

Definition sample_dev : EthDevInfo :=
  {| dev_max_rx_queues := 8; dev_max_tx_queues := 8; dev_max_rx_pktlen := 1518; dev_max_mac_addrs := 1;
     dev_rx_offload_capa := 14; dev_tx_offload_capa := 14; dev_reta_size := 128; dev_hash_key_size := 40;
     dev_flow_type_rss_offloads := 52; dev_driver_name := Some "net_ixgbe" |}.
Definition sample_eal : Eal := {|
  rte_eth_dev_info_get _ := (0, sample_dev);
  rte_eth_dev_socket_id _ := 0;
  rte_eth_macaddr_get p := [2; 0; 0; 0; 0; p mod 256];
  dev_call _ _ := 0;
  rte_eth_find_next p := if p <? 2 then p else 32;
  RTE_MAX_ETHPORTS := 32;
  rte_get_next_lcore i := if i =? 2 ^ 32 - 1 then 0 else if i =? 0 then 1 else 128;
  rte_lcore_to_socket_id l := l;
  RTE_MAX_LCORE := 128 |}.
Definition sample_names (n : string) : option Z :=
  if bool_decide (n = "wan0") then Some 0 else if bool_decide (n = "lan0") then Some 1 else None.
Definition sample_config : RouterConfig :=
  {| interfaces := [{| name := "lan0"; role := RoleLan |}; {| name := "wan0"; role := RoleWan |}];
     lan := {| conf_ip := ip4 10 0 0 1; conf_mask := {| mask_addr := ip4 255 255 255 0 |} |};
     dhcp := {| pool_start := ip4 10 0 0 1; pool_end := ip4 10 0 0 99 |};
     dns := {| servers := [ip4 1 1 1 1]; search_domains := []; aliases := [] |} |}.
Definition sample_random (_ : Z) (n : Datatypes.nat) : Datatypes.nat := pred n.
Definition sample_sha (_ : bytes) : bytes := replicate 32 77.

Lemma sample_random_ok p n : (0 < n)%nat → (sample_random p n < n)%nat.
Proof. unfold sample_random. lia. Qed.
Lemma sample_sha_ok b : length (sample_sha b) = 32%nat ∧ Forall u8 (sample_sha b).
Proof. split; [done|]. decide_now. Qed.

Lemma sample_mac_ok p : mac_ok (rte_eth_macaddr_get sample_eal p).
Proof.
  split; [done|]. pose proof (Z.mod_pos_bound p 256). cbn. repeat (apply Forall_cons_2; [word_lia|]). apply Forall_nil_2.
Qed.

Lemma sample_runnable : runnable sample_eal sample_names (λ _, true) sample_config 0 [1].
Proof.
  split.
  - split; try decide_now; cbn; lia.
  - split; [eexists; split; reflexivity|reflexivity].
  - decide_now.
  - done.
  - apply Forall_forall. intros p _. split; [done|]. split; [done|]. apply sample_mac_ok.
  - done.
Qed.

Lemma start_up_well_formed_witness :
  ∃ a t ups, run sample_eal sample_names (λ _, true) (λ _, true) sample_random sample_sha sample_config = Ret (a, t, ups) ∧
    app_ok a ∧ fresh t.
Proof.
  destruct (start_up_well_formed sample_eal sample_names (λ _, true) (λ _, true) sample_random sample_sha
    (λ _, eq_refl) sample_random_ok sample_sha_ok sample_config 0 [1] sample_runnable) as (a & t & ups & H & Hb).
  exists a, t, ups. split; [exact H|]. split; [exact (bo_app _ _ _ _ _ Hb)|exact (bo_fresh _ _ _ _ _ Hb)].
Defined.

(** On the sample machine each port has a queue per enabled core, but only the
    core of its own socket polls: queue 1 of every port is never read, although
    the device spreads the flows over both. *)
Lemma other_socket_queue_unpolled :
  ∃ a t ups port, run sample_eal sample_names (λ _, true) (λ _, true) sample_random sample_sha sample_config = Ret (a, t, ups) ∧
    (0, port) ∈ ups ∧ rx_queues (port_setup port) = 2 ∧ rss_enabled (port_setup port) = true ∧
    ∀ lcore, rx_queue port lcore ≠ Some 1.
Proof.
  destruct (run sample_eal sample_names (λ _, true) (λ _, true) sample_random sample_sha sample_config) as [[[a t] ups]|] eqn:E;
    [|vm_compute in E; discriminate E].
  assert (∃ port, head ups = Some (0, port) ∧ Port_new (port_setup port) (port_info port) [0] 0 = Ret port ∧
    rx_queues (port_setup port) = 2 ∧ rss_enabled (port_setup port) = true) as (port & Hh & Hp & H2 & Hr).
  { vm_compute in E. injection E as <- <- <-. eexists. split; [reflexivity|]. vm_compute. by split_and!. }
  exists a, t, ups, port. split_and!; [done| |done|done|].
  - destruct ups; [done|]. injection Hh as ->. by left.
  - intros lcore. eapply unpolled_queue; [exact Hp|done|]. rewrite H2. cbn. lia.
Qed.
