(* ===== verification/Status.v ===== *)
(** * Printing ([status] methods, [Display] implementations, [log_all_ports])

    A sink is a state with the outcome of [write_str]; [?] stops at the first
    piece that it refuses.  The pieces of a format string are its literal parts
    and the texts of its arguments.  The order in which a map is listed is a
    parameter. *)

From stdpp Require Import pretty.
From S2P Require Import Prelude Ethernet SourceNat Neighbor Conntrack AddrPool Fdb Leases DhcpServer DhcpClient NetUtil PortPlan.
#[local] Open Scope string_scope.

(** ** [core::fmt] *)

Definition newline : string := String (Ascii.ascii_of_nat 10) EmptyString.
(** [{:02x?}] of a byte array. *)
Definition debug_hex (b : bytes) : string := "[" +:+ String.concat ", " (hex2 <$> b) +:+ "]".
(** [{:016x}] *)
Definition hex16 (x : Z) : string := String.concat "" ((λ i, hex_digit (Z.land (Z.shiftr x (4 * Z.of_nat i)) 15)) <$> reverse (seq 0 16)).
Definition show_bool (b : bool) : string := if b then "true" else "false".

Section fmt.
Context {W : Type} (write_str : W → string → W * bool).

(** A computation that writes and may fail ([fmt::Result]). *)
Abbreviation Fmt := (W → W * bool).
Definition fmt_ok : Fmt := λ w, (w, true).
Definition andq (p q : Fmt) : Fmt := λ w, let '(w, ok) := p w in if ok : bool then q w else (w, false).
#[local] Infix ";?" := andq (at level 60, right associativity).
Fixpoint write_fmt (pieces : list string) : Fmt :=
  match pieces with
  | [] => fmt_ok
  | s :: pieces => (λ w, write_str w s) ;? write_fmt pieces
  end.
Definition writeln (pieces : list string) : Fmt := write_fmt (pieces ++ [newline]).
Fixpoint each_line {A} (f : A → Fmt) (l : list A) : Fmt :=
  match l with [] => fmt_ok | x :: l => f x ;? each_line f l end.
Definition if_some {A} (o : option A) (f : A → Fmt) : Fmt := match o with Some x => f x | None => fmt_ok end.

(** ** Hardware addresses and ticks ([src/net/ethernet.rs], [src/router/neighbor.rs]) *)

(** The six fields of [{:02x}:...]. *)
Definition mac_pieces (mac : MacAddr) : list string :=
  match mac with
  | [a; b; c; d; e; f] => [hex2 a; ":"; hex2 b; ":"; hex2 c; ":"; hex2 d; ":"; hex2 e; ":"; hex2 f]
  | _ => []
  end.
Definition mac_fmt (mac : MacAddr) : Fmt := write_fmt (mac_pieces mac).
Definition display_mac (mac : MacAddr) : string := String.concat "" (mac_pieces mac).
Definition tick_fmt (t : Tick) : Fmt := write_fmt [pretty t; " ms"].
Definition debug_tick (t : Tick) : string := "Tick(" +:+ pretty t +:+ ")".

(** ** Tables *)

Definition fdb_status (entries : list (MacAddr * Z)) : Fmt :=
  writeln ["FDB entries:"] ;?
  each_line (λ e, writeln ["  "; display_mac e.1; " → port "; pretty e.2]) entries ;?
  fmt_ok.

Definition leases_status (entries : list (MacAddr * Ipv4Addr)) : Fmt :=
  writeln ["  Leases:"] ;?
  each_line (λ e, writeln ["    "; debug_hex e.1; " → "; ipv4_to_string e.2]) entries ;?
  fmt_ok.

Definition pool_status (p : AddressPool) : Fmt :=
  writeln ["  Address pool:"] ;?
  each_line (λ e, writeln ["    "; ipv4_to_string e.1; " - "; ipv4_to_string e.2]) (intervals p) ;?
  fmt_ok.

Definition server_status (cfg : DhcpServerConfig) (entries : list (MacAddr * Ipv4Addr)) (p : AddressPool) : Fmt :=
  writeln ["DHCP server at "; ipv4_to_string (server_ip cfg); ":"] ;?
  leases_status entries ;?
  pool_status p ;?
  fmt_ok.

Definition debug_state (s : ClientState) : string :=
  match s with DhcpClient.Init => "Init" | Selecting => "Selecting" | Requesting => "Requesting" | Bound => "Bound" end.
Definition client_status (c : DhcpClient) : Fmt :=
  writeln ["DHCP client with MAC "; debug_hex (mac c); ":"] ;?
  writeln ["  State: "; debug_state (state c)] ;?
  if_some (lease c) (λ l,
    writeln ["  Lease:"] ;?
    writeln ["    IP: "; ipv4_to_string (ip l)] ;?
    if_some (lease_subnet_mask l) (λ mask, writeln ["    Subnet mask: "; ipv4_to_string mask]) ;?
    if_some (lease_gateway l) (λ gw, writeln ["    Gateway: "; ipv4_to_string gw]) ;?
    if_some (lease_server_id l) (λ sid, writeln ["    Server ID: "; ipv4_to_string sid]) ;?
    if_some (lease_time l) (λ secs, writeln ["    Lease time: "; pretty secs; " seconds"])) ;?
  fmt_ok.

Definition debug_tcp_state (s : TcpState) : string :=
  match s with
  | Closed => "Closed" | Listen => "Listen" | SynSent => "SynSent" | SynReceived => "SynReceived"
  | Established => "Established" | FinWait1 => "FinWait1" | FinWait2 => "FinWait2" | CloseWait => "CloseWait"
  | Closing => "Closing" | LastAck => "LastAck" | TimeWait => "TimeWait"
  end.
Definition conntrack_status (entries : list (FlowKey * Conn)) : Fmt :=
  writeln ["ConnTrack:"] ;?
  each_line (λ e, let '(key, conn) := e in
    writeln ["  "; ipv4_to_string (int_ip key); ":"; pretty (int_port key); " ↔ "; ipv4_to_string (ext_ip key); ":";
             pretty (ext_port key); " → ("; debug_tcp_state (internal conn); ", "; debug_tcp_state (external conn);
             ") @ "; pretty (last_seen conn); " ms"]) entries ;?
  fmt_ok.

Definition neighbor_status {P} (our_mac : MacAddr) (our_ip : Ipv4Addr) (cache : list (Ipv4Addr * CachedEntry))
    (pending : list (Ipv4Addr * Pending P)) : Fmt :=
  writeln ["ARP:"] ;?
  writeln (["  our_mac: "] ++ mac_pieces our_mac ++ [", our_ip: "; ipv4_to_string our_ip]) ;?
  writeln ["  cache:"] ;?
  each_line (λ e, writeln (["    "; ipv4_to_string e.1; " -> "] ++ mac_pieces (Neighbor.mac e.2) ++
                           [" (learned at "; debug_tick (learned_at e.2); ")"])) cache ;?
  writeln ["  pending:"] ;?
  each_line (λ e, writeln ["    "; ipv4_to_string e.1; ": "; pretty (length (packets e.2)); " packets, last request at ";
                           debug_tick (last_request_at e.2); ", attempts "; pretty (attempts e.2)]) pending ;?
  writeln ["}"].

(** ** Ports ([src/dpdk/port.rs]) *)

Definition TX_MULTI_SEGS : Z := Z.shiftl 1 15.

Definition port_error_fmt (e : PortError) : Fmt :=
  match e with
  | ErrConfigure e => write_fmt ["port configure failed: "; pretty e]
  | ErrRxQueueSetup queue err => write_fmt ["RX queue "; pretty queue; " setup failed: "; pretty err]
  | ErrTxQueueSetup queue err => write_fmt ["TX queue "; pretty queue; " setup failed: "; pretty err]
  | ErrStart e => write_fmt ["port start failed: "; pretty e]
  | ErrPromiscuous e => write_fmt ["promiscuous enable failed: "; pretty e]
  | ErrInfo e => write_fmt ["rte_eth_dev_info_get failed: "; pretty e]
  end.

Definition has_bit (capa bit : Z) : string := show_bool (negb (Z.land capa bit =? 0)%Z).
Definition port_info_fmt (i : PortInfo) : Fmt :=
  writeln ["port "; pretty (info_port_id i); " ("; driver_name i; ")"] ;?
  writeln ["  socket_id        : "; pretty (socket_id i)] ;?
  writeln ["  queues           : "; pretty (max_rx_queues i); " rx / "; pretty (max_tx_queues i); " tx (max)"] ;?
  writeln ["  max_rx_pktlen    : "; pretty (max_rx_pktlen i)] ;?
  writeln ["  max_mac_addrs    : "; pretty (max_mac_addrs i)] ;?
  writeln ["  rss              : "; if rss_usable i then "usable" else "unusable"; " (reta="; pretty (reta_size i);
           ", key="; pretty (hash_key_size i); " bytes, types=0x"; hex16 (flow_type_rss_offloads i); ")"] ;?
  writeln ["  tx cksum offload : ipv4="; has_bit (tx_offload_capa i) TX_IPV4_CKSUM;
           " udp="; has_bit (tx_offload_capa i) TX_UDP_CKSUM; " tcp="; has_bit (tx_offload_capa i) TX_TCP_CKSUM;
           " multiseg="; has_bit (tx_offload_capa i) TX_MULTI_SEGS] ;?
  write_fmt ["  rx cksum offload : ipv4="; has_bit (rx_offload_capa i) RX_IPV4_CKSUM;
             " udp="; has_bit (rx_offload_capa i) RX_UDP_CKSUM; " tcp="; has_bit (rx_offload_capa i) RX_TCP_CKSUM].

(** [println!] of a port or of the error; one that fails panics. *)
Definition log_port (eal : Eal) (p : Z) : Fmt :=
  match PortPlan.info eal p with
  | inr i => port_info_fmt i ;? write_fmt [newline]
  | inl e => write_fmt ["port "; pretty p; ": "] ;? port_error_fmt e ;? write_fmt [newline]
  end.
Definition log_all_ports (eal : Eal) : Fmt :=
  let ports := all_ports eal in
  if bool_decide (ports = []) then writeln ["no DPDK ethernet ports found"] else each_line (log_port eal) ports.

(** ** What is printed *)

(** A computation that writes the pieces of a text. *)
Definition prints (p : Fmt) (text : list string) : Prop := ∀ w, p w = write_fmt text w.

Lemma write_fmt_app s t w : write_fmt (s ++ t) w = (write_fmt s ;? write_fmt t) w.
Proof.
  revert w. induction s as [|x s IH]; intros w; cbn [app write_fmt]; [done|]. unfold andq at 1 2 3.
  destruct (write_str w x) as [w' []]; [|done]. rewrite IH. unfold andq. done.
Qed.
Lemma prints_fmt s : prints (write_fmt s) s.
Proof. done. Qed.
Lemma prints_ok : prints fmt_ok [].
Proof. done. Qed.
Lemma prints_andq p q s t : prints p s → prints q t → prints (p ;? q) (s ++ t).
Proof. intros Hp Hq w. rewrite write_fmt_app. unfold andq. rewrite Hp. by destruct (write_fmt s w) as [w' []]. Qed.
Lemma prints_each {A} (f : A → Fmt) (text : A → list string) l :
  (∀ x, prints (f x) (text x)) → prints (each_line f l) (l ≫= text).
Proof. intros Hf. induction l as [|x l IH]; [done|]. cbn [each_line]. by apply prints_andq. Qed.
Lemma prints_if_some {A} (f : A → Fmt) (text : A → list string) o :
  (∀ x, prints (f x) (text x)) → prints (if_some o f) (match o with Some x => text x | None => [] end).
Proof. intros Hf. destruct o; [apply Hf|done]. Qed.
Lemma prints_nil_r p s : prints p s → prints (p ;? fmt_ok) s.
Proof. intros Hp. rewrite <- (app_nil_r s). by apply prints_andq. Qed.

(** The lines of the tables. *)
Definition lease_line (e : MacAddr * Ipv4Addr) : list string :=
  ["    "; debug_hex e.1; " → "; ipv4_to_string e.2; newline].
Definition interval_line (e : Ipv4Addr * Ipv4Addr) : list string :=
  ["    "; ipv4_to_string e.1; " - "; ipv4_to_string e.2; newline].
Definition fdb_line (e : MacAddr * Z) : list string := ["  "; display_mac e.1; " → port "; pretty e.2; newline].

Lemma leases_status_prints l : prints (leases_status l) (["  Leases:"; newline] ++ (l ≫= lease_line)).
Proof. apply prints_andq; [done|]. apply prints_nil_r, prints_each. done. Qed.
Lemma pool_status_prints p : prints (pool_status p) (["  Address pool:"; newline] ++ (intervals p ≫= interval_line)).
Proof. apply prints_andq; [done|]. apply prints_nil_r, prints_each. done. Qed.
Lemma fdb_status_prints l : prints (fdb_status l) (["FDB entries:"; newline] ++ (l ≫= fdb_line)).
Proof. apply prints_andq; [done|]. apply prints_nil_r, prints_each. done. Qed.
(** The server's status is its address, then the leases, then the free intervals. *)
Lemma server_status_prints cfg l p :
  prints (server_status cfg l p)
    (["DHCP server at "; ipv4_to_string (server_ip cfg); ":"; newline] ++
     (["  Leases:"; newline] ++ (l ≫= lease_line)) ++ (["  Address pool:"; newline] ++ (intervals p ≫= interval_line))).
Proof.
  apply prints_andq; [done|]. apply prints_andq; [apply leases_status_prints|]. apply prints_nil_r, pool_status_prints.
Qed.
(** An empty table: the report closes a brace that it does not open. *)
Lemma neighbor_status_prints {P} m ip :
  prints (neighbor_status (P := P) m ip [] [])
    (["ARP:"; newline] ++ (["  our_mac: "] ++ mac_pieces m ++ [", our_ip: "; ipv4_to_string ip] ++ [newline]) ++
     ["  cache:"; newline] ++ ["  pending:"; newline] ++ ["}"; newline]).
Proof.
  apply prints_andq; [done|]. apply prints_andq; [intros w; unfold writeln; by rewrite !(assoc_L (++))|].
  apply prints_andq; [done|]. apply (prints_andq _ _ [] _ prints_ok).
  apply (prints_andq _ _ ["  pending:"; newline] ["}"; newline]); [done|]. by apply (prints_andq _ _ [] _ prints_ok).
Qed.
(** Every port is listed, in order, with its capabilities or its error. *)
Lemma log_all_ports_each eal :
  all_ports eal ≠ [] → log_all_ports eal = each_line (log_port eal) (all_ports eal).
Proof. intros H. unfold log_all_ports. by rewrite bool_decide_false. Qed.
End fmt.

(** The three ways in which the source prints a hardware address agree. *)
Lemma display_mac_format m : length m = 6%nat → display_mac m = format_mac m.
Proof. intros Hm. explode_list m. unfold display_mac, format_mac. cbn [mac_pieces String.concat]. done. Qed.

(** ** Sinks that run full *)

Section limited.
(** A sink with room for [n] pieces. *)
Definition limited (n : nat) (w : list string) (s : string) : list string * bool :=
  if bool_decide (length w < n)%nat then ((w ++ [s])%list, true) else (w, false).

(** The text is cut where the sink refuses, and the error is reported. *)
Lemma write_fmt_limited n text w :
  (length w ≤ n)%nat →
  write_fmt (limited n) text w = ((w ++ firstn (n - length w) text)%list, bool_decide (length w + length text ≤ n)%nat).
Proof.
  revert w. induction text as [|s text IH]; intros w Hw; cbn [write_fmt].
  { rewrite take_nil, app_nil_r, bool_decide_true; [done|cbn; lia]. }
  unfold andq, limited at 1. case_bool_decide as Hr.
  - rewrite IH by (rewrite length_app; cbn; lia). rewrite length_app, <- app_assoc. cbn [length].
    replace (n - length w)%nat with (S (n - (length w + 1)))%nat by lia. cbn [firstn app].
    f_equal. apply bool_decide_ext. lia.
  - replace (n - length w)%nat with 0%nat by lia. rewrite take_0, app_nil_r, bool_decide_false; [done|cbn; lia].
Qed.
Lemma prints_limited n p text :
  prints (limited n) p text → p [] = (firstn n text, bool_decide (length text ≤ n)%nat).
Proof. intros Hp. rewrite Hp, write_fmt_limited by (cbn; lia). cbn [length app]. by rewrite Nat.sub_0_r. Qed.
End limited.

(** The status of a DHCP server, for any order in which the lease table is
    traversed and any sink: what the sink receives is the server's address, then
    one line per lease (each binding of the table once), then one line per free
    interval; a sink that runs full receives as much of it as it takes and
    nothing after that, and the call fails exactly then. *)
Theorem server_status_lists_leases (iter : gmap MacAddr Ipv4Addr → list (MacAddr * Ipv4Addr))
    (Hiter : ∀ m, iter m ≡ₚ map_to_list m) (cfg : DhcpServerConfig) (l : LeaseTable) (p : AddressPool) (n : nat) :
  ∃ lines, lines ≡ₚ lease_line <$> map_to_list (by_mac l) ∧
    let text := (["DHCP server at "; ipv4_to_string (server_ip cfg); ":"; newline; "  Leases:"; newline] ++ concat lines ++
                ["  Address pool:"; newline] ++ (intervals p ≫= interval_line))%list in
    server_status (limited n) cfg (iter (by_mac l)) p [] = (firstn n text, bool_decide (length text ≤ n)%nat).
Proof.
  exists (lease_line <$> iter (by_mac l)). split; [by rewrite Hiter|]. cbn zeta. apply prints_limited.
  pose proof (server_status_prints (limited n) cfg (iter (by_mac l)) p) as H. rewrite <- !app_assoc in H. cbn [app] in *.
  assert (∀ k : list (MacAddr * Ipv4Addr), concat (lease_line <$> k) = k ≫= lease_line) as ->; [|exact H].
  intros k. induction k as [|e k IH]; [done|]. cbn [fmap list_fmap concat]. by rewrite IH.
Qed.
Lemma server_status_lists_leases_witness :
  ∃ lines, lines ≡ₚ lease_line <$> map_to_list (by_mac (insert_ default_ [2; 0; 0; 0; 0; 16] (ip4 192 168 0 10))) ∧
    (server_status (limited 9) DhcpServer.Sample.config
      (map_to_list (by_mac (insert_ default_ [2; 0; 0; 0; 0; 16] (ip4 192 168 0 10))))
      {| start := 5; end_ := 9; intervals := [(5, 9)] |} []).2 = false.
Proof.
  destruct (server_status_lists_leases map_to_list (λ _, Permutation_refl _) DhcpServer.Sample.config
    (insert_ default_ [2; 0; 0; 0; 0; 16] (ip4 192 168 0 10)) {| start := 5; end_ := 9; intervals := [(5, 9)] |} 9)
    as (lines & Hp & E).
  exists lines. split; [exact Hp|]. vm_compute. reflexivity.
Defined.
