(* ===== verification/Boot.v ===== *)
(** * The program from its environment on ([src/main.rs], [examples/probe.rs])

    What [main] reads from the process before [run] of [Main]: the name of the
    configuration file, its contents, and the arguments it hands to the driver
    library; and the router that results, under every schedule of its workers.
    The file system, the deserialisation library and the driver library are
    parameters. *)

From S2P Require Import Prelude View DhcpFrame SourceNat Neighbor Conntrack Frame Worker App Datapath Firewall Workers Steps Concurrent PortPlan Main Status.
#[local] Open Scope string_scope.

(** ** The process *)

(** An argument that is not Unicode is [None]; opening and reading a file fail
    separately. *)
Record Process := {
  env_var : string → option string;
  args : list (option string);
  open_file : string → option (option bytes);
  toml_from_slice : bytes → option RouterConfig;
  rte_eal_init : list string → Z;
}.

Section boot.
Context (proc : Process).

(** [std::env::args] panics on an argument that is not Unicode. *)
Definition argv : outcome (list string) :=
  collect (λ a, a ← expect a; expect (CString_new a)) (args proc).

Definition eal_init : outcome unit :=
  argv ← argv;
  assert_ (0 <=? rte_eal_init proc argv)%Z.

Definition read_config : outcome RouterConfig :=
  let path := default "router.conf" (env_var proc "CONFIG_FILE") in
  file ← expect (open_file proc path);
  data ← expect file;
  expect (toml_from_slice proc data).

Context (eal : Eal) (by_name : string → option Z) (enabled : Z → bool) (mempool_create : Z → bool)
  (random : Z → Datatypes.nat → Datatypes.nat) (sha256 : bytes → bytes).

Definition start : outcome (AppCtx * Tables * list (Z * PortPlan.Port)) :=
  config ← read_config;
  _ ← eal_init;
  Main.run eal by_name enabled mempool_create random sha256 config.

(** [main]; without the [dpdk] feature it only prints a line. *)
Definition main (dpdk : bool) : option (outcome (AppCtx * Tables * list (Z * PortPlan.Port))) :=
  if dpdk then Some start else None.

(** The probe: the ports are printed to the standard output, whose failure
    panics, and the library is shut down. *)
Definition probe {W} (write_str : W → string → W * bool) (w : W) : outcome W :=
  argv ← argv;
  _ ← (if (rte_eal_init proc argv <? 0)%Z then Panic else mret ());
  let '(w, ok) := log_all_ports write_str eal w in
  _ ← assert_ ok;
  mret w.

(** ** Lemmas *)

(** The environment gives a configuration, and the library accepts the arguments. *)
Record env_ok (c : RouterConfig) : Prop := {
  ev_config : read_config = Ret c;
  ev_eal : eal_init = Ret ();
}.

Lemma collect_Ret {A B} (f : A → outcome B) l ys :
  collect f l = Ret ys ↔ Forall2 (λ x y, f x = Ret y) l ys.
Proof.
  revert ys. induction l as [|x l IH]; intros ys; cbn [collect].
  - split; [by intros [= <-]; constructor|by inversion 1].
  - destruct (f x) as [y|] eqn:E; cbn [mbind outcome_bind].
    + destruct (collect f l) as [zs|]; cbn [mbind outcome_bind mret outcome_ret].
      * split; [intros [= <-]; constructor; [done|by apply IH]|].
        inversion 1 as [|? y' ? ys' Hy Hys]; subst. apply IH in Hys. injection Hys as ->. rewrite E in Hy. by injection Hy as ->.
      * split; [done|]. inversion 1 as [|? y' ? ys' Hy Hys]; subst. by apply IH in Hys.
    + split; [done|]. inversion 1; congruence.
Qed.

Lemma start_env c : env_ok c → start = Main.run eal by_name enabled mempool_create random sha256 c.
Proof. intros [H1 H2]. unfold start. rewrite H1. cbn [mbind outcome_bind]. by rewrite H2. Qed.

(** Without a readable and valid file, with an argument that cannot be passed
    on, or when the library fails, the program stops before any device is used. *)
Lemma start_fails :
  read_config = Panic ∨ (∃ c, read_config = Ret c) ∧ eal_init = Panic → start = Panic.
Proof. unfold start. intros [->|[[c ->] H]]; [done|]. cbn [mbind outcome_bind]. by rewrite H. Qed.

Lemma eal_init_ok : eal_init = Ret () ↔ ∃ strs, args proc = Some <$> strs ∧ Forall (λ s, CString_new s = Some s) strs ∧
  (0 <= rte_eal_init proc strs)%Z.
Proof.
  assert (∀ a s, (a ← expect a; expect (CString_new a)) = Ret s ↔ a = Some s ∧ CString_new s = Some s) as Harg.
  { intros [a|] s; cbn [expect mbind outcome_bind]; [|naive_solver]. unfold CString_new. destruct (existsb _ _) eqn:E; cbn [expect].
    - split; [done|]. intros [[= ->] H]. by rewrite E in H.
    - split; [intros [= ->]; by rewrite E|by intros [[= ->] _]]. }
  assert (∀ l strs, collect (λ a, a ← expect a; expect (CString_new a)) l = Ret strs ↔
    l = Some <$> strs ∧ Forall (λ s, CString_new s = Some s) strs) as Hall.
  { intros l strs. rewrite collect_Ret. split.
    - intros H. induction H as [|x y l ys Hx _ [-> IH]]; [done|]. apply Harg in Hx as [-> Hx]. split; [done|]. by constructor.
    - intros [-> H]. induction H as [|s strs Hs _ IH]; [constructor|]. cbn. constructor; [by apply Harg|done]. }
  unfold eal_init, argv. destruct (collect _ (args proc)) as [strs|] eqn:E; cbn [mbind outcome_bind].
  - pose proof E as E'. apply Hall in E' as [Ea Hs]. destruct (Z.leb_spec 0 (rte_eal_init proc strs)); cbn [assert_].
    + split; [intros _; by exists strs|done].
    + split; [done|]. intros (strs' & Ea' & _ & Hr). rewrite Ea in Ea'. apply (inj (fmap Some)) in Ea' as ->. lia.
  - split; [done|]. intros (strs & Ea & Hs & _). assert (collect (λ a, a ← expect a; expect (CString_new a)) (args proc) = Ret strs) as E2
      by (by apply Hall). congruence.
Qed.
End boot.

(** ** The router that results *)

(** What the ports and the clock of the router give its workers. *)
Definition arrives (a : AppCtx) (w : WanPortCtx) (e : Firewall.event) : Prop :=
  match e with
  | LanFrame _ lan m scratch => lan ∈ lan_ports a ∧ slice_ok m ∧ length scratch = FRAME_MAX
  | WanFrame _ w' m => w' = w ∧ Forall u8 m
  | WanControl w' _ => w' = w
  | Sweeping _ => True
  end.
(** The hosts of the LAN keep the addresses that [home] gives them. *)
Definition settled (home : MacAddr → option Ipv4Addr) (e : Firewall.event) : Prop :=
  match e with LanFrame _ _ m _ => ∀ pkt, arp_of m = Some pkt → truthful home pkt | _ => True end.

Lemma arrives_allowed c wan_id lan_ids a t w steady home e :
  booted c wan_id lan_ids a t → arrives a w e → (steady = true → settled home e) → allowed w steady home e.
Proof.
  intros Hb He Hs. destruct e as [now lan m scratch|now w' m|w' scratch|now]; [|done..].
  destruct He as (Hlan & Hm & Hl).
  destruct (proj1 (List.Forall_forall _ _) (bo_lan_ok _ _ _ _ _ Hb) lan (proj1 (list_elem_of_In _ _) Hlan)) as [Hok [Hmac _]].
  by split_and!.
Qed.
Lemma arrives_all c wan_id lan_ids a t w steady home es :
  booted c wan_id lan_ids a t → Forall (arrives a w) es → (steady = true → Forall (settled home) es) →
  Forall (allowed w steady home) es.
Proof.
  intros Hb He Hs. apply List.Forall_forall. intros e Hin. eapply arrives_allowed; [done|by eapply List.Forall_forall in He|].
  intros Hst. specialize (Hs Hst). by eapply List.Forall_forall in Hs.
Qed.

(** What a router may hand to a LAN port. *)
Definition lan_output_ok (a : AppCtx) (w : WanPortCtx) (h : list Firewall.event) (e : option Firewall.event) (o : Tx) : Prop :=
  is_arp_frame (tx_frame o) ∨
  (∃ now lan m scratch, e = Some (LanFrame now lan m scratch) ∧
     (tx_frame o = m ∨ tx_port o = port_id (lan_port_of lan) ∧ ∃ v, with_dhcp m = Ret (Some v))) ∨
  admitted a w h (tx_frame o).

Lemma booted_run c wan_id lan_ids a t w steady home iter workers acts :
  booted c wan_id lan_ids a t → wan_port a = Some w → (∀ m, iter m ≡ₚ map_to_list m) →
  Forall (arrives a w) (starts acts) → (steady = true → Forall (settled home) (starts acts)) →
  match Workers.run (event_steps iter a) (start_config t workers) acts with
  | Ret c' => Forall (λ x, may_send a w x.1 (Workers.history c') x.2) (outputs c')
  | Panic => steady = false
  end.
Proof.
  intros Hb Hw Hiter Hacts Hs. pose proof (tw_dhcp _ (fr_wf _ (bo_fresh _ _ _ _ _ Hb))) as Hd.
  pose proof (concurrent_run iter a w steady home (AddrPool.start (lan_pool t), AddrPool.end_ (lan_pool t)) Hiter Hw
    (bo_app _ _ _ _ _ Hb)) as H. specialize (H ltac:(intros lan Hlan;
      apply (proj1 (List.Forall_forall _ _) (bo_lan_ok _ _ _ _ _ Hb) lan (proj1 (list_elem_of_In _ _) Hlan)))
    (DhcpServer.sw_low _ _ Hd) (DhcpServer.sw_high _ _ Hd) t workers acts (bo_fresh _ _ _ _ _ Hb) eq_refl).
  specialize (H (arrives_all _ _ _ _ _ _ steady home _ Hb Hacts Hs)).
  destruct (Workers.run _ _ _); [apply H|done].
Qed.

(** C3: the router from its configuration file to its frames: if the file that
    the environment names holds a valid configuration, the driver library starts
    and the named devices answer, then the program comes up, and for any number
    of workers, any frames on its ports and any interleaving: whatever is handed
    to a LAN port is an ARP frame, a frame of a LAN host (or the DHCP reply to
    it), or a TCP segment from the far end of a connection which the addressed
    LAN endpoint opened; and if the hosts of the LAN keep their addresses, no
    worker panics. *)
Theorem booted_router_is_firewall (proc : Process) (eal : Eal) (by_name : string → option Z) (enabled : Z → bool)
    (mempool_create : Z → bool) (random : Z → Datatypes.nat → Datatypes.nat) (sha256 : bytes → bytes)
    (c : RouterConfig) (wan_id : Z) (lan_ids : list Z)
    (Hpools : ∀ socket, mempool_create socket = true) (Hrandom : ∀ p n, (0 < n)%nat → (random p n < n)%nat)
    (Hsha : ∀ b, length (sha256 b) = 32%nat ∧ Forall u8 (sha256 b))
    (Henv : env_ok proc c) (Hrun : runnable eal by_name enabled c wan_id lan_ids) :
  ∃ a t ups w, start proc eal by_name enabled mempool_create random sha256 = Ret (a, t, ups) ∧ wan_port a = Some w ∧
    ∀ iter workers acts, (∀ m, iter m ≡ₚ map_to_list m) → Forall (arrives a w) (starts acts) →
      (∀ c', Workers.run (event_steps iter a) (start_config t workers) acts = Ret c' →
         Forall (λ x, tx_port x.2 ∈ lan_ids → lan_output_ok a w (Workers.history c') x.1 x.2) (outputs c')) ∧
      (∀ home, Forall (settled home) (starts acts) →
         ∃ c', Workers.run (event_steps iter a) (start_config t workers) acts = Ret c').
Proof.
  destruct (run_booted eal by_name enabled mempool_create random sha256 Hpools Hrandom Hsha c wan_id lan_ids Hrun)
    as (a & t & ups & E & Hb). destruct (bo_wan _ _ _ _ _ Hb) as (w & Hw & Hid & _).
  exists a, t, ups, w. split; [by rewrite (start_env _ _ _ _ _ _ _ _ Henv)|]. split; [done|].
  intros iter workers acts Hiter Hacts. split.
  - intros c' Ec. pose proof (booted_run _ _ _ _ _ _ false (λ _, None) iter workers acts Hb Hw Hiter Hacts) as H.
    rewrite Ec in H. eapply List.Forall_impl; [|exact (H ltac:(done))]. cbn beta. intros [e o] [Hp|Ho] Hlan; [|done].
    cbn [fst snd] in *. exfalso. apply (ru_wan _ _ _ _ _ _ Hrun). by rewrite <- Hid, <- Hp.
  - intros home Hs. pose proof (booted_run _ _ _ _ _ _ true home iter workers acts Hb Hw Hiter Hacts (λ _, Hs)) as H.
    destruct (Workers.run _ _ _) as [c'|]; [by exists c'|done].
Qed.

(** ** A sample process *)

Definition sample_process : Process := {|
  env_var v := if bool_decide (v = "CONFIG_FILE") then Some "lab.conf" else None;
  args := [Some "router"; Some "-l"; Some "0-1"];
  open_file f := if bool_decide (f = "lab.conf") then Some (Some [1; 2; 3]%Z) else None;
  toml_from_slice b := if bool_decide (b = [1; 2; 3]%Z) then Some sample_config else None;
  rte_eal_init argv := Z.of_nat (length argv) |}.
Lemma sample_env : env_ok sample_process sample_config.
Proof. by split. Qed.

Lemma booted_router_is_firewall_witness :
  ∃ a t ups w, start sample_process sample_eal sample_names (λ _, true) (λ _, true) sample_random sample_sha = Ret (a, t, ups) ∧
    wan_port a = Some w ∧
    ∀ c', Workers.run (event_steps map_to_list a) (start_config t 2) [Workers.Start 0 (Sweeping 7); Advance 0; Advance 0] = Ret c' →
      Forall (λ x, tx_port x.2 ∈ [1]%Z → lan_output_ok a w (Workers.history c') x.1 x.2) (outputs c').
Proof.
  destruct (booted_router_is_firewall sample_process sample_eal sample_names (λ _, true) (λ _, true) sample_random sample_sha
    sample_config 0 [1]%Z (λ _, eq_refl) sample_random_ok sample_sha_ok sample_env sample_runnable) as (a & t & ups & w & E & Hw & H).
  exists a, t, ups, w. split; [exact E|]. split; [exact Hw|]. intros c' Ec.
  destruct (H map_to_list 2%nat [Workers.Start 0 (Sweeping 7); Advance 0; Advance 0] (λ _, Permutation_refl _)
    ltac:(repeat constructor)) as [Hout _]. exact (Hout c' Ec).
Defined.

(** Without the file, or with an argument that holds a NUL, the program stops. *)
Lemma missing_file_stops p eal names en mp r sha :
  open_file p (default "router.conf" (env_var p "CONFIG_FILE")) = None → start p eal names en mp r sha = Panic.
Proof. intros H. unfold start, read_config. by rewrite H. Qed.
