(* ===== verification/BuildSize.v ===== *)
(** * The heap size of the build ([build.rs], [src/generated.rs])

    [parse_size] turns the text of an environment variable into the size of the
    allocator's arena.  A [str] is its list of code points.  The multiplication
    panics in a build with overflow checks and wraps in one without. *)

From S2P Require Import Prelude.

Definition chars (s : string) : list Z := (λ c, Z.of_N (Ascii.N_of_ascii c)) <$> String.list_ascii_of_string s.

(** ** Standard library: [char::is_whitespace], [trim], [strip_suffix], [usize::from_str] *)

Definition is_whitespace (c : Z) : bool :=
  (9 <=? c) && (c <=? 13) || (c =? 32) || (c =? 0x85) || (c =? 0xA0) || (c =? 0x1680) ||
  (0x2000 <=? c) && (c <=? 0x200A) || (c =? 0x2028) || (c =? 0x2029) || (c =? 0x202F) || (c =? 0x205F) || (c =? 0x3000).

Fixpoint trim_start (s : list Z) : list Z :=
  match s with [] => [] | c :: s' => if is_whitespace c then trim_start s' else s end.
Definition trim (s : list Z) : list Z := reverse (trim_start (reverse (trim_start s))).

Fixpoint strip_prefix (p s : list Z) : option (list Z) :=
  match p, s with
  | [], _ => Some s
  | c :: p, c' :: s => if c =? c' then strip_prefix p s else None
  | _ :: _, [] => None
  end.
Definition strip_suffix (s suffix : list Z) : option (list Z) := reverse <$> strip_prefix (reverse suffix) (reverse s).

Definition digit (c : Z) : option Z := if (48 <=? c) && (c <=? 57) then Some (c - 48) else None.
(** Each step checks the multiplication and the addition. *)
Fixpoint parse_digits (s : list Z) (acc : Z) : option Z :=
  match s with
  | [] => Some acc
  | c :: s => d ← digit c; if acc * 10 + d <? 2 ^ 64 then parse_digits s (acc * 10 + d) else None
  end.
Definition parse_usize (s : list Z) : option Z :=
  match s with
  | [] => None
  | c :: s' => if c =? 43 then (if bool_decide (s' = []) then None else parse_digits s' 0) else parse_digits s 0
  end.

(** ** [parse_size] *)

Definition units : list (list Z * Z) :=
  [(chars "KiB", 1024); (chars "MiB", 1024 ^ 2); (chars "GiB", 1024 ^ 3); (chars "TiB", 1024 ^ 4);
   (chars "KB", 1000); (chars "MB", 1000 ^ 2); (chars "GB", 1000 ^ 3); (chars "TB", 1000 ^ 4); (chars "B", 1)].

Section build.
Context (overflow_checks : bool).

Definition mul_usize (a b : Z) : outcome Z :=
  if a * b <? 2 ^ 64 then Ret (a * b) else if overflow_checks then Panic else Ret (a * b mod 2 ^ 64).

(** The loop over the units; [None] when no suffix fits. *)
Fixpoint try_units (us : list (list Z * Z)) (s : list Z) : option (outcome Z) :=
  match us with
  | [] => None
  | (suffix, multiplier) :: us =>
    match strip_suffix s suffix with
    | Some number => Some (value ← expect (parse_usize (trim number)); mul_usize value multiplier)
    | None => try_units us s
    end
  end.

Definition parse_size (input : list Z) : outcome Z :=
  let s := trim input in
  match try_units units s with
  | Some r => r
  | None => expect (parse_usize s)
  end.

(** ** Decimal numerals *)

Fixpoint digits_of (fuel : nat) (n : Z) : list Z :=
  match fuel with
  | O => []
  | S fuel => if n <? 10 then [48 + n] else digits_of fuel (n / 10) ++ [48 + n mod 10]
  end.
(** Twenty digits are enough for 64 bits. *)
Definition decimal (n : Z) : list Z := digits_of 20 n.

Lemma parse_digits_app s t acc :
  parse_digits (s ++ t) acc = (a ← parse_digits s acc; parse_digits t a).
Proof.
  revert acc. induction s as [|c s IH]; intros acc; [done|]. cbn. destruct (digit c) as [d|]; [|done]. cbn.
  case_match; [apply IH|done].
Qed.
Lemma digit_Some d : 0 ≤ d < 10 → digit (48 + d) = Some d.
Proof.
  intros Hd. unfold digit. rewrite (proj2 (Z.leb_le 48 _)), (proj2 (Z.leb_le _ 57)) by lia. cbn. f_equal. lia.
Qed.
Lemma parse_digits_of fuel n :
  0 ≤ n < 2 ^ 64 → n < 10 ^ Z.of_nat fuel → (0 < fuel)%nat → parse_digits (digits_of fuel n) 0 = Some n.
Proof.
  revert n. induction fuel as [|fuel IH]; intros n Hn Hf H0; [lia|]. cbn [digits_of].
  destruct (Z.ltb_spec n 10) as [Hlt|Hge].
  - cbn [parse_digits]. rewrite digit_Some by lia. cbn [mbind option_bind]. rewrite (proj2 (Z.ltb_lt _ _)) by lia. by rewrite Z.mul_0_l.
  - rewrite parse_digits_app. destruct fuel as [|fuel]; [lia|].
    rewrite IH; [|split; [apply Z.div_pos; lia|apply Z.div_lt_upper_bound; lia]| |lia].
    + cbn [mbind option_bind parse_digits]. pose proof (Z.mod_pos_bound n 10 ltac:(lia)). rewrite digit_Some by lia.
      cbn [mbind option_bind]. pose proof (Z.div_mod n 10 ltac:(lia)). replace (n / 10 * 10 + n mod 10) with n by lia.
      by rewrite (proj2 (Z.ltb_lt _ _)) by lia.
    + apply Z.div_lt_upper_bound; [lia|]. replace (10 * 10 ^ Z.of_nat (S fuel)) with (10 ^ Z.of_nat (S (S fuel))); [done|].
      rewrite (Nat2Z.inj_succ (S fuel)), Z.pow_succ_r by lia. done.
Qed.

(** Every character of a numeral is a digit, and there is one. *)
Lemma digits_are_digits fuel n : 0 ≤ n → Forall (λ c, 48 ≤ c ≤ 57) (digits_of fuel n).
Proof.
  revert n. induction fuel as [|fuel IH]; intros n Hn; cbn [digits_of]; [constructor|].
  destruct (Z.ltb_spec n 10); [constructor; [lia|constructor]|]. apply Forall_app_2; [apply IH, Z.div_pos; lia|].
  pose proof (Z.mod_pos_bound n 10 ltac:(lia)). constructor; [lia|constructor].
Qed.
Lemma decimal_nonempty n : decimal n ≠ [].
Proof. unfold decimal. cbn [digits_of]. case_match; [done|]. intros E. by apply app_eq_nil in E as [_ ?]. Qed.

Lemma parse_usize_decimal n : 0 ≤ n < 2 ^ 64 → parse_usize (decimal n) = Some n.
Proof.
  intros Hn. pose proof (digits_are_digits 20 n ltac:(lia)) as Hd. pose proof (decimal_nonempty n) as Hne.
  pose proof (parse_digits_of 20 n Hn ltac:(lia) ltac:(lia)) as Hp. unfold parse_usize, decimal in *.
  destruct (digits_of 20 n) as [|c s]; [done|]. apply Forall_cons_1 in Hd as [Hc _].
  by rewrite (proj2 (Z.eqb_neq c 43)) by lia.
Qed.

(** ** Trimming *)

Abbreviation blank ws := (Forall (λ c, is_whitespace c = true) ws).

Lemma whitespace_range c : is_whitespace c = true → c ≤ 32 ∨ 133 ≤ c.
Proof. unfold is_whitespace. rewrite !orb_true_iff, !andb_true_iff, !Z.leb_le, !Z.eqb_eq. lia. Qed.
Lemma solid_range c : 48 ≤ c ≤ 122 → is_whitespace c = false.
Proof. intros Hc. destruct (is_whitespace c) eqn:E; [|done]. apply whitespace_range in E. lia. Qed.

Lemma trim_start_blank ws s : blank ws → trim_start (ws ++ s) = trim_start s.
Proof. induction 1 as [|c ws Hc _ IH]; [done|]. cbn. by rewrite Hc. Qed.
Lemma trim_start_solid c s : is_whitespace c = false → trim_start (c :: s) = c :: s.
Proof. cbn. by intros ->. Qed.

(** What lies between the first and the last solid character is kept. *)
Lemma trim_between ws ws' c s c' :
  blank ws → blank ws' → is_whitespace c = false → is_whitespace c' = false →
  trim (ws ++ (c :: s ++ [c']) ++ ws') = c :: s ++ [c'].
Proof.
  intros Hws Hws' Hc Hc'. unfold trim. rewrite trim_start_blank by done. cbn [app]. rewrite trim_start_solid by done.
  replace (c :: (s ++ [c']) ++ ws') with ((c :: s) ++ [c'] ++ ws') by (cbn; by rewrite <- app_assoc).
  rewrite !reverse_app, reverse_singleton, <- app_assoc, trim_start_blank by (by apply Forall_reverse).
  cbn [app]. rewrite trim_start_solid by done. change (c' :: reverse (c :: s)) with ([c'] ++ reverse (c :: s)).
  by rewrite reverse_app, reverse_involutive, reverse_singleton.
Qed.
Lemma trim_single ws ws' c : blank ws → blank ws' → is_whitespace c = false → trim (ws ++ [c] ++ ws') = [c].
Proof.
  intros Hws Hws' Hc. unfold trim. rewrite trim_start_blank by done. cbn [app]. rewrite trim_start_solid by done.
  rewrite reverse_cons, trim_start_blank by (by apply Forall_reverse). by rewrite trim_start_solid.
Qed.
(** A text of solid characters is what is left of it in blanks. *)
Lemma trim_solid ws ws' s :
  blank ws → blank ws' → s ≠ [] → (∀ c, head s = Some c ∨ head (reverse s) = Some c → is_whitespace c = false) →
  trim (ws ++ s ++ ws') = s.
Proof.
  intros Hws Hws' Hne Hs. destruct s as [|c s]; [done|]. destruct s as [|c' s' _] using rev_ind.
  - apply trim_single; [done|done|]. apply Hs. by left.
  - apply trim_between; [done|done|apply Hs; by left|]. apply Hs. right. by rewrite app_comm_cons, reverse_app.
Qed.

(** ** Suffixes *)

(** No character of a suffix. *)
Definition no_letter (u : Z) : Prop := u ≤ 57 ∨ 133 ≤ u.

Lemma try_units_finds suffix k y u :
  (suffix, k) ∈ units → no_letter u →
  try_units units ((y ++ [u]) ++ suffix) =
    Some (value ← expect (parse_usize (trim (y ++ [u]))); mul_usize value k).
Proof.
  intros Hin Hu. assert (∀ c, 66 ≤ c ≤ 105 → (c =? u) = false) as Hc by (intros; apply Z.eqb_neq; unfold no_letter in Hu; lia).
  unfold units in *. cbn [try_units]. unfold strip_suffix. rewrite !reverse_app.
  assert (reverse (u :: reverse y) = y ++ [u]) as Hr by (by rewrite reverse_cons, reverse_involutive).
  set (ry := reverse y) in *. rewrite <- Hr.
  set_unfold in Hin. destruct_or! Hin; injection Hin as -> ->.
  all: change (reverse [u]) with [u]; cbn; rewrite ?Hc by lia; reflexivity.
Qed.
Lemma try_units_none y u : no_letter u → try_units units (y ++ [u]) = None.
Proof.
  intros Hu. assert ((66 =? u) = false) as Hc by (apply Z.eqb_neq; unfold no_letter in Hu; lia).
  let us := eval vm_compute in units in change units with us.
  cbn [try_units]. unfold strip_suffix. rewrite !reverse_app. change (reverse [u]) with [u].
  cbn [reverse rev_append app strip_prefix]. by rewrite !Hc.
Qed.

(** The last character of a numeral with blanks after it. *)
Lemma numeral_end n ws : 0 ≤ n → blank ws → ∃ y u, decimal n ++ ws = y ++ [u] ∧ no_letter u.
Proof.
  intros Hn Hws. destruct ws as [|u ws _] using rev_ind.
  - pose proof (decimal_nonempty n) as Hne. pose proof (digits_are_digits 20 n Hn) as Hd. fold (decimal n) in Hd.
    destruct (decimal n) as [|u y _] using rev_ind; [done|]. exists y, u. rewrite app_nil_r. split; [done|].
    apply Forall_app in Hd as [_ Hd]. apply Forall_cons_1 in Hd as [Hd _]. left. lia.
  - exists (decimal n ++ ws), u. rewrite app_assoc. split; [done|]. apply Forall_app in Hws as [_ Hws].
    apply Forall_cons_1 in Hws as [Hws _]. apply whitespace_range in Hws. unfold no_letter. lia.
Qed.

Lemma decimal_solid n c : 0 ≤ n → c ∈ decimal n → is_whitespace c = false.
Proof.
  intros Hn Hc. pose proof (digits_are_digits 20 n Hn) as Hd. apply solid_range.
  assert (48 ≤ c ≤ 57) by (exact (proj1 (List.Forall_forall _ _) Hd c (proj1 (list_elem_of_In _ _) Hc))). lia.
Qed.
Lemma head_elem (c : Z) s : head s = Some c → c ∈ s.
Proof. destruct s; [done|]. intros [= ->]. left. Qed.
Lemma trim_decimal n ws ws' : 0 ≤ n → blank ws → blank ws' → trim (ws ++ decimal n ++ ws') = decimal n.
Proof.
  intros Hn Hws Hws'. apply trim_solid; [done|done|apply decimal_nonempty|].
  intros c [Hc|Hc]; apply (decimal_solid n); [done|by apply head_elem|done|]. apply head_elem in Hc. by rewrite elem_of_reverse in Hc.
Qed.
End build.

(** The text of [src/generated.rs] for the environment variable [HEAP_SIZE]. *)
Definition generated (checks : bool) (heap_size_var : option (list Z)) : outcome (list Z) :=
  let heap_size_str := default (chars "1GiB") heap_size_var in
  heap_size ← parse_size checks heap_size_str;
  mret (chars "pub const HEAP_SIZE: usize = " ++ decimal heap_size ++ chars ";").

(** ** Property *)

(** Reading the heap size: a decimal number that fits 64 bits, followed by a
    unit of the table (or by none, for bytes), with any white space around and
    between, is the number times the unit; when the product does not fit 64
    bits the build stops with a panic if it checks overflow, and otherwise
    takes the product modulo 2^64. *)
Theorem parse_size_reads (checks : bool) (suffix : list Z) (k n : Z) (ws ws' ws'' : list Z)
    (Hunit : (suffix, k) ∈ ([], 1) :: units) (Hn : 0 ≤ n < 2 ^ 64)
    (Hws : Forall (λ c, is_whitespace c = true) (ws ++ ws' ++ ws'')) :
  parse_size checks (ws ++ decimal n ++ ws' ++ suffix ++ ws'') =
    if n * k <? 2 ^ 64 then Ret (n * k) else if checks then Panic else Ret (n * k mod 2 ^ 64).
Proof.
  apply Forall_app in Hws as [Hws [Hws' Hws'']%Forall_app]. unfold parse_size.
  apply elem_of_cons in Hunit as [[= -> ->]|Hunit].
  - cbn [app]. rewrite trim_decimal by (try lia; try done; by apply Forall_app_2).
    destruct (numeral_end n [] ltac:(lia) (Forall_nil_2 _)) as (y & u & E & Hu). rewrite app_nil_r in E.
    rewrite E at 1. rewrite try_units_none by done. rewrite parse_usize_decimal by done. rewrite Z.mul_1_r.
    by rewrite (proj2 (Z.ltb_lt _ _)) by lia.
  - destruct (numeral_end n ws' ltac:(lia) Hws') as (y & u & E & Hu).
    assert (trim (ws ++ decimal n ++ ws' ++ suffix ++ ws'') = (y ++ [u]) ++ suffix) as ->.
    { rewrite <- E. replace (ws ++ decimal n ++ ws' ++ suffix ++ ws'') with (ws ++ ((decimal n ++ ws') ++ suffix) ++ ws'')
        by (by rewrite <- !app_assoc).
      apply trim_solid; [done|done|rewrite E; by destruct y|]. pose proof (decimal_nonempty n).
      intros c [Hc|Hc].
      - apply (decimal_solid n); [lia|]. apply head_elem. by destruct (decimal n).
      - rewrite reverse_app in Hc. assert (head (reverse suffix) = Some 66) as H66
          by (unfold units in Hunit; set_unfold in Hunit; destruct_or! Hunit; by injection Hunit as -> ->).
        destruct (reverse suffix); [done|]. injection H66 as ->. injection Hc as <-. done. }
    rewrite (try_units_finds checks suffix k y u Hunit Hu). rewrite <- E.
    pose proof (trim_decimal n [] ws' ltac:(lia) (Forall_nil_2 _) Hws') as Et. cbn [app] in Et. rewrite Et.
    rewrite parse_usize_decimal by done. done.
Qed.
Lemma parse_size_reads_witness :
  parse_size true (chars " 16 GiB") = Ret (16 * 2 ^ 30) ∧ parse_size true (chars "16777216TiB") = Panic.
Proof.
  split.
  - apply (parse_size_reads true (chars "GiB") (1024 ^ 3) 16 [32] [32] []); [decide_now|lia|decide_now].
  - apply (parse_size_reads true (chars "TiB") (1024 ^ 4) (2 ^ 24) [] [] []); [decide_now|lia|decide_now].
Defined.

(** Without the variable, the build writes the generated file of the repository. *)
Definition HEAP_SIZE : Z := 1073741824.
Lemma default_heap_size checks :
  generated checks None = Ret (chars "pub const HEAP_SIZE: usize = " ++ decimal HEAP_SIZE ++ chars ";") ∧
  generated checks None = Ret (chars "pub const HEAP_SIZE: usize = 1073741824;").
Proof. destruct checks; split; vm_compute; reflexivity. Qed.

(** What is not a number stops the build: no digits, a sign other than [+], a
    fraction, or a unit in lower case. *)
Lemma parse_size_rejects checks :
  Forall (λ s, parse_size checks (chars s) = Panic) ["GiB"; ""; "-1"; "1.5GiB"; "64kb"; "64 mib"; "12 000"; "+"].
Proof. destruct checks; (repeat (apply Forall_cons_2; [vm_compute; reflexivity|]); apply Forall_nil_2). Qed.
