(* ===== verification/BuildScript.v ===== *)
(** * The build script ([build.rs])

    [main] of the script as the sequence of what it does to the outside: the
    directives it prints, the jobs it gives to the generator of the bindings and
    to the C compiler, and the files it writes.  The tools are a parameter: what
    the environment and pkg-config answer, and which jobs succeed.  Text is the
    list of its code points, as in [BuildSize]. *)

From S2P Require Import Prelude BuildSize.

Abbreviation text := (list Z).

(** What pkg-config finds. *)
Record Library := { include_paths : list text; defines : list (text * option text) }.

(** [bindgen::Builder], as far as the script configures it. *)
Record Builder := {
  header : text;
  derive_default : bool;
  derive_debug : bool;
  generate_comments : bool;
  prepend_enum_name : bool;
  wrap_static_fns_path : option text;
  allowlist_function : list text;
  allowlist_type : list text;
  allowlist_var : list text;
  clang_args : list text;
}.
(** [cc::Build]. *)
Record CcBuild := { cc_files : list text; cc_includes : list text; cc_defines : list (text * option text); cc_flags : list text }.

Inductive action :=
| Println (line : text)
| Generate (b : Builder)
| WriteBindings (path : text)
| Compile (c : CcBuild) (output : text)
| WriteFile (path contents : text).

Record Tools := {
  var : text → option text;
  probe : text → option Library;
  (** whether a job is done *)
  succeeds : action → bool;
}.

(** ** Computations that act and may panic *)

Definition script (A : Type) : Type := list action * outcome A.
#[global] Instance script_ret : MRet script := λ A a, ([], Ret a).
#[global] Instance script_bind : MBind script := λ A B f m,
  match m.2 with Ret a => let r := f a in (m.1 ++ r.1, r.2) | Panic => (m.1, Panic) end.
Definition lift {A} (o : outcome A) : script A := ([], o).
Definition println (line : string) : script unit := ([Println (chars line)], Ret ()).

(** [PathBuf::join] with a relative name. *)
Definition join (dir : text) (name : string) : text :=
  match head (reverse dir) with
  | None => chars name
  | Some c => if c =? 47 then dir ++ chars name else dir ++ [47] ++ chars name
  end.

Section build_script.
Context (overflow_checks : bool) (t : Tools).

(** A job whose failure the script [expect]s not to happen. *)
Definition perform (a : action) : script unit := if succeeds t a then ([a], Ret ()) else ([], Panic).

Definition add_clang_arg (b : Builder) (arg : text) : Builder := {|
  header := header b; derive_default := derive_default b; derive_debug := derive_debug b;
  generate_comments := generate_comments b; prepend_enum_name := prepend_enum_name b;
  wrap_static_fns_path := wrap_static_fns_path b; allowlist_function := allowlist_function b;
  allowlist_type := allowlist_type b; allowlist_var := allowlist_var b; clang_args := clang_args b ++ [arg] |}.
Definition builder (static_fns_c : text) : Builder := {|
  header := chars "wrapper.h"; derive_default := true; derive_debug := false;
  generate_comments := false; prepend_enum_name := false;
  wrap_static_fns_path := Some static_fns_c;
  allowlist_function := [chars "rte_.*"; chars "_rte_.*"];
  allowlist_type := [chars "rte_.*"; chars "RTE_.*"];
  allowlist_var := [chars "RTE_.*"; chars "rte_.*"];
  clang_args := [chars "-D__attribute__(x)="; chars "-D__extension__="] |}.

Definition cc_define (c : CcBuild) (kv : text * option text) : CcBuild :=
  {| cc_files := cc_files c; cc_includes := cc_includes c; cc_defines := cc_defines c ++ [kv]; cc_flags := cc_flags c |}.
Definition cc_include (c : CcBuild) (dir : text) : CcBuild :=
  {| cc_files := cc_files c; cc_includes := cc_includes c ++ [dir]; cc_defines := cc_defines c; cc_flags := cc_flags c |}.
Definition cc_flag (c : CcBuild) (flag : string) : CcBuild :=
  {| cc_files := cc_files c; cc_includes := cc_includes c; cc_defines := cc_defines c; cc_flags := cc_flags c ++ [chars flag] |}.

(** The two jobs, for the directories and definitions of the library. *)
Definition bindings_job (dpdk : Library) (static_fns_c : text) : Builder :=
  foldl (λ b include, add_clang_arg b (chars "-I" ++ include)) (builder static_fns_c) (include_paths dpdk).
Definition cc_job (dpdk : Library) (static_fns_c : text) : CcBuild :=
  let cc := {| cc_files := [static_fns_c]; cc_includes := [chars "."]; cc_defines := []; cc_flags := [] |} in
  let cc := foldl cc_include cc (include_paths dpdk) in
  let cc := foldl cc_define cc (defines dpdk) in
  foldl cc_flag cc ["-march=native"%string; "-Wno-unused-parameter"%string; "-Wno-deprecated-declarations"%string].

Definition main : script unit :=
  _ ← println "cargo:rerun-if-changed=build.rs";
  _ ← println "cargo:rerun-if-changed=wrapper.h";
  _ ← println "cargo:rerun-if-env-changed=PKG_CONFIG_PATH";
  _ ← println "cargo:rerun-if-env-changed=CARGO_FEATURE_DPDK";
  match var t (chars "CARGO_FEATURE_DPDK") with
  | None => mret ()
  | Some _ =>
    dpdk ← lift (expect (probe t (chars "libdpdk")));
    _ ← println "cargo:rustc-link-lib=numa";
    _ ← println "cargo:rustc-link-lib=pthread";
    out_dir ← lift (expect (var t (chars "OUT_DIR")));
    let static_fns_c := join out_dir "dpdk_static_fns.c" in
    _ ← perform (Generate (bindings_job dpdk static_fns_c));
    _ ← perform (WriteBindings (join out_dir "bindings.rs"));
    _ ← perform (Compile (cc_job dpdk static_fns_c) (chars "dpdk_static_fns"));
    generated ← lift (generated overflow_checks (var t (chars "HEAP_SIZE")));
    _ ← perform (WriteFile (chars "src/generated.rs") generated);
    println "cargo:rerun-if-env-changed=HEAP_SIZE"
  end.

(** ** What the script does *)

Lemma add_clang_args_spec dirs b :
  let r := foldl (λ b include, add_clang_arg b (chars "-I" ++ include)) b dirs in
  clang_args r = clang_args b ++ ((λ d, chars "-I" ++ d) <$> dirs) ∧ wrap_static_fns_path r = wrap_static_fns_path b ∧ header r = header b.
Proof.
  revert b. induction dirs as [|d dirs IH]; intros b; cbn zeta; cbn [foldl fmap list_fmap]; [by rewrite app_nil_r|].
  destruct (IH (add_clang_arg b (chars "-I" ++ d))) as (-> & -> & ->).
  split_and!; [|done..]. cbn [add_clang_arg clang_args]. by rewrite <- app_assoc.
Qed.
Lemma cc_includes_spec dirs c :
  foldl cc_include c dirs = {| cc_files := cc_files c; cc_includes := cc_includes c ++ dirs; cc_defines := cc_defines c; cc_flags := cc_flags c |}.
Proof.
  revert c. induction dirs as [|d dirs IH]; intros c; cbn [foldl]; [rewrite app_nil_r; by destruct c|].
  rewrite IH. cbn. by rewrite <- app_assoc.
Qed.
Lemma cc_defines_spec ds c :
  foldl cc_define c ds = {| cc_files := cc_files c; cc_includes := cc_includes c; cc_defines := cc_defines c ++ ds; cc_flags := cc_flags c |}.
Proof.
  revert c. induction ds as [|d ds IH]; intros c; cbn [foldl]; [rewrite app_nil_r; by destruct c|].
  rewrite IH. cbn. by rewrite <- app_assoc.
Qed.

(** Only the last job writes into the source tree; nothing before it does. *)
Definition writes_source (a : action) : bool := match a with WriteFile _ _ => true | _ => false end.

(** Without the feature the script prints four directives, and that is all. *)
Lemma without_feature : var t (chars "CARGO_FEATURE_DPDK") = None →
  main.2 = Ret () ∧ length main.1 = 4%nat ∧ Forall (λ a, ∃ line, a = Println line) main.1.
Proof. intros Hf. unfold main. rewrite Hf. split_and!; [done|done|]. repeat constructor; by eexists. Qed.

(** With it, and with tools that do their jobs: the bindings see exactly the
    directories that pkg-config names, the C compiler as well, and what it
    compiles is the file in which the generator wraps the inline functions; the
    heap size is written last. *)
Lemma script_generates feature lib out text :
  var t (chars "CARGO_FEATURE_DPDK") = Some feature → probe t (chars "libdpdk") = Some lib → var t (chars "OUT_DIR") = Some out →
  (∀ a, succeeds t a = true) → generated overflow_checks (var t (chars "HEAP_SIZE")) = Ret text →
  ∃ b cc wrapper, main.2 = Ret () ∧
    List.filter (λ a, match a with Println _ => false | _ => true end) main.1 =
      [Generate b; WriteBindings (join out "bindings.rs"); Compile cc (chars "dpdk_static_fns"); WriteFile (chars "src/generated.rs") text] ∧
    clang_args b = [chars "-D__attribute__(x)="; chars "-D__extension__="] ++ ((λ d, chars "-I" ++ d) <$> include_paths lib) ∧
    wrap_static_fns_path b = Some wrapper ∧ cc_files cc = [wrapper] ∧
    cc_includes cc = chars "." :: include_paths lib ∧ cc_defines cc = defines lib.
Proof.
  intros Hf Hl Ho Hs Hg. unfold main. rewrite Hf, Hl, Ho, Hg.
  destruct (add_clang_args_spec (include_paths lib) (builder (join out "dpdk_static_fns.c"))) as (Ha & Hw & _).
  exists (bindings_job lib (join out "dpdk_static_fns.c")), (cc_job lib (join out "dpdk_static_fns.c")), (join out "dpdk_static_fns.c").
  assert (∀ {B} a (k : unit → script B), (perform a ≫= k) = (a :: (k ()).1, (k ()).2)) as Hperf
    by (intros B a k; unfold perform; by rewrite Hs).
  assert (∀ {A B} (a : A) (k : A → script B), (lift (Ret a) ≫= k) = k a) as Hlift
    by (intros A B a k; cbn; by destruct (k a)).
  assert (∀ {B} line (k : unit → script B), (println line ≫= k) = (Println (chars line) :: (k ()).1, (k ()).2)) as Hpr by done.
  cbn [expect]. repeat (first [rewrite Hpr|rewrite Hlift|rewrite Hperf]; cbv beta iota zeta).
  split; [reflexivity|]. split; [reflexivity|]. split; [exact Ha|]. split; [exact Hw|].
  unfold cc_job. cbn zeta. rewrite cc_includes_spec, cc_defines_spec. by cbn.
Qed.

(** A script that fails has not touched the source tree. *)
Lemma failed_script_writes_nothing : main.2 = Panic → Forall (λ a, writes_source a = false) main.1.
Proof.
  assert (∀ {A B} (m : script A) (f : A → script B), Forall (λ a, writes_source a = false) m.1 →
    (∀ a, m.2 = Ret a → (f a).2 = Panic → Forall (λ a, writes_source a = false) (f a).1) →
    (m ≫= f).2 = Panic → Forall (λ a, writes_source a = false) (m ≫= f).1) as Hbind.
  { intros A B m f Hm Hf. unfold mbind, script_bind. destruct m.2 as [a|]; cbn [fst snd]; [|done].
    intros Hp. apply Forall_app_2; auto. }
  assert (∀ a, writes_source a = false → Forall (λ a, writes_source a = false) (perform a).1) as Hperf
    by (intros a Ha; unfold perform; destruct (succeeds t a); [by constructor|constructor]).
  unfold main. do 4 (apply Hbind; [by repeat constructor|intros _ _]). destruct (var t _); [|by constructor].
  apply Hbind; [constructor|intros dpdk _]. do 2 (apply Hbind; [by repeat constructor|intros _ _]).
  apply Hbind; [constructor|intros out _]. cbn zeta. do 3 (apply Hbind; [by apply Hperf|intros _ _]).
  apply Hbind; [constructor|intros g _]. unfold perform. destruct (succeeds t _); [done|]. intros _. constructor.
Qed.
End build_script.

(** A build of the release the repository pins. *)
Definition sample_tools : Tools := {|
  var v := if bool_decide (v = chars "CARGO_FEATURE_DPDK") then Some (chars "1")
           else if bool_decide (v = chars "OUT_DIR") then Some (chars "/build/out")
           else if bool_decide (v = chars "HEAP_SIZE") then Some (chars "64 MiB") else None;
  probe l := if bool_decide (l = chars "libdpdk") then
               Some {| include_paths := [chars "/usr/include/dpdk"]; defines := [(chars "RTE", None)] |} else None;
  succeeds _ := true |}.
Lemma sample_build : (main true sample_tools).2 = Ret () ∧
  WriteFile (chars "src/generated.rs") (chars "pub const HEAP_SIZE: usize = 67108864;") ∈ (main true sample_tools).1.
Proof. vm_compute. split; [done|]. repeat first [apply list_elem_of_here|apply list_elem_of_further]. Qed.
