(* ===== verification/TestsNet.v ===== *)
(** * The unit tests of the wire formats ([src/net/])

    The repository's own tests, translated call by call and run on the model:
    a test is a computation that panics on a failed assertion, and it passes
    when it returns.  What the tests fix about the code, the definitions of
    this development reproduce. *)

From S2P Require Import Prelude Wire Ethernet Ip Udp Dns Arp Dhcp Checksum View.

(** [assert_eq!]. *)
Definition assert_eq {A} `{EqDecision A} (a b : A) : outcome unit := assert_ (bool_decide (a = b)).
Abbreviation test := (outcome unit).
(** A test passes: every assertion holds and nothing panics. *)
Ltac run_test := vm_compute; reflexivity.

(** ** [src/net/checksum.rs] *)

Module ChecksumTests.
Definition ipv4_checksum_verifies_to_zero : test :=
  let hdr := [0x45; 0x00; 0x00; 0x3c; 0x1c; 0x46; 0x40; 0x00; 0x40; 0x06; 0x00; 0x00; 0xac; 0x10;
              0x0a; 0x63; 0xac; 0x10; 0x0a; 0x0c] in
  let c := ipv4_header hdr in
  hdr ← copy_range hdr 10 12 (to_be16 c);
  assert_eq (Checksum.checksum hdr) 0.
Lemma ipv4_checksum_verifies_to_zero_passes : ipv4_checksum_verifies_to_zero = Ret ().
Proof. run_test. Qed.

Definition udp_checksum_round_trips : test :=
  let src := [10; 0; 0; 1] in
  let dst := [10; 0; 0; 2] in
  let udp := [0x00; 68; 0x00; 67; 0x00; 12; 0x00; 0x00; 0xde; 0xad; 0xbe; 0xef] in
  let c := udp_ipv4 src dst udp in
  udp ← copy_range udp 6 8 (to_be16 c);
  let acc := 0 in
  let acc := accumulate acc src in
  let acc := accumulate acc dst in
  let acc := (acc + UDP_PROTO_WORD) `mod` 2 ^ 32 in
  let acc := (acc + Z.of_nat (length udp)) `mod` 2 ^ 32 in
  let acc := accumulate acc udp in
  assert_eq (finish acc) 0.
Lemma udp_checksum_round_trips_passes : udp_checksum_round_trips = Ret ().
Proof. run_test. Qed.

Definition incremental_update_matches_full_recompute : test :=
  let hdr := [0x45; 0x00; 0x00; 0x3c; 0x1c; 0x46; 0x40; 0x00; 0x40; 0x06; 0x00; 0x00; 0xac; 0x10;
              0x0a; 0x63; 0xac; 0x10; 0x0a; 0x0c] in
  let stored := ipv4_header hdr in
  hdr ← copy_range hdr 10 12 (to_be16 stored);
  _ ← assert_eq (Checksum.checksum hdr) 0;
  h12 ← get_index hdr 12; h13 ← get_index hdr 13; h14 ← get_index hdr 14; h15 ← get_index hdr 15;
  let old_src := [h12; h13; h14; h15] in
  let new_src := [203; 0; 113; 7] in
  let updated := update stored old_src new_src in
  hdr ← copy_range hdr 12 16 new_src;
  hdr ← copy_range hdr 10 12 [0; 0];
  assert_eq updated (ipv4_header hdr).
Lemma incremental_update_matches_full_recompute_passes : incremental_update_matches_full_recompute = Ret ().
Proof. run_test. Qed.
End ChecksumTests.

(** ** [src/net/dhcp.rs] *)

Module DhcpTests.
Definition IPV4_OPT_LEN : Z := 4.
Definition SECONDS_OPT_LEN : Z := 4.
(** [DhcpHeader::default]: all zeroes. *)
Definition default_ : DhcpHeader := of_bytes (replicate Dhcp.LEN 0).

Definition parses_ack_into_lease : test :=
  let header := default_ in
  let opts := [option_MESSAGE_TYPE; 1; message_type_to_u8 Ack;
               option_SERVER_ID; IPV4_OPT_LEN; 192; 168; 1; 1;
               option_LEASE_TIME; SECONDS_OPT_LEN; 0x00; 0x00; 0x0e; 0x10;
               option_SUBNET_MASK; IPV4_OPT_LEN; 255; 255; 255; 0;
               option_ROUTER; IPV4_OPT_LEN; 192; 168; 1; 254;
               option_DNS_SERVER; 8; 8; 8; 8; 8; 1; 1; 1; 1;
               option_END] in
  lease ← expect (lease_parse header opts);
  _ ← assert_eq (lease_server_id lease) (Some (ip4 192 168 1 1));
  _ ← assert_eq (lease_lease_time lease) (Some 3600);
  _ ← assert_eq (lease_subnet_mask lease) (Some (ip4 255 255 255 0));
  let routers := ipv4_list (lease_routers lease) in
  _ ← assert_eq routers [ip4 192 168 1 254];
  let dns := ipv4_list (lease_dns_servers lease) in
  _ ← assert_eq dns [ip4 8 8 8 8; ip4 1 1 1 1];
  _ ← assert_ (negb (bool_decide (is_Some (offer_parse header opts))));
  assert_ (negb (bool_decide (is_Some (request_parse header opts)))).
Lemma parses_ack_into_lease_passes : parses_ack_into_lease = Ret ().
Proof. run_test. Qed.

Definition parses_offer_and_request : test :=
  let header := default_ in
  let offer_opts := [option_MESSAGE_TYPE; 1; message_type_to_u8 Offer;
                     option_SERVER_ID; IPV4_OPT_LEN; 10; 0; 0; 1; option_END] in
  offer ← expect (offer_parse header offer_opts);
  _ ← assert_eq (offer_server_id offer) (Some (ip4 10 0 0 1));
  let request_opts := [option_MESSAGE_TYPE; 1; message_type_to_u8 Request;
                       option_REQUESTED_IP; IPV4_OPT_LEN; 10; 0; 0; 50;
                       option_SERVER_ID; IPV4_OPT_LEN; 10; 0; 0; 1; option_END] in
  request ← expect (request_parse header request_opts);
  _ ← assert_eq (request_requested_ip request) (Some (ip4 10 0 0 50));
  assert_eq (request_server_id request) (Some (ip4 10 0 0 1)).
Lemma parses_offer_and_request_passes : parses_offer_and_request = Ret ().
Proof. run_test. Qed.
End DhcpTests.

(** ** [src/net/view.rs] *)

Module ViewTests.
Definition DNS_ID : Z := 0x1234.

Definition build_dns_over_udp (buf : bytes) : bytes * option nat :=
  let total_ip := (Ip.MIN_LEN + Udp.LEN + Dns.LEN)%nat in
  mut_from_prefix (T := EthernetHeader) buf (λ eth, set_ethertype eth ethertype_IPV4) (λ rest,
  mut_from_prefix (T := Ipv4Header) rest
    (λ ipv4, set_total_len (set_protocol (set_version_ihl ipv4 4 5) proto_UDP) (Z.of_nat total_ip)) (λ rest,
  mut_from_prefix (T := UdpHeader) rest
    (λ udp, Udp.set_length (Udp.set_dst_port udp port_DNS) (Z.of_nat (Udp.LEN + Dns.LEN))) (λ rest,
  mut_from_prefix (T := DnsHeader) rest (λ dns, set_id dns DNS_ID) (λ rest,
    (rest, Some (EthernetHeader_LEN + total_ip)%nat))))).

Definition descends_eth_ipv4_udp_dns : test :=
  let buf := replicate 64 0 in
  let '(buf, len) := build_dns_over_udp buf in
  len ← expect len;
  eth ← expect (parse buf);
  _ ← assert_ (is_ipv4 eth);
  ipv4 ← expect (ipv4 eth);
  is_udp ← is_udp ipv4;
  _ ← assert_ is_udp;
  udp ← udp ipv4; udp ← expect udp;
  is_dns ← udp_is_dns udp;
  _ ← assert_ is_dns;
  payload ← udp_payload udp;
  _ ← assert_eq (length payload) Dns.LEN;
  dns ← udp_dns udp; dns ← expect dns;
  header ← dns_header dns;
  _ ← assert_eq (id header) DNS_ID;
  assert_eq (dns_header_offset dns) (len - Dns.LEN)%nat.
Lemma descends_eth_ipv4_udp_dns_passes : descends_eth_ipv4_udp_dns = Ret ().
Proof. run_test. Qed.

Definition non_arp_frame_has_no_arp_view : test :=
  let buf := replicate 64 0 in
  let '(buf, len) := build_dns_over_udp buf in
  _ ← expect len;
  eth ← expect (parse buf);
  _ ← assert_ (negb (bool_decide (is_Some (arp eth))));
  ipv4 ← expect (ipv4 eth);
  tcp ← tcp ipv4;
  assert_ (negb (bool_decide (is_Some tcp))).
Lemma non_arp_frame_has_no_arp_view_passes : non_arp_frame_has_no_arp_view = Ret ().
Proof. run_test. Qed.
End ViewTests.

(** ** [src/net/arp.rs] *)

Module ArpTests.
Definition OUR_MAC : MacAddr := [0x02; 0x00; 0x00; 0x00; 0x00; 0x01].
Definition PEER_MAC : MacAddr := [0x02; 0x00; 0x00; 0x00; 0x00; 0x02].
Definition OUR_IP : Ipv4Addr := ip4 10 0 0 1.
Definition PEER_IP : Ipv4Addr := ip4 10 0 0 2.

Definition parse (buf : bytes) : outcome (EthernetHeader * ArpPacket) :=
  e ← expect (ref_from_prefix (T := EthernetHeader) buf);
  let '(eth, rest) := e in
  a ← expect (ref_from_prefix (T := ArpPacket) rest);
  let '(arp, _) := a in
  mret (eth, arp).

Definition request_is_broadcast_and_well_formed : test :=
  let buf := replicate FRAME_LEN 0 in
  let '(buf, n) := build_request buf OUR_MAC OUR_IP PEER_IP in
  n ← expect n;
  _ ← assert_eq n FRAME_LEN;
  p ← parse buf;
  let '(eth, arp) := p in
  _ ← assert_eq (Ethernet.dst eth) BROADCAST;
  _ ← assert_eq (Ethernet.src eth) OUR_MAC;
  _ ← assert_eq (ethertype eth) ethertype_ARP;
  _ ← assert_ (is_ethernet_ipv4 arp);
  _ ← assert_ (is_request arp);
  _ ← assert_eq (sender_ip arp) OUR_IP;
  _ ← assert_eq (target_ip arp) PEER_IP;
  assert_eq (tha arp) UNKNOWN_HARDWARE_ADDR.
Lemma request_is_broadcast_and_well_formed_passes : request_is_broadcast_and_well_formed = Ret ().
Proof. run_test. Qed.

Definition handle_replies_to_request_for_us : test :=
  let in_buf := replicate FRAME_LEN 0 in
  let '(in_buf, n) := build_request in_buf PEER_MAC PEER_IP OUR_IP in
  _ ← expect n;
  p ← parse in_buf;
  let '(_, in_arp) := p in
  let cache := cache_new in
  let out_buf := replicate FRAME_LEN 0 in
  let '(cache, out_buf, action) := handle OUR_MAC OUR_IP cache in_arp out_buf in
  _ ← assert_eq action (SendReply FRAME_LEN);
  _ ← assert_eq (cache_lookup cache PEER_IP) (Some PEER_MAC);
  p ← parse out_buf;
  let '(eth, arp) := p in
  _ ← assert_eq (Ethernet.dst eth) PEER_MAC;
  _ ← assert_eq (Ethernet.src eth) OUR_MAC;
  _ ← assert_ (is_reply arp);
  _ ← assert_eq (sender_ip arp) OUR_IP;
  _ ← assert_eq (target_ip arp) PEER_IP;
  assert_eq (tha arp) PEER_MAC.
Lemma handle_replies_to_request_for_us_passes : handle_replies_to_request_for_us = Ret ().
Proof. run_test. Qed.

Definition handle_ignores_request_for_other_host : test :=
  let other_ip := ip4 10 0 0 99 in
  let in_buf := replicate FRAME_LEN 0 in
  let '(in_buf, n) := build_request in_buf PEER_MAC PEER_IP other_ip in
  _ ← expect n;
  p ← parse in_buf;
  let '(_, in_arp) := p in
  let cache := cache_new in
  let out_buf := replicate FRAME_LEN 0 in
  let '(cache, out_buf, action) := handle OUR_MAC OUR_IP cache in_arp out_buf in
  _ ← assert_eq action Nothing;
  assert_eq (cache_lookup cache PEER_IP) (Some PEER_MAC).
Lemma handle_ignores_request_for_other_host_passes : handle_ignores_request_for_other_host = Ret ().
Proof. run_test. Qed.
End ArpTests.
