(* ===== verification/TestsFlows.v ===== *)
(** * The unit tests of connection tracking ([src/router/conntrack.rs])

    Translated as in [TestsNet]: the table is threaded through the calls.  The
    shared handle is the same table, each call under its lock. *)

From S2P Require Import Prelude Tcp Conntrack TestsNet.

Definition INT_IP : Ipv4Addr := ip4 192 168 1 50.
Definition EXT_IP : Ipv4Addr := ip4 203 0 113 10.
Definition INT_PORT : Z := 49152.
Definition EXT_PORT : Z := 443.
Definition flow : FlowKey := {| int_ip := INT_IP; int_port := INT_PORT; ext_ip := EXT_IP; ext_port := EXT_PORT |}.

Definition states (c : ConnTrack) : option (TcpState * TcpState) := Conntrack.states c flow.
Definition out (c : ConnTrack) (flags t_ms : Z) : ConnTrack * (TcpState * TcpState) := observe_egress c flow flags t_ms.
Definition into_ (c : ConnTrack) (flags t_ms : Z) : ConnTrack * bool := check_ingress c flow flags t_ms.
#[local] Notation "a '.|' b" := (Z.lor a b) (at level 40, left associativity).

Definition three_way_handshake_walks_both_endpoints_to_established : test :=
  let c := Conntrack.new in
  let '(c, s) := out c flag_SYN 0 in
  _ ← assert_eq s (SynSent, SynReceived);
  let '(c, ok) := into_ c (flag_SYN .| flag_ACK) 1 in
  _ ← assert_ ok;
  s ← expect (states c);
  _ ← assert_eq s (Established, SynReceived);
  let '(c, _) := out c flag_ACK 2 in
  s ← expect (states c);
  assert_eq s (Established, Established).
Lemma three_way_handshake_walks_both_endpoints_to_established_passes :
  three_way_handshake_walks_both_endpoints_to_established = Ret ().
Proof. run_test. Qed.

Definition simultaneous_open_walks_to_established : test :=
  let c := Conntrack.new in
  let '(c, _) := out c flag_SYN 0 in
  let '(c, ok) := into_ c flag_SYN 1 in
  _ ← assert_ ok;
  s ← expect (states c);
  _ ← assert_eq s (SynReceived, SynReceived);
  let '(c, _) := out c (flag_SYN .| flag_ACK) 2 in
  let '(c, ok) := into_ c (flag_SYN .| flag_ACK) 3 in
  _ ← assert_ ok;
  s ← expect (states c);
  assert_eq s (Established, Established).
Lemma simultaneous_open_walks_to_established_passes : simultaneous_open_walks_to_established = Ret ().
Proof. run_test. Qed.

Definition normal_active_close_runs_through_fin_wait_states : test :=
  let c := Conntrack.new in
  let '(c, _) := out c flag_SYN 0 in
  let '(c, _) := into_ c (flag_SYN .| flag_ACK) 1 in
  let '(c, _) := out c flag_ACK 2 in
  let '(c, _) := out c (flag_FIN .| flag_ACK) 3 in
  s ← expect (states c);
  _ ← assert_eq s (FinWait1, CloseWait);
  let '(c, _) := into_ c flag_ACK 4 in
  s ← expect (states c);
  _ ← assert_eq s (FinWait2, CloseWait);
  let '(c, _) := into_ c (flag_FIN .| flag_ACK) 5 in
  s ← expect (states c);
  _ ← assert_eq s (TimeWait, LastAck);
  let '(c, _) := out c flag_ACK 6 in
  s ← expect (states c);
  assert_eq s (TimeWait, Closed).
Lemma normal_active_close_runs_through_fin_wait_states_passes : normal_active_close_runs_through_fin_wait_states = Ret ().
Proof. run_test. Qed.

Definition crossed_fins_with_ack_collapse_to_time_wait : test :=
  let c := Conntrack.new in
  let '(c, _) := out c flag_SYN 0 in
  let '(c, _) := into_ c (flag_SYN .| flag_ACK) 1 in
  let '(c, _) := out c flag_ACK 2 in
  let '(c, _) := out c (flag_FIN .| flag_ACK) 3 in
  let '(c, _) := into_ c (flag_FIN .| flag_ACK) 4 in
  s ← expect (states c);
  assert_eq s (TimeWait, LastAck).
Lemma crossed_fins_with_ack_collapse_to_time_wait_passes : crossed_fins_with_ack_collapse_to_time_wait = Ret ().
Proof. run_test. Qed.

Definition simultaneous_close_via_bare_fin_routes_through_closing : test :=
  let c := Conntrack.new in
  let '(c, _) := out c flag_SYN 0 in
  let '(c, _) := into_ c (flag_SYN .| flag_ACK) 1 in
  let '(c, _) := out c flag_ACK 2 in
  let '(c, _) := out c (flag_FIN .| flag_ACK) 3 in
  s ← expect (states c);
  _ ← assert_eq s (FinWait1, CloseWait);
  let '(c, _) := into_ c flag_FIN 4 in
  s ← expect (states c);
  _ ← assert_eq s (Closing, LastAck);
  let '(c, _) := into_ c flag_ACK 5 in
  s ← expect (states c);
  assert_eq s (TimeWait, LastAck).
Lemma simultaneous_close_via_bare_fin_routes_through_closing_passes :
  simultaneous_close_via_bare_fin_routes_through_closing = Ret ().
Proof. run_test. Qed.

Definition rst_immediately_closes_both_sides : test :=
  let c := Conntrack.new in
  let '(c, _) := out c flag_SYN 0 in
  let '(c, _) := into_ c (flag_SYN .| flag_ACK) 1 in
  let '(c, _) := out c flag_ACK 2 in
  let '(c, admitted) := into_ c flag_RST 3 in
  _ ← assert_ admitted;
  assert_eq (states c) None.
Lemma rst_immediately_closes_both_sides_passes : rst_immediately_closes_both_sides = Ret ().
Proof. run_test. Qed.

Definition unsolicited_ingress_is_dropped : test :=
  let c := Conntrack.new in
  let '(c, ok) := into_ c (flag_SYN .| flag_ACK) 0 in
  _ ← assert_ (negb ok);
  let '(c, ok) := into_ c flag_ACK 0 in
  _ ← assert_ (negb ok);
  let '(c, ok) := into_ c flag_SYN 0 in
  _ ← assert_ (negb ok);
  assert_eq (Conntrack.len c) 0%nat.
Lemma unsolicited_ingress_is_dropped_passes : unsolicited_ingress_is_dropped = Ret ().
Proof. run_test. Qed.

Definition wrong_peer_attack_is_dropped : test :=
  let c := Conntrack.new in
  let '(c, _) := out c flag_SYN 0 in
  let stranger := ip4 198 51 100 99 in
  let '(c, ok) := check_ingress c {| int_ip := INT_IP; int_port := INT_PORT; ext_ip := stranger; ext_port := EXT_PORT |}
    (flag_SYN .| flag_ACK) 1 in
  assert_ (negb ok).
Lemma wrong_peer_attack_is_dropped_passes : wrong_peer_attack_is_dropped = Ret ().
Proof. run_test. Qed.

Definition idle_syn_sent_is_swept_after_60s : test :=
  let c := Conntrack.new in
  let '(c, _) := out c flag_SYN 0 in
  let c := Conntrack.sweep c (idle_timeout_ms SynSent - 1) in
  _ ← assert_eq (Conntrack.len c) 1%nat;
  let c := Conntrack.sweep c (idle_timeout_ms SynSent) in
  assert_eq (Conntrack.len c) 0%nat.
Lemma idle_syn_sent_is_swept_after_60s_passes : idle_syn_sent_is_swept_after_60s = Ret ().
Proof. run_test. Qed.

Definition time_wait_uses_2_msl_timeout : test :=
  let c := Conntrack.new in
  let '(c, _) := out c flag_SYN 0 in
  let '(c, _) := into_ c (flag_SYN .| flag_ACK) 1 in
  let '(c, _) := out c flag_ACK 2 in
  let '(c, _) := out c (flag_FIN .| flag_ACK) 3 in
  let '(c, _) := into_ c flag_ACK 4 in
  let '(c, _) := into_ c (flag_FIN .| flag_ACK) 5 in
  s ← expect (states c);
  let '(i, _) := s in
  _ ← assert_eq i TimeWait;
  let c := Conntrack.sweep c (5 + idle_timeout_ms TimeWait - 1) in
  _ ← assert_eq (Conntrack.len c) 1%nat;
  let c := Conntrack.sweep c (5 + idle_timeout_ms TimeWait) in
  assert_eq (Conntrack.len c) 0%nat.
Lemma time_wait_uses_2_msl_timeout_passes : time_wait_uses_2_msl_timeout = Ret ().
Proof. run_test. Qed.

Definition established_uses_a_long_timeout_so_idle_keepalives_survive : test :=
  let c := Conntrack.new in
  let '(c, _) := out c flag_SYN 0 in
  let '(c, _) := into_ c (flag_SYN .| flag_ACK) 1 in
  let '(c, _) := out c flag_ACK 2 in
  let c := Conntrack.sweep c (6 * 60 * 60000) in
  assert_eq (Conntrack.len c) 1%nat.
Lemma established_uses_a_long_timeout_so_idle_keepalives_survive_passes :
  established_uses_a_long_timeout_so_idle_keepalives_survive = Ret ().
Proof. run_test. Qed.

Definition shared_handle_mirrors_inner_state : test :=
  let s := Conntrack.new in
  let '(s, (i, e)) := observe_egress s flow flag_SYN 0 in
  _ ← assert_eq (i, e) (SynSent, SynReceived);
  _ ← assert_eq (Conntrack.states s flow) (Some (SynSent, SynReceived));
  let '(s, ok) := check_ingress s flow (flag_SYN .| flag_ACK) 1 in
  _ ← assert_ ok;
  assert_eq (Conntrack.states s flow) (Some (Established, SynReceived)).
Lemma shared_handle_mirrors_inner_state_passes : shared_handle_mirrors_inner_state = Ret ().
Proof. run_test. Qed.

Definition send_transitions_match_rfc_9293 : test :=
  _ ← assert_eq (transition_on_send Closed flag_SYN) SynSent;
  _ ← assert_eq (transition_on_send Listen (flag_SYN .| flag_ACK)) SynReceived;
  _ ← assert_eq (transition_on_send Established (flag_FIN .| flag_ACK)) FinWait1;
  _ ← assert_eq (transition_on_send CloseWait (flag_FIN .| flag_ACK)) LastAck;
  _ ← assert_eq (transition_on_send Established flag_RST) Closed;
  _ ← assert_eq (transition_on_send Established flag_ACK) Established;
  assert_eq (transition_on_send FinWait2 flag_ACK) FinWait2.
Lemma send_transitions_match_rfc_9293_passes : send_transitions_match_rfc_9293 = Ret ().
Proof. run_test. Qed.

Definition recv_transitions_match_rfc_9293 : test :=
  _ ← assert_eq (transition_on_recv SynSent (flag_SYN .| flag_ACK)) Established;
  _ ← assert_eq (transition_on_recv SynSent flag_SYN) SynReceived;
  _ ← assert_eq (transition_on_recv SynReceived flag_ACK) Established;
  _ ← assert_eq (transition_on_recv Established (flag_FIN .| flag_ACK)) CloseWait;
  _ ← assert_eq (transition_on_recv FinWait1 (flag_FIN .| flag_ACK)) TimeWait;
  _ ← assert_eq (transition_on_recv FinWait1 flag_ACK) FinWait2;
  _ ← assert_eq (transition_on_recv FinWait1 flag_FIN) Closing;
  _ ← assert_eq (transition_on_recv FinWait2 (flag_FIN .| flag_ACK)) TimeWait;
  _ ← assert_eq (transition_on_recv Closing flag_ACK) TimeWait;
  _ ← assert_eq (transition_on_recv LastAck flag_ACK) Closed;
  assert_eq (transition_on_recv Established flag_RST) Closed.
Lemma recv_transitions_match_rfc_9293_passes : recv_transitions_match_rfc_9293 = Ret ().
Proof. run_test. Qed.
