(* ===== verification/TestsNat.v ===== *)
(** * The unit tests of address translation and of the frame builder
      ([src/router/nat.rs], [src/router/frame.rs])

    Translated as in [TestsNet].  A call on a part of a buffer ([&mut buf[..n]])
    writes that part back. *)

From S2P Require Import Prelude Wire Ethernet Ip Tcp Udp Checksum View Frame SourceNat TestsNet.

(** [f(&mut buf[..n])]. *)
Definition on_prefix {A} (buf : bytes) (n : nat) (f : bytes → outcome (bytes * A)) : outcome (bytes * A) :=
  part ← get_range buf 0 n;
  r ← f part;
  mret (r.1 ++ skipn n buf, r.2).

(** ** [src/router/frame.rs] *)

Definition builds_parseable_checksummed_datagram : test :=
  let buf := replicate 128 0 in
  let p := {| src_mac := [0x02; 0; 0; 0; 0; 1]; dst_mac := [0x02; 0; 0; 0; 0; 2];
              src_ip := ip4 10 0 0 1; Frame.dst_ip := ip4 10 0 0 2;
              Frame.src_port := 1234; Frame.dst_port := 53; ttl := DEFAULT_TTL |} in
  let payload := [0xde; 0xad; 0xbe; 0xef] in
  r ← build_udp_ipv4 buf p payload;
  let '(buf, n) := r in
  n ← expect n;
  _ ← assert_eq n (frame_len (length payload));
  hdr ← get_range buf ETH (ETH + IP);
  _ ← assert_eq (Checksum.checksum hdr) 0;
  frame ← get_range buf 0 n;
  eth ← expect (parse frame);
  ip ← expect (ipv4 eth);
  udp ← udp ip; udp ← expect udp;
  dst_port ← udp_dst_port udp;
  _ ← assert_eq dst_port 53;
  udp_payload ← udp_payload udp;
  assert_eq udp_payload payload.
Lemma builds_parseable_checksummed_datagram_passes : builds_parseable_checksummed_datagram = Ret ().
Proof. run_test. Qed.

(** ** [src/router/nat.rs] *)

Definition WAN_IP : Ipv4Addr := ip4 203 0 113 1.

Definition l4_check (src dst : bytes) (proto : Z) (seg : bytes) : Z :=
  let acc := 0 in
  let acc := accumulate acc src in
  let acc := accumulate acc dst in
  let acc := (acc + proto) `mod` 2 ^ 32 in
  let acc := (acc + Z.of_nat (length seg)) `mod` 2 ^ 32 in
  let acc := accumulate acc seg in
  finish acc.

Definition build_tcp (buf : bytes) (src dst : Ipv4Addr) (sp dp : Z) : outcome (bytes * nat) :=
  let ETH := 14%nat in
  let IP := 20%nat in
  let TCP := 20%nat in
  let total := (ETH + IP + TCP)%nat in
  buf ← copy_range buf 0 total (replicate total 0);
  let '(buf, r) :=
    mut_from_prefix (T := EthernetHeader) buf (λ e, set_ethertype e ethertype_IPV4) (λ rest,
    mut_from_prefix (T := Ipv4Header) rest
      (λ i, let i := set_version_ihl i 4 5 in
            let i := set_total_len i (Z.of_nat (IP + TCP)) in
            let i := set_ttl i 64 in
            let i := set_protocol i proto_TCP in
            let i := Ip.set_src i src in
            Ip.set_dst i dst) (λ rest,
    mut_from_prefix (T := TcpHeader) rest
      (λ t, let t := Tcp.set_src_port t sp in
            let t := Tcp.set_dst_port t dp in
            set_data_offset t 5) (λ rest, (rest, Some ())))) in
  _ ← expect r;
  hdr ← get_range buf ETH (ETH + IP);
  let ipc := ipv4_header hdr in
  buf ← copy_range buf (ETH + 10) (ETH + 12) (to_be16 ipc);
  seg ← get_range buf (ETH + IP) (ETH + IP + TCP);
  let c := l4_check (octets src) (octets dst) proto_TCP seg in
  buf ← copy_range buf (ETH + IP + 16) (ETH + IP + 18) (to_be16 c);
  mret (buf, total).

Definition mapping_is_stable_unique_and_reversible : test :=
  nat ← SourceNat.new WAN_IP 40000 40002;
  let host_a := ip4 192 168 1 2 in
  let host_b := ip4 192 168 1 3 in
  let '(nat, a) := egress nat L4_Tcp host_a 1111 in
  a ← expect a;
  let '(nat, a2) := egress nat L4_Tcp host_a 1111 in
  a2 ← expect a2;
  _ ← assert_eq (new_src_ip a, new_src_port a) (new_src_ip a2, new_src_port a2);
  _ ← assert_eq (new_src_ip a) WAN_IP;
  let '(nat, b) := egress nat L4_Tcp host_b 1111 in
  b ← expect b;
  _ ← assert_ (negb (bool_decide (new_src_port a = new_src_port b)));
  _ ← assert_eq (ingress nat L4_Tcp (new_src_port a)) (Some (host_a, 1111));
  let '(nat, c) := egress nat L4_Tcp (ip4 192 168 1 4) 1 in
  _ ← expect c;
  let '(nat, d) := egress nat L4_Tcp (ip4 192 168 1 5) 1 in
  _ ← assert_ (negb (bool_decide (is_Some d)));
  let '(nat, e) := egress nat L4_Udp (ip4 192 168 1 6) 1 in
  assert_ (bool_decide (is_Some e)).
Lemma mapping_is_stable_unique_and_reversible_passes : mapping_is_stable_unique_and_reversible = Ret ().
Proof. run_test. Qed.

Definition translate_egress_udp_rewrites_and_checksums : test :=
  nat ← SourceNat.new WAN_IP 40000 40010;
  let p := {| src_mac := [2; 0; 0; 0; 0; 1]; dst_mac := [2; 0; 0; 0; 0; 2];
              src_ip := ip4 192 168 1 50; Frame.dst_ip := ip4 8 8 8 8;
              Frame.src_port := 5000; Frame.dst_port := 53; ttl := 64 |} in
  let buf := replicate 128 0 in
  r ← build_udp_ipv4 buf p [9; 9];
  let '(buf, n) := r in
  n ← expect n;
  r ← on_prefix buf n (λ f, r ← translate_egress f nat; let '(f, nat, e) := r in mret (f, (nat, e)));
  let '(buf, (nat, e)) := r in
  e ← expect e;
  _ ← assert_eq (new_src_ip e) WAN_IP;
  hdr ← get_range buf 14 34;
  _ ← assert_eq (Checksum.checksum hdr) 0;
  let udp_len := (8 + 2)%nat in
  seg ← get_range buf 34 (34 + udp_len);
  _ ← assert_eq (l4_check (octets WAN_IP) [8; 8; 8; 8] proto_UDP seg) 0;
  frame ← get_range buf 0 n;
  eth ← expect (parse frame);
  ip ← expect (ipv4 eth);
  header ← ip_header ip;
  _ ← assert_eq (Ip.src header) WAN_IP;
  udp ← udp ip; udp ← expect udp;
  src_port ← udp_src_port udp;
  _ ← assert_eq src_port (new_src_port e);
  dst_port ← udp_dst_port udp;
  assert_eq dst_port 53.
Lemma translate_egress_udp_rewrites_and_checksums_passes : translate_egress_udp_rewrites_and_checksums = Ret ().
Proof. run_test. Qed.

Definition translate_egress_tcp_rewrites_and_checksums : test :=
  nat ← SourceNat.new WAN_IP 40000 40010;
  let buf := replicate 128 0 in
  r ← build_tcp buf (ip4 192 168 1 50) (ip4 8 8 8 8) 1234 80;
  let '(buf, n) := r in
  r ← on_prefix buf n (λ f, r ← translate_egress f nat; let '(f, nat, e) := r in mret (f, (nat, e)));
  let '(buf, (nat, e)) := r in
  e ← expect e;
  hdr ← get_range buf 14 34;
  _ ← assert_eq (Checksum.checksum hdr) 0;
  seg ← get_range buf 34 (34 + 20);
  _ ← assert_eq (l4_check (octets WAN_IP) [8; 8; 8; 8] proto_TCP seg) 0;
  frame ← get_range buf 0 n;
  eth ← expect (parse frame);
  ip ← expect (ipv4 eth);
  header ← ip_header ip;
  _ ← assert_eq (Ip.src header) WAN_IP;
  tcp ← tcp ip; tcp ← expect tcp;
  src_port ← tcp_src_port tcp;
  _ ← assert_eq src_port (new_src_port e);
  dst_port ← tcp_dst_port tcp;
  assert_eq dst_port 80.
Lemma translate_egress_tcp_rewrites_and_checksums_passes : translate_egress_tcp_rewrites_and_checksums = Ret ().
Proof. run_test. Qed.

Definition egress_then_ingress_round_trips_udp : test :=
  nat ← SourceNat.new WAN_IP 40000 40010;
  let host := ip4 192 168 1 50 in
  let remote := ip4 8 8 8 8 in
  let '(nat, e) := egress nat L4_Udp host 5000 in
  e ← expect e;
  let ext := new_src_port e in
  let p := {| src_mac := [2; 0; 0; 0; 0; 2]; dst_mac := [2; 0; 0; 0; 0; 1];
              src_ip := remote; Frame.dst_ip := WAN_IP;
              Frame.src_port := 53; Frame.dst_port := ext; ttl := 64 |} in
  let buf := replicate 128 0 in
  r ← build_udp_ipv4 buf p [7; 7; 7];
  let '(buf, n) := r in
  n ← expect n;
  r ← on_prefix buf n (λ f, translate_ingress f nat);
  let '(buf, r) := r in
  r ← expect r;
  _ ← assert_eq (SourceNat.dst_ip r) host;
  _ ← assert_eq (SourceNat.dst_port r) 5000;
  hdr ← get_range buf 14 34;
  _ ← assert_eq (Checksum.checksum hdr) 0;
  let udp_len := (8 + 3)%nat in
  seg ← get_range buf 34 (34 + udp_len);
  _ ← assert_eq (l4_check (octets remote) (octets host) proto_UDP seg) 0;
  frame ← get_range buf 0 n;
  eth ← expect (parse frame);
  ip ← expect (ipv4 eth);
  header ← ip_header ip;
  _ ← assert_eq (Ip.dst header) host;
  udp ← udp ip; udp ← expect udp;
  dst_port ← udp_dst_port udp;
  assert_eq dst_port 5000.
Lemma egress_then_ingress_round_trips_udp_passes : egress_then_ingress_round_trips_udp = Ret ().
Proof. run_test. Qed.

Definition ingress_without_binding_is_dropped : test :=
  nat ← SourceNat.new WAN_IP 40000 40010;
  let p := {| src_mac := [2; 0; 0; 0; 0; 2]; dst_mac := [2; 0; 0; 0; 0; 1];
              src_ip := ip4 8 8 8 8; Frame.dst_ip := WAN_IP;
              Frame.src_port := 53; Frame.dst_port := 40005; ttl := 64 |} in
  let buf := replicate 128 0 in
  r ← build_udp_ipv4 buf p [0];
  let '(buf, n) := r in
  n ← expect n;
  r ← on_prefix buf n (λ f, translate_ingress f nat);
  let '(buf, r) := r in
  assert_ (negb (bool_decide (is_Some r))).
Lemma ingress_without_binding_is_dropped_passes : ingress_without_binding_is_dropped = Ret ().
Proof. run_test. Qed.

Definition non_tcp_udp_is_ignored : test :=
  nat ← SourceNat.new WAN_IP 40000 40010;
  let buf := replicate 60 0 in
  buf ← copy_range buf 12 14 (to_be16 ethertype_ARP);
  r ← translate_egress buf nat;
  let '(buf, nat, e) := r in
  assert_ (negb (bool_decide (is_Some e))).
Lemma non_tcp_udp_is_ignored_passes : non_tcp_udp_is_ignored = Ret ().
Proof. run_test. Qed.
