(* ===== verification/TestsHosts.v ===== *)
(** * The unit tests of the tables about hosts ([src/router/neighbor.rs],
      [arp.rs], [pool.rs], [leases.rs], [dhcp.rs])

    Translated as in [TestsNet].  The clones of a shared handle are one table,
    and a thread that is joined at once has made its calls before the next
    ones. *)

From stdpp Require Import sorting.
From S2P Require Import Prelude Arp View AddrPool Leases DhcpServer DhcpClient Neighbor Worker TestsNet.

(** [sort] and [dedup] of a vector. *)
Definition vec_sort (l : list Z) : list Z := merge_sort Z.le l.
Fixpoint vec_dedup (l : list Z) : list Z :=
  match l with
  | x :: (y :: _) as rest => if x =? y then vec_dedup rest else x :: vec_dedup rest
  | _ => l
  end.
(** The ARP packet of a frame, where there is one. *)
Definition arp_of_frame (f : bytes) : outcome ArpPacket := e ← expect (parse f); expect (arp e).

(** ** [src/router/neighbor.rs] *)

Module NeighborTests.
Definition OUR_MAC : MacAddr := [0x02; 0; 0; 0; 0; 0x01].
Definition OUR_IP : Ipv4Addr := ip4 192 168 1 1.
Definition PEER_IP : Ipv4Addr := ip4 192 168 1 50.
Definition PEER_MAC : MacAddr := [0x02; 0; 0; 0; 0; 0x50].
Definition T0 : Tick := 0.

Abbreviation table := (Neighbor.new (P := Z) OUR_MAC OUR_IP).
Definition room : bytes := replicate FRAME_LEN 0.
Definition all_zero (b : bytes) : bool := forallb (λ x, x =? 0) b.
(** [matches!(a, Action::Queued { .. })], with and without a request. *)
Definition is_queued (a : Neighbor.Action Z) : bool := match a with Queued _ => true | _ => false end.
Definition is_queued_first (a : Neighbor.Action Z) : bool := match a with Queued (Some _) => true | _ => false end.
Definition is_queued_again (a : Neighbor.Action Z) : bool := match a with Queued None => true | _ => false end.

Definition cache_hit_forwards_immediately : test :=
  let n := table in
  let n := Neighbor.insert_ n PEER_IP PEER_MAC T0 in
  let '(n, req, a) := resolve n PEER_IP 42 room T0 in
  _ ← match a with
      | Forward mac packet => _ ← assert_eq mac PEER_MAC; assert_eq packet 42
      | _ => Panic
      end;
  assert_ (all_zero req).
Lemma cache_hit_forwards_immediately_passes : cache_hit_forwards_immediately = Ret ().
Proof. run_test. Qed.

Definition miss_queues_and_emits_request_only_on_first : test :=
  let n := table in
  let '(n, req, first) := resolve n PEER_IP 1 room T0 in
  _ ← match first with
      | Queued (Some len) =>
        _ ← assert_eq len FRAME_LEN;
        arp ← arp_of_frame req;
        _ ← assert_ (is_request arp);
        _ ← assert_eq (target_ip arp) PEER_IP;
        assert_eq (sender_ip arp) OUR_IP
      | _ => Panic
      end;
  let '(n, req2, second) := resolve n PEER_IP 2 room T0 in
  _ ← assert_ (is_queued_again second);
  _ ← assert_ (all_zero req2);
  assert_eq (pending_targets n) 1%nat.
Lemma miss_queues_and_emits_request_only_on_first_passes : miss_queues_and_emits_request_only_on_first = Ret ().
Proof. run_test. Qed.

Definition arp_reply_unblocks_queued_packets : test :=
  let n := table in
  let '(n, req, _) := resolve n PEER_IP 10 room T0 in
  let '(n, req, _) := resolve n PEER_IP 11 req T0 in
  let '(n, req, _) := resolve n PEER_IP 12 req T0 in
  _ ← assert_eq (pending_targets n) 1%nat;
  let '(reply, len) := Arp.build_reply room PEER_MAC PEER_IP OUR_MAC OUR_IP in
  _ ← expect len;
  pkt ← arp_of_frame reply;
  let '(n, r) := on_arp n (sender_ip pkt) (sha pkt) T0 in
  r ← expect r;
  let '(mac, drained) := r in
  _ ← assert_eq mac PEER_MAC;
  _ ← assert_eq (vec_sort drained) [10; 11; 12];
  _ ← assert_eq (pending_targets n) 0%nat;
  assert_eq (Neighbor.lookup_ n PEER_IP) (Some PEER_MAC).
Lemma arp_reply_unblocks_queued_packets_passes : arp_reply_unblocks_queued_packets = Ret ().
Proof. run_test. Qed.

Fixpoint queue_all (n : NeighborTable Z) (req : bytes) (ids : list Z) : outcome (NeighborTable Z * bytes) :=
  match ids with
  | [] => mret (n, req)
  | i :: ids =>
    let '(n, req, a) := resolve n PEER_IP i req T0 in
    _ ← assert_ (is_queued a);
    queue_all n req ids
  end.
Definition pending_queue_overflows_into_drop : test :=
  r ← queue_all table room (Z.of_nat <$> seq 0 MAX_PENDING_PER_IP);
  let '(n, req) := r in
  let '(n, req, a) := resolve n PEER_IP 999 req T0 in
  match a with
  | Drop_ packet => assert_eq packet 999
  | _ => Panic
  end.
Lemma pending_queue_overflows_into_drop_passes : pending_queue_overflows_into_drop = Ret ().
Proof. run_test. Qed.

Definition on_arp_learns_even_without_pending_packets : test :=
  let n := table in
  let '(frame, len) := Arp.build_request room PEER_MAC PEER_IP OUR_IP in
  _ ← expect len;
  pkt ← arp_of_frame frame;
  let '(n, r) := on_arp n (sender_ip pkt) (sha pkt) T0 in
  _ ← assert_ (negb (bool_decide (is_Some r)));
  assert_eq (Neighbor.lookup_ n PEER_IP) (Some PEER_MAC).
Lemma on_arp_learns_even_without_pending_packets_passes : on_arp_learns_even_without_pending_packets = Ret ().
Proof. run_test. Qed.

Definition sweep_retransmits_then_drops : test :=
  let n := table in
  let '(n, req, a) := resolve n PEER_IP 7 room T0 in
  _ ← assert_ (is_queued_first a);
  let emitted := 0%nat in
  let '(n, dropped, sent) := Neighbor.sweep map_to_list n (REQUEST_INTERVAL_MS - 1) in
  let emitted := (emitted + length sent)%nat in
  _ ← assert_eq emitted 0%nat;
  _ ← assert_eq dropped [];
  let '(n, dropped, sent) := Neighbor.sweep map_to_list n REQUEST_INTERVAL_MS in
  let emitted := (emitted + length sent)%nat in
  _ ← assert_eq emitted 1%nat;
  _ ← assert_eq dropped [];
  let '(n, dropped, sent) := Neighbor.sweep map_to_list n (2 * REQUEST_INTERVAL_MS) in
  let emitted := (emitted + length sent)%nat in
  _ ← assert_eq emitted 2%nat;
  _ ← assert_eq dropped [];
  let '(n, dropped, sent) := Neighbor.sweep map_to_list n (3 * REQUEST_INTERVAL_MS) in
  let emitted := (emitted + length sent)%nat in
  _ ← assert_eq emitted 2%nat;
  _ ← assert_eq dropped [7];
  assert_eq (pending_targets n) 0%nat.
Lemma sweep_retransmits_then_drops_passes : sweep_retransmits_then_drops = Ret ().
Proof. run_test. Qed.

Definition sweep_ages_out_stale_cache_entries : test :=
  let n := table in
  let n := Neighbor.insert_ n PEER_IP PEER_MAC T0 in
  _ ← assert_eq (Neighbor.lookup_ n PEER_IP) (Some PEER_MAC);
  let '(n, _, _) := Neighbor.sweep map_to_list n (CACHE_TTL_MS - 1) in
  _ ← assert_eq (Neighbor.lookup_ n PEER_IP) (Some PEER_MAC);
  let '(n, _, _) := Neighbor.sweep map_to_list n CACHE_TTL_MS in
  assert_eq (Neighbor.lookup_ n PEER_IP) None.
Lemma sweep_ages_out_stale_cache_entries_passes : sweep_ages_out_stale_cache_entries = Ret ().
Proof. run_test. Qed.

Definition shared_clones_observe_one_table : test :=
  let a := table in
  let a := Neighbor.insert_ a PEER_IP PEER_MAC T0 in
  let b := a in
  _ ← assert_eq (Neighbor.lookup_ b PEER_IP) (Some PEER_MAC);
  _ ← assert_eq (known a) 1%nat;
  assert_eq (known b) 1%nat.
Lemma shared_clones_observe_one_table_passes : shared_clones_observe_one_table = Ret ().
Proof. run_test. Qed.

Definition shared_is_safe_across_threads : test :=
  let a := table in
  let a := Neighbor.insert_ a PEER_IP PEER_MAC T0 in
  assert_eq (Neighbor.lookup_ a PEER_IP) (Some PEER_MAC).
Lemma shared_is_safe_across_threads_passes : shared_is_safe_across_threads = Ret ().
Proof. run_test. Qed.

Definition shared_resolve_and_on_arp_round_trip : test :=
  let n := table in
  let '(n, req, a) := resolve n PEER_IP 7 room T0 in
  _ ← assert_ (is_queued_first a);
  let '(reply, len) := Arp.build_reply room PEER_MAC PEER_IP OUR_MAC OUR_IP in
  _ ← expect len;
  pkt ← arp_of_frame reply;
  let '(n, r) := on_arp n (sender_ip pkt) (sha pkt) T0 in
  r ← expect r;
  let '(mac, drained) := r in
  _ ← assert_eq mac PEER_MAC;
  _ ← assert_eq drained [7];
  assert_eq (Neighbor.lookup_ n PEER_IP) (Some PEER_MAC).
Lemma shared_resolve_and_on_arp_round_trip_passes : shared_resolve_and_on_arp_round_trip = Ret ().
Proof. run_test. Qed.
End NeighborTests.

(** ** [src/router/arp.rs] *)

Module ResponderTests.
Definition replies_only_for_owned_ips : test :=
  let our_mac := [0x02; 0; 0; 0; 0; 1] in
  let our_ip := ip4 192 168 1 1 in
  let peer_mac := [0x02; 0; 0; 0; 0; 2] in
  let peer_ip := ip4 192 168 1 50 in
  let '(req, len) := Arp.build_request (replicate FRAME_LEN 0) peer_mac peer_ip our_ip in
  _ ← expect len;
  let '(out, n) := respond our_mac [our_ip] req (replicate FRAME_LEN 0) in
  n ← expect n;
  _ ← assert_eq n FRAME_LEN;
  frame ← get_range out 0 n;
  reply ← arp_of_frame frame;
  _ ← assert_ (is_reply reply);
  _ ← assert_eq (sender_ip reply) our_ip;
  _ ← assert_eq (sha reply) our_mac;
  _ ← assert_eq (target_ip reply) peer_ip;
  let other := ip4 192 168 1 99 in
  let '(req2, len) := Arp.build_request (replicate FRAME_LEN 0) peer_mac peer_ip other in
  _ ← expect len;
  let '(out, n) := respond our_mac [our_ip] req2 out in
  assert_eq n None.
Lemma replies_only_for_owned_ips_passes : replies_only_for_owned_ips = Ret ().
Proof. run_test. Qed.
End ResponderTests.

(** ** [src/router/pool.rs] *)

Module PoolTests.
Fixpoint release_all (p : AddressPool) (addrs : list Ipv4Addr) : outcome AddressPool :=
  match addrs with [] => mret p | a :: addrs => p ← AddrPool.release p a; release_all p addrs end.

Definition test_roundtrip : test :=
  pool ← AddrPool.new (ip4 192 168 1 1) (ip4 192 168 1 254);
  r ← take_ pool 10;
  let '(pool, addrs) := r in
  addrs ← expect addrs;
  _ ← assert_eq (length addrs) 10%nat;
  a0 ← index addrs 0;
  _ ← assert_eq a0 (ip4 192 168 1 1);
  a9 ← index addrs 9;
  _ ← assert_eq a9 (ip4 192 168 1 10);
  _ ← assert_eq (intervals pool) [(ip4 192 168 1 11, ip4 192 168 1 254)];
  pool ← release_all pool addrs;
  assert_eq (intervals pool) [(ip4 192 168 1 1, ip4 192 168 1 254)].
Lemma test_roundtrip_passes : test_roundtrip = Ret ().
Proof. run_test. Qed.

Definition reserve_splits_shrinks_and_removes : test :=
  p ← AddrPool.new (ip4 10 0 0 1) (ip4 10 0 0 10);
  r ← AddrPool.reserve p (ip4 10 0 0 5);
  let '(p, a) := r in
  _ ← assert_eq a (Some (ip4 10 0 0 5));
  _ ← assert_eq (intervals p) [(ip4 10 0 0 1, ip4 10 0 0 4); (ip4 10 0 0 6, ip4 10 0 0 10)];
  r ← AddrPool.reserve p (ip4 10 0 0 5);
  _ ← assert_eq r.2 None;
  p ← AddrPool.new (ip4 10 0 0 1) (ip4 10 0 0 3);
  r ← AddrPool.reserve p (ip4 10 0 0 1);
  let '(p, a) := r in
  _ ← assert_eq a (Some (ip4 10 0 0 1));
  r ← AddrPool.reserve p (ip4 10 0 0 3);
  let '(p, a) := r in
  _ ← assert_eq a (Some (ip4 10 0 0 3));
  _ ← assert_eq (intervals p) [(ip4 10 0 0 2, ip4 10 0 0 2)];
  r ← AddrPool.reserve p (ip4 10 0 0 2);
  let '(p, a) := r in
  _ ← assert_eq a (Some (ip4 10 0 0 2));
  assert_eq (intervals p) [].
Lemma reserve_splits_shrinks_and_removes_passes : reserve_splits_shrinks_and_removes = Ret ().
Proof. run_test. Qed.

Definition reserve_handles_interior_address_in_pool : test :=
  p ← AddrPool.new (ip4 192 168 1 100) (ip4 192 168 1 200);
  r ← AddrPool.reserve p (ip4 192 168 1 150);
  let '(p, a) := r in
  _ ← assert_eq a (Some (ip4 192 168 1 150));
  r ← AddrPool.reserve p (ip4 192 168 1 50);
  let '(p, a) := r in
  _ ← assert_eq a None;
  r ← AddrPool.reserve p (ip4 192 168 1 250);
  let '(p, a) := r in
  _ ← assert_eq a None;
  r ← AddrPool.reserve p (ip4 0 0 0 0);
  assert_eq r.2 None.
Lemma reserve_handles_interior_address_in_pool_passes : reserve_handles_interior_address_in_pool = Ret ().
Proof. run_test. Qed.

Definition take_after_reserve_skips_the_reserved_address : test :=
  p ← AddrPool.new (ip4 10 0 0 1) (ip4 10 0 0 10);
  r ← AddrPool.reserve p (ip4 10 0 0 5);
  let '(p, _) := r in
  r ← take_ p 9;
  let '(p, addrs) := r in
  addrs ← expect addrs;
  _ ← assert_ (forallb (λ ip, negb (ip =? ip4 10 0 0 5)) addrs);
  _ ← assert_eq (length addrs) 9%nat;
  r ← take_ p 1;
  assert_ (negb (bool_decide (is_Some r.2))).
Lemma take_after_reserve_skips_the_reserved_address_passes : take_after_reserve_skips_the_reserved_address = Ret ().
Proof. run_test. Qed.
End PoolTests.

(** ** [src/router/leases.rs] *)

Module LeaseTests.
Definition MAC_A : MacAddr := [0x02; 0; 0; 0; 0; 0x10].
Definition MAC_B : MacAddr := [0x02; 0; 0; 0; 0; 0x11].
Definition IP_A : Ipv4Addr := ip4 192 168 1 100.
Definition IP_B : Ipv4Addr := ip4 192 168 1 101.

Definition clones_observe_one_table : test :=
  let a := Leases.default_ in
  let a := Leases.insert_ a MAC_A IP_A in
  let b := a in
  _ ← assert_eq (Leases.lookup_ b MAC_A) (Some IP_A);
  _ ← assert_eq (Leases.len a) 1%nat;
  assert_eq (Leases.len b) 1%nat.
Lemma clones_observe_one_table_passes : clones_observe_one_table = Ret ().
Proof. run_test. Qed.

Definition safe_across_threads : test :=
  let a := Leases.default_ in
  let a := Leases.insert_ a MAC_B IP_B in
  assert_eq (Leases.lookup_ a MAC_B) (Some IP_B).
Lemma safe_across_threads_passes : safe_across_threads = Ret ().
Proof. run_test. Qed.

Definition remove_returns_then_clears : test :=
  let l := Leases.default_ in
  let l := Leases.insert_ l MAC_A IP_A in
  let l := Leases.insert_ l MAC_B IP_B in
  let '(l, a) := Leases.remove l MAC_A in
  _ ← assert_eq a (Some IP_A);
  _ ← assert_ (negb (bool_decide (is_Some (Leases.lookup_ l MAC_A))));
  let '(l, a) := Leases.remove l MAC_A in
  _ ← assert_eq a None;
  _ ← assert_eq (Leases.lookup_ l MAC_B) (Some IP_B);
  assert_eq (Leases.len l) 1%nat.
Lemma remove_returns_then_clears_passes : remove_returns_then_clears = Ret ().
Proof. run_test. Qed.
End LeaseTests.

(** ** [src/router/dhcp.rs] *)

Module DhcpTests.
Definition with_dhcp {R} (frame : bytes) (f : DhcpView → outcome R) : outcome R :=
  eth ← expect (parse frame);
  ip ← expect (ipv4 eth);
  udp ← udp ip; udp ← expect udp;
  dhcp ← udp_dhcp udp; dhcp ← expect dhcp;
  f dhcp.

Abbreviation Server := (DhcpServer AddressPool).
(** The message of [n] bytes that the client left in [out] is handed to the
    server, and the reply to the client. *)
Definition deliver (client : DhcpClient) (server : Server) (out : bytes) (n : nat) (reply : bytes)
    : outcome (DhcpClient * Server * bytes) :=
  frame ← get_range out 0 n;
  r ← with_dhcp frame (λ v, handle server v reply);
  let '(server, reply, rn) := r in
  rn ← expect rn;
  frame ← get_range reply 0 rn;
  client ← with_dhcp frame (λ v, on_receive client v);
  mret (client, server, reply).
(** [client.poll(&mut out).unwrap()]. *)
Definition poll_ (client : DhcpClient) (out : bytes) : outcome (DhcpClient * bytes * nat) :=
  p ← poll client out;
  let '(client, out, n) := p in
  n ← expect n;
  mret (client, out, n).

Definition full_dora_between_client_and_server : test :=
  let client_mac := [0x02; 0; 0; 0; 0; 0x10] in
  let server_mac := [0x02; 0; 0; 0; 0; 0x01] in
  let server_ip := ip4 192 168 1 1 in
  pool ← AddrPool.new (ip4 192 168 1 100) (ip4 192 168 1 110);
  reserved ← AddrPool.reserve pool server_ip;
  let client := DhcpClient.new client_mac 0xABCD1234 in
  let server := {|
    cfg := {| DhcpServer.server_ip := server_ip; DhcpServer.server_mac := server_mac; gateway := server_ip;
              subnet_mask := ip4 255 255 255 0; dns := [ip4 1 1 1 1]; lease_secs := 3600 |};
    pool := reserved.1;
    leases := Leases.default_ |} in
  let out := replicate 600 0 in
  let reply := replicate 600 0 in
  p ← poll_ client out;
  let '(client, out, n) := p in
  _ ← assert_eq (DhcpClient.state client) Selecting;
  r ← deliver client server out n reply;
  let '(client, server, reply) := r in
  _ ← assert_eq (DhcpClient.state client) Requesting;
  p ← poll_ client out;
  let '(client, out, n) := p in
  r ← deliver client server out n reply;
  let '(client, server, reply) := r in
  _ ← assert_eq (DhcpClient.state client) Bound;
  lease ← expect (lease client);
  _ ← assert_ (ip4 192 168 1 100 <=? ip lease);
  _ ← assert_ (ip lease <=? ip4 192 168 1 110);
  _ ← assert_eq (lease_gateway lease) (Some server_ip);
  _ ← assert_eq (DhcpClient.lease_server_id lease) (Some server_ip);
  _ ← assert_eq (lease_time lease) (Some 3600);
  _ ← assert_eq (DhcpClient.lease_subnet_mask lease) (Some (ip4 255 255 255 0));
  assert_eq (lease_of server client_mac) (Some (ip lease)).
Lemma full_dora_between_client_and_server_passes : full_dora_between_client_and_server = Ret ().
Proof. run_test. Qed.

Fixpoint offer_each (server : Server) (out reply : bytes) (lasts : list Z) : outcome (list Ipv4Addr) :=
  match lasts with
  | [] => mret []
  | last :: lasts =>
    p ← poll_ (DhcpClient.new [0x02; 0; 0; 0; 0; last] last) out;
    let '(c, out, n) := p in
    r ← deliver c server out n reply;
    let '(c, server, reply) := r in
    ip ← expect (offered_ip c);
    ips ← offer_each server out reply lasts;
    mret (ip :: ips)
  end.
Definition distinct_clients_get_distinct_addresses : test :=
  let server_ip := ip4 10 0 0 1 in
  pool ← AddrPool.new (ip4 10 0 0 100) (ip4 10 0 0 110);
  let server := {|
    cfg := {| DhcpServer.server_ip := server_ip; server_mac := [0x02; 0; 0; 0; 0; 1]; gateway := server_ip;
              subnet_mask := ip4 255 255 255 0; dns := []; lease_secs := 600 |};
    pool := pool;
    leases := Leases.default_ |} in
  offered ← offer_each server (replicate 600 0) (replicate 600 0) [0x20; 0x21; 0x22];
  assert_eq (length (vec_dedup (vec_sort offered))) 3%nat.
Lemma distinct_clients_get_distinct_addresses_passes : distinct_clients_get_distinct_addresses = Ret ().
Proof. run_test. Qed.

(** Two servers over one pool and one lease table, as they stand after [s]. *)
Definition make (s : AddressPool * LeaseTable) (mac : MacAddr) : Server := {|
  cfg := {| DhcpServer.server_ip := ip4 192 168 1 1; server_mac := mac; gateway := ip4 192 168 1 1;
            subnet_mask := ip4 255 255 255 0; dns := []; lease_secs := 600 |};
  pool := s.1;
  leases := s.2 |}.
Definition shared (s : Server) : AddressPool * LeaseTable := (pool s, leases s).
Definition bridged_servers_share_leases_across_a_roam : test :=
  let client_mac := [0x02; 0; 0; 0; 0; 0x10] in
  let mac_a := [0x02; 0; 0; 0; 0; 0x01] in
  let mac_b := [0x02; 0; 0; 0; 0; 0x02] in
  pool ← AddrPool.new (ip4 192 168 1 100) (ip4 192 168 1 110);
  let s := (pool, Leases.default_) in
  let client := DhcpClient.new client_mac 0xCAFEBABE in
  let reply := replicate 600 0 in
  p ← poll_ client (replicate 600 0);
  let '(client, out, n) := p in
  r ← deliver client (make s mac_a) out n reply;
  let '(client, server_a, reply) := r in
  let s := shared server_a in
  p ← poll_ client out;
  let '(client, out, n) := p in
  r ← deliver client (make s mac_b) out n reply;
  let '(client, server_b, reply) := r in
  let s := shared server_b in
  _ ← assert_eq (DhcpClient.state client) Bound;
  ip ← expect (bound_ip client);
  _ ← assert_eq (lease_of (make s mac_a) client_mac) (Some ip);
  _ ← assert_eq (lease_of (make s mac_b) client_mac) (Some ip);
  assert_eq (Leases.len s.2) 1%nat.
Lemma bridged_servers_share_leases_across_a_roam_passes : bridged_servers_share_leases_across_a_roam = Ret ().
Proof. run_test. Qed.
End DhcpTests.
