(* ===== verification/TestsMem.v ===== *)
(** * The unit tests of the memory components ([src/mem/])

    Translated as in [TestsNet].  The allocator's tests run over a buffer at an
    address the standard allocator chooses; they are run at as many consecutive
    addresses as the alignment that they ask for. *)

From S2P Require Import Prelude Ring Alloc ObjectPool TestsNet.

(** ** [src/mem/alloc.rs] *)

Module AllocTests.
Definition make (at_ sz : Z) : outcome FreeList := Alloc.new at_ sz (zeroed (Z.to_nat (sz / 8))).
(** [Layout::from_size_align]: a size that does not overflow when rounded up,
    and a power of two. *)
Definition from_size_align (sz align : Z) : option Layout :=
  if (align =? 2 ^ Z.log2 align) && (sz <=? 2 ^ 63 - align) then Some {| layout_size := sz; layout_align := align |} else None.
(** A typed access to the word at an address. *)
Definition write_u64 (l : FreeList) (p x : Z) : outcome FreeList := store l (p - base l) x.
Definition read_u64 (l : FreeList) (p : Z) : outcome Z := load l (p - base l).

Definition alloc_is_within_arena_and_aligned (at_ : Z) : test :=
  th ← make at_ 4096;
  layout ← expect (from_size_align 100 8);
  r ← Alloc.alloc th layout;
  p ← expect r.2;
  assert_eq (p `mod` 8) 0.

Definition honours_large_alignment (at_ : Z) : test :=
  th ← make at_ 4096;
  layout ← expect (from_size_align 200 64);
  r ← Alloc.alloc th layout;
  p ← expect r.2;
  assert_eq (p `mod` 64) 0.

Definition distinct_blocks_do_not_overlap (at_ : Z) : test :=
  th ← make at_ 4096;
  layout ← expect (from_size_align 128 8);
  r ← Alloc.alloc th layout;
  let '(th, a) := r in
  r ← Alloc.alloc th layout;
  let '(th, b) := r in
  a ← expect a; b ← expect b;
  th ← write_u64 th a 0x1111;
  th ← write_u64 th b 0x2222;
  x ← read_u64 th a;
  _ ← assert_eq x 0x1111;
  y ← read_u64 th b;
  _ ← assert_eq y 0x2222;
  assert_ (128 <=? Z.abs (a - b)).

Definition free_then_alloc_coalesces_back_to_full (at_ : Z) : test :=
  th ← make at_ 4096;
  init ← free_bytes th;
  layout ← expect (from_size_align 64 8);
  r ← Alloc.alloc th layout;
  let '(th, p) := r in
  p ← expect p;
  free ← free_bytes th;
  _ ← assert_ (free <? init);
  th ← dealloc th p layout;
  free ← free_bytes th;
  assert_eq free init.

Definition coalesces_three_freed_blocks (at_ : Z) : test :=
  th ← make at_ 4096;
  init ← free_bytes th;
  layout ← expect (from_size_align 64 8);
  r ← Alloc.alloc th layout;
  let '(th, a) := r in
  r ← Alloc.alloc th layout;
  let '(th, b) := r in
  r ← Alloc.alloc th layout;
  let '(th, c) := r in
  a ← expect a; b ← expect b; c ← expect c;
  th ← dealloc th a layout;
  th ← dealloc th c layout;
  th ← dealloc th b layout;
  free ← free_bytes th;
  _ ← assert_eq free init;
  big ← expect (from_size_align (init - MIN_BLOCK) 8);
  r ← Alloc.alloc th big;
  assert_ (bool_decide (is_Some r.2)).

(** The loop ends because every turn takes 64 of at most 256 bytes. *)
Fixpoint take_until_null (fuel : nat) (th : FreeList) (layout : Layout) (handed_out : list Z) : outcome (FreeList * list Z) :=
  match fuel with
  | 0%nat => Panic
  | S fuel =>
    r ← Alloc.alloc th layout;
    match r with
    | (th, None) => mret (th, handed_out)
    | (th, Some p) => take_until_null fuel th layout (handed_out ++ [p])
    end
  end.
Definition exhaustion_returns_null (at_ : Z) : test :=
  th ← make at_ 256;
  layout ← expect (from_size_align 64 8);
  r ← take_until_null 5 th layout [];
  let '(th, handed_out) := r in
  _ ← assert_ (negb (bool_decide (handed_out = [])));
  r ← Alloc.alloc th layout;
  assert_eq r.2 None.

Definition passed (t : test) : bool := match t with Ret _ => true | Panic => false end.
Lemma passes_everywhere (n : nat) (t : Z → test) :
  forallb (λ k, passed (t (4096 + Z.of_nat k))) (seq 0 n) = true → ∀ k, (k < n)%nat → t (4096 + Z.of_nat k) = Ret ().
Proof.
  intros H k Hk. rewrite forallb_forall in H. specialize (H k ltac:(apply in_seq; lia)).
  by destruct (t _) as [[]|].
Qed.
Ltac run_everywhere := apply passes_everywhere; vm_compute; reflexivity.

Lemma alloc_is_within_arena_and_aligned_passes k : (k < 8)%nat → alloc_is_within_arena_and_aligned (4096 + Z.of_nat k) = Ret ().
Proof. revert k. run_everywhere. Qed.
Lemma honours_large_alignment_passes k : (k < 64)%nat → honours_large_alignment (4096 + Z.of_nat k) = Ret ().
Proof. revert k. run_everywhere. Qed.
Lemma distinct_blocks_do_not_overlap_passes k : (k < 8)%nat → distinct_blocks_do_not_overlap (4096 + Z.of_nat k) = Ret ().
Proof. revert k. run_everywhere. Qed.
Lemma free_then_alloc_coalesces_back_to_full_passes k :
  (k < 8)%nat → free_then_alloc_coalesces_back_to_full (4096 + Z.of_nat k) = Ret ().
Proof. revert k. run_everywhere. Qed.
Lemma coalesces_three_freed_blocks_passes k : (k < 8)%nat → coalesces_three_freed_blocks (4096 + Z.of_nat k) = Ret ().
Proof. revert k. run_everywhere. Qed.
Lemma exhaustion_returns_null_passes k : (k < 8)%nat → exhaustion_returns_null (4096 + Z.of_nat k) = Ret ().
Proof. revert k. run_everywhere. Qed.
End AllocTests.

(** ** [src/mem/ring.rs] *)

Module RingTests.
(** [ring.push(x).unwrap()] and [ring.pop().unwrap()]. *)
Definition push_ (N : nat) (ring : SpscRing) (x : Z) : outcome SpscRing :=
  r ← Ring.push N ring x;
  match r with (ring, inl _) => mret ring | (_, inr _) => Panic end.
Definition pop_ (N : nat) (ring : SpscRing) : outcome (SpscRing * Z) :=
  r ← Ring.pop N ring;
  x ← expect r.2;
  mret (r.1, x).

Definition push_pop_single : test :=
  let ring := Ring.new 4 in
  _ ← assert_ (Ring.is_empty 4 ring);
  ring ← push_ 4 ring 42;
  _ ← assert_eq (Ring.len 4 ring) 1%nat;
  r ← pop_ 4 ring;
  let '(ring, val) := r in
  _ ← assert_eq val 42;
  assert_ (Ring.is_empty 4 ring).
Lemma push_pop_single_passes : push_pop_single = Ret ().
Proof. run_test. Qed.

Definition push_until_full : test :=
  let ring := Ring.new 4 in
  ring ← push_ 4 ring 1;
  ring ← push_ 4 ring 2;
  ring ← push_ 4 ring 3;
  _ ← assert_eq (Ring.len 4 ring) 3%nat;
  result ← Ring.push 4 ring 4;
  match result with
  | (_, inl _) => Panic
  | (_, inr x) => assert_eq x 4
  end.
Lemma push_until_full_passes : push_until_full = Ret ().
Proof. run_test. Qed.

Definition pop_empty : test :=
  let ring := Ring.new (T := Z) 4 in
  r ← Ring.pop 4 ring;
  assert_eq r.2 None.
Lemma pop_empty_passes : pop_empty = Ret ().
Proof. run_test. Qed.

Fixpoint push_each (N : nat) (ring : SpscRing) (l : list Z) : outcome SpscRing :=
  match l with [] => mret ring | i :: l => ring ← push_ N ring i; push_each N ring l end.
Fixpoint pop_each (N : nat) (ring : SpscRing) (l : list Z) : outcome SpscRing :=
  match l with
  | [] => mret ring
  | i :: l => r ← pop_ N ring; let '(ring, x) := r in _ ← assert_eq x i; pop_each N ring l
  end.
Definition fifo_order : test :=
  let ring := Ring.new 8 in
  ring ← push_each 8 ring (Z.of_nat <$> seq 0 7);
  _ ← pop_each 8 ring (Z.of_nat <$> seq 0 7);
  mret ().
Lemma fifo_order_passes : fifo_order = Ret ().
Proof. run_test. Qed.

Fixpoint fill_and_drain (times : nat) (ring : SpscRing) : test :=
  match times with
  | 0%nat => mret ()
  | S times =>
    ring ← push_each 4 ring [1; 2; 3];
    ring ← pop_each 4 ring [1; 2; 3];
    _ ← assert_ (Ring.is_empty 4 ring);
    fill_and_drain times ring
  end.
Definition wrap_around : test := fill_and_drain 10 (Ring.new 4).
Lemma wrap_around_passes : wrap_around = Ret ().
Proof. run_test. Qed.

Definition capacity : test := assert_eq (Ring.capacity 16) 15%nat.
Lemma capacity_passes : capacity = Ret ().
Proof. run_test. Qed.

(** The test with two threads: the producer retries each of the numbers below
    [count] in turn until it is pushed, and what the consumer has received is
    the numbers in order.  This holds for every interleaving, not only for those
    that a run of the test happens to see. *)
Definition count : nat := Z.to_nat 10000.
Definition producer_ring (s : Ring.Sys (T := Z)) : Prop := pushed (trace s) `prefix_of` (Z.of_nat <$> seq 0 count).
Definition spsc_across_threads (s : Ring.Sys (T := Z)) : Prop :=
  ∀ i val, popped (trace s) !! i = Some val → val = Z.of_nat i.
Lemma spsc_across_threads_passes s : rtc (Ring.step 1024) (Ring.start 1024) s → producer_ring s → spsc_across_threads s.
Proof.
  intros Hrun [l Hp] i val Hi. apply reachable_holds in Hrun as (n & q & Hs); [|lia].
  pose proof (spec_fifo _ _ _ (h_spec _ _ _ _ Hs)) as E.
  assert ((Z.of_nat <$> seq 0 count) !! i = Some val) as Hv by (rewrite Hp, E, <- app_assoc; by apply lookup_app_l_Some).
  rewrite list_lookup_fmap in Hv. apply fmap_Some in Hv as (j & Hj & ->). by apply lookup_seq in Hj as [-> _].
Qed.
End RingTests.

(** ** [src/mem/pool.rs]

    The values whose destructors run are returned; the counter of [Dropper] is
    their number. *)

Module PoolTests.
Import ObjectPool.Pool.
(** [pool.alloc(v).unwrap()]. *)
Definition alloc_ {T} (p : ObjectPool (T := T)) (v : T) : outcome (ObjectPool (T := T) * nat) :=
  r ← alloc p v;
  i ← expect r.2;
  mret (r.1, i).
Inductive Dropper := Dropper_.

Definition many_handles_live_at_once : test :=
  let pool := new 4 in
  r ← alloc_ pool 1;
  let '(pool, a) := r in
  r ← alloc_ pool 2;
  let '(pool, b) := r in
  r ← alloc_ pool 3;
  let '(pool, c) := r in
  x ← as_ref pool a; y ← as_ref pool b; z ← as_ref pool c;
  _ ← assert_eq (x + y + z) 6;
  _ ← assert_eq (available pool) 1%nat;
  assert_eq (Pool.capacity pool) 4%nat.
Lemma many_handles_live_at_once_passes : many_handles_live_at_once = Ret ().
Proof. run_test. Qed.

Definition exhaustion_returns_none : test :=
  let pool := new 1 in
  r ← alloc_ pool 10;
  let '(pool, _a) := r in
  r ← alloc pool 20;
  assert_eq r.2 None.
Lemma exhaustion_returns_none_passes : exhaustion_returns_none = Ret ().
Proof. run_test. Qed.

Definition slot_is_reused_after_drop : test :=
  let pool := new 1 in
  r ← alloc_ pool 10;
  let '(pool, a) := r in
  let i := a in
  r ← drop_obj pool a;
  let pool := r.1 in
  r ← alloc_ pool 20;
  let '(pool, b) := r in
  _ ← assert_eq b i;
  x ← as_ref pool b;
  assert_eq x 20.
Lemma slot_is_reused_after_drop_passes : slot_is_reused_after_drop = Ret ().
Proof. run_test. Qed.

Definition value_dropped_once_on_handle_drop : test :=
  let n := 0%nat in
  let pool := new 2 in
  r ← alloc_ pool Dropper_;
  let '(pool, h) := r in
  r ← drop_obj pool h;
  let n := (n + length r.2)%nat in
  assert_eq n 1%nat.
Lemma value_dropped_once_on_handle_drop_passes : value_dropped_once_on_handle_drop = Ret ().
Proof. run_test. Qed.

Definition pool_drop_releases_leaked_handle : test :=
  let n := 0%nat in
  let pool := new 2 in
  r ← alloc_ pool Dropper_;
  let '(pool, _h) := r in
  _ ← assert_eq n 0%nat;
  dropped ← drop_pool pool;
  let n := (n + length dropped)%nat in
  assert_eq n 1%nat.
Lemma pool_drop_releases_leaked_handle_passes : pool_drop_releases_leaked_handle = Ret ().
Proof. run_test. Qed.

Definition into_inner_moves_without_double_drop : test :=
  let n := 0%nat in
  let pool := new 2 in
  r ← alloc_ pool Dropper_;
  let '(pool, h) := r in
  r ← into_inner pool h;
  let '(pool, v) := r in
  _ ← assert_eq n 0%nat;
  _ ← assert_eq (available pool) 2%nat;
  let n := (n + length [v])%nat in
  assert_eq n 1%nat.
Lemma into_inner_moves_without_double_drop_passes : into_inner_moves_without_double_drop = Ret ().
Proof. run_test. Qed.
End PoolTests.
